(* ===== verification/_CoqProject ===== *)
-Q . S2P
Prelude.v
PersistFunc.v
UIDGen.v
FixedBuffers.v
Containers.v
CircBuffer.v
ToBePersisted.v
TransTrackers.v
ToBeFreed.v
PersistTracker.v
Mindicator.v
RCUTracker.v
Dcss.v
DcssConc.v
DcssLin.v
EpochSys.v
Recovery.v
Advancer.v
Recoverable.v
Versions.v
PayloadApi.v
History.v
EpochApi.v
Crash.v
Restart.v
Config.v
InPlaceString.v
HashTable.v
MQueue.v
MSQueue.v
MSQueueInv.v
MSQueueLin.v
LfHashTable.v
LfChain.v
LfTableInv.v
LfTableRead.v
LfTableWrite.v
LfTableUpdate.v
LfTableSteps.v
LfTableLin.v
LfRecover.v
LfRestart.v
LfRecoverEnd.v
NatarajanTree.v
NatarajanShape.v
NatarajanSeek.v
NatarajanInv.v
NatarajanOps.v
NatarajanSeq.v
Graph.v
GraphOps.v
GraphRecover.v
Clients.v
GraphClients.v
