(* ===== verification/Prelude.v ===== *)
(** * Montage: a verification library

    Montage (src/src/) is a library for buffered persistent data structures on
    nonvolatile memory.  Time is divided into epochs.  A data structure keeps its
    contents in payload blocks ([PBlk]) and brackets its operations with
    [begin_op] and [end_op]; a block written in an epoch reaches memory by the
    end of the next one; a block that is updated in a later epoch is copied, so
    the state at the end of each of the last two epochs can be recovered after a
    crash.

    ** The parts of the program and the files that model them

    - src/persist/common_macros.hpp, the C++ outcomes and integers: [Prelude]
      (this file).  A function returns, throws, or stops on an assertion
      ([outcome]); stateful code runs in the state monad [M], where the state
      survives an exception.  [uint64_t] is [Z] with wrap-around written out
      ([u64], [+₆], [-₆]); memory is sequentially consistent.
    - src/utils/PersistFunc.hpp: [PersistFunc], functions as the lists of
      write-back events they issue.
    - src/persist/persist_utils.hpp: [UIDGen] (UIDGenerator), [FixedBuffers]
      (FixedCircBuffer, sequential and with concurrent consumers; FixedHashSet),
      [CircBuffer] (CircBuffer and PerThreadCircBuffer) and, with
      src/persist/PerThreadContainers.hpp, [Containers] (the FixedContainer
      interface and its two implementations, PerThreadVector, VectorContainer)
      and [CircBuffer] (the PerThreadContainer interface, CircBufferContainer).
    - src/persist/ToBePersistedContainers.*: [ToBePersisted] (BufferedWB, DirWB).
    - src/persist/ToBeFreedContainers.*: [ToBeFreed] (the thread-local and the
      per-epoch container).
    - src/persist/TransactionTrackers.*: [TransTrackers] (three trackers behind
      the class [Tracker], and the protocol between workers and epoch advancers
      as a step relation).
    - src/persist/PersistTrackers.hpp: [PersistTracker] (IncreasingMindicator,
      also with concurrent updates) and [Mindicator].
    - src/utils/RCUTracker.hpp: [RCUTracker], the methods and the interleavings
      of the threads that call them.
    - src/persist/EpochSys.*: [Dcss] (lin_var, sc_desc_t, the double-compare
      operations, run alone), [DcssConc] (the same operations cut into their
      atomic steps, any number of threads and helpers) and [DcssLin] (their
      linearizability), [EpochSys] (blocks, transactions and epoch boundaries of
      EpochSys and nbEpochSys, over the containers above), [Config] (parse_env),
      [Recovery] (both recover functions), [Restart] (init on a heap to recover).
    - src/persist/EpochAdvancers.*: [Advancer].
    - src/persist/api/Recoverable.*: [Recoverable], over both epoch systems.
    - src/persist/InPlaceString.hpp: [InPlaceString].
    - src/rideables/MontageHashTable.hpp and MontageQueue.hpp: [HashTable] and
      [MQueue].
    - src/rideables/MontageMSQueue.hpp: [MSQueue] (the code, any number of threads,
      one shared access at a time, and the atomic queue), [MSQueueInv] (the
      invariant, over the history of all nodes) and [MSQueueLin] (the theorems).
    - src/rideables/MontageLfHashTable.hpp: [LfHashTable] (the code, one shared
      access at a time, and the atomic map), [LfChain] (the lists behind the
      buckets), [LfTableInv] (the invariant), [LfTableRead], [LfTableWrite],
      [LfTableUpdate] and [LfTableSteps] (its preservation by the accesses that
      read, unlink or link, mark, and by every step), [LfTableLin] (the theorems
      about runs), [LfRecover] (the recovery, as a run of the table), [LfRestart] (crash,
      recovery and a new run) and [LfRecoverEnd] (the recovery ends).
    - src/rideables/MontageNatarajanTree.hpp: [NatarajanTree] (the code, one shared access at a
      time), [NatarajanShape] (the tree as a term, its places and edges), [NatarajanSeek] (a search
      by a thread that runs alone), [NatarajanInv] (the invariant between operations), [NatarajanOps] (each
      operation, run alone) and [NatarajanSeq] (histories, and runs with overlapping operations).
    - src/rideables/MontageGraph.hpp: [Graph] (the code), [GraphOps] (the
      abstract graph and the operations) and [GraphRecover] (the constructor,
      recovery and the theorems).

    The state of a class is a record with the names of its fields, its methods
    are definitions of the same names (with a prefix where two classes in one
    file share a name).

    ** How the parts are put together

    [PayloadApi] is the interface between the epoch system and the data
    structures: the operations as a class, and as laws what they do to the live
    payloads, first without epochs ([PayloadLaws]), then with the past
    generations of payloads ([EpochLaws]), then with crashes ([CrashLaws]).
    [EpochApi] proves that the blocking EpochSys with its default configuration
    keeps the laws, for any number of threads and any further invariant of the
    heap that is closed under the effects of the operations.  [Versions] is such
    an invariant: the heap contains the versions of the current epoch and of the
    ends of the last two, and every image a crash can leave recovers to the
    older of those; [Crash] shows that the system with one worker keeps it.
    [History] runs sequences of operations and epoch advances against an
    abstract specification; [HashTable], [MQueue] and the graph are proved
    against the laws, and [Clients] and [GraphClients] instantiate everything
    down to the buffers.

    ** What the theorems show

    - The whole stack ([Clients]): for any history of operations and epoch
      advances the hash table answers as a finite map without failing; with one
      worker, whatever a crash leaves in memory is recovered to the map, or the
      queue, before the last two epoch advances; and a restart from it goes on as
      that map.  Two limits are proved as well: with two workers a deletion can
      be undone by a crash, and after a restart identifiers are reused, so that a
      second crash can lose a binding.
    - The data structures ([HashTable], [MQueue]): refinement of a finite map and
      of a queue for every implementation of the payload interface; rebuilding
      the table from its payloads.
    - The graph ([GraphRecover], [GraphClients]): refinement of a graph of
      labelled vertices and weighted edges, from the constructor on;
      [remove_vertex] ends and acts at one moment whatever the other threads do
      between its two locking phases; recovery by several threads gives the same
      graph provided that all of them fill their buffers before any copies, and with one worker so does
      a crash with the restart after it.  Without that wait, which the code does
      not have, a run loses an edge; in another one a rejected edge comes back.
    - The epoch system ([TransTrackers], [EpochSys], [Recoverable], [Advancer]):
      an operation in progress is at most one epoch old in every interleaving; no
      operation changes what recovery reads of another epoch; the end of an
      epoch writes everything back; the operations on every branch; the API as a
      two-state automaton; sync and the advancers.
    - Recovery ([Recovery], [Versions]): the newest durable version of each live
      block and nothing else, however the blocks are divided among threads.
    - The double-compare operations ([DcssLin]): as long as no helper acts on a
      descriptor that its owner has re-used ([timely]), every interleaving
      refines one atomic register per variable, whose store also compares the
      epoch; without the condition a run loses an update that was reported as
      done.
    - The nonblocking queue ([MSQueueLin]): every interleaving, with epoch advances,
      failing compare-and-swaps, and nodes destructed and their addresses used
      again, touches allocated memory only and answers as an atomic queue; if
      nodes are destructed two epochs after their payloads were retired, the payloads of a crash are
      the queue of two epoch advances ago.  Without that wait, which [reclaim_pblk] does not enforce, a run loses
      a durable element.
    - The nonblocking hash table ([LfTableLin]): the same for a map.  Readers may
      pass through nodes that have been marked and unlinked meanwhile; an operation that
      changes nothing answers by a binding its key had at some moment between its call and its return.
      The map survives a crash at any moment, with a recovery by several threads ([LfRestart]) that ends
      in every interleaving ([LfRecoverEnd]).
    - The nonblocking search tree ([NatarajanSeq]): used by one thread at a time it refines a finite map, ends every
      operation within a number of accesses bounded by the number of keys, and is durable like the other two.  With
      overlapping operations it is not correct: in one run the payload of a removed key is never retired, in another one
      the payload of an insertion is committed before its leaf is linked, and a crash brings a wrong binding back.
    - Reclamation ([RCUTracker]): in every interleaving an object is freed only
      after every operation that was running when it was retired has ended, as
      long as each such operation had reserved an epoch.
    - The containers and trackers: nothing is lost, freed early or freed twice;
      minima and lower bounds in the trees; termination of the searches;
      uniqueness of identifiers; coverage of write-back ranges.
    - Behaviour that differs from what comments or other code intend is stated as
      theorems about concrete runs.

    ** Bounds and fuel

    The budgets [k] and the conditions on the lengths of histories say that the
    64-bit counters of the buffers, the 64-bit epoch and the 48-bit sequence
    numbers of the descriptors do not wrap.  Recursion that is not structural
    takes fuel, and the theorems prove that the fuel given is enough: 64 for the
    shifts of UIDGenerator, the number of leaves for the loops over threads, the
    height of the tree for the searches, the capacity for pop_all.  A busy wait
    that another thread has to end is the outcome [Spin].

    ** What is not modelled

    Ralloc is not part of the sources: the address of a new block, its size and
    the division of the blocks among recovery threads are parameters, with
    freshness as the only hypothesis.  What reaches memory before a crash is an
    assumption of the crash theorems, the predicate [crash_image]: blocks of the
    last two epochs may be in any state, older ones have been written back.  The
    theorems about the buffers and the end of an epoch say what is written back
    when; that the two fit together is not proved.

    Destructors, thread creation, pinning, timing and
    printing are left out; so are the descriptors' VISIBLE_READ variant, which is
    not compiled by default, PBlkArray, the macros of the global API
    and the nonblocking data structures other than the queue, the hash table and the search tree, the
    data structures of other systems and the test harness.  Hash maps of the
    standard library are finite maps, iterated in the order of [map_to_list],
    and a reference to one is looked up when it is used.  The operations of the
    epoch system and of the data structures run one at a time in the composed
    theorems.  The nonblocking queue, hash table and search tree are not composed with the models of what they use:
    an [atomic_lin_var] is an atomic register there, and [RCUTracker] a condition
    on the moment of destruction, as their theorems say under their conditions, and what [EpochSys] recovers for them is the rule that the
    payloads of committed operations of the recovered epochs survive.  Interleavings are modelled for the epoch protocol, the circular
    buffer, the IncreasingMindicator, the double-compare operations, the
    RCUTracker, the nonblocking queue, hash table and search tree (where the general theorem is about whole
    operations), and in the graph for [remove_vertex] (whole operations of others,
    but no epoch advance, while it holds no lock) and the phases of recovery (a
    thread's filling, its copying and its last phase are one step each). *)

From Stdlib Require Export ZArith Lia.
From stdpp Require Export sorting functions strings fin_maps gmap prelude list.

#[global] Open Scope Z_scope.
#[export] Set Default Goal Selector "!".

(** ** Machine integers

    The code keeps epochs, identifiers and counters in [uint64_t] / [size_t].
    They are modelled as [Z] with the wrap-around written out by [u64]. *)

Definition U64 : Z := 2 ^ 64.
Definition UINT64_MAX : Z := U64 - 1.
Definition u64 (z : Z) : Z := z mod U64.
Definition is_u64 (z : Z) : Prop := 0 ≤ z < U64.

Declare Scope montage_scope.
Delimit Scope montage_scope with mt.
Notation "a +₆ b" := (u64 (a + b)) (at level 50, left associativity) : montage_scope.
Notation "a -₆ b" := (u64 (a - b)) (at level 50, left associativity) : montage_scope.
#[global] Open Scope montage_scope.

Lemma u64_small z : is_u64 z → u64 z = z.
Proof. intros H. apply Z.mod_small, H. Qed.

Lemma u64_range z : is_u64 (u64 z).
Proof. apply Z.mod_pos_bound. reflexivity. Qed.

(** ** Constants of common_macros.hpp *)

Definition INIT_EPOCH : Z := 3.
Definition NULL_EPOCH : Z := 0.
Definition EPOCH_WINDOW : Z := 4.

(** ** Outcomes

    A C++ function returns, throws, or stops on a failed [assert] (the
    assertions are compiled in unless NDEBUG is defined).  [errexit] of
    HarnessUtils.cpp prints its argument and throws an [int].  [UB] stands for
    undefined behaviour: an array index out of range, a null dereference.
    [Spin] stands for a busy wait that only another thread can end. *)

Inductive exn : Type :=
  | OldSeeNewException
  | EpochVerifyException
  | Errexit (msg : string)
  | AssertFail (msg : string)
  | UB (msg : string)
  | Spin (msg : string).

#[export] Instance exn_eq_dec : EqDecision exn.
Proof. solve_decision. Defined.

Inductive outcome (A : Type) : Type :=
  | Ret (a : A)
  | Throw (e : exn).
Arguments Ret {A} a.
Arguments Throw {A} e.

(** Stateful code: the state survives an exception, as it does in C++. *)
Definition M (S A : Type) : Type := S → outcome A * S.

Definition mret_ {S A} (a : A) : M S A := λ s, (Ret a, s).
Definition mthrow {S A} (e : exn) : M S A := λ s, (Throw e, s).
Definition mbind_ {S A B} (m : M S A) (k : A → M S B) : M S B :=
  λ s, match m s with
       | (Ret a, s') => k a s'
       | (Throw e, s') => (Throw e, s')
       end.
Definition mget {S A} (f : S → A) : M S A := λ s, (Ret (f s), s).
Definition mmod {S} (f : S → S) : M S unit := λ s, (Ret tt, f s).
Definition massert {S} (b : bool) (msg : string) : M S unit :=
  if b then mret_ tt else mthrow (AssertFail msg).

Declare Scope montage_monad_scope.
Delimit Scope montage_monad_scope with mm.
Notation "'let*' x ':=' c 'in' k" := (mbind_ c (λ x, k))
  (at level 10, x name, c at level 100, k at level 200) : montage_monad_scope.
Notation "'do*' c 'in' k" := (mbind_ c (λ _ : unit, k))
  (at level 10, c at level 100, k at level 200) : montage_monad_scope.
#[global] Open Scope montage_monad_scope.

(** [for (x : l) f(x);] *)
Fixpoint mfor {S A} (l : list A) (f : A → M S unit) : M S unit :=
  match l with
  | [] => mret_ tt
  | x :: l' => do* f x in mfor l' f
  end.

(** ** Weakest preconditions

    [wp m Q s]: from [s] the code [m] returns, with a result and a state in [Q]. *)
Definition wp {S A} (m : M S A) (Q : A → S → Prop) (s : S) : Prop :=
  match m s with (Ret a, s') => Q a s' | (Throw _, _) => False end.

Lemma wp_run {S A} (m : M S A) Q s : wp m Q s ↔ ∃ a s', m s = (Ret a, s') ∧ Q a s'.
Proof. unfold wp. destruct (m s) as [[a|e] s']; naive_solver. Qed.
Lemma wp_eq {S A} (m : M S A) Q s a s' : m s = (Ret a, s') → Q a s' → wp m Q s.
Proof. unfold wp. by intros ->. Qed.
Lemma wp_mono {S A} (m : M S A) (Q Q' : A → S → Prop) s : wp m Q s → (∀ a s', Q a s' → Q' a s') → wp m Q' s.
Proof. unfold wp. destruct (m s) as [[a|e] s']; auto. Qed.
Lemma wp_ret {S A} (a : A) (Q : A → S → Prop) s : Q a s → wp (mret_ a) Q s.
Proof. done. Qed.
Lemma wp_bind {S A B} (m : M S A) (k : A → M S B) Q s : wp m (λ a, wp (k a) Q) s → wp (mbind_ m k) Q s.
Proof. unfold wp, mbind_. by destruct (m s) as [[a|e] s']. Qed.
Lemma wp_assert {S} b msg (Q : unit → S → Prop) s : b = true → Q tt s → wp (massert b msg) Q s.
Proof. by intros ->. Qed.

(** A loop with an invariant over the elements done and those left *)
Lemma wp_mfor {S A} (l : list A) (f : A → M S unit) (I : list A → list A → S → Prop) (Q : unit → S → Prop) s :
  I [] l s → (∀ l1 x l2 s, l = l1 ++ x :: l2 → I l1 (x :: l2) s → wp (f x) (λ _, I (l1 ++ [x]) l2) s) →
  (∀ s, I l [] s → Q tt s) → wp (mfor l f) Q s.
Proof.
  intros HI Hstep HQ. assert (∀ l2 l1 s, l = l1 ++ l2 → I l1 l2 s → wp (mfor l2 f) Q s) as Hgo.
  { induction l2 as [|x l2 IH]; intros l1 s' Hl HI'; simpl.
    - apply wp_ret, HQ. rewrite app_nil_r in Hl. by rewrite Hl.
    - apply wp_bind. eapply wp_mono; [by apply Hstep|]. intros [] s2 HI2. apply (IH (l1 ++ [x])); [|done].
      by rewrite <- app_assoc. }
  by apply (Hgo l []).
Qed.

(** ** Generic lemmas *)

Create HintDb montage.

Lemma mod_window_inj a b :
  Z.abs (a - b) < EPOCH_WINDOW → a mod EPOCH_WINDOW = b mod EPOCH_WINDOW → a = b.
Proof. unfold EPOCH_WINDOW. intros. pose proof (Z.div_mod a 4). pose proof (Z.div_mod b 4). lia. Qed.

Lemma elem_of_snoc {A} (l : list A) (x : A) : x ∈ l ++ [x].
Proof. apply elem_of_app. right. by apply list_elem_of_singleton. Qed.
#[export] Hint Resolve elem_of_snoc : montage.

Lemma elem_of_concat {A} (x : A) (ls : list (list A)) : x ∈ concat ls ↔ ∃ l, l ∈ ls ∧ x ∈ l.
Proof.
  rewrite list_elem_of_In, in_concat. split; intros (l & H1 & H2); exists l.
  - by rewrite !list_elem_of_In.
  - by rewrite <- !list_elem_of_In.
Qed.

(** ** The shares of the recovery threads *)

(** What [for (i = rec_tid; i < l.size(); i += rec_thd)] visits *)
Definition strided {A} (rec_thd rec_tid : nat) (l : list A) : list A :=
  omap (λ ix, if (ix.1 mod rec_thd =? rec_tid)%nat then Some ix.2 else None) (zip (seq 0 (length l)) l).

(** Each index belongs to one thread. *)
Lemma filter_split {A} (T : nat) (k : A → nat) (l : list A) (ts : list nat) :
  (∀ x, x ∈ l → (k x < T)%nat) → ts ≡ₚ seq 0 T →
  concat ((λ t, filter (λ x, k x = t) l) <$> ts) ≡ₚ l.
Proof.
  intros Hk ->. induction l as [|x l IH].
  - clear. induction (seq 0 T) as [|t ts IH]; [done|]. simpl. by rewrite IH.
  - assert (∀ y, y ∈ l → (k y < T)%nat) as Hk2 by (intros y Hy; apply Hk; by right). specialize (IH Hk2). assert (k x < T)%nat as Hx by (apply Hk; by left).
    assert (seq 0 T = seq 0 (k x) ++ k x :: seq (S (k x)) (T - S (k x))) as Hseq.
    { replace T with (k x + S (T - S (k x)))%nat at 1 by lia. by rewrite seq_app. }
    assert (∀ ts : list nat, (∀ t, t ∈ ts → t ≠ k x) →
      (λ t, filter (λ y, k y = t) (x :: l)) <$> ts = (λ t, filter (λ y, k y = t) l) <$> ts) as He.
    { intros ts' Hts. apply list_fmap_ext. intros i t Hi%list_elem_of_lookup_2. rewrite filter_cons, decide_False; [done|].
      intros <-. by apply (Hts (k x)). }
    rewrite Hseq, fmap_app, fmap_cons, concat_app in IH |- *. cbn [concat] in IH |- *. rewrite filter_cons, decide_True by done.
    rewrite !He by (intros t Ht%elem_of_seq; lia). rewrite <- app_comm_cons, <- Permutation_middle. by constructor.
Qed.

Lemma omap_filter {A} (P : nat * A → bool) (l : list (nat * A)) :
  omap (λ ix, if P ix then Some ix.2 else None) l = (filter (λ ix, P ix = true) l).*2.
Proof.
  induction l as [|x l IH]; [done|]. rewrite filter_cons. destruct (P x) eqn:HP; simpl; rewrite HP; [f_equal|]; exact IH.
Qed.

Lemma strided_split {A} (T : nat) (l : list A) (ts : list nat) :
  (0 < T)%nat → ts ≡ₚ seq 0 T → concat ((λ t, strided T t l) <$> ts) ≡ₚ l.
Proof.
  intros HT Hts. assert (∀ ts, concat ((λ t, strided T t l) <$> ts) =
    (concat ((λ t, filter (λ ix, (ix.1 mod T)%nat = t) (zip (seq 0 (length l)) l)) <$> ts)).*2) as ->.
  { clear. induction ts as [|t ts IH]; [done|]. rewrite !fmap_cons. cbn [concat]. rewrite fmap_app, IH. f_equal. unfold strided.
    rewrite (omap_filter (λ ix, (ix.1 mod T =? t)%nat)). f_equal. apply list_filter_iff. intros ix. apply Nat.eqb_eq. }
  rewrite (filter_split T (λ ix : nat * A, (ix.1 mod T)%nat)); [|intros; by apply Nat.mod_upper_bound; lia|done].
  rewrite snd_zip; [done|]. by rewrite length_seq.
Qed.

Lemma strided_elem {A} (T t : nat) (l : list A) x : x ∈ strided T t l → x ∈ l.
Proof.
  unfold strided. intros ([i y] & Hin & Heq)%list_elem_of_omap. simpl in Heq. case_match; simplify_eq. by eapply elem_of_zip_r.
Qed.

(** ** Generations

    [H] lists what was there at the ends of past epochs, most recent first: the
    state [j+1] epoch ends ago, empty before the first one. *)
Definition past {A} (H : list (gmap Z A)) (j : nat) : gmap Z A := default ∅ (H !! j).

(** ** Tables indexed by epoch window and thread

    The containers of the code are arrays [x[EPOCH_WINDOW][task_num]], accessed
    as [x[c%EPOCH_WINDOW][tid]]. *)

Definition win (c : Z) : nat := Z.to_nat (c mod EPOCH_WINDOW).

Notation table A := (list (list A)).

Definition tab_get {A} (m : table A) (w t : nat) : option A :=
  match m !! w with Some r => r !! t | None => None end.
Definition tab_set {A} (m : table A) (w t : nat) (x : A) : table A :=
  alter (λ r, <[t := x]> r) w m.

(** A table of the right dimensions for [n] threads. *)
Definition tab_dims {A} (n : nat) (m : table A) : Prop :=
  length m = Z.to_nat EPOCH_WINDOW ∧ Forall (λ r, length r = n) m.

Definition tab_new {A} (n : nat) (x : A) : table A :=
  replicate (Z.to_nat EPOCH_WINDOW) (replicate n x).

Lemma win_lt c : (win c < 4)%nat.
Proof. unfold win, EPOCH_WINDOW. pose proof (Z.mod_pos_bound c 4 ltac:(lia)). lia. Qed.

Lemma win_inj a b : Z.abs (a - b) < EPOCH_WINDOW → win a = win b → a = b.
Proof.
  intros Hd Hw. apply mod_window_inj; [done|]. unfold win, EPOCH_WINDOW in *.
  pose proof (Z.mod_pos_bound a 4 ltac:(lia)). pose proof (Z.mod_pos_bound b 4 ltac:(lia)). lia.
Qed.

Section table.
Context {A : Type}.
Implicit Types (m : table A) (x : A).

Lemma tab_get_set_eq m w t x y : tab_get m w t = Some y → tab_get (tab_set m w t x) w t = Some x.
Proof.
  unfold tab_get, tab_set. destruct (m !! w) as [r|] eqn:Hr; [|done]. intros Ht.
  rewrite list_lookup_alter, Hr. case_decide; [|done]. simpl.
  apply list_lookup_insert_eq. by eapply lookup_lt_Some.
Qed.

Lemma tab_get_set_ne m w t w' t' x :
  (w, t) ≠ (w', t') → tab_get (tab_set m w t x) w' t' = tab_get m w' t'.
Proof.
  unfold tab_get, tab_set. intros Hne. rewrite list_lookup_alter.
  case_decide as Hw; [|done]. subst. destruct (m !! w') as [r|]; [|done]. simpl.
  apply list_lookup_insert_ne. congruence.
Qed.

Lemma tab_dims_get n m w t : tab_dims n m → (w < 4)%nat → (t < n)%nat → is_Some (tab_get m w t).
Proof.
  intros [Hl Hf] Hw Ht. unfold tab_get.
  destruct (lookup_lt_is_Some_2 m w) as [r Hr]; [by rewrite Hl|]. rewrite Hr.
  apply lookup_lt_is_Some. rewrite Forall_forall in Hf.
  rewrite (Hf r); [done|]. by eapply list_elem_of_lookup_2.
Qed.

Lemma tab_dims_lt n m w t x : tab_dims n m → tab_get m w t = Some x → (w < 4)%nat ∧ (t < n)%nat.
Proof.
  intros [Hl Hf]. unfold tab_get. destruct (m !! w) as [r|] eqn:Hr; [|done]. intros Ht.
  apply lookup_lt_Some in Ht. rewrite Forall_forall in Hf.
  rewrite (Hf r) in Ht by (by eapply list_elem_of_lookup_2).
  apply lookup_lt_Some in Hr. by rewrite Hl in Hr.
Qed.

Lemma tab_dims_set n m w t x : tab_dims n m → tab_dims n (tab_set m w t x).
Proof.
  intros [Hl Hf]. unfold tab_set, tab_dims. rewrite length_alter. split; [done|].
  apply Forall_alter; [done|]. intros r Hr Hlr. by rewrite length_insert.
Qed.

Lemma tab_dims_new n x : tab_dims n (tab_new n x).
Proof.
  split; [apply length_replicate|]. apply Forall_replicate, length_replicate.
Qed.

Lemma tab_get_new n x w t y : tab_get (tab_new n x) w t = Some y → y = x.
Proof.
  unfold tab_get, tab_new. destruct (replicate _ _ !! w) as [r|] eqn:Hr; [|done].
  apply lookup_replicate in Hr as [-> _]. by intros [-> _]%lookup_replicate.
Qed.

Lemma list_alter_as_insert (f : A → A) (l : list A) i x :
  l !! i = Some x → alter f i l = <[i := f x]> l.
Proof.
  intros Hx. apply list_eq. intros j. rewrite list_lookup_alter.
  pose proof (lookup_lt_Some _ _ _ Hx). case_decide as Hij.
  - subst. by rewrite Hx, list_lookup_insert_eq.
  - by rewrite list_lookup_insert_ne.
Qed.
End table.
#[export] Hint Resolve tab_dims_set tab_dims_new win_lt : montage.
