(* ===== verification/PersistFunc.v ===== *)
(** * Cache-line write-backs (src/utils/PersistFunc.hpp)

    The instructions that move data towards persistent memory are recorded as
    events; the ranged forms are loops over cache lines. *)

From Stdlib Require Import Zbitwise.
From S2P Require Import Prelude.

Definition CACHE_LINE_SIZE : Z := 64.
Definition CACHE_LINE_MASK : Z := 63.

Inductive pevent : Type :=
  | Clwb (p : Z)
  | Clflushopt (p : Z)
  | Sfence.

#[export] Instance pevent_eq_dec : EqDecision pevent.
Proof. solve_decision. Defined.

(** [for (curr = p; curr <= ((p+sz)|CACHE_LINE_MASK); curr += CACHE_LINE_SIZE)].
    The loop runs at most [sz / 64 + 2] times, which is the fuel. *)
Fixpoint range_loop (fuel : nat) (curr last : Z) : list Z :=
  match fuel with
  | O => []
  | S fuel' => if curr <=? last then curr :: range_loop fuel' (curr + CACHE_LINE_SIZE) last
               else []
  end.

Definition range_lines (p sz : Z) : list Z :=
  range_loop (Z.to_nat (sz / CACHE_LINE_SIZE + 2)) p (Z.lor (p + sz) CACHE_LINE_MASK).

Definition clflush_range_nofence (p sz : Z) : list pevent := Clflushopt <$> range_lines p sz.
Definition clflush_range (p sz : Z) : list pevent := clflush_range_nofence p sz ++ [Sfence].
Definition clwb_range_nofence (p sz : Z) : list pevent := Clwb <$> range_lines p sz.
Definition clwb_range (p sz : Z) : list pevent := clwb_range_nofence p sz ++ [Sfence].
Definition clwb_fence (p : Z) : list pevent := [Clwb p; Sfence].
Definition clwb_obj_nofence (p szT : Z) : list pevent := clwb_range_nofence p szT.
Definition clwb_obj_fence (p szT : Z) : list pevent := clwb_obj_nofence p szT ++ [Sfence].
Definition flush_fence (p : Z) : list pevent := [Clwb p; Sfence].

(** The cache line of an address; a [Clwb] writes back the line of its operand. *)
Definition line_of (a : Z) : Z := a / CACHE_LINE_SIZE.
Definition written_back (l : list pevent) (a : Z) : Prop :=
  ∃ p, Clwb p ∈ l ∧ line_of p = line_of a.

Lemma lor_mask a : Z.lor a CACHE_LINE_MASK = 64 * (a / 64) + 63.
Proof.
  pose proof (Zbitwise.Z.add_lor_land a CACHE_LINE_MASK) as H. change CACHE_LINE_MASK with (Z.ones 6) in *.
  rewrite Z.land_ones in H by lia. change (Z.ones 6) with 63 in *. change (2 ^ 6) with 64 in H.
  pose proof (Z.div_mod a 64). lia.
Qed.

Lemma range_loop_in fuel curr last k :
  0 ≤ k → curr + CACHE_LINE_SIZE * k ≤ last → k < Z.of_nat fuel →
  curr + CACHE_LINE_SIZE * k ∈ range_loop fuel curr last.
Proof.
  unfold CACHE_LINE_SIZE. revert curr k. induction fuel as [|fuel IH]; intros curr k Hk Hle Hf; [lia|].
  simpl. change CACHE_LINE_SIZE with 64. destruct (Z.leb_spec curr last); [|lia].
  destruct (decide (k = 0)) as [->|Hk0].
  - rewrite Z.mul_0_r, Z.add_0_r. apply elem_of_cons. by left.
  - apply elem_of_cons. right. replace (curr + 64 * k) with ((curr + 64) + 64 * (k - 1)) by lia.
    apply IH; lia.
Qed.

(** C34. A ranged write-back covers its range: for every start address, aligned
    or not, and every size, each byte of [p, p + sz] is in a cache line written
    back by [clwb_range_nofence(p, sz)]. *)
Theorem clwb_range_covers (p sz a : Z) :
  0 ≤ p → 0 ≤ sz → p ≤ a ≤ p + sz → written_back (clwb_range_nofence p sz) a.
Proof.
  intros Hp Hsz Ha. set (k := a / 64 - p / 64).
  pose proof (Z.div_mod a 64 ltac:(lia)). pose proof (Z.mod_pos_bound a 64 ltac:(lia)).
  pose proof (Z.div_mod p 64 ltac:(lia)). pose proof (Z.mod_pos_bound p 64 ltac:(lia)).
  pose proof (Z.div_le_mono a (p + sz) 64 ltac:(lia) ltac:(lia)).
  pose proof (Z.div_le_mono p a 64 ltac:(lia) ltac:(lia)).
  exists (p + CACHE_LINE_SIZE * k). split.
  - unfold clwb_range_nofence. apply list_elem_of_fmap. eexists. split; [done|].
    apply range_loop_in; [lia| |].
    + rewrite lor_mask. unfold CACHE_LINE_SIZE. lia.
    + unfold CACHE_LINE_SIZE.
      pose proof (Z.div_mod sz 64 ltac:(lia)). pose proof (Z.mod_pos_bound sz 64 ltac:(lia)).
      pose proof (Z.div_pos sz 64 ltac:(lia) ltac:(lia)). lia.
  - unfold line_of, CACHE_LINE_SIZE. replace (p + 64 * k) with (p + k * 64) by lia.
    rewrite Z.div_add by lia. lia.
Qed.

Lemma clwb_range_covers_witness : written_back (clwb_range_nofence 100 200) 300.
Proof. apply (clwb_range_covers 100 200 300); lia. Defined.

(** The write-back of 200 bytes from address 100 touches four lines. *)
Example clwb_range_ex : clwb_range_nofence 100 200 = [Clwb 100; Clwb 164; Clwb 228; Clwb 292].
Proof. reflexivity. Qed.
