(* ===== verification/UIDGen.v ===== *)
(** * UIDGenerator (src/persist/persist_utils.hpp)

    Every thread owns a contiguous range of the 64-bit identifier space; the
    ranges are carved out by [init] and consumed by [get_id].  The theorems say
    that [init] computes the partition it means to compute and that no
    identifier is handed out twice, across threads, until a range is used up. *)

From S2P Require Import Prelude.

(** ** The model *)

(** The loop [for (; buf != 0; buf >>= 1) { shift--; max <<= 1; }]; a 64-bit
    [buf] is zero after at most 64 shifts, which is the fuel given by [init]. *)
Fixpoint init_loop (fuel : nat) (buf shift max : Z) : Z * Z :=
  if buf =? 0 then (shift, max)
  else match fuel with
       | O => (shift, max)
       | S fuel' => init_loop fuel' (Z.shiftr buf 1) (shift - 1) (u64 (Z.shiftl max 1))
       end.

Definition uid_layout (task_num : Z) : Z * Z :=
  init_loop 64 (task_num -₆ 1) 64 1.

(** [curr_ids]: one counter per slot, slot [i] starting at [i << shift].  For a
    single slot [shift] is 64 and the only value shifted is 0. *)
Definition init (task_num : Z) : list Z :=
  let '(shift, max) := uid_layout task_num in
  (λ i : nat, u64 (Z.shiftl (Z.of_nat i) shift)) <$> seq 0 (Z.to_nat max).

(** [return curr_ids[tid].ui++;] An index outside the array is undefined
    behaviour in C++; the model has no result there. *)
Definition get_id (ids : list Z) (tid : nat) : option (Z * list Z) :=
  match ids !! tid with
  | Some id => Some (id, <[tid := id +₆ 1]> ids)
  | None => None
  end.

(** A sequence of calls of [get_id] by the given threads, with the identifiers
    handed out, in order. *)
Fixpoint get_ids (ids : list Z) (tids : list nat) : option (list Z * list Z) :=
  match tids with
  | [] => Some ([], ids)
  | t :: tids' =>
      match get_id ids t with
      | Some (id, ids') =>
          match get_ids ids' tids' with
          | Some (out, ids'') => Some (id :: out, ids'')
          | None => None
          end
      | None => None
      end
  end.

(** ** The layout computed by [init] *)

(** The number of times [n] can be halved before it is zero. *)
Definition bit_length (n : Z) : Z := if n =? 0 then 0 else Z.log2 n + 1.

Lemma bit_length_half n : 0 < n → bit_length (Z.shiftr n 1) = bit_length n - 1.
Proof.
  intros Hn. unfold bit_length. rewrite Z.shiftr_div_pow2 by lia. change (2 ^ 1) with 2.
  destruct (Z.eqb_spec n 0) as [->|_]; [lia|].
  destruct (Z.eqb_spec (n / 2) 0) as [Hz|Hz].
  - assert (n = 1) as -> by (pose proof (Z.div_mod n 2); pose proof (Z.mod_pos_bound n 2); lia).
    reflexivity.
  - assert (1 < n) by (destruct (Z.eq_dec n 1) as [->|]; [done|lia]).
    pose proof (Z.log2_shiftr n 1 ltac:(lia)) as Hl.
    rewrite Z.shiftr_div_pow2 in Hl by lia. change (2 ^ 1) with 2 in Hl.
    pose proof (Z.log2_pos n ltac:(lia)). lia.
Qed.

Lemma bit_length_nonneg n : 0 ≤ n → 0 ≤ bit_length n.
Proof. unfold bit_length. intros. pose proof (Z.log2_nonneg n). destruct (n =? 0); lia. Qed.

Lemma bit_length_pos n : 0 < n → 0 < bit_length n.
Proof.
  unfold bit_length. intros. pose proof (Z.log2_nonneg n).
  destruct (Z.eqb_spec n 0); lia.
Qed.

Lemma bit_length_spec n : 0 ≤ n → n < 2 ^ bit_length n.
Proof.
  intros Hn. unfold bit_length. destruct (Z.eqb_spec n 0) as [->|Hz]; [reflexivity|].
  pose proof (Z.log2_spec n). replace (Z.log2 n + 1) with (Z.succ (Z.log2 n)) by lia. lia.
Qed.

Lemma init_loop_spec fuel buf shift k :
  0 ≤ buf → 0 ≤ k → bit_length buf ≤ Z.of_nat fuel → k + bit_length buf < 64 →
  init_loop fuel buf shift (2 ^ k) = (shift - bit_length buf, 2 ^ (k + bit_length buf)).
Proof.
  revert buf shift k. induction fuel as [|fuel IH]; intros buf shift k Hb Hk Hf H64; simpl.
  - destruct (Z.eqb_spec buf 0) as [->|Hz].
    + unfold bit_length. simpl. f_equal; f_equal; lia.
    + pose proof (bit_length_pos buf). lia.
  - destruct (Z.eqb_spec buf 0) as [->|Hz].
    + unfold bit_length. simpl. f_equal; f_equal; lia.
    + pose proof (bit_length_half buf ltac:(lia)) as Hh.
      rewrite Z.shiftl_mul_pow2, <- Z.pow_add_r by lia.
      pose proof (bit_length_nonneg (Z.shiftr buf 1)
        (proj2 (Z.shiftr_nonneg _ _) Hb)).
      rewrite u64_small.
      2: { split; [apply Z.pow_nonneg; lia|]. apply Z.pow_lt_mono_r; lia. }
      rewrite IH; try lia.
      * f_equal; [lia|]. f_equal. lia.
      * apply Z.shiftr_nonneg. done.
Qed.

Lemma uid_layout_spec n :
  1 ≤ n ≤ 2 ^ 63 →
  uid_layout n = (64 - bit_length (n - 1), 2 ^ bit_length (n - 1)) ∧
  0 ≤ bit_length (n - 1) ≤ 63 ∧ n ≤ 2 ^ bit_length (n - 1).
Proof.
  intros Hn. assert (0 ≤ bit_length (n - 1) ≤ 63) as Hb.
  { split; [apply bit_length_nonneg; lia|]. unfold bit_length.
    destruct (Z.eqb_spec (n - 1) 0); [lia|].
    assert (Z.log2 (n - 1) < 63); [|lia]. apply Z.log2_lt_pow2; lia. }
  pose proof (bit_length_spec (n - 1) ltac:(lia)).
  split; [|lia]. unfold uid_layout.
  rewrite u64_small by (split; [lia|]; unfold U64; lia).
  apply (init_loop_spec 64 (n - 1) 64 0); lia.
Qed.

(** [init] gives at least one slot per thread, and slot [i] starts at
    [i * 2^shift]. *)
Lemma init_lookup n tid :
  1 ≤ n ≤ 2 ^ 63 → Z.of_nat tid < 2 ^ bit_length (n - 1) →
  init n !! tid = Some (Z.of_nat tid * 2 ^ (64 - bit_length (n - 1))).
Proof.
  intros Hn Ht. destruct (uid_layout_spec n Hn) as (Hl & Hb & Hmax).
  unfold init. rewrite Hl. set (k := bit_length (n - 1)) in *.
  rewrite list_lookup_fmap, lookup_seq_lt by lia. cbn [fmap option_fmap option_map]. f_equal.
  rewrite Nat.add_0_l. rewrite Z.shiftl_mul_pow2 by lia.
  apply u64_small. split; [apply Z.mul_nonneg_nonneg; [lia|apply Z.pow_nonneg; lia]|].
  unfold U64. replace 64 with (k + (64 - k)) at 2 by lia. rewrite Z.pow_add_r by lia.
  apply Z.mul_lt_mono_pos_r; [apply Z.pow_pos_nonneg|]; lia.
Qed.

(** ** Uniqueness *)

(** How often thread [t] occurs in a sequence of calls. *)
Definition calls (t : nat) (tids : list nat) : Z := Z.of_nat (count_occ Nat.eq_dec tids t).

Lemma calls_nonneg t l : 0 ≤ calls t l.
Proof. unfold calls. lia. Qed.

Lemma calls_cons t u l : calls t (u :: l) = (if decide (u = t) then 1 else 0) + calls t l.
Proof. unfold calls. simpl. destruct (Nat.eq_dec u t), (decide (u = t)); try done; lia. Qed.

(** The ranges: slot [t] has handed out the identifiers from [t * w] up to its
    counter, with [w] the width of a range. *)
Definition in_ranges (w : Z) (used : nat → Z) (ids : list Z) : Prop :=
  ∀ t id, ids !! t = Some id → id = Z.of_nat t * w + used t.

Lemma get_ids_range w n used ids tids out ids' :
  0 < w → Z.of_nat n * w ≤ U64 → (length ids ≤ n)%nat →
  in_ranges w used ids → (∀ t, 0 ≤ used t ∧ used t + calls t tids < w) →
  get_ids ids tids = Some (out, ids') →
  NoDup out ∧ ∀ id, id ∈ out → ∃ t, t ∈ tids ∧
    Z.of_nat t * w + used t ≤ id < Z.of_nat t * w + used t + calls t tids.
Proof.
  intros Hw Hcap. revert used ids out.
  induction tids as [|t tids IH]; intros used ids out Hlen Hr Hu Hg; simpl in Hg.
  { simplify_eq. split; [constructor|]. intros id Hid. by apply elem_of_nil in Hid. }
  unfold get_id in Hg. destruct (ids !! t) as [id|] eqn:Hid; [|done].
  destruct (get_ids _ tids) as [[out1 ids1]|] eqn:Hg1; [|done]. simplify_eq.
  pose proof (Hr _ _ Hid) as Heq. pose proof (lookup_lt_Some _ _ _ Hid) as Htl.
  pose proof (Hu t) as Hut. rewrite calls_cons, decide_True in Hut by done.
  pose proof (calls_nonneg t tids).
  set (used1 := λ u, if decide (u = t) then used u + 1 else used u).
  assert (Z.of_nat t * w + used t + 1 < Z.of_nat n * w) as Hsmall by nia.
  assert (∀ u, 0 ≤ used1 u ∧ used1 u + calls u tids < w) as Hu1.
  { intros u. specialize (Hu u). rewrite calls_cons in Hu. unfold used1.
    repeat case_decide; subst; try congruence; lia. }
  destruct (IH used1 (<[t:=u64 (id + 1)]> ids) out1) as [Hnd Hin]; try done.
  { by rewrite length_insert. }
  { intros u idu Hl. unfold used1. destruct (decide (u = t)) as [->|Hne].
    - rewrite list_lookup_insert_eq in Hl by lia. simplify_eq.
      rewrite u64_small; [lia|]. split; nia.
    - rewrite list_lookup_insert_ne in Hl by done. by apply Hr. }
  split.
  - constructor; [|done]. intros Hi. apply Hin in Hi as (u & Hu' & Hb).
    unfold used1 in Hb. case_decide as Hd; [subst; lia|].
    pose proof (Hu u) as Hub. rewrite calls_cons, decide_False in Hub by done.
    assert (Z.of_nat u < Z.of_nat t ∨ Z.of_nat t < Z.of_nat u) as [|] by lia; nia.
  - intros i [->|Hi]%elem_of_cons.
    + exists t. split; [set_solver|]. rewrite calls_cons, decide_True by done. lia.
    + apply Hin in Hi as (u & Hu' & Hb). exists u. split; [set_solver|].
      rewrite calls_cons. unfold used1 in Hb. repeat case_decide; subst; try congruence; lia.
Qed.

Lemma get_ids_total ids tids :
  Forall (λ t, (t < length ids)%nat) tids →
  ∃ out ids', get_ids ids tids = Some (out, ids') ∧ length out = length tids.
Proof.
  intros H. revert ids H. induction tids as [|t tids IH]; intros ids H; simpl.
  { eauto. }
  apply Forall_cons in H as [Ht H].
  destruct (lookup_lt_is_Some_2 ids t Ht) as [id Hid].
  unfold get_id. rewrite Hid.
  destruct (IH (<[t:=u64 (id + 1)]> ids)) as (out & ids' & -> & Hlen).
  { by rewrite length_insert. }
  eexists _, _. split; [done|]. simpl. lia.
Qed.

Lemma init_length n : 1 ≤ n ≤ 2 ^ 63 → Z.of_nat (length (init n)) = (uid_layout n).2.
Proof.
  intros Hn. destruct (uid_layout_spec n Hn) as (Hl & Hb & Hmax). unfold init. rewrite Hl.
  rewrite length_fmap, length_seq. simpl. lia.
Qed.

(** Identifiers are unique: for 1 to 2^63 threads, any interleaving of
    [get_id] calls by these threads succeeds and hands out pairwise distinct
    identifiers, as long as no thread uses up its range of 2^shift of them. *)
Theorem uid_get_id_unique (n : Z) (tids : list nat) :
  1 ≤ n ≤ 2 ^ 63 →
  Forall (λ t, Z.of_nat t < n) tids →
  (∀ t, calls t tids < 2 ^ (uid_layout n).1) →
  ∃ out ids', get_ids (init n) tids = Some (out, ids') ∧
    length out = length tids ∧ NoDup out.
Proof.
  intros Hn Ht Hc. destruct (uid_layout_spec n Hn) as (Hl & Hb & Hmax).
  pose proof (init_length n Hn) as Hlen. rewrite Hl in Hlen, Hc. simpl in Hlen, Hc.
  set (k := bit_length (n - 1)) in *.
  destruct (get_ids_total (init n) tids) as (out & ids' & Hg & Ho).
  { eapply Forall_impl; [done|]. simpl. lia. }
  exists out, ids'. split_and!; [done..|].
  eapply (get_ids_range (2 ^ (64 - k)) (length (init n)) (λ _, 0)); try done.
  - apply Z.pow_pos_nonneg; lia.
  - rewrite Hlen, <- Z.pow_add_r by lia. unfold U64.
    replace (k + (64 - k)) with 64 by lia. done.
  - intros t id Hid. pose proof (lookup_lt_Some _ _ _ Hid).
    rewrite init_lookup in Hid by (try done; fold k; lia). simplify_eq. fold k. lia.
  - intros t. rewrite Z.add_0_l. split; [lia|apply Hc].
Qed.

Lemma uid_get_id_unique_witness :
  ∃ out ids', get_ids (init 3) [0; 2; 0; 1]%nat = Some (out, ids') ∧
    length out = 4%nat ∧ NoDup out.
Proof.
  apply (uid_get_id_unique 3 [0; 2; 0; 1]%nat).
  - lia.
  - repeat constructor.
  - intros t. apply Z.le_lt_trans with 4; [|reflexivity].
    unfold calls. pose proof (count_occ_bound Nat.eq_dec t [0; 2; 0; 1]%nat). simpl in *. lia.
Defined.

(** The layout for three threads: four ranges of 2^62 identifiers. *)
Example uid_layout_3 : uid_layout 3 = (62, 4).
Proof. reflexivity. Qed.
