(* ===== verification/FixedBuffers.v ===== *)
(** * FixedCircBuffer and FixedHashSet (src/persist/persist_utils.hpp)

    The write-back buffers: bounded containers of addresses waiting to be
    written back, one per thread and epoch.  The function argument [func] of the
    C++ methods is the write-back of one entry; every operation returns the list
    of the entries it passed to [func], in order.

    [Module FixedCircBuffer] is the single-threaded behaviour and its
    refinement to a queue.  [Module FixedCircBufferSPMC] is the concurrent
    behaviour the class is built for, one producer and any number of consumers,
    with a step per atomic access.  [Module FixedHashSet] is the alternative
    container. *)

From S2P Require Import Prelude.

Module FixedCircBuffer.

Section model.
Context {T : Type} `{!Inhabited T}.

Record fcb : Type := Fcb {
  cap : Z;
  pushed : Z;
  popped : Z;
  payloads : list T;
}.

(** The constructor: [payloads] is value-initialised. *)
Definition new_fcb (c : Z) : fcb := Fcb c 0 0 (replicate (Z.to_nat c) inhabitant).

(** [payloads[i%cap].ui] *)
Definition slot (b : fcb) (i : Z) : T := payloads b !!! Z.to_nat (i mod cap b).

Definition push (x : T) (b : fcb) : outcome (list T * fcb) :=
  let curr_pushed := pushed b in
  let curr_popped := popped b in
  if negb (curr_pushed <=? curr_popped +₆ cap b)
  then Throw (AssertFail "curr_pushed <= curr_popped + cap")
  else
    let '(consumed, popped') :=
      if curr_pushed =? curr_popped +₆ cap b
      then ([slot b curr_popped], curr_popped +₆ 1)
      else ([], curr_popped) in
    Ret (consumed,
         Fcb (cap b) (curr_pushed +₆ 1) popped'
             (<[Z.to_nat (curr_pushed mod cap b) := x]> (payloads b))).

(** [bool try_pop(func)]: alone, the compare-and-swap of the first round
    succeeds. *)
Definition try_pop (b : fcb) : outcome (bool * list T * fcb) :=
  let curr_popped := popped b in
  let curr_pushed := pushed b in
  if negb (curr_popped <=? curr_pushed)
  then Throw (AssertFail "curr_popped <= curr_pushed")
  else if curr_popped =? curr_pushed then Ret (false, [], b)
  else Ret (true, [slot b curr_popped],
            Fcb (cap b) curr_pushed (curr_popped +₆ 1) (payloads b)).

(** The slots visited by one round of [pop_all], in order: from [popped % cap]
    to [end], around the end of the array when [end <= i]. *)
Definition pop_all_slots (c curr_popped curr_pushed : Z) : list Z :=
  let i := curr_popped mod c in
  let e := (i +₆ (curr_pushed -₆ curr_popped)) mod c in
  if e <=? i then seqZ i (c - i) ++ seqZ 0 e else seqZ i (e - i).

Definition pop_all (b : fcb) : outcome (list T * fcb) :=
  let curr_popped := popped b in
  let curr_pushed := pushed b in
  if negb (curr_popped <=? curr_pushed)
  then Throw (AssertFail "curr_popped <= curr_pushed")
  else if curr_popped =? curr_pushed then Ret ([], b)
  else Ret ((λ i, payloads b !!! Z.to_nat i) <$> pop_all_slots (cap b) curr_popped curr_pushed,
            Fcb (cap b) curr_pushed curr_pushed (payloads b)).

Definition clear (b : fcb) : fcb := Fcb (cap b) 0 0 (payloads b).

(** ** The abstract queue *)

(** The entries not yet written back, oldest first. *)
Definition contents (b : fcb) : list T := slot b <$> seqZ (popped b) (pushed b - popped b).

(** The representation invariant.  [pushed + cap < 2^64] says that the
    counters have not been used up: they only grow, by one per push. *)
Record wf (b : fcb) : Prop := {
  wf_cap : 0 < cap b;
  wf_len : length (payloads b) = Z.to_nat (cap b);
  wf_popped : 0 ≤ popped b ≤ pushed b;
  wf_room : pushed b ≤ popped b + cap b;
  wf_count : pushed b + cap b < U64;
}.

Definition full (b : fcb) : bool := pushed b =? popped b + cap b.

(** ** Lemmas *)

Lemma slot_idx_lt b i : wf b → (Z.to_nat (i mod cap b) < length (payloads b))%nat.
Proof.
  intros Hwf. rewrite (wf_len _ Hwf).
  pose proof (Z.mod_pos_bound i (cap b) (wf_cap _ Hwf)). lia.
Qed.

Lemma length_contents b : wf b → length (contents b) = Z.to_nat (pushed b - popped b).
Proof. intros _. unfold contents. by rewrite length_fmap, length_seqZ. Qed.

Lemma new_fcb_wf c : 0 < c → c < U64 → wf (new_fcb c).
Proof. intros. constructor; simpl; try lia. by rewrite length_replicate. Qed.

Lemma contents_new c : contents (new_fcb c) = [].
Proof. reflexivity. Qed.

(** Writing slot [pushed % cap] changes no entry between the counters. *)
Lemma mod_eq_near a b c : 0 < c → a mod c = b mod c → Z.abs (a - b) < c → a = b.
Proof.
  intros Hc Hm Hd. pose proof (Z.div_mod a c ltac:(lia)). pose proof (Z.div_mod b c ltac:(lia)).
  assert (a / c < b / c ∨ a / c = b / c ∨ b / c < a / c) as [?|[Heq|?]] by lia; [nia| |nia].
  rewrite Heq in *. lia.
Qed.

Lemma slots_insert b p' q' p q i x :
  wf b → (∀ j, j ∈ seqZ p q → j ≠ i ∧ Z.abs (j - i) < cap b) →
  slot (Fcb (cap b) p' q' (<[Z.to_nat (i mod cap b) := x]> (payloads b))) <$> seqZ p q
  = slot b <$> seqZ p q.
Proof.
  intros Hwf Hj. apply list_fmap_ext. intros k j Hk.
  assert (j ∈ seqZ p q) as Hin by (eapply list_elem_of_lookup_2; done).
  destruct (Hj _ Hin) as [Hne Hd]. unfold slot. simpl.
  rewrite list_lookup_total_insert_ne; [done|].
  intros Heq. apply Hne. apply (mod_eq_near j i (cap b)); [apply Hwf| |done].
  pose proof (Z.mod_pos_bound j (cap b) (wf_cap _ Hwf)).
  pose proof (Z.mod_pos_bound i (cap b) (wf_cap _ Hwf)). lia.
Qed.

Lemma contents_cons b :
  popped b < pushed b →
  contents b = slot b (popped b) :: (slot b <$> seqZ (popped b + 1) (pushed b - popped b - 1)).
Proof.
  intros. unfold contents. rewrite seqZ_cons by lia. simpl.
  by replace (Z.pred (pushed b - popped b)) with (pushed b - popped b - 1) by lia.
Qed.

(** [push] appends, writing back the oldest entry first when the buffer is
    full. *)
Lemma push_spec x b :
  wf b → pushed b + 1 + cap b < U64 →
  ∃ b', push x b = Ret (take (if full b then 1 else 0) (contents b), b') ∧
    contents b' = drop (if full b then 1 else 0) (contents b) ++ [x] ∧
    wf b' ∧ pushed b' = pushed b + 1 ∧ cap b' = cap b.
Proof.
  intros Hwf Hroom. pose proof (slot_idx_lt b (pushed b) Hwf) as Hidx.
  destruct Hwf as [Hc Hl Hp Hr Hn] eqn:E. clear E.
  unfold push, full. rewrite !(u64_small (popped b + cap b)) by (split; lia).
  rewrite (u64_small (pushed b + 1)), (u64_small (popped b + 1)) by (split; lia).
  destruct (Z.leb_spec (pushed b) (popped b + cap b)); [|lia]. simpl.
  destruct (Z.eqb_spec (pushed b) (popped b + cap b)) as [Hf|Hf].
  - eexists. split_and!; [rewrite contents_cons by lia; done| | |done|done].
    + rewrite (contents_cons b) by lia. unfold contents. simpl.
      replace (pushed b + 1 - (popped b + 1)) with ((pushed b - popped b - 1) + 1) by lia.
      rewrite seqZ_app by lia. rewrite fmap_app. f_equal.
      * apply slots_insert; [constructor; done|]. intros j Hj%elem_of_seqZ. lia.
      * simpl. unfold slot. simpl.
        replace (popped b + 1 + (pushed b - popped b - 1)) with (pushed b) by lia.
        by rewrite list_lookup_total_insert_eq.
    + constructor; simpl; try lia. by rewrite length_insert.
  - eexists. split_and!; [done| | |done|done].
    + unfold contents. simpl. rewrite drop_0.
      replace (pushed b + 1 - popped b) with ((pushed b - popped b) + 1) by lia.
      rewrite seqZ_app by lia. rewrite fmap_app. f_equal.
      * apply slots_insert; [constructor; done|]. intros j Hj%elem_of_seqZ. lia.
      * simpl. unfold slot. simpl.
        replace (popped b + (pushed b - popped b)) with (pushed b) by lia.
        by rewrite list_lookup_total_insert_eq.
    + constructor; simpl; try lia. by rewrite length_insert.
Qed.

Lemma try_pop_spec b :
  wf b →
  ∃ b', try_pop b = Ret (bool_decide (contents b ≠ []), take 1 (contents b), b') ∧
    contents b' = drop 1 (contents b) ∧ wf b' ∧ pushed b' = pushed b ∧ cap b' = cap b.
Proof.
  intros [Hc Hl Hp Hr Hn]. unfold try_pop.
  destruct (Z.leb_spec (popped b) (pushed b)); [|lia]. simpl.
  destruct (Z.eqb_spec (popped b) (pushed b)) as [He|He].
  - assert (contents b = []) as Hnil by (unfold contents; by rewrite He, Z.sub_diag).
    exists b. rewrite Hnil. split_and!; try done.
  - rewrite u64_small by (split; lia). eexists. rewrite contents_cons by lia.
    split_and!; [done| | |done|done].
    + unfold contents. simpl. unfold slot. simpl.
      by replace (pushed b - (popped b + 1)) with (pushed b - popped b - 1) by lia.
    + constructor; simpl; lia || done.
Qed.

(** The indices visited by [pop_all] are those of the entries, in order. *)
Lemma pop_all_slots_spec c p q :
  0 < c → 0 ≤ p < q → q ≤ p + c → q + c < U64 →
  pop_all_slots c p q = (λ j, j mod c) <$> seqZ p (q - p).
Proof.
  intros Hc Hp Hq Hu. unfold pop_all_slots.
  pose proof (Z.mod_pos_bound p c Hc) as Hi. set (i := p mod c) in *.
  rewrite (u64_small (q - p)) by (split; lia).
  rewrite (u64_small (i + (q - p))) by (split; lia).
  assert (p = c * (p / c) + i) as Hdm by (apply Z.div_mod; lia).
  assert (∀ j, (c * (p / c) + j) mod c = j mod c) as Hshift.
  { intros j. rewrite Z.add_comm, Z.mul_comm. by apply Z.mod_add; lia. }
  replace (seqZ p (q - p)) with (Z.add (c * (p / c)) <$> seqZ i (q - p)).
  2: { rewrite fmap_add_seqZ. f_equal. lia. }
  rewrite <- list_fmap_compose.
  assert (∀ a n, 0 ≤ a → a + n ≤ c →
    (λ j, (c * (p / c) + j) mod c) <$> seqZ a n = seqZ a n) as Hid.
  { intros a n Ha Han. rewrite <- (list_fmap_id (seqZ a n)) at 2. apply list_fmap_ext.
    intros k j Hk. assert (j ∈ seqZ a n) as Hj%elem_of_seqZ by by eapply list_elem_of_lookup_2.
    unfold compose. rewrite Hshift. apply Z.mod_small. unfold id. lia. }
  unfold compose. destruct (Z_lt_le_dec (i + (q - p)) c) as [Hlt|Hge].
  - rewrite (Z.mod_small (i + (q - p))) by lia.
    destruct (Z.leb_spec (i + (q - p)) i); [lia|].
    replace (i + (q - p) - i) with (q - p) by lia. by rewrite Hid by lia.
  - assert ((i + (q - p)) mod c = i + (q - p) - c) as ->.
    { symmetry. apply Z.mod_unique with 1; lia. }
    destruct (Z.leb_spec (i + (q - p) - c) i); [|lia].
    replace (q - p) with ((c - i) + (i + (q - p) - c)) at 2 by lia.
    rewrite seqZ_app by lia. rewrite fmap_app, Hid by lia. f_equal.
    replace (i + (c - i)) with (c + 0) by lia.
    rewrite <- fmap_add_seqZ, <- list_fmap_compose.
    rewrite <- (Hid 0 (i + (q - p) - c)) at 1 by lia. apply list_fmap_ext.
    intros k j Hk. unfold compose. rewrite !Hshift.
    replace (c + j) with (j + 1 * c) by lia. by rewrite Z.mod_add by lia.
Qed.

Lemma pop_all_spec b :
  wf b →
  ∃ b', pop_all b = Ret (contents b, b') ∧ contents b' = [] ∧
    wf b' ∧ pushed b' = pushed b ∧ cap b' = cap b.
Proof.
  intros [Hc Hl Hp Hr Hn]. unfold pop_all.
  destruct (Z.leb_spec (popped b) (pushed b)); [|lia]. simpl.
  destruct (Z.eqb_spec (popped b) (pushed b)) as [He|He].
  - assert (contents b = []) as Hnil by (unfold contents; by rewrite He, Z.sub_diag).
    exists b. rewrite Hnil. done.
  - eexists. rewrite pop_all_slots_spec by lia. rewrite <- list_fmap_compose.
    split_and!; [done| | |done|done].
    + unfold contents. simpl. by rewrite Z.sub_diag.
    + constructor; simpl; lia || done.
Qed.

(** ** Runs *)

Inductive op : Type := Push (x : T) | TryPop | PopAll.

Definition run_op (o : op) (b : fcb) : outcome (list T * fcb) :=
  match o with
  | Push x => push x b
  | TryPop => match try_pop b with
              | Ret (_, l, b') => Ret (l, b')
              | Throw e => Throw e
              end
  | PopAll => pop_all b
  end.

Fixpoint run (ops : list op) (b : fcb) : outcome (list T * fcb) :=
  match ops with
  | [] => Ret ([], b)
  | o :: ops' =>
      match run_op o b with
      | Ret (l, b') => match run ops' b' with
                       | Ret (l', b'') => Ret (l ++ l', b'')
                       | Throw e => Throw e
                       end
      | Throw e => Throw e
      end
  end.

Definition pushes (ops : list op) : list T :=
  omap (λ o, match o with Push x => Some x | _ => None end) ops.

Lemma run_spec ops b :
  wf b → pushed b + Z.of_nat (length ops) + cap b < U64 →
  ∃ l b', run ops b = Ret (l, b') ∧ l ++ contents b' = contents b ++ pushes ops ∧ wf b'.
Proof.
  revert b. induction ops as [|o ops IH]; intros b Hwf Hn; simpl.
  { exists [], b. by rewrite app_nil_r. }
  assert (∃ l b', run_op o b = Ret (l, b') ∧
            l ++ contents b' = contents b ++ pushes [o] ∧
            wf b' ∧ pushed b' ≤ pushed b + 1 ∧ cap b' = cap b)
    as (l & b' & -> & Hl & Hwf' & Hp & Hc).
  { simpl in Hn. destruct o as [x| |]; simpl.
    - destruct (push_spec x b Hwf ltac:(lia)) as (b' & -> & Hc & Hwf' & ? & ?).
      eexists _, b'. split; [done|]. rewrite Hc, app_assoc, take_drop. split_and!; done || lia.
    - destruct (try_pop_spec b Hwf) as (b' & -> & Hc & Hwf' & ? & ?).
      eexists _, b'. split; [done|]. rewrite Hc, take_drop, app_nil_r. split_and!; done || lia.
    - destruct (pop_all_spec b Hwf) as (b' & -> & Hc & Hwf' & ? & ?).
      eexists _, b'. split; [done|]. rewrite Hc, !app_nil_r. split_and!; done || lia. }
  destruct (IH b' Hwf') as (l' & b'' & -> & Hl' & Hwf''); [simpl in Hn; lia|].
  exists (l ++ l'), b''. split_and!; [done| |done].
  rewrite <- app_assoc, Hl', app_assoc, Hl, <- app_assoc. by destruct o.
Qed.

End model.
Arguments fcb : clear implicits.
Arguments op : clear implicits.

(** No entry is lost: any sequence of [push], [try_pop] and [pop_all] on a
    new buffer of capacity [c] runs without a failed assertion, and what was
    written back followed by what is still in the buffer is exactly what was
    pushed, in order (for fewer than 2^64 - c pushes). *)
Theorem fcb_run_conserves {T} `{!Inhabited T} (c : Z) (ops : list (op T)) :
  0 < c → Z.of_nat (length ops) + c < U64 →
  ∃ l b, run ops (new_fcb c) = Ret (l, b) ∧ l ++ contents b = pushes ops.
Proof.
  intros Hc Hn. destruct (run_spec ops (new_fcb c)) as (l & b & Hr & Hl & _).
  - apply new_fcb_wf; lia.
  - simpl. lia.
  - exists l, b. done.
Qed.

Lemma fcb_run_conserves_witness :
  ∃ l b, run [Push 5; Push 6; Push 7; PopAll; Push 8] (new_fcb 2) = Ret (l, b) ∧
    l ++ contents b = [5; 6; 7; 8].
Proof. apply (fcb_run_conserves 2 [Push 5; Push 6; Push 7; PopAll; Push 8]); reflexivity. Defined.

(** The wrap-around walk of [pop_all] is equivalent to the reference
    walk over the entries from the oldest to the newest, and empties the
    buffer. *)
Theorem fcb_pop_all_equiv {T} `{!Inhabited T} (b : fcb T) :
  wf b →
  ∃ b', pop_all b = Ret (slot b <$> seqZ (popped b) (pushed b - popped b), b') ∧
    contents b' = [] ∧ wf b'.
Proof.
  intros Hwf. destruct (pop_all_spec b Hwf) as (b' & Hp & Hc & Hw & _). eauto.
Qed.

Lemma fcb_pop_all_equiv_witness :
  ∃ b', pop_all (Fcb 3 5 2 [13; 14; 12]) = Ret ([12; 13; 14], b') ∧ contents b' = [] ∧ wf b'.
Proof.
  apply (fcb_pop_all_equiv (Fcb 3 5 2 [13; 14; 12])).
  constructor; simpl; reflexivity || lia.
Defined.

End FixedCircBuffer.

(** ** Concurrent use: one producer, many consumers

    One step per access to shared memory, sequentially consistent.  The ghost
    fields [hist] (every value ever written to a slot, by index) and [consumed]
    (every value passed to [func]) are not in the code.  A push starts only
    while fewer than 2^64 - cap values have been pushed, so that the counters do
    not wrap. *)
Module FixedCircBufferSPMC.
Import FixedCircBuffer.

Section spmc.
Context {T : Type} `{!Inhabited T} (c : Z).

(** Program counter of the producer, inside [push(x, func)]. *)
Inductive ppc : Type :=
  | PIdle
  | PLoaded (x : T) (curr_pushed : Z)
  | PFull (x : T) (curr_pushed curr_popped : Z)
  | PCas (x : T) (curr_pushed curr_popped : Z)
  | PWrite (x : T) (curr_pushed : Z)
  | PStore (x : T) (curr_pushed : Z).

(** Program counter of a consumer, inside [pop_all(func)]; [CIdle] is outside
    or at the head of the [while (true)] loop. *)
Inductive cpc : Type :=
  | CIdle
  | CLoaded (curr_popped : Z)
  | CConsume (curr_popped curr_pushed : Z) (rest : list Z).

Record st : Type := St {
  s_pushed : Z;
  s_popped : Z;
  s_slots : list T;
  s_hist : list T;
  s_consumed : list T;
  s_prod : ppc;
  s_cons : nat → cpc;
}.

Definition st_init : st :=
  St 0 0 (replicate (Z.to_nat c) inhabitant) [] [] PIdle (λ _, CIdle).

Definition rd (s : st) (i : Z) : T := s_slots s !!! Z.to_nat i.

Inductive step : st → st → Prop :=
  | push_load_pushed u o sl h k cs x :
      u + 1 + c < U64 →
      step (St u o sl h k PIdle cs) (St u o sl h k (PLoaded x u) cs)
  | push_load_popped_full u o sl h k cs x p :
      p ≤ o +₆ c → p = o +₆ c →
      step (St u o sl h k (PLoaded x p) cs) (St u o sl h k (PFull x p o) cs)
  | push_load_popped_room u o sl h k cs x p :
      p ≤ o +₆ c → p ≠ o +₆ c →
      step (St u o sl h k (PLoaded x p) cs) (St u o sl h k (PWrite x p) cs)
  | push_func u o sl h k cs x p q :
      step (St u o sl h k (PFull x p q) cs)
           (St u o sl h (k ++ [sl !!! Z.to_nat (q mod c)]) (PCas x p q) cs)
  | push_cas u o sl h k cs x p q :
      step (St u o sl h k (PCas x p q) cs)
           (St u (if decide (o = q) then q +₆ 1 else o) sl h k (PWrite x p) cs)
  | push_write u o sl h k cs x p :
      step (St u o sl h k (PWrite x p) cs)
           (St u o (<[Z.to_nat (p mod c) := x]> sl) (h ++ [x]) k (PStore x p) cs)
  | push_store u o sl h k cs x p :
      step (St u o sl h k (PStore x p) cs) (St (p +₆ 1) o sl h k PIdle cs)
  | pop_load_popped u o sl h k pc cs i :
      cs i = CIdle →
      step (St u o sl h k pc cs) (St u o sl h k pc (<[i := CLoaded o]> cs))
  | pop_load_pushed_empty u o sl h k pc cs i q :
      cs i = CLoaded q → q = u →
      step (St u o sl h k pc cs) (St u o sl h k pc (<[i := CIdle]> cs))
  | pop_load_pushed u o sl h k pc cs i q :
      cs i = CLoaded q → q ≤ u → q ≠ u →
      step (St u o sl h k pc cs)
           (St u o sl h k pc (<[i := CConsume q u (pop_all_slots c q u)]> cs))
  | pop_func u o sl h k pc cs i q p j rest :
      cs i = CConsume q p (j :: rest) →
      step (St u o sl h k pc cs)
           (St u o sl h (k ++ [sl !!! Z.to_nat j]) pc (<[i := CConsume q p rest]> cs))
  | pop_cas u o sl h k pc cs i q p :
      cs i = CConsume q p [] →
      step (St u o sl h k pc cs)
           (St u (if decide (o = q) then p else o) sl h k pc (<[i := CIdle]> cs)).

(** *** The invariant *)

Definition consumed_at (s : st) (j : Z) : Prop :=
  ∀ v, s_hist s !! Z.to_nat j = Some v → v ∈ s_consumed s.

Definition prod_inv (s : st) : Prop :=
  match s_prod s with
  | PIdle => Z.of_nat (length (s_hist s)) = s_pushed s
  | PLoaded _ p =>
      Z.of_nat (length (s_hist s)) = s_pushed s ∧ p = s_pushed s ∧ p + 1 + c < U64
  | PFull _ p q =>
      Z.of_nat (length (s_hist s)) = s_pushed s ∧ p = s_pushed s ∧ p + 1 + c < U64 ∧
      p = q + c ∧ 0 ≤ q ≤ s_popped s
  | PCas _ p q =>
      Z.of_nat (length (s_hist s)) = s_pushed s ∧ p = s_pushed s ∧ p + 1 + c < U64 ∧
      p = q + c ∧ 0 ≤ q ≤ s_popped s ∧ (s_popped s = q → consumed_at s q)
  | PWrite _ p =>
      Z.of_nat (length (s_hist s)) = s_pushed s ∧ p = s_pushed s ∧ p + 1 + c < U64 ∧
      p < s_popped s + c
  | PStore x p =>
      Z.of_nat (length (s_hist s)) = s_pushed s + 1 ∧ p = s_pushed s ∧ p + 1 + c < U64 ∧
      p < s_popped s + c ∧ s_hist s !! Z.to_nat p = Some x ∧ rd s (p mod c) = x
  end.

Definition cons_inv (s : st) (i : nat) : Prop :=
  match s_cons s i with
  | CIdle => True
  | CLoaded q => 0 ≤ q ≤ s_popped s
  | CConsume q p rest =>
      0 ≤ q ≤ s_popped s ∧ q < p ≤ s_pushed s ∧
      (s_popped s = q → ∀ j, q ≤ j < p → j mod c ∈ rest ∨ consumed_at s j)
  end.

Record inv (s : st) : Prop := {
  inv_len : length (s_slots s) = Z.to_nat c;
  inv_bounds : 0 ≤ s_popped s ≤ s_pushed s ∧ s_pushed s ≤ s_popped s + c ∧ s_pushed s + c < U64;
  inv_slots : ∀ j, s_popped s ≤ j < s_pushed s →
    s_hist s !! Z.to_nat j = Some (rd s (j mod c));
  inv_consumed : ∀ j, 0 ≤ j < s_popped s → consumed_at s j;
  inv_prod : prod_inv s;
  inv_cons : ∀ i, cons_inv s i;
}.

(** *** Preservation *)

Hypothesis Hc : 0 < c.

Lemma consumed_at_more u o sl h k k' pc cs u' o' sl' pc' cs' j :
  consumed_at (St u o sl h k pc cs) j → consumed_at (St u' o' sl' h (k ++ k') pc' cs') j.
Proof. unfold consumed_at. simpl. intros H v Hv. apply elem_of_app. left. by apply H. Qed.

Lemma consumed_at_same u o sl h k pc cs u' o' sl' pc' cs' j :
  consumed_at (St u o sl h k pc cs) j → consumed_at (St u' o' sl' h k pc' cs') j.
Proof. done. Qed.

(** A consumer's part of the invariant survives every step that leaves its
    program counter alone: the counters only grow and nothing is forgotten. *)
Lemma cons_inv_mono s s' i :
  s_cons s' i = s_cons s i → s_popped s ≤ s_popped s' → s_pushed s ≤ s_pushed s' →
  (∀ j, 0 ≤ j < s_pushed s → consumed_at s j → consumed_at s' j) →
  cons_inv s i → cons_inv s' i.
Proof.
  unfold cons_inv. intros -> Ho Hu Hk. destruct (s_cons s i) as [|q|q p rest]; [done|lia|].
  intros (Hq & Hp & Hj). split_and!; try lia. intros Heq j Hjr.
  destruct (Hj ltac:(lia) j Hjr) as [|Hcj]; [by left|right]. apply Hk; [lia|done].
Qed.

Lemma cons_inv_other s s' i pc :
  s_cons s' = <[i := pc]> (s_cons s) → s_popped s ≤ s_popped s' → s_pushed s ≤ s_pushed s' →
  (∀ j, 0 ≤ j < s_pushed s → consumed_at s j → consumed_at s' j) →
  (∀ i', cons_inv s i') → cons_inv s' i → ∀ i', cons_inv s' i'.
Proof.
  intros Hcs ??? Ha Hi i'. destruct (decide (i = i')) as [->|Hne]; [done|].
  apply (cons_inv_mono s); try done. by rewrite Hcs, fn_lookup_insert_ne.
Qed.

(** Only the last index shares a slot with index [p], within the window. *)
Lemma other_slot sl p j (x : T) :
  length sl = Z.to_nat c → j ≠ p → Z.abs (j - p) < c →
  <[Z.to_nat (p mod c) := x]> sl !!! Z.to_nat (j mod c) = sl !!! Z.to_nat (j mod c).
Proof.
  intros Hl Hne Hd. apply list_lookup_total_insert_ne. intros Heq. apply Hne.
  apply (mod_eq_near j p c Hc); [|done].
  pose proof (Z.mod_pos_bound j c Hc). pose proof (Z.mod_pos_bound p c Hc). lia.
Qed.

Lemma own_slot sl p (x : T) :
  length sl = Z.to_nat c → <[Z.to_nat (p mod c) := x]> sl !!! Z.to_nat (p mod c) = x.
Proof.
  intros Hl. apply list_lookup_total_insert_eq. pose proof (Z.mod_pos_bound p c Hc). lia.
Qed.

Ltac inv_start :=
  match goal with H : inv _ |- _ => destruct H as [Hlen Hb Hs Hk Hp Hcs] end;
  repeat match goal with H : context [prod_inv _] |- _ => unfold prod_inv in H end;
  cbn [s_pushed s_popped s_slots s_hist s_consumed s_prod s_cons] in *;
  unfold rd in *; cbn [s_slots] in *.

Lemma inv_push_load u o sl h k cs x :
  u + 1 + c < U64 → inv (St u o sl h k PIdle cs) → inv (St u o sl h k (PLoaded x u) cs).
Proof. intros Hu Hi. inv_start. constructor; simpl; try done. Qed.

Lemma inv_push_load2 u o sl h k cs x p pc :
  p ≤ o +₆ c → pc = (if decide (p = o +₆ c) then PFull x p o else PWrite x p) →
  inv (St u o sl h k (PLoaded x p) cs) → inv (St u o sl h k pc cs).
Proof.
  intros Hle -> Hi. inv_start. destruct Hp as (Hlh & -> & Hbd).
  rewrite u64_small in * by (split; lia).
  constructor; simpl; try done. case_decide; unfold prod_inv; simpl; lia.
Qed.

Lemma inv_push_func u o sl h k cs x p q :
  inv (St u o sl h k (PFull x p q) cs) →
  inv (St u o sl h (k ++ [sl !!! Z.to_nat (q mod c)]) (PCas x p q) cs).
Proof.
  intros Hi. inv_start. destruct Hp as (Hlh & -> & Hbd & Hpq & Hq).
  constructor; simpl; try done.
  - intros j Hj. by eapply consumed_at_more, Hk.
  - unfold prod_inv. simpl. split_and!; try done || lia.
    intros -> v Hv. simpl in *. rewrite Hs in Hv by lia. simplify_eq. apply elem_of_snoc.
  - intros i. eapply cons_inv_mono, Hcs; simpl; try done. intros j _ Hj. by eapply consumed_at_more.
Qed.

Lemma inv_push_cas u o sl h k cs x p q :
  inv (St u o sl h k (PCas x p q) cs) →
  inv (St u (if decide (o = q) then q +₆ 1 else o) sl h k (PWrite x p) cs).
Proof.
  intros Hi. inv_start. destruct Hp as (Hlh & -> & Hbd & Hpq & Hq & Hcq).
  rewrite (u64_small (q + 1)) by (split; lia).
  constructor; simpl; try done.
  - case_decide; lia.
  - intros j Hj. apply Hs. case_decide; lia.
  - intros j Hj. case_decide as Hd; [|by apply Hk].
    destruct (decide (j = q)) as [->|]; [by apply Hcq|apply Hk; lia].
  - unfold prod_inv. simpl. case_decide; lia.
  - intros i. eapply cons_inv_mono, Hcs; simpl; try done. case_decide; lia.
Qed.

Lemma inv_push_write u o sl h k cs x p :
  inv (St u o sl h k (PWrite x p) cs) →
  inv (St u o (<[Z.to_nat (p mod c) := x]> sl) (h ++ [x]) k (PStore x p) cs).
Proof.
  intros Hi. inv_start. destruct Hp as (Hlh & -> & Hbd & Hr).
  assert (∀ j v, 0 ≤ j < u → (h ++ [x]) !! Z.to_nat j = Some v → h !! Z.to_nat j = Some v) as Hold.
  { intros j v Hj. by rewrite lookup_app_l by lia. }
  constructor; simpl; unfold rd; simpl; try done.
  - by rewrite length_insert.
  - intros j Hj. rewrite other_slot by (done || lia). rewrite lookup_app_l by lia. by apply Hs.
  - intros j Hj v Hv. apply (Hk j Hj). simpl in *. apply Hold; [lia|done].
  - unfold prod_inv, rd. simpl. rewrite length_app. simpl. split_and!; try done || lia.
    + rewrite lookup_app_r by lia. by replace (Z.to_nat u - length h)%nat with 0%nat by lia.
    + by apply own_slot.
  - intros i. eapply cons_inv_mono, Hcs; simpl; try done.
    intros j Hj Hcj v Hv. apply Hcj. simpl in *. by apply Hold.
Qed.

Lemma inv_push_store u o sl h k cs x p :
  inv (St u o sl h k (PStore x p) cs) → inv (St (p +₆ 1) o sl h k PIdle cs).
Proof.
  intros Hi. inv_start. destruct Hp as (Hlh & -> & Hbd & Hr & Hx & Hsx).
  rewrite (u64_small (u + 1)) by (split; lia).
  constructor; simpl; unfold rd; simpl; try done.
  - lia.
  - intros j Hj. destruct (decide (j = u)) as [->|]; [by rewrite Hsx|apply Hs; lia].
  - intros i. eapply cons_inv_mono, Hcs; simpl; try done. lia.
Qed.

Lemma inv_pop_local u o sl h k pc cs i pc' :
  inv (St u o sl h k pc cs) → cons_inv (St u o sl h k pc (<[i := pc']> cs)) i →
  inv (St u o sl h k pc (<[i := pc']> cs)).
Proof.
  intros Hi Hci. inv_start. constructor; simpl; try done.
  by eapply cons_inv_other with (s := St u o sl h k pc cs).
Qed.

Lemma inv_pop_load_pushed u o sl h k pc cs i q :
  cs i = CLoaded q → q ≤ u → q ≠ u → inv (St u o sl h k pc cs) →
  inv (St u o sl h k pc (<[i := CConsume q u (pop_all_slots c q u)]> cs)).
Proof.
  intros Hpc Hle Hne Hi. apply inv_pop_local; [done|]. inv_start.
  pose proof (Hcs i) as Hci. unfold cons_inv in *. simpl in *.
  rewrite Hpc in Hci. rewrite fn_lookup_insert. split_and!; try lia.
  intros -> j Hj. left. rewrite pop_all_slots_spec by lia.
  apply list_elem_of_fmap. exists j. split; [done|]. apply elem_of_seqZ. lia.
Qed.

Lemma inv_pop_func u o sl h k pc cs i q p j rest :
  cs i = CConsume q p (j :: rest) → inv (St u o sl h k pc cs) →
  inv (St u o sl h (k ++ [sl !!! Z.to_nat j]) pc (<[i := CConsume q p rest]> cs)).
Proof.
  intros Hpc Hi. inv_start. constructor; simpl; try done.
  - intros j' Hj'. by eapply consumed_at_more, Hk.
  - unfold prod_inv. simpl. destruct pc; try done. destruct Hp as (?&?&?&?&?&Hq).
    split_and!; try (done || lia). intros E. by eapply consumed_at_more, Hq.
  - eapply cons_inv_other with (s := St u o sl h k pc cs); simpl; try done.
    { intros j' _ Hj'. by eapply consumed_at_more. }
    pose proof (Hcs i) as Hci. unfold cons_inv in *. simpl in *.
    rewrite Hpc in Hci. rewrite fn_lookup_insert. destruct Hci as (Hq & Hqp & Hci).
    split_and!; try lia. intros Ho j' Hj'.
    destruct (Hci Ho j' Hj') as [[Hjj|Hin]%elem_of_cons|Hd]; [|by left|].
    + right. intros v Hv. simpl in *. rewrite Hs, Hjj in Hv by lia. simplify_eq.
      apply elem_of_snoc.
    + right. by eapply consumed_at_more.
Qed.

Lemma inv_pop_cas u o sl h k pc cs i q p :
  cs i = CConsume q p [] → inv (St u o sl h k pc cs) →
  inv (St u (if decide (o = q) then p else o) sl h k pc (<[i := CIdle]> cs)).
Proof.
  intros Hpc Hi. inv_start. pose proof (Hcs i) as Hci. unfold cons_inv in Hci.
  simpl in Hci. rewrite Hpc in Hci. destruct Hci as (Hq & Hqp & Hci).
  constructor; simpl; try done.
  - case_decide; lia.
  - intros j Hj. apply Hs. case_decide; lia.
  - intros j Hj. case_decide as Hd; [|by apply Hk].
    destruct (decide (j < q)); [apply Hk; lia|].
    destruct (Hci Hd j ltac:(lia)) as [Hin|]; [by apply elem_of_nil in Hin|done].
  - unfold prod_inv. simpl. destruct pc; try done; case_decide; try done.
    + destruct Hp as (?&?&?&?&?). split_and!; try done; lia.
    + destruct Hp as (?&?&?&?&?&?). split_and!; try done; lia.
    + destruct Hp as (?&?&?&?). split_and!; try done; lia.
    + destruct Hp as (?&?&?&?&?&?). split_and!; try done; lia.
  - eapply cons_inv_other with (s := St u o sl h k pc cs); simpl; try done.
    + case_decide; lia.
    + unfold cons_inv. simpl. by rewrite fn_lookup_insert.
Qed.

Lemma inv_step s s' : inv s → step s s' → inv s'.
Proof.
  intros Hi Hst. destruct Hst.
  - by apply inv_push_load.
  - eapply inv_push_load2; try done. by rewrite decide_True.
  - eapply inv_push_load2; try done. by rewrite decide_False.
  - by apply inv_push_func.
  - by apply inv_push_cas.
  - by apply inv_push_write.
  - by eapply inv_push_store.
  - apply inv_pop_local; [done|]. inv_start. unfold cons_inv. simpl.
    rewrite fn_lookup_insert. lia.
  - apply inv_pop_local; [done|]. unfold cons_inv. simpl. by rewrite fn_lookup_insert.
  - by eapply inv_pop_load_pushed.
  - by eapply inv_pop_func.
  - by eapply inv_pop_cas.
Qed.

Lemma inv_init : c + c < U64 → inv st_init.
Proof.
  intros. constructor; simpl; try done; try lia.
  by rewrite length_replicate.
Qed.

Lemma inv_reachable s : c + c < U64 → rtc step st_init s → inv s.
Proof.
  intros Hcc Hr. revert Hr. apply rtc_ind_r; [by apply inv_init|].
  intros. by eapply inv_step.
Qed.

End spmc.
Arguments st : clear implicits.
Arguments ppc : clear implicits.

(** Concurrent safety of the write-back buffer: in every state reachable
    by one producer running [push] and any number of consumers running
    [pop_all], each entry behind the [popped] counter (so each entry whose slot
    may be overwritten) has been passed to [func], the buffer never holds more
    than [cap] entries, and the assertion of [push] holds whenever it is
    evaluated. *)
Theorem spmc_no_entry_lost {T} `{!Inhabited T} (c : Z) (s : st T) :
  0 < c → c + c < U64 → rtc (step c) (st_init c) s →
  (∀ j v, 0 ≤ j < s_popped s → s_hist s !! Z.to_nat j = Some v → v ∈ s_consumed s) ∧
  0 ≤ s_popped s ≤ s_pushed s ∧ s_pushed s ≤ s_popped s + c ∧
  (∀ x p, s_prod s = PLoaded x p → p ≤ s_popped s +₆ c).
Proof.
  intros Hc Hcc Hr. destruct (inv_reachable c Hc s Hcc Hr) as [Hl Hb Hs Hk Hp _].
  split_and!; try lia.
  - intros j v Hj Hv. by apply (Hk j Hj).
  - intros x p Hpc. unfold prod_inv in Hp. rewrite Hpc in Hp.
    rewrite u64_small by (split; lia). lia.
Qed.

Lemma spmc_no_entry_lost_witness :
  ∃ s : st Z, rtc (step 1) (st_init 1) s ∧ s_pushed s = 1 ∧
    ((∀ j v, 0 ≤ j < s_popped s → s_hist s !! Z.to_nat j = Some v → v ∈ s_consumed s) ∧
     0 ≤ s_popped s ≤ s_pushed s ∧ s_pushed s ≤ s_popped s + 1 ∧
     (∀ x p, s_prod s = PLoaded x p → p ≤ s_popped s +₆ 1)).
Proof.
  assert (rtc (step 1) (st_init 1) (St 1 0 [7] [7] [] PIdle (λ _, CIdle))) as Hr.
  { eapply rtc_l; [apply (push_load_pushed 1 0 0 _ _ _ _ 7); reflexivity|].
    eapply rtc_l; [apply push_load_popped_room; done|].
    eapply rtc_l; [apply push_write|].
    eapply rtc_l; [apply push_store|]. apply rtc_refl. }
  eexists. split; [exact Hr|]. split; [done|].
  apply spmc_no_entry_lost; [lia|reflexivity|exact Hr].
Defined.

(** ** [try_pop] under contention

    The [try_pop] that takes a [func] writes back one entry and then tries to
    advance [popped]; when the compare-and-swap fails it reloads [popped] and
    tries to advance past the entry it finds there. *)

Inductive tpc : Type :=
  | TIdle
  | TLoaded (curr_popped : Z)
  | TFunc (curr_popped : Z)
  | TCas (curr_popped : Z)
  | TReload (curr_popped : Z)
  | TDone (ret : bool).

Record tst : Type := Tst {
  t_pushed : Z;
  t_popped : Z;
  t_slots : list Z;
  t_consumed : list Z;
  t_pc : nat → tpc;
}.

(** The next step of thread [i] inside [try_pop]. *)
Definition try_pop_step (c : Z) (i : nat) (s : tst) : tst :=
  let '(Tst u o sl k pc) := s in
  match pc i with
  | TIdle => Tst u o sl k (<[i := TLoaded o]> pc)
  | TLoaded q => Tst u o sl k (<[i := if q =? u then TDone false else TFunc q]> pc)
  | TFunc q => Tst u o sl (k ++ [sl !!! Z.to_nat (q mod c)]) (<[i := TCas q]> pc)
  | TCas q => if o =? q then Tst u (q +₆ 1) sl k (<[i := TDone true]> pc)
              else Tst u o sl k (<[i := TReload o]> pc)
  | TReload q => Tst u o sl k (<[i := if q =? u then TDone false else TCas q]> pc)
  | TDone _ => s
  end.

Definition try_pop_run (c : Z) (sched : list nat) (s : tst) : tst :=
  fold_left (λ s i, try_pop_step c i s) sched s.

(** Two concurrent [try_pop]s can drop an entry: from a buffer holding
    [10] and [20] there is a schedule in which both calls return true and both
    entries are popped, but [func] is called on [10] twice and never on [20].
    ([try_pop] with a [func] has no caller in the program as it is.) *)
Theorem try_pop_race_drops_entry :
  ∃ sched, let s := try_pop_run 4 sched (Tst 2 0 [10; 20; 0; 0] [] (λ _, TIdle)) in
    t_popped s = t_pushed s ∧ t_pc s 0%nat = TDone true ∧ t_pc s 1%nat = TDone true ∧
    t_consumed s = [10; 10].
Proof. exists [0; 0; 0; 1; 1; 1; 1; 0; 0; 0]%nat. vm_compute. done. Qed.

End FixedCircBufferSPMC.

(** ** FixedHashSet *)
Module FixedHashSet.

(** [payloads] holds addresses; [nullptr] is 0.  [last_pop] is an [int]. *)
Record fhs : Type := Fhs { cap : Z; payloads : list Z; last_pop : Z }.

Definition new_fhs (c : Z) : fhs := Fhs c (replicate (Z.to_nat c) 0) 0.

Definition hash_idx (c x : Z) : nat := Z.to_nat (Z.shiftr x 6 mod c).

(** Like the circular buffer, [push] returns the addresses passed to [func]. *)
Definition push (x : Z) (b : fhs) : list Z * fhs :=
  let idx := hash_idx (cap b) x in
  let exp := payloads b !!! idx in
  if exp =? x then ([], b)
  else (if exp =? 0 then [] else [exp],
        Fhs (cap b) (<[idx := x]> (payloads b)) (last_pop b)).

(** The next bucket after the previous one; [false] does not mean empty. *)
Definition try_pop (b : fhs) : bool * list Z * fhs :=
  let idx := Z.to_nat (last_pop b mod cap b) in
  let b' := Fhs (cap b) (payloads b) (last_pop b + 1) in
  let exp := payloads b !!! idx in
  if exp =? 0 then (false, [], b')
  else (true, [exp], Fhs (cap b) (<[idx := 0]> (payloads b)) (last_pop b + 1)).

(** [pop_all] writes back every entry and leaves it in place. *)
Definition pop_all (b : fhs) : list Z * fhs :=
  (filter (λ x, x ≠ 0) (payloads b), b).

Definition clear (b : fhs) : fhs := Fhs (cap b) (replicate (Z.to_nat (cap b)) 0) (last_pop b).

(** A run of pushes, with everything written back on the way. *)
Fixpoint push_all (xs : list Z) (b : fhs) : list Z * fhs :=
  match xs with
  | [] => ([], b)
  | x :: xs' => let '(l, b1) := push x b in
                let '(l', b2) := push_all xs' b1 in (l ++ l', b2)
  end.

Definition wf (b : fhs) : Prop := 0 < cap b ∧ length (payloads b) = Z.to_nat (cap b).

Lemma hash_idx_lt b x : wf b → (hash_idx (cap b) x < length (payloads b))%nat.
Proof.
  intros [Hc Hl]. rewrite Hl. unfold hash_idx.
  pose proof (Z.mod_pos_bound (Z.shiftr x 6) (cap b) Hc). lia.
Qed.

(** [push] keeps the new address, and writes back what it displaces. *)
Lemma push_keeps x b l b' :
  wf b → push x b = (l, b') →
  wf b' ∧ x ∈ payloads b' ∧ ∀ y, y ∈ payloads b → y ≠ 0 → y ∈ l ∨ y ∈ payloads b'.
Proof.
  intros Hwf. unfold push. pose proof (hash_idx_lt b x Hwf) as Hi.
  set (idx := hash_idx (cap b) x) in *.
  destruct (lookup_lt_is_Some_2 _ _ Hi) as [e He].
  rewrite (list_lookup_total_correct _ _ _ He).
  destruct (Z.eqb_spec e x) as [->|Hne]; intros [= <- <-].
  { split_and!; [done| |by right]. by eapply list_elem_of_lookup_2. }
  split; [split; [apply Hwf|simpl; rewrite length_insert; apply Hwf]|]. simpl. split.
  { eapply list_elem_of_lookup_2, list_lookup_insert_eq, Hi. }
  intros y [k Hk]%list_elem_of_lookup Hy. destruct (decide (k = idx)) as [->|Hki].
  - left. rewrite He in Hk. injection Hk as ->. destruct (Z.eqb_spec y 0); [done|]. by apply list_elem_of_singleton.
  - right. eapply list_elem_of_lookup_2. by rewrite list_lookup_insert_ne.
Qed.

Lemma push_all_keeps xs b l b' :
  wf b → push_all xs b = (l, b') →
  wf b' ∧ ∀ y, (y ∈ payloads b ∨ y ∈ xs) → y ≠ 0 → y ∈ l ∨ y ∈ payloads b'.
Proof.
  revert b l b'. induction xs as [|x xs IH]; intros b l b' Hwf; simpl.
  { intros [= <- <-]. split; [done|]. intros y [|Hy]; [by right|by apply elem_of_nil in Hy]. }
  destruct (push x b) as [l1 b1] eqn:Hp. destruct (push_all xs b1) as [l2 b2] eqn:Ha.
  intros [= <- <-]. destruct (push_keeps _ _ _ _ Hwf Hp) as (Hwf1 & Hx & Hold).
  destruct (IH _ _ _ Hwf1 Ha) as (Hwf2 & Hrest). split; [done|].
  intros y Hy Hy0. rewrite elem_of_app. rewrite elem_of_cons in Hy.
  destruct Hy as [Hy|[->|Hy]]; [| |].
  - destruct (Hold y Hy Hy0) as [|Hb]; [tauto|]. destruct (Hrest y (or_introl Hb) Hy0); tauto.
  - destruct (Hrest x (or_introl Hx) Hy0); tauto.
  - destruct (Hrest y (or_intror Hy) Hy0); tauto.
Qed.

(** Every address pushed into the hash set is written back: by a push
    that displaces it, or by the [pop_all] at the end. *)
Theorem fhs_write_back_all (c : Z) (xs : list Z) :
  0 < c → Forall (λ x, x ≠ 0) xs →
  let '(l, b) := push_all xs (new_fhs c) in
  ∀ x, x ∈ xs → x ∈ l ++ (pop_all b).1.
Proof.
  intros Hc Hnz. destruct (push_all xs (new_fhs c)) as [l b] eqn:Ha.
  destruct (push_all_keeps xs (new_fhs c) l b) as [_ Hk]; [|done|].
  { split; [done|]. simpl. by rewrite length_replicate. }
  intros x Hx. rewrite Forall_forall in Hnz. specialize (Hnz x Hx).
  rewrite elem_of_app. simpl. rewrite list_elem_of_filter.
  destruct (Hk x (or_intror Hx) Hnz); tauto.
Qed.

Lemma fhs_write_back_all_witness :
  let '(l, b) := push_all [64; 128; 192; 320] (new_fhs 2) in
  ∀ x, x ∈ [64; 128; 192; 320] → x ∈ l ++ (pop_all b).1.
Proof.
  apply (fhs_write_back_all 2 [64; 128; 192; 320]); [lia|]. repeat constructor; lia.
Defined.

End FixedHashSet.
