(* ===== verification/Containers.v ===== *)
(** * Per-thread containers (src/persist/persist_utils.hpp, PerThreadContainers.hpp)

    [PerThreadVector] and [VectorContainer] hold the blocks to be freed; the two
    [FixedContainer] implementations hold the blocks to be written back.  What a
    [FixedContainer] promises to the write-back strategy that uses it is stated
    by the class [FixedContainerLaws]; both implementations are instances. *)

From S2P Require Import Prelude FixedBuffers.

(** ** PerThreadVector *)
Module PerThreadVector.
Section ptv.
Context {T : Type}.
Implicit Type b : list (list T).

Definition ptv_new (task_num : nat) : list (list T) := replicate task_num [].

Definition ptv_push (x : T) (tid : nat) b : outcome (list (list T)) :=
  match b !! tid with
  | Some l => Ret (<[tid := l ++ [x]]> b)
  | None => Throw (UB "buffers[tid]")
  end.

(** [while (!empty()) { func(back()); pop_back(); }]: from the back. *)
Definition ptv_pop_all_local (tid : nat) b : outcome (list T * list (list T)) :=
  match b !! tid with
  | Some l => Ret (reverse l, <[tid := []]> b)
  | None => Throw (UB "buffers[tid]")
  end.

Definition ptv_pop_all b : list T * list (list T) :=
  (concat (reverse <$> b), (λ _, []) <$> b).

Definition ptv_try_pop_local (tid : nat) b : outcome (bool * list T * list (list T)) :=
  match b !! tid with
  | Some l => match last l with
              | None => Ret (false, [], b)
              | Some x => Ret (true, [x], <[tid := take (length l - 1) l]> b)
              end
  | None => Throw (UB "buffers[tid]")
  end.

Definition ptv_clear b : list (list T) := (λ _, []) <$> b.
End ptv.
End PerThreadVector.

(** ** VectorContainer: one PerThreadVector per epoch of the window *)
Module VectorContainer.
Import PerThreadVector.
Section vc.
Context {T : Type}.
Implicit Type v : table (list T).

Definition vc_new (task_num : nat) : table (list T) :=
  replicate (Z.to_nat EPOCH_WINDOW) (ptv_new task_num).

Definition vc_push (x : T) (tid : nat) (c : Z) v : outcome (table (list T)) :=
  match v !! win c with
  | Some b => match ptv_push x tid b with
              | Ret b' => Ret (<[win c := b']> v)
              | Throw e => Throw e
              end
  | None => Throw (UB "containers[c]")
  end.

Definition vc_pop_all (c : Z) v : outcome (list T * table (list T)) :=
  match v !! win c with
  | Some b => let '(l, b') := ptv_pop_all b in Ret (l, <[win c := b']> v)
  | None => Throw (UB "containers[c]")
  end.

Definition vc_pop_all_local (tid : nat) (c : Z) v : outcome (list T * table (list T)) :=
  match v !! win c with
  | Some b => match ptv_pop_all_local tid b with
              | Ret (l, b') => Ret (l, <[win c := b']> v)
              | Throw e => Throw e
              end
  | None => Throw (UB "containers[c]")
  end.

Definition vc_try_pop_local (tid : nat) (c : Z) v : outcome (bool * list T * table (list T)) :=
  match v !! win c with
  | Some b => match ptv_try_pop_local tid b with
              | Ret (r, l, b') => Ret (r, l, <[win c := b']> v)
              | Throw e => Throw e
              end
  | None => Throw (UB "containers[c]")
  end.

Definition vc_clear v : table (list T) := ptv_clear <$> v.

(** The two operations used by the epoch system, as table accesses. *)
Lemma vc_push_spec x tid c v l :
  tab_get v (win c) tid = Some l →
  vc_push x tid c v = Ret (tab_set v (win c) tid (l ++ [x])).
Proof.
  unfold tab_get, vc_push, tab_set, ptv_push. destruct (v !! win c) as [b|] eqn:Hb; [|done].
  intros Ht. rewrite Ht. f_equal. symmetry. by erewrite list_alter_as_insert.
Qed.

Lemma vc_pop_all_local_spec tid c v l :
  tab_get v (win c) tid = Some l →
  vc_pop_all_local tid c v = Ret (reverse l, tab_set v (win c) tid []).
Proof.
  unfold tab_get, vc_pop_all_local, tab_set, ptv_pop_all_local.
  destruct (v !! win c) as [b|] eqn:Hb; [|done].
  intros Ht. rewrite Ht. do 2 f_equal. symmetry. by erewrite list_alter_as_insert.
Qed.
End vc.
End VectorContainer.

(** ** The FixedContainer interface

    The operations return the entries they passed to [func].  [fc_ok n k s]
    says that [s] serves [n] threads and has room for [k] more pushes before a
    counter wraps; [fc_pending s w t] are the entries of thread [t] held for
    epoch window [w]. *)

Class FixedContainer (C : Type) : Type := {
  fc_push : Z → nat → Z → C → outcome (list Z * C);
  fc_pop_all : Z → C → outcome (list Z * C);
  fc_pop_all_local : nat → Z → C → outcome (list Z * C);
  fc_clear : C → C;
}.

Class FixedContainerLaws (C : Type) `{!FixedContainer C} : Type := {
  fc_ok : nat → Z → C → Prop;
  fc_pending : C → nat → nat → list Z;
  fc_ok_mono n k k' s : 0 ≤ k' ≤ k → fc_ok n k s → fc_ok n k' s;
  fc_push_law n k s x tid c :
    fc_ok n k s → 0 < k → (tid < n)%nat → x ≠ 0 →
    ∃ l s', fc_push x tid c s = Ret (l, s') ∧ fc_ok n (k - 1) s' ∧
      x ∈ fc_pending s' (win c) tid ∧
      ∀ w t y, y ∈ fc_pending s w t → y ∈ l ∨ y ∈ fc_pending s' w t;
  fc_pop_all_local_law n k s tid c :
    fc_ok n k s → (tid < n)%nat →
    ∃ l s', fc_pop_all_local tid c s = Ret (l, s') ∧ fc_ok n k s' ∧
      (∀ y, y ∈ fc_pending s (win c) tid → y ∈ l) ∧
      ∀ w t y, y ∈ fc_pending s w t → y ∈ l ∨ y ∈ fc_pending s' w t;
  fc_pop_all_law n k s c :
    fc_ok n k s →
    ∃ l s', fc_pop_all c s = Ret (l, s') ∧ fc_ok n k s' ∧
      (∀ t y, y ∈ fc_pending s (win c) t → y ∈ l) ∧
      ∀ w t y, y ∈ fc_pending s w t → y ∈ l ∨ y ∈ fc_pending s' w t;
}.

(** ** The code shared by the two implementations

    [FixedCircBufferContainer] and [FixedHashSetContainer] are the same class
    over two buffer types; the section is parameterised by the buffer's
    operations and what they guarantee. *)
Module TableContainer.
Section tc.
Context {B : Type} (bpush : Z → B → outcome (list Z * B)) (bpop_all : B → outcome (list Z * B)).
Implicit Type s : table B.

Definition tc_push (x : Z) (tid : nat) (c : Z) s : outcome (list Z * table B) :=
  match tab_get s (win c) tid with
  | Some b => match bpush x b with
              | Ret (l, b') => Ret (l, tab_set s (win c) tid b')
              | Throw e => Throw e
              end
  | None => Throw (UB "containers[c][tid]")
  end.

Definition tc_pop_all_local (tid : nat) (c : Z) s : outcome (list Z * table B) :=
  match tab_get s (win c) tid with
  | Some b => match bpop_all b with
              | Ret (l, b') => Ret (l, tab_set s (win c) tid b')
              | Throw e => Throw e
              end
  | None => Throw (UB "containers[c][tid]")
  end.

(** [for (i = 0; i < thread_cnt; i++) containers[c%EPOCH_WINDOW][i]->pop_all(func)] *)
Fixpoint row_pop_all (row : list B) : outcome (list Z * list B) :=
  match row with
  | [] => Ret ([], [])
  | b :: row' =>
      match bpop_all b with
      | Ret (l, b') => match row_pop_all row' with
                       | Ret (l', row'') => Ret (l ++ l', b' :: row'')
                       | Throw e => Throw e
                       end
      | Throw e => Throw e
      end
  end.

Definition tc_pop_all (c : Z) s : outcome (list Z * table B) :=
  match s !! win c with
  | Some row => match row_pop_all row with
                | Ret (l, row') => Ret (l, <[win c := row']> s)
                | Throw e => Throw e
                end
  | None => Throw (UB "containers[c]")
  end.

(** What is needed of the buffer. *)
Context (bcontents : B → list Z) (bok : Z → B → Prop).
Hypothesis bok_mono : ∀ k k' b, 0 ≤ k' ≤ k → bok k b → bok k' b.
Hypothesis bpush_law : ∀ k x b, bok k b → 0 < k → x ≠ 0 →
  ∃ l b', bpush x b = Ret (l, b') ∧ bok (k - 1) b' ∧ x ∈ bcontents b' ∧
    ∀ y, y ∈ bcontents b → y ∈ l ∨ y ∈ bcontents b'.
Hypothesis bpop_all_law : ∀ k b, bok k b →
  ∃ b', bpop_all b = Ret (bcontents b, b') ∧ bok k b'.

Definition tc_pending s (w t : nat) : list Z :=
  match tab_get s w t with Some b => bcontents b | None => [] end.

Definition tc_ok (n : nat) (k : Z) s : Prop :=
  tab_dims n s ∧ 0 ≤ k ∧ ∀ w t b, tab_get s w t = Some b → bok k b.

Lemma tc_ok_mono n k k' s : 0 ≤ k' ≤ k → tc_ok n k s → tc_ok n k' s.
Proof.
  intros Hk' (Hd & Hk & Hall). split_and!; [done|lia|]. intros w t b Hb.
  eapply bok_mono; [done|by eapply Hall].
Qed.

(** Replacing one buffer by a later state of it. *)
Lemma tc_update n k k' s w t b b' (l : list Z) :
  tc_ok n k s → 0 ≤ k' ≤ k → tab_get s w t = Some b → bok k' b' →
  (∀ y, y ∈ bcontents b → y ∈ l ∨ y ∈ bcontents b') →
  tc_ok n k' (tab_set s w t b') ∧ tc_pending (tab_set s w t b') w t = bcontents b' ∧
  ∀ w' t' y, y ∈ tc_pending s w' t' → y ∈ l ∨ y ∈ tc_pending (tab_set s w t b') w' t'.
Proof.
  intros (Hd & Hk & Hall) Hk' Hb Hok Hy. pose proof (tab_get_set_eq s w t b' b Hb) as Heq.
  split_and!.
  - split_and!; [by apply tab_dims_set|lia|]. intros w2 t2 b2.
    destruct (decide ((w, t) = (w2, t2))) as [[= <- <-]|Hne].
    + rewrite Heq. by intros [= <-].
    + rewrite tab_get_set_ne by done. intros H2. eapply bok_mono; [done|by eapply Hall].
  - unfold tc_pending. by rewrite Heq.
  - intros w2 t2 y. unfold tc_pending. destruct (decide ((w, t) = (w2, t2))) as [[= <- <-]|Hne].
    + rewrite Heq, Hb. apply Hy.
    + rewrite tab_get_set_ne by done. by right.
Qed.

Lemma tc_push_ok n k s x tid c :
  tc_ok n k s → 0 < k → (tid < n)%nat → x ≠ 0 →
  ∃ l s', tc_push x tid c s = Ret (l, s') ∧ tc_ok n (k - 1) s' ∧
    x ∈ tc_pending s' (win c) tid ∧
    ∀ w t y, y ∈ tc_pending s w t → y ∈ l ∨ y ∈ tc_pending s' w t.
Proof.
  intros Hok Hk Ht Hx. unfold tc_push. pose proof Hok as (Hd & _ & Hall).
  destruct (tab_dims_get n s (win c) tid Hd (win_lt c) Ht) as [b Hb]. rewrite Hb.
  destruct (bpush_law k x b (Hall _ _ _ Hb) Hk Hx) as (l & b' & -> & Hb' & Hin & Hy).
  destruct (tc_update n k (k - 1) s (win c) tid b b' l) as (H1 & H2 & H3); try done.
  - lia.
  - eexists _, _. split_and!; [done..| |done]. by rewrite H2.
Qed.

Lemma tc_pop_all_local_ok n k s tid c :
  tc_ok n k s → (tid < n)%nat →
  ∃ l s', tc_pop_all_local tid c s = Ret (l, s') ∧ tc_ok n k s' ∧
    (∀ y, y ∈ tc_pending s (win c) tid → y ∈ l) ∧
    ∀ w t y, y ∈ tc_pending s w t → y ∈ l ∨ y ∈ tc_pending s' w t.
Proof.
  intros Hok Ht. unfold tc_pop_all_local. pose proof Hok as (Hd & Hk & Hall).
  destruct (tab_dims_get n s (win c) tid Hd (win_lt c) Ht) as [b Hb]. rewrite Hb.
  destruct (bpop_all_law k b (Hall _ _ _ Hb)) as (b' & -> & Hb').
  destruct (tc_update n k k s (win c) tid b b' (bcontents b)) as (H1 & H2 & H3); try done.
  - tauto.
  - eexists _, _. split_and!; [done..| |done]. unfold tc_pending. by rewrite Hb.
Qed.

Lemma row_pop_all_spec k row :
  Forall (bok k) row →
  ∃ l row', row_pop_all row = Ret (l, row') ∧ length row' = length row ∧
    Forall (bok k) row' ∧ ∀ t b y, row !! t = Some b → y ∈ bcontents b → y ∈ l.
Proof.
  induction 1 as [|b row Hb _ IH]; simpl; [by eexists _, _|].
  destruct (bpop_all_law k b Hb) as (b' & -> & Hb').
  destruct IH as (l & row' & -> & Hlen & Hf & Hl). eexists _, _. split_and!; [done| | |].
  - simpl. lia.
  - by constructor.
  - intros [|t] b2 y; simpl; rewrite elem_of_app.
    + intros [= <-]. tauto.
    + intros H2 Hy. right. by eapply Hl.
Qed.

Lemma tc_pop_all_ok n k s c :
  tc_ok n k s →
  ∃ l s', tc_pop_all c s = Ret (l, s') ∧ tc_ok n k s' ∧
    (∀ t y, y ∈ tc_pending s (win c) t → y ∈ l) ∧
    ∀ w t y, y ∈ tc_pending s w t → y ∈ l ∨ y ∈ tc_pending s' w t.
Proof.
  intros ([Hl Hf] & Hk & Hall). unfold tc_pop_all.
  destruct (lookup_lt_is_Some_2 s (win c)) as [row Hrow]; [rewrite Hl; apply win_lt|].
  rewrite Hrow. destruct (row_pop_all_spec k row) as (l & row' & -> & Hlen & Hok & Hin).
  { apply Forall_forall. intros b [t Ht]%list_elem_of_lookup. apply (Hall (win c) t).
    unfold tab_get. by rewrite Hrow. }
  assert (∀ w t, tab_get (<[win c:=row']> s) w t =
    if decide (w = win c) then row' !! t else tab_get s w t) as Hget.
  { intros w t. unfold tab_get. case_decide; subst.
    - rewrite list_lookup_insert_eq; [done|]. by eapply lookup_lt_Some.
    - by rewrite list_lookup_insert_ne. }
  eexists _, _. split; [done|]. split_and!.
  - split_and!; [|done|].
    + split; [by rewrite length_insert|]. apply Forall_insert; [done|].
      rewrite Forall_forall in Hf. rewrite Hlen. apply Hf. by eapply list_elem_of_lookup_2.
    + intros w t b. rewrite Hget. case_decide; [|by apply Hall].
      intros Ht. rewrite Forall_forall in Hok. apply Hok. by eapply list_elem_of_lookup_2.
  - intros t y. unfold tc_pending, tab_get. rewrite Hrow.
    destruct (row !! t) eqn:Ht; [by eapply Hin|]. intros Hy. by apply elem_of_nil in Hy.
  - intros w t y. unfold tc_pending. rewrite Hget. case_decide as Hw; [|by right].
    subst w. unfold tab_get. rewrite Hrow.
    destruct (row !! t) eqn:Ht; [left; by eapply Hin|]. intros Hy. by apply elem_of_nil in Hy.
Qed.
End tc.
End TableContainer.

(** ** FixedCircBufferContainer *)
Module FixedCircBufferContainer.
Import FixedCircBuffer TableContainer.

Definition fcc_new (task_num : nat) (c : Z) : table (fcb Z) := tab_new task_num (new_fcb c).
Definition fcc_push := tc_push (B := fcb Z) push.
Definition fcc_pop_all := tc_pop_all (B := fcb Z) pop_all.
Definition fcc_pop_all_local := tc_pop_all_local (B := fcb Z) pop_all.

Definition fcc_try_pop_local (tid : nat) (c : Z) (s : table (fcb Z)) :
    outcome (bool * list Z * table (fcb Z)) :=
  match tab_get s (win c) tid with
  | Some b => match try_pop b with
              | Ret (r, l, b') => Ret (r, l, tab_set s (win c) tid b')
              | Throw e => Throw e
              end
  | None => Throw (UB "containers[c][tid]")
  end.

Definition fcc_clear (s : table (fcb Z)) : table (fcb Z) := map (map clear) s.

Definition buf_ok (k : Z) (b : fcb Z) : Prop := wf b ∧ pushed b + cap b + k < U64.

Lemma buf_ok_mono k k' b : 0 ≤ k' ≤ k → buf_ok k b → buf_ok k' b.
Proof. intros ? [? ?]. split; [done|lia]. Qed.

Lemma buf_push_law k x (b : fcb Z) :
  buf_ok k b → 0 < k → x ≠ 0 →
  ∃ l b', push x b = Ret (l, b') ∧ buf_ok (k - 1) b' ∧ x ∈ contents b' ∧
    ∀ y, y ∈ contents b → y ∈ l ∨ y ∈ contents b'.
Proof.
  intros [Hwf Hn] Hk _. destruct (push_spec x b Hwf ltac:(lia)) as (b' & -> & Hc & Hwf' & Hp & Hcap).
  eexists _, _. split_and!; [done|split; [done|lia]| |].
  - rewrite Hc. apply elem_of_snoc.
  - intros y. rewrite Hc, <- (take_drop (if full b then 1 else 0) (contents b)) at 1.
    rewrite !elem_of_app. tauto.
Qed.

Lemma buf_pop_all_law k (b : fcb Z) :
  buf_ok k b → ∃ b', pop_all b = Ret (contents b, b') ∧ buf_ok k b'.
Proof.
  intros [Hwf Hn]. destruct (pop_all_spec b Hwf) as (b' & -> & Hc & Hwf' & Hp & Hcap).
  eexists. split; [done|]. split; [done|lia].
Qed.

#[export] Instance fcc_container : FixedContainer (table (fcb Z)) := {|
  fc_push := fcc_push;
  fc_pop_all := fcc_pop_all;
  fc_pop_all_local := fcc_pop_all_local;
  fc_clear := fcc_clear;
|}.

#[export, program] Instance fcc_laws : FixedContainerLaws (table (fcb Z)) := {|
  fc_ok := tc_ok buf_ok;
  fc_pending := tc_pending contents;
|}.
Next Obligation. intros. eapply tc_ok_mono; [apply buf_ok_mono|done..]. Qed.
Next Obligation. intros. by apply tc_push_ok; [apply buf_ok_mono|apply buf_push_law|..]. Qed.
Next Obligation. intros. by apply tc_pop_all_local_ok; [apply buf_ok_mono|apply buf_pop_all_law|..]. Qed.
Next Obligation. intros. by apply tc_pop_all_ok; [apply buf_pop_all_law|..]. Qed.

Lemma fcc_new_ok n c k : 0 < c → 0 ≤ k → c + k < U64 → fc_ok n k (fcc_new n c).
Proof.
  intros. split_and!; [apply tab_dims_new|done|]. intros w t b ->%tab_get_new.
  split; [apply new_fcb_wf; lia|simpl; lia].
Qed.

End FixedCircBufferContainer.

(** ** FixedHashSetContainer *)
Module FixedHashSetContainer.
Import FixedHashSet TableContainer.

Definition fhc_new (task_num : nat) (c : Z) : table fhs := tab_new task_num (new_fhs c).
Definition fhc_push := tc_push (B := fhs) (λ x b, Ret (push x b)).
Definition fhc_pop_all := tc_pop_all (B := fhs) (λ b, Ret (pop_all b)).
Definition fhc_pop_all_local := tc_pop_all_local (B := fhs) (λ b, Ret (pop_all b)).

Definition fhc_try_pop_local (tid : nat) (c : Z) (s : table fhs) :
    outcome (bool * list Z * table fhs) :=
  match tab_get s (win c) tid with
  | Some b => let '(r, l, b') := try_pop b in Ret (r, l, tab_set s (win c) tid b')
  | None => Throw (UB "containers[c][tid]")
  end.

Definition fhc_clear (s : table fhs) : table fhs := map (map clear) s.

Definition set_ok (k : Z) (b : fhs) : Prop := wf b.
Definition set_contents (b : fhs) : list Z := filter (λ x, x ≠ 0) (payloads b).

Lemma set_push_law k x b :
  set_ok k b → 0 < k → x ≠ 0 →
  ∃ l b', Ret (push x b) = Ret (l, b') ∧ set_ok (k - 1) b' ∧ x ∈ set_contents b' ∧
    ∀ y, y ∈ set_contents b → y ∈ l ∨ y ∈ set_contents b'.
Proof.
  intros Hwf _ Hx. destruct (push x b) as [l b'] eqn:Hp.
  destruct (push_keeps _ _ _ _ Hwf Hp) as (Hwf' & Hin & Hold).
  unfold set_contents. eexists _, _. split_and!; [done..| |].
  - by apply list_elem_of_filter.
  - intros y. rewrite !list_elem_of_filter. intros [Hy0 Hy]. destruct (Hold y Hy Hy0); tauto.
Qed.

#[export] Instance fhc_container : FixedContainer (table fhs) := {|
  fc_push := fhc_push;
  fc_pop_all := fhc_pop_all;
  fc_pop_all_local := fhc_pop_all_local;
  fc_clear := fhc_clear;
|}.

#[export, program] Instance fhc_laws : FixedContainerLaws (table fhs) := {|
  fc_ok := tc_ok set_ok;
  fc_pending := tc_pending set_contents;
|}.
Next Obligation. intros. by eapply tc_ok_mono. Qed.
Next Obligation. intros. by apply tc_push_ok; [|apply set_push_law|..]. Qed.
Next Obligation.
  intros. apply tc_pop_all_local_ok; try done. intros ? b Hb. by exists b.
Qed.
Next Obligation. intros. apply tc_pop_all_ok; try done. intros ? b Hb. by exists b. Qed.

End FixedHashSetContainer.
