(* ===== verification/CircBuffer.v ===== *)
(** * CircBuffer and the containers built on it (src/persist/persist_utils.hpp, PerThreadContainers.hpp)

    [CircBuffer] is an unbounded first-in first-out buffer: a ring of nodes,
    allocated in chunks, that is cut open at the tail and extended by a chunk of
    its own size when it is full.  A pointer to a node is a pair of a chunk
    number and an index; incrementing a pointer moves within its chunk, and an
    access outside a chunk is undefined behaviour.

    The theorem: whatever is pushed, popped and cleared, the ring with its broken
    chunks behaves as a queue.  [PerThreadContainer] states what a container per
    thread and epoch promises; [CircBufferContainer] and [VectorContainer] are
    both instances. *)

From S2P Require Import Prelude FixedBuffers Containers.

Notation ptr := (nat * nat)%type.

Module CircBuffer.

Record node (T : Type) : Type := Node {
  (** [None]: not written yet *)
  n_payload : option T;
  n_next : option ptr;
}.
Arguments Node {T}.
Arguments n_payload {T}.
Arguments n_next {T}.

Record cb (T : Type) : Type := Cb {
  cap : Z;
  head : ptr;
  tail : ptr;
  mem : list (list (node T));
  (** the bases of the chunks to be deleted by the destructor *)
  chunks : list nat;
}.
Arguments Cb {T}.
Arguments cap {T}.
Arguments head {T}.
Arguments tail {T}.
Arguments mem {T}.
Arguments chunks {T}.

Definition CIRCBUFFER_DEF_CAP : Z := 64.
Definition INT_MAX : Z := 2 ^ 31 - 1.

Section cb.
Context {T : Type}.
Implicit Types (b : cb T) (m : list (list (node T))) (a p : ptr) (q : list T).

Definition get_node m p : option (node T) := m !! p.1 ≫= (.!! p.2).
Definition set_node (p : ptr) (x : node T) m : list (list (node T)) := alter (<[p.2 := x]>) p.1 m.

(** [p->next ? p->next : ++p] *)
Definition next_node m p : option ptr :=
  match get_node m p with
  | Some nd => Some (match n_next nd with Some p' => p' | None => (p.1, S p.2) end)
  | None => None
  end.

(** [new Node[n]] with [[n-1].next] set to [p] *)
Definition new_chunk (n : nat) (p : ptr) : list (node T) :=
  replicate (n - 1) (Node None None) ++ [Node None (Some p)].

Definition new_cb : cb T :=
  Cb CIRCBUFFER_DEF_CAP (0%nat, 0%nat) (0%nat, 0%nat)
     [new_chunk (Z.to_nat CIRCBUFFER_DEF_CAP) (0%nat, 0%nat)] [].

Definition push (x : T) b : outcome (cb T) :=
  match get_node (mem b) (tail b) with
  | None => Throw (UB "tail.ui->payload")
  | Some nd =>
      let m1 := set_node (tail b) (Node (Some x) (n_next nd)) (mem b) in
      match next_node m1 (tail b) with
      | None => Throw (UB "next_node(tail.ui)")
      | Some next_tail =>
          if bool_decide (next_tail = head b) then
            let p := (length m1, 0%nat) in
            let m2 := set_node (tail b) (Node (Some x) (Some p)) m1 ++ [new_chunk (Z.to_nat (cap b)) (head b)] in
            if INT_MAX <? 2 * cap b then Throw (UB "cap <<= 1")
            else Ret (Cb (2 * cap b) (head b) p m2 (chunks b ++ [p.1]))
          else Ret (Cb (cap b) (head b) next_tail m1 (chunks b))
      end
  end.

(** [try_pop(func)]: what was passed to [func], or [None] for the result [false] *)
Definition try_pop b : outcome (option T * cb T) :=
  if bool_decide (head b = tail b) then Ret (None, b)
  else
    match get_node (mem b) (head b), next_node (mem b) (head b) with
    | Some (Node (Some x) _), Some next_head => Ret (Some x, Cb (cap b) next_head (tail b) (mem b) (chunks b))
    | _, _ => Throw (UB "head.ui->payload")
    end.

Definition clear b : cb T := Cb (cap b) (tail b) (tail b) (mem b) (chunks b).

(** [while(try_pop(func)){}]; [fuel] bounds the number of iterations. *)
Fixpoint pop_all (fuel : nat) b : outcome (list T * cb T) :=
  match fuel with
  | O => Throw (Spin "pop_all")
  | S fuel' =>
      match try_pop b with
      | Ret (None, b') => Ret ([], b')
      | Ret (Some x, b') =>
          match pop_all fuel' b' with
          | Ret (l, b'') => Ret (x :: l, b'')
          | Throw e => Throw e
          end
      | Throw e => Throw e
      end
  end.

(** ** The ring *)

(** Following [next_node] from [a] visits [l] and ends at [z]. *)
Fixpoint path m a (l : list ptr) (z : ptr) : Prop :=
  match l with
  | [] => a = z
  | x :: l' => a = x ∧ ∃ a', next_node m a = Some a' ∧ path m a' l' z
  end.

Lemma path_app m l1 l2 : ∀ a z, path m a (l1 ++ l2) z ↔ ∃ y, path m a l1 y ∧ path m y l2 z.
Proof.
  induction l1 as [|x l1 IH]; intros a z; simpl; [naive_solver|].
  setoid_rewrite IH. naive_solver.
Qed.

(** A path depends only on the nodes it visits. *)
Lemma path_ext m m' l : ∀ a z, (∀ p, p ∈ l → next_node m' p = next_node m p) → path m a l z → path m' a l z.
Proof.
  induction l as [|x l IH]; intros a z Hl; simpl; [done|]. intros (-> & a' & Ha & Hp). split; [done|].
  exists a'. rewrite Hl by set_solver. split; [done|]. apply IH; [set_solver|done].
Qed.

Lemma path_head m a l z : l ≠ [] → path m a l z → ∃ l', l = a :: l'.
Proof. destruct l as [|x l]; [done|]. intros _ (-> & _). by eexists. Qed.

Record rep b q (pre post : list ptr) : Prop := {
  rp_cap : 0 < cap b ∧ Z.of_nat (length (pre ++ post)) = cap b;
  rp_nodup : NoDup (pre ++ post);
  rp_full : path (mem b) (head b) pre (tail b);
  rp_free : path (mem b) (tail b) post (head b);
  rp_post : post ≠ [];
  rp_mem : ∀ p, p ∈ pre ++ post → is_Some (get_node (mem b) p);
  rp_vals : Forall2 (λ p x, ∃ nd, get_node (mem b) p = Some nd ∧ n_payload nd = Some x) pre q;
}.

Definition represents b q : Prop := ∃ pre post, rep b q pre post.

Lemma rep_length b q pre post : rep b q pre post → Z.of_nat (length q) < cap b.
Proof.
  intros Hr. pose proof (rp_cap _ _ _ _ Hr) as [_ Hc]. pose proof (rp_post _ _ _ _ Hr).
  rewrite <- (Forall2_length _ _ _ (rp_vals _ _ _ _ Hr)). rewrite length_app in Hc.
  destruct post; [done|]. simpl in Hc. lia.
Qed.

(** ** Changes of one node and new chunks *)

Lemma get_set_eq m p x nd : get_node m p = Some nd → get_node (set_node p x m) p = Some x.
Proof.
  unfold get_node, set_node. destruct (m !! p.1) as [c|] eqn:Hc; simpl; [|done]. intros Ho.
  rewrite list_lookup_alter, Hc. case_decide; [|done]. simpl. apply list_lookup_insert_eq. by eapply lookup_lt_Some.
Qed.

Lemma get_set_ne m p p' x : p ≠ p' → get_node (set_node p x m) p' = get_node m p'.
Proof.
  unfold get_node, set_node. intros Hne. rewrite list_lookup_alter. case_decide as Hc; [|done].
  destruct p as [c o], p' as [c' o']. simpl in *. subst c'. destruct (m !! c) as [l|]; simpl; [|done].
  apply list_lookup_insert_ne. congruence.
Qed.

Lemma get_app m c p nd : get_node m p = Some nd → get_node (m ++ [c]) p = Some nd.
Proof.
  unfold get_node. destruct (m !! p.1) as [l|] eqn:Hl; simpl; [|done].
  rewrite lookup_app_l by (by eapply lookup_lt_Some). by rewrite Hl.
Qed.

Lemma get_new m n p o :
  get_node (m ++ [new_chunk n p]) (length m, o) = new_chunk n p !! o.
Proof. unfold get_node. simpl. by rewrite lookup_app_r, Nat.sub_diag. Qed.

Lemma next_node_eq m m' p : get_node m' p = get_node m p → next_node m' p = next_node m p.
Proof. intros H. unfold next_node. by rewrite H. Qed.

(** The nodes of a chunk, as a path. *)
Definition chunk_path (c n : nat) : list ptr := (λ o, (c, o)) <$> seq 0 n.

Lemma new_chunk_lookup n p o : (0 < n)%nat → (o < n)%nat →
  new_chunk n p !! o = Some (Node None (if decide (S o = n) then Some p else None)).
Proof.
  intros Hn Ho. unfold new_chunk. destruct (decide (S o = n)).
  - rewrite lookup_app_r; rewrite length_replicate; [|lia]. by replace (o - (n - 1))%nat with 0%nat by lia.
  - rewrite lookup_app_l by (rewrite length_replicate; lia). apply lookup_replicate_2. lia.
Qed.

Lemma chunk_path_ok m n p :
  (0 < n)%nat → path (m ++ [new_chunk n p]) (length m, 0%nat) (chunk_path (length m) n) p.
Proof.
  intros Hn.
  assert (∀ j o, (o + S j = n)%nat →
    path (m ++ [new_chunk n p]) (length m, o) ((λ o, (length m, o)) <$> seq o (S j)) p) as H.
  { induction j as [|j IH]; intros o Ho; simpl; (split; [done|]).
    - exists p. split; [|done]. unfold next_node. rewrite get_new, new_chunk_lookup by lia. case_decide; [done|lia].
    - exists (length m, S o). split; [|apply (IH (S o)); lia].
      unfold next_node. rewrite get_new, new_chunk_lookup by lia. case_decide; [lia|done]. }
  unfold chunk_path. destruct n as [|j]; [lia|]. apply (H j 0%nat). lia.
Qed.

Lemma chunk_path_in c n p : p ∈ chunk_path c n ↔ p.1 = c ∧ (p.2 < n)%nat.
Proof.
  unfold chunk_path. rewrite list_elem_of_fmap. split.
  - intros (o & -> & Ho%elem_of_seq). simpl. split; [done|lia].
  - destruct p as [c' o]. simpl. intros [-> Ho]. exists o. split; [done|]. apply elem_of_seq. lia.
Qed.

Lemma chunk_path_nodup c n : NoDup (chunk_path c n).
Proof. apply NoDup_fmap_2; [by intros ?? [=]|apply NoDup_seq]. Qed.

Lemma get_node_chunk m p nd : get_node m p = Some nd → (p.1 < length m)%nat.
Proof. unfold get_node. destruct (m !! p.1) eqn:Hm; [|done]. intros _. by eapply lookup_lt_Some. Qed.

(** ** The operations *)

Lemma new_cb_rep : represents new_cb [].
Proof.
  exists [], (chunk_path 0 64). constructor; simpl.
  - done.
  - apply chunk_path_nodup.
  - done.
  - apply (chunk_path_ok [] 64 (0%nat, 0%nat)). lia.
  - done.
  - intros p [Hc Ho]%chunk_path_in. pose proof (get_new [] 64 (0%nat, 0%nat) p.2) as Hg.
    rewrite new_chunk_lookup in Hg by lia. exists (Node None (if decide (S p.2 = 64%nat) then Some (0%nat, 0%nat) else None)).
    destruct p as [c o]. simpl in *. subst c. exact Hg.
  - constructor.
Qed.

(** The nodes of [pre] do not see a change at the tail. *)
Lemma vals_ext m m' (pre : list ptr) q :
  (∀ p, p ∈ pre → get_node m' p = get_node m p) →
  Forall2 (λ p x, ∃ nd, get_node m p = Some nd ∧ n_payload nd = Some x) pre q →
  Forall2 (λ p x, ∃ nd, get_node m' p = Some nd ∧ n_payload nd = Some x) pre q.
Proof.
  intros Hm. induction 1 as [|p x pre q (nd & Hnd & Hx) _ IH]; constructor.
  - exists nd. by rewrite Hm by set_solver.
  - apply IH. set_solver.
Qed.

(** Writing the payload of the tail: the ring is the same, and the tail is the
    node of the new entry. *)
Lemma push_write b q pre post x nd :
  rep b q pre post → get_node (mem b) (tail b) = Some nd →
  let m1 := set_node (tail b) (Node (Some x) (n_next nd)) (mem b) in
  (∀ p, next_node m1 p = next_node (mem b) p) ∧
  (∀ p, is_Some (get_node (mem b) p) → is_Some (get_node m1 p)) ∧
  Forall2 (λ p x, ∃ nd, get_node m1 p = Some nd ∧ n_payload nd = Some x) (pre ++ [tail b]) (q ++ [x]).
Proof.
  intros Hr Hnd m1. assert (tail b ∉ pre) as Hnot.
  { destruct (path_head _ _ _ _ (rp_post _ _ _ _ Hr) (rp_free _ _ _ _ Hr)) as [post' ->].
    pose proof (rp_nodup _ _ _ _ Hr) as (_ & Hd & _)%NoDup_app. intros Hin. apply (Hd _ Hin). set_solver. }
  split_and!.
  - intros p. unfold m1. destruct (decide (tail b = p)) as [<-|Hne].
    + unfold next_node. rewrite (get_set_eq _ _ _ nd), Hnd by done. done.
    + apply next_node_eq. by apply get_set_ne.
  - intros p Hp. unfold m1. destruct (decide (tail b = p)) as [<-|Hne].
    + rewrite (get_set_eq _ _ _ nd) by done. by eexists.
    + by rewrite get_set_ne.
  - apply Forall2_app.
    + eapply vals_ext; [|exact (rp_vals _ _ _ _ Hr)]. intros p Hp. apply get_set_ne. by intros Heq; subst p.
    + constructor; [|constructor]. exists (Node (Some x) (n_next nd)). split; [unfold m1; by apply (get_set_eq _ _ _ nd)|done].
Qed.

(** A full ring is cut open at the tail and extended by a chunk. *)
Section grow.
Context b q (pre : list ptr) (x : T) (m1 : list (list (node T))) (nd1 : node T).
Hypothesis Hr : rep b q pre [tail b].
Hypothesis Hnext : ∀ p, next_node m1 p = next_node (mem b) p.
Hypothesis Hget : ∀ p, is_Some (get_node (mem b) p) → is_Some (get_node m1 p).
Hypothesis Hvals : Forall2 (λ p x, ∃ nd, get_node m1 p = Some nd ∧ n_payload nd = Some x) (pre ++ [tail b]) (q ++ [x]).
Hypothesis Hnd1 : get_node m1 (tail b) = Some nd1 ∧ n_payload nd1 = Some x.
Let n := Z.to_nat (cap b).
Let m2 := set_node (tail b) (Node (Some x) (Some (length m1, 0%nat))) m1 ++ [new_chunk n (head b)].

Lemma grow_old p : p ≠ tail b → is_Some (get_node m1 p) → get_node m2 p = get_node m1 p.
Proof using Type. intros Hp [nd' Hnd']. rewrite Hnd'. apply get_app. by rewrite get_set_ne. Qed.
Lemma grow_tail : get_node m2 (tail b) = Some (Node (Some x) (Some (length m1, 0%nat))).
Proof using Hnd1. apply get_app. by apply (get_set_eq _ _ _ nd1), Hnd1. Qed.
Lemma grow_len : length (set_node (tail b) (Node (Some x) (Some (length m1, 0%nat))) m1) = length m1.
Proof using Type. apply length_alter. Qed.
Lemma grow_pre p : p ∈ pre → get_node m2 p = get_node m1 p.
Proof using All.
  intros Hp. apply grow_old; [|apply Hget, (rp_mem _ _ _ _ Hr); set_solver]. intros ->.
  pose proof (rp_nodup _ _ _ _ Hr) as (_ & Hd & _)%NoDup_app. apply (Hd _ Hp). set_solver.
Qed.

Lemma grow_vals : Forall2 (λ p x, ∃ nd, get_node m2 p = Some nd ∧ n_payload nd = Some x) (pre ++ [tail b]) (q ++ [x]).
Proof using All.
  pose proof Hvals as Hv. apply Forall2_app_inv in Hv as [Hv1 _]; [|by apply (Forall2_length _ _ _ (rp_vals _ _ _ _ Hr))].
  apply Forall2_app.
  - eapply vals_ext; [|exact Hv1]. intros p Hp. by apply grow_pre.
  - constructor; [|constructor]. exists (Node (Some x) (Some (length m1, 0%nat))). by rewrite grow_tail.
Qed.

Lemma grow_ok :
  rep (Cb (2 * cap b) (head b) (length m1, 0%nat) m2 (chunks b ++ [length m1])) (q ++ [x])
    (pre ++ [tail b]) (chunk_path (length m1) n).
Proof using All.
  pose proof Hr as [[Hc0 Hc] Hndp Hfull Hfree _ Hmem Hv].
  assert (∀ p, p ∈ pre ++ [tail b] → (p.1 < length m1)%nat) as Hlt.
  { intros p Hp. destruct (Hget p) as [nd' Hnd']; [by apply Hmem|]. by eapply get_node_chunk. }
  constructor; simpl.
  - rewrite length_app. unfold chunk_path. rewrite length_fmap, length_seq. unfold n. lia.
  - apply NoDup_app. split; [done|]. split; [|apply chunk_path_nodup].
    intros p Hp [Hpc _]%chunk_path_in. specialize (Hlt p Hp). lia.
  - apply path_app. exists (tail b). split.
    + apply (path_ext (mem b)); [|done]. intros p Hp. rewrite <- Hnext. by apply next_node_eq, grow_pre.
    + simpl. split; [done|]. eexists. split; [|done]. unfold next_node. by rewrite grow_tail.
  - unfold m2. rewrite <- grow_len at 2 3. apply chunk_path_ok. unfold n. lia.
  - unfold chunk_path, n. destruct (Z.to_nat (cap b)) eqn:Hz; [lia|done].
  - intros p [Hp|[Hpc Ho]%chunk_path_in]%elem_of_app.
    + destruct (decide (p = tail b)) as [->|Hne]; [by rewrite grow_tail; eexists|].
      rewrite grow_old; [|done|]; by apply Hget, Hmem.
    + destruct p as [c o]. simpl in *. subst c. unfold m2. rewrite <- grow_len at 2.
      rewrite get_new, new_chunk_lookup by lia. by eexists.
  - exact grow_vals.
Qed.
End grow.

Lemma push_ok b q x :
  represents b q → Z.of_nat (length q) + 1 < 2 ^ 30 →
  ∃ b', push x b = Ret b' ∧ represents b' (q ++ [x]).
Proof.
  intros (pre & post & Hr) Hlen.
  destruct (path_head _ _ _ _ (rp_post _ _ _ _ Hr) (rp_free _ _ _ _ Hr)) as [post' ->].
  destruct (rp_mem _ _ _ _ Hr (tail b)) as [nd Hnd]; [set_solver|].
  destruct (push_write b q pre _ x nd Hr Hnd) as (Hnext & Hget & Hvals). unfold push. rewrite Hnd.
  set (m1 := set_node (tail b) (Node (Some x) (n_next nd)) (mem b)) in *.
  pose proof Hr as [[Hc0 Hc] Hndp Hfull (_ & y & Hy & Hfree) _ Hmem Hv]. rewrite Hnext, Hy. case_bool_decide as Hyh.
  - assert (post' = []) as ->.
    { subst y. destruct post' as [|z post']; [done|]. destruct Hfree as (<- & _). exfalso.
      destruct pre as [|p pre]; simpl in Hndp; apply NoDup_cons in Hndp as [Hn _].
      - simpl in Hfull. rewrite Hfull in Hn. set_solver.
      - destruct Hfull as [Hp _]. rewrite <- Hp in Hn. set_solver. }
    assert (Z.of_nat (length q) + 1 = cap b) as Hq.
    { rewrite <- (Forall2_length _ _ _ Hv). rewrite length_app in Hc. simpl in Hc. lia. }
    destruct (Z.ltb_spec INT_MAX (2 * cap b)); [unfold INT_MAX in *; lia|]. eexists. split; [done|].
    eexists _, _. simpl. eapply (grow_ok b q pre x m1 (Node (Some x) (n_next nd))); try done.
    split; [by apply (get_set_eq _ _ _ nd)|done].
  - eexists. split; [done|]. exists (pre ++ [tail b]), post'.
    assert (∀ a l z, path (mem b) a l z → path m1 a l z) as Hpath.
    { intros a l z. apply path_ext. intros p _. apply Hnext. }
    constructor; simpl; rewrite <- ?app_assoc; try done.
    + apply path_app. exists (tail b). split; [by apply Hpath|]. split; [done|]. exists y. by rewrite Hnext.
    + by apply Hpath.
    + intros ->. simpl in Hfree. congruence.
    + intros p Hp. by apply Hget, Hmem.
Qed.

Lemma try_pop_ok b q :
  represents b q →
  match q with
  | [] => try_pop b = Ret (None, b)
  | x :: q' => ∃ b', try_pop b = Ret (Some x, b') ∧ represents b' q'
  end.
Proof.
  intros (pre & post & [Hc Hnd Hfull Hfree Hpost Hmem Hv]). unfold try_pop.
  inversion Hv as [Hp Hq|p x pre' q' (nd & Hg & Hx) Hv' Hp Hq]; subst.
  { simpl in Hfull. by rewrite bool_decide_true. }
  destruct Hfull as (Hh & a' & Hn & Hfull). destruct (path_head _ _ _ _ Hpost Hfree) as [post' ->].
  rewrite bool_decide_false; cycle 1.
  { intros Heq. rewrite <- Hh, Heq in Hnd. apply NoDup_cons in Hnd as [Hnot _]. set_solver. }
  rewrite <- Hh in Hg. rewrite Hg, Hn. destruct nd as [pay nx]. simpl in Hx. subst pay. eexists. split; [done|].
  exists pre', ((tail b :: post') ++ [p]). constructor; simpl.
  - revert Hc. simpl. rewrite !length_app. simpl. rewrite length_app. simpl. lia.
  - apply (NoDup_Permutation_proper (p :: pre' ++ tail b :: post')); [|done]. simpl. solve_Permutation.
  - done.
  - apply (path_app _ (tail b :: post') [p]). exists (head b). split; [done|]. split; [done|]. by exists a'.
  - done.
  - intros a Ha. apply Hmem. set_solver.
  - done.
Qed.

Lemma clear_ok b q : represents b q → represents (clear b) [].
Proof.
  intros (pre & post & [Hc Hnd Hfull Hfree Hpost Hmem Hv]). exists [], (post ++ pre). constructor; simpl.
  - revert Hc. rewrite !length_app. lia.
  - by rewrite Permutation_app_comm.
  - done.
  - apply path_app. by exists (head b).
  - by destruct post.
  - intros p Hp. apply Hmem. set_solver.
  - constructor.
Qed.

(** [pop_all] hands out the whole queue in order, within one more step than
    there are entries. *)
Lemma pop_all_ok q : ∀ b fuel, represents b q → (length q < fuel)%nat →
  ∃ b', pop_all fuel b = Ret (q, b') ∧ represents b' [].
Proof.
  induction q as [|x q IH]; intros b [|fuel] Hr Hf; simpl in *; try lia; pose proof (try_pop_ok _ _ Hr) as Hp.
  - rewrite Hp. by exists b.
  - destruct Hp as (b1 & -> & Hr1). destruct (IH b1 fuel Hr1) as (b2 & -> & Hr2); [lia|]. by exists b2.
Qed.

(** ** Sequences of operations *)

Inductive cbop : Type := Push (x : T) | TryPop | PopAll | Clear.

(** One operation: what it hands out. *)
Definition cb_step (o : cbop) b : outcome (list T * cb T) :=
  match o with
  | Push x => match push x b with Ret b' => Ret ([], b') | Throw e => Throw e end
  | TryPop => match try_pop b with
              | Ret (r, b') => Ret (match r with Some x => [x] | None => [] end, b')
              | Throw e => Throw e
              end
  | PopAll => pop_all (Z.to_nat (cap b)) b
  | Clear => Ret ([], clear b)
  end.

Fixpoint cb_run (os : list cbop) b : outcome (list (list T) * cb T) :=
  match os with
  | [] => Ret ([], b)
  | o :: os' =>
      match cb_step o b with
      | Throw e => Throw e
      | Ret (l, b') => match cb_run os' b' with
                       | Ret (ls, b'') => Ret (l :: ls, b'')
                       | Throw e => Throw e
                       end
      end
  end.

(** The same operations on a queue. *)
Definition q_step (o : cbop) q : list T * list T :=
  match o with
  | Push x => ([], q ++ [x])
  | TryPop => match q with [] => ([], []) | x :: q' => ([x], q') end
  | PopAll => (q, [])
  | Clear => ([], [])
  end.

Fixpoint q_run (os : list cbop) q : list (list T) * list T :=
  match os with
  | [] => ([], q)
  | o :: os' => let '(l, q') := q_step o q in let '(ls, q'') := q_run os' q' in (l :: ls, q'')
  end.

Lemma cb_step_ok o b q :
  represents b q → Z.of_nat (length q) + 1 < 2 ^ 30 →
  ∃ b', cb_step o b = Ret ((q_step o q).1, b') ∧ represents b' (q_step o q).2.
Proof.
  intros Hr Hlen. destruct o as [x| | |]; simpl.
  - destruct (push_ok b q x Hr Hlen) as (b' & -> & Hr'). by exists b'.
  - pose proof (try_pop_ok b q Hr) as Hp. destruct q as [|x q]; [rewrite Hp; by exists b|].
    destruct Hp as (b' & -> & Hr'). by exists b'.
  - destruct Hr as (pre & post & Hr). pose proof (rep_length _ _ _ _ Hr).
    destruct (pop_all_ok q b (Z.to_nat (cap b))) as (b' & -> & Hr'); [by exists pre, post|lia|]. by exists b'.
  - exists (clear b). split; [done|by eapply clear_ok].
Qed.

Lemma q_step_length o q : (length (q_step o q).2 <= S (length q))%nat.
Proof. destruct o; simpl; rewrite ?length_app; simpl; try lia. destruct q; simpl; lia. Qed.

Lemma cb_run_ok os : ∀ b q,
  represents b q → Z.of_nat (length q) + Z.of_nat (length os) < 2 ^ 30 →
  ∃ b', cb_run os b = Ret ((q_run os q).1, b') ∧ represents b' (q_run os q).2.
Proof.
  induction os as [|o os IH]; intros b q Hr Hlen; simpl in *; [by exists b|].
  destruct (cb_step_ok o b q Hr) as (b1 & -> & Hr1); [lia|]. pose proof (q_step_length o q) as Hq.
  destruct (q_step o q) as [l q1]. simpl in *. destruct (IH b1 q1 Hr1) as (b2 & -> & Hr2); [lia|].
  destruct (q_run os q1) as [ls q2]. by exists b2.
Qed.
End cb.
Arguments cbop : clear implicits.

(** C30. [CircBuffer] is an unbounded queue.  Starting from the constructor,
    every sequence of fewer than 2^30 pushes, pops, pops of everything and
    clears runs without undefined behaviour, through any number of times the
    ring is cut open and grows, hands out the entries in the order of a queue,
    and leaves a ring that holds exactly what the queue holds. *)
Theorem cb_refines_queue {T} (os : list (cbop T)) :
  Z.of_nat (length os) < 2 ^ 30 →
  ∃ b', cb_run os new_cb = Ret ((q_run os []).1, b') ∧ represents b' (q_run os []).2.
Proof. intros Hlen. apply cb_run_ok; [apply new_cb_rep|simpl; lia]. Qed.

(** More than 64 entries, the tail in the middle of a chunk: the ring grows while
    a chunk is broken in half. *)
Definition growing : list (cbop Z) :=
  (Push <$> seqZ 0 40) ++ replicate 30 TryPop ++ (Push <$> seqZ 100 200) ++ [TryPop; PopAll; TryPop].

Lemma cb_refines_queue_witness :
  ∃ b', cb_run growing new_cb = Ret ((q_run growing []).1, b') ∧ represents b' [].
Proof.
  change [] with (q_run growing []).2 at 2.
  apply (cb_refines_queue growing). vm_compute. reflexivity.
Defined.

Example cb_grows : match cb_run growing new_cb with Ret (_, b) => (cap b, length (mem b)) | Throw _ => (0, 0%nat) end = (256, 3%nat).
Proof. vm_compute. reflexivity. Qed.
End CircBuffer.

(** ** The PerThreadContainer interface

    The operations of the abstract class, with what they passed to [func].
    [pc_rep n k s f]: [s] serves [n] threads, holds the entries [f w t] for
    window [w] and thread [t], and has room for [k] more pushes. *)
Class PerThreadContainer (C T : Type) : Type := {
  pc_push : T → nat → Z → C → outcome C;
  pc_pop_all : Z → C → outcome (list T * C);
  pc_try_pop_local : nat → Z → C → outcome (bool * list T * C);
  pc_pop_all_local : nat → Z → C → outcome (list T * C);
  pc_clear : C → C;
}.

(** [f] with the entries of [w] and [t] replaced *)
Definition upd {T} (f : nat → nat → list T) (w t : nat) (l : list T) : nat → nat → list T :=
  λ w' t', if decide ((w', t') = (w, t)) then l else f w' t'.

Class PerThreadContainerLaws (C T : Type) `{!PerThreadContainer C T} : Type := {
  pc_rep : nat → Z → C → (nat → nat → list T) → Prop;
  pc_push_law n k s f x tid c :
    pc_rep n k s f → 0 < k → (tid < n)%nat →
    ∃ s', pc_push x tid c s = Ret s' ∧ pc_rep n (k - 1) s' (upd f (win c) tid (f (win c) tid ++ [x]));
  pc_pop_all_local_law n k s f tid c :
    pc_rep n k s f → (tid < n)%nat →
    ∃ l s', pc_pop_all_local tid c s = Ret (l, s') ∧ l ≡ₚ f (win c) tid ∧ pc_rep n k s' (upd f (win c) tid []);
  pc_try_pop_local_law n k s f tid c :
    pc_rep n k s f → (tid < n)%nat →
    ∃ l s' rest, pc_try_pop_local tid c s = Ret (negb (bool_decide (f (win c) tid = [])), l, s') ∧
      f (win c) tid ≡ₚ l ++ rest ∧ (length l <= 1)%nat ∧ (l = [] → rest = []) ∧ pc_rep n k s' (upd f (win c) tid rest);
  pc_pop_all_law n k s f c :
    pc_rep n k s f →
    ∃ l s', pc_pop_all c s = Ret (l, s') ∧ l ≡ₚ concat (f (win c) <$> seq 0 n) ∧
      pc_rep n k s' (λ w t, if decide (w = win c) then [] else f w t);
  pc_clear_law n k s f : pc_rep n k s f → pc_rep n k (pc_clear s) (λ _ _, []);
}.

(** ** A row of buffers per epoch, over any buffer

    [PerThreadCircBuffer] and [PerThreadVector] are the same class over two
    kinds of buffer, and so are the containers made of them. *)
Module RowContainer.
Section rc.
Context {B T : Type} (bpush : T → B → outcome B) (bpop_all : B → outcome (list T * B))
  (btry_pop : B → outcome (bool * list T * B)) (bclear : B → B).
Implicit Types (row : list B) (s : table B).

(** [buffers[tid].ui->...] *)
Definition on_buf {A} (tid : nat) (op : B → outcome (A * B)) row : outcome (A * list B) :=
  match row !! tid with
  | Some b => match op b with
              | Ret (a, b') => Ret (a, <[tid := b']> row)
              | Throw e => Throw e
              end
  | None => Throw (UB "buffers[tid]")
  end.

Fixpoint row_pop_all row : outcome (list T * list B) :=
  match row with
  | [] => Ret ([], [])
  | b :: row' =>
      match bpop_all b with
      | Throw e => Throw e
      | Ret (l, b') => match row_pop_all row' with
                       | Ret (l', row'') => Ret (l ++ l', b' :: row'')
                       | Throw e => Throw e
                       end
      end
  end.

(** [containers[c%EPOCH_WINDOW].ui->...] *)
Definition on_row {A} (c : Z) (op : list B → outcome (A * list B)) s : outcome (A * table B) :=
  match s !! win c with
  | Some row => match op row with
                | Ret (a, row') => Ret (a, <[win c := row']> s)
                | Throw e => Throw e
                end
  | None => Throw (UB "containers[c]")
  end.

Definition rc_push (x : T) (tid : nat) (c : Z) s : outcome (table B) :=
  match on_row c (on_buf tid (λ b, match bpush x b with Ret b' => Ret (tt, b') | Throw e => Throw e end)) s with
  | Ret (_, s') => Ret s'
  | Throw e => Throw e
  end.
Definition rc_pop_all_local (tid : nat) (c : Z) s := on_row c (on_buf tid bpop_all) s.
Definition rc_try_pop_local (tid : nat) (c : Z) s : outcome (bool * list T * table B) :=
  on_row c (on_buf tid btry_pop) s.
Definition rc_pop_all (c : Z) s := on_row c row_pop_all s.
Definition rc_clear s : table B := (λ row : list B, bclear <$> row) <$> s.

(** What is needed of the buffer: [brep k b q] says that [b] holds [q] and takes
    [k] more entries. *)
Context (brep : Z → B → list T → Prop).
Hypothesis brep_mono : ∀ k k' b q, 0 ≤ k' ≤ k → brep k b q → brep k' b q.
Hypothesis bpush_law : ∀ k b q x, brep k b q → 0 < k → ∃ b', bpush x b = Ret b' ∧ brep (k - 1) b' (q ++ [x]).
Hypothesis bpop_all_law : ∀ k b q, brep k b q → ∃ l b', bpop_all b = Ret (l, b') ∧ l ≡ₚ q ∧ brep k b' [].
Hypothesis btry_pop_law : ∀ k b q, brep k b q →
  ∃ l b' rest, btry_pop b = Ret (negb (bool_decide (q = [])), l, b') ∧ q ≡ₚ l ++ rest ∧ (length l <= 1)%nat ∧
    (l = [] → rest = []) ∧ brep k b' rest.
Hypothesis bclear_law : ∀ k b q, brep k b q → brep k (bclear b) [].

Definition rc_rep (n : nat) (k : Z) s (f : nat → nat → list T) : Prop :=
  tab_dims n s ∧ 0 ≤ k ∧ ∀ w t b, tab_get s w t = Some b → brep k b (f w t).

Lemma on_buf_row {A} tid c (op : B → outcome (A * B)) s b :
  tab_get s (win c) tid = Some b →
  on_row c (on_buf tid op) s =
    match op b with Ret (a, b') => Ret (a, tab_set s (win c) tid b') | Throw e => Throw e end.
Proof.
  unfold tab_get, on_row, on_buf, tab_set. destruct (s !! win c) as [row|] eqn:Hrow; [|done]. intros ->.
  destruct (op b) as [[a b']|e]; [|done]. do 2 f_equal. symmetry. by erewrite list_alter_as_insert.
Qed.

Lemma rc_update n k k' s f w t b b' q :
  rc_rep n k s f → 0 ≤ k' ≤ k → tab_get s w t = Some b → brep k' b' q → rc_rep n k' (tab_set s w t b') (upd f w t q).
Proof.
  intros (Hd & Hk & Hall) Hk' Hb Hq. split_and!; [by apply tab_dims_set|lia|].
  intros w2 t2 b2. unfold upd. case_decide as Hwt.
  - simplify_eq. rewrite (tab_get_set_eq _ _ _ _ b Hb). by intros [= <-].
  - rewrite tab_get_set_ne by congruence. intros H2. eapply brep_mono; [exact Hk'|by apply Hall].
Qed.

Lemma rc_push_ok n k s f x tid c :
  rc_rep n k s f → 0 < k → (tid < n)%nat →
  ∃ s', rc_push x tid c s = Ret s' ∧ rc_rep n (k - 1) s' (upd f (win c) tid (f (win c) tid ++ [x])).
Proof.
  intros Hs Hk Ht. pose proof Hs as (Hd & _ & Hall). destruct (tab_dims_get n s (win c) tid Hd (win_lt c) Ht) as [b Hb].
  destruct (bpush_law k b _ x (Hall _ _ _ Hb) Hk) as (b' & Hp & Hb').
  unfold rc_push. rewrite (on_buf_row _ _ _ _ b Hb), Hp. eexists. split; [done|]. eapply rc_update; [done|lia|done|done].
Qed.

Lemma rc_pop_all_local_ok n k s f tid c :
  rc_rep n k s f → (tid < n)%nat →
  ∃ l s', rc_pop_all_local tid c s = Ret (l, s') ∧ l ≡ₚ f (win c) tid ∧ rc_rep n k s' (upd f (win c) tid []).
Proof.
  intros Hs Ht. pose proof Hs as (Hd & Hk & Hall). destruct (tab_dims_get n s (win c) tid Hd (win_lt c) Ht) as [b Hb].
  destruct (bpop_all_law k b _ (Hall _ _ _ Hb)) as (l & b' & Hp & Hl & Hb').
  unfold rc_pop_all_local. rewrite (on_buf_row _ _ _ _ b Hb), Hp. eexists _, _. split_and!; [done|done|].
  eapply rc_update; [done|lia|done|done].
Qed.

Lemma rc_try_pop_local_ok n k s f tid c :
  rc_rep n k s f → (tid < n)%nat →
  ∃ l s' rest, rc_try_pop_local tid c s = Ret (negb (bool_decide (f (win c) tid = [])), l, s') ∧
    f (win c) tid ≡ₚ l ++ rest ∧ (length l <= 1)%nat ∧ (l = [] → rest = []) ∧ rc_rep n k s' (upd f (win c) tid rest).
Proof.
  intros Hs Ht. pose proof Hs as (Hd & Hk & Hall). destruct (tab_dims_get n s (win c) tid Hd (win_lt c) Ht) as [b Hb].
  destruct (btry_pop_law k b _ (Hall _ _ _ Hb)) as (l & b' & rest & Hp & Hl & Hl1 & Hr & Hb').
  unfold rc_try_pop_local. rewrite (on_buf_row _ _ _ _ b Hb), Hp. eexists _, _, rest. split_and!; [done|done|done|done|].
  eapply rc_update; [done|lia|done|done].
Qed.

Lemma row_pop_all_ok k row (g : nat → list T) :
  (∀ t b, row !! t = Some b → brep k b (g t)) →
  ∃ l row', row_pop_all row = Ret (l, row') ∧ length row' = length row ∧
    l ≡ₚ concat (g <$> seq 0 (length row)) ∧ ∀ t b, row' !! t = Some b → brep k b [].
Proof.
  revert g. induction row as [|b row IH]; intros g Hg; simpl; [by exists [], []|].
  destruct (bpop_all_law k b (g 0%nat) (Hg 0%nat b eq_refl)) as (l & b' & -> & Hl & Hb').
  destruct (IH (g ∘ S)) as (l2 & row' & -> & Hlen & Hl2 & Hrow); [intros t b2; apply (Hg (S t))|].
  eexists _, _. split; [done|]. split; [simpl; lia|]. split.
  - rewrite <- fmap_S_seq, <- list_fmap_compose. by rewrite Hl, Hl2.
  - intros [|t] b2; simpl; [by intros [= <-]|apply Hrow].
Qed.

Lemma rc_pop_all_ok n k s f c :
  rc_rep n k s f →
  ∃ l s', rc_pop_all c s = Ret (l, s') ∧ l ≡ₚ concat (f (win c) <$> seq 0 n) ∧
    rc_rep n k s' (λ w t, if decide (w = win c) then [] else f w t).
Proof.
  intros ([Hl Hf] & Hk & Hall). destruct (lookup_lt_is_Some_2 s (win c)) as [row Hrow]; [rewrite Hl; apply win_lt|].
  assert (length row = n) as Hn.
  { rewrite Forall_forall in Hf. apply Hf. by eapply list_elem_of_lookup_2. }
  destruct (row_pop_all_ok k row (f (win c))) as (l & row' & Hp & Hlen & Hl2 & Hrow').
  { intros t b Hb. apply Hall. unfold tab_get. by rewrite Hrow. }
  unfold rc_pop_all, on_row. rewrite Hrow, Hp. eexists _, _. split; [done|]. rewrite Hn in Hl2. split; [done|].
  split_and!; [|done|].
  - split; [by rewrite length_insert|]. apply Forall_insert; [done|congruence].
  - intros w t b. unfold tab_get. case_decide as Hw; [subst w|].
    + rewrite list_lookup_insert_eq by (by eapply lookup_lt_Some). apply Hrow'.
    + rewrite list_lookup_insert_ne by done. intros Hb. by apply Hall.
Qed.

Lemma rc_clear_ok n k s f : rc_rep n k s f → rc_rep n k (rc_clear s) (λ _ _, []).
Proof.
  intros ([Hl Hf] & Hk & Hall). unfold rc_clear. split_and!; [|done|].
  - split; [by rewrite length_fmap|]. apply Forall_fmap. eapply Forall_impl; [exact Hf|].
    intros row Hrow. simpl. by rewrite length_fmap.
  - intros w t b. unfold tab_get. rewrite list_lookup_fmap. destruct (s !! w) as [row|] eqn:Hw; [|done]. simpl.
    rewrite list_lookup_fmap. destruct (row !! t) as [b0|] eqn:Ht; [|done]. intros [= <-].
    eapply bclear_law. apply (Hall w t). unfold tab_get. by rewrite Hw.
Qed.
End rc.
End RowContainer.

(** ** CircBufferContainer *)
Module CircBufferContainer.
Import CircBuffer RowContainer.
Section cbc.
Context {T : Type}.

Definition cb_pop_all (b : cb T) : outcome (list T * cb T) := pop_all (Z.to_nat (cap b)) b.
Definition cb_try_pop (b : cb T) : outcome (bool * list T * cb T) :=
  match try_pop b with
  | Ret (None, b') => Ret (false, [], b')
  | Ret (Some x, b') => Ret (true, [x], b')
  | Throw e => Throw e
  end.

Definition ptcb_new (task_num : nat) : list (cb T) := replicate task_num new_cb.
Definition cbc_new (task_num : nat) : table (cb T) := replicate (Z.to_nat EPOCH_WINDOW) (ptcb_new task_num).
Definition cbc_push : T → nat → Z → table (cb T) → outcome (table (cb T)) := rc_push push.
Definition cbc_pop_all : Z → table (cb T) → outcome (list T * table (cb T)) := rc_pop_all cb_pop_all.
Definition cbc_pop_all_local : nat → Z → table (cb T) → outcome (list T * table (cb T)) := rc_pop_all_local cb_pop_all.
Definition cbc_try_pop_local : nat → Z → table (cb T) → outcome (bool * list T * table (cb T)) :=
  rc_try_pop_local cb_try_pop.
Definition cbc_clear : table (cb T) → table (cb T) := rc_clear clear.

#[export] Instance cbc_api : PerThreadContainer (table (cb T)) T := {|
  pc_push := cbc_push; pc_pop_all := cbc_pop_all; pc_try_pop_local := cbc_try_pop_local;
  pc_pop_all_local := cbc_pop_all_local; pc_clear := cbc_clear |}.

Definition cb_holds (k : Z) (b : cb T) (q : list T) : Prop := represents b q ∧ Z.of_nat (length q) + k < 2 ^ 30.

Lemma cb_holds_mono k k' (b : cb T) q : 0 ≤ k' ≤ k → cb_holds k b q → cb_holds k' b q.
Proof. intros ? [? ?]. split; [done|lia]. Qed.

Lemma cb_holds_push k (b : cb T) q x :
  cb_holds k b q → 0 < k → ∃ b', push x b = Ret b' ∧ cb_holds (k - 1) b' (q ++ [x]).
Proof.
  intros [Hr Hk] ?. destruct (push_ok b q x Hr) as (b' & Hp & Hr'); [lia|]. exists b'. split; [done|].
  split; [done|]. rewrite length_app. simpl. lia.
Qed.

Lemma cb_holds_pop_all k (b : cb T) q :
  cb_holds k b q → ∃ l b', cb_pop_all b = Ret (l, b') ∧ l ≡ₚ q ∧ cb_holds k b' [].
Proof.
  intros [Hr Hk]. pose proof Hr as (pre & post & Hrep). pose proof (rep_length _ _ _ _ Hrep).
  destruct (pop_all_ok q b (Z.to_nat (cap b)) Hr) as (b' & Hp & Hr'); [lia|]. exists q, b'.
  split; [done|]. split; [done|]. split; [done|]. simpl. lia.
Qed.

Lemma cb_holds_try_pop k (b : cb T) q :
  cb_holds k b q → ∃ l b' rest, cb_try_pop b = Ret (negb (bool_decide (q = [])), l, b') ∧ q ≡ₚ l ++ rest ∧
    (length l <= 1)%nat ∧ (l = [] → rest = []) ∧ cb_holds k b' rest.
Proof.
  intros [Hr Hk]. pose proof (try_pop_ok b q Hr) as Hp. unfold cb_try_pop. destruct q as [|x q].
  - rewrite Hp. exists [], b, []. split_and!; try done; simpl; lia.
  - destruct Hp as (b' & -> & Hr'). exists [x], b', q. split_and!; [done|done|done|done|]. split; [done|]. simpl in Hk. lia.
Qed.

Lemma cb_holds_clear k (b : cb T) q : cb_holds k b q → cb_holds k (clear b) [].
Proof. intros [Hr Hk]. split; [by eapply clear_ok|simpl; lia]. Qed.

#[export] Instance cbc_laws : PerThreadContainerLaws (table (cb T)) T.
Proof.
  refine {| pc_rep := rc_rep cb_holds |}; simpl.
  - intros. by apply rc_push_ok; [exact cb_holds_mono|exact cb_holds_push|..].
  - intros. by apply rc_pop_all_local_ok; [exact cb_holds_mono|exact cb_holds_pop_all|..].
  - intros. by apply rc_try_pop_local_ok; [exact cb_holds_mono|exact cb_holds_try_pop|..].
  - intros. by apply rc_pop_all_ok; [exact cb_holds_pop_all|].
  - intros. by eapply rc_clear_ok; [exact cb_holds_clear|].
Defined.

Lemma cbc_new_rep (n : nat) (k : Z) : 0 ≤ k < 2 ^ 30 → pc_rep n k (cbc_new n) (λ _ _, []).
Proof.
  intros Hk. split_and!; [apply tab_dims_new|lia|]. intros w t b ->%tab_get_new. split; [apply new_cb_rep|simpl; lia].
Qed.
End cbc.
End CircBufferContainer.

(** ** VectorContainer as a PerThreadContainer *)
Module VectorPerThread.
Import PerThreadVector VectorContainer RowContainer.
Section vpc.
Context {T : Type}.

#[export] Instance vc_api : PerThreadContainer (table (list T)) T := {|
  pc_push := vc_push; pc_pop_all := vc_pop_all; pc_try_pop_local := vc_try_pop_local;
  pc_pop_all_local := vc_pop_all_local; pc_clear := vc_clear |}.

(** A [std::vector] as a buffer. *)
Definition v_push (x : T) (l : list T) : outcome (list T) := Ret (l ++ [x]).
Definition v_pop_all (l : list T) : outcome (list T * list T) := Ret (reverse l, []).
Definition v_try_pop (l : list T) : outcome (bool * list T * list T) :=
  match last l with None => Ret (false, [], l) | Some x => Ret (true, [x], take (length l - 1) l) end.
Definition v_holds (k : Z) (l q : list T) : Prop := l = q.

Lemma vc_push_row x tid c (v : table (list T)) : vc_push x tid c v = rc_push v_push x tid c v.
Proof. unfold vc_push, rc_push, on_row, ptv_push, on_buf. destruct (v !! win c) as [b|]; [|done]. by destruct (b !! tid). Qed.
Lemma vc_pop_all_local_row tid c (v : table (list T)) : vc_pop_all_local tid c v = rc_pop_all_local v_pop_all tid c v.
Proof.
  unfold vc_pop_all_local, rc_pop_all_local, on_row, ptv_pop_all_local, on_buf. destruct (v !! win c) as [b|]; [|done].
  by destruct (b !! tid).
Qed.
Lemma vc_try_pop_local_row tid c (v : table (list T)) : vc_try_pop_local tid c v = rc_try_pop_local v_try_pop tid c v.
Proof.
  unfold vc_try_pop_local, rc_try_pop_local, on_row, ptv_try_pop_local, on_buf, v_try_pop.
  destruct (v !! win c) as [b|]; [|done]. destruct (b !! tid) as [l|] eqn:Hl; [|done].
  destruct (last l); [done|]. by rewrite (list_insert_id b tid l Hl).
Qed.
Lemma vc_pop_all_row c (v : table (list T)) : vc_pop_all c v = rc_pop_all v_pop_all c v.
Proof.
  unfold vc_pop_all, rc_pop_all, on_row, ptv_pop_all. destruct (v !! win c) as [b|]; [|done].
  assert (row_pop_all v_pop_all b = Ret (concat (reverse <$> b), (λ _, []) <$> b)) as ->; [|done].
  clear. induction b as [|l b IH]; simpl; [done|]. by rewrite IH.
Qed.

Lemma v_holds_try_pop k (l q : list T) :
  v_holds k l q → ∃ r l' rest, v_try_pop l = Ret (negb (bool_decide (q = [])), r, l') ∧ q ≡ₚ r ++ rest ∧
    (length r <= 1)%nat ∧ (r = [] → rest = []) ∧ v_holds k l' rest.
Proof.
  unfold v_holds. intros <-. unfold v_try_pop. induction l as [|x l _] using rev_ind; [exists [], [], []; split_and!; try done; simpl; lia|].
  rewrite last_snoc. exists [x], l, l. split_and!; [|solve_Permutation|done|done|done].
  rewrite bool_decide_false by (by destruct l). do 3 f_equal. rewrite length_app. simpl.
  replace (length l + 1 - 1)%nat with (length l) by lia. apply take_app_length.
Qed.

#[export] Instance vc_laws : PerThreadContainerLaws (table (list T)) T.
Proof.
  refine {| pc_rep := rc_rep v_holds |}; simpl.
  - intros. rewrite vc_push_row. apply rc_push_ok; [done| |done..]. intros k' b q y -> _. by eexists.
  - intros. rewrite vc_pop_all_local_row. apply rc_pop_all_local_ok; [done| |done..].
    intros k' b q ->. eexists _, _. split; [done|]. split; [apply reverse_Permutation|done].
  - intros. rewrite vc_try_pop_local_row. by apply rc_try_pop_local_ok; [done|exact v_holds_try_pop|..].
  - intros. rewrite vc_pop_all_row. apply rc_pop_all_ok; [|done].
    intros k' b q ->. eexists _, _. split; [done|]. split; [apply reverse_Permutation|done].
  - intros n k s f Hs. by apply (rc_clear_ok (λ _, []) v_holds) in Hs.
Defined.
End vpc.
End VectorPerThread.
