(* ===== verification/ToBePersisted.v ===== *)
(** * To-be-persisted containers (src/persist/ToBePersistedContainers.hpp, .cpp)

    The write-back strategies of the epoch system: [DirWB] writes a block back
    as soon as it is registered, [BufferedWB] keeps the addresses of an epoch in
    a [FixedContainer] until the epoch is persisted, [NoToBePersistContainer]
    does nothing.  Every operation returns the write-back instructions it
    executed.  [malloc_size] belongs to the allocator (Ralloc). *)

From S2P Require Import Prelude PersistFunc FixedBuffers Containers.

(** ** Descriptors, common to all strategies *)

Record desc_state : Type := DescState {
  descs_p : list Z;
  desc_persist_indicators : table bool;
}.

Section tbp.
Context (malloc_size : Z → Z).

Definition desc_new (task_num : nat) : desc_state :=
  DescState (replicate task_num 0) (tab_new task_num false).

Definition init_desc_local (addr : Z) (tid : nat) (d : desc_state) : outcome desc_state :=
  if addr =? 0 then Throw (AssertFail "addr")
  else Ret (DescState (<[tid := addr]> (descs_p d)) (desc_persist_indicators d)).

Definition register_persist_desc_local (c : Z) (tid : nat) (d : desc_state) : desc_state :=
  DescState (descs_p d) (tab_set (desc_persist_indicators d) (win c) tid true).

Definition do_persist_desc_local (c : Z) (tid : nat) (d : desc_state) : list pevent * desc_state :=
  let blk := default 0 (descs_p d !! tid) in
  if blk =? 0 then ([], d)
  else (clwb_range_nofence blk (malloc_size blk),
        DescState (descs_p d) (tab_set (desc_persist_indicators d) (win c) tid false)).

(** [for (i = 0; i < task_num; i++) do_persist_desc_local(c, i)] *)
Fixpoint do_persist_descs (c : Z) (tids : list nat) (d : desc_state) : list pevent * desc_state :=
  match tids with
  | [] => ([], d)
  | t :: tids' => let '(l, d1) := do_persist_desc_local c t d in
                  let '(l', d2) := do_persist_descs c tids' d1 in (l ++ l', d2)
  end.

(** ** DirWB *)

Definition dir_register_persist_desc_local (tid : nat) (d : desc_state) : list pevent :=
  let blk := default 0 (descs_p d !! tid) in clwb_range_nofence blk (malloc_size blk).
Definition dir_register_persist (blk : Z) : outcome (list pevent) :=
  if blk =? 0 then Throw (AssertFail "blk!=nullptr")
  else Ret (clwb_range_nofence blk (malloc_size blk)).
Definition dir_register_persist_raw (blk : Z) : list pevent := [Clwb blk].
Definition dir_persist_epoch_local : list pevent := [].

(** ** BufferedWB *)

Definition mark_raw (ptr : Z) : Z := Z.lor ptr 1.
Definition is_raw (ptr : Z) : bool := Z.land ptr 1 =? 1.
Definition unmark_raw (ptr : Z) : Z := Z.ldiff ptr 1.

Definition do_persist (addr : Z) : list pevent :=
  if is_raw addr then [Clwb (unmark_raw addr)]
  else clwb_range_nofence addr (malloc_size addr).

Context {C : Type} `{!FixedContainer C}.

Record bwb : Type := Bwb {
  bwb_task_num : nat;
  bwb_desc : desc_state;
  bwb_container : C;
}.

Definition bwb_push (x : Z) (c : Z) (tid : nat) (s : bwb) : outcome (list pevent * bwb) :=
  match fc_push x tid c (bwb_container s) with
  | Ret (l, k) => Ret (concat (do_persist <$> l), Bwb (bwb_task_num s) (bwb_desc s) k)
  | Throw e => Throw e
  end.

Definition register_persist (blk c : Z) (tid : nat) (s : bwb) : outcome (list pevent * bwb) :=
  if blk =? 0 then Throw (AssertFail "blk!=nullptr")
  else if c =? NULL_EPOCH then Throw (Errexit "registering persist of epoch NULL.")
  else bwb_push blk c tid s.

Definition register_persist_raw (blk c : Z) (tid : nat) (s : bwb) : outcome (list pevent * bwb) :=
  if blk =? 0 then Throw (AssertFail "blk!=nullptr")
  else if c =? NULL_EPOCH then Throw (Errexit "registering persist of epoch NULL.")
  else bwb_push (mark_raw blk) c tid s.

Definition persist_epoch (c : Z) (s : bwb) : outcome (list pevent * bwb) :=
  match fc_pop_all c (bwb_container s) with
  | Ret (l, k) =>
      let '(ld, d) := do_persist_descs c (seq 0 (bwb_task_num s)) (bwb_desc s) in
      Ret (concat (do_persist <$> l) ++ ld, Bwb (bwb_task_num s) d k)
  | Throw e => Throw e
  end.

Definition persist_epoch_local (c : Z) (tid : nat) (s : bwb) : outcome (list pevent * bwb) :=
  match fc_pop_all_local tid c (bwb_container s) with
  | Ret (l, k) =>
      let '(ld, d) := do_persist_desc_local c tid (bwb_desc s) in
      Ret (concat (do_persist <$> l) ++ ld, Bwb (bwb_task_num s) d k)
  | Throw e => Throw e
  end.

Definition bwb_clear (s : bwb) : bwb :=
  Bwb (bwb_task_num s) (bwb_desc s) (fc_clear (bwb_container s)).

(** ** Runs of a BufferedWB *)

Inductive bwb_op : Type :=
  | RegisterPersist (blk c : Z) (tid : nat)
  | RegisterPersistRaw (blk c : Z) (tid : nat)
  | PersistEpoch (c : Z)
  | PersistEpochLocal (c : Z) (tid : nat)
  | InitDescLocal (addr : Z) (tid : nat)
  | RegisterPersistDescLocal (c : Z) (tid : nat).

Definition bwb_run_op (o : bwb_op) (s : bwb) : outcome (list pevent * bwb) :=
  match o with
  | RegisterPersist blk c tid => register_persist blk c tid s
  | RegisterPersistRaw blk c tid => register_persist_raw blk c tid s
  | PersistEpoch c => persist_epoch c s
  | PersistEpochLocal c tid => persist_epoch_local c tid s
  | InitDescLocal addr tid =>
      match init_desc_local addr tid (bwb_desc s) with
      | Ret d => Ret ([], Bwb (bwb_task_num s) d (bwb_container s))
      | Throw e => Throw e
      end
  | RegisterPersistDescLocal c tid =>
      Ret ([], Bwb (bwb_task_num s) (register_persist_desc_local c tid (bwb_desc s))
                   (bwb_container s))
  end.

Fixpoint bwb_run (ops : list bwb_op) (s : bwb) : outcome (list pevent * bwb) :=
  match ops with
  | [] => Ret ([], s)
  | o :: ops' =>
      match bwb_run_op o s with
      | Ret (l, s') => match bwb_run ops' s' with
                       | Ret (l', s'') => Ret (l ++ l', s'')
                       | Throw e => Throw e
                       end
      | Throw e => Throw e
      end
  end.

(** The calls the epoch system makes: a thread of the pool, a block address
    that is not null, an epoch that is not [NULL_EPOCH]. *)
Definition op_ok (n : nat) (o : bwb_op) : Prop :=
  match o with
  | RegisterPersist blk c tid | RegisterPersistRaw blk c tid =>
      0 < blk ∧ c ≠ NULL_EPOCH ∧ (tid < n)%nat
  | PersistEpoch c => True
  | PersistEpochLocal c tid => (tid < n)%nat
  | InitDescLocal addr tid => addr ≠ 0
  | RegisterPersistDescLocal c tid => True
  end.

(** ** Correctness, against the FixedContainer interface *)

Context `{!FixedContainerLaws C}.
Implicit Type s : bwb.

Definition bwb_ok (n : nat) (k : Z) s : Prop := fc_ok n k (bwb_container s).

Definition pending s (w t : nat) : list Z := fc_pending (bwb_container s) w t.

Lemma mark_raw_nonzero p : 0 < p → mark_raw p ≠ 0.
Proof. unfold mark_raw. intros Hp H. apply Z.lor_eq_0_iff in H. lia. Qed.

(** Nothing pending disappears without being written back. *)
Definition kept s s' (l : list pevent) : Prop :=
  ∀ w t y, y ∈ pending s w t →
    (∀ e, e ∈ do_persist y → e ∈ l) ∨ y ∈ pending s' w t.

Lemma in_do_persist_all (l : list Z) y e :
  y ∈ l → e ∈ do_persist y → e ∈ concat (do_persist <$> l).
Proof.
  intros Hy He. apply list_elem_of_In, in_concat. exists (do_persist y).
  rewrite <- !list_elem_of_In. split; [|done]. apply list_elem_of_fmap. eauto.
Qed.

Lemma bwb_push_spec n k s x c tid :
  bwb_ok n k s → 0 < k → (tid < n)%nat → x ≠ 0 →
  ∃ l s', bwb_push x c tid s = Ret (l, s') ∧ bwb_ok n (k - 1) s' ∧
    x ∈ pending s' (win c) tid ∧ kept s s' l.
Proof.
  intros Hok Hk Ht Hx. unfold bwb_push.
  destruct (fc_push_law n k (bwb_container s) x tid c Hok Hk Ht Hx) as (l & s' & -> & Hok' & Hin & Hy).
  eexists _, _. split_and!; [done..|]. intros w t y Hp.
  destruct (Hy w t y Hp) as [Hl|]; [left|by right]. intros e. by apply in_do_persist_all.
Qed.

Lemma persist_epoch_local_spec n k s c tid :
  bwb_ok n k s → (tid < n)%nat →
  ∃ l s', persist_epoch_local c tid s = Ret (l, s') ∧ bwb_ok n k s' ∧ kept s s' l ∧
    ∀ y e, y ∈ pending s (win c) tid → e ∈ do_persist y → e ∈ l.
Proof.
  intros Hok Ht. unfold persist_epoch_local.
  destruct (fc_pop_all_local_law n k (bwb_container s) tid c Hok Ht) as (l & s' & -> & Hok' & Hl & Hy).
  destruct (do_persist_desc_local c tid (bwb_desc s)) as [ld d].
  eexists _, _. split_and!; [done..| |].
  - intros w t y Hp. destruct (Hy w t y Hp) as [Hin|]; [left|by right].
    intros e He. apply elem_of_app. left. by eapply in_do_persist_all.
  - intros y e Hp He. apply elem_of_app. left. eapply in_do_persist_all; [|done]. by apply Hl.
Qed.

Lemma persist_epoch_spec n k s c :
  bwb_ok n k s →
  ∃ l s', persist_epoch c s = Ret (l, s') ∧ bwb_ok n k s' ∧ kept s s' l ∧
    ∀ t y e, y ∈ pending s (win c) t → e ∈ do_persist y → e ∈ l.
Proof.
  intros Hok. unfold persist_epoch.
  destruct (fc_pop_all_law n k (bwb_container s) c Hok) as (l & s' & -> & Hok' & Hl & Hy).
  destruct (do_persist_descs c _ (bwb_desc s)) as [ld d].
  eexists _, _. split_and!; [done..| |].
  - intros w t y Hp. destruct (Hy w t y Hp) as [Hin|]; [left|by right].
    intros e He. apply elem_of_app. left. by eapply in_do_persist_all.
  - intros t y e Hp He. apply elem_of_app. left. eapply in_do_persist_all; [|done]. by eapply Hl.
Qed.

Lemma bwb_run_op_spec n k s o :
  bwb_ok n k s → 0 < k → op_ok n o →
  ∃ l s', bwb_run_op o s = Ret (l, s') ∧ bwb_ok n (k - 1) s' ∧ kept s s' l.
Proof.
  intros Hok Hk Ho.
  assert (∀ s', bwb_ok n k s' → bwb_ok n (k - 1) s') as Hmono.
  { intros s' H. eapply fc_ok_mono; [|done]. lia. }
  destruct o as [blk c tid|blk c tid|c|c tid|addr tid|c tid]; simpl in *.
  - destruct Ho as (Hb & Hc & Ht). unfold register_persist.
    destruct (Z.eqb_spec blk 0); [lia|]. destruct (Z.eqb_spec c NULL_EPOCH); [done|].
    destruct (bwb_push_spec n k s blk c tid) as (l & s' & ? & ? & ? & ?); eauto.
  - destruct Ho as (Hb & Hc & Ht). unfold register_persist_raw.
    destruct (Z.eqb_spec blk 0); [lia|]. destruct (Z.eqb_spec c NULL_EPOCH); [done|].
    destruct (bwb_push_spec n k s (mark_raw blk) c tid) as (l & s' & ? & ? & ? & ?);
      eauto using mark_raw_nonzero.
  - destruct (persist_epoch_spec n k s c Hok) as (l & s' & ? & ? & ? & ?). eauto 10.
  - destruct (persist_epoch_local_spec n k s c tid Hok Ho) as (l & s' & ? & ? & ? & ?). eauto 10.
  - unfold init_desc_local. destruct (Z.eqb_spec addr 0); [done|].
    eexists _, _. split_and!; [done|by apply Hmono|]. intros w t y Hy. by right.
  - eexists _, _. split_and!; [done|by apply Hmono|]. intros w t y Hy. by right.
Qed.

Lemma bwb_run_spec n k s ops :
  bwb_ok n k s → Z.of_nat (length ops) ≤ k → Forall (op_ok n) ops →
  ∃ l s', bwb_run ops s = Ret (l, s') ∧ bwb_ok n (k - Z.of_nat (length ops)) s' ∧ kept s s' l.
Proof.
  intros Hok Hk Ho. revert k s Hok Hk. induction Ho as [|o ops Ho _ IH]; intros k s Hok Hk; simpl.
  - eexists _, _. rewrite Z.sub_0_r. split_and!; [done..|]. intros w t y Hy. by right.
  - simpl in Hk. destruct (bwb_run_op_spec n k s o) as (l & s1 & -> & Hok1 & Hkept1); [done|lia|done|].
    destruct (IH (k - 1) s1) as (l' & s2 & -> & Hok2 & Hkept2); [done|lia|].
    eexists _, _. split_and!; [done| |].
    + by replace (k - Z.of_nat (S (length ops))) with (k - 1 - Z.of_nat (length ops)) by lia.
    + intros w t y Hy. destruct (Hkept1 w t y Hy) as [He|Hy1].
      { left. intros e H. apply elem_of_app. left. by apply He. }
      destruct (Hkept2 w t y Hy1) as [He|]; [left|by right].
      intros e H. apply elem_of_app. right. by apply He.
Qed.

Lemma bwb_run_app ops1 ops2 s :
  bwb_run (ops1 ++ ops2) s =
  match bwb_run ops1 s with
  | Ret (l, s') => match bwb_run ops2 s' with
                   | Ret (l', s'') => Ret (l ++ l', s'')
                   | Throw e => Throw e
                   end
  | Throw e => Throw e
  end.
Proof.
  revert s. induction ops1 as [|o ops1 IH]; intros s; simpl.
  { by destruct (bwb_run ops2 s) as [[??]|]. }
  destruct (bwb_run_op o s) as [[l s1]|]; [|done]. rewrite IH.
  destruct (bwb_run ops1 s1) as [[l1 s2]|]; [|done].
  destruct (bwb_run ops2 s2) as [[l2 s3]|]; [|done]. by rewrite app_assoc.
Qed.
End tbp.

(** C22. Write-back completeness of [BufferedWB], for every container that
    meets the FixedContainer interface: after [register_persist(x, c)] by
    thread [tid], whatever registrations and write-backs (of any epoch, by any
    thread) come in between, once [persist_epoch_local(c, tid)] has run every
    byte of the block has been written back since its registration. *)
Theorem bwb_registered_block_written_back
    {C} `{!FixedContainer C, !FixedContainerLaws C}
    (malloc_size : Z → Z) (n : nat) (k : Z) (s : bwb) (x c : Z) (tid : nat)
    (mid : list bwb_op) (a : Z) :
  bwb_ok n k s → Z.of_nat (length mid) + 2 ≤ k →
  0 < x → is_raw x = false → 0 ≤ malloc_size x → c ≠ NULL_EPOCH → (tid < n)%nat →
  Forall (op_ok n) mid →
  x ≤ a < x + malloc_size x →
  ∃ l s', bwb_run malloc_size
      (RegisterPersist x c tid :: mid ++ [PersistEpochLocal c tid]) s = Ret (l, s') ∧
    bwb_ok n (k - Z.of_nat (length mid) - 2) s' ∧ written_back l a.
Proof.
  intros Hok Hk Hx Hraw Hsz Hc Ht Hmid Ha. simpl. unfold register_persist.
  destruct (Z.eqb_spec x 0); [lia|]. destruct (Z.eqb_spec c NULL_EPOCH); [done|].
  destruct (bwb_push_spec malloc_size n k s x c tid) as (l1 & s1 & -> & Hok1 & Hin & _);
    [done|lia|done|done|].
  destruct (bwb_run_spec malloc_size n (k - 1) s1 mid) as (l2 & s2 & Hr2 & Hok2 & Hkept);
    [done|lia|done|].
  destruct (persist_epoch_local_spec malloc_size n _ s2 c tid Hok2 Ht)
    as (l3 & s3 & Hr3 & Hok3 & _ & Hl3).
  rewrite bwb_run_app, Hr2. simpl. rewrite Hr3.
  eexists _, _. split_and!; [done| |].
  { eapply fc_ok_mono; [|done]. lia. }
  destruct (clwb_range_covers x (malloc_size x) a) as (p & Hp & Hline); [lia..|].
  exists p. split; [|done].
  assert (Clwb p ∈ do_persist malloc_size x) as Hd by (unfold do_persist; by rewrite Hraw).
  rewrite !elem_of_app. destruct (Hkept _ _ _ Hin) as [He|Hin2]; [by eauto|].
  do 2 right. left. by eapply Hl3.
Qed.

Import FixedCircBufferContainer.

Lemma bwb_registered_block_written_back_witness :
  ∃ l s', bwb_run (λ _, 256)
      (RegisterPersist 4096 5 1 :: [RegisterPersist 8192 5 1; RegisterPersistRaw 64 6 0] ++
        [PersistEpochLocal 5 1])
      (Bwb 2 (desc_new 2) (FixedCircBufferContainer.fcc_new 2 1)) = Ret (l, s') ∧
    bwb_ok 2 (1000 - 2 - 2) s' ∧ written_back l 4300.
Proof.
  apply (bwb_registered_block_written_back (λ _, 256) 2 1000
    (Bwb 2 (desc_new 2) (FixedCircBufferContainer.fcc_new 2 1)) 4096 5 1
    [RegisterPersist 8192 5 1; RegisterPersistRaw 64 6 0] 4300); try done; try lia.
  - apply FixedCircBufferContainer.fcc_new_ok; done.
  - repeat constructor; simpl; done || lia.
Defined.
