(* ===== verification/TransTrackers.v ===== *)
(** * Transaction trackers (src/persist/TransactionTrackers.hpp, .cpp)

    A tracker records which thread is inside an operation of which epoch, so
    that the epoch advancer can wait for the operations of the previous epoch.
    The class [Tracker] is what the epoch protocol uses of a tracker (the single
    memory accesses of [consistent_register_active], [unregister_active] and
    [no_active]), [TrackerLaws] is what it relies on; the three trackers of the
    program are instances.  [Module EpochProtocol] is the protocol itself:
    threads that begin and end operations and any number of epoch advancers,
    interleaved access by access. *)

From S2P Require Import Prelude.

(** ** The interface *)

Class Tracker (T : Type) : Type := {
  (** the store (or increment) that announces thread [t] in epoch [e] *)
  tt_set : nat → Z → T → T;
  (** the store (or decrement) that withdraws it *)
  tt_unset : nat → Z → T → T;
  (** number of loads made by [no_active], for [n] threads *)
  tt_slots : nat → nat;
  (** the [i]-th load of [no_active(target)] shows no activity *)
  tt_quiet : T → nat → Z → bool;
}.

Class TrackerLaws (T : Type) `{!Tracker T} : Type := {
  (** [tt_rep n s r]: with [n] threads, [s] records exactly the registrations [r] *)
  tt_rep : nat → T → (nat → option Z) → Prop;
  tt_slot_of : nat → nat;
  tt_rep_ext n s r r' : (∀ t, r t = r' t) → tt_rep n s r → tt_rep n s r';
  tt_rep_set n s r t e :
    tt_rep n s r → (t < n)%nat → r t = None → e ≠ NULL_EPOCH →
    tt_rep n (tt_set t e s) (<[t := Some e]> r);
  tt_rep_unset n s r t e :
    tt_rep n s r → (t < n)%nat → r t = Some e → tt_rep n (tt_unset t e s) (<[t := None]> r);
  tt_rep_busy n s r t e :
    tt_rep n s r → r t = Some e →
    (tt_slot_of t < tt_slots n)%nat ∧ tt_quiet s (tt_slot_of t) e = false;
  tt_rep_idle n s r i e :
    tt_rep n s r → (∀ t, r t = None) → (i < tt_slots n)%nat → tt_quiet s i e = true;
}.

(** The methods, common to all trackers: announce, then look at the global
    epoch; withdraw when it has moved. *)
Definition consistent_register {T} `{!Tracker T} (tid : nat) (target c global_epoch : Z) (s : T)
    : bool * T :=
  let s1 := tt_set tid target s in
  if c =? global_epoch then (true, s1) else (false, tt_unset tid target s1).

Definition no_active_scan {T} `{!Tracker T} (n : nat) (target : Z) (s : T) : bool :=
  forallb (λ i, tt_quiet s i target) (seq 0 (tt_slots n)).

(** ** PerEpochTransactionTracker (TransTracker=CurrEpoch, the default) *)
Module PerEpochTransactionTracker.

Definition pe_new (task_num : nat) : list Z := replicate task_num NULL_EPOCH.

Definition consistent_set (tid : nat) (target c global_epoch : Z) (curr_epochs : list Z)
    : bool * list Z :=
  let s1 := <[tid := target]> curr_epochs in
  if c =? global_epoch then (true, s1) else (false, <[tid := NULL_EPOCH]> s1).

Definition pe_consistent_register_active := consistent_set.
Definition pe_consistent_register_bookkeeping := consistent_set.
Definition pe_unregister_active (tid : nat) (curr_epochs : list Z) : list Z :=
  <[tid := NULL_EPOCH]> curr_epochs.
Definition pe_unregister_bookkeeping := pe_unregister_active.

(** [for (i = 0; i < task_num; i++) if (target == curr && curr != NULL_EPOCH) return false;] *)
Fixpoint pe_no_active (target : Z) (curr_epochs : list Z) : bool :=
  match curr_epochs with
  | [] => true
  | curr_epoch :: rest =>
      if (target =? curr_epoch) && negb (curr_epoch =? NULL_EPOCH) then false
      else pe_no_active target rest
  end.
Definition pe_no_bookkeeping := pe_no_active.

Definition pe_finalize (curr_epochs : list Z) : list Z := (λ _, NULL_EPOCH) <$> curr_epochs.

#[export] Instance pe_tracker : Tracker (list Z) := {|
  tt_set := λ t e s, <[t := e]> s;
  tt_unset := λ t _ s, <[t := NULL_EPOCH]> s;
  tt_slots := λ n, n;
  tt_quiet := λ s i target,
    let curr_epoch := s !!! i in negb ((target =? curr_epoch) && negb (curr_epoch =? NULL_EPOCH));
|}.

Definition pe_rep (n : nat) (s : list Z) (r : nat → option Z) : Prop :=
  length s = n ∧ (∀ t, (n ≤ t)%nat → r t = None) ∧
  ∀ t e, s !! t = Some e → match r t with Some e' => e = e' ∧ e ≠ NULL_EPOCH | None => e = NULL_EPOCH end.

#[export, program] Instance pe_laws : TrackerLaws (list Z) := {|
  tt_rep := pe_rep;
  tt_slot_of := λ t, t;
|}.
Next Obligation.
  intros n s r r' He (Hl & Hout & Hr). split_and!; [done| |].
  - intros t. rewrite <- He. apply Hout.
  - intros t e. rewrite <- He. apply Hr.
Qed.
Next Obligation.
  intros n s r t e (Hl & Hout & Hr) Ht Hn He. simpl. split_and!.
  - by rewrite length_insert.
  - intros t' Ht'. rewrite fn_lookup_insert_ne by lia. by apply Hout.
  - intros t' e'. destruct (decide (t = t')) as [<-|Hne].
    + rewrite list_lookup_insert_eq by lia. rewrite fn_lookup_insert. by intros [= <-].
    + rewrite list_lookup_insert_ne, fn_lookup_insert_ne by done. apply Hr.
Qed.
Next Obligation.
  intros n s r t e (Hl & Hout & Hr) Ht Hn. simpl. split_and!.
  - by rewrite length_insert.
  - intros t' Ht'. rewrite fn_lookup_insert_ne by lia. by apply Hout.
  - intros t' e'. destruct (decide (t = t')) as [<-|Hne].
    + rewrite list_lookup_insert_eq by lia. rewrite fn_lookup_insert. by intros [= <-].
    + rewrite list_lookup_insert_ne, fn_lookup_insert_ne by done. apply Hr.
Qed.
Next Obligation.
  intros n s r t e (Hl & Hout & Hr) Ht. simpl.
  assert (t < n)%nat as Hlt by (destruct (decide (t < n)%nat); [done|]; rewrite Hout in Ht; done || lia).
  split; [done|]. destruct (lookup_lt_is_Some_2 s t) as [e' He']; [lia|].
  rewrite (list_lookup_total_correct _ _ _ He'). specialize (Hr t e' He'). rewrite Ht in Hr.
  destruct Hr as [-> Hn]. rewrite Z.eqb_refl. destruct (Z.eqb_spec e NULL_EPOCH); done.
Qed.
Next Obligation.
  intros n s r i e (Hl & Hout & Hr) Hidle Hi. simpl in *.
  destruct (lookup_lt_is_Some_2 s i) as [e' He']; [lia|].
  rewrite (list_lookup_total_correct _ _ _ He'). specialize (Hr i e' He'). rewrite Hidle in Hr.
  subst. by rewrite andb_false_r.
Qed.

Lemma pe_no_active_scan target s : pe_no_active target s = no_active_scan (length s) target s.
Proof.
  unfold no_active_scan. simpl.
  enough (∀ k (pre : list Z), length pre = k → pe_no_active target s =
    forallb (λ i, negb ((target =? (pre ++ s) !!! i) && negb ((pre ++ s) !!! i =? NULL_EPOCH)))
      (seq k (length s))) as H by by apply (H 0%nat []).
  induction s as [|e s IH]; intros k pre Hk; simpl; [done|].
  assert ((pre ++ e :: s) !!! k = e) as ->.
  { apply list_lookup_total_correct. rewrite lookup_app_r by lia. by rewrite Hk, Nat.sub_diag. }
  destruct (_ && _); simpl; [done|].
  rewrite (IH (S k) (pre ++ [e])) by (rewrite length_app; simpl; lia).
  by rewrite <- app_assoc.
Qed.

End PerEpochTransactionTracker.

(** ** NoFenceTransactionTracker, FenceBegin-, FenceEndTransactionTracker

    The three differ in memory orderings only. *)
Module NoFenceTransactionTracker.

Definition nf_new (task_num : nat) : table bool := tab_new task_num false.

Definition set_register (tid : nat) (target : Z) (s : table bool) : table bool :=
  tab_set s (win target) tid true.
Definition set_unregister (tid : nat) (target : Z) (s : table bool) : table bool :=
  tab_set s (win target) tid false.

Definition nf_consistent_register (tid : nat) (target c global_epoch : Z) (s : table bool)
    : bool * table bool :=
  let s1 := set_register tid target s in
  if c =? global_epoch then (true, s1) else (false, set_unregister tid target s1).

Definition all_false (indicators : list bool) : bool := forallb negb indicators.
Definition nf_no_active (target : Z) (s : table bool) : bool :=
  all_false (default [] (s !! win target)).

#[export] Instance nf_tracker : Tracker (table bool) := {|
  tt_set := set_register;
  tt_unset := set_unregister;
  tt_slots := λ n, n;
  tt_quiet := λ s i target, negb (default false (tab_get s (win target) i));
|}.

(** The registration is for an epoch of window [w]. *)
Definition in_win (o : option Z) (w : nat) : bool :=
  match o with Some e => Nat.eqb (win e) w | None => false end.

Definition nf_rep (n : nat) (s : table bool) (r : nat → option Z) : Prop :=
  tab_dims n s ∧ (∀ t, (n ≤ t)%nat → r t = None) ∧
  ∀ w t b, tab_get s w t = Some b → b = in_win (r t) w.

Lemma nf_rep_upd n s r t e b o :
  nf_rep n s r → (t < n)%nat →
  (∀ w, w ≠ win e → in_win (r t) w = in_win o w) → b = in_win o (win e) →
  nf_rep n (tab_set s (win e) t b) (<[t := o]> r).
Proof.
  intros (Hd & Hout & Hr) Ht Hw Hb. split_and!; [by apply tab_dims_set| |].
  - intros t' Ht'. rewrite fn_lookup_insert_ne by lia. by apply Hout.
  - intros w t' b'. destruct (tab_dims_get n s (win e) t Hd (win_lt e) Ht) as [x Hx].
    destruct (decide ((win e, t) = (w, t'))) as [[= <- <-]|Hne].
    + rewrite (tab_get_set_eq _ _ _ _ _ Hx), fn_lookup_insert. by intros [= <-].
    + rewrite tab_get_set_ne by done. intros Hg. rewrite (Hr _ _ _ Hg).
      destruct (decide (t = t')) as [<-|Htt].
      * rewrite fn_lookup_insert. apply Hw. congruence.
      * by rewrite fn_lookup_insert_ne.
Qed.

Lemma in_win_ne e w : w ≠ win e → in_win (Some e) w = false.
Proof. intros. simpl. apply Nat.eqb_neq. done. Qed.

#[export, program] Instance nf_laws : TrackerLaws (table bool) := {|
  tt_rep := nf_rep;
  tt_slot_of := λ t, t;
|}.
Next Obligation.
  intros n s r r' He (Hl & Hout & Hr). split_and!; [done| |].
  - intros t. rewrite <- He. apply Hout.
  - intros w t e. rewrite <- He. apply Hr.
Qed.
Next Obligation.
  intros n s r t e Hrep Ht Hn He. apply nf_rep_upd; [done..| |].
  - intros w Hw. by rewrite Hn, in_win_ne.
  - simpl. by rewrite Nat.eqb_refl.
Qed.
Next Obligation.
  intros n s r t e Hrep Ht Hn. apply nf_rep_upd; [done..| |done].
  intros w Hw. by rewrite Hn, in_win_ne.
Qed.
Next Obligation.
  intros n s r t e (Hd & Hout & Hr) Ht. simpl.
  assert (t < n)%nat as Hlt by (destruct (decide (t < n)%nat); [done|]; rewrite Hout in Ht; done || lia).
  split; [done|]. destruct (tab_dims_get n s (win e) t Hd (win_lt e) Hlt) as [b Hb].
  rewrite Hb. simpl. rewrite (Hr _ _ _ Hb), Ht. simpl. by rewrite Nat.eqb_refl.
Qed.
Next Obligation.
  intros n s r i e (Hd & Hout & Hr) Hidle Hi. simpl in *.
  destruct (tab_dims_get n s (win e) i Hd (win_lt e) Hi) as [b Hb].
  rewrite Hb. simpl. by rewrite (Hr _ _ _ Hb), Hidle.
Qed.

End NoFenceTransactionTracker.

(** ** AtomicTransactionTracker *)
Module AtomicTransactionTracker.
Import NoFenceTransactionTracker.

(** [active_transactions[EPOCH_WINDOW]]; the bookkeeping counters have the same
    operations. *)
Definition at_new : list Z := replicate (Z.to_nat EPOCH_WINDOW) 0.

Definition fetch_add (w : nat) (d : Z) (s : list Z) : list Z := alter (λ x, x +₆ d) w s.

Definition consistent_increment (w : nat) (c global_epoch : Z) (s : list Z) : bool * list Z :=
  let s1 := fetch_add w 1 s in
  if c =? global_epoch then (true, s1) else (false, fetch_add w (-1) s1).

Definition at_consistent_register_active (target c global_epoch : Z) (s : list Z) : bool * list Z :=
  consistent_increment (win target) c global_epoch s.
Definition at_unregister_active (target : Z) (s : list Z) : list Z :=
  fetch_add (win target) (-1) s.
Definition at_no_active (target : Z) (s : list Z) : bool := (s !!! win target) =? 0.

(** A counter is a list in the model, like the array of the per-epoch tracker:
    a record keeps the two instances apart. *)
Record atomic_tracker : Type := AT { at_counters : list Z }.

#[export] Instance at_tracker : Tracker atomic_tracker := {|
  tt_set := λ _ e s, AT (fetch_add (win e) 1 (at_counters s));
  tt_unset := λ _ e s, AT (at_unregister_active e (at_counters s));
  tt_slots := λ _, 1%nat;
  tt_quiet := λ s _ target, at_no_active target (at_counters s);
|}.

(** The number of threads registered in window [w], among the first [n]. *)
Fixpoint registered (n : nat) (r : nat → option Z) (w : nat) : Z :=
  match n with
  | O => 0
  | S n' => registered n' r w + (if in_win (r n') w then 1 else 0)
  end.

Lemma registered_bound n r w : 0 ≤ registered n r w ≤ Z.of_nat n.
Proof. induction n as [|n IH]; simpl; [lia|]. destruct (in_win _ _); lia. Qed.

Lemma registered_insert_ge n r t o w : (n ≤ t)%nat → registered n (<[t := o]> r) w = registered n r w.
Proof.
  induction n as [|n IH]; intros Ht; simpl; [done|]. rewrite IH by lia.
  by rewrite fn_lookup_insert_ne by lia.
Qed.

Lemma registered_insert n r t o w :
  (t < n)%nat →
  registered n (<[t := o]> r) w =
  registered n r w + (if in_win o w then 1 else 0) - (if in_win (r t) w then 1 else 0).
Proof.
  induction n as [|n IH]; intros Ht; [lia|]. simpl. destruct (decide (t = n)) as [->|Hne].
  - rewrite registered_insert_ge, fn_lookup_insert by lia. destruct (in_win o w), (in_win (r n) w); lia.
  - rewrite IH, fn_lookup_insert_ne by lia.
    destruct (in_win (r n) w), (in_win o w), (in_win (r t) w); lia.
Qed.

Lemma registered_pos n r t w : (t < n)%nat → in_win (r t) w = true → 0 < registered n r w.
Proof.
  induction n as [|n IH]; intros Ht Hw; [lia|]. simpl. pose proof (registered_bound n r w).
  destruct (decide (t = n)) as [->|Hne]; [rewrite Hw; lia|].
  specialize (IH ltac:(lia) Hw). destruct (in_win (r n) w); lia.
Qed.

Lemma registered_none n r w : (∀ t, r t = None) → registered n r w = 0.
Proof. intros H. induction n as [|n IH]; simpl; [done|]. by rewrite IH, H. Qed.

Lemma registered_ext n r r' w : (∀ t, r t = r' t) → registered n r w = registered n r' w.
Proof. intros He. induction n as [|n IH]; simpl; [done|]. by rewrite IH, He. Qed.

Definition at_rep (n : nat) (s : atomic_tracker) (r : nat → option Z) : Prop :=
  Z.of_nat n < U64 ∧ length (at_counters s) = 4%nat ∧ (∀ t, (n ≤ t)%nat → r t = None) ∧
  ∀ w x, at_counters s !! w = Some x → x = registered n r w.

Lemma at_rep_upd n s r t e o d :
  at_rep n s r → (t < n)%nat →
  (∀ w, (if in_win o w then 1 else 0) - (if in_win (r t) w then 1 else 0) =
        if decide (w = win e) then d else 0) →
  at_rep n (AT (fetch_add (win e) d (at_counters s))) (<[t := o]> r).
Proof.
  intros (Hn & Hl & Hout & Hr) Ht Hd. unfold fetch_add. split_and!; simpl; [done| | |].
  - by rewrite length_alter.
  - intros t' Ht'. rewrite fn_lookup_insert_ne by lia. by apply Hout.
  - intros w x. rewrite list_lookup_alter, registered_insert by done.
    rewrite <- Z.add_sub_assoc, Hd.
    pose proof (registered_bound n (<[t := o]> r) w) as Hb.
    rewrite registered_insert, <- Z.add_sub_assoc, Hd in Hb by done.
    destruct (decide (w = win e)) as [->|Hw].
    + rewrite decide_True by done. destruct (at_counters s !! win e) as [y|] eqn:Hy; [|done].
      simpl. intros [= <-]. rewrite (Hr _ _ Hy). apply u64_small. split; lia.
    + rewrite decide_False by done. intros Hx. rewrite (Hr _ _ Hx). lia.
Qed.

#[export, program] Instance at_laws : TrackerLaws atomic_tracker := {|
  tt_rep := at_rep;
  tt_slot_of := λ _, 0%nat;
|}.
Next Obligation.
  intros n s r r' He (Hn & Hl & Hout & Hr). split_and!; [done..| |].
  - intros t. rewrite <- He. apply Hout.
  - intros w x Hx. rewrite (Hr _ _ Hx). apply registered_ext, He.
Qed.
Next Obligation.
  intros n s r t e Hrep Ht Hn He. apply at_rep_upd; [done..|]. intros w. rewrite Hn. simpl.
  case_decide as Hw; [subst; by rewrite Nat.eqb_refl|]. by destruct (Nat.eqb_spec (win e) w).
Qed.
Next Obligation.
  intros n s r t e Hrep Ht Hn. apply at_rep_upd; [done..|]. intros w. rewrite Hn. simpl.
  case_decide as Hw; [subst; by rewrite Nat.eqb_refl|]. by destruct (Nat.eqb_spec (win e) w).
Qed.
Next Obligation.
  intros n s r t e (Hn & Hl & Hout & Hr) Ht. split; [simpl; lia|]. simpl. unfold at_no_active.
  assert (t < n)%nat as Hlt by (destruct (decide (t < n)%nat); [done|]; rewrite Hout in Ht; done || lia).
  destruct (lookup_lt_is_Some_2 (at_counters s) (win e)) as [x Hx]; [rewrite Hl; apply win_lt|].
  rewrite (list_lookup_total_correct _ _ _ Hx), (Hr _ _ Hx).
  pose proof (registered_pos n r t (win e) Hlt) as Hp. rewrite Ht in Hp. simpl in Hp.
  rewrite Nat.eqb_refl in Hp. apply Z.eqb_neq. specialize (Hp eq_refl). lia.
Qed.
Next Obligation.
  intros n s r i e (Hn & Hl & Hout & Hr) Hidle Hi. simpl. unfold at_no_active.
  destruct (lookup_lt_is_Some_2 (at_counters s) (win e)) as [x Hx]; [rewrite Hl; apply win_lt|].
  rewrite (list_lookup_total_correct _ _ _ Hx), (Hr _ _ Hx). by rewrite registered_none.
Qed.

End AtomicTransactionTracker.

(** ** The epoch protocol

    Worker threads run [begin_transaction] (load the global epoch, announce it,
    look again, retry if it moved) and [end_transaction]; advancers (the
    dedicated thread and every caller of [sync]) run [on_epoch_end(c)] (wait for
    [no_active(c-1)], one load at a time) followed by the compare-and-swap of
    the global epoch from [c] to [c+1], with [c] a value the epoch has had. *)
Module EpochProtocol.
Section protocol.
Context {T : Type} `{!Tracker T, !TrackerLaws T} (n : nat).

Inductive wpc : Type :=
  | WIdle
  | WLoaded (ret : Z)
  | WSet (ret : Z)
  | WActive (c : Z).

Inductive apc : Type :=
  | AIdle
  | AScan (c : Z) (i : nat)
  | APersist (c : Z).

Record pst : Type := Pst {
  global_epoch : Z;
  tracker : T;
  workers : nat → wpc;
  advancers : nat → apc;
}.

Definition wreg (pc : wpc) : option Z :=
  match pc with WSet e | WActive e => Some e | _ => None end.

Inductive pstep : pst → pst → Prop :=
  | begin_load g k w a t :
      (t < n)%nat → w t = WIdle →
      pstep (Pst g k w a) (Pst g k (<[t := WLoaded g]> w) a)
  | begin_set g k w a t e :
      w t = WLoaded e →
      pstep (Pst g k w a) (Pst g (tt_set t e k) (<[t := WSet e]> w) a)
  | begin_ok g k w a t e :
      w t = WSet e → e = g →
      pstep (Pst g k w a) (Pst g k (<[t := WActive e]> w) a)
  | begin_retry g k w a t e :
      w t = WSet e → e ≠ g →
      pstep (Pst g k w a) (Pst g (tt_unset t e k) (<[t := WIdle]> w) a)
  | end_transaction g k w a t e :
      w t = WActive e →
      pstep (Pst g k w a) (Pst g (tt_unset t e k) (<[t := WIdle]> w) a)
  | advance_start g k w a i c :
      a i = AIdle → c ≤ g →
      pstep (Pst g k w a) (Pst g k w (<[i := AScan c 0]> a))
  | advance_scan g k w a i c j :
      a i = AScan c j → (j < tt_slots n)%nat → tt_quiet k j (c - 1) = true →
      pstep (Pst g k w a) (Pst g k w (<[i := AScan c (S j)]> a))
  | advance_rescan g k w a i c j :
      a i = AScan c j → (j < tt_slots n)%nat → tt_quiet k j (c - 1) = false →
      pstep (Pst g k w a) (Pst g k w (<[i := AScan c 0]> a))
  | advance_scanned g k w a i c j :
      a i = AScan c j → (tt_slots n ≤ j)%nat →
      pstep (Pst g k w a) (Pst g k w (<[i := APersist c]> a))
  | advance_cas g k w a i c :
      a i = APersist c →
      pstep (Pst g k w a) (Pst (if decide (g = c) then c + 1 else g) k w (<[i := AIdle]> a)).

Definition adv_ok (s : pst) (pc : apc) : Prop :=
  match pc with
  | AIdle => True
  | AScan c j => c ≤ global_epoch s ∧
      (global_epoch s = c → ∀ t, workers s t = WActive (c - 1) → (j ≤ tt_slot_of t)%nat)
  | APersist c => c ≤ global_epoch s ∧
      (global_epoch s = c → ∀ t, workers s t ≠ WActive (c - 1))
  end.

Definition worker_ok (g : Z) (pc : wpc) : Prop :=
  match pc with
  | WIdle => True
  | WLoaded e | WSet e => INIT_EPOCH ≤ e ≤ g
  | WActive e => INIT_EPOCH ≤ e ≤ g ∧ g - 1 ≤ e
  end.

Record pinv (s : pst) : Prop := {
  pinv_epoch : INIT_EPOCH ≤ global_epoch s;
  pinv_out : ∀ t, (n ≤ t)%nat → workers s t = WIdle;
  pinv_rep : tt_rep n (tracker s) (wreg ∘ workers s);
  pinv_workers : ∀ t, worker_ok (global_epoch s) (workers s t);
  pinv_adv : ∀ i, adv_ok s (advancers s i);
}.

Lemma wreg_insert (w : nat → wpc) t pc t' :
  <[t := wreg pc]> (wreg ∘ w) t' = (wreg ∘ <[t := pc]> w) t'.
Proof.
  unfold compose. destruct (decide (t = t')) as [<-|Hne].
  - by rewrite !fn_lookup_insert.
  - by rewrite !fn_lookup_insert_ne.
Qed.

Lemma workers_insert g (w : nat → wpc) t pc :
  (∀ t', worker_ok g (w t')) → worker_ok g pc → ∀ t', worker_ok g (<[t := pc]> w t').
Proof.
  intros Hw Hpc t'. destruct (decide (t = t')) as [<-|Hne].
  - by rewrite fn_lookup_insert.
  - by rewrite fn_lookup_insert_ne.
Qed.

(** A step of a worker that does not make it active in an old epoch. *)
Lemma pinv_worker g k k' w a t pc :
  pinv (Pst g k w a) → (t < n)%nat → worker_ok g pc →
  (∀ e, pc = WActive e → e = g) →
  tt_rep n k' (<[t := wreg pc]> (wreg ∘ w)) → pinv (Pst g k' (<[t := pc]> w) a).
Proof.
  intros [He Ho Hr Hw Ha] Ht Hpc Hact Hr'. constructor; simpl in *; [done| | | |].
  - intros t' Ht'. rewrite fn_lookup_insert_ne by lia. by apply Ho.
  - eapply tt_rep_ext, Hr'. intros t'. apply wreg_insert.
  - by apply workers_insert.
  - intros i. specialize (Ha i). destruct (a i) as [|c j|c]; simpl in *; [done| |];
      (destruct Ha as [Hc Ha]; split; [done|]; intros Hg t');
      (destruct (decide (t = t')) as [<-|Hne];
        [rewrite fn_lookup_insert; intros ->; specialize (Hact _ eq_refl); lia
        |rewrite fn_lookup_insert_ne by done; by apply Ha]).
Qed.

(** A step of an advancer that leaves the global epoch alone. *)
Lemma pinv_advancer g k w a i pc :
  pinv (Pst g k w a) → adv_ok (Pst g k w a) pc → pinv (Pst g k w (<[i := pc]> a)).
Proof.
  intros [He Ho Hr Hw Ha] Hpc. constructor; simpl in *; try done.
  intros i'. destruct (decide (i = i')) as [<-|Hne].
  - rewrite fn_lookup_insert. by destruct pc.
  - rewrite fn_lookup_insert_ne by done. specialize (Ha i'). by destruct (a i').
Qed.

Lemma pinv_lt s t : pinv s → workers s t ≠ WIdle → (t < n)%nat.
Proof.
  intros Hi Hne. destruct (decide (t < n)%nat); [done|]. destruct Hne. apply (pinv_out _ Hi). lia.
Qed.

Lemma pinv_unset g k w a t e :
  pinv (Pst g k w a) → wreg (w t) = Some e → w t ≠ WIdle →
  pinv (Pst g (tt_unset t e k) (<[t := WIdle]> w) a).
Proof.
  intros Hi Hw Hne. pose proof (pinv_lt _ t Hi Hne) as Ht.
  apply (pinv_worker _ k); try done. simpl. by apply tt_rep_unset; [apply Hi| |].
Qed.

Lemma pinv_cas g k w a i c :
  a i = APersist c → pinv (Pst g k w a) →
  pinv (Pst (if decide (g = c) then c + 1 else g) k w (<[i := AIdle]> a)).
Proof.
  intros Hpc Hi. pose proof (pinv_adv _ Hi i) as Hadv. simpl in Hadv. rewrite Hpc in Hadv.
  destruct (decide (g = c)) as [->|Hne]; [|by apply pinv_advancer].
  destruct Hadv as [_ Hq]. specialize (Hq eq_refl). destruct Hi as [He Ho Hr Hw Ha].
  constructor; simpl in *; [lia|done|done| |].
  - intros t. specialize (Hw t). specialize (Hq t). destruct (w t) as [|e|e|e]; simpl in *; try lia.
    assert (e ≠ c - 1) by congruence. lia.
  - intros i'. destruct (decide (i = i')) as [<-|Hne]; [by rewrite fn_lookup_insert|].
    rewrite fn_lookup_insert_ne by done. specialize (Ha i').
    destruct (a i'); simpl in *; [done| |]; (destruct Ha; split; [lia|]; intros; lia).
Qed.

Lemma pinv_step s s' : pinv s → pstep s s' → pinv s'.
Proof.
  intros Hi Hst. destruct Hst as [g k w a t Ht Hw|g k w a t e Hw|g k w a t e Hw ->|g k w a t e Hw Hg
    |g k w a t e Hw|g k w a i c Ha Hc|g k w a i c j Ha Hj Hq|g k w a i c j Ha Hj Hq
    |g k w a i c j Ha Hj|g k w a i c Ha].
  - pose proof (pinv_epoch _ Hi). pose proof (pinv_rep _ Hi) as Hr. simpl in *.
    apply (pinv_worker _ k); try done.
    eapply tt_rep_ext; [|done]. intros t'. destruct (decide (t = t')) as [<-|Hne].
    + rewrite fn_lookup_insert. unfold compose. by rewrite Hw.
    + by rewrite fn_lookup_insert_ne.
  - pose proof (pinv_workers _ Hi t) as Hok. simpl in Hok. rewrite Hw in Hok. simpl in Hok.
    assert (t < n)%nat by (apply (pinv_lt _ t Hi); simpl; congruence).
    apply (pinv_worker _ k); try done. apply tt_rep_set; [apply Hi|done| |].
    + unfold compose. simpl. by rewrite Hw.
    + unfold INIT_EPOCH, NULL_EPOCH in *. lia.
  - pose proof (pinv_workers _ Hi t) as Hok. simpl in Hok. rewrite Hw in Hok. simpl in Hok.
    assert (t < n)%nat by (apply (pinv_lt _ t Hi); simpl; congruence).
    apply (pinv_worker _ k); try done; [simpl; lia|naive_solver|].
    eapply tt_rep_ext; [|apply Hi]. intros t'. destruct (decide (t = t')) as [<-|Hne].
    + rewrite fn_lookup_insert. unfold compose. simpl. by rewrite Hw.
    + by rewrite fn_lookup_insert_ne.
  - by apply pinv_unset; rewrite ?Hw.
  - by apply pinv_unset; rewrite ?Hw.
  - apply pinv_advancer; [done|]. simpl. split; [done|]. intros. lia.
  - apply pinv_advancer; [done|]. pose proof (pinv_adv _ Hi i) as Had. simpl in *.
    rewrite Ha in Had. destruct Had as [Hc Had]. split; [done|]. intros Hg t Ht.
    specialize (Had Hg t Ht). assert (tt_slot_of t ≠ j); [|lia]. intros <-.
    destruct (tt_rep_busy n k (wreg ∘ w) t (c - 1)) as [_ Hb]; [apply (pinv_rep _ Hi)| |congruence].
    unfold compose. by rewrite Ht.
  - apply pinv_advancer; [done|]. pose proof (pinv_adv _ Hi i) as Had. simpl in *.
    rewrite Ha in Had. destruct Had as [Hc Had]. split; [done|]. intros. lia.
  - apply pinv_advancer; [done|]. pose proof (pinv_adv _ Hi i) as Had. simpl in *.
    rewrite Ha in Had. destruct Had as [Hc Had]. split; [done|]. intros Hg t Ht.
    specialize (Had Hg t Ht).
    destruct (tt_rep_busy n k (wreg ∘ w) t (c - 1)) as [Hb _]; [apply (pinv_rep _ Hi)| |lia].
    unfold compose. by rewrite Ht.
  - by apply pinv_cas.
Qed.

Definition pst_init (k : T) : pst := Pst INIT_EPOCH k (λ _, WIdle) (λ _, AIdle).

Lemma pinv_reachable k s :
  tt_rep n k (λ _, None) → rtc pstep (pst_init k) s → pinv s.
Proof.
  intros Hk. apply rtc_ind_r; [|intros; by eapply pinv_step].
  constructor; simpl; done.
Qed.

End protocol.
Arguments pst : clear implicits.

(** C1. The epoch protocol is safe, for every tracker that meets the tracker
    interface, any number of threads and any number of concurrent advancers:
    in every reachable state an operation in progress belongs to the current
    epoch or to the one before it, and while an advancer that has ended epoch
    [c] is writing back epoch [c-1] no operation of epoch [c-1] is in
    progress, as long as the epoch is still [c]. *)
Theorem active_within_one_epoch {T} `{!Tracker T, !TrackerLaws T} (n : nat) (k : T) (s : pst T) :
  tt_rep n k (λ _, None) → rtc (pstep n) (pst_init k) s →
  (∀ t e, workers s t = WActive e → global_epoch s - 1 ≤ e ≤ global_epoch s) ∧
  (∀ i c t, advancers s i = APersist c → global_epoch s = c → workers s t ≠ WActive (c - 1)).
Proof.
  intros Hk Hr. pose proof (pinv_reachable n k s Hk Hr) as Hi. split.
  - intros t e Ht. pose proof (pinv_workers _ _ Hi t) as Hw. rewrite Ht in Hw. simpl in Hw. lia.
  - intros i c t Ha Hg. pose proof (pinv_adv _ _ Hi i) as Hadv. rewrite Ha in Hadv.
    by apply Hadv.
Qed.

Import PerEpochTransactionTracker.

Lemma active_within_one_epoch_witness :
  ∃ s : pst (list Z), rtc (pstep 2) (pst_init (pe_new 2)) s ∧
    workers s 0%nat = WActive 3 ∧ global_epoch s = 4 ∧
    ((∀ t e, workers s t = WActive e → global_epoch s - 1 ≤ e ≤ global_epoch s) ∧
     (∀ i c t, advancers s i = APersist c → global_epoch s = c → workers s t ≠ WActive (c - 1))).
Proof.
  assert (∃ s : pst (list Z), rtc (pstep 2) (pst_init (pe_new 2)) s ∧
    workers s 0%nat = WActive 3 ∧ global_epoch s = 4) as (s & Hr & Hw & Hg).
  { eexists. split.
    - eapply rtc_l; [by apply (begin_load 2 _ _ _ _ 0); [lia|]|].
      eapply rtc_l; [by apply (begin_set 2 _ _ _ _ 0 3)|].
      eapply rtc_l; [by apply (begin_ok 2 _ _ _ _ 0 3)|].
      eapply rtc_l; [by apply (advance_start 2 _ _ _ _ 0 3)|].
      eapply rtc_l; [apply (advance_scan 2 _ _ _ _ 0 3 0); [done|simpl; lia|done]|].
      eapply rtc_l; [apply (advance_scan 2 _ _ _ _ 0 3 1); [done|simpl; lia|done]|].
      eapply rtc_l; [apply (advance_scanned 2 _ _ _ _ 0 3 2); [done|simpl; lia]|].
      eapply rtc_l; [by apply (advance_cas 2 _ _ _ _ 0 3)|]. apply rtc_refl.
    - split; reflexivity. }
  exists s. split_and!; [done..| |].
  - apply (active_within_one_epoch 2 (pe_new 2) s); [|done].
    split_and!; [done..|]. intros t e He. apply lookup_replicate in He as [-> _]. done.
  - apply (active_within_one_epoch 2 (pe_new 2) s); [|done].
    split_and!; [done..|]. intros t e He. apply lookup_replicate in He as [-> _]. done.
Defined.

End EpochProtocol.
