(* ===== verification/ToBeFreed.v ===== *)
(** * To-be-freed containers (src/persist/ToBeFreedContainers.hpp, .cpp)

    A block removed in epoch [c] may be given back to the allocator only when
    epoch [c] is durable, that is when the epoch has reached [c+2].  Until then
    it waits in one of four lists, selected by [c % EPOCH_WINDOW].
    [ThreadLocalFreedContainer] lets every thread free its own blocks when it
    begins an operation in a new epoch; [PerEpochFreedContainer] leaves it to
    the epoch advancer; [NoToBeFreedContainer] frees at once.

    [do_free(x, c)] is [EpochSys::delete_pblk(x, c)], which does not touch the
    container: an operation returns the list of blocks it frees, in order, each
    with the epoch [delete_pblk] is called with. *)

From S2P Require Import Prelude Containers.
Import VectorContainer.

(** ** Slots of the container *)

Section slots.
Context {T : Type}.
Implicit Type v : table (list T).

Definition slot v (t w : nat) : list T := default [] (tab_get v w t).

(** Everything thread [t] has waiting. *)
Definition waiting v (t : nat) : list T := slot v t 0 ++ slot v t 1 ++ slot v t 2 ++ slot v t 3.

Lemma slot_set_eq n v t w l :
  tab_dims n v → (w < 4)%nat → (t < n)%nat → slot (tab_set v w t l) t w = l.
Proof.
  intros Hd Hw Ht. destruct (tab_dims_get n v w t Hd Hw Ht) as [x Hx].
  unfold slot. by erewrite tab_get_set_eq.
Qed.

Lemma slot_set_ne v t w t' w' l : (w, t) ≠ (w', t') → slot (tab_set v w t l) t' w' = slot v t' w'.
Proof. intros. unfold slot. by rewrite tab_get_set_ne. Qed.

Lemma elem_of_waiting v t x : x ∈ waiting v t ↔ ∃ w, (w < 4)%nat ∧ x ∈ slot v t w.
Proof.
  unfold waiting. rewrite !elem_of_app. split.
  - intros [?|[?|[?|?]]]; eexists; (split; [|done]); lia.
  - intros (w & Hw & Hx). do 4 (destruct w as [|w]; [tauto|]). lia.
Qed.

Lemma waiting_set n v t w l l' :
  tab_dims n v → (w < 4)%nat → (t < n)%nat → slot v t w ++ l ≡ₚ l' →
  waiting v t ++ l ≡ₚ waiting (tab_set v w t l') t.
Proof.
  intros Hd Hw Ht Hp. unfold waiting.
  do 4 (destruct w as [|w];
    [rewrite (slot_set_eq n) by (done || lia); rewrite !slot_set_ne by congruence;
     rewrite <- Hp; solve_Permutation|]). lia.
Qed.

Lemma waiting_pop n v t w :
  tab_dims n v → (w < 4)%nat → (t < n)%nat →
  waiting v t ≡ₚ slot v t w ++ waiting (tab_set v w t []) t.
Proof.
  intros Hd Hw Ht. unfold waiting.
  do 4 (destruct w as [|w];
    [rewrite (slot_set_eq n) by (done || lia); rewrite !slot_set_ne by congruence;
     solve_Permutation|]). lia.
Qed.

Lemma waiting_set_other v t w t' l : t ≠ t' → waiting (tab_set v w t l) t' = waiting v t'.
Proof. intros. unfold waiting. by rewrite !slot_set_ne by congruence. Qed.

Lemma vc_push_slot n v x t c :
  tab_dims n v → (t < n)%nat →
  vc_push x t c v = Ret (tab_set v (win c) t (slot v t (win c) ++ [x])).
Proof.
  intros Hd Ht. destruct (tab_dims_get n v (win c) t Hd (win_lt c) Ht) as [l Hl].
  rewrite (vc_push_spec _ _ _ _ l Hl). unfold slot. by rewrite Hl.
Qed.

Lemma vc_pop_slot n v t c :
  tab_dims n v → (t < n)%nat →
  vc_pop_all_local t c v = Ret (reverse (slot v t (win c)), tab_set v (win c) t []).
Proof.
  intros Hd Ht. destruct (tab_dims_get n v (win c) t Hd (win_lt c) Ht) as [l Hl].
  rewrite (vc_pop_all_local_spec _ _ _ l Hl). unfold slot. by rewrite Hl.
Qed.
End slots.

(** ** ThreadLocalFreedContainer *)
Module ThreadLocalFreedContainer.
Section tl.
Context {T : Type}.

Record tlfc : Type := Tlfc {
  container : table (list T);
  threadEpoch : list Z;
}.

Definition tl_new (task_num : nat) : tlfc :=
  Tlfc (vc_new task_num) (replicate task_num INIT_EPOCH).

Definition tl_register_free (is_null : bool) (blk : T) (c : Z) (tid : nat) (s : tlfc) : outcome tlfc :=
  if is_null then Throw (AssertFail "blk!=nullptr")
  else match vc_push blk tid c (container s) with
       | Ret k => Ret (Tlfc k (threadEpoch s))
       | Throw e => Throw e
       end.

#[local] Arguments tl_register_free : simpl never.

Definition tl_help_free (c : Z) (s : tlfc) : tlfc := s.

Definition tl_help_free_local (c : Z) (tid : nat) (s : tlfc) : outcome (list (T * Z) * tlfc) :=
  match vc_pop_all_local tid c (container s) with
  | Ret (l, k) => Ret ((λ x, (x, c)) <$> l, Tlfc k (threadEpoch s))
  | Throw e => Throw e
  end.

(** [for (uint64_t i = ...; i <= lim; i++) { help_free_local(i); sfence(); }] *)
Fixpoint free_loop (fuel : nat) (i lim : Z) (tid : nat) (s : tlfc) : outcome (list (T * Z) * tlfc) :=
  match fuel with
  | O => Throw (UB "out of fuel")
  | S fuel' =>
      if i <=? lim then
        match tl_help_free_local i tid s with
        | Ret (l, s1) =>
            match free_loop fuel' (i +₆ 1) lim tid s1 with
            | Ret (l', s2) => Ret (l ++ l', s2)
            | Throw e => Throw e
            end
        | Throw e => Throw e
        end
      else Ret ([], s)
  end.

Definition tl_free_on_new_epoch (c : Z) (tid : nat) (s : tlfc) : outcome (list (T * Z) * tlfc) :=
  match threadEpoch s !! tid with
  | None => Throw (UB "threadEpoch[tid]")
  | Some last_epoch =>
      if last_epoch =? c then Ret ([], s)
      else free_loop 4 (last_epoch -₆ 1) (Z.min (last_epoch +₆ 1) (c -₆ 2)) tid
             (Tlfc (container s) (<[tid := c]> (threadEpoch s)))
  end.

Definition tl_clear (s : tlfc) : tlfc := Tlfc (vc_clear (container s)) (threadEpoch s).

(** The calls a thread makes: it begins an operation in epoch [c], it registers
    a block for the epoch [e]. *)
Inductive tl_op : Type :=
  | Begin (c : Z)
  | Free (x : T) (e : Z).

(** A run returns the blocks freed, each with the epoch of the [Begin] that
    freed it. *)
Fixpoint tl_run (ops : list tl_op) (tid : nat) (s : tlfc) : outcome (list (T * Z) * tlfc) :=
  match ops with
  | [] => Ret ([], s)
  | Begin c :: ops' =>
      match tl_free_on_new_epoch c tid s with
      | Ret (l, s1) =>
          match tl_run ops' tid s1 with
          | Ret (l', s2) => Ret (((λ p, (p.1, c)) <$> l) ++ l', s2)
          | Throw e => Throw e
          end
      | Throw e => Throw e
      end
  | Free x e :: ops' =>
      match tl_register_free false x e tid s with
      | Ret s1 => tl_run ops' tid s1
      | Throw err => Throw err
      end
  end.

(** How the epoch system calls the container: a thread's epochs do not
    decrease, and an operation of epoch [c] registers blocks for [c] or [c+1].
    [tag] is the epoch a block is registered for. *)
Fixpoint tl_calls (tag : T → Z) (cur : Z) (ops : list tl_op) : Prop :=
  match ops with
  | [] => True
  | Begin c :: ops' => cur ≤ c ∧ c + 2 < U64 ∧ tl_calls tag c ops'
  | Free x e :: ops' => e = tag x ∧ (e = cur ∨ e = cur + 1) ∧ tl_calls tag cur ops'
  end.

Fixpoint tl_final (cur : Z) (ops : list tl_op) : Z :=
  match ops with
  | [] => cur
  | Begin c :: ops' => tl_final c ops'
  | Free _ _ :: ops' => tl_final cur ops'
  end.

Definition tl_registered (ops : list tl_op) : list T :=
  omap (λ o, match o with Free x _ => Some x | Begin _ => None end) ops.

Section proofs.
Context (tag : T → Z) (n tid : nat) (Htid : (tid < n)%nat).

(** A waiting block sits in the window of its epoch, which is the thread's
    epoch, the one before or the one after. *)
Record tl_inv (cur : Z) (s : tlfc) : Prop := {
  tl_dims : tab_dims n (container s);
  tl_epoch : threadEpoch s !! tid = Some cur;
  tl_cur : INIT_EPOCH ≤ cur ∧ cur + 2 < U64;
  tl_slot : ∀ w x, x ∈ slot (container s) tid w → w = win (tag x);
  tl_tags : ∀ w x, x ∈ slot (container s) tid w → cur - 1 ≤ tag x ≤ cur + 1;
}.

Lemma tl_free_inv cur s x e :
  tl_inv cur s → e = tag x → e = cur ∨ e = cur + 1 →
  ∃ s', tl_register_free false x e tid s = Ret s' ∧ tl_inv cur s' ∧
    waiting (container s) tid ++ [x] ≡ₚ waiting (container s') tid.
Proof.
  intros [Hd He Hc Hs Ht] -> Htag. unfold tl_register_free. rewrite (vc_push_slot n) by done.
  eexists. split; [done|].
  assert (∀ w y, y ∈ slot (tab_set (container s) (win (tag x)) tid
      (slot (container s) tid (win (tag x)) ++ [x])) tid w →
    y ∈ slot (container s) tid w ∨ y = x ∧ w = win (tag x)) as Hsl.
  { intros w y. destruct (decide (w = win (tag x))) as [->|].
    - rewrite (slot_set_eq n) by auto with montage. rewrite elem_of_app, list_elem_of_singleton. naive_solver.
    - rewrite slot_set_ne by congruence. auto. }
  split.
  - constructor; simpl; [auto with montage|done|done| |].
    + intros w y [Hy|[-> ->]]%Hsl; [by apply Hs|done].
    + intros w y [Hy|[-> ->]]%Hsl; [by eapply Ht|lia].
  - apply (waiting_set n); auto with montage.
Qed.

(** The loop frees what waits for the epochs from [i] to [lim]. *)
Lemma free_loop_spec fuel : ∀ i lim s,
  tab_dims n (container s) → 0 ≤ i → lim + 1 < U64 → Z.max 0 (lim - i + 1) < Z.of_nat fuel ≤ 4 →
  ∃ l s', free_loop fuel i lim tid s = Ret (l, s') ∧
    tab_dims n (container s') ∧ threadEpoch s' = threadEpoch s ∧
    waiting (container s) tid ≡ₚ l.*1 ++ waiting (container s') tid ∧
    (∀ x e, (x, e) ∈ l → i ≤ e ≤ lim ∧ x ∈ slot (container s) tid (win e)) ∧
    (∀ w, (∀ e, i ≤ e ≤ lim → w ≠ win e) → slot (container s') tid w = slot (container s) tid w) ∧
    (∀ e, i ≤ e ≤ lim → slot (container s') tid (win e) = []).
Proof.
  induction fuel as [|fuel IH]; intros i lim s Hd Hi Hlim Hf; [lia|]; simpl.
  destruct (Z.leb_spec i lim); [|exists [], s; split_and!; try done; intros; try lia; set_solver].
  unfold tl_help_free_local. rewrite (vc_pop_slot n) by done.
  rewrite u64_small by (unfold is_u64; lia).
  destruct (IH (i + 1) lim (Tlfc (tab_set (container s) (win i) tid []) (threadEpoch s)))
    as (l & s' & -> & Hd' & He & Hp & Hin & Hsl & Hnil); simpl; [auto with montage|lia..|].
  assert (∀ e, i + 1 ≤ e ≤ lim → win i ≠ win e) as Hwin.
  { intros e Hr Heq. apply win_inj in Heq; unfold EPOCH_WINDOW; lia. }
  simpl in *. eexists _, s'. split; [done|]. split_and!; try done.
  - rewrite fmap_app, <- list_fmap_compose, list_fmap_id, <- app_assoc, <- Hp.
    rewrite (reverse_Permutation (slot (container s) tid (win i))).
    apply (waiting_pop n); auto with montage.
  - intros x e. rewrite elem_of_app, list_elem_of_fmap. intros [(y & [= <- <-] & Hy)|Hx].
    + rewrite elem_of_reverse in Hy. split; [lia|done].
    + apply Hin in Hx as [Hr Hx]. rewrite slot_set_ne in Hx; [split; [lia|done]|].
      intros [= Hw]. by eapply Hwin.
  - intros w Hw. rewrite Hsl by (intros; apply Hw; lia).
    apply slot_set_ne. intros [= Heq]. by apply (Hw i); [lia|].
  - intros e He'. destruct (decide (e = i)) as [->|]; [|apply Hnil; lia].
    rewrite Hsl by done. apply (slot_set_eq n); auto with montage.
Qed.

Lemma tl_begin_inv cur s c :
  tl_inv cur s → cur ≤ c → c + 2 < U64 →
  ∃ l s', tl_free_on_new_epoch c tid s = Ret (l, s') ∧ tl_inv c s' ∧
    waiting (container s) tid ≡ₚ l.*1 ++ waiting (container s') tid ∧
    (∀ x e, (x, e) ∈ l → tag x ≤ c - 2).
Proof.
  intros [Hd He [Hc Hm] Hs Ht] Hle Hmax. unfold tl_free_on_new_epoch. rewrite He.
  destruct (Z.eqb_spec cur c) as [->|Hne].
  { exists [], s. split_and!; [done| |done|set_solver]. by constructor. }
  unfold INIT_EPOCH in *. rewrite !u64_small by (unfold is_u64; lia).
  destruct (free_loop_spec 4 (cur - 1) (Z.min (cur + 1) (c - 2))
    (Tlfc (container s) (<[tid := c]> (threadEpoch s))))
    as (l & s' & -> & Hd' & He' & Hp & Hin & Hsl & Hnil); simpl; [done|lia..|].
  simpl in *. exists l, s'. split; [done|].
  assert (∀ w x, x ∈ slot (container s') tid w → x ∈ slot (container s) tid w ∧ c - 1 ≤ tag x) as Hkeep.
  { intros w x Hx.
    assert (x ∈ slot (container s) tid w) as Hx'.
    { destruct (decide (w = win (cur - 1) ∧ cur - 1 ≤ c - 2)) as [[-> ?]|]; [|
      destruct (decide (w = win cur ∧ cur ≤ c - 2)) as [[-> ?]|]; [|
      destruct (decide (w = win (cur + 1) ∧ cur + 1 ≤ c - 2)) as [[-> ?]|]]].
      1-3: rewrite Hnil in Hx by lia; set_solver.
      rewrite <- Hsl; [done|]. intros e Hr ->.
      assert (e = cur - 1 ∨ e = cur ∨ e = cur + 1) as [->|[->| ->]] by lia; naive_solver lia. }
    split; [done|]. pose proof (Hs _ _ Hx') as ->. pose proof (Ht _ _ Hx').
    destruct (decide (c - 1 ≤ tag x)); [done|]. rewrite Hnil in Hx by lia. set_solver. }
  split_and!; [|done|].
  - constructor; [done|..|].
    + rewrite He'. apply list_lookup_insert_eq. by eapply lookup_lt_Some.
    + unfold INIT_EPOCH. lia.
    + intros w x [Hx _]%Hkeep. by apply Hs.
    + intros w x [Hx ?]%Hkeep. apply Ht in Hx. lia.
  - intros x e Hx. apply Hin in Hx as [Hr Hx]. pose proof (Hs _ _ Hx) as Hw.
    pose proof (Ht _ _ Hx). apply win_inj in Hw; [lia|unfold EPOCH_WINDOW; lia].
Qed.

Lemma tl_run_inv ops : ∀ cur s,
  tl_inv cur s → tl_calls tag cur ops →
  ∃ l s', tl_run ops tid s = Ret (l, s') ∧ tl_inv (tl_final cur ops) s' ∧
    waiting (container s) tid ++ tl_registered ops ≡ₚ l.*1 ++ waiting (container s') tid ∧
    (∀ x c, (x, c) ∈ l → tag x ≤ c - 2).
Proof.
  induction ops as [|[c|x e] ops IH]; intros cur s Hi Hc; simpl in *.
  - exists [], s. split_and!; [done..| |set_solver]. by rewrite app_nil_r.
  - destruct Hc as (Hle & Hm & Hc).
    destruct (tl_begin_inv cur s c Hi Hle Hm) as (l1 & s1 & -> & Hi1 & Hp1 & Ht1).
    destruct (IH c s1 Hi1 Hc) as (l2 & s2 & -> & Hi2 & Hp2 & Ht2).
    eexists _, s2. split_and!; [done..| |].
    + rewrite fmap_app, <- list_fmap_compose, <- app_assoc, <- Hp2, app_assoc.
      by rewrite Hp1.
    + intros x c'. rewrite elem_of_app, list_elem_of_fmap.
      intros [([y e] & [= -> ->] & Hy)|Hx]; [by eapply Ht1|by apply Ht2].
  - destruct Hc as (-> & Htag & Hc).
    destruct (tl_free_inv cur s x (tag x) Hi eq_refl Htag) as (s1 & -> & Hi1 & Hp1).
    destruct (IH cur s1 Hi1 Hc) as (l2 & s2 & -> & Hi2 & Hp2 & Ht2).
    eexists _, s2. split_and!; [done..| |done]. rewrite <- Hp2, <- Hp1.
    by rewrite <- app_assoc.
Qed.

Lemma tl_new_inv : tl_inv INIT_EPOCH (tl_new n).
Proof.
  assert (∀ w (x : T), x ∈ slot (vc_new n) tid w → False) as Hno.
  { intros w x. unfold slot. destruct (tab_get (vc_new n) w tid) as [l|] eqn:Hl; simpl; [|set_solver].
    apply tab_get_new in Hl as ->. set_solver. }
  constructor; simpl; [apply tab_dims_new| |done|..].
  - by apply lookup_replicate_2.
  - intros w x []%Hno.
  - intros w x []%Hno.
Qed.
End proofs.

Lemma waiting_new n t : waiting (vc_new (T:=T) n) t = [].
Proof.
  assert (∀ w, slot (vc_new (T:=T) n) t w = []) as H.
  { intros w. unfold slot. destruct (tab_get (vc_new n) w t) as [l|] eqn:Hl; [|done].
    by apply tab_get_new in Hl as ->. }
  unfold waiting. by rewrite !H.
Qed.
End tl.
Arguments tlfc : clear implicits.
Arguments tl_op : clear implicits.

(** C23. Deferred reclamation by the worker threads.  Whatever a thread does,
    in any number of epochs it skips: no registration fails; a block registered
    for epoch [e] is given back only by an operation that begins in epoch
    [e+2] or later, so never while a crash could still recover it; no block is
    lost or freed twice (the freed blocks and those still waiting are the
    registered ones, as multisets); and a block still waiting when the thread's
    epoch is [cur] was registered for [cur-1] or later. *)
Theorem tl_free_after_two_epochs {T} (tag : T → Z) (n tid : nat) (ops : list (tl_op T)) :
  (tid < n)%nat → tl_calls tag INIT_EPOCH ops →
  ∃ l s', tl_run ops tid (tl_new n) = Ret (l, s') ∧
    (∀ x c, (x, c) ∈ l → tag x ≤ c - 2) ∧
    tl_registered ops ≡ₚ l.*1 ++ waiting (container s') tid ∧
    (∀ x, x ∈ waiting (container s') tid → tl_final INIT_EPOCH ops - 1 ≤ tag x).
Proof.
  intros Ht Hc. destruct (tl_run_inv tag n tid Ht ops INIT_EPOCH (tl_new n))
    as (l & s' & Hr & Hi & Hp & Htag); [by apply tl_new_inv|done|].
  exists l, s'. split_and!; [done..| |].
  - rewrite <- Hp. simpl. by rewrite waiting_new.
  - intros x (w & _ & Hx)%elem_of_waiting. apply (tl_tags _ _ _ _ _ Hi) in Hx. lia.
Qed.

Lemma tl_free_after_two_epochs_witness :
  let ops := [Begin 3; Free (10, 3) 3; Free (11, 4) 4; Begin 4; Free (12, 4) 4; Begin 6] in
  ∃ l s', tl_run ops 1 (tl_new 2) = Ret (l, s') ∧
    (∀ x c, (x, c) ∈ l → snd x ≤ c - 2) ∧
    tl_registered ops ≡ₚ l.*1 ++ waiting (container s') 1 ∧
    (∀ x, x ∈ waiting (container s') 1 → tl_final INIT_EPOCH ops - 1 ≤ snd x).
Proof.
  apply (tl_free_after_two_epochs (T:=Z*Z) snd 2 1); [lia|]. simpl. unfold U64, INIT_EPOCH. lia.
Defined.

(** The same run evaluated: the three blocks are freed when epoch 6 begins. *)
Example tl_run_example :
  fst <$> match tl_run [Begin 3; Free (10, 3) 3; Free (11, 4) 4; Begin 4; Free (12, 4) 4; Begin 6]
            1 (tl_new 2) with Ret (l, _) => l | Throw _ => [] end = [(10, 3); (12, 4); (11, 4)].
Proof. reflexivity. Qed.
End ThreadLocalFreedContainer.

(** ** PerEpochFreedContainer *)
Module PerEpochFreedContainer.
Section pe.
Context {T : Type}.

Definition pef_new (task_num : nat) : table (list T) := vc_new task_num.

Definition pef_register_free (is_null : bool) (blk : T) (c : Z) (tid : nat) (s : table (list T))
    : outcome (table (list T)) :=
  if is_null then Throw (AssertFail "blk!=nullptr") else vc_push blk tid c s.

#[local] Arguments pef_register_free : simpl never.

Definition pef_help_free (c : Z) (s : table (list T)) : outcome (list (T * Z) * table (list T)) :=
  match vc_pop_all c s with
  | Ret (l, k) => Ret ((λ x, (x, c)) <$> l, k)
  | Throw e => Throw e
  end.

Definition pef_help_free_local (c : Z) (tid : nat) (s : table (list T))
    : outcome (list (T * Z) * table (list T)) :=
  match vc_pop_all_local tid c s with
  | Ret (l, k) => Ret ((λ x, (x, c)) <$> l, k)
  | Throw e => Throw e
  end.

Definition pef_free_on_new_epoch (c : Z) (s : table (list T)) : table (list T) := s.

Definition pef_clear (s : table (list T)) : table (list T) := vc_clear s.

(** The calls of the epoch system: a thread registers a block for epoch [e];
    the advancer that moved the epoch to [g] calls [on_epoch_begin(g)], which
    frees the blocks of epoch [g-2]. *)
Inductive pef_op : Type :=
  | PFree (x : T) (e : Z) (tid : nat)
  | PEpochBegin (g : Z).

Fixpoint pef_run (ops : list pef_op) (s : table (list T)) : outcome (list (T * Z) * table (list T)) :=
  match ops with
  | [] => Ret ([], s)
  | PFree x e tid :: ops' =>
      match pef_register_free false x e tid s with
      | Ret s1 => pef_run ops' s1
      | Throw err => Throw err
      end
  | PEpochBegin g :: ops' =>
      match pef_help_free (g -₆ 2) s with
      | Ret (l, s1) =>
          match pef_run ops' s1 with
          | Ret (l', s2) => Ret (((λ p, (p.1, g)) <$> l) ++ l', s2)
          | Throw e => Throw e
          end
      | Throw e => Throw e
      end
  end.

(** An operation in progress belongs to the epoch [g] or [g-1]; an operation of
    epoch [c] registers blocks for [c] or [c+1]; epochs advance one by one. *)
Fixpoint pef_calls (tag : T → Z) (n : nat) (g : Z) (ops : list pef_op) : Prop :=
  match ops with
  | [] => True
  | PFree x e tid :: ops' => e = tag x ∧ g - 1 ≤ e ≤ g + 1 ∧ (tid < n)%nat ∧ pef_calls tag n g ops'
  | PEpochBegin g' :: ops' => g' = g + 1 ∧ g' < U64 ∧ pef_calls tag n g' ops'
  end.

Fixpoint pef_final (g : Z) (ops : list pef_op) : Z :=
  match ops with
  | [] => g
  | PFree _ _ _ :: ops' => pef_final g ops'
  | PEpochBegin g' :: ops' => pef_final g' ops'
  end.

Section proofs.
Context (tag : T → Z) (n : nat).

Record pef_inv (g : Z) (s : table (list T)) : Prop := {
  pef_dims : tab_dims n s;
  pef_cur : INIT_EPOCH ≤ g < U64;
  pef_slot : ∀ t w x, x ∈ slot s t w → w = win (tag x);
  pef_tags : ∀ t w x, x ∈ slot s t w → g - 1 ≤ tag x ≤ g + 1;
}.

Lemma pef_register_inv g s x e tid :
  pef_inv g s → e = tag x → g - 1 ≤ e ≤ g + 1 → (tid < n)%nat →
  ∃ s', pef_register_free false x e tid s = Ret s' ∧ pef_inv g s' ∧
    x ∈ slot s' tid (win e) ∧ ∀ t w y, y ∈ slot s t w → y ∈ slot s' t w.
Proof.
  intros [Hd Hc Hs Htg] -> Htag Ht. unfold pef_register_free. rewrite (vc_push_slot n) by done.
  assert (∀ t w y, y ∈ slot (tab_set s (win (tag x)) tid (slot s tid (win (tag x)) ++ [x])) t w ↔
    y ∈ slot s t w ∨ y = x ∧ w = win (tag x) ∧ t = tid) as Hsl.
  { intros t w y. destruct (decide (w = win (tag x) ∧ t = tid)) as [[-> ->]|].
    - rewrite (slot_set_eq n) by auto with montage. rewrite elem_of_app, list_elem_of_singleton. naive_solver.
    - rewrite slot_set_ne by naive_solver. naive_solver. }
  eexists. split_and!; [done| |by apply Hsl; right|intros; apply Hsl; by left].
  constructor; [auto with montage|done|..].
  - intros t w y [Hy|(-> & -> & _)]%Hsl; [by eapply Hs|done].
  - intros t w y [Hy|(-> & -> & _)]%Hsl; [by eapply Htg|done].
Qed.

Lemma vc_pop_all_slots (c : Z) (s : table (list T)) :
  tab_dims n s →
  ∃ l s', vc_pop_all c s = Ret (l, s') ∧ tab_dims n s' ∧
    (∀ y, y ∈ l ↔ ∃ t, y ∈ slot s t (win c)) ∧
    (∀ t, slot s' t (win c) = []) ∧ (∀ t w, w ≠ win c → slot s' t w = slot s t w).
Proof.
  intros [Hl Hf]. unfold vc_pop_all, PerThreadVector.ptv_pop_all.
  destruct (lookup_lt_is_Some_2 s (win c)) as [b Hb]; [rewrite Hl; apply win_lt|]. rewrite Hb.
  pose proof (lookup_lt_Some _ _ _ Hb) as Hlt.
  eexists _, _. split; [done|]. split_and!.
  - split; [by rewrite length_insert|]. apply Forall_insert; [done|].
    rewrite length_fmap. by eapply (Forall_lookup_1 (λ r, length r = n)).
  - intros y. rewrite list_elem_of_In, in_concat. unfold slot, tab_get. rewrite Hb. split.
    + intros (r & Hr & Hy). rewrite <- list_elem_of_In in Hr. rewrite <- list_elem_of_In in Hy.
      apply list_elem_of_fmap in Hr as (r' & -> & Hr'). rewrite elem_of_reverse in Hy.
      apply list_elem_of_lookup in Hr' as [t Ht]. exists t. by rewrite Ht.
    + intros [t Hy]. destruct (b !! t) as [r|] eqn:Hr; [|set_solver]. simpl in Hy.
      exists (reverse r). rewrite <- !list_elem_of_In, elem_of_reverse. split; [|done].
      apply list_elem_of_fmap. exists r. split; [done|]. by eapply list_elem_of_lookup_2.
  - intros t. unfold slot, tab_get. rewrite list_lookup_insert_eq by done.
    rewrite list_lookup_fmap. by destruct (b !! t).
  - intros t w Hw. unfold slot, tab_get. by rewrite list_lookup_insert_ne.
Qed.

Lemma pef_epoch_begin_inv g s :
  pef_inv g s → g + 1 < U64 →
  ∃ l s', pef_help_free (g + 1 -₆ 2) s = Ret (l, s') ∧ pef_inv (g + 1) s' ∧
    (∀ x e, (x, e) ∈ l → tag x = g + 1 - 2) ∧
    (∀ t w y, y ∈ slot s t w → (∃ e, (y, e) ∈ l) ∨ y ∈ slot s' t w).
Proof.
  intros [Hd Hc Hs Htg] Hg. unfold INIT_EPOCH, pef_help_free in *.
  rewrite u64_small by (unfold is_u64; lia).
  destruct (vc_pop_all_slots (g + 1 - 2) s Hd) as (l & s' & -> & Hd' & Hin & Hnil & Hsl).
  assert (∀ t w x, x ∈ slot s' t w → x ∈ slot s t w ∧ w ≠ win (g + 1 - 2)) as Hkeep.
  { intros t w x Hx. destruct (decide (w = win (g + 1 - 2))) as [->|Hw].
    - rewrite Hnil in Hx. set_solver.
    - by rewrite Hsl in Hx. }
  eexists _, s'. split; [done|]. split_and!.
  - constructor; [done|unfold INIT_EPOCH; lia|..].
    + intros t w x [Hx _]%Hkeep. by eapply Hs.
    + intros t w x [Hx Hw]%Hkeep. pose proof (Hs _ _ _ Hx) as ->. apply Htg in Hx.
      assert (tag x ≠ g + 1 - 2) by congruence. lia.
  - intros x e (y & [= -> ->] & [t Hy]%Hin)%list_elem_of_fmap. pose proof (Hs _ _ _ Hy) as Hw.
    apply Htg in Hy. apply win_inj in Hw; [done|unfold EPOCH_WINDOW; lia].
  - intros t w y Hy. destruct (decide (w = win (g + 1 - 2))) as [->|Hw]; [left|right; by rewrite Hsl].
    exists (g + 1 - 2). apply list_elem_of_fmap. exists y. split; [done|]. apply Hin. eauto.
Qed.

Lemma pef_run_inv ops : ∀ g s,
  pef_inv g s → pef_calls tag n g ops →
  ∃ l s', pef_run ops s = Ret (l, s') ∧ pef_inv (pef_final g ops) s' ∧
    (∀ x c, (x, c) ∈ l → tag x = c - 2) ∧
    (∀ t w y, y ∈ slot s t w → (∃ c, (y, c) ∈ l) ∨ y ∈ slot s' t w) ∧
    (∀ x e t, PFree x e t ∈ ops → (∃ c, (x, c) ∈ l) ∨ x ∈ slot s' t (win e)).
Proof.
  induction ops as [|[x e tid|g'] ops IH]; intros g s Hi Hc; simpl in *.
  - exists [], s. split_and!; [done..| | |]; set_solver.
  - destruct Hc as (-> & Htag & Ht & Hc).
    destruct (pef_register_inv g s x (tag x) tid Hi eq_refl Htag Ht) as (s1 & -> & Hi1 & Hx & Hk).
    destruct (IH g s1 Hi1 Hc) as (l & s2 & -> & Hi2 & Ht2 & Hk2 & Hf2).
    exists l, s2. split_and!; [done..| |].
    + intros t w y Hy. by apply Hk2, Hk.
    + intros y e t [[= -> -> ->]|Hy]%elem_of_cons; [by apply Hk2|by apply Hf2].
  - destruct Hc as (-> & Hm & Hc).
    destruct (pef_epoch_begin_inv g s Hi Hm) as (l1 & s1 & -> & Hi1 & Ht1 & Hk1).
    destruct (IH (g + 1) s1 Hi1 Hc) as (l & s2 & -> & Hi2 & Ht2 & Hk2 & Hf2).
    eexists _, s2. split; [done|]. split_and!; [done|..].
    + intros x c [Hx|Hx]%elem_of_app; [|by apply Ht2].
      apply list_elem_of_fmap in Hx as ([y e] & [= -> ->] & Hy). by eapply Ht1.
    + intros t w y Hy. apply Hk1 in Hy as [[e Hy]|Hy].
      * left. exists (g + 1). apply elem_of_app. left. apply list_elem_of_fmap. by exists (y, e).
      * apply Hk2 in Hy as [[c Hy]|]; [left; exists c; apply elem_of_app; by right|by right].
    + intros x e t [[=]|Hx]%elem_of_cons. apply Hf2 in Hx as [[c Hx]|]; [|by right].
      left. exists c. apply elem_of_app. by right.
Qed.

Lemma pef_new_inv : pef_inv INIT_EPOCH (pef_new n).
Proof.
  assert (∀ t w (x : T), x ∈ slot (vc_new n) t w → False) as Hno.
  { intros t w x. unfold slot. destruct (tab_get (vc_new n) w t) as [l|] eqn:Hl; simpl; [|set_solver].
    apply tab_get_new in Hl as ->. set_solver. }
  constructor; [apply tab_dims_new|done|..]; intros t w x []%Hno.
Qed.
End proofs.
End pe.
Arguments pef_op : clear implicits.

(** Reclamation by the epoch advancer.  Under the epoch system's calls, for
    any interleaving of the threads' registrations with the epoch's advances:
    no call fails; the blocks freed when the epoch becomes [c] are blocks
    registered for [c-2]; every block registered has been freed or still waits
    in its own window; and what waits in epoch [g] was registered for [g-1] or
    later, so the four windows never mix the blocks of two epochs. *)
Theorem pef_free_after_two_epochs {T} (tag : T → Z) (n : nat) (ops : list (pef_op T)) :
  pef_calls tag n INIT_EPOCH ops →
  ∃ l s', pef_run ops (pef_new n) = Ret (l, s') ∧
    (∀ x c, (x, c) ∈ l → tag x = c - 2) ∧
    (∀ x e t, PFree x e t ∈ ops → (∃ c, (x, c) ∈ l) ∨ x ∈ slot s' t (win e)) ∧
    (∀ t w x, x ∈ slot s' t w → w = win (tag x) ∧ pef_final INIT_EPOCH ops - 1 ≤ tag x).
Proof.
  intros Hc. destruct (pef_run_inv tag n ops INIT_EPOCH (pef_new n))
    as (l & s' & Hr & Hi & Ht & _ & Hf); [by apply pef_new_inv|done|].
  exists l, s'. split_and!; [done..|]. intros t w x Hx. split.
  - by eapply (pef_slot _ _ _ _ Hi).
  - apply (pef_tags _ _ _ _ Hi) in Hx. lia.
Qed.

Lemma pef_free_after_two_epochs_witness :
  let ops := [PFree (10, 3) 3 0; PEpochBegin 4; PFree (11, 3) 3 1; PFree (12, 5) 5 0; PEpochBegin 5] in
  ∃ l s', pef_run ops (pef_new 2) = Ret (l, s') ∧
    (∀ x c, (x, c) ∈ l → snd x = c - 2) ∧
    (∀ x e t, PFree x e t ∈ ops → (∃ c, (x, c) ∈ l) ∨ x ∈ slot s' t (win e)) ∧
    (∀ t w x, x ∈ slot s' t w → w = win (snd x) ∧ pef_final INIT_EPOCH ops - 1 ≤ snd x).
Proof.
  apply (pef_free_after_two_epochs (T:=Z*Z) snd 2). simpl. unfold U64, INIT_EPOCH. lia.
Defined.
End PerEpochFreedContainer.

(** ** NoToBeFreedContainer *)
Module NoToBeFreedContainer.
Definition nof_register_free {T} (is_null : bool) (blk : T) (c : Z) : outcome (list (T * Z)) :=
  if is_null then Throw (AssertFail "blk!=nullptr") else Ret [(blk, c)].
End NoToBeFreedContainer.
