(* ===== verification/PersistTracker.v ===== *)
(** * Persist trackers (src/persist/PersistTrackers.hpp)

    [IncreasingMindicator], the default tracker, is a binary tree with one leaf
    per thread.  A leaf holds the oldest epoch its thread still has to write
    back, an internal node a lower bound of its children.  The epoch advancer
    walks the tree to find the threads that lag behind.

    A node is named by its address, the route from the root to it, last turn
    first: the root is [[]], the child [b] of [p] is [b :: p], so the [seq]
    field of a node is the head of its address and the ancestors [paths[tid]]
    are the tails of the leaf's address.  A node's value is a [uint64_t]. *)

From S2P Require Import Prelude.

Notation addr := (list bool).

(** ** Construction of the tree *)
Module IncreasingMindicator.

Record im : Type := Im {
  leaves : list addr;
  val : addr → Z;
}.

(** [for (i = 0; i < curr_layer_size; i++) { ... }]: the front slot gets a new
    internal node, whose two children slots go to the back. *)
Fixpoint add_layer (curr_layer_size : nat) (buffer : list addr) : list addr :=
  match curr_layer_size, buffer with
  | S k, front :: buffer' => add_layer k (buffer' ++ [false :: front; true :: front])
  | _, _ => buffer
  end.

(** [while (buffer.size() < (thread_cnt >> 1)) { ... }] *)
Fixpoint add_layers (fuel : nat) (thread_cnt : nat) (buffer : list addr) : option (list addr) :=
  match fuel with
  | O => None
  | S fuel' =>
      if (length buffer <? Nat.div2 thread_cnt)%nat
      then add_layers fuel' thread_cnt (add_layer (length buffer) buffer)
      else Some buffer
  end.

(** The last layer takes slots from the back and collects their children. *)
Fixpoint last_layer (last_layer_size : nat) (buffer tail : list addr) : list addr * list addr :=
  match last_layer_size, last buffer with
  | S k, Some back => last_layer k (removelast buffer) ((false :: back) :: (true :: back) :: tail)
  | _, _ => (buffer, tail)
  end.

Definition even_cnt (actual_thread_cnt : nat) : nat :=
  if Nat.odd actual_thread_cnt then S actual_thread_cnt else actual_thread_cnt.

Definition build (thread_cnt : nat) : outcome (list addr) :=
  match add_layers thread_cnt thread_cnt [[false]; [true]] with
  | None => Throw (UB "out of fuel")
  | Some buffer =>
      let '(buffer', tail) := last_layer (thread_cnt - length buffer) buffer [] in
      let slots := buffer' ++ tail in
      if ((length slots =? thread_cnt) || (length slots =? 2))%nat then Ret slots
      else Throw (AssertFail "buffer.size() == thread_cnt || buffer.size() == 2")
  end.

Definition im_new (actual_thread_cnt : nat) : outcome im :=
  if (actual_thread_cnt =? 0)%nat then Throw (AssertFail "actual_thread_cnt > 0")
  else
    let thread_cnt := even_cnt actual_thread_cnt in
    match build thread_cnt with
    | Throw e => Throw e
    | Ret slots =>
        match slots !! (thread_cnt - 1)%nat with
        | None => Throw (UB "buffer.front() of an empty list")
        | Some odd_leaf =>
            Ret (Im (take thread_cnt slots)
                    (if Nat.odd actual_thread_cnt
                     then <[odd_leaf := UINT64_MAX]> (λ _, NULL_EPOCH)
                     else (λ _, NULL_EPOCH)))
        end
    end.

(** [leaf_idx] of a node: its position among the leaves, [None] for -1. *)
Definition leaf_idx (a : addr) (s : im) : option nat := fst <$> list_find (a =.) (leaves s).

(** [init_subtree]: the route from the root of every leaf below [curr], with
    [p] the nodes above [curr]. *)
Fixpoint init_subtree (fuel : nat) (s : im) (curr : addr) (p : list addr)
    : option (list (nat * list addr)) :=
  match fuel with
  | O => None
  | S fuel' =>
      match leaf_idx curr s with
      | Some i => Some [(i, p ++ [curr])]
      | None =>
          match init_subtree fuel' s (false :: curr) (p ++ [curr]),
                init_subtree fuel' s (true :: curr) (p ++ [curr]) with
          | Some l, Some r => Some (l ++ r)
          | _, _ => None
          end
      end
  end.

(** The nodes from the root to [a]: what [paths] holds for the leaf [a]. *)
Fixpoint route (a : addr) : list addr :=
  match a with [] => [[]] | b :: p => route p ++ [b :: p] end.

(** ** Operations *)

Definition set_val (a : addr) (v : Z) (s : im) : im := Im (leaves s) (<[a := v]> (val s)).

(** One call of [propagate] when no other thread interferes (the CAS then
    succeeds): the new [val], whether to stop, the new tree. *)
Definition propagate (v : Z) (n : addr) (from : bool) (s : im) : Z * bool * im :=
  let old_val := val s n in
  let sibling_val := val s (negb from :: n) in
  let new_min := Z.min v sibling_val in
  if old_val <? new_min then (new_min, false, set_val n new_min s) else (v, true, s).

(** [for (int i = paths[tid].size()-2; i >= 0; i--)]: from the leaf's parent
    up to the root. *)
Fixpoint propagate_path (v : Z) (a : addr) (s : im) : im :=
  match a with
  | [] => s
  | from :: p =>
      let '(v', stop, s') := propagate v p from s in
      if stop then s' else propagate_path v' p s'
  end.

Definition after_persist_epoch (v : Z) (tid : nat) (s : im) : outcome im :=
  match leaves s !! tid with
  | None => Throw (UB "leaves[tid]")
  | Some l =>
      if v <? val s l then Ret s
      else Ret (propagate_path v l (set_val l (v +₆ 1) s))
  end.

(** [None] when the fuel, the height of the tree, is exhausted. *)
Fixpoint find_next_thread_le (fuel : nat) (n : addr) (v : Z) (s : im) : option (option nat) :=
  match fuel with
  | O => None
  | S fuel' =>
      if v <? val s n then Some None
      else match leaf_idx n s with
           | Some i => Some (Some i)
           | None =>
               match find_next_thread_le fuel' (false :: n) v s with
               | Some (Some ret) => Some (Some ret)
               | Some None => find_next_thread_le fuel' (true :: n) v s
               | None => None
               end
           end
  end.

Definition height (s : im) : nat := S (max_list_with length (leaves s)).

(** The loop of [next_thread_to_persist(val, curr)] from the node [a] up. *)
Fixpoint search_up (a : addr) (v : Z) (s : im) : option (option nat) :=
  match a with
  | [] => Some None
  | from :: p =>
      if val s p <? v then
        match find_next_thread_le (height s) (negb from :: p) v s with
        | Some (Some ret) => Some (Some ret)
        | Some None => search_up p v s
        | None => None
        end
      else search_up p v s
  end.

(** The result is [Ret None] for -1. *)
Definition next_thread_to_persist (v : Z) (curr : nat) (s : im) : outcome (option nat) :=
  match leaves s !! curr with
  | None => Throw (UB "leaves[curr]")
  | Some l =>
      if val s l <=? v then Ret (Some curr)
      else match search_up l v s with
           | Some r => Ret r
           | None => Throw (UB "out of fuel")
           end
  end.

(** [next_thread_to_persist(val)]: [while (root->val.load() <= val)]; [None]
    when the fuel is exhausted. *)
Fixpoint next_thread_to_persist1 (fuel : nat) (v : Z) (s : im) : option (option nat) :=
  match fuel with
  | O => None
  | S fuel' =>
      if val s [] <=? v then
        match find_next_thread_le (height s) [] v s with
        | Some (Some ret) => Some (Some ret)
        | Some None => next_thread_to_persist1 fuel' v s
        | None => None
        end
      else Some None
  end.

Definition next_epoch_to_persist (tid : nat) (s : im) : outcome Z :=
  match leaves s !! tid with
  | None => Throw (UB "leaves[tid]")
  | Some l => Ret (val s l)
  end.

(** The loop of [EpochSys::on_epoch_end] over the tracker: the threads whose
    buffers [persist_epoch_local(v, curr_thread)] is called for, in order. *)
Fixpoint epoch_end_loop (fuel : nat) (v : Z) (curr_thread : option nat) (s : im)
    : outcome (list nat * im) :=
  match fuel with
  | O => Throw (UB "out of fuel")
  | S fuel' =>
      match curr_thread with
      | None => Ret ([], s)
      | Some t =>
          match after_persist_epoch v t s with
          | Throw e => Throw e
          | Ret s1 =>
              match next_thread_to_persist v t s1 with
              | Throw e => Throw e
              | Ret curr' =>
                  match epoch_end_loop fuel' v curr' s1 with
                  | Ret (l, s2) => Ret (t :: l, s2)
                  | Throw e => Throw e
                  end
              end
          end
      end
  end.

(** The part of [on_epoch_end(v+1)] called by thread [tid] of [task_num]. *)
Definition epoch_end (v : Z) (tid task_num : nat) (s : im) : outcome (list nat * im) :=
  match next_thread_to_persist v (tid mod task_num) s with
  | Throw e => Throw e
  | Ret curr => epoch_end_loop (S (length (leaves s))) v curr s
  end.

(** ** Complete prefix codes: the shape of the tree *)

(** [a `suffix_of` l]: the node [a] is [l] or one of its ancestors. *)
Definition node (L : list addr) (a : addr) : Prop := ∃ l, l ∈ L ∧ a `suffix_of` l.

(** The addresses of the leaves of a tree whose internal nodes all have two
    children: no leaf is above another one, and the child of a node that is
    above a leaf is itself above a leaf. *)
Record code (L : list addr) : Prop := {
  code_nodup : NoDup L;
  code_free : ∀ a b, a ∈ L → b ∈ L → a `suffix_of` b → a = b;
  code_full : ∀ l p b, l ∈ L → p `suffix_of` l → p ≠ l → node L (b :: p);
}.

Lemma suffix_below (a x : addr) d : a `suffix_of` d :: x → a = d :: x ∨ a `suffix_of` x.
Proof. intros [[|e k] [=]]; [by left|right; by exists k]. Qed.

Lemma code_split L R L' x :
  code L → L ≡ₚ x :: R → L' ≡ₚ (false :: x) :: (true :: x) :: R → code L'.
Proof.
  intros [Hnd Hfree Hfull] HL HL'.
  assert (∀ y, y ∈ L ↔ y = x ∨ y ∈ R) as HinL by (intros y; rewrite HL; set_solver).
  assert (∀ y, y ∈ L' ↔ (∃ c, y = c :: x) ∨ y ∈ R) as HinL'.
  { intros y. rewrite HL', !elem_of_cons. split; [naive_solver|]. intros [[[] ->]|]; auto. }
  rewrite HL in Hnd. apply NoDup_cons in Hnd as [HxR HndR].
  assert (∀ c r, r ∈ R → ¬ c :: x `suffix_of` r) as Habove.
  { intros c r Hr Hs. apply HxR. rewrite (Hfree x r); [done|set_solver..|].
    by eapply suffix_cons_l. }
  assert (∀ a, node L a → node L' a) as Hlift.
  { intros a (l & Hl & Ha). apply HinL in Hl as [->|Hl].
    - exists (false :: x). split; [apply HinL'; eauto|by apply suffix_cons_r].
    - exists l. split; [apply HinL'; by right|done]. }
  constructor.
  - rewrite HL'. apply NoDup_cons. split.
    { rewrite elem_of_cons. intros [[=]|Hr]. by eapply Habove. }
    apply NoDup_cons. split; [intros Hr; by eapply Habove|done].
  - intros a b [[c ->]|Ha]%HinL' [[d ->]|Hb]%HinL' Hs.
    + apply suffix_length_eq in Hs; [done|simpl; lia].
    + by destruct (Habove c b).
    + apply suffix_below in Hs as [->|Hs]; [by destruct (Habove d (d :: x))|].
      apply Hfree in Hs as ->; [done|set_solver..].
    + apply Hfree; set_solver.
  - intros l p b [[c ->]|Hl]%HinL' Hs Hne.
    + apply suffix_below in Hs as [->|Hs]; [done|].
      destruct (decide (p = x)) as [->|Hne']; [exists (b :: x); split; [apply HinL'; eauto|done]|].
      apply Hlift, (Hfull x); set_solver.
    + apply Hlift, (Hfull l); set_solver.
Qed.

Lemma code_root : code [[false]; [true]].
Proof.
  constructor.
  - apply NoDup_cons. split; [set_solver|apply NoDup_singleton].
  - intros a b Ha Hb Hs. apply suffix_length_eq in Hs; [done|set_solver].
  - intros l p b Hl Hs Hne. exists [b]. split; [destruct b; set_solver|].
    assert (∃ c, l = [c]) as [c ->] by (destruct b; set_solver).
    apply suffix_below in Hs as [->|Hs]; [done|]. by apply suffix_nil_inv in Hs as ->.
Qed.

Lemma add_layer_spec k : ∀ buffer,
  (k ≤ length buffer)%nat → code buffer →
  code (add_layer k buffer) ∧ length (add_layer k buffer) = (length buffer + k)%nat.
Proof.
  induction k as [|k IH]; intros buffer Hk Hc; simpl; [by rewrite Nat.add_0_r|].
  destruct buffer as [|front buffer]; simpl in *; [lia|].
  destruct (IH (buffer ++ [false :: front; true :: front])) as [Hc' Hl].
  - rewrite length_app. simpl. lia.
  - eapply code_split; [done|done|]. rewrite Permutation_app_comm. done.
  - split; [done|]. rewrite Hl, length_app. simpl. lia.
Qed.

Lemma add_layers_spec fuel : ∀ tc buffer,
  (2 ≤ tc)%nat → code buffer → (2 ≤ length buffer)%nat → (length buffer < tc ∨ length buffer = 2)%nat →
  (tc < length buffer + fuel)%nat →
  ∃ buffer', add_layers fuel tc buffer = Some buffer' ∧ code buffer' ∧
    (2 ≤ length buffer')%nat ∧ (Nat.div2 tc ≤ length buffer')%nat ∧
    (length buffer' < tc ∨ length buffer' = 2)%nat.
Proof.
  induction fuel as [|fuel IH]; intros tc buffer Htc Hc Hl Hb Hf; [lia|]. simpl.
  destruct (Nat.ltb_spec (length buffer) (Nat.div2 tc)) as [Hlt|Hge]; [|by eauto 10].
  destruct (add_layer_spec (length buffer) buffer) as [Hc' Hl']; [done..|].
  pose proof (Nat.div2_odd tc). destruct (Nat.odd tc); simpl in *; apply IH; try done; lia.
Qed.

Lemma last_layer_spec k : ∀ buffer tail,
  (k ≤ length buffer)%nat → code (buffer ++ tail) →
  let '(buffer', tail') := last_layer k buffer tail in
  code (buffer' ++ tail') ∧ length (buffer' ++ tail') = (length (buffer ++ tail) + k)%nat.
Proof.
  induction k as [|k IH]; intros buffer tail Hk Hc; simpl; [by rewrite Nat.add_0_r|].
  destruct (last buffer) as [back|] eqn:Hlast;
    [|apply last_None in Hlast as ->; simpl in *; lia].
  apply last_Some in Hlast as [buffer0 ->]. rewrite removelast_last.
  rewrite length_app in Hk. simpl in Hk.
  specialize (IH buffer0 ((false :: back) :: (true :: back) :: tail)).
  destruct (last_layer k buffer0 _) as [buffer' tail']. destruct IH as [Hc' Hl']; [lia| |].
  - eapply (code_split _ (buffer0 ++ tail) _ back); [done| |]; solve_Permutation.
  - split; [done|]. rewrite Hl', !length_app. simpl. lia.
Qed.

(** The constructor's assertions hold and the tree is well formed. *)
Lemma build_spec tc :
  (2 ≤ tc)%nat → Nat.even tc = true →
  ∃ slots, build tc = Ret slots ∧ code slots ∧ length slots = tc.
Proof.
  intros H2 Hev. unfold build.
  destruct (add_layers_spec tc tc [[false]; [true]]) as (buffer & -> & Hc & Hl2 & Hd & Hb);
    [done|apply code_root|simpl; lia..|].
  pose proof (Nat.div2_odd tc) as Hodd. rewrite <- Nat.negb_even, Hev in Hodd. simpl in Hodd.
  pose proof (last_layer_spec (tc - length buffer) buffer []) as Hls.
  destruct (last_layer _ buffer []) as [buffer' tail']. destruct Hls as [Hc' Hl'].
  - lia.
  - by rewrite app_nil_r.
  - assert (length (buffer' ++ tail') = tc) as -> by (rewrite Hl', app_nil_r; lia).
    rewrite Nat.eqb_refl. simpl. eexists. split_and!; [done..|]. rewrite Hl', app_nil_r. lia.
Qed.

(** ** Values: every node is a lower bound of the leaves below it *)

Definition heap (L : list addr) (f : addr → Z) : Prop :=
  ∀ b p, node L (b :: p) → f p ≤ f (b :: p).

Lemma node_up L b p : node L (b :: p) → node L p.
Proof. intros (l & Hl & Hs). exists l. split; [done|]. by eapply suffix_cons_l. Qed.

Lemma node_inner L b p : code L → node L (b :: p) → p ∉ L.
Proof.
  intros Hc (l & Hl & Hs) Hp. assert (p `suffix_of` l) as Hpl by (by eapply suffix_cons_l).
  apply (code_free _ Hc) in Hpl as ->; [|done..]. by eapply suffix_cons_not.
Qed.

Lemma node_sibling L b p : code L → node L (b :: p) → node L (negb b :: p).
Proof.
  intros Hc (l & Hl & Hs). apply (code_full _ Hc l); [done|by eapply suffix_cons_l|].
  intros ->. by eapply suffix_cons_not.
Qed.

Lemma suffix_strict (a l : addr) : a `suffix_of` l → a ≠ l → ∃ c, c :: a `suffix_of` l.
Proof.
  intros [k ->] Hne. destruct k as [|c k _] using rev_ind; [done|].
  exists c. exists k. by rewrite <- app_assoc.
Qed.

Lemma heap_lower_bound L f a l : heap L f → l ∈ L → a `suffix_of` l → f a ≤ f l.
Proof.
  intros Hh Hl [k ->]. induction k as [|c k IH] using rev_ind in a, Hl |- *; [done|].
  rewrite <- app_assoc in Hl |- *. simpl in *. etrans; [apply (Hh c)|by apply IH].
  exists (k ++ c :: a). split; [done|by exists k].
Qed.

(** Raising a leaf, or an internal node up to the minimum of its children. *)
Lemma heap_leaf L f l v : code L → heap L f → l ∈ L → f l ≤ v → heap L (<[l := v]> f).
Proof.
  intros Hc Hh Hl Hv b p Hn. rewrite (fn_lookup_insert_ne _ l p) by (intros ->; by eapply node_inner).
  specialize (Hh b p Hn). destruct (decide (l = b :: p)) as [->|];
    [rewrite fn_lookup_insert; lia|by rewrite fn_lookup_insert_ne].
Qed.

Lemma heap_inner L f p v b :
  heap L f → f p ≤ v → v ≤ f (b :: p) → v ≤ f (negb b :: p) → heap L (<[p := v]> f).
Proof.
  intros Hh Hv Hb Hnb c q Hn. specialize (Hh c q Hn).
  assert (∀ d, v ≤ f (d :: p)) as Hall by (intros d; destruct b, d; done).
  destruct (decide (p = q)) as [->|].
  - rewrite fn_lookup_insert, fn_lookup_insert_ne; [done|]. intros Heq.
    apply (f_equal length) in Heq. simpl in Heq. lia.
  - rewrite (fn_lookup_insert_ne _ p q) by done. destruct (decide (p = c :: q)) as [->|];
      [rewrite fn_lookup_insert; lia|by rewrite fn_lookup_insert_ne].
Qed.

(** ** Concurrent updates

    [after_persist_epoch] as it runs concurrently with other calls: every
    atomic load and compare-and-swap of the node values is one step.  [climb v
    a] continues with the parent of [a]. *)

Inductive pc : Type :=
  | PIdle
  | PLeaf (v : Z) (l : addr) (old_val : Z)
  | PLoad (v : Z) (from : bool) (n : addr)
  | PSib (v : Z) (from : bool) (n : addr) (old_val : Z)
  | PCas (v : Z) (from : bool) (n : addr) (old_val sibling_val : Z)
  | PReload (from : bool) (n : addr) (old_val : Z).

Definition climb (v : Z) (a : addr) : pc :=
  match a with [] => PIdle | b :: p => PLoad v b p end.

Section concurrent.
Context (L : list addr).
Notation st := ((addr → Z) * (nat → pc))%type.

Inductive mstep : st → st → Prop :=
  | m_start f w i v l :
      w i = PIdle → l ∈ L → 0 ≤ v < UINT64_MAX → mstep (f, w) (f, <[i := PLeaf v l (f l)]> w)
  | m_leaf_ahead f w i v l old :
      w i = PLeaf v l old → v < old → mstep (f, w) (f, <[i := PIdle]> w)
  | m_leaf_cas f w i v l old :
      w i = PLeaf v l old → old ≤ v → f l = old →
      mstep (f, w) (<[l := v +₆ 1]> f, <[i := climb v l]> w)
  | m_leaf_cas_fail f w i v l old :
      w i = PLeaf v l old → old ≤ v → f l ≠ old → mstep (f, w) (f, <[i := PLeaf v l (f l)]> w)
  | m_load f w i v b p :
      w i = PLoad v b p → mstep (f, w) (f, <[i := PSib v b p (f p)]> w)
  | m_sibling f w i v b p old :
      w i = PSib v b p old → mstep (f, w) (f, <[i := PCas v b p old (f (negb b :: p))]> w)
  | m_cas f w i v b p old sib :
      w i = PCas v b p old sib → old < Z.min v sib → f p = old →
      mstep (f, w) (<[p := Z.min v sib]> f, <[i := climb (Z.min v sib) p]> w)
  | m_cas_fail f w i v b p old sib :
      w i = PCas v b p old sib → old < Z.min v sib → f p ≠ old →
      mstep (f, w) (f, <[i := PReload b p (f p)]> w)
  | m_reload f w i b p old :
      w i = PReload b p old → mstep (f, w) (f, <[i := PSib (f (b :: p)) b p old]> w)
  | m_stop f w i v b p old sib :
      w i = PCas v b p old sib → Z.min v sib ≤ old → mstep (f, w) (f, <[i := PIdle]> w).

(** A value read earlier is still a lower bound, since values only grow. *)
Definition pc_ok (f : addr → Z) (c : pc) : Prop :=
  match c with
  | PIdle => True
  | PLeaf v l old => l ∈ L ∧ 0 ≤ v < UINT64_MAX
  | PLoad v b p | PSib v b p _ => node L (b :: p) ∧ v ≤ f (b :: p)
  | PCas v b p _ sib => node L (b :: p) ∧ v ≤ f (b :: p) ∧ sib ≤ f (negb b :: p)
  | PReload b p _ => node L (b :: p)
  end.

Lemma pc_ok_mono (f g : addr → Z) c : (∀ a, f a ≤ g a) → pc_ok f c → pc_ok g c.
Proof.
  intros Hfg. destruct c as [| |v b p|v b p|v b p o sib|]; simpl; try done.
  - pose proof (Hfg (b :: p)). intros [? ?]; split; [done|lia].
  - pose proof (Hfg (b :: p)). intros [? ?]; split; [done|lia].
  - pose proof (Hfg (b :: p)). pose proof (Hfg (negb b :: p)). intros (? & ? & ?); split_and!; [done|lia..].
Qed.

Lemma climb_ok f v a : node L a → v ≤ f a → pc_ok f (climb v a).
Proof. by destruct a. Qed.

Definition minv (s : st) : Prop := heap L s.1 ∧ ∀ i, pc_ok s.1 (s.2 i).

Lemma fn_insert_le (f : addr → Z) a v : f a ≤ v → ∀ x, f x ≤ (<[a := v]> f) x.
Proof.
  intros Hv x. destruct (decide (a = x)) as [->|]; [by rewrite fn_lookup_insert|].
  by rewrite fn_lookup_insert_ne.
Qed.

(** A step that stores into the tree or not: what remains to show of it. *)
Lemma minv_upd f g w i c :
  minv (f, w) → (∀ a, f a ≤ g a) → heap L g → pc_ok g c → minv (g, <[i := c]> w).
Proof.
  intros [_ Hw] Hfg Hg Hc. split; [done|]. intros j. simpl.
  destruct (decide (i = j)) as [->|]; [by rewrite fn_lookup_insert|].
  rewrite fn_lookup_insert_ne by done. eapply pc_ok_mono, Hw. done.
Qed.

Lemma mstep_inv (Hc : code L) s s' :
  minv s → mstep s s' → minv s' ∧ ∀ a, s.1 a ≤ s'.1 a.
Proof.
  intros Hi Hst. pose proof Hi as [Hh Hw].
  assert (∀ i c, pc_ok s.1 c → minv (s.1, <[i := c]> s.2)) as Hlocal.
  { intros i c Hc'. destruct s. by eapply minv_upd. }
  destruct Hst as [f w i v l He Hl Hv|f w i v l old He|f w i v l old He Ho Hf|f w i v l old He
    |f w i v b p He|f w i v b p old He|f w i v b p old sib He Hlt Hf|f w i v b p old sib He
    |f w i b p old He|f w i v b p old sib He]; simpl in *;
    pose proof (Hw i) as Hpc; rewrite He in Hpc; simpl in Hpc.
  - split; [by apply Hlocal|done].
  - split; [by apply Hlocal|done].
  - destruct Hpc as [Hl Hv]. unfold UINT64_MAX in Hv.
    rewrite u64_small by (unfold is_u64; lia).
    assert (f l ≤ v + 1) as Hle by lia. split; [|by apply fn_insert_le].
    eapply minv_upd; [done|by apply fn_insert_le|by apply heap_leaf|].
    apply climb_ok; [by exists l|]. rewrite fn_lookup_insert. lia.
  - split; [by apply Hlocal|done].
  - split; [by apply Hlocal|done].
  - split; [|done]. apply Hlocal. simpl. destruct Hpc. done.
  - destruct Hpc as (Hn & Hv & Hs). assert (f p ≤ Z.min v sib) as Hle by lia.
    split; [|by apply fn_insert_le].
    eapply minv_upd; [done|by apply fn_insert_le|apply (heap_inner _ _ _ _ b); [done|lia..]|].
    apply climb_ok; [by eapply node_up|]. by rewrite fn_lookup_insert.
  - split; [apply Hlocal; by destruct Hpc|done].
  - split; [apply Hlocal; done|done].
  - split; [by apply Hlocal|done].
Qed.

Lemma mstep_reachable (Hc : code L) s s' :
  minv s → rtc mstep s s' → minv s' ∧ ∀ a, s.1 a ≤ s'.1 a.
Proof.
  intros Hi Hr. induction Hr as [s|s1 s2 s3 Hst Hr IH]; [done|].
  destruct (mstep_inv Hc s1 s2 Hi Hst) as [Hi2 Hle]. destruct (IH Hi2) as [Hi3 Hle3].
  split; [done|]. intros a. specialize (Hle a). specialize (Hle3 a). lia.
Qed.
End concurrent.

Lemma im_new_spec n :
  (0 < n)%nat →
  ∃ s, im_new n = Ret s ∧ code (leaves s) ∧ length (leaves s) = even_cnt n ∧
    heap (leaves s) (val s) ∧ (∀ a, 0 ≤ val s a) ∧
    ∀ t l, leaves s !! t = Some l → (n ≤ t)%nat → val s l = UINT64_MAX.
Proof.
  intros Hn. unfold im_new. destruct (Nat.eqb_spec n 0); [lia|].
  assert (2 ≤ even_cnt n ∧ Nat.even (even_cnt n) = true)%nat as [H2 Hev].
  { unfold even_cnt. destruct (Nat.odd n) eqn:Ho.
    - split; [lia|]. by rewrite Nat.even_succ.
    - split; [|by rewrite <- Nat.negb_odd, Ho]. destruct n as [|[|n]]; [lia|done|lia]. }
  destruct (build_spec (even_cnt n) H2 Hev) as (slots & -> & Hc & Hl).
  destruct (lookup_lt_is_Some_2 slots (even_cnt n - 1)) as [o Ho]; [lia|]. rewrite Ho.
  eexists. split; [done|]. simpl. rewrite take_ge by lia.
  assert (heap slots (λ _, NULL_EPOCH)) as Hh by (by intros b p _).
  assert (NULL_EPOCH ≤ UINT64_MAX) by done.
  split_and!; [done|done|destruct (Nat.odd n); [|done]|..].
  - apply heap_leaf; [done..| |done]. by eapply list_elem_of_lookup_2.
  - intros a. destruct (Nat.odd n); [|done].
    etrans; [|by apply (fn_insert_le (λ _, NULL_EPOCH) o UINT64_MAX)]. done.
  - intros t l Hl' Hnt. pose proof (lookup_lt_Some _ _ _ Hl') as Hlt. unfold even_cnt in *.
    destruct (Nat.odd n); [|lia]. assert (t = S n - 1)%nat as -> by lia.
    rewrite Ho in Hl'. injection Hl' as <-. apply fn_lookup_insert.
Qed.

(** ** Searching the tree *)

Lemma leaf_idx_Some a s i : leaf_idx a s = Some i → leaves s !! i = Some a.
Proof.
  unfold leaf_idx. destruct (list_find _ _) as [[j b]|] eqn:Hf; [|done].
  intros [= <-]. by apply list_find_Some in Hf as (? & <- & _).
Qed.
Lemma leaf_idx_None a s : leaf_idx a s = None → a ∉ leaves s.
Proof.
  unfold leaf_idx. destruct (list_find _ _) as [[j b]|] eqn:Hf; [done|].
  intros _ Ha. apply list_find_None in Hf. rewrite Forall_forall in Hf. by apply (Hf a).
Qed.

Lemma height_bound l s : l ∈ leaves s → (length l < height s)%nat.
Proof.
  unfold height. intros Hl. apply Nat.lt_succ_r.
  induction (leaves s) as [|a L IH]; [set_solver|]. simpl.
  apply elem_of_cons in Hl as [->|Hl]; [lia|]. specialize (IH Hl). lia.
Qed.

Lemma find_next_spec s v : code (leaves s) → heap (leaves s) (val s) → ∀ fuel n,
  node (leaves s) n → (height s ≤ length n + fuel)%nat → (0 < fuel)%nat →
  ∃ r, find_next_thread_le fuel n v s = Some r ∧
    match r with
    | Some i => ∃ l, leaves s !! i = Some l ∧ n `suffix_of` l ∧ val s l ≤ v
    | None => ∀ l, l ∈ leaves s → n `suffix_of` l → v < val s l
    end.
Proof.
  intros Hc Hh. induction fuel as [|fuel IH]; intros n Hn Hf Hpos; [lia|]. simpl.
  destruct (Z.ltb_spec v (val s n)) as [Hlt|Hge].
  { exists None. split; [done|]. intros l Hl Hs.
    pose proof (heap_lower_bound _ _ _ _ Hh Hl Hs). lia. }
  destruct (leaf_idx n s) as [i|] eqn:Hi.
  { exists (Some i). split; [done|]. exists n. split_and!; [by apply leaf_idx_Some|done|done]. }
  apply leaf_idx_None in Hi. destruct Hn as (l0 & Hl0 & Hs0).
  assert (∀ c, node (leaves s) (c :: n)) as Hchild.
  { intros c. apply (code_full _ Hc l0); [done..|]. by intros ->. }
  assert (∀ c, (length (c :: n) < height s)%nat) as Hlen.
  { intros c. destruct (Hchild c) as (l & Hl & Hs). apply height_bound in Hl.
    apply suffix_length in Hs. lia. }
  assert (∀ c, (height s ≤ length (c :: n) + fuel)%nat) as Hf' by (intros c; simpl; lia).
  specialize (Hlen true) as Hlt'. simpl in Hlt'.
  destruct (IH (false :: n) (Hchild false)) as ([i|] & -> & Hr); [apply Hf'|lia|..].
  { exists (Some i). split; [done|]. destruct Hr as (l & ? & ? & ?). exists l.
    split_and!; [done|by eapply suffix_cons_l|done]. }
  destruct (IH (true :: n) (Hchild true)) as ([i|] & -> & Hr'); [apply Hf'|lia|..].
  { exists (Some i). split; [done|]. destruct Hr' as (l & ? & ? & ?). exists l.
    split_and!; [done|by eapply suffix_cons_l|done]. }
  exists None. split; [done|]. intros l Hl Hs.
  destruct (suffix_strict n l Hs) as [[] Hs']; [by intros ->|by apply Hr'|by apply Hr].
Qed.

Lemma search_up_spec s v lc : code (leaves s) → heap (leaves s) (val s) → lc ∈ leaves s → ∀ a,
  a `suffix_of` lc →
  ∃ r, search_up a v s = Some r ∧
    match r with
    | Some i => ∃ l, leaves s !! i = Some l ∧ val s l ≤ v
    | None => ∀ l, l ∈ leaves s → ¬ a `suffix_of` l → v ≤ val s l
    end.
Proof.
  intros Hc Hh Hlc. induction a as [|from p IH]; intros Ha; cbn [search_up].
  { exists None. split; [done|]. intros l _ Hl. destruct Hl. apply suffix_nil. }
  assert (p `suffix_of` lc) as Hp by (by eapply suffix_cons_l).
  assert (node (leaves s) (from :: p)) as Hn by (by exists lc).
  assert (∀ l, l ∈ leaves s → ¬ from :: p `suffix_of` l → p `suffix_of` l →
    negb from :: p `suffix_of` l) as Hsib.
  { intros l Hl Hno Hpl. destruct (suffix_strict p l Hpl) as [c Hs].
    - intros ->. by eapply node_inner.
    - destruct from, c; done. }
  destruct (Z.ltb_spec (val s p) v) as [Hlt|Hge].
  - destruct (find_next_spec s v Hc Hh (height s) (negb from :: p)) as ([i|] & -> & Hr);
      [by apply node_sibling|lia|unfold height; lia|..].
    { exists (Some i). split; [done|]. destruct Hr as (l & ? & _ & ?). eauto. }
    destruct (IH Hp) as (r & -> & Hr'). exists r. split; [done|]. destruct r as [i|]; [done|].
    intros l Hl Hno. destruct (decide (p `suffix_of` l)) as [Hpl|Hpl]; [|by apply Hr'].
    apply Z.lt_le_incl, Hr; auto.
  - destruct (IH Hp) as (r & -> & Hr'). exists r. split; [done|]. destruct r as [i|]; [done|].
    intros l Hl Hno. destruct (decide (p `suffix_of` l)) as [Hpl|Hpl]; [|by apply Hr'].
    pose proof (heap_lower_bound _ _ _ _ Hh Hl Hpl). lia.
Qed.

Lemma next_thread_spec s v curr :
  code (leaves s) → heap (leaves s) (val s) → (curr < length (leaves s))%nat →
  ∃ r, next_thread_to_persist v curr s = Ret r ∧
    match r with
    | Some i => ∃ l, leaves s !! i = Some l ∧ val s l ≤ v
    | None => (∀ l, leaves s !! curr = Some l → v < val s l) ∧ ∀ l, l ∈ leaves s → v ≤ val s l
    end.
Proof.
  intros Hc Hh Hcurr. destruct (lookup_lt_is_Some_2 _ _ Hcurr) as [lc Hlc].
  unfold next_thread_to_persist. rewrite Hlc. destruct (Z.leb_spec (val s lc) v) as [Hle|Hgt].
  { exists (Some curr). split; [done|]. by exists lc. }
  destruct (search_up_spec s v lc Hc Hh) with (a := lc) as (r & -> & Hr);
    [by eapply list_elem_of_lookup_2|done|].
  exists r. split; [done|]. destruct r as [i|]; [done|]. split; [congruence|].
  intros l Hl. destruct (decide (lc `suffix_of` l)) as [Hs|Hs]; [|by apply Hr].
  apply (code_free _ Hc) in Hs as ->; [lia|by eapply list_elem_of_lookup_2|done].
Qed.

(** ** The loop of on_epoch_end *)

Lemma propagate_path_spec L a : ∀ v s,
  leaves s = L → code L → heap L (val s) → node L a → v ≤ val s a →
  let s' := propagate_path v a s in
  leaves s' = L ∧ heap L (val s') ∧ (∀ x, x ∈ L → val s' x = val s x).
Proof.
  induction a as [|b p IH]; intros v s HL Hc Hh Hn Hv; simpl; [done|].
  unfold propagate. destruct (Z.ltb_spec (val s p) (Z.min v (val s (negb b :: p)))) as [Hlt|]; [|done].
  pose proof (node_inner _ _ _ Hc Hn) as Hp.
  destruct (IH (Z.min v (val s (negb b :: p))) (set_val p (Z.min v (val s (negb b :: p))) s))
    as (HL' & Hh' & Hl'); simpl; try done.
  - apply (heap_inner _ _ _ _ b); [done|lia..].
  - by eapply node_up.
  - by rewrite fn_lookup_insert.
  - split_and!; [done..|]. intros x Hx. rewrite Hl' by done. simpl.
    apply fn_lookup_insert_ne. by intros ->.
Qed.

Lemma after_persist_spec s v t l :
  code (leaves s) → heap (leaves s) (val s) → leaves s !! t = Some l → 0 ≤ v < UINT64_MAX →
  ∃ s', after_persist_epoch v t s = Ret s' ∧ leaves s' = leaves s ∧
    heap (leaves s') (val s') ∧ v < val s' l ∧
    (∀ x, x ∈ leaves s → x ≠ l → val s' x = val s x).
Proof.
  intros Hc Hh Hl Hv. unfold after_persist_epoch. rewrite Hl.
  destruct (Z.ltb_spec v (val s l)); [by exists s|]. unfold UINT64_MAX in Hv.
  rewrite u64_small by (unfold is_u64; lia).
  assert (l ∈ leaves s) as Hin by (by eapply list_elem_of_lookup_2).
  destruct (propagate_path_spec (leaves s) l v (set_val l (v + 1) s)) as (HL' & Hh' & Hl');
    simpl; [done..| | | |].
  - apply heap_leaf; [done..|lia].
  - by exists l.
  - rewrite fn_lookup_insert. lia.
  - eexists. split; [done|]. split_and!; [done|by rewrite HL'|..].
    + rewrite Hl' by done. simpl. rewrite fn_lookup_insert. lia.
    + intros x Hx Hne. rewrite Hl' by done. simpl. by rewrite fn_lookup_insert_ne.
Qed.

(** The leaves that still have to write back epoch [v] or an older one. *)
Definition lagging (v : Z) (s : im) : list addr := filter (λ l, val s l ≤ v) (leaves s).

Lemma lagging_decr s s' v l :
  leaves s' = leaves s → NoDup (leaves s) → l ∈ leaves s → val s l ≤ v → v < val s' l →
  (∀ x, x ∈ leaves s → x ≠ l → val s' x = val s x) →
  (length (lagging v s') < length (lagging v s))%nat.
Proof.
  intros HL Hnd Hl Hle Hgt Hx.
  assert (lagging v s ≡ₚ l :: lagging v s') as Hp;
    [|rewrite Hp; simpl; lia].
  apply NoDup_Permutation.
  - by apply NoDup_filter.
  - apply NoDup_cons. unfold lagging. rewrite list_elem_of_filter, HL.
    split; [lia|by apply NoDup_filter].
  - intros x. unfold lagging. rewrite elem_of_cons, !list_elem_of_filter, HL.
    destruct (decide (x = l)) as [->|Hne]; [split; auto|].
    split; [intros [? Hin]; rewrite Hx by done; auto|].
    intros [?|[Hv Hin]]; [done|]. by rewrite Hx in Hv.
Qed.

Lemma epoch_end_loop_spec fuel v : ∀ curr s,
  code (leaves s) → heap (leaves s) (val s) → 0 ≤ v < UINT64_MAX →
  (length (lagging v s) < fuel)%nat →
  match curr with
  | Some t => ∃ l, leaves s !! t = Some l ∧ val s l ≤ v
  | None => ∀ l, l ∈ leaves s → v ≤ val s l
  end →
  ∃ ts s', epoch_end_loop fuel v curr s = Ret (ts, s') ∧ leaves s' = leaves s ∧
    heap (leaves s') (val s') ∧ (∀ l, l ∈ leaves s' → v ≤ val s' l) ∧
    (∀ t l, leaves s !! t = Some l → t ∈ ts → v < val s' l) ∧
    (∀ t l, leaves s !! t = Some l → t ∉ ts → val s' l = val s l) ∧
    (∀ t, t ∈ ts → ∃ l, leaves s !! t = Some l ∧ val s l ≤ v).
Proof.
  induction fuel as [|fuel IH]; intros curr s Hc Hh Hv Hf Hcurr; [lia|]. simpl.
  destruct curr as [t|]; [|exists [], s; split_and!; try done; set_solver].
  destruct Hcurr as (l & Hl & Hle).
  destruct (after_persist_spec s v t l Hc Hh Hl Hv) as (s1 & -> & HL1 & Hh1 & Hgt1 & Hx1).
  assert (l ∈ leaves s) as Hin by (by eapply list_elem_of_lookup_2).
  assert (code (leaves s1)) as Hc1 by (by rewrite HL1).
  pose proof (lookup_lt_Some _ _ _ Hl) as Hlt.
  destruct (next_thread_spec s1 v t) as (r & -> & Hr); [done|done|by rewrite HL1|].
  pose proof (lagging_decr s s1 v l HL1 (code_nodup _ Hc) Hin Hle Hgt1 Hx1).
  destruct (IH r s1) as (ts & s' & -> & HL' & Hh' & Hall & Hin' & Hout' & Hlag); [done..|lia| |].
  { destruct r as [i|]; [done|]. by destruct Hr. }
  exists (t :: ts), s'. split; [done|]. rewrite HL1 in HL'. rewrite HL1 in *.
  split_and!; [done|done|done|..].
  - intros t' l' Hl' Ht'. destruct (decide (t' ∈ ts)) as [Hts|Hts]; [by apply (Hin' t')|].
    apply elem_of_cons in Ht' as [->|]; [|done]. rewrite (Hout' t l') by done.
    by rewrite Hl in Hl'; injection Hl' as <-.
  - intros t' l' Hl' [Hne Hts]%not_elem_of_cons. rewrite (Hout' t' l') by done.
    apply Hx1; [by eapply list_elem_of_lookup_2|]. intros ->. apply Hne.
    by eapply NoDup_lookup; [apply Hc|..].
  - intros t' [->|Ht']%elem_of_cons; [by exists l|].
    destruct (Hlag t' Ht') as (l' & Hl' & Hle'). exists l'. split; [done|].
    rewrite <- Hx1; [done|by eapply list_elem_of_lookup_2|]. intros ->. lia.
Qed.

(** The constructor's traversal fills [paths] with the routes to the leaves. *)
Lemma init_subtree_spec s : code (leaves s) → ∀ fuel curr p,
  node (leaves s) curr → (height s ≤ length curr + fuel)%nat → (0 < fuel)%nat →
  p ++ [curr] = route curr →
  ∃ l, init_subtree fuel s curr p = Some l ∧
    ∀ i path, (i, path) ∈ l ↔
      ∃ a, leaves s !! i = Some a ∧ curr `suffix_of` a ∧ path = route a.
Proof.
  intros Hc. induction fuel as [|fuel IH]; intros curr p Hn Hf Hpos Hp; [lia|]. simpl. rewrite Hp.
  destruct (leaf_idx curr s) as [i|] eqn:Hi.
  { apply leaf_idx_Some in Hi. eexists. split; [done|]. intros j path.
    rewrite list_elem_of_singleton. split; [intros [= -> ->]; by exists curr|].
    intros (a & Ha & Hs & ->). apply (code_free _ Hc) in Hs as <-;
      [|by eapply list_elem_of_lookup_2..].
    f_equal. by eapply NoDup_lookup; [apply Hc|..]. }
  apply leaf_idx_None in Hi. destruct Hn as (l0 & Hl0 & Hs0).
  assert (∀ c, node (leaves s) (c :: curr)) as Hchild.
  { intros c. apply (code_full _ Hc l0); [done..|]. by intros ->. }
  destruct (Hchild true) as (lt & Hlt%height_bound & Hst%suffix_length). simpl in Hst.
  destruct (IH (false :: curr) (route curr) (Hchild false)) as (l1 & -> & H1); [simpl; lia|lia|done|].
  destruct (IH (true :: curr) (route curr) (Hchild true)) as (l2 & -> & H2); [simpl; lia|lia|done|].
  eexists. split; [done|]. intros i path. rewrite elem_of_app, H1, H2. split.
  - intros [(a & ? & ?%suffix_cons_l & ?)|(a & ? & ?%suffix_cons_l & ?)]; eauto.
  - intros (a & Ha & Hs & ->). destruct (suffix_strict curr a Hs) as [[] Hs'].
    + intros ->. apply Hi. by eapply list_elem_of_lookup_2.
    + right. by exists a.
    + left. by exists a.
Qed.



(** C26. Concurrent safety of the tree.  However many threads run
    [after_persist_epoch] at the same time, interleaved at every load and
    compare-and-swap, the value of a node is at any moment a lower bound of the
    values of the leaves below it, and no value ever decreases. *)
Theorem mindicator_lower_bound (n : nat) (s0 : im) (f : addr → Z) (w : nat → pc) :
  (0 < n)%nat → im_new n = Ret s0 →
  rtc (mstep (leaves s0)) (val s0, λ _, PIdle) (f, w) →
  (∀ a l, l ∈ leaves s0 → a `suffix_of` l → f a ≤ f l) ∧ (∀ a, val s0 a ≤ f a).
Proof.
  intros Hn Hs Hr. destruct (im_new_spec n Hn) as (s & Hs' & Hc & _ & Hh & _).
  rewrite Hs in Hs'. injection Hs' as <-.
  assert (minv (leaves s0) (val s0, λ _, PIdle)) as Hi by done.
  destruct (mstep_reachable (leaves s0) Hc _ _ Hi Hr) as [[Hh' _] Hle].
  split; [|done]. intros a l Hl Hs'. by eapply heap_lower_bound.
Qed.

Lemma mindicator_lower_bound_witness :
  ∃ s0 f w, im_new 2 = Ret s0 ∧
    rtc (mstep (leaves s0)) (val s0, λ _, PIdle) (f, w) ∧ f [false] = 3 ∧
    ((∀ a l, l ∈ leaves s0 → a `suffix_of` l → f a ≤ f l) ∧ (∀ a, val s0 a ≤ f a)).
Proof.
  destruct (im_new 2) as [s0|] eqn:Hs0; [|discriminate].
  assert (rtc (mstep (leaves s0)) (val s0, λ _, PIdle)
    (<[[false] := 2 +₆ 1]> (val s0), <[0%nat := climb 2 [false]]>
      (<[0%nat := PLeaf 2 [false] (val s0 [false])]> (λ _, PIdle)))) as Hr.
  { injection Hs0 as <-. eapply rtc_l.
    - apply (m_start _ _ _ 0 2 [false]); [done|set_solver|done].
    - eapply rtc_l; [|apply rtc_refl]. by apply (m_leaf_cas _ _ _ 0 2 [false] 0). }
  eexists s0, _, _. split; [done|]. split; [exact Hr|]. split; [done|].
  eapply (mindicator_lower_bound 2 s0); [lia|done|exact Hr].
Defined.



(** The threads written back and the tree left by a call that returns. *)
Definition threads_of (o : outcome (list nat * im)) : option (list nat) :=
  match o with Ret (ts, _) => Some ts | Throw _ => None end.
Definition tree_of (o : outcome (list nat * im)) : im :=
  match o with Ret (_, s) => s | Throw _ => Im [] (λ _, 0) end.

Lemma outcome_tree o ts : threads_of o = Some ts → o = Ret (ts, tree_of o).
Proof. destruct o as [[]|]; [|done]. by intros [= ->]. Qed.

Definition two_threads : im := Im [[false]; [true]] (λ _, NULL_EPOCH).

(** The end of an epoch can leave a thread behind.  [propagate] is given
    [val] while the leaf is given [val+1], and the search climbs only through
    nodes with a value strictly below [val].  With two threads, once epoch 2 is
    written back for both, the end of epoch 4 writes back epoch 3 for thread 0
    only: the buffer of thread 1 for epoch 3 is not written back although
    thread 1 still has it to do, and the next end of epoch goes on with epoch 4. *)
Theorem epoch_end_skips_thread :
  ∃ s1 s2 s3 s4, im_new 2 = Ret s1 ∧
    epoch_end 2 2 2 s1 = Ret ([0; 1]%nat, s2) ∧
    epoch_end 3 2 2 s2 = Ret ([0]%nat, s3) ∧ next_epoch_to_persist 1 s3 = Ret 3 ∧
    epoch_end 4 2 2 s3 = Ret ([0; 1]%nat, s4) ∧ next_epoch_to_persist 1 s4 = Ret 5.
Proof.
  pose (s2 := tree_of (epoch_end 2 2 2 two_threads)). pose (s3 := tree_of (epoch_end 3 2 2 s2)).
  exists two_threads, s2, s3, (tree_of (epoch_end 4 2 2 s3)).
  split_and!; [reflexivity|apply outcome_tree|apply outcome_tree| |apply outcome_tree|];
    vm_compute; reflexivity.
Qed.

(** The overload [next_thread_to_persist(val)] need not return.  Once both
    of two threads have written back epoch 2 the root holds 2 while no leaf is
    at 2 or below, and the loop [while (root->val <= val)] runs for ever. *)
Theorem next_thread_to_persist1_diverges :
  ∃ s1 s2, im_new 2 = Ret s1 ∧ epoch_end 2 2 2 s1 = Ret ([0; 1]%nat, s2) ∧
    ∀ fuel, next_thread_to_persist1 fuel 2 s2 = None.
Proof.
  exists two_threads, (tree_of (epoch_end 2 2 2 two_threads)). split; [reflexivity|].
  split; [apply outcome_tree; vm_compute; reflexivity|].
  induction fuel as [|fuel IH]; [done|]. cbn [next_thread_to_persist1]. rewrite IH.
  vm_compute. reflexivity.
Qed.

End IncreasingMindicator.
