(* ===== verification/Mindicator.v ===== *)
(** * Mindicator (src/persist/PersistTrackers.hpp)

    The tracker chosen by [PersistTracker=Mindicator]: the tree of
    [PersistTracker], whose values may also decrease.  A node holds the minimum
    of its children with a dirty bit, set while the value is on its way up, and
    a counter against the ABA problem.  [arrive] takes a smaller value up,
    [depart] recomputes the minima on the way.  The shape of the tree, and the
    search for a lagging thread in a subtree, are those of [PersistTracker].

    The operations run without interference here, so a CAS on a value that was
    just loaded succeeds and each [while(true)] ends in its first iteration.
    The theorems: the tree always holds the exact minima, so the search from the
    root finds a lagging thread when there is one; the search from a leaf does
    not. *)

From S2P Require Import Prelude PersistTracker.
Import IncreasingMindicator.

Module Mindicator.

Record MarkedVal : Type := Marked { v : Z; mark : Z }.

Definition is_dirty (x : MarkedVal) : bool := Z.land (mark x) 1 =? 1.
Definition get_counter (x : MarkedVal) : Z := Z.ldiff (mark x) 1.
(** [MarkedVal(x, dirty)] *)
Definition marked (x : Z) (dirty : bool) : MarkedVal := Marked x (if dirty then 1 else 0).
Definition prepare_mark (target old : MarkedVal) : MarkedVal :=
  Marked (v target) (Z.lor (Z.land (mark target) 1) (get_counter old +₆ 2)).

Record md : Type := Md {
  m_leaves : list addr;
  marked_val : addr → MarkedVal;
  has_write_op : table Z;
}.

Definition set_mv (a : addr) (x : MarkedVal) (s : md) : md :=
  Md (m_leaves s) (<[a := x]> (marked_val s)) (has_write_op s).

(** [CAS_val(old, target)] when the node still holds [old] *)
Definition CAS_val (a : addr) (old target : MarkedVal) (s : md) : md := set_mv a (prepare_mark target old) s.

(** The values of the nodes, as the tree of [PersistTracker]. *)
Definition view (s : md) : im := Im (m_leaves s) (λ a, v (marked_val s a)).

Definition md_new (actual_thread_cnt : nat) : outcome md :=
  if (actual_thread_cnt =? 0)%nat then Throw (AssertFail "actual_thread_cnt > 0")
  else
    let thread_cnt := even_cnt actual_thread_cnt in
    match build thread_cnt with
    | Throw e => Throw e
    | Ret slots =>
        Ret (Md (take thread_cnt slots) (λ _, marked UINT64_MAX false) (tab_new actual_thread_cnt 0))
    end.

Definition clean (val : Z) (a : addr) (s : md) : md :=
  let x := marked_val s a in
  if (v x =? val) && is_dirty x then CAS_val a x (marked val false) s else s.

(** The result tells whether to stop. *)
Definition propagate (val : Z) (a : addr) (s : md) : bool * md :=
  let x := marked_val s a in
  if val <? v x then (false, CAS_val a x (marked val true) s)
  else if is_dirty x then (false, s)
  else (true, CAS_val a x x s).

Definition summarize (val : Z) (a : addr) (s : md) : bool * md :=
  let x := marked_val s a in
  if is_dirty x then (v x <? val, s)
  else
    let children_min := Z.min (v (marked_val s (false :: a))) (v (marked_val s (true :: a))) in
    if (children_min <? v x) && (children_min <? val) then (true, s)
    else (v x <? val, CAS_val a x (marked children_min (children_min <? v x)) s).

(** The propagation from the parent of [a] up, and the nodes it visits, the
    topmost first. *)
Fixpoint propagate_up (val : Z) (a : addr) (s : md) : md * list addr :=
  match a with
  | [] => (s, [])
  | _ :: p =>
      let '(done, s1) := propagate val p s in
      if done then (s1, [p])
      else let '(s2, l) := propagate_up val p s1 in (s2, l ++ [p])
  end.

Definition arrive (val : Z) (a : addr) (s : md) : md :=
  let '(s1, l) := propagate_up val a s in foldl (λ s p, clean val p s) s1 l.

Fixpoint depart (val : Z) (a : addr) (s : md) : md :=
  match a with
  | [] => s
  | _ :: p => let '(done, s1) := summarize val p s in if done then s1 else depart val p s1
  end.

Definition change (val : Z) (tid : nat) (s : md) : outcome md :=
  match m_leaves s !! tid with
  | None => Throw (UB "leaves[tid]")
  | Some l =>
      let old_marked := marked_val s l in
      if v old_marked =? val then Ret s
      else
        let new_val := prepare_mark (marked val false) old_marked in
        let s1 := CAS_val l old_marked new_val s in
        Ret (depart (v old_marked) l (arrive val l s1))
  end.

Definition set_flag (c : Z) (tid : nat) (x : Z) (s : md) : md :=
  Md (m_leaves s) (marked_val s) (tab_set (has_write_op s) (win c) tid x).

(** [compare_exchange_strong(zero, 1)] *)
Definition first_write_on_new_epoch (e : Z) (tid : nat) (s : md) : outcome md :=
  match tab_get (has_write_op s) (win e) tid with
  | None => Throw (UB "has_write_op[e][tid]")
  | Some x => Ret (if x =? 0 then set_flag e tid 1 s else s)
  end.

Definition after_persist_epoch (e : Z) (tid : nat) (s : md) : outcome md :=
  match tab_get (has_write_op s) (win (e +₆ 1)) tid with
  | None => Throw (UB "has_write_op[e+1][tid]")
  | Some x =>
      match change (if 0 <? x then e +₆ 1 else UINT64_MAX) tid s with
      | Throw err => Throw err
      | Ret s1 =>
          match tab_get (has_write_op s1) (win e) tid with
          | None => Throw (UB "has_write_op[e][tid]")
          | Some y => Ret (if y =? 1 then set_flag e tid 0 s1 else s1)
          end
      end
  end.

(** The loop of [next_thread_to_persist(val, curr)] at the node [b :: p] of the
    path, [from] being the variable of that name. *)
Fixpoint search_from (p : addr) (from : bool) (val : Z) (s : md) : option (option nat) :=
  let up := match p with [] => Some None | seq :: p' => search_from p' seq val s end in
  if v (marked_val s p) <? val then
    match find_next_thread_le (height (view s)) (negb from :: p) val (view s) with
    | Some (Some ret) => Some (Some ret)
    | Some None => up
    | None => None
    end
  else up.

(** [paths[curr]] does not contain the leaf, so [paths[curr].size()-2] is the
    node above the parent, while [from] is the [seq] of the leaf. *)
Definition next_thread_to_persist (val : Z) (curr : nat) (s : md) : outcome (option nat) :=
  match m_leaves s !! curr with
  | None => Throw (UB "leaves[curr]")
  | Some l =>
      if v (marked_val s l) <=? val then Ret (Some curr)
      else match l with
           | from :: _ :: p => match search_from p from val s with
                               | Some r => Ret r
                               | None => Throw (UB "out of fuel")
                               end
           | _ => Ret None
           end
  end.

(** [while (root->marked_val.load().get_val() <= val)] *)
Definition next_thread_to_persist1 (fuel : nat) (val : Z) (s : md) : option (option nat) :=
  IncreasingMindicator.next_thread_to_persist1 fuel val (view s).

Definition next_epoch_to_persist (tid : nat) (s : md) : outcome Z :=
  match m_leaves s !! tid with
  | None => Throw (UB "leaves[tid]")
  | Some l => Ret (if v (marked_val s l) =? UINT64_MAX then NULL_EPOCH else v (marked_val s l))
  end.

(** ** Values and dirty bits *)

Lemma land_1_mod x : Z.land x 1 = x mod 2.
Proof. exact (Z.land_ones x 1 ltac:(lia)). Qed.

Lemma counter_even x : (get_counter x +₆ 2) mod 2 = 0.
Proof.
  unfold get_counter, u64. change 1 with (Z.ones 1). rewrite Z.ldiff_ones_r, Z.shiftl_mul_pow2 by lia.
  change (2 ^ 1) with 2. set (y := Z.shiftr (mark x) 1).
  replace (y * 2 + 2) with ((y + 1) * 2) by lia. change U64 with (2 ^ 63 * 2).
  rewrite Z.mul_mod_distr_r by lia. apply Z.mod_mul. lia.
Qed.

Lemma prepare_dirty target old : is_dirty (prepare_mark target old) = is_dirty target.
Proof.
  unfold is_dirty, prepare_mark. simpl. rewrite Z.land_lor_distr_l, <- Z.land_assoc.
  rewrite (land_1_mod (_ +₆ _)), counter_even, Z.lor_0_r. done.
Qed.
Lemma marked_dirty x d : is_dirty (marked x d) = d.
Proof. by destruct d. Qed.

Definition V (s : md) (a : addr) : Z := v (marked_val s a).
Definition D (s : md) (a : addr) : bool := is_dirty (marked_val s a).

Lemma V_CAS a old x s b : V (CAS_val a old x s) b = if decide (a = b) then v x else V s b.
Proof.
  unfold V, CAS_val, set_mv. simpl. case_decide; [subst; by rewrite fn_lookup_insert|by rewrite fn_lookup_insert_ne].
Qed.
Lemma D_CAS a old x s b : D (CAS_val a old x s) b = if decide (a = b) then is_dirty x else D s b.
Proof.
  unfold D, CAS_val, set_mv. simpl. case_decide; [|by rewrite fn_lookup_insert_ne].
  subst. rewrite fn_lookup_insert. apply prepare_dirty.
Qed.

(** [q] is a proper ancestor of [a]. *)
Definition above (q a : addr) : Prop := ∃ b, b :: q `suffix_of` a.

Lemma above_nil q : ¬ above q [].
Proof. intros [b H%suffix_nil_inv]. done. Qed.
Lemma above_cons q b p : above q (b :: p) ↔ q = p ∨ above q p.
Proof.
  split.
  - intros [c Hs]. apply suffix_below in Hs as [[= -> ->]|Hs]; [by left|right; by exists c].
  - intros [->|[c Hs]]; [by exists b|]. exists c. by apply suffix_cons_r.
Qed.
Lemma above_irrefl q : ¬ above q q.
Proof. intros [b H]. by eapply suffix_cons_not. Qed.
Lemma above_trans q p b : above q p → above q (b :: p).
Proof. rewrite above_cons. by right. Qed.

Lemma above_up b q p : above (b :: q) p → above q p.
Proof. intros [c Hs]. exists b. by eapply suffix_cons_l. Qed.

(** Values that decrease upwards. *)
Lemma above_le (f : addr → Z) b p q :
  (∀ c r, above (c :: r) (b :: p) → f r ≤ f (c :: r)) → above q (b :: p) → f q ≤ f p.
Proof.
  intros Hm [->|Hq]%above_cons; [done|]. induction p as [|c p IH]; [by apply above_nil in Hq|].
  transitivity (f p); [|apply Hm; exists b; done]. apply above_cons in Hq as [->|Hq]; [done|].
  apply IH; [|done]. intros d r [Heq|Hr]%above_cons; apply Hm, above_trans, above_cons; [left; congruence|by right].
Qed.

(** The nodes above the changed ones do not matter. *)
Record unchanged (P : addr → Prop) (s s' : md) : Prop := {
  fr_leaves : m_leaves s' = m_leaves s;
  fr_flags : has_write_op s' = has_write_op s;
  fr_V : ∀ q, ¬ P q → V s' q = V s q;
  fr_D : ∀ q, ¬ P q → D s' q = D s q;
}.

Lemma unchanged_CAS (P : addr → Prop) a old x s : P a → unchanged P s (CAS_val a old x s).
Proof.
  intros Ha. constructor; [done|done|..]; intros q Hq.
  - rewrite V_CAS. case_decide; [by subst|done].
  - rewrite D_CAS. case_decide; [by subst|done].
Qed.
Lemma unchanged_refl (P : addr → Prop) s : unchanged P s s.
Proof. by constructor. Qed.
Lemma unchanged_trans (P : addr → Prop) s1 s2 s3 : unchanged P s1 s2 → unchanged P s2 s3 → unchanged P s1 s3.
Proof. intros [H1 H2 H3 H4] [H5 H6 H7 H8]. constructor; [congruence..| |]; intros q Hq; by rewrite ?H7, ?H3, ?H8, ?H4. Qed.
Lemma unchanged_weaken (P Q : addr → Prop) s s' : (∀ q, P q → Q q) → unchanged P s s' → unchanged Q s s'.
Proof. intros HPQ [H1 H2 H3 H4]. constructor; auto. Qed.

(** ** arrive: the ancestors take the smaller value *)

Lemma arrive_cons val b p s :
  arrive val (b :: p) s =
    let '(done, s1) := propagate val p s in if done then clean val p s1 else clean val p (arrive val p s1).
Proof.
  unfold arrive. simpl. destruct (propagate val p s) as [[] s1]; [done|].
  destruct (propagate_up val p s1) as [s2 l]. by rewrite foldl_app.
Qed.

Lemma arrive_ok val a : ∀ s,
  (∀ b q, above (b :: q) a → V s q ≤ V s (b :: q)) → (∀ q, above q a → D s q = false) →
  unchanged (λ q, above q a) s (arrive val a s) ∧
  ∀ q, above q a → V (arrive val a s) q = Z.min (V s q) val ∧ D (arrive val a s) q = false.
Proof.
  induction a as [|b p IH]; intros s Hmono Hclean.
  { split; [apply unchanged_refl|]. intros q []%above_nil. }
  rewrite arrive_cons. unfold propagate. fold (V s p) (D s p).
  assert (above p (b :: p)) as Hp by (apply above_cons; by left).
  destruct (Z.ltb_spec val (V s p)) as [Hlt|Hge].
  - set (s1 := CAS_val p _ _ s). destruct (IH s1) as [Hfr Hval].
    { intros c q Hs. unfold s1. rewrite !V_CAS, !decide_False.
      - by apply Hmono, above_trans.
      - intros Heq. rewrite <- Heq in Hs. by apply above_irrefl in Hs.
      - intros Heq. apply above_up in Hs. rewrite <- Heq in Hs. by apply above_irrefl in Hs. }
    { intros q Hq. unfold s1. rewrite D_CAS. case_decide; [subst; by apply above_irrefl in Hq|].
      apply Hclean. by apply above_trans. }
    assert (V (arrive val p s1) p = val ∧ D (arrive val p s1) p = true) as [HV HD].
    { rewrite (fr_V _ _ _ Hfr), (fr_D _ _ _ Hfr) by apply above_irrefl. unfold s1. rewrite V_CAS, D_CAS, !decide_True by done.
      split; [done|apply marked_dirty]. }
    unfold clean. fold (V (arrive val p s1) p) (D (arrive val p s1) p). rewrite HV, HD, Z.eqb_refl. simpl.
    split.
    + eapply unchanged_trans; [by apply unchanged_CAS|]. eapply unchanged_trans; [|by apply unchanged_CAS].
      eapply unchanged_weaken; [|exact Hfr]. intros q. apply above_trans.
    + intros q Hq. rewrite V_CAS, D_CAS. case_decide as Hpq; [subst; rewrite marked_dirty; simpl; split; [lia|done]|].
      apply above_cons in Hq as [->|Hq]; [done|]. destruct (Hval q Hq) as [-> ->]. unfold s1. rewrite V_CAS, decide_False by done.
      done.
  - rewrite (Hclean p Hp). set (s1 := CAS_val p _ _ s).
    assert (∀ q, V s1 q = V s q ∧ D s1 q = D s q) as Hs1.
    { intros q. unfold s1. rewrite V_CAS, D_CAS. case_decide; by subst. }
    assert (clean val p s1 = s1) as ->.
    { unfold clean. fold (V s1 p) (D s1 p). destruct (Hs1 p) as [_ ->]. rewrite (Hclean p Hp). by rewrite andb_false_r. }
    split; [by apply unchanged_CAS|]. intros q Hq. destruct (Hs1 q) as [-> ->]. split; [|by apply Hclean].
    pose proof (above_le (V s) b p q Hmono Hq). lia.
Qed.

(** ** depart: the ancestors become the minima again *)

(** [V s q] is the minimum of the children of [q]. *)
Definition is_min (s : md) (q : addr) : Prop := V s q = Z.min (V s (false :: q)) (V s (true :: q)).

Lemma min_children (f : addr → Z) b q :
  Z.min (f (false :: q)) (f (true :: q)) = Z.min (f (b :: q)) (f (negb b :: q)).
Proof. destruct b; simpl; lia. Qed.

Lemma sibling_not_above b p a : b :: p `suffix_of` a → ¬ above (negb b :: p) a ∧ negb b :: p ≠ a.
Proof.
  intros Hs.
  assert (¬ negb b :: p `suffix_of` a) as Hno.
  { intros Hs'. destruct Hs as [k ->], Hs' as [k' Hk]. assert (length k = length k') as Hl.
    { apply (f_equal length) in Hk. rewrite !length_app in Hk. simpl in Hk. lia. }
    apply app_inj_1 in Hk as [_ [= Hb]]; [|done]. by destruct b. }
  split; [|intros <-; by apply Hno]. intros [c Hc]. apply Hno. by eapply suffix_cons_l.
Qed.

Section depart.
Context (V0 : addr → Z) (old val : Z).

(** Between the value of [a] before the change and now. *)
Definition moved (s : md) (a : addr) : Prop :=
  V s a = Z.min (V0 a) val ∨ V0 a = old ∧ old < val ∧ old ≤ V s a.

(** The ancestors of [a] after [arrive]; what is beside the path is unchanged. *)
Record waiting (a : addr) (s : md) : Prop := {
  wt_V : ∀ q, above q a → V s q = Z.min (V0 q) val;
  wt_D : ∀ q, above q a → D s q = false;
  wt_sib : ∀ c q, c :: q `suffix_of` a → V s (negb c :: q) = V0 (negb c :: q);
  wt_old : ∀ c q, c :: q `suffix_of` a → V0 q = Z.min (V0 (c :: q)) (V0 (negb c :: q));
}.

(** When a value is final, so are those above it. *)
Lemma waiting_exact p s :
  waiting p s → V s p = Z.min (V0 p) val → ∀ q, above q p → is_min s q.
Proof.
  intros [H1 H2 H3 H4] Hp q [c Hs]. unfold is_min. rewrite (min_children _ c), (H3 c q), (H1 q), (H4 c q) by (done || by exists c).
  destruct (decide (c :: q = p)) as [<-|Hne]; [lia|]. apply suffix_strict in Hs as [d Hd]; [|done].
  rewrite (H1 (c :: q)) by (by exists d). lia.
Qed.

Lemma depart_ok a : ∀ s,
  waiting a s → moved s a →
  unchanged (λ q, above q a) s (depart old a s) ∧
  ∀ q, above q a → is_min (depart old a s) q ∧ D (depart old a s) q = false.
Proof.
  induction a as [|b p IH]; intros s Hw Hm.
  { split; [apply unchanged_refl|]. intros q []%above_nil. }
  pose proof Hw as [H1 H2 H3 H4]. assert (above p (b :: p)) as Hp by (apply above_cons; by left).
  simpl. unfold summarize. fold (V s p) (D s p) (V s (false :: p)) (V s (true :: p)).
  rewrite (H2 p Hp), (H1 p Hp), (min_children _ b), (H3 b p) by done. set (cm := Z.min (V s (b :: p)) (V0 (negb b :: p))).
  pose proof (H4 b p ltac:(done)) as H4p. assert (Z.min (V0 p) val ≤ cm) as Hle by (destruct Hm as [Hm|Hm]; unfold cm; lia).
  destruct (Z.ltb_spec cm (Z.min (V0 p) val)) as [|_]; [lia|]. simpl. set (s1 := CAS_val p _ _ s).
  assert (V s1 p = cm) as HVp by (unfold s1; by rewrite V_CAS, decide_True).
  assert (∀ q, q ≠ p → V s1 q = V s q) as HVq by (intros q Hq; unfold s1; by rewrite V_CAS, decide_False).
  assert (∀ q, D s1 q = false ∨ D s1 q = D s q ∧ q ≠ p) as HD.
  { intros q. unfold s1. rewrite D_CAS. case_decide; [left; apply marked_dirty|by right]. }
  assert (unchanged (λ q, above q (b :: p)) s s1) as Hfr by (by apply unchanged_CAS).
  assert (is_min s1 p) as Hminp.
  { unfold is_min. rewrite HVp, (min_children _ b), !HVq, (H3 b p); [done|done|..]; intros Heq; apply (f_equal length) in Heq; simpl in Heq; lia. }
  assert (waiting p s1) as Hw1.
  { constructor.
    - intros q Hq. rewrite HVq by (intros ->; by apply above_irrefl in Hq). by apply H1, above_trans.
    - intros q Hq. destruct (HD q) as [|[-> _]]; [done|]. by apply H2, above_trans.
    - intros c q Hq. rewrite HVq; [by apply H3, suffix_cons_r|]. apply sibling_not_above, Hq.
    - intros c q Hq. by apply H4, suffix_cons_r. }
  assert (D s1 p = false) as HDp by (destruct (HD p) as [|[_ ?]]; done).
  assert (moved s1 p) as Hm1 by (unfold moved; rewrite HVp; destruct Hm as [Hm|Hm]; unfold cm in *; lia).
  destruct (Z.ltb_spec (Z.min (V0 p) val) old) as [Hlt|Hge].
  - split; [done|]. intros q [->|Hq]%above_cons; [done|]. split; [|by apply (wt_D _ _ Hw1)].
    apply (waiting_exact p); [done| |done]. destruct Hm1 as [?|[? ?]]; [done|lia].
  - destruct (IH s1 Hw1 Hm1) as [Hfr2 Hq2]. split.
    + eapply unchanged_trans; [exact Hfr|]. eapply unchanged_weaken; [|exact Hfr2]. intros q. apply above_trans.
    + intros q [->|Hq]%above_cons; [|by apply Hq2]. rewrite (fr_D _ _ _ Hfr2) by apply above_irrefl. split; [|done].
      unfold is_min. rewrite !(fr_V _ _ _ Hfr2); [done|..].
      * intros Ha. apply above_up in Ha. by apply above_irrefl in Ha.
      * intros Ha. apply above_up in Ha. by apply above_irrefl in Ha.
      * apply above_irrefl.
Qed.
End depart.

(** ** change: the tree holds the exact minima *)

Record exact (s : md) : Prop := {
  ex_code : code (m_leaves s);
  ex_min : ∀ b p, node (m_leaves s) (b :: p) → is_min s p ∧ D s p = false;
}.

Lemma exact_le s b p : exact s → node (m_leaves s) (b :: p) → V s p ≤ V s (b :: p).
Proof. intros He Hn. destruct (ex_min _ He b p Hn) as [-> _]. rewrite (min_children _ b). lia. Qed.

(** The leaf [l] has changed, and [arrive] has been up: what [depart] starts with. *)
Lemma arrive_waiting s s1 l val :
  exact s → l ∈ m_leaves s → unchanged (eq l) s s1 → waiting (V s) val l (arrive val l s1) ∧
    unchanged (λ q, above q l) s1 (arrive val l s1).
Proof.
  intros He Hl Hfr. assert (∀ q, above q l → l ≠ q) as Hne by (intros q Hq <-; by apply above_irrefl in Hq).
  assert (∀ q, above q l → ∃ b, node (m_leaves s) (b :: q)) as Hnode by (intros q [b Hs]; exists b; by exists l).
  destruct (arrive_ok val l s1) as [Hfr2 Hup].
  { intros b q Hq. pose proof (above_up _ _ _ Hq) as Hq2. rewrite !(fr_V _ _ _ Hfr) by (by apply Hne).
    apply exact_le; [done|]. destruct (Hnode _ Hq) as [c Hn]. by eapply node_up. }
  { intros q Hq. rewrite (fr_D _ _ _ Hfr) by (by apply Hne). destruct (Hnode _ Hq) as [b Hn]. by apply (ex_min _ He b). }
  split; [|done]. constructor.
  - intros q Hq. destruct (Hup q Hq) as [-> _]. rewrite (fr_V _ _ _ Hfr); [done|by apply Hne].
  - intros q Hq. by apply Hup.
  - intros c q Hs. destruct (sibling_not_above _ _ _ Hs) as [Hno Hne2].
    rewrite (fr_V _ _ _ Hfr2), (fr_V _ _ _ Hfr) by done. done.
  - intros c q Hs. rewrite <- (min_children (V s) c). apply (ex_min _ He c). by exists l.
Qed.

Lemma change_ok s tid l val :
  exact s → m_leaves s !! tid = Some l →
  ∃ s', change val tid s = Ret s' ∧ exact s' ∧ m_leaves s' = m_leaves s ∧ has_write_op s' = has_write_op s ∧
    V s' l = val ∧ ∀ l', l' ∈ m_leaves s → l' ≠ l → V s' l' = V s l'.
Proof.
  intros He Htid. assert (l ∈ m_leaves s) as Hl by (by eapply list_elem_of_lookup_2).
  unfold change. rewrite Htid. fold (V s l). destruct (Z.eqb_spec (V s l) val) as [Heq|Hneq]; [by exists s|].
  set (s1 := CAS_val l _ _ s). assert (unchanged (eq l) s s1) as Hfr by (by apply unchanged_CAS).
  assert (V s1 l = val) as HV1 by (unfold s1; by rewrite V_CAS, decide_True).
  destruct (arrive_waiting s s1 l val He Hl Hfr) as [Hw Hfr2]. set (s2 := arrive val l s1) in *.
  assert (V s2 l = val) as HV2 by (by rewrite (fr_V _ _ _ Hfr2) by apply above_irrefl).
  destruct (depart_ok (V s) (V s l) val l s2 Hw) as [Hfr3 Hmin]; [unfold moved; lia|].
  set (s3 := depart (V s l) l s2) in *. eexists. split; [done|].
  assert (m_leaves s3 = m_leaves s ∧ has_write_op s3 = has_write_op s) as [Hls Hfl].
  { destruct Hfr3 as [-> -> _ _], Hfr2 as [-> -> _ _]. done. }
  assert (∀ q, l ≠ q → ¬ above q l → V s3 q = V s q ∧ D s3 q = D s q) as Hsame.
  { intros q H1 H2. rewrite (fr_V _ _ _ Hfr3), (fr_D _ _ _ Hfr3), (fr_V _ _ _ Hfr2), (fr_D _ _ _ Hfr2) by done.
    by rewrite (fr_V _ _ _ Hfr), (fr_D _ _ _ Hfr). }
  assert (∀ q l', l' ∈ m_leaves s → l ∈ m_leaves s → above q l → q ≠ l') as Hleaf.
  { intros q l' Hl' _ [b Hs] ->. apply (node_inner (m_leaves s) b l' (ex_code _ He)); [by exists l|done]. }
  split_and!; [|done|done|by rewrite (fr_V _ _ _ Hfr3) by apply above_irrefl|].
  - constructor; rewrite Hls; [apply He|]. intros b p Hn.
    assert (l ≠ p) as Hlp by (intros ->; by eapply node_inner; [apply He| |]).
    destruct (decide (Exists (λ c, c :: p `suffix_of` l) [false; true])) as [Hab|Hno].
    { apply Hmin. apply Exists_exists in Hab as (c & _ & Hc). by exists c. }
    assert (¬ above p l) as Hnp by (intros [c Hc]; apply Hno, Exists_exists; exists c; split; [destruct c; set_solver|done]).
    assert (∀ c, V s3 (c :: p) = V s (c :: p)) as Hch.
    { intros c. apply Hsame; [intros Heq; apply Hnp; by exists c; rewrite Heq|]. intros Ha. by apply above_up in Ha. }
    destruct (Hsame p Hlp Hnp) as [HV HD]. destruct (ex_min _ He b p Hn) as [Hm HDp].
    unfold is_min. by rewrite HV, HD, !Hch.
  - intros l' Hl' Hne. apply Hsame; [done|]. intros Ha. by eapply Hleaf.
Qed.

(** ** The operations of a tracker *)

Inductive mop : Type := FirstWrite (e : Z) (tid : nat) | AfterPersist (e : Z) (tid : nat).
Definition mop_tid (o : mop) : nat := match o with FirstWrite _ t | AfterPersist _ t => t end.

Definition mop_step (o : mop) (s : md) : outcome md :=
  match o with
  | FirstWrite e tid => first_write_on_new_epoch e tid s
  | AfterPersist e tid => after_persist_epoch e tid s
  end.
Fixpoint mop_run (os : list mop) (s : md) : outcome md :=
  match os with
  | [] => Ret s
  | o :: os' => match mop_step o s with Ret s' => mop_run os' s' | Throw e => Throw e end
  end.

(** [n] threads, the unused leaf of an odd number of threads last. *)
Record md_ok (n : nat) (s : md) : Prop := {
  mk_exact : exact s;
  mk_leaves : length (m_leaves s) = even_cnt n;
  mk_flags : tab_dims n (has_write_op s);
  mk_unused : ∀ t l, m_leaves s !! t = Some l → (n ≤ t)%nat → V s l = UINT64_MAX;
}.

Lemma md_new_ok n : (0 < n)%nat → ∃ s, md_new n = Ret s ∧ md_ok n s.
Proof.
  intros Hn. unfold md_new. destruct (Nat.eqb_spec n 0); [lia|].
  assert (2 ≤ even_cnt n ∧ Nat.even (even_cnt n) = true)%nat as [H2 Hev].
  { unfold even_cnt. destruct (Nat.odd n) eqn:Ho.
    - split; [lia|]. by rewrite Nat.even_succ.
    - split; [|by rewrite <- Nat.negb_odd, Ho]. destruct n as [|[|n]]; [lia|done|lia]. }
  destruct (build_spec (even_cnt n) H2 Hev) as (slots & -> & Hc & Hl). eexists. split; [done|].
  rewrite take_ge by lia. constructor; simpl; [|done|apply tab_dims_new|done].
  constructor; simpl; [done|]. intros b p _. by vm_compute.
Qed.

Lemma change_md_ok n s tid val :
  md_ok n s → (tid < n)%nat → ∃ s', change val tid s = Ret s' ∧ md_ok n s'.
Proof.
  intros [He Hl Hf Hu] Ht. assert (n ≤ even_cnt n)%nat by (unfold even_cnt; destruct (Nat.odd n); lia).
  destruct (lookup_lt_is_Some_2 (m_leaves s) tid) as [l Hlt]; [lia|].
  destruct (change_ok s tid l val He Hlt) as (s' & Hc & He' & Hls & Hfl & _ & Hoth). exists s'. split; [done|].
  constructor; rewrite ?Hls, ?Hfl; try done. intros t l' Ht' Hge. rewrite Hoth.
  - by eapply Hu.
  - by eapply list_elem_of_lookup_2.
  - intros ->. pose proof (NoDup_lookup _ _ _ _ (code_nodup _ (ex_code _ He)) Ht' Hlt). lia.
Qed.

Lemma set_flag_ok n c tid x s : md_ok n s → md_ok n (set_flag c tid x s).
Proof.
  intros [He Hl Hf Hu]. constructor; simpl; [|done|by apply tab_dims_set|done].
  destruct He as [Hc Hm]. constructor; [done|]. exact Hm.
Qed.

Lemma mop_step_ok n s o :
  md_ok n s → (mop_tid o < n)%nat → ∃ s', mop_step o s = Ret s' ∧ md_ok n s'.
Proof.
  intros Hok Ht. pose proof (mk_flags _ _ Hok) as Hf. destruct o as [e tid|e tid]; simpl in *.
  - unfold first_write_on_new_epoch. destruct (tab_dims_get n _ (win e) tid Hf (win_lt e) Ht) as [x ->].
    eexists. split; [done|]. destruct (x =? 0); [by apply set_flag_ok|done].
  - unfold after_persist_epoch. destruct (tab_dims_get n _ (win (e +₆ 1)) tid Hf (win_lt _) Ht) as [x ->].
    destruct (change_md_ok n s tid (if 0 <? x then e +₆ 1 else UINT64_MAX) Hok Ht) as (s1 & -> & Hok1).
    destruct (tab_dims_get n _ (win e) tid (mk_flags _ _ Hok1) (win_lt e) Ht) as [y ->].
    eexists. split; [done|]. destruct (y =? 1); [by apply set_flag_ok|done].
Qed.

Lemma mop_run_ok n os : ∀ s,
  md_ok n s → Forall (λ o, mop_tid o < n)%nat os → ∃ s', mop_run os s = Ret s' ∧ md_ok n s'.
Proof.
  induction os as [|o os IH]; intros s Hok Hos; simpl; [by exists s|]. apply Forall_cons in Hos as [Ho Hos].
  destruct (mop_step_ok n s o Hok Ho) as (s1 & -> & Hok1). by apply IH.
Qed.

Lemma exact_heap s : exact s → heap (m_leaves s) (V s).
Proof. intros He b p Hn. by apply exact_le. Qed.

(** A node's value is the value of a leaf below it. *)
Lemma exact_attained s : exact s → ∀ k n, node (m_leaves s) n → (height (view s) ≤ length n + k)%nat →
  ∃ l, l ∈ m_leaves s ∧ n `suffix_of` l ∧ V s l = V s n.
Proof.
  intros He. induction k as [|k IH]; intros n Hn Hk.
  { destruct Hn as (l & Hl & Hs). pose proof (height_bound l (view s) Hl). apply suffix_length in Hs. lia. }
  pose proof Hn as (l & Hl & Hs). destruct (decide (n = l)) as [->|Hne]; [by exists l|].
  assert (∀ b, node (m_leaves s) (b :: n)) as Hch by (intros b; by apply (code_full _ (ex_code _ He) l)).
  destruct (ex_min _ He false n (Hch false)) as [Hm _].
  assert (∃ b, V s n = V s (b :: n)) as [b Hb].
  { unfold is_min in Hm. destruct (Z.min_spec (V s (false :: n)) (V s (true :: n))) as [[_ ?]|[_ ?]];
      [exists false|exists true]; congruence. }
  destruct (IH (b :: n) (Hch b)) as (l' & Hl' & Hs' & Hv); [simpl; lia|]. exists l'. split_and!; [done| |congruence].
  by eapply suffix_cons_l.
Qed.

(** C31. [Mindicator] finds the threads that lag behind.  For any number of
    threads and after any sequence of first writes and persisted epochs, the
    root of the tree holds the minimum over the threads of the oldest epoch they
    still have to persist, and [next_thread_to_persist(val)] ends: it returns a
    thread whose epoch is at most [val], or -1 when there is none. *)
Theorem mindicator_exact (n : nat) (os : list mop) (val : Z) :
  (0 < n)%nat → Forall (λ o, mop_tid o < n)%nat os → val < UINT64_MAX →
  ∃ s0 s r, md_new n = Ret s0 ∧ mop_run os s0 = Ret s ∧
    (∀ t l, m_leaves s !! t = Some l → V s [] ≤ V s l) ∧ (∃ t l, m_leaves s !! t = Some l ∧ V s l = V s []) ∧
    next_thread_to_persist1 1 val s = Some r ∧
    match r with
    | Some t => (t < n)%nat ∧ ∃ l, m_leaves s !! t = Some l ∧ V s l ≤ val
    | None => ∀ t l, m_leaves s !! t = Some l → val < V s l
    end.
Proof.
  intros Hn Hos Hval. destruct (md_new_ok n Hn) as (s0 & Hs0 & Hok0). destruct (mop_run_ok n os s0 Hok0 Hos) as (s & Hs & Hok).
  pose proof (mk_exact _ _ Hok) as He. pose proof (exact_heap s He) as Hh.
  assert (∀ t l, m_leaves s !! t = Some l → V s [] ≤ V s l) as Hlow.
  { intros t l Ht. apply (heap_lower_bound (m_leaves s)); [done|by eapply list_elem_of_lookup_2|apply suffix_nil]. }
  assert (node (m_leaves s) []) as Hroot.
  { destruct (m_leaves s) as [|l L] eqn:HL; [|exists l; split; [set_solver|apply suffix_nil]].
    pose proof (mk_leaves _ _ Hok) as Hlen. rewrite HL in Hlen. unfold even_cnt in Hlen. destruct (Nat.odd n); simpl in *; lia. }
  destruct (exact_attained s He (height (view s)) [] Hroot) as (lm & Hlm & _ & Hvm); [lia|].
  apply list_elem_of_lookup in Hlm as [tm Htm].
  destruct (find_next_spec (view s) val (ex_code _ He) Hh (height (view s)) []) as (r & Hfind & Hr);
    [done|simpl; lia|unfold height; lia|].
  exists s0, s, (if V s [] <=? val then r else None). split; [done|]. split; [done|]. split; [done|]. split; [by exists tm, lm|].
  unfold next_thread_to_persist1. cbn [IncreasingMindicator.next_thread_to_persist1].
  change (IncreasingMindicator.val (view s) []) with (V s []). destruct (Z.leb_spec (V s []) val) as [Hle|Hgt].
  - rewrite Hfind. destruct r as [t|].
    + destruct Hr as (l & Hl & _ & Hv). split; [done|]. split; [|by exists l].
      destruct (decide (t < n)%nat); [done|]. pose proof (mk_unused _ _ Hok t l Hl ltac:(lia)) as Hun.
      simpl in Hv. fold (V s l) in Hv. lia.
    + exfalso. specialize (Hr lm). simpl in Hr. fold (V s lm) in Hr.
      specialize (Hr ltac:(by eapply list_elem_of_lookup_2) ltac:(apply suffix_nil)). lia.
  - split; [done|]. intros t l Ht. specialize (Hlow t l Ht). lia.
Qed.

Definition three_writers : list mop :=
  [FirstWrite 4 0; AfterPersist 3 0; FirstWrite 5 1; AfterPersist 4 1; AfterPersist 5 2; AfterPersist 4 0].

Lemma mindicator_exact_witness :
  ∃ s0 s r, md_new 3 = Ret s0 ∧ mop_run three_writers s0 = Ret s ∧
    (∀ t l, m_leaves s !! t = Some l → V s [] ≤ V s l) ∧ (∃ t l, m_leaves s !! t = Some l ∧ V s l = V s []) ∧
    next_thread_to_persist1 1 5 s = Some r ∧
    match r with
    | Some t => (t < 3)%nat ∧ ∃ l, m_leaves s !! t = Some l ∧ V s l ≤ 5
    | None => ∀ t l, m_leaves s !! t = Some l → 5 < V s l
    end.
Proof. apply (mindicator_exact 3 three_writers 5); [lia| |vm_compute; done]. repeat constructor; simpl; lia. Defined.

(** The search from a leaf misses the neighbour.  Two threads, of which the
    second has writes of epoch 4 to persist: the root knows it and the search
    from the root finds thread 1, but [next_thread_to_persist(val, 0)], which
    [on_epoch_end] calls, returns -1 for every epoch, because [paths] does not
    contain the leaf and the loop starts one node too high. *)
Theorem mindicator_misses_thread :
  ∃ s0 s, md_new 2 = Ret s0 ∧ mop_run [FirstWrite 4 1; AfterPersist 3 1] s0 = Ret s ∧
    V s [] = 4 ∧ next_epoch_to_persist 1 s = Ret 4 ∧ next_thread_to_persist1 1 4 s = Some (Some 1%nat) ∧
    ∀ val, 4 ≤ val < UINT64_MAX → next_thread_to_persist val 0 s = Ret None.
Proof.
  eexists _, _. split; [vm_compute; reflexivity|]. split; [vm_compute; reflexivity|].
  split; [vm_compute; reflexivity|]. split; [vm_compute; reflexivity|]. split; [vm_compute; reflexivity|].
  intros val Hval. unfold next_thread_to_persist. cbn [m_leaves lookup list_lookup].
  match goal with |- context [v ?x] => change (v x) with UINT64_MAX end.
  destruct (Z.leb_spec UINT64_MAX val); [lia|done].
Qed.
End Mindicator.
