(* ===== verification/RCUTracker.v ===== *)
(** * Epoch-based reclamation (src/utils/RCUTracker.hpp)

    The nonblocking structures unlink nodes while other threads may still hold
    pointers to them.  [RCUTracker] defers the destruction: a thread announces
    the epoch in which its operation started ([reservations]), a retired object
    is tagged with the epoch of its retirement, and [empty] destructs the
    objects of the calling thread whose tag is below every reservation.

    The tracker is shared, so the operations are given twice.  [start_op],
    [end_op], [retire] and [empty] are the methods, run without interference.
    [step] interleaves the threads at the granularity of the shared accesses:
    each load of [epoch], load or store of a reservation and [fetch_add] is a
    step of its own, and a thread's position inside a call is its [pc].
    [solo_retire] and [solo_empty] relate the two.

    The arrays [reservations], [retire_counters] and [retired], indexed by
    thread, are kept as one list of [slot]s; [destructed] logs the calls of
    [destruct] by the thread, [active] records that the thread is between
    [start_op] and [end_op]. *)

From S2P Require Import Prelude.

Module RCUTracker.

Inductive RCUType : Type := type_RCU | type_QSBR.

(** [destruct] is a [std::function]; it is kept as the name [d] of the deleter. *)
Record RCUInfo : Type := Info { obj : Z; iepoch : Z; destruct_ : Z }.

(** Where a thread is inside a call.  [PEmpty i m b] is the scan of [empty]
    before reading the reservation [i], [PSweep m k b] its loop over the trash
    at the position [k]; [b] says that [retire] called it. *)
Inductive pc : Type :=
  | PReady
  | PStarting (e : Z)
  | PEnding (e : Z)
  | PRetire (r : RCUInfo)
  | PPushed
  | PCollect
  | PEmpty (i : nat) (m : Z) (b : bool)
  | PSweep (m : Z) (k : nat) (b : bool).

Record slot : Type := Slot {
  reservation : Z;
  retire_counter : Z;
  retired : list RCUInfo;
  destructed : list RCUInfo;
  active : bool;
  at_ : pc;
}.

Record config : Type := Config {
  freq : Z;
  epochFreq : Z;
  collect : bool;
  type : RCUType;
}.

Record tracker : Type := Tracker { epoch : Z; slots : list slot }.

(** The constructor *)
Definition slot0 : slot := Slot UINT64_MAX 0 [] [] false PReady.
Definition new_tracker (task_num : nat) : tracker := Tracker 0 (replicate task_num slot0).

Definition upd (c : tracker) (tid : nat) (s : slot) : tracker :=
  Tracker (epoch c) (<[tid := s]> (slots c)).

Definition set_res (e : Z) (act : bool) (s : slot) : slot :=
  Slot e (retire_counter s) (retired s) (destructed s) act PReady.
Definition set_pc (p : pc) (s : slot) : slot :=
  Slot (reservation s) (retire_counter s) (retired s) (destructed s) (active s) p.
Definition set_active (act : bool) (p : pc) (s : slot) : slot :=
  Slot (reservation s) (retire_counter s) (retired s) (destructed s) act p.
Definition set_trash (l : list RCUInfo) (p : pc) (s : slot) : slot :=
  Slot (reservation s) (retire_counter s) l (destructed s) (active s) p.
(** [res.destruct(res.obj); iterator = myTrash->erase(iterator);] *)
Definition destruct_at (k : nat) (r : RCUInfo) (s : slot) : slot :=
  Slot (reservation s) (retire_counter s) (delete k (retired s)) (destructed s ++ [r])
       (active s) (at_ s).
(** The end of [empty]; [retire] then increments its counter. *)
Definition finish (b : bool) (s : slot) : slot :=
  Slot (reservation s) (if b then retire_counter s +₆ 1 else retire_counter s) (retired s)
       (destructed s) (active s) PReady.

(** ** The methods without interference *)

(** [for (i = 0; i < task_num; i++) if (res < minEpoch) minEpoch = res;] *)
Fixpoint min_epoch (l : list slot) (minEpoch : Z) : Z :=
  match l with
  | [] => minEpoch
  | s :: l' => min_epoch l' (if reservation s <? minEpoch then reservation s else minEpoch)
  end.

(** The loop over the trash: what is kept, what is destructed. *)
Fixpoint sweep (l : list RCUInfo) (minEpoch : Z) : list RCUInfo * list RCUInfo :=
  match l with
  | [] => ([], [])
  | r :: l' =>
      let '(keep, gone) := sweep l' minEpoch in
      if iepoch r <? minEpoch then (keep, r :: gone) else (r :: keep, gone)
  end.

Section Tracker.
Variable cfg : config.

Definition empty (tid : nat) (c : tracker) : option tracker :=
  s ← slots c !! tid;
  let '(keep, gone) := sweep (retired s) (min_epoch (slots c) UINT64_MAX) in
  Some (upd c tid (Slot (reservation s) (retire_counter s) keep (destructed s ++ gone)
                        (active s) (at_ s))).

Definition start_op (tid : nat) (c : tracker) : option tracker :=
  s ← slots c !! tid;
  match type cfg with
  | type_RCU => Some (upd c tid (set_res (epoch c) true s))
  | type_QSBR => Some (upd c tid (set_active true PReady s))
  end.

Definition end_op (tid : nat) (c : tracker) : option tracker :=
  s ← slots c !! tid;
  match type cfg with
  | type_RCU => Some (upd c tid (set_res UINT64_MAX false s))
  | type_QSBR => Some (upd c tid (set_res (epoch c) false s))
  end.

Definition reserve (tid : nat) (c : tracker) : option tracker := start_op tid c.
Definition clear (tid : nat) (c : tracker) : option tracker := end_op tid c.

Definition incrementEpoch (c : tracker) : tracker := Tracker (epoch c +₆ 1) (slots c).

Definition collecting : bool := collect cfg.

(** [n % d] on [uint64_t]; undefined when [d] is 0 *)
Definition umod (n d : Z) : option Z := if d =? 0 then None else Some (n mod d).

Definition retire (o : Z) (tid : nat) (d : Z) (c : tracker) : option tracker :=
  if o =? 0 then Some c
  else
    s ← slots c !! tid;
    let n := retire_counter s in
    let c := upd c tid (set_trash (retired s ++ [Info o (epoch c) d]) (at_ s) s) in
    k ← umod n (epochFreq cfg * Z.of_nat (length (slots c)));
    let c := if k =? 0 then Tracker (epoch c +₆ 1) (slots c) else c in
    c ← (if collect cfg
         then j ← umod n (freq cfg); if j =? 0 then empty tid c else Some c
         else Some c);
    s ← slots c !! tid;
    Some (upd c tid (Slot (reservation s) (n +₆ 1) (retired s) (destructed s) (active s) (at_ s))).

(** ** The methods interleaved *)

Inductive act : Type :=
  | Start
  | End
  | Retire (o d : Z)
  | Empty
  | IncrementEpoch
  | Go.

(** One step of the thread [tid]: call a method, or [Go] on with the call it is
    in.  [None]: the action is not possible here, or undefined. *)
Definition step (c : tracker) (tid : nat) (a : act) : option tracker :=
  s ← slots c !! tid;
  match at_ s, a with
  | PReady, Start =>
      if active s then None
      else match type cfg with
           | type_RCU => Some (upd c tid (set_pc (PStarting (epoch c)) s))
           | type_QSBR => Some (upd c tid (set_active true PReady s))
           end
  | PStarting e, Go => Some (upd c tid (set_res e true s))
  | PReady, End =>
      if active s then
        match type cfg with
        | type_RCU => Some (upd c tid (set_res UINT64_MAX false s))
        | type_QSBR => Some (upd c tid (set_active false (PEnding (epoch c)) s))
        end
      else None
  | PEnding e, Go => Some (upd c tid (set_res e false s))
  | PReady, Retire o d =>
      if o =? 0 then Some c else Some (upd c tid (set_pc (PRetire (Info o (epoch c) d)) s))
  | PRetire r, Go => Some (upd c tid (set_trash (retired s ++ [r]) PPushed s))
  | PPushed, Go =>
      k ← umod (retire_counter s) (epochFreq cfg * Z.of_nat (length (slots c)));
      let c := if k =? 0 then incrementEpoch c else c in
      Some (upd c tid (set_pc PCollect s))
  | PCollect, Go =>
      if collect cfg then
        j ← umod (retire_counter s) (freq cfg);
        Some (upd c tid (if j =? 0 then set_pc (PEmpty 0 UINT64_MAX true) s else finish true s))
      else Some (upd c tid (finish true s))
  | PReady, Empty => Some (upd c tid (set_pc (PEmpty 0 UINT64_MAX false) s))
  | PEmpty i m b, Go =>
      match slots c !! i with
      | Some s' =>
          let m' := if reservation s' <? m then reservation s' else m in
          Some (upd c tid (set_pc (PEmpty (S i) m' b) s))
      | None => Some (upd c tid (set_pc (PSweep m 0 b) s))
      end
  | PSweep m k b, Go =>
      match retired s !! k with
      | Some r =>
          if iepoch r <? m then Some (upd c tid (destruct_at k r s))
          else Some (upd c tid (set_pc (PSweep m (S k) b) s))
      | None => Some (upd c tid (finish b s))
      end
  | PReady, IncrementEpoch => Some (incrementEpoch c)
  | _, _ => None
  end.

Fixpoint run (c : tracker) (tr : list (nat * act)) : option tracker :=
  match tr with
  | [] => Some c
  | (tid, a) :: tr' => c' ← step c tid a; run c' tr'
  end.

End Tracker.

(** ** Invariant of the reachable states

    A reservation is [UINT64_MAX] or an epoch that has been reached; with
    [type_RCU] every thread inside an operation has one. *)

Definition slot_ok (cfg : config) (e : Z) (s : slot) : Prop :=
  (reservation s = UINT64_MAX ∨ reservation s ≤ e) ∧
  (type cfg = type_RCU → active s = true → reservation s ≤ e) ∧
  match at_ s with
  | PStarting x | PEnding x => active s = false ∧ x ≤ e
  | _ => True
  end.

Definition reach_inv (cfg : config) (n : Z) (c : tracker) : Prop :=
  0 ≤ epoch c ≤ n ∧ ∀ u s, slots c !! u = Some s → slot_ok cfg (epoch c) s.

Lemma slot_ok_mono cfg e e' s : slot_ok cfg e s → e ≤ e' → slot_ok cfg e' s.
Proof.
  intros (H1 & H2 & H3) Hle. split_and!; [lia| |destruct (at_ s); naive_solver lia].
  intros Ht Ha. specialize (H2 Ht Ha). lia.
Qed.

Lemma reach_inv_new cfg n : reach_inv cfg 0 (new_tracker n).
Proof.
  split; [simpl; lia|]. intros u s [-> _]%lookup_replicate_1.
  split_and!; [by left|done|done].
Qed.

(** Case analysis on a step [H] from the slot [s] of the thread. *)
Ltac step_cases H s :=
  unfold step in H; apply bind_Some in H as (s & Hs & H);
  destruct (at_ s) eqn:Hpc;
  repeat (case_match; simplify_eq/=);
  repeat (let k := fresh "k" in apply bind_Some in H as (k & ? & H); simplify_eq/=;
          repeat (case_match; simplify_eq/=)).

(** One step changes the slot of its thread and may advance the epoch; the new
    slot is again well formed. *)
Lemma step_slot cfg c tid a c' :
  step cfg c tid a = Some c' → 0 ≤ epoch c < UINT64_MAX →
  (∀ u s, slots c !! u = Some s → slot_ok cfg (epoch c) s) →
  ∃ s s', slots c !! tid = Some s ∧ slots c' = <[tid := s']> (slots c) ∧
    slot_ok cfg (epoch c') s' ∧ epoch c ≤ epoch c' ≤ epoch c + 1.
Proof.
  intros H He Hok.
  assert (epoch c +₆ 1 = epoch c + 1) as Hinc.
  { apply u64_small. unfold is_u64, UINT64_MAX in *. lia. }
  step_cases H s; pose proof (Hok _ _ Hs) as Hsok; exists s.
  all: eexists; (split; [done|]); (split; [done || (by rewrite list_insert_id)|]); simpl.
  all: destruct Hsok as (Hr1 & Hr2 & Hr3); rewrite ?Hpc in Hr3.
  all: split; [|lia].
  all: try (split_and!; simpl; naive_solver lia).
  - split_and!; simpl; [done|congruence|done].
  - rewrite Hinc. eapply slot_ok_mono; [by apply (Hok tid)|lia].
Qed.

Lemma step_inv cfg n c tid a c' :
  step cfg c tid a = Some c' → reach_inv cfg n c → n < UINT64_MAX → reach_inv cfg (n + 1) c'.
Proof.
  intros H [He Hok] Hn.
  destruct (step_slot _ _ _ _ _ H ltac:(lia) Hok) as (s & s' & Hs & Hsl & Hs' & Hle).
  split; [lia|]. intros u x. rewrite Hsl. intros [(<- & <- & _)|[_ Hx]]%list_lookup_insert_Some; [done|].
  eapply slot_ok_mono; [by eapply Hok|lia].
Qed.

Lemma run_inv cfg tr n c c' :
  run cfg c tr = Some c' → reach_inv cfg n c → n + Z.of_nat (length tr) ≤ UINT64_MAX →
  reach_inv cfg (n + Z.of_nat (length tr)) c'.
Proof.
  revert n c. induction tr as [|[u a] tr IH]; intros n c; simpl.
  - intros [= ->] Hi _. by rewrite Z.add_0_r.
  - intros (c1 & Hst & Hrun)%bind_Some Hi Hn.
    replace (n + Z.of_nat (S (length tr))) with ((n + 1) + Z.of_nat (length tr)) by lia.
    apply (IH _ c1); [done| |lia]. eapply step_inv; [done..|lia].
Qed.

(** ** The grace period

    [pending s]: what the thread has retired and not yet destructed, including
    the object of a [retire] that has read the epoch. *)
Definition pending (s : slot) : list RCUInfo :=
  retired s ++ match at_ s with PRetire r => [r] | _ => [] end.

Section Grace.
Context (cfg : config) (t : nat) (et : Z).
(** The trash [P u] and the destructions [D u] of each thread at the start. *)
Context (P D : nat → list RCUInfo).

(** Since the start the thread has destructed only objects [F] of the trash of
    the start, of which [O] is left; the objects [N] retired since have tags
    that the reservation of [t] protects, unless the thread passed [t] in a
    scan that started earlier, and then there are none. *)
Definition grace_slot (u : nat) (s : slot) : Prop :=
  ∃ F O N, destructed s = D u ++ F ∧ F ++ O ≡ₚ P u ∧ pending s = O ++ N ∧
    Forall (λ r, et ≤ iepoch r) N ∧
    match at_ s with
    | PEmpty i m _ => (t < i)%nat → m ≤ et ∨ N = []
    | PSweep m _ _ => m ≤ et ∨ N = []
    | _ => True
    end.

Definition grace (c : tracker) : Prop :=
  (∃ s, slots c !! t = Some s ∧ reservation s = et ∧ active s = true) ∧ et ≤ epoch c ∧
  ∀ u s, slots c !! u = Some s → grace_slot u s.

Lemma grace_start c s :
  slots c !! t = Some s → reservation s = et → active s = true → et ≤ epoch c →
  (∀ u s, slots c !! u = Some s → P u = pending s ∧ D u = destructed s) → grace c.
Proof.
  intros Ht Hr Ha He Hpd. split; [eauto|]. split; [done|]. intros u x Hx.
  destruct (Hpd u x Hx) as [HP HD]. exists [], (pending x), [].
  rewrite HP, HD, !app_nil_r. split_and!; [done..|by apply Forall_nil_2|].
  destruct (at_ x); auto.
Qed.

(** The thread [t] keeps its reservation as long as it does not call [end_op]. *)
Lemma step_keeps_reservation c tid a c' n :
  step cfg c tid a = Some c' → reach_inv cfg n c → (tid, a) ≠ (t, End) →
  (∃ s, slots c !! t = Some s ∧ reservation s = et ∧ active s = true) →
  ∃ s, slots c' !! t = Some s ∧ reservation s = et ∧ active s = true.
Proof.
  intros H [_ Hok] Hne (st & Ht & Hr & Ha).
  destruct (decide (tid = t)) as [->|Hd].
  - pose proof (Hok _ _ Ht) as (_ & _ & Hpc3).
    assert (t < length (slots c))%nat as Hlt by (by eapply lookup_lt_Some).
    step_cases H s.
    all: rewrite ?Hpc in Hpc3.
    all: try (by destruct Hpc3; congruence).
    all: try (eexists; split; [by apply list_lookup_insert_eq|]; done).
    all: try congruence.
    all: eauto.
  - step_cases H s.
    all: try (exists st; split; [by rewrite list_lookup_insert_ne|done]).
    all: eauto.
Qed.

(** Positions: a step that keeps the trash and destructs nothing. *)
Lemma grace_slot_quiet u s s' :
  grace_slot u s → destructed s' = destructed s → pending s' = pending s →
  (∀ N, Forall (λ r, et ≤ iepoch r) N →
    match at_ s with
    | PEmpty i m _ => (t < i)%nat → m ≤ et ∨ N = []
    | PSweep m _ _ => m ≤ et ∨ N = []
    | _ => True
    end →
    match at_ s' with
    | PEmpty i m _ => (t < i)%nat → m ≤ et ∨ N = []
    | PSweep m _ _ => m ≤ et ∨ N = []
    | _ => True
    end) → grace_slot u s'.
Proof.
  intros (F & O & N & HF & HO & Hp & HN & Hpc) Hd Hpe Hk. exists F, O, N.
  rewrite Hd, Hpe. split_and!; [done..|by apply Hk].
Qed.

(** [retire] reads the epoch: a new object, protected by the reservation. *)
Lemma grace_slot_retire u s r :
  grace_slot u s → at_ s = PReady → et ≤ iepoch r → grace_slot u (set_pc (PRetire r) s).
Proof.
  intros (F & O & N & HF & HO & Hp & HN & _) Hpc He. exists F, O, (N ++ [r]).
  unfold pending in *. rewrite Hpc in Hp. simpl. rewrite app_nil_r in Hp. rewrite Hp, app_assoc.
  split_and!; [done..|apply Forall_app; split; [done|by apply Forall_singleton]|done].
Qed.

(** [empty] destructs: only an object of the start can be below the minimum. *)
Lemma grace_slot_destruct u s m k b r :
  grace_slot u s → at_ s = PSweep m k b → retired s !! k = Some r → iepoch r < m →
  grace_slot u (destruct_at k r s).
Proof.
  intros (F & O & N & HF & HO & Hp & HN & Hm) Hpc Hk Hr.
  unfold pending in Hp. rewrite Hpc in Hp, Hm. rewrite app_nil_r in Hp. rewrite Hp in Hk.
  apply lookup_app_Some in Hk as [Hk|[Hge Hk]].
  - exists (F ++ [r]), (delete k O), N. unfold pending. simpl. rewrite Hpc, app_nil_r, Hp, HF.
    assert (k < length O)%nat by (by eapply lookup_lt_Some).
    split_and!; [by rewrite app_assoc| | |done|done].
    + rewrite <- HO, <- app_assoc. simpl. apply Permutation_app_head. symmetry.
      by apply delete_Permutation.
    + rewrite !delete_take_drop, take_app_le, drop_app_le, app_assoc by lia. done.
  - exfalso. destruct Hm as [Hm| ->]; [|done].
    pose proof (Forall_lookup_1 _ _ _ _ HN Hk) as Hle. simpl in Hle. lia.
Qed.

(** [empty] reads a reservation: once past [t] its minimum is at most [et]. *)
Lemma grace_slot_scan c u s i m m' b x st :
  grace_slot u s → at_ s = PEmpty i m b → slots c !! i = Some x → slots c !! t = Some st →
  reservation st = et → m' ≤ m → m' ≤ reservation x → grace_slot u (set_pc (PEmpty (S i) m' b) s).
Proof.
  intros Hg Hpc Hx Ht Hr Hm Hm'.
  eapply grace_slot_quiet; [exact Hg|done|unfold pending; by rewrite Hpc|]. simpl. rewrite Hpc.
  intros N _ Hold Hlt. destruct (decide (t = i)) as [->|Hne].
  - left. rewrite Hx in Ht. injection Ht as ->. lia.
  - destruct Hold as [Hle|Hn]; [lia|left; lia|by right].
Qed.

Lemma grace_step c tid a c' n :
  step cfg c tid a = Some c' → reach_inv cfg n c → n < UINT64_MAX → (tid, a) ≠ (t, End) →
  grace c → grace c'.
Proof.
  intros H Hi Hn Hne (Ht & He & Hall). pose proof Hi as [Hep Hok].
  destruct (step_slot _ _ _ _ _ H ltac:(lia) Hok) as (s0 & s0' & Hs0 & Hsl & _ & Hle).
  split; [by eapply step_keeps_reservation|]. split; [lia|].
  destruct Ht as (st & Ht & Hrt & _).
  assert (t < length (slots c))%nat as Hlt by (by eapply lookup_lt_Some).
  intros u x. rewrite Hsl. intros [(<- & <- & Hlu)|[_ Hx]]%list_lookup_insert_Some; [|by apply Hall].
  pose proof (Hall _ _ Hs0) as Hg. clear Hall.
  assert (slots c' !! tid = Some s0') as Hs0'.
  { rewrite Hsl. by apply list_lookup_insert_eq. }
  clear Hsl. step_cases H s.
  all: try (rewrite list_lookup_insert_eq in Hs0' by done; simplify_eq/=).
  all: try done.
  all: try (eapply grace_slot_quiet; [exact Hg|done|unfold pending; by rewrite Hpc|]; simpl;
            rewrite Hpc; intros; simpl; (done || lia)).
  - by apply grace_slot_retire.
  - eapply grace_slot_quiet; [exact Hg|done|unfold pending; rewrite Hpc; by rewrite app_nil_r|].
    simpl. by rewrite Hpc.
  - eapply (grace_slot_scan c); eauto with lia.
  - eapply (grace_slot_scan c); eauto with lia.
  - eapply grace_slot_quiet; [exact Hg|done|unfold pending; by rewrite Hpc|]. simpl. rewrite Hpc.
    intros N _ Hm. apply Hm. apply lookup_ge_None in H0. lia.
  - eapply grace_slot_destruct; [done..|lia].
Qed.

Lemma grace_run tr c c' n :
  run cfg c tr = Some c' → reach_inv cfg n c → n + Z.of_nat (length tr) ≤ UINT64_MAX →
  (t, End) ∉ tr → grace c → grace c'.
Proof.
  revert n c. induction tr as [|[u a] tr IH]; intros n c; simpl; [by intros [= ->]|].
  intros (c1 & Hst & Hrun)%bind_Some Hi Hn Hno Hg. rewrite not_elem_of_cons in Hno.
  apply (IH (n + 1) c1); [done|eapply step_inv; [done..|lia]|lia|naive_solver|].
  eapply grace_step; [done..|lia|naive_solver|done].
Qed.

End Grace.

(** C24. The grace period.  In every interleaving of the threads, from a
    moment when the thread [t] is inside an operation (for [type_QSBR]: not its
    first) and as long as it does not call [end_op], the only objects any
    thread destructs are objects already retired at that moment: whatever was
    retired later, and [t] may have reached before, stays intact. *)
Theorem rcu_grace_period (cfg : config) (n : nat) (tr1 tr2 : list (nat * act))
    (c1 c2 : tracker) (t : nat) (st : slot) :
  run cfg (new_tracker n) tr1 = Some c1 → slots c1 !! t = Some st → active st = true →
  (type cfg = type_QSBR → reservation st ≠ UINT64_MAX) →
  run cfg c1 tr2 = Some c2 → (t, End) ∉ tr2 → Z.of_nat (length (tr1 ++ tr2)) ≤ UINT64_MAX →
  ∀ u s s', slots c1 !! u = Some s → slots c2 !! u = Some s' →
    ∃ F, destructed s' = destructed s ++ F ∧ F ⊆+ pending s.
Proof.
  rewrite length_app. intros Hrun1 Ht Ha Hq Hrun2 Hno Hlen u s s' Hs Hs'.
  assert (reach_inv cfg (0 + Z.of_nat (length tr1)) c1) as Hi.
  { eapply run_inv; [done|apply reach_inv_new|lia]. }
  assert (reservation st ≤ epoch c1) as Hres.
  { destruct Hi as [_ Hok]. destruct (Hok _ _ Ht) as (H1 & H2 & _).
    destruct (type cfg); [by apply H2|]. destruct H1; naive_solver. }
  set (P := λ v, default [] (pending <$> slots c1 !! v)).
  set (D := λ v, default [] (destructed <$> slots c1 !! v)).
  destruct (grace_run cfg t (reservation st) P D tr2 c1 c2 _ Hrun2 Hi) as (_ & _ & Hall);
    [lia|done| |].
  { eapply grace_start; try done. intros v x Hx. unfold P, D. by rewrite Hx. }
  destruct (Hall u s' Hs') as (F & O & N & HD & HP & _). unfold P, D in *. rewrite Hs in HD, HP.
  exists F. split; [done|]. simpl in HP. rewrite <- HP. by apply submseteq_inserts_r.
Qed.

(** ** The steps of a thread that runs alone compute the methods *)

Section Solo.
Context (cfg : config) (tid : nat).

Notation go k := (replicate k (tid, Go)).

Lemma run_app tr1 tr2 c c1 : run cfg c tr1 = Some c1 → run cfg c (tr1 ++ tr2) = run cfg c1 tr2.
Proof.
  revert c. induction tr1 as [|[u a] tr1 IH]; intros c; simpl; [by intros [= ->]|].
  intros (c2 & Hst & Hrun)%bind_Some. rewrite Hst. simpl. by apply IH.
Qed.

Lemma run_cons a tr c c1 : step cfg c tid a = Some c1 → run cfg c ((tid, a) :: tr) = run cfg c1 tr.
Proof. intros H. simpl. by rewrite H. Qed.

Lemma upd_upd c s s' : upd (upd c tid s) tid s' = upd c tid s'.
Proof. unfold upd. simpl. by rewrite list_insert_insert_eq. Qed.

Lemma upd_lookup c s x : slots c !! tid = Some x → slots (upd c tid s) !! tid = Some s.
Proof. intros H. simpl. apply list_lookup_insert_eq. by eapply lookup_lt_Some. Qed.

(** The scan reads every reservation and computes their minimum. *)
Lemma solo_scan c s b k i m :
  slots c !! tid = Some s → (i + k = length (slots c))%nat →
  run cfg (upd c tid (set_pc (PEmpty i m b) s)) (go (S k)) =
    Some (upd c tid (set_pc (PSweep (min_epoch (drop i (slots c)) m) 0 b) s)).
Proof.
  intros Hs. revert i m. induction k as [|k IH]; intros i m Hi.
  - simpl. unfold step. rewrite (upd_lookup _ _ _ Hs). simpl.
    rewrite lookup_ge_None_2 by (rewrite length_insert; lia). simpl. rewrite upd_upd.
    by rewrite drop_ge by lia.
  - destruct (lookup_lt_is_Some_2 (slots c) i ltac:(lia)) as [x Hx].
    rewrite (drop_S _ _ _ Hx). simpl min_epoch. rewrite <- IH by lia.
    change (go (S (S k))) with ((tid, Go) :: go (S k)). cbn [run].
    assert (∃ y, slots (upd c tid (set_pc (PEmpty i m b) s)) !! i = Some y ∧
                 reservation y = reservation x) as (y & Hy & Hyr).
    { simpl. destruct (decide (tid = i)) as [<-|Hne].
      - eexists. split; [apply list_lookup_insert_eq; by eapply lookup_lt_Some|]. simpl. congruence.
      - exists x. by rewrite list_lookup_insert_ne. }
    unfold step at 1. rewrite (upd_lookup _ _ _ Hs). simpl in *. rewrite Hy, Hyr. simpl.
    by rewrite upd_upd.
Qed.

(** The loop over the trash keeps and destructs what [sweep] says. *)
Lemma solo_sweep c x res n act m b rest kept gone0 :
  slots c !! tid = Some x →
  run cfg (upd c tid (Slot res n (kept ++ rest) gone0 act (PSweep m (length kept) b)))
      (go (S (length rest))) =
    let '(keep, gone) := sweep rest m in
    Some (upd c tid (finish b (Slot res n (kept ++ keep) (gone0 ++ gone) act PReady))).
Proof.
  intros Hx. revert kept gone0. induction rest as [|r rest IH]; intros kept gone0.
  - simpl. unfold step. rewrite (upd_lookup _ _ _ Hx). simpl.
    rewrite lookup_ge_None_2 by (rewrite app_nil_r; lia). simpl. rewrite upd_upd.
    by rewrite !app_nil_r.
  - change (go (S (length (r :: rest)))) with ((tid, Go) :: go (S (length rest))).
    set (s0 := Slot res n (kept ++ r :: rest) gone0 act (PSweep m (length kept) b)).
    assert (step cfg (upd c tid s0) tid Go = Some (upd c tid
      (if iepoch r <? m then Slot res n (kept ++ rest) (gone0 ++ [r]) act (PSweep m (length kept) b)
       else Slot res n ((kept ++ [r]) ++ rest) gone0 act (PSweep m (length (kept ++ [r])) b))))
      as Hst.
    { unfold step. rewrite (upd_lookup _ _ _ Hx). simpl. rewrite list_lookup_middle by done.
      destruct (iepoch r <? m); rewrite upd_upd; [unfold destruct_at; simpl; by rewrite delete_middle|].
      unfold set_pc. simpl. rewrite length_app, <- app_assoc, Nat.add_1_r. done. }
    rewrite (run_cons _ _ _ _ Hst). simpl sweep. specialize (IH).
    destruct (sweep rest m) as [keep gone]. destruct (iepoch r <? m); rewrite IH, <- app_assoc; done.
Qed.

Lemma solo_empty c s b :
  slots c !! tid = Some s →
  run cfg (upd c tid (set_pc (PEmpty 0 UINT64_MAX b) s))
      (go (S (length (slots c)) + S (length (retired s)))) =
    let '(keep, gone) := sweep (retired s) (min_epoch (slots c) UINT64_MAX) in
    Some (upd c tid (finish b (Slot (reservation s) (retire_counter s) keep (destructed s ++ gone)
                                    (active s) PReady))).
Proof.
  intros Hs. rewrite replicate_add, (run_app _ _ _ _ (solo_scan c s b (length (slots c)) 0 _ Hs ltac:(lia))).
  rewrite drop_0. exact (solo_sweep c s _ _ _ _ b (retired s) [] _ Hs).
Qed.

(** A call of [retire] on a valid configuration, step by step. *)
Lemma solo_retire_due c s o d c1 :
  slots c !! tid = Some s → at_ s = PReady → o ≠ 0 →
  epochFreq cfg * Z.of_nat (length (slots c)) ≠ 0 → freq cfg ≠ 0 →
  c1 = (if retire_counter s mod (epochFreq cfg * Z.of_nat (length (slots c))) =? 0
        then incrementEpoch c else c) →
  let s1 := set_trash (retired s ++ [Info o (epoch c) d]) PCollect s in
  run cfg c ((tid, Retire o d) :: go 2) = Some (upd c1 tid s1) ∧
  step cfg (upd c1 tid s1) tid Go = Some (upd c1 tid
    (if collect cfg && (retire_counter s mod freq cfg =? 0) then set_pc (PEmpty 0 UINT64_MAX true) s1
     else finish true s1)).
Proof.
  intros Hs Hpc Ho Hef Hf Hc1 s1.
  assert (slots c1 = slots c) as Hsl by (subst c1; by case_match).
  assert (slots c1 !! tid = Some s) as Hs1 by (by rewrite Hsl). split.
  - set (s0 := set_pc (PRetire (Info o (epoch c) d)) s).
    set (s0' := set_trash (retired s ++ [Info o (epoch c) d]) PPushed s).
    change (go 2) with [(tid, Go); (tid, Go)]. rewrite (run_cons _ _ _ (upd c tid s0)).
    2: { unfold step. rewrite Hs. simpl. rewrite Hpc. by destruct (Z.eqb_spec o 0). }
    rewrite (run_cons _ _ _ (upd c tid s0')).
    2: { unfold step. rewrite (upd_lookup _ _ _ Hs). simpl. by rewrite upd_upd. }
    simpl. unfold step. rewrite (upd_lookup _ _ _ Hs). simpl. unfold umod. rewrite length_insert.
    destruct (Z.eqb_spec (epochFreq cfg * Z.of_nat (length (slots c))) 0); [done|]. simpl.
    subst c1. unfold upd, incrementEpoch. case_match; simpl; by rewrite list_insert_insert_eq.
  - unfold step. rewrite (upd_lookup _ _ _ Hs1). simpl. unfold umod.
    destruct (collect cfg); simpl; [|by rewrite upd_upd].
    destruct (Z.eqb_spec (freq cfg) 0); [done|]. simpl. case_match; by rewrite upd_upd.
Qed.

End Solo.

Lemma min_epoch_spec l m :
  min_epoch l m ≤ m ∧ Forall (λ s, min_epoch l m ≤ reservation s) l ∧
  (min_epoch l m = m ∨ Exists (λ s, min_epoch l m = reservation s) l).
Proof.
  revert m. induction l as [|s l IH]; intros m; simpl; [split_and!; [lia|by apply Forall_nil_2|by left]|].
  destruct (IH (if reservation s <? m then reservation s else m)) as (H1 & H2 & H3).
  set (k := min_epoch l _) in *. destruct (Z.ltb_spec (reservation s) m).
  - split_and!; [lia|by apply Forall_cons|]. right. destruct H3; [by left|by right].
  - split_and!; [lia|apply Forall_cons; split; [lia|done]|]. destruct H3; [by left|right; by right].
Qed.

Lemma sweep_spec l m :
  let '(keep, gone) := sweep l m in
  l ≡ₚ keep ++ gone ∧ Forall (λ r, m ≤ iepoch r) keep ∧ Forall (λ r, iepoch r < m) gone.
Proof.
  induction l as [|r l IH]; simpl; [split_and!; [done|by apply Forall_nil_2..]|].
  destruct (sweep l m) as [keep gone]. destruct IH as (H1 & H2 & H3).
  destruct (Z.ltb_spec (iepoch r) m); (split; [rewrite H1|split; [|]]); rewrite ?Forall_cons; try done.
  by rewrite Permutation_middle.
Qed.

(** What [empty] destructs is below every reservation, what it keeps is not. *)
Lemma sweep_reserved l ss :
  let '(keep, gone) := sweep l (min_epoch ss UINT64_MAX) in
  l ≡ₚ keep ++ gone ∧
  Forall (λ r, UINT64_MAX ≤ iepoch r ∨ Exists (λ x, reservation x ≤ iepoch r) ss) keep ∧
  Forall (λ r, Forall (λ x, iepoch r < reservation x) ss) gone.
Proof.
  pose proof (sweep_spec l (min_epoch ss UINT64_MAX)) as Hsw.
  destruct (min_epoch_spec ss UINT64_MAX) as (_ & Hall & Hex).
  destruct (sweep l _) as [keep gone]. destruct Hsw as (H1 & H2 & H3). split_and!; [done| |].
  - eapply Forall_impl; [exact H2|]. intros r Hr. simpl in Hr. destruct Hex as [He|Hx]; [left; lia|right].
    eapply Exists_impl; [exact Hx|]. intros x Hx'. simpl in Hx'. lia.
  - eapply Forall_impl; [exact H3|]. intros r Hr. simpl in Hr. eapply Forall_impl; [exact Hall|].
    intros x Hx. simpl in Hx. lia.
Qed.

Lemma min_epoch_insert l tid s s' m :
  l !! tid = Some s → reservation s' = reservation s → min_epoch (<[tid := s']> l) m = min_epoch l m.
Proof.
  revert tid m. induction l as [|x l IH]; intros [|tid] m; try done; simpl.
  - by intros [= ->] ->.
  - intros H Hr. by apply IH.
Qed.

(** The state after [retire]. *)
Definition retire_state (cfg : config) (o : Z) (tid : nat) (d : Z) (c : tracker) (s : slot) : tracker :=
  let c1 := if retire_counter s mod (epochFreq cfg * Z.of_nat (length (slots c))) =? 0
            then incrementEpoch c else c in
  let trash := retired s ++ [Info o (epoch c) d] in
  let '(keep, gone) := if collect cfg && (retire_counter s mod freq cfg =? 0)
                       then sweep trash (min_epoch (slots c) UINT64_MAX) else (trash, []) in
  upd c1 tid (Slot (reservation s) (retire_counter s +₆ 1) keep (destructed s ++ gone) (active s) PReady).

Section RetireState.
Context (cfg : config) (tid : nat) (c : tracker) (s : slot) (o d : Z).
Context (Hs : slots c !! tid = Some s) (Hpc : at_ s = PReady) (Ho : o ≠ 0).
Context (Hef : epochFreq cfg * Z.of_nat (length (slots c)) ≠ 0) (Hf : freq cfg ≠ 0).

Lemma retire_eq : retire cfg o tid d c = Some (retire_state cfg o tid d c s).
Proof.
  unfold retire, retire_state. destruct (Z.eqb_spec o 0); [done|]. rewrite Hs. simpl.
  unfold umod. rewrite length_insert.
  destruct (Z.eqb_spec (epochFreq cfg * Z.of_nat (length (slots c))) 0); [done|].
  destruct (Z.eqb_spec (freq cfg) 0); [done|]. simpl. unfold empty.
  set (trash := retired s ++ _).
  assert (tid < length (slots c))%nat as Hlt by (by eapply lookup_lt_Some).
  destruct (retire_counter s mod (epochFreq cfg * _) =? 0), (collect cfg),
    (retire_counter s mod freq cfg =? 0); simpl;
    rewrite ?list_lookup_insert_eq by (rewrite ?length_insert; done); simpl;
    rewrite ?(min_epoch_insert _ _ s) by done;
    try destruct (sweep trash _) as [keep gone]; simpl; unfold upd, set_trash; simpl;
    rewrite ?list_lookup_insert_eq by (rewrite ?length_insert; done); simpl;
    by rewrite ?list_insert_insert_eq, ?app_nil_r, ?Hpc.
Qed.

Lemma solo_retire_eq :
  ∃ k, (k ≤ length (slots c) + length (retired s) + 6)%nat ∧
    run cfg c ((tid, Retire o d) :: replicate k (tid, Go)) = Some (retire_state cfg o tid d c s).
Proof.
  destruct (solo_retire_due cfg tid c s o d _ Hs Hpc Ho Hef Hf eq_refl) as [Hrun Hst].
  unfold retire_state.
  set (c1 := if retire_counter s mod (epochFreq cfg * _) =? 0 then incrementEpoch c else c) in *.
  set (s1 := set_trash (retired s ++ [Info o (epoch c) d]) PCollect s) in *.
  assert (slots c1 = slots c) as Hsl.
  { unfold c1. by destruct (_ =? 0). }
  assert (slots c1 !! tid = Some s) as Hs1 by (by rewrite Hsl).
  destruct (collect cfg && _); [|exists 3%nat; split; [lia|]].
  - exists (3 + (S (length (slots c)) + S (length (retired s1))))%nat.
    split; [simpl; rewrite length_app; simpl; lia|].
    pose proof (solo_empty cfg tid (upd c1 tid s1) s1 true (upd_lookup _ _ _ _ Hs1)) as He.
    simpl in He. rewrite length_insert, Hsl, (min_epoch_insert _ _ s), upd_upd in He by done.
    change (replicate (3 + ?n) ?x) with (replicate 2 x ++ (x :: replicate n x)).
    rewrite app_comm_cons, (run_app _ _ _ _ _ Hrun), (run_cons _ _ _ _ _ _ Hst).
    etransitivity; [exact He|]. destruct (sweep _ _). by rewrite upd_upd.
  - change (replicate 3 ?x) with (replicate 2 x ++ [x]).
    rewrite app_comm_cons, (run_app _ _ _ _ _ Hrun), (run_cons _ _ _ _ _ _ Hst). simpl.
    unfold finish. simpl. by rewrite app_nil_r.
Qed.
End RetireState.

(** C25. [retire] runs to completion in a bounded number of the thread's own
    steps and, without interference, computes the method as written: it appends
    the object to the thread's trash with the current epoch as its tag,
    destructs only objects whose tag is below the reservation of every thread
    and, when it is its turn to collect, keeps only objects that some
    reservation protects; nothing is lost or destructed twice. *)
Theorem retire_runs_to_completion (cfg : config) (tid : nat) (c : tracker) (s : slot) (o d : Z) :
  slots c !! tid = Some s → at_ s = PReady → o ≠ 0 →
  epochFreq cfg * Z.of_nat (length (slots c)) ≠ 0 → freq cfg ≠ 0 →
  ∃ k c' s' gone, (k ≤ length (slots c) + length (retired s) + 6)%nat ∧
    run cfg c ((tid, Retire o d) :: replicate k (tid, Go)) = Some c' ∧
    retire cfg o tid d c = Some c' ∧ slots c' !! tid = Some s' ∧ at_ s' = PReady ∧
    retired s ++ [Info o (epoch c) d] ≡ₚ retired s' ++ gone ∧
    destructed s' = destructed s ++ gone ∧
    Forall (λ r, Forall (λ x, iepoch r < reservation x) (slots c)) gone ∧
    (collect cfg && (retire_counter s mod freq cfg =? 0) = true →
     Forall (λ r, UINT64_MAX ≤ iepoch r ∨ Exists (λ x, reservation x ≤ iepoch r) (slots c))
            (retired s')).
Proof.
  intros Hs Hpc Ho Hef Hf. pose proof (retire_eq cfg tid c s o d Hs Hpc Ho Hef Hf) as Hret.
  destruct (solo_retire_eq cfg tid c s o d Hs Hpc Ho Hef Hf) as (k & Hk & Hrun).
  pose proof (sweep_reserved (retired s ++ [Info o (epoch c) d]) (slots c)) as Hsw.
  unfold retire_state in *.
  set (c1 := if retire_counter s mod (epochFreq cfg * _) =? 0 then incrementEpoch c else c) in *.
  assert (slots c1 !! tid = Some s) as Hs1 by (rewrite <- Hs; unfold c1; by destruct (_ =? 0)).
  exists k. destruct (collect cfg && _).
  - destruct (sweep _ _) as [keep gone]. destruct Hsw as (H1 & H2 & H3).
    eexists _, _, gone. split_and!; [done..|by eapply upd_lookup|done|done|done|done|done].
  - eexists _, _, []. split_and!; [done..|by eapply upd_lookup|done|by rewrite app_nil_r|done| |done].
    by apply Forall_nil_2.
Qed.

(** ** Examples *)

Definition cfg_ex (t : RCUType) : config := Config 1 1 true t.
(** Thread 1 retires the object 7 with a collection: 2 reservations to read. *)
Definition retire_ex : list (nat * act) := (1%nat, Retire 7 0) :: replicate 8 (1%nat, Go).

Lemma rcu_grace_period_witness :
  ∃ c1 c2 s s', run (cfg_ex type_RCU) (new_tracker 2) [(0%nat, Start); (0%nat, Go)] = Some c1 ∧
    run (cfg_ex type_RCU) c1 retire_ex = Some c2 ∧ slots c1 !! 1%nat = Some s ∧
    slots c2 !! 1%nat = Some s' ∧ retired s' = [Info 7 0 0] ∧
    ∃ F, destructed s' = destructed s ++ F ∧ F ⊆+ pending s.
Proof.
  do 4 eexists. split; [vm_compute; reflexivity|]. split; [vm_compute; reflexivity|].
  split; [vm_compute; reflexivity|]. split; [vm_compute; reflexivity|]. split; [reflexivity|].
  eapply (rcu_grace_period (cfg_ex type_RCU) 2 [(0%nat, Start); (0%nat, Go)] retire_ex _ _ 0%nat _)
    with (u := 1%nat);
    [vm_compute; reflexivity|vm_compute; reflexivity|reflexivity|done|vm_compute; reflexivity
    | |vm_compute; discriminate|vm_compute; reflexivity|vm_compute; reflexivity].
  vm_compute. intros H. repeat (apply elem_of_cons in H as [[=]|H]). by apply elem_of_nil in H.
Defined.

Lemma retire_runs_to_completion_witness :
  ∃ k c' s' gone, (k ≤ 7)%nat ∧
    run (cfg_ex type_RCU) (new_tracker 1) ((0%nat, Retire 7 0) :: replicate k (0%nat, Go)) = Some c' ∧
    retire (cfg_ex type_RCU) 7 0 0 (new_tracker 1) = Some c' ∧ slots c' !! 0%nat = Some s' ∧
    at_ s' = PReady ∧ [Info 7 0 0] ≡ₚ retired s' ++ gone ∧ destructed s' = gone ∧
    Forall (λ r, Forall (λ x, iepoch r < reservation x) [slot0]) gone ∧
    (true = true →
     Forall (λ r, UINT64_MAX ≤ iepoch r ∨ Exists (λ x, reservation x ≤ iepoch r) [slot0]) (retired s')).
Proof.
  apply (retire_runs_to_completion (cfg_ex type_RCU) 0 (new_tracker 1) slot0 7 0);
    (reflexivity || (vm_compute; discriminate)).
Defined.

(** With [type_QSBR] the first operation of a thread is not protected: its
    reservation is still [UINT64_MAX] until its first [end_op].  Thread 0 has
    started an operation when nothing has been retired; thread 1 retires an
    object, and destructs it at once although thread 0 never ended its
    operation. *)
Theorem qsbr_first_op_unprotected :
  ∃ c1 c2 s0 s1, run (cfg_ex type_QSBR) (new_tracker 2) [(0%nat, Start)] = Some c1 ∧
    Forall (λ s, pending s = []) (slots c1) ∧
    run (cfg_ex type_QSBR) c1 ((1%nat, Start) :: retire_ex) = Some c2 ∧
    slots c2 !! 0%nat = Some s0 ∧ active s0 = true ∧
    slots c2 !! 1%nat = Some s1 ∧ destructed s1 = [Info 7 0 0].
Proof.
  do 4 eexists. split; [vm_compute; reflexivity|]. split; [by repeat constructor|].
  split; [vm_compute; reflexivity|]. by split_and!.
Qed.

End RCUTracker.
