(* ===== verification/Dcss.v ===== *)
(** * DCSS: linearization variables and descriptors
      (src/persist/EpochSys.hpp, EpochSys.cpp, api/Recoverable.hpp)

    An [atomic_lin_var] is a 128-bit cell holding a 64-bit value and a counter.
    The two low bits of the counter say what the value is: [..00] a plain value,
    [..01] the address of a descriptor ([sc_desc_t]).  A descriptor names the
    cell, the old and the new value and the epoch of its operation; the low bits
    of its own counter say whether it is in progress ([..01]), committed
    ([..10]) or aborted ([..11]).  Any thread that meets a descriptor completes
    it: commit when the epoch is still current, abort otherwise, then replace
    the descriptor in the cell by the new or the old value.

    The operations are written in the state monad over [dmem], the cells, the
    descriptors and the global epoch.  [reinterpret_cast] between addresses and
    [uint64_t] is the identity; a cell or descriptor that is not in memory is
    undefined behaviour. *)

From S2P Require Import Prelude.

(** ** tid_sn: 16 bits of thread id, 48 bits of sequence number *)

Definition SN_MASK : Z := 0xffffffffffff.

Definition get_tid (tid_sn : Z) : Z := Z.shiftr (Z.land (u64 (Z.shiftl 0xffff 48)) tid_sn) 48.
Definition get_sn (tid_sn : Z) : Z := Z.land SN_MASK tid_sn.
Definition set_tid_sn (tid sn : Z) : outcome Z :=
  if (tid <? 65536) && (sn <=? SN_MASK)
  then Ret (Z.lor (u64 (Z.shiftl tid 48)) (Z.land sn SN_MASK))
  else Throw (AssertFail "tid < 65536 && sn <= 0xffffffffffffULL").
Definition set_tid (tid tid_sn : Z) : outcome Z :=
  if tid <? 65536 then Ret (Z.lor (u64 (Z.shiftl tid 48)) (Z.land tid_sn SN_MASK))
  else Throw (AssertFail "tid < 65536").
Definition increment_sn (tid_sn : Z) : outcome Z :=
  if Z.land tid_sn SN_MASK =? SN_MASK
  then Throw (AssertFail "(tid_sn&0xffffffffffffULL) != 0xffffffffffffULL")
  else Ret (tid_sn +₆ 1).

Lemma sn_mask_mod x : Z.land x SN_MASK = x mod 2 ^ 48.
Proof. change SN_MASK with (Z.ones 48). by rewrite Z.land_ones. Qed.

Lemma lor_shiftl_add a b n : 0 ≤ n → 0 ≤ b < 2 ^ n → Z.lor (Z.shiftl a n) b = a * 2 ^ n + b.
Proof.
  intros Hn Hb. rewrite <- Z.shiftl_mul_pow2 by done.
  assert (Z.land (Z.shiftl a n) b = 0) as H0.
  { apply Z.bits_inj'. intros i Hi. rewrite Z.land_spec, Z.bits_0.
    destruct (Z.ltb_spec i n) as [Hlt|Hge].
    - by rewrite Z.shiftl_spec_low.
    - rewrite andb_false_iff. right. rewrite <- (Z.mod_small b (2 ^ n)) by done.
      by apply Z.mod_pow2_bits_high. }
  by rewrite Z.add_nocarry_lxor, Z.lxor_lor.
Qed.

Lemma get_tid_div x : is_u64 x → get_tid x = x / 2 ^ 48.
Proof.
  intros [Hx Hx']. unfold get_tid. rewrite u64_small by done. rewrite Z.shiftr_land.
  change (Z.shiftr (Z.shiftl 0xffff 48) 48) with (Z.ones 16).
  rewrite Z.land_comm, Z.land_ones, Z.shiftr_div_pow2 by lia.
  apply Z.mod_small. split; [by apply Z.div_pos|].
  apply Z.div_lt_upper_bound; [done|]. unfold U64 in Hx'. lia.
Qed.

Lemma get_sn_mod x : get_sn x = x mod 2 ^ 48.
Proof. unfold get_sn. by rewrite Z.land_comm, sn_mask_mod. Qed.

Lemma set_tid_sn_eq tid sn :
  0 ≤ tid < 65536 → 0 ≤ sn ≤ SN_MASK → set_tid_sn tid sn = Ret (tid * 2 ^ 48 + sn).
Proof.
  unfold SN_MASK. intros Ht Hs. unfold set_tid_sn, SN_MASK.
  destruct (Z.ltb_spec tid 65536); [|lia].
  destruct (Z.leb_spec sn 281474976710655); [|lia]. simpl andb. cbv iota. f_equal.
  rewrite u64_small, sn_mask_mod, Z.mod_small; [apply lor_shiftl_add; lia|lia|].
  rewrite Z.shiftl_mul_pow2 by lia. unfold is_u64, U64. lia.
Qed.

(** The packing of [tid_sn] round-trips and its fields do not interfere:
    [set_tid_sn] succeeds on every 16-bit thread id and 48-bit sequence number
    and the getters return them; [increment_sn] increments the sequence number,
    keeps the thread id, and fails exactly at the largest sequence number. *)
Theorem tid_sn_roundtrip (tid sn : Z) :
  0 ≤ tid < 65536 → 0 ≤ sn ≤ SN_MASK →
  ∃ x, set_tid_sn tid sn = Ret x ∧ is_u64 x ∧ get_tid x = tid ∧ get_sn x = sn ∧
    (sn < SN_MASK → ∃ y, increment_sn x = Ret y ∧ get_tid y = tid ∧ get_sn y = sn + 1) ∧
    (sn = SN_MASK → ∃ m, increment_sn x = Throw (AssertFail m)).
Proof.
  intros Ht Hs. rewrite set_tid_sn_eq by done. unfold SN_MASK in *.
  assert (∀ k, 0 ≤ k < 2 ^ 48 → is_u64 (tid * 2 ^ 48 + k)) as Hu by (unfold is_u64, U64; lia).
  assert (∀ k, 0 ≤ k < 2 ^ 48 → get_tid (tid * 2 ^ 48 + k) = tid ∧ get_sn (tid * 2 ^ 48 + k) = k) as Hg.
  { intros k Hk. rewrite get_tid_div by auto. rewrite get_sn_mod. split.
    - rewrite Z.div_add_l, Z.div_small by lia. lia.
    - rewrite Z.add_comm, Z.mod_add, Z.mod_small by lia. done. }
  exists (tid * 2 ^ 48 + sn). destruct (Hg sn) as [Hg1 Hg2]; [lia|].
  assert (Z.land (tid * 2 ^ 48 + sn) SN_MASK = sn) as Hland.
  { rewrite <- Hg2 at 2. unfold get_sn. apply Z.land_comm. }
  split_and!; [done|apply Hu; lia|done|done| |]; intros Hsn; unfold increment_sn; rewrite Hland.
  - destruct (Z.eqb_spec sn SN_MASK); [unfold SN_MASK in *; lia|].
    eexists. split; [done|]. rewrite u64_small by (rewrite <- Z.add_assoc; apply Hu; lia).
    rewrite <- Z.add_assoc. apply Hg. lia.
  - rewrite Hsn. eexists. reflexivity.
Qed.

Lemma tid_sn_roundtrip_witness :
  ∃ x, set_tid_sn 7 41 = Ret x ∧ is_u64 x ∧ get_tid x = 7 ∧ get_sn x = 41 ∧
    (41 < SN_MASK → ∃ y, increment_sn x = Ret y ∧ get_tid y = 7 ∧ get_sn y = 41 + 1) ∧
    (41 = SN_MASK → ∃ m, increment_sn x = Throw (AssertFail m)).
Proof. apply (tid_sn_roundtrip 7 41); unfold SN_MASK; lia. Defined.

(** ** lin_var and sc_desc_t *)

Record lin_var : Type := LV { lval : Z; lcnt : Z }.

#[export] Instance lin_var_eq_dec : EqDecision lin_var.
Proof. solve_decision. Defined.

Definition is_desc (r : lin_var) : bool := Z.land (lcnt r) 3 =? 1.

Inductive PBlkType : Type := INIT | ALLOC | UPDATE | DELETE | RECLAIMED | EPOCH | OWNED | DESC.

#[export] Instance PBlkType_eq_dec : EqDecision PBlkType.
Proof. solve_decision. Defined.

Record sc_desc_t : Type := ScDesc {
  d_old_val : Z;
  d_new_val : Z;
  d_epoch : Z;
  d_tid_sn : Z;
  d_var : lin_var;
}.

(** [sc_desc_t(uint64_t t)]; [blktype] is the constant [DESC]. *)
Definition new_sc_desc (t : Z) : outcome sc_desc_t :=
  match set_tid_sn t 0 with
  | Ret x => Ret (ScDesc 0 0 NULL_EPOCH x (LV 0 0))
  | Throw e => Throw e
  end.

Definition d_set_var (v : lin_var) (d : sc_desc_t) : sc_desc_t :=
  ScDesc (d_old_val d) (d_new_val d) (d_epoch d) (d_tid_sn d) v.

Definition reinit (d : sc_desc_t) : outcome sc_desc_t :=
  match increment_sn (d_tid_sn d) with
  | Ret x => Ret (ScDesc (d_old_val d) (d_new_val d) (d_epoch d) x (LV 0 0))
  | Throw e => Throw e
  end.

Definition set_up_epoch (e : Z) (d : sc_desc_t) : sc_desc_t :=
  ScDesc (d_old_val d) (d_new_val d) e (d_tid_sn d) (d_var d).

Definition set_up_var (c a o n : Z) (d : sc_desc_t) : sc_desc_t :=
  ScDesc o n (d_epoch d) (d_tid_sn d) (LV a c).

Definition committed (r : lin_var) : bool := Z.land (lcnt r) 3 =? 2.
Definition in_progress (r : lin_var) : bool := Z.land (lcnt r) 3 =? 1.
(** [cnt & ~0x3UL] *)
Definition base (r : lin_var) : Z := Z.ldiff (lcnt r) 3.
Definition match_ (old_d new_d : lin_var) : bool :=
  (base old_d =? base new_d) && (lval old_d =? lval new_d).

(** ** Memory *)

Record dmem : Type := Dmem {
  cells : gmap Z lin_var;
  descs : gmap Z sc_desc_t;
  global_epoch : Z;
}.

Definition load_cell (a : Z) : M dmem lin_var := λ m,
  match cells m !! a with Some r => (Ret r, m) | None => (Throw (UB "atomic_lin_var"), m) end.
Definition load_desc (d : Z) : M dmem sc_desc_t := λ m,
  match descs m !! d with Some D => (Ret D, m) | None => (Throw (UB "sc_desc_t"), m) end.
Definition store_cell (a : Z) (r : lin_var) : M dmem unit :=
  mmod (λ m, Dmem (<[a := r]> (cells m)) (descs m) (global_epoch m)).
Definition store_desc (d : Z) (D : sc_desc_t) : M dmem unit :=
  mmod (λ m, Dmem (cells m) (<[d := D]> (descs m)) (global_epoch m)).

(** [compare_exchange_strong] on a cell and on the [var] of a descriptor *)
Definition cas_cell (a : Z) (expected desired : lin_var) : M dmem bool :=
  let* r := load_cell a in
  if decide (r = expected) then do* store_cell a desired in mret_ true else mret_ false.
Definition cas_desc_var (d : Z) (expected desired : lin_var) : M dmem bool :=
  let* D := load_desc d in
  if decide (d_var D = expected) then do* store_desc d (d_set_var desired D) in mret_ true
  else mret_ false.

(** ** Operations of a descriptor at the address [d] *)

Definition abort (d : Z) (_d : lin_var) : M dmem bool :=
  let expected := LV (lval _d) (Z.lor (base _d) 1) in
  cas_desc_var d expected (LV (lval expected) (lcnt expected +₆ 2)).

Definition commit (d : Z) (_d : lin_var) : M dmem bool :=
  let expected := LV (lval _d) (Z.lor (base _d) 1) in
  cas_desc_var d expected (LV (lval expected) (lcnt expected +₆ 1)).

Definition cleanup (d : Z) (old_d : lin_var) : M dmem unit :=
  let* D := load_desc d in
  let new_d := d_var D in
  if negb (match_ old_d new_d) then mret_ tt
  else
    do* massert (negb (in_progress new_d)) "!in_progress(new_d)" in
    let expected := LV d (Z.lor (base new_d) 1) in
    if committed new_d
    then let* _b := cas_cell (lval new_d) expected (LV (d_new_val D) (lcnt new_d +₆ 2)) in mret_ tt
    else let* _b := cas_cell (lval new_d) expected (LV (d_old_val D) (lcnt new_d +₆ 1)) in mret_ tt.

Definition check_epoch (c : Z) : M dmem bool := mget (λ m, c =? global_epoch m).

Definition try_complete (d addr : Z) : M dmem unit :=
  let* D := load_desc d in
  let _d := d_var D in
  if negb (lval _d =? addr) then mret_ tt
  else if in_progress _d then
    let* ok := check_epoch (d_epoch D) in
    let* _b := (if ok : bool then commit d _d else abort d _d) in
    cleanup d _d
  else cleanup d _d.

Definition try_abort (d expected_e : Z) : M dmem unit :=
  let* D := load_desc d in
  let _d := d_var D in
  if (d_epoch D =? expected_e) && in_progress _d
  then let* _b := abort d _d in mret_ tt
  else mret_ tt.

(** ** Operations of an atomic_lin_var at the address [a] (invisible reads) *)

(** [load]: the loop runs again only when it met a descriptor. *)
Fixpoint load (fuel : nat) (a : Z) : M dmem Z :=
  match fuel with
  | O => mthrow (UB "out of fuel")
  | S fuel' =>
      let* r := load_cell a in
      if is_desc r then do* try_complete (lval r) a in load fuel' a
      else mret_ (lval r)
  end.

Definition load_verify := load.

Fixpoint store (fuel : nat) (a desired : Z) : M dmem unit :=
  match fuel with
  | O => mthrow (UB "out of fuel")
  | S fuel' =>
      let* r := load_cell a in
      let* r' := (if is_desc r then
                    do* try_complete (lval r) a in mret_ (LV (lval r) (base r +₆ 4))
                  else mret_ r) in
      let* b := cas_cell a r' (LV desired (lcnt r' +₆ 4)) in
      if b : bool then mret_ tt else store fuel' a desired
  end.

(** [local_epoch] is [ds->get_local_epoch()]. *)
Fixpoint store_verify (fuel : nat) (local_epoch a desired : Z) : M dmem unit :=
  match fuel with
  | O => mthrow (UB "out of fuel")
  | S fuel' =>
      let* r := load_cell a in
      let* r' := (if is_desc r then
                    do* try_complete (lval r) a in mret_ (LV (lval r) (base r +₆ 4))
                  else mret_ r) in
      let* ok := check_epoch local_epoch in
      if ok : bool then
        let* b := cas_cell a r' (LV desired (lcnt r' +₆ 4)) in
        if b : bool then mret_ tt else store_verify fuel' local_epoch a desired
      else mthrow EpochVerifyException
  end.

(** [CAS_verify] inside an operation, with [d] the descriptor of the thread.
    (Called outside an operation it brackets this body with [begin_op] and
    [end_op] or [abort_op].) *)
Definition CAS_verify_body (d a expected desired : Z) : M dmem bool :=
  let* r := load_cell a in
  if is_desc r then do* try_complete (lval r) a in mret_ false
  else if negb (lval r =? expected) then mret_ false
  else
    do* massert (Z.land (lcnt r) 3 =? 0) "(r.cnt & 3UL) == 0UL" in
    let* D := load_desc d in
    do* store_desc d (set_up_var (lcnt r +₆ 1) a expected desired D) in
    let* ok := cas_cell a r (LV d (lcnt r +₆ 1)) in
    if negb ok then mret_ false
    else
      do* try_complete d a in
      let* D' := load_desc d in
      mret_ (committed (d_var D')).

Definition CAS (a expected desired : Z) : M dmem bool :=
  let* r := load_cell a in
  if is_desc r then do* try_complete (lval r) a in mret_ false
  else cas_cell a (LV expected (lcnt r)) (LV desired (lcnt r +₆ 4)).

(** ** Well-formed memory

    A cell holds a plain value, or the address of a descriptor set up for this
    very cell with the same counter.  [fresh c] keeps counters below the
    wrap-around. *)

Definition room (c : Z) : Prop := 0 ≤ c ∧ c + 16 < U64.

Definition cell_ok (m : dmem) (a : Z) (r : lin_var) : Prop :=
  room (lcnt r) ∧
  (lcnt r mod 4 = 0 ∨
   lcnt r mod 4 = 1 ∧ ∃ D, descs m !! lval r = Some D ∧ lval (d_var D) = a ∧
     lcnt (d_var D) - lcnt r ∈ [0; 1; 2]).

Definition dm_wf (m : dmem) : Prop := ∀ a r, cells m !! a = Some r → cell_ok m a r.

(** What a descriptor resolves to: the new value when it is committed, or in
    progress in the current epoch. *)
Definition desc_commits (m : dmem) (D : sc_desc_t) : bool :=
  committed (d_var D) || (in_progress (d_var D) && (d_epoch D =? global_epoch m)).

(** The value a reader gets from the cell. *)
Definition resolve (m : dmem) (a : Z) : option Z :=
  match cells m !! a with
  | None => None
  | Some r =>
      if is_desc r then
        match descs m !! lval r with
        | Some D => Some (if desc_commits m D then d_new_val D else d_old_val D)
        | None => None
        end
      else Some (lval r)
  end.

Lemma land3 c : Z.land c 3 = c mod 4.
Proof. change 3 with (Z.ones 2). by rewrite Z.land_ones. Qed.
Lemma ldiff3 c : 0 ≤ c → Z.ldiff c 3 = c - c mod 4.
Proof.
  intros Hc. change 3 with (Z.ones 2). rewrite Z.ldiff_ones_r, Z.shiftl_mul_pow2, Z.shiftr_div_pow2 by lia.
  pose proof (Z.div_mod c 4 ltac:(lia)). change (2 ^ 2) with 4. lia.
Qed.
Lemma lor1 c : c mod 4 = 0 → Z.lor c 1 = c + 1.
Proof.
  intros Hc. replace c with (Z.shiftl (c / 4) 2) at 1.
  - rewrite lor_shiftl_add by lia. change (2 ^ 2) with 4. pose proof (Z.div_mod c 4). lia.
  - rewrite Z.shiftl_mul_pow2 by lia. change (2 ^ 2) with 4. pose proof (Z.div_mod c 4). lia.
Qed.

Lemma is_desc_mod r : is_desc r = (lcnt r mod 4 =? 1).
Proof. unfold is_desc. by rewrite land3. Qed.
Lemma in_progress_mod r : in_progress r = (lcnt r mod 4 =? 1).
Proof. unfold in_progress. by rewrite land3. Qed.
Lemma committed_mod r : committed r = (lcnt r mod 4 =? 2).
Proof. unfold committed. by rewrite land3. Qed.

Lemma mod4_shift c k : c mod 4 = 1 → 0 ≤ k ≤ 2 → (c + k) mod 4 = 1 + k.
Proof.
  intros Hc Hk. rewrite Z.add_mod, Hc by lia. rewrite (Z.mod_small k) by lia.
  apply Z.mod_small. lia.
Qed.

Lemma base_shift c k v : room c → c mod 4 = 1 → 0 ≤ k ≤ 2 → base (LV v (c + k)) = c - 1.
Proof.
  intros [? ?] Hc Hk. unfold base. simpl. rewrite ldiff3, mod4_shift by lia. lia.
Qed.

Lemma lor_pred c : c mod 4 = 1 → Z.lor (c - 1) 1 = c.
Proof.
  intros Hc. rewrite lor1; [lia|]. pose proof (Z.div_mod c 4).
  replace (c - 1) with ((c / 4) * 4) by lia. by rewrite Z.mod_mul.
Qed.

Lemma lor_base c k v : room c → c mod 4 = 1 → 0 ≤ k ≤ 2 → Z.lor (base (LV v (c + k))) 1 = c.
Proof. intros. rewrite base_shift by done. by apply lor_pred. Qed.

Ltac dstep := unfold mbind_, mret_, mget, mmod, massert, load_cell, load_desc, store_cell, store_desc.

(** Cleaning up a decided descriptor that sits in its cell. *)
Lemma cleanup_spec m a d D c k :
  cells m !! a = Some (LV d c) → descs m !! d = Some D → d_var D = LV a (c + k) →
  room c → c mod 4 = 1 → k = 1 ∨ k = 2 → ∀ k', 0 ≤ k' ≤ 2 →
  cleanup d (LV a (c + k')) m =
    (Ret tt, Dmem (<[a := LV (if k =? 1 then d_new_val D else d_old_val D) (c + 3)]> (cells m))
                  (descs m) (global_epoch m)).
Proof.
  intros Ha Hd Hvar Hr Hc Hk k' Hk'. pose proof Hr as [Hr0 Hr1]. unfold cleanup. dstep. rewrite Hd. simpl.
  unfold match_. rewrite Hvar, !base_shift by (done || lia). simpl.
  rewrite !Z.eqb_refl. simpl. rewrite in_progress_mod, committed_mod. simpl.
  rewrite mod4_shift by (done || lia). rewrite lor_pred by done.
  destruct Hk as [-> | ->]; simpl; unfold cas_cell; dstep; rewrite Ha;
    rewrite decide_True by done; simpl; rewrite u64_small by (unfold is_u64; lia);
    by rewrite <- Z.add_assoc.
Qed.

(** Deciding a descriptor that is in progress. *)
Lemma cas_var_spec m d D a c j :
  descs m !! d = Some D → d_var D = LV a c → room c → c mod 4 = 1 → 0 ≤ j ≤ 2 →
  cas_desc_var d (LV a (Z.lor (base (LV a c)) 1)) (LV a (Z.lor (base (LV a c)) 1 +₆ j)) m =
    (Ret true, Dmem (cells m) (<[d := d_set_var (LV a (c + j)) D]> (descs m)) (global_epoch m)).
Proof.
  intros Hd Hvar Hr Hc Hj. pose proof (lor_base c 0 a Hr Hc) as Hb. rewrite Z.add_0_r in Hb.
  rewrite Hb by lia. destruct Hr. unfold cas_desc_var. dstep. rewrite Hd, Hvar.
  rewrite decide_True by done. by rewrite u64_small by (unfold is_u64; lia).
Qed.

(** The descriptor after completion: committed or aborted, the rest unchanged. *)
Definition completed (m : dmem) (a c : Z) (D : sc_desc_t) : sc_desc_t :=
  d_set_var (LV a (c + (if desc_commits m D then 1 else 2))) D.

Definition complete_state (m : dmem) (a d c : Z) (D : sc_desc_t) : dmem :=
  Dmem (<[a := LV (if desc_commits m D then d_new_val D else d_old_val D) (c + 3)]> (cells m))
       (<[d := completed m a c D]> (descs m)) (global_epoch m).

Lemma try_complete_spec m a d D c k :
  cells m !! a = Some (LV d c) → descs m !! d = Some D → d_var D = LV a (c + k) →
  room c → c mod 4 = 1 → 0 ≤ k ≤ 2 →
  try_complete d a m = (Ret tt, complete_state m a d c D).
Proof.
  intros Ha Hd Hvar Hr Hc Hk. unfold try_complete.
  assert (desc_commits m D = (k =? 1) || ((k =? 0) && (d_epoch D =? global_epoch m))) as Hdc.
  { unfold desc_commits. rewrite Hvar, committed_mod, in_progress_mod. simpl.
    rewrite mod4_shift by done. assert (k = 0 ∨ k = 1 ∨ k = 2) as [->|[->| ->]] by lia; done. }
  assert (k = 0 ∨ (k = 1 ∨ k = 2)) as [->|Hk12] by lia.
  - rewrite Z.add_0_r in Hvar. dstep. rewrite Hd, Hvar. simpl. rewrite Z.eqb_refl. simpl.
    rewrite in_progress_mod. simpl. rewrite Hc. simpl.
    unfold check_epoch, commit, abort, complete_state, completed. dstep.
    simpl in Hdc. rewrite Hdc. cbn [lval lcnt].
    set (j := if d_epoch D =? global_epoch m then 1 else 2).
    assert ((if d_epoch D =? global_epoch m
      then cas_desc_var d (LV a (Z.lor (base (LV a c)) 1)) (LV a (Z.lor (base (LV a c)) 1 +₆ 1))
      else cas_desc_var d (LV a (Z.lor (base (LV a c)) 1)) (LV a (Z.lor (base (LV a c)) 1 +₆ 2))) m =
      (Ret true, Dmem (cells m) (<[d := d_set_var (LV a (c + j)) D]> (descs m)) (global_epoch m))) as ->.
    { unfold j. destruct (d_epoch D =? global_epoch m); by apply cas_var_spec. }
    replace (LV a c) with (LV a (c + 0)) by (f_equal; lia).
    rewrite (cleanup_spec _ a d (d_set_var (LV a (c + j)) D) c j); simpl; try done.
    + unfold j. by destruct (d_epoch D =? global_epoch m).
    + by rewrite lookup_insert_eq.
    + unfold j. destruct (d_epoch D =? global_epoch m); auto.
  - dstep. rewrite Hd, Hvar. simpl. rewrite Z.eqb_refl. simpl.
    rewrite in_progress_mod. simpl. rewrite mod4_shift by lia.
    destruct (Z.eqb_spec (1 + k) 1); [lia|].
    rewrite (cleanup_spec m a d D c k) by (done || lia).
    unfold complete_state, completed. rewrite Hdc.
    assert (d_set_var (d_var D) D = D) as Hid by (by destruct D).
    destruct Hk12 as [-> | ->]; simpl; rewrite <- Hvar, Hid, (insert_id (descs m)) by done; done.
Qed.

Lemma complete_state_wf m a d D c :
  dm_wf m → cells m !! a = Some (LV d c) → descs m !! d = Some D → c mod 4 = 1 → c + 32 < U64 →
  dm_wf (complete_state m a d c D).
Proof.
  intros Hwf Ha Hd Hc Hm a' r. unfold complete_state. simpl.
  pose proof (Hwf a _ Ha) as [[Hr0 _] Hok]. simpl in *.
  destruct Hok as [?|(_ & D' & Hd' & Hav & _)]; [lia|]. simpl in Hd'.
  rewrite Hd in Hd'. injection Hd' as <-.
  destruct (decide (a = a')) as [<-|Hne].
  - rewrite lookup_insert_eq. intros [= <-]. split; simpl; [unfold room; lia|left].
    pose proof (Z.div_mod c 4). replace (c + 3) with ((c / 4 + 1) * 4) by lia. by rewrite Z.mod_mul.
  - rewrite lookup_insert_ne by done. intros Hr. destruct (Hwf a' r Hr) as [Hroom Hcase].
    split; [done|]. destruct Hcase as [|(Hc' & D' & HD' & Hav' & Hin)]; [by left|right].
    split; [done|]. destruct (decide (lval r = d)) as [Heq|Hd'].
    + exfalso. rewrite Heq, Hd in HD'. injection HD' as <-. congruence.
    + exists D'. simpl. by rewrite lookup_insert_ne.
Qed.

(** Two cells never hold the same descriptor. *)
Lemma desc_cell_unique m a a' r r' :
  dm_wf m → cells m !! a = Some r → cells m !! a' = Some r' →
  is_desc r = true → is_desc r' = true → lval r = lval r' → a = a'.
Proof.
  rewrite !is_desc_mod. intros Hwf Hr Hr' H1 H2 Heq. apply Z.eqb_eq in H1, H2.
  destruct (Hwf a r Hr) as [_ [?|(_ & D & HD & Ha & _)]]; [lia|].
  destruct (Hwf a' r' Hr') as [_ [?|(_ & D' & HD' & Ha' & _)]]; [lia|].
  rewrite <- Heq, HD in HD'. injection HD' as <-. congruence.
Qed.

(** Changing the cell [a] and the descriptor [d], which no other cell holds,
    does not change what the other cells resolve to. *)
Lemma resolve_other m m' a d :
  (∀ a', a' ≠ a → cells m' !! a' = cells m !! a') →
  (∀ d', d' ≠ d → descs m' !! d' = descs m !! d') → global_epoch m' = global_epoch m →
  (∀ a' r, a' ≠ a → cells m !! a' = Some r → is_desc r = true → lval r ≠ d) →
  ∀ a', a' ≠ a → resolve m' a' = resolve m a'.
Proof.
  intros Hcells Hdescs Hg Hno a' Hne. unfold resolve, desc_commits. rewrite Hcells, Hg by done.
  destruct (cells m !! a') as [r|] eqn:Hr; [|done]. destruct (is_desc r) eqn:Hd; [|done].
  rewrite Hdescs by (by eapply Hno). done.
Qed.

(** Helping: a reader that meets a descriptor completes it, and the cell then
    holds the value it resolves to. *)
Lemma help_spec m a r :
  dm_wf m → cells m !! a = Some r → is_desc r = true → lcnt r + 32 < U64 →
  ∃ D v, descs m !! lval r = Some D ∧ resolve m a = Some v ∧
    let m' := complete_state m a (lval r) (lcnt r) D in
    try_complete (lval r) a m = (Ret tt, m') ∧ dm_wf m' ∧
    cells m' !! a = Some (LV v (lcnt r + 3)) ∧ is_desc (LV v (lcnt r + 3)) = false ∧
    (∀ a', a' ≠ a → resolve m' a' = resolve m a').
Proof.
  intros Hwf Hr Hd Hm. pose proof Hd as Hmod. rewrite is_desc_mod in Hmod. apply Z.eqb_eq in Hmod.
  destruct (Hwf a r Hr) as [Hroom [?|(_ & D & HD & Ha & Hin)]]; [lia|].
  assert (0 ≤ lcnt (d_var D) - lcnt r ≤ 2) as Hk.
  { rewrite !elem_of_cons in Hin. destruct Hin as [->|[->|[->|Hin]]]; [lia..|set_solver]. }
  assert (cells m !! a = Some (LV (lval r) (lcnt r))) as Hr' by (by destruct r).
  assert (d_var D = LV a (lcnt r + (lcnt (d_var D) - lcnt r))) as Hvar.
  { destruct (d_var D) as [va vc]. simpl in *. subst. f_equal. lia. }
  exists D. eexists. split; [done|]. split; [unfold resolve; rewrite Hr, Hd, HD; done|]. simpl.
  split_and!.
  - by apply (try_complete_spec m a (lval r) D (lcnt r) (lcnt (d_var D) - lcnt r)).
  - by apply complete_state_wf.
  - unfold complete_state. simpl. by rewrite lookup_insert_eq.
  - rewrite is_desc_mod. simpl. pose proof (Z.div_mod (lcnt r) 4).
    replace (lcnt r + 3) with ((lcnt r / 4 + 1) * 4) by lia. by rewrite Z.mod_mul.
  - apply (resolve_other _ _ _ (lval r)); unfold complete_state; simpl.
    + intros. by rewrite lookup_insert_ne.
    + intros. by rewrite lookup_insert_ne.
    + done.
    + intros a' r' Hne Hr1 Hd1 Heq. apply Hne. symmetry. by eapply desc_cell_unique.
Qed.

(** Reading a linearization variable.  In a well-formed memory, whatever
    descriptor the cell holds and in whatever state, [load] returns after at
    most one help: it returns the value the cell resolves to (the new value of
    a descriptor that is committed, or in progress in the current epoch, else
    the old one), leaves that value in the cell, and changes no other cell's
    value; the memory stays well formed. *)
Theorem load_resolves (m : dmem) (a : Z) (r : lin_var) :
  dm_wf m → cells m !! a = Some r → lcnt r + 32 < U64 →
  ∃ v m', resolve m a = Some v ∧ load 2 a m = (Ret v, m') ∧ dm_wf m' ∧
    (∃ c, cells m' !! a = Some (LV v c) ∧ is_desc (LV v c) = false) ∧
    (∀ a', a' ≠ a → resolve m' a' = resolve m a').
Proof.
  intros Hwf Hr Hm. destruct (is_desc r) eqn:Hd.
  - destruct (help_spec m a r Hwf Hr Hd Hm) as (D & v & HD & Hv & Htc & Hwf' & Hc & Hnd & Hoth).
    exists v, (complete_state m a (lval r) (lcnt r) D).
    split; [done|]. split; [|eauto].
    simpl. dstep. rewrite Hr, Hd, Htc. cbv beta iota. rewrite Hc, Hnd. done.
  - exists (lval r), m. split; [unfold resolve; by rewrite Hr, Hd|].
    split; [simpl; dstep; by rewrite Hr, Hd|]. split_and!; [done| |done].
    exists (lcnt r). by destruct r.
Qed.

Definition dcss_example : dmem :=
  Dmem (<[100 := LV 500 9]> {[104 := LV 7 4]})
       (<[600 := ScDesc 0 0 3 0 (LV 0 0)]> {[500 := ScDesc 1 2 3 (2 ^ 48) (LV 100 9)]}) 3.

Lemma dcss_example_wf : dm_wf dcss_example.
Proof.
  intros a r. unfold dcss_example. simpl. rewrite !lookup_insert_Some, lookup_singleton_Some.
  intros [[<- <-]|(_ & [<- <-])]; unfold cell_ok, room, U64; simpl.
  - split; [lia|right]. split; [done|]. eexists. split; [by vm_compute|]. split; [done|]. set_solver.
  - split; [lia|by left].
Qed.

Lemma load_resolves_witness :
  ∃ v m', resolve dcss_example 100 = Some v ∧ load 2 100 dcss_example = (Ret v, m') ∧ dm_wf m' ∧
    (∃ c, cells m' !! 100 = Some (LV v c) ∧ is_desc (LV v c) = false) ∧
    (∀ a', a' ≠ 100 → resolve m' a' = resolve dcss_example a').
Proof.
  apply (load_resolves dcss_example 100 (LV 500 9)); [apply dcss_example_wf|reflexivity|done].
Defined.

(** The descriptor [d] is in no cell: its owner may use it. *)
Definition desc_free (m : dmem) (d : Z) : Prop :=
  ∀ a r, cells m !! a = Some r → is_desc r = true → lval r ≠ d.

(** Storing a plain value in a cell and replacing a free descriptor. *)
Lemma dm_wf_plain m a d D v c :
  dm_wf m → desc_free m d → room c → c mod 4 = 0 →
  let m' := Dmem (<[a := LV v c]> (cells m)) (<[d := D]> (descs m)) (global_epoch m) in
  dm_wf m' ∧ desc_free m' d.
Proof.
  intros Hwf Hfree Hroom Hc. simpl. split.
  - intros a' r. simpl. destruct (decide (a = a')) as [<-|Hne].
    + rewrite lookup_insert_eq. intros [= <-]. split; [done|by left].
    + rewrite lookup_insert_ne by done. intros Hr. destruct (Hwf a' r Hr) as [? Hcase].
      split; [done|]. destruct Hcase as [|(Hmod & D' & HD' & Ha' & Hin)]; [by left|right].
      split; [done|]. exists D'. simpl. rewrite lookup_insert_ne; [done|].
      intros ->. apply (Hfree a' r Hr); [|done]. rewrite is_desc_mod. by rewrite Hmod.
  - intros a' r. simpl. destruct (decide (a = a')) as [<-|Hne].
    + rewrite lookup_insert_eq. intros [= <-]. rewrite is_desc_mod. simpl. by rewrite Hc.
    + rewrite lookup_insert_ne by done. apply Hfree.
Qed.

Lemma desc_free_complete m a r D d :
  desc_free m d → cells m !! a = Some r → is_desc r = true → (lcnt r) mod 4 = 1 →
  desc_free (complete_state m a (lval r) (lcnt r) D) d.
Proof.
  intros Hfree Hr Hd Hmod a' r'. unfold complete_state. simpl. destruct (decide (a = a')) as [<-|Hne].
  - rewrite lookup_insert_eq. intros [= <-]. rewrite is_desc_mod. simpl.
    pose proof (Z.div_mod (lcnt r) 4).
    replace (lcnt r + 3) with ((lcnt r / 4 + 1) * 4) by lia. by rewrite Z.mod_mul.
  - rewrite lookup_insert_ne by done. apply Hfree.
Qed.

(** The uncontended path: install the descriptor, complete it, read the result. *)
Lemma CAS_verify_install m a d D v c desired :
  cells m !! a = Some (LV v c) → descs m !! d = Some D → room c → c mod 4 = 0 → c + 32 < U64 →
  let ok := d_epoch D =? global_epoch m in
  CAS_verify_body d a v desired m =
    (Ret ok,
     Dmem (<[a := LV (if ok then desired else v) (c + 4)]> (cells m))
          (<[d := ScDesc v desired (d_epoch D) (d_tid_sn D) (LV a (c + 1 + (if ok then 1 else 2)))]> (descs m))
          (global_epoch m)).
Proof.
  intros Ha HD [Hr0 _] Hc Hm ok. unfold CAS_verify_body.
  assert ((c + 1) mod 4 = 1) as Hc1 by (by rewrite Z.add_mod, Hc by lia).
  dstep. rewrite Ha. simpl. rewrite is_desc_mod. simpl. rewrite Hc. simpl.
  rewrite Z.eqb_refl. simpl. rewrite land3, Hc. simpl. rewrite HD.
  rewrite u64_small by (unfold is_u64; lia). unfold cas_cell. dstep. simpl. rewrite Ha.
  rewrite decide_True by done. simpl.
  set (D1 := set_up_var (c + 1) a v desired D).
  set (m1 := Dmem (<[a := LV d (c + 1)]> (cells m)) (<[d := D1]> (descs m)) (global_epoch m)).
  rewrite (try_complete_spec m1 a d D1 (c + 1) 0);
    [|by apply lookup_insert_eq|by apply lookup_insert_eq|unfold D1; simpl; f_equal; lia
     |unfold room; lia|done|lia].
  assert (desc_commits m1 D1 = ok) as Hok.
  { unfold desc_commits. unfold D1 at 1 2. simpl. rewrite committed_mod, in_progress_mod. simpl.
    by rewrite Hc1. }
  unfold complete_state, completed. rewrite Hok. simpl. rewrite lookup_insert_eq. simpl.
  rewrite !insert_insert_eq, committed_mod. simpl.
  replace (c + 1 + 3) with (c + 4) by lia. rewrite (mod4_shift (c + 1)) by (done || by destruct ok).
  by destruct ok.
Qed.

(** [CAS_verify] is a compare-and-swap conditional on the epoch.  In a
    well-formed memory, called in an operation whose descriptor is free, it
    returns (the assertions of the code hold) and: when the cell holds a plain
    value it succeeds exactly if that value is the expected one and the epoch
    of the operation is still current; when the cell holds another thread's
    descriptor it completes it and fails.  On success the cell resolves to the
    desired value, otherwise to the same value as before; no other cell's value
    changes; the memory stays well formed and the descriptor free. *)
Theorem CAS_verify_spec (m : dmem) (d a expected desired : Z) (r : lin_var) (D : sc_desc_t) :
  dm_wf m → desc_free m d → descs m !! d = Some D → cells m !! a = Some r → lcnt r + 32 < U64 →
  ∃ b v m', CAS_verify_body d a expected desired m = (Ret b, m') ∧
    b = negb (is_desc r) && (lval r =? expected) && (d_epoch D =? global_epoch m) ∧
    resolve m a = Some v ∧ resolve m' a = Some (if b then desired else v) ∧
    (∀ a', a' ≠ a → resolve m' a' = resolve m a') ∧
    dm_wf m' ∧ desc_free m' d ∧ global_epoch m' = global_epoch m.
Proof.
  intros Hwf Hfree HD Hr Hm. pose proof (Hwf a r Hr) as [Hroom Hcase].
  destruct (is_desc r) eqn:Hd.
  - destruct (help_spec m a r Hwf Hr Hd Hm) as (D' & v & _ & Hv & Htc & Hwf' & Hc & Hnd & Hoth).
    exists false, v, (complete_state m a (lval r) (lcnt r) D').
    split; [unfold CAS_verify_body; dstep; by rewrite Hr, Hd, Htc|]. split; [done|].
    split; [done|]. split; [unfold resolve; by rewrite Hc, Hnd|]. split_and!; [done..| |done].
    apply desc_free_complete; try done. rewrite is_desc_mod in Hd. lia.
  - assert (lcnt r mod 4 = 0) as Hc.
    { rewrite is_desc_mod in Hd. destruct Hcase as [|[Hc _]]; [done|]. by rewrite Hc in Hd. }
    assert (resolve m a = Some (lval r)) as Hv by (unfold resolve; by rewrite Hr, Hd). simpl.
    destruct (Z.eqb_spec (lval r) expected) as [<-|Hne].
    + assert (cells m !! a = Some (LV (lval r) (lcnt r))) as Hr' by (by destruct r).
      pose proof (CAS_verify_install m a d D _ _ desired Hr' HD Hroom Hc Hm) as Hrun. simpl in Hrun.
      eexists _, (lval r), _. split; [exact Hrun|]. split; [done|]. split; [done|].
      assert ((lcnt r + 4) mod 4 = 0) as Hc4 by (by rewrite <- (Z.mod_add (lcnt r) 1 4) in Hc by lia).
      split; [|split; [|apply and_assoc; split; [|done]]].
      * unfold resolve. simpl. rewrite lookup_insert_eq, is_desc_mod. simpl. by rewrite Hc4.
      * apply (resolve_other _ _ a d); simpl; [intros; by rewrite lookup_insert_ne..|done|].
        intros a' r' _. apply Hfree.
      * apply dm_wf_plain; try done. destruct Hroom. unfold room. lia.
    + exists false, (lval r), m. split_and!; try done.
      unfold CAS_verify_body. dstep. rewrite Hr, Hd. destruct (Z.eqb_spec (lval r) expected); done.
Qed.

Lemma CAS_verify_spec_witness :
  ∃ b v m', CAS_verify_body 600 104 7 8 dcss_example = (Ret b, m') ∧
    b = negb (is_desc (LV 7 4)) && (lval (LV 7 4) =? 7) && (3 =? global_epoch dcss_example) ∧
    resolve dcss_example 104 = Some v ∧ resolve m' 104 = Some (if b then 8 else v) ∧
    (∀ a', a' ≠ 104 → resolve m' a' = resolve dcss_example a') ∧
    dm_wf m' ∧ desc_free m' 600 ∧ global_epoch m' = global_epoch dcss_example.
Proof.
  apply (CAS_verify_spec dcss_example 600 104 7 8 (LV 7 4) (ScDesc 0 0 3 0 (LV 0 0)));
    [apply dcss_example_wf| |reflexivity|reflexivity|done].
  intros a r. unfold dcss_example. simpl. rewrite !lookup_insert_Some, lookup_singleton_Some.
  by intros [[<- <-]|(_ & [<- <-])].
Defined.
