(* ===== verification/DcssConc.v ===== *)
(** * DCSS under concurrency (src/persist/EpochSys.hpp, EpochSys.cpp, api/Recoverable.hpp)

    [Dcss] runs each operation of an [atomic_lin_var] to its end; here the
    threads interleave between any two accesses to shared memory.  A thread's
    position inside [load], [CAS_verify], [CAS], [try_complete], [cleanup],
    [try_abort] or [begin_transaction] is its [pc]; the memory is that of
    [Dcss], and the address of the descriptor of thread [t] is written [t].

    The specification [astep] is an atomic register file: a call takes effect
    at one point between its invocation and its return; a [CAS_verify] may
    fail, and succeeds only if the epoch of its operation was found current
    since it was called. *)

From S2P Require Import Prelude Dcss.

Module DcssConc.

(** Calls and returns *)
Inductive op : Type :=
  | OLoad (a : Z)
  | OCas (a o n : Z)       (** [CAS_verify] *)
  | OPlain (a o n : Z).    (** [CAS] *)

Inductive res : Type := RVal (v : Z) | RBool (b : bool).

Inductive ev : Type :=
  | ECall (t : nat) (p : op)
  | ERet (t : nat) (r : res)
  | EBegin (t : nat) (e : Z)
  | EAdvance.

(** What a thread does after [try_complete]: the loop of [load], the failing
    return of a CAS, or the end of its own [CAS_verify]. *)
Inductive after : Type :=
  | ALoad
  | AFail (o n : Z)
  | APlain (o n : Z)
  | AOwn (o n : Z).

(** Positions in [try_complete] and [cleanup]. *)
Inductive hpc : Type :=
  | H0                        (** [_d = var.load()] *)
  | H1 (x : lin_var)          (** in progress: read [epoch] *)
  | H2 (x : lin_var) (e : Z)  (** [check_epoch(e)] *)
  | H3 (x : lin_var) (b : bool) (** [commit] or [abort] *)
  | H4 (x : lin_var)          (** [cleanup]: [new_d = var.load()] *)
  | H5 (y : lin_var)          (** read [new_val] or [old_val] *)
  | H6 (y : lin_var) (v : Z). (** the CAS on the cell *)

Inductive pc : Type :=
  | PIdle
  | PBegin1 (e : Z) | PBegin2 (e : Z)
  | PAbort0 (u : nat) (e : Z) | PAbort1 (u : nat) (e : Z) (x : lin_var)
  | PAbort2 (u : nat) (x : lin_var)
  | PLoad (a : Z)
  | PCas0 (a o n : Z)
  | PCas1 (a o n c : Z)  (** [var.store(lin_var(a, c+1))] *)
  | PCas2 (a o n c : Z)  (** [old_val = o] *)
  | PCas3 (a o n c : Z)  (** [new_val = n] *)
  | PCas4 (a o n c : Z)  (** install the descriptor *)
  | PCas5 (a o n k : Z)  (** [committed()] *)
  | PPlain0 (a o n : Z) | PPlain1 (a o n c : Z)
  | PHelp (d a k : Z) (h : hpc) (w : after).

Record cst : Type := Cst { mem : dmem; pcs : list pc }.

Inductive act : Type :=
  | Call (p : op)
  | Begin
  | TryAbort (u : nat) (e : Z)
  | Advance
  | Go.

Definition set_old (o : Z) (D : sc_desc_t) : sc_desc_t :=
  ScDesc o (d_new_val D) (d_epoch D) (d_tid_sn D) (d_var D).
Definition set_new (n : Z) (D : sc_desc_t) : sc_desc_t :=
  ScDesc (d_old_val D) n (d_epoch D) (d_tid_sn D) (d_var D).

Definition put_desc (d : Z) (D : sc_desc_t) (m : dmem) : dmem :=
  Dmem (cells m) (<[d := D]> (descs m)) (global_epoch m).

Definition ok {A} (o : outcome A) : option A := match o with Ret a => Some a | Throw _ => None end.

(** Run one access of [Dcss]; [None] when it is undefined. *)
Definition exec {A} (f : M dmem A) (m : dmem) : option (A * dmem) :=
  let '(r, m') := f m in r ← ok r; Some (r, m').

(** Where a call goes on after [try_complete(d, a)]. *)
Definition resume (t : nat) (a k : Z) (w : after) : pc * list ev :=
  match w with
  | ALoad => (PLoad a, [])
  | AFail _ _ | APlain _ _ => (PIdle, [ERet t (RBool false)])
  | AOwn o n => (PCas5 a o n k, [])
  end.

(** One access of [try_complete]; the result is the position inside it, or
    nothing when it has returned.  The failed assertion of [cleanup] is [None]. *)
Definition help_step (m : dmem) (d a k : Z) (h : hpc) : option (dmem * option hpc) :=
  D ← descs m !! d;
  match h with
  | H0 =>
      let x := d_var D in
      Some (m, if negb (lval x =? a) then None
               else if in_progress x then Some (H1 x) else Some (H4 x))
  | H1 x => Some (m, Some (H2 x (d_epoch D)))
  | H2 x e => Some (m, Some (H3 x (e =? global_epoch m)))
  | H3 x b =>
      '(_, m') ← exec (if b then commit d x else abort d x) m;
      Some (m', Some (H4 x))
  | H4 x =>
      let y := d_var D in
      if negb (match_ x y) then Some (m, None)
      else if in_progress y then None
      else Some (m, Some (H5 y))
  | H5 y => Some (m, Some (H6 y (if committed y then d_new_val D else d_old_val D)))
  | H6 y v =>
      '(_, m') ← exec (cas_cell (lval y) (LV d (Z.lor (base y) 1))
                        (LV v (if committed y then lcnt y +₆ 2 else lcnt y +₆ 1))) m;
      Some (m', None)
  end.

Definition call_pc (p : op) : pc :=
  match p with
  | OLoad a => PLoad a
  | OCas a o n => PCas0 a o n
  | OPlain a o n => PPlain0 a o n
  end.

(** One access of the thread [t]: the new memory, position and event. *)
Definition thread_step (m : dmem) (t : nat) (p : pc) (a : act) : option (dmem * pc * list ev) :=
  let d := Z.of_nat t in
  D ← descs m !! d;
  match p, a with
  | PIdle, Call q => Some (m, call_pc q, [ECall t q])
  | PIdle, Begin => Some (m, PBegin1 (global_epoch m), [])
  | PBegin1 e, Go => D' ← ok (reinit D); Some (put_desc d D' m, PBegin2 e, [])
  | PBegin2 e, Go => Some (put_desc d (set_up_epoch e D) m, PIdle, [EBegin t e])
  | PIdle, TryAbort u e => Some (m, PAbort0 u e, [])
  | PAbort0 u e, Go => D' ← descs m !! Z.of_nat u; Some (m, PAbort1 u e (d_var D'), [])
  | PAbort1 u e x, Go =>
      D' ← descs m !! Z.of_nat u;
      Some (m, if (d_epoch D' =? e) && in_progress x then PAbort2 u x else PIdle, [])
  | PAbort2 u x, Go => '(_, m') ← exec (abort (Z.of_nat u) x) m; Some (m', PIdle, [])
  | PIdle, Advance =>
      Some (Dmem (cells m) (descs m) (global_epoch m +₆ 1), PIdle, [EAdvance])
  | PLoad a, Go =>
      r ← cells m !! a;
      if is_desc r then Some (m, PHelp (lval r) a (lcnt r) H0 ALoad, [])
      else Some (m, PIdle, [ERet t (RVal (lval r))])
  | PCas0 a o n, Go =>
      r ← cells m !! a;
      if is_desc r then Some (m, PHelp (lval r) a (lcnt r) H0 (AFail o n), [])
      else if negb (lval r =? o) then Some (m, PIdle, [ERet t (RBool false)])
      else if Z.land (lcnt r) 3 =? 0 then Some (m, PCas1 a o n (lcnt r), []) else None
  | PCas1 a o n c, Go => Some (put_desc d (d_set_var (LV a (c +₆ 1)) D) m, PCas2 a o n c, [])
  | PCas2 a o n c, Go => Some (put_desc d (set_old o D) m, PCas3 a o n c, [])
  | PCas3 a o n c, Go => Some (put_desc d (set_new n D) m, PCas4 a o n c, [])
  | PCas4 a o n c, Go =>
      '(b, m') ← exec (cas_cell a (LV o c) (LV d (c +₆ 1))) m;
      if b : bool then Some (m', PHelp d a (c +₆ 1) H0 (AOwn o n), [])
      else Some (m', PIdle, [ERet t (RBool false)])
  | PCas5 a o n k, Go => Some (m, PIdle, [ERet t (RBool (committed (d_var D)))])
  | PPlain0 a o n, Go =>
      r ← cells m !! a;
      if is_desc r then Some (m, PHelp (lval r) a (lcnt r) H0 (APlain o n), [])
      else Some (m, PPlain1 a o n (lcnt r), [])
  | PPlain1 a o n c, Go =>
      '(b, m') ← exec (cas_cell a (LV o c) (LV n (c +₆ 4))) m;
      Some (m', PIdle, [ERet t (RBool b)])
  | PHelp d' a k h w, Go =>
      '(m', h') ← help_step m d' a k h;
      match h' with
      | Some h' => Some (m', PHelp d' a k h' w, [])
      | None => let '(p', evs) := resume t a k w in Some (m', p', evs)
      end
  | _, _ => None
  end.

Definition step (s : cst) (t : nat) (a : act) : option (cst * list ev) :=
  p ← pcs s !! t;
  '(m', p', evs) ← thread_step (mem s) t p a;
  Some (Cst m' (<[t := p']> (pcs s)), evs).

Fixpoint run (s : cst) (tr : list (nat * act)) : option (cst * list ev) :=
  match tr with
  | [] => Some (s, [])
  | (t, a) :: tr' =>
      '(s1, evs1) ← step s t a; '(s2, evs2) ← run s1 tr'; Some (s2, evs1 ++ evs2)
  end.

(** A helper is timely when the descriptor it looks at has not been set up again
    for the same cell since the helper read the cell. *)
Definition timely (s : cst) (t : nat) : bool :=
  match pcs s !! t with
  | Some (PHelp d a k H0 w) =>
      match descs (mem s) !! d with
      | Some D => negb (lval (d_var D) =? a) || (base (d_var D) =? k - 1)
      | None => true
      end
  | _ => true
  end.

Fixpoint timely_run (s : cst) (tr : list (nat * act)) : bool :=
  match tr with
  | [] => true
  | (t, a) :: tr' =>
      timely s t && match step s t a with Some (s1, _) => timely_run s1 tr' | None => true end
  end.

(** ** The specification: atomic registers *)

Inductive spc : Type := SIdle | SPend (p : op) (verified : bool) | SDone (r : res).

Record ast : Type := Ast {
  aval : gmap Z Z;
  aglob : Z;       (** the global epoch *)
  aop : list Z;    (** the epoch of the operation of each thread *)
  apc : list spc;
}.

Definition a_pc (t : nat) (x : spc) (A : ast) : ast := Ast (aval A) (aglob A) (aop A) (<[t := x]> (apc A)).
Definition a_write (a v : Z) (A : ast) : ast := Ast (<[a := v]> (aval A)) (aglob A) (aop A) (apc A).

(** The internal steps: where calls take effect. *)
Inductive alin : ast → ast → Prop :=
  | lin_load A t a v b :
      apc A !! t = Some (SPend (OLoad a) b) → aval A !! a = Some v →
      alin A (a_pc t (SDone (RVal v)) A)
  | lin_verify A t a o n b :
      apc A !! t = Some (SPend (OCas a o n) b) → aop A !! t = Some (aglob A) →
      alin A (a_pc t (SPend (OCas a o n) true) A)
  | lin_cas A t a o n :
      apc A !! t = Some (SPend (OCas a o n) true) → aval A !! a = Some o →
      alin A (a_pc t (SDone (RBool true)) (a_write a n A))
  | lin_plain A t a o n b :
      apc A !! t = Some (SPend (OPlain a o n) b) → aval A !! a = Some o →
      alin A (a_pc t (SDone (RBool true)) (a_write a n A))
  | lin_cas_fail A t a o n b :
      apc A !! t = Some (SPend (OCas a o n) b) → alin A (a_pc t (SDone (RBool false)) A)
  | lin_plain_fail A t a o n b :
      apc A !! t = Some (SPend (OPlain a o n) b) → alin A (a_pc t (SDone (RBool false)) A).

Inductive avis : ast → ev → ast → Prop :=
  | vis_call A t p : apc A !! t = Some SIdle → avis A (ECall t p) (a_pc t (SPend p false) A)
  | vis_ret A t r : apc A !! t = Some (SDone r) → avis A (ERet t r) (a_pc t SIdle A)
  | vis_begin A t e :
      apc A !! t = Some SIdle →
      avis A (EBegin t e) (Ast (aval A) (aglob A) (<[t := e]> (aop A)) (apc A))
  | vis_advance A : avis A EAdvance (Ast (aval A) (aglob A +₆ 1) (aop A) (apc A)).

Inductive aruns : ast → list ev → ast → Prop :=
  | aruns_nil A : aruns A [] A
  | aruns_lin A A1 evs A2 : alin A A1 → aruns A1 evs A2 → aruns A evs A2
  | aruns_vis A e A1 evs A2 : avis A e A1 → aruns A1 evs A2 → aruns A (e :: evs) A2.

Lemma aruns_app A evs1 A1 evs2 A2 : aruns A evs1 A1 → aruns A1 evs2 A2 → aruns A (evs1 ++ evs2) A2.
Proof. induction 1; intros; simpl; eauto using aruns. Qed.

(** ** The invariant

    The phase of a thread: its descriptor is not in use, being set up for a
    cell read with the counter [c], or installed in the cell with the counter
    [k] ([true]: no longer in the cell). *)

Inductive phase : Type :=
  | Free
  | Plain (c : Z)
  | Prep (i : nat) (a o n c : Z)
  | Inst (fin : bool) (a o n k : Z).

Definition phase_of (p : pc) : phase :=
  match p with
  | PPlain1 _ _ _ c => Plain c
  | PCas1 a o n c => Prep 0 a o n c
  | PCas2 a o n c => Prep 1 a o n c
  | PCas3 a o n c => Prep 2 a o n c
  | PCas4 a o n c => Prep 3 a o n c
  | PCas5 a o n k => Inst true a o n k
  | PHelp _ a k _ (AOwn o n) => Inst false a o n k
  | _ => Free
  end.

Definition ph (s : cst) (t : nat) : phase := default Free (phase_of <$> pcs s !! t).

(** The cell [a] has left the counter [k] behind and the descriptor [D] is not
    in progress there. *)
Definition passed (m : dmem) (D : sc_desc_t) (a k : Z) : Prop :=
  (∃ r, cells m !! a = Some r ∧ k + 3 ≤ lcnt r) ∧ d_var D ≠ LV a k.

Definition owner_ok (m : dmem) (t : nat) (D : sc_desc_t) (f : phase) : Prop :=
  match f with
  | Free => True
  | Plain c => c mod 4 = 0 ∧ 0 ≤ c
  | Prep i a o n c =>
      c mod 4 = 0 ∧ 0 ≤ c ∧ (∃ r, cells m !! a = Some r ∧ c ≤ lcnt r) ∧
      ((1 ≤ i)%nat → d_var D = LV a (c + 1) ∨ d_var D = LV a (c + 3)) ∧
      ((2 ≤ i)%nat → d_old_val D = o) ∧ ((3 ≤ i)%nat → d_new_val D = n)
  | Inst fin a o n k =>
      k mod 4 = 1 ∧ 1 ≤ k ∧ d_old_val D = o ∧ d_new_val D = n ∧
      (∃ j, 0 ≤ j ≤ 2 ∧ d_var D = LV a (k + j)) ∧
      (cells m !! a = Some (LV (Z.of_nat t) k) ∧ fin = false ∨ passed m D a k)
  end.

Definition cell_ok (f : nat → phase) (a : Z) (r : lin_var) : Prop :=
  0 ≤ lcnt r ∧
  (lcnt r mod 4 = 0 ∨
   lcnt r mod 4 = 1 ∧ ∃ t o n, lval r = Z.of_nat t ∧ f t = Inst false a o n (lcnt r)).

(** What a helper knows: [shape] of what it read, [cond] as long as the
    descriptor is installed for the counter [k] it saw. *)
Definition shape (a k : Z) (h : hpc) : Prop :=
  match h with
  | H0 => True
  | H1 x | H2 x _ | H3 x _ => x = LV a k
  | H4 x => lval x = a ∧ base x = k - 1
  | H5 y | H6 y _ => lval y = a ∧ base y = k - 1
  end.

Definition cond (D : sc_desc_t) (a k : Z) (h : hpc) : Prop :=
  match h with
  | H2 _ e => e = d_epoch D
  | H4 _ => d_var D ≠ LV a k
  | H5 y => d_var D ≠ LV a k ∧ y = d_var D
  | H6 y v => d_var D ≠ LV a k ∧ y = d_var D ∧ v = if committed y then d_new_val D else d_old_val D
  | _ => True
  end.

Definition gone (m : dmem) (f : nat → phase) (t : nat) (D : sc_desc_t) (a k : Z) : Prop :=
  passed m D a k ∧ ∀ i o n c, f t = Prep i a o n c → k + 3 ≤ c.

Definition help_ok (m : dmem) (f : nat → phase) (d a k : Z) (h : hpc) : Prop :=
  ∃ t D, d = Z.of_nat t ∧ descs m !! d = Some D ∧ k mod 4 = 1 ∧ 1 ≤ k ∧ shape a k h ∧
    ((∃ fin o n, f t = Inst fin a o n k) ∧ cond D a k h ∨ gone m f t D a k).

Record inv (N : Z) (s : cst) : Prop := {
  i_own : ∀ t p, pcs s !! t = Some p →
    ∃ D, descs (mem s) !! Z.of_nat t = Some D ∧ owner_ok (mem s) t D (phase_of p);
  i_cell : ∀ a r, cells (mem s) !! a = Some r → cell_ok (ph s) a r;
  i_help : ∀ t d a k h w, pcs s !! t = Some (PHelp d a k h w) →
    help_ok (mem s) (ph s) d a k h ∧ ∀ o n, w = AOwn o n → d = Z.of_nat t;
  i_bound : ∀ a r, cells (mem s) !! a = Some r → lcnt r ≤ 4 * N;
  i_var : ∀ d D, descs (mem s) !! d = Some D → 0 ≤ lcnt (d_var D) ≤ 4 * N;
}.

(** Replacing the position of a thread *)
Definition upd_ph (f : nat → phase) (t : nat) (x : phase) : nat → phase :=
  λ u, if decide (u = t) then x else f u.

Lemma ph_lookup s t p : pcs s !! t = Some p → ph s t = phase_of p.
Proof. unfold ph. by intros ->. Qed.

Lemma ph_insert s t p p' m' u :
  pcs s !! t = Some p → ph (Cst m' (<[t := p']> (pcs s))) u = upd_ph (ph s) t (phase_of p') u.
Proof.
  intros Hp. unfold ph, upd_ph. simpl. destruct (decide (u = t)) as [->|Hne].
  - rewrite list_lookup_insert_eq; [done|by eapply lookup_lt_Some].
  - by rewrite list_lookup_insert_ne.
Qed.

Lemma cell_ok_ext f f' a r : (∀ u, f' u = f u) → cell_ok f a r → cell_ok f' a r.
Proof. intros Hf [H0 [H|(H & t & o & n & Hv & Ht)]]; split; auto. right. rewrite <- Hf in Ht. eauto 8. Qed.

Lemma help_ok_ext m f f' d a k h : (∀ u, f' u = f u) → help_ok m f d a k h → help_ok m f' d a k h.
Proof.
  intros Hf (t & D & Hd & HD & Hk & Hk1 & Hsh & Hc). exists t, D. split_and!; try done.
  destruct Hc as [[Hi Hc]|[Hp Hg]]; [left|right].
  - split; [|done]. by rewrite Hf.
  - split; [done|]. by rewrite Hf.
Qed.

(** One thread [t] moves from [p] to [p'] and the memory becomes [m']: what is
    to be shown of the other threads, of [t], of the cells and of the helpers. *)
Lemma inv_move N s t p p' m' :
  inv N s → pcs s !! t = Some p →
  (∀ u D, u ≠ t → descs (mem s) !! Z.of_nat u = Some D → owner_ok (mem s) u D (ph s u) →
     ∃ D', descs m' !! Z.of_nat u = Some D' ∧ owner_ok m' u D' (ph s u)) →
  (∃ D', descs m' !! Z.of_nat t = Some D' ∧ owner_ok m' t D' (phase_of p')) →
  (∀ a r, cells m' !! a = Some r → cell_ok (upd_ph (ph s) t (phase_of p')) a r) →
  (∀ d a k h, help_ok (mem s) (ph s) d a k h → help_ok m' (upd_ph (ph s) t (phase_of p')) d a k h) →
  (∀ d a k h w, p' = PHelp d a k h w → help_ok m' (upd_ph (ph s) t (phase_of p')) d a k h ∧
     ∀ o n, w = AOwn o n → d = Z.of_nat t) →
  (∀ a r, cells m' !! a = Some r → lcnt r ≤ 4 * (N + 1)) →
  (∀ d D, descs m' !! d = Some D → 0 ≤ lcnt (d_var D) ≤ 4 * (N + 1)) →
  inv (N + 1) (Cst m' (<[t := p']> (pcs s))).
Proof.
  intros Hi Hp Hoth Hme Hcell Hhelp Hnew Hb Hvb. split; simpl; try done.
  - intros u q. intros [(<- & <- & _)|[Hne Hq]]%list_lookup_insert_Some; [done|].
    destruct (i_own _ _ Hi u q Hq) as (D & HD & Hok). rewrite <- (ph_lookup _ _ _ Hq) in *. eauto.
  - intros a r Hr. eapply cell_ok_ext; [by intros; apply (ph_insert s t p)|by apply Hcell].
  - intros u d a k h w Hu.
    assert (help_ok m' (upd_ph (ph s) t (phase_of p')) d a k h ∧
            ∀ o n, w = AOwn o n → d = Z.of_nat u) as [Hh Hw].
    { apply list_lookup_insert_Some in Hu as [(<- & -> & _)|[Hne Hu]]; [by apply (Hnew _ _ _ _ w)|].
      destruct (i_help _ _ Hi _ _ _ _ _ _ Hu). eauto. }
    split; [|done]. eapply help_ok_ext; [by intros; apply (ph_insert s t p)|done].
Qed.

Definition cells_up (m m' : dmem) : Prop :=
  ∀ a r, cells m !! a = Some r → ∃ r', cells m' !! a = Some r' ∧ lcnt r ≤ lcnt r'.

Lemma cells_up_refl m m' : cells m' = cells m → cells_up m m'.
Proof. unfold cells_up. intros -> a r Hr. eauto with lia. Qed.

Lemma passed_up m m' D D' a k :
  cells_up m m' → d_var D' ≠ LV a k → passed m D a k → passed m' D' a k.
Proof. intros Hup Hv [(r & Hr & Hk) _]. split; [|done]. destruct (Hup a r Hr) as (r' & Hr' & ?). eauto with lia. Qed.

(** Helpers keep what they know when every owner keeps or ends its installation. *)
Lemma help_frame m m' f f' d a k h :
  (∀ t D, descs m !! Z.of_nat t = Some D → ∃ D', descs m' !! Z.of_nat t = Some D' ∧
     ∀ a k, k mod 4 = 1 → 1 ≤ k →
       (∀ h fin o n, f t = Inst fin a o n k → cond D a k h →
          (∃ fin o n, f' t = Inst fin a o n k) ∧ cond D' a k h ∨ gone m' f' t D' a k) ∧
       (gone m f t D a k → gone m' f' t D' a k)) →
  help_ok m f d a k h → help_ok m' f' d a k h.
Proof.
  intros Hf (t & D & -> & HD & Hk & Hk1 & Hsh & Hc).
  destruct (Hf t D HD) as (D' & HD' & Hak). destruct (Hak a k Hk Hk1) as [Hi Hg].
  exists t, D'. split_and!; try done. destruct Hc as [[(fin & o & n & Hin) Hc]|Hc]; eauto.
Qed.

Section Moves.
Context (N : Z) (s : cst) (t : nat) (p p' : pc).
Context (Hinv : inv N s) (Hp : pcs s !! t = Some p).

Lemma own_desc : ∃ D, descs (mem s) !! Z.of_nat t = Some D ∧ owner_ok (mem s) t D (phase_of p).
Proof. by apply (i_own _ _ Hinv). Qed.

Lemma upd_ph_same u : phase_of p' = phase_of p → upd_ph (ph s) t (phase_of p') u = ph s u.
Proof.
  intros Heq. unfold upd_ph. destruct (decide (u = t)) as [->|]; [|done].
  by rewrite Heq, (ph_lookup _ _ _ Hp).
Qed.

Lemma upd_ph_eq x : upd_ph (ph s) t x t = x.
Proof. unfold upd_ph. by rewrite decide_True. Qed.
Lemma upd_ph_ne u x : u ≠ t → upd_ph (ph s) t x u = ph s u.
Proof. intros. unfold upd_ph. by rewrite decide_False. Qed.

(** A step that changes neither memory (but for the epoch) nor phase. *)
Lemma inv_local m' :
  cells m' = cells (mem s) → descs m' = descs (mem s) → phase_of p' = phase_of p →
  (∀ d a k h w, p' = PHelp d a k h w →
     help_ok (mem s) (ph s) d a k h ∧ ∀ o n, w = AOwn o n → d = Z.of_nat t) →
  inv (N + 1) (Cst m' (<[t := p']> (pcs s))).
Proof.
  intros Hc Hd Heq Hnew.
  assert (∀ u D f, owner_ok (mem s) u D f → owner_ok m' u D f) as Hown.
  { intros u D [| | |]; simpl; unfold passed; by rewrite ?Hc. }
  assert (∀ d a k h, help_ok (mem s) (ph s) d a k h →
            help_ok m' (upd_ph (ph s) t (phase_of p')) d a k h) as Hh.
  { intros d a k h Hh. eapply help_ok_ext; [intros; by apply upd_ph_same|].
    revert Hh. apply help_frame. intros u D HD. exists D. rewrite Hd. split; [done|].
    intros a0 k0 _ _. unfold gone, passed. rewrite Hc. split; [|done]. intros. left. eauto. }
  eapply inv_move; try done.
  - intros u D _ HD Hok. exists D. rewrite Hd. auto.
  - destruct own_desc as (D & HD & Hok). exists D. rewrite Hd, Heq. auto.
  - intros a r. rewrite Hc. intros Hr. eapply cell_ok_ext; [intros; by apply upd_ph_same|].
    by eapply i_cell.
  - intros d a k h w Hw. destruct (Hnew _ _ _ _ _ Hw). auto.
  - intros a r. rewrite Hc. intros Hr. pose proof (i_bound _ _ Hinv _ _ Hr). lia.
  - intros d D. rewrite Hd. intros HD. pose proof (i_var _ _ Hinv _ _ HD). lia.
Qed.

(** The thread writes its own descriptor, which is not installed. *)
Lemma inv_own_write D D' :
  descs (mem s) !! Z.of_nat t = Some D →
  (∀ fin a o n k, phase_of p ≠ Inst fin a o n k) → (∀ fin a o n k, phase_of p' ≠ Inst fin a o n k) →
  owner_ok (put_desc (Z.of_nat t) D' (mem s)) t D' (phase_of p') →
  (∀ a k, k mod 4 = 1 → 1 ≤ k → gone (mem s) (ph s) t D a k →
     d_var D' ≠ LV a k ∧ ∀ i o n c, phase_of p' = Prep i a o n c → k + 3 ≤ c) →
  (∀ d a k h w, p' ≠ PHelp d a k h w) → 0 ≤ lcnt (d_var D') ≤ 4 * (N + 1) →
  inv (N + 1) (Cst (put_desc (Z.of_nat t) D' (mem s)) (<[t := p']> (pcs s))).
Proof.
  intros HD Hn Hn' Hok Hg Hnh Hvb. pose proof (ph_lookup _ _ _ Hp) as Hph.
  eapply inv_move; try done.
  - intros u Du Hne HDu Hu. exists Du. simpl. split; [by rewrite lookup_insert_ne by lia|done].
  - exists D'. split; [by apply lookup_insert_eq|done].
  - intros a r Hr. destruct (i_cell _ _ Hinv a r Hr) as [H0 [H|(H & v & o & n & Hv & Hi)]];
      split; auto. right. split; [done|]. exists v, o, n. split; [done|].
    rewrite upd_ph_ne; [done|]. intros ->. rewrite Hph in Hi. by eapply Hn.
  - intros d a k h. apply help_frame. intros u Du HDu. simpl.
    destruct (decide (u = t)) as [->|Hne].
    + rewrite HD in HDu. injection HDu as <-. exists D'. split; [by apply lookup_insert_eq|].
      intros a0 k0 Hk Hk1. split.
      * intros h0 fin o n Hi. rewrite Hph in Hi. by destruct (Hn fin a0 o n k0).
      * intros Hgo. destruct (Hg a0 k0 Hk Hk1 Hgo) as [Hv Hpr]. split.
        -- eapply passed_up; [by apply cells_up_refl|done|apply Hgo].
        -- rewrite upd_ph_eq. apply Hpr.
    + exists Du. split; [by rewrite lookup_insert_ne by lia|].
      intros a0 k0 _ _. unfold gone. rewrite upd_ph_ne by done. split; [|done]. intros. left. eauto.
  - intros d a k h w ->. by destruct (Hnh d a k h w).
  - intros a r Hr. pose proof (i_bound _ _ Hinv _ _ Hr). lia.
  - intros d Dd Hd. simpl in Hd. apply lookup_insert_Some in Hd as [[<- <-]|[_ Hd]]; [done|]. pose proof (i_var _ _ Hinv _ _ Hd). lia.
Qed.

End Moves.

Ltac mod_lia := Z.div_mod_to_equations; lia.

(** The memory changes, no thread moves. *)
Lemma inv_mem N s m' :
  inv N s →
  (∀ u D, descs (mem s) !! Z.of_nat u = Some D → owner_ok (mem s) u D (ph s u) →
     ∃ D', descs m' !! Z.of_nat u = Some D' ∧ owner_ok m' u D' (ph s u)) →
  (∀ a r, cells m' !! a = Some r → cell_ok (ph s) a r ∧ lcnt r ≤ 4 * (N + 1)) →
  (∀ d a k h, help_ok (mem s) (ph s) d a k h → help_ok m' (ph s) d a k h) →
  (∀ d D, descs m' !! d = Some D → 0 ≤ lcnt (d_var D) ≤ 4 * (N + 1)) →
  inv (N + 1) (Cst m' (pcs s)).
Proof.
  intros Hi Hown Hcell Hhelp Hvb. split; simpl; try done.
  - intros u q Hq. destruct (i_own _ _ Hi u q Hq) as (D & HD & Hok).
    rewrite <- (ph_lookup _ _ _ Hq) in *. eauto.
  - intros a r Hr. by destruct (Hcell a r Hr).
  - intros u d a k h w Hu. destruct (i_help _ _ Hi _ _ _ _ _ _ Hu). eauto.
  - intros a r Hr. by destruct (Hcell a r Hr).
Qed.

(** [commit] or [abort] of the descriptor of [u], which is in progress. *)
Lemma inv_decide N s u D a k j :
  inv N s → descs (mem s) !! Z.of_nat u = Some D → d_var D = LV a k → k mod 4 = 1 →
  j = 2 ∨ j = 1 ∧ (∀ i a o n c, ph s u ≠ Prep i a o n c) →
  inv (N + 1) (Cst (put_desc (Z.of_nat u) (d_set_var (LV a (k + j)) D) (mem s)) (pcs s)).
Proof.
  intros Hi HD Hv Hk Hj. set (D' := d_set_var (LV a (k + j)) D).
  assert (∀ v Dv, descs (mem s) !! Z.of_nat v = Some Dv → v = u ∧ Dv = D ∨ v ≠ u) as Hcase.
  { intros v Dv HDv. destruct (decide (v = u)) as [->|]; [left|by right]. split; congruence. }
  assert (∀ fin a0 o n k0 i, owner_ok (mem s) u D (Inst fin a0 o n k0) → 0 ≤ i ≤ 2 →
            d_var D = LV a0 (k0 + i) → a0 = a ∧ k0 = k) as Hinst.
  { intros fin a0 o n k0 i (Hk0 & _) Hi0 Hv0. rewrite Hv in Hv0. injection Hv0 as -> ->.
    split; [done|mod_lia]. }
  apply inv_mem; [done| | | |].
  - intros v Dv HDv Hok. destruct (Hcase v Dv HDv) as [[-> ->]|Hne].
    2: { exists Dv. simpl. split; [by rewrite lookup_insert_ne by lia|done]. }
    exists D'. split; [by apply lookup_insert_eq|]. destruct (ph s u) as [| |i a0 o n c|fin a0 o n k0] eqn:Hph;
      try done.
    + destruct Hok as (Hc & Hc0 & Hcell & Hvar & Ho & Hn). split_and!; try done. intros H1.
      destruct Hj as [->|[_ Hno]]; [|by destruct (Hno i a0 o n c)].
      destruct (Hvar H1) as [Hv'|Hv']; rewrite Hv in Hv'; injection Hv' as -> ->; [right|mod_lia].
      unfold D'. simpl. f_equal. lia.
    + pose proof Hok as (Hk0 & Hk1 & Ho & Hn & (j0 & Hj0 & Hv0) & Hcell).
      destruct (Hinst fin a0 o n k0 j0 Hok Hj0 Hv0) as [-> ->].
      split_and!; try done; [exists j; split; [lia|done]|].
      destruct Hcell as [Hcell|[_ Hbad]]; [by left|done].
  - intros b r Hr. split; [by eapply i_cell|]. pose proof (i_bound _ _ Hi _ _ Hr). lia.
  - intros d b kb h. apply help_frame. intros v Dv HDv. destruct (Hcase v Dv HDv) as [[-> ->]|Hne].
    2: { exists Dv. simpl. split; [by rewrite lookup_insert_ne by lia|]. intros; split; [left; eauto|done]. }
    exists D'. split; [by apply lookup_insert_eq|]. intros a0 k0 Hk0 Hk1. split.
    + intros h0 fin o n Hph Hc. left. split; [eauto|].
      assert (owner_ok (mem s) u D (ph s u)) as Hok.
      { unfold ph in *. destruct (pcs s !! u) as [q|] eqn:Hq; [|done]. simpl in *.
        destruct (i_own _ _ Hi u q Hq) as (D0 & HD0 & Hok). by simplify_eq. }
      rewrite Hph in Hok. pose proof Hok as (_ & _ & _ & _ & (j0 & Hj0 & Hv0) & _).
      destruct (Hinst fin a0 o n k0 j0 Hok Hj0 Hv0) as [-> ->].
      destruct h0; try done; simpl in Hc; naive_solver.
    + intros [Hpas Hpr]. split; [|done]. eapply passed_up; [by apply cells_up_refl| |done].
      unfold D'. simpl. intros [= -> ?]. mod_lia.
  - intros d Dd Hd. simpl in Hd. apply lookup_insert_Some in Hd as [[<- <-]|[_ Hd]]; [|pose proof (i_var _ _ Hi _ _ Hd); lia].
    pose proof (i_var _ _ Hi _ _ HD) as Hb. rewrite Hv in Hb. simpl in *. lia.
Qed.

Definition put_cell (a : Z) (r : lin_var) (m : dmem) : dmem :=
  Dmem (<[a := r]> (cells m)) (descs m) (global_epoch m).

Lemma put_cell_up a r0 r1 m :
  cells m !! a = Some r0 → lcnt r0 ≤ lcnt r1 → cells_up m (put_cell a r1 m).
Proof.
  intros Hr0 Hle b r Hr. simpl. destruct (decide (a = b)) as [<-|Hne].
  - exists r1. rewrite lookup_insert_eq. simplify_eq. done.
  - exists r. rewrite lookup_insert_ne by done. eauto with lia.
Qed.

Lemma gone_up m m' f t D a k : cells_up m m' → gone m f t D a k → gone m' f t D a k.
Proof. intros Hup [Hpas Hpr]. split; [|done]. eapply passed_up; [done|apply Hpas|done]. Qed.

(** A cell gets a plain value: a plain CAS, or [cleanup] of a decided descriptor. *)
Lemma inv_put_plain N s a r0 r1 :
  inv N s → cells (mem s) !! a = Some r0 → lcnt r1 mod 4 = 0 → lcnt r0 ≤ lcnt r1 ≤ lcnt r0 + 4 →
  (∀ u o n D, r0 = LV (Z.of_nat u) (lcnt r0) → ph s u = Inst false a o n (lcnt r0) →
     descs (mem s) !! Z.of_nat u = Some D → lcnt r0 + 3 ≤ lcnt r1 ∧ d_var D ≠ LV a (lcnt r0)) →
  inv (N + 1) (Cst (put_cell a r1 (mem s)) (pcs s)).
Proof.
  intros Hi Hr0 Hmod Hle Hdesc. pose proof (put_cell_up a r0 r1 (mem s) Hr0 ltac:(lia)) as Hup.
  apply inv_mem; [done| | | |].
  - intros u D HD Hok. exists D. split; [done|]. destruct (ph s u) as [| |i a0 o n c|fin a0 o n k] eqn:Hph;
      try done; simpl in *.
    + destruct Hok as (Hc & Hc0 & (r & Hr & Hrc) & Hrest). split_and!; try done; [|apply Hrest..].
      destruct (Hup a0 r Hr) as (r' & Hr' & ?). eauto with lia.
    + destruct Hok as (Hk & Hk1 & Ho & Hn & Hv & Hcell). split_and!; try done.
      destruct Hcell as [[Hcell ->]|Hpas]; [|right; eapply passed_up; [done|apply Hpas|done]].
      destruct (decide (a = a0)) as [<-|Hne]; [|left; by rewrite lookup_insert_ne].
      right. rewrite Hr0 in Hcell. injection Hcell as ->. simpl in *.
      destruct (Hdesc u o n D eq_refl Hph HD) as [H3 Hvar]. split; [|done].
      exists r1. simpl. by rewrite lookup_insert_eq.
  - intros b r Hr. simpl in Hr. apply lookup_insert_Some in Hr as [[<- <-]|[_ Hr]].
    + pose proof (i_cell _ _ Hi _ _ Hr0) as [H0 _]. pose proof (i_bound _ _ Hi _ _ Hr0).
      split; [split; [lia|by left]|lia].
    + split; [by eapply i_cell|]. pose proof (i_bound _ _ Hi _ _ Hr). lia.
  - intros d b kb h. apply help_frame. intros v Dv HDv. exists Dv. split; [done|].
    intros a0 k0 _ _. split; [left; eauto|by apply gone_up].
  - intros d D HD. pose proof (i_var _ _ Hi _ _ HD). lia.
Qed.

(** A thread moves to another phase without touching the memory. *)
Lemma inv_phase N s t p p' D :
  inv N s → pcs s !! t = Some p → descs (mem s) !! Z.of_nat t = Some D →
  owner_ok (mem s) t D (phase_of p') →
  (∀ fin a o n k, phase_of p = Inst fin a o n k →
     passed (mem s) D a k ∧ phase_of p' = Free ∨ passed (mem s) D a k ∧ phase_of p' = Inst true a o n k) →
  (∀ a k, k mod 4 = 1 → gone (mem s) (ph s) t D a k →
     ∀ i o n c, phase_of p' = Prep i a o n c → k + 3 ≤ c) →
  (∀ d a k h w, p' ≠ PHelp d a k h w) →
  inv (N + 1) (Cst (mem s) (<[t := p']> (pcs s))).
Proof.
  intros Hi Hp HD Hok Hin Hpr Hnh. pose proof (ph_lookup _ _ _ Hp) as Hph.
  assert (∀ u, u ≠ t → upd_ph (ph s) t (phase_of p') u = ph s u) as Hne.
  { intros. unfold upd_ph. by rewrite decide_False. }
  assert (upd_ph (ph s) t (phase_of p') t = phase_of p') as Heq.
  { unfold upd_ph. by rewrite decide_True. }
  eapply inv_move; try done.
  - eauto.
  - eauto.
  - intros a r Hr. destruct (i_cell _ _ Hi a r Hr) as [H0 [H|(H & v & o & n & Hv & Hf)]];
      split; auto. right. split; [done|]. exists v, o, n. split; [done|].
    rewrite Hne; [done|]. intros ->. rewrite Hph in Hf.
    destruct (Hin _ _ _ _ _ Hf) as [[[(r' & Hr' & ?) _] _]|[[(r' & Hr' & ?) _] _]]; simplify_eq; lia.
  - intros d a k h. apply help_frame. intros u Du HDu. exists Du. split; [done|].
    intros a0 k0 Hk Hk1. destruct (decide (u = t)) as [->|Hu].
    + assert (Du = D) as -> by congruence. rewrite Hph, Heq. split.
      * intros h0 fin o n Hf Hc. destruct (Hin _ _ _ _ _ Hf) as [[Hpas Hf']|[Hpas Hf']].
        -- right. split; [done|]. rewrite Heq, Hf'. done.
        -- left. eauto.
      * intros Hg. split; [apply Hg|]. rewrite Heq. by apply Hpr.
    + unfold gone. rewrite !Hne by done. split; [left; eauto|done].
  - intros d a k h w ->. by destruct (Hnh d a k h w).
  - intros a r Hr. pose proof (i_bound _ _ Hi _ _ Hr). lia.
  - intros d Dd Hd. pose proof (i_var _ _ Hi _ _ Hd). lia.
Qed.

(** Installing the descriptor in the cell, still as it was read. *)
Lemma inv_install N s t a o n c :
  inv N s → pcs s !! t = Some (PCas4 a o n c) → cells (mem s) !! a = Some (LV o c) →
  inv (N + 1) (Cst (put_cell a (LV (Z.of_nat t) (c + 1)) (mem s))
                   (<[t := PHelp (Z.of_nat t) a (c + 1) H0 (AOwn o n)]> (pcs s))).
Proof.
  intros Hi Hp Hr. pose proof (ph_lookup _ _ _ Hp) as Hph.
  pose proof (put_cell_up a _ (LV (Z.of_nat t) (c + 1)) (mem s) Hr ltac:(simpl; lia)) as Hup.
  destruct (i_own _ _ Hi _ _ Hp) as (D & HD & Hc & Hc0 & _ & Hv & Ho & Hn).
  specialize (Hv ltac:(lia)). specialize (Ho ltac:(lia)). specialize (Hn ltac:(lia)).
  assert (∀ u x, u ≠ t → upd_ph (ph s) t x u = ph s u) as Hne.
  { intros. unfold upd_ph. by rewrite decide_False. }
  assert (∀ x, upd_ph (ph s) t x t = x) as Heq.
  { intros. unfold upd_ph. by rewrite decide_True. }
  assert (∀ b r v o n k, cells (mem s) !! b = Some r → ph s v = Inst false b o n k → v ≠ t) as Hmine.
  { intros b r v o' n' k _ Hf ->. by rewrite Hph in Hf. }
  assert (help_ok (put_cell a (LV (Z.of_nat t) (c + 1)) (mem s))
           (upd_ph (ph s) t (Inst false a o n (c + 1))) (Z.of_nat t) a (c + 1) H0) as Hnew.
  { exists t, D. split_and!; try done; [mod_lia|lia|]. left. rewrite Heq. split; [eauto|done]. }
  eapply inv_move; try done.
  - intros u Du Hu HDu Hok. exists Du. split; [done|].
    destruct (ph s u) as [| |i a0 o0 n0 c0|fin a0 o0 n0 k0] eqn:Hphu; try done; simpl in *.
    + destruct Hok as (Hc' & Hc0' & (r & Hr' & Hrc) & Hrest). split_and!; try done; [|apply Hrest..].
      destruct (Hup a0 r Hr') as (r' & Hr'' & ?). eauto with lia.
    + destruct Hok as (Hk & Hk1 & Ho' & Hn' & Hv' & Hcell). split_and!; try done.
      destruct Hcell as [[Hcell ->]|Hpas]; [left|right; eapply passed_up; [done|apply Hpas|done]].
      rewrite lookup_insert_ne; [done|]. intros <-. rewrite Hr in Hcell. injection Hcell as -> ->. mod_lia.
  - exists D. split; [done|]. simpl. split_and!; try done; [mod_lia|lia| |].
    + destruct Hv as [Hv|Hv]; [exists 0|exists 2]; (split; [lia|]); rewrite Hv; f_equal; lia.
    + left. split; [by rewrite lookup_insert_eq|done].
  - intros b r Hb. simpl in Hb. apply lookup_insert_Some in Hb as [[<- <-]|[_ Hb]].
    + split; [simpl; lia|right]. split; [simpl; mod_lia|]. exists t, o, n. rewrite Heq. done.
    + destruct (i_cell _ _ Hi b r Hb) as [H0 [H|(H & v & o' & n' & Hvr & Hf)]]; split; auto.
      right. split; [done|]. exists v, o', n'. rewrite Hne by (by eapply Hmine). done.
  - intros d b kb h. apply help_frame. intros u Du HDu. exists Du. split; [done|].
    intros a0 k0 _ _. destruct (decide (u = t)) as [->|Hu].
    + rewrite Hph. split; [done|]. intros Hg. apply (gone_up _ _ _ _ _ _ _ Hup) in Hg.
      destruct Hg as [Hpas _]. split; [done|]. by rewrite Heq.
    + rewrite Hne by done. split; [left; eauto|]. intros Hg. apply (gone_up _ _ _ _ _ _ _ Hup) in Hg.
      unfold gone in *. by rewrite Hne.
  - intros d b k h w [= <- <- <- <- <-]. split; [done|]. by intros o' n' [= <- <-].
  - intros b r Hb. simpl in Hb. apply lookup_insert_Some in Hb as [[<- <-]|[_ Hb]].
    + pose proof (i_bound _ _ Hi _ _ Hr). simpl in *. lia.
    + pose proof (i_bound _ _ Hi _ _ Hb). lia.
  - intros d Dd Hd. pose proof (i_var _ _ Hi _ _ Hd). lia.
Qed.

(** ** Single accesses *)

Lemma base_div x : base x = lcnt x / 4 * 4.
Proof.
  unfold base. change 3 with (Z.ones 2).
  rewrite Z.ldiff_ones_r, Z.shiftl_mul_pow2, Z.shiftr_div_pow2 by lia. done.
Qed.

Lemma lor_base_div x : Z.lor (base x) 1 = lcnt x / 4 * 4 + 1.
Proof. rewrite base_div. apply lor1. mod_lia. Qed.

Lemma lor_base_k a k x : k mod 4 = 1 → lval x = a → base x = k - 1 → LV (lval x) (Z.lor (base x) 1) = LV a k.
Proof. intros Hk -> Hb. rewrite Hb. f_equal. by apply lor_pred. Qed.

(** [commit] and [abort]: one CAS on the descriptor. *)
Lemma decide_exec (b : bool) d x m D :
  descs m !! d = Some D →
  let k := Z.lor (base x) 1 in
  let j := if b then 1 else 2 in
  exec (if b then commit d x else abort d x) m =
    Some (if decide (d_var D = LV (lval x) k)
          then (true, put_desc d (d_set_var (LV (lval x) (k +₆ j)) D) m) else (false, m)).
Proof.
  intros HD k j. unfold exec, commit, abort, k, j.
  destruct b; unfold cas_desc_var; dstep; rewrite HD; simpl; by case_decide.
Qed.

Lemma cas_cell_exec a r0 r1 m r :
  cells m !! a = Some r →
  exec (cas_cell a r0 r1) m = Some (if decide (r = r0) then (true, put_cell a r1 m) else (false, m)).
Proof. intros Hr. unfold exec, cas_cell. dstep. rewrite Hr. by case_decide. Qed.

Lemma inv_mono N N' s : inv N s → N ≤ N' → inv N' s.
Proof.
  intros [H1 H2 H3 H4 H5] Hle. split; try done.
  - intros a r Hr. specialize (H4 a r Hr). lia.
  - intros d D HD. specialize (H5 d D HD). lia.
Qed.

Lemma ph_owner N s t f : inv N s → ph s t = f → f ≠ Free →
  ∃ D, descs (mem s) !! Z.of_nat t = Some D ∧ owner_ok (mem s) t D f.
Proof.
  intros Hi <- Hne. unfold ph in *. destruct (pcs s !! t) as [q|] eqn:Hq; [|done].
  by apply (i_own _ _ Hi).
Qed.

Section HelpStep.
Context (N : Z) (s : cst) (t : nat) (d a k : Z) (h : hpc) (w : after).
Context (Hinv : inv N s) (Hp : pcs s !! t = Some (PHelp d a k h w)) (HN : 4 * N + 16 < U64).

(** What the invariant says of a helper, with the bounds of its counter. *)
Lemma help_facts : ∃ u D, d = Z.of_nat u ∧ descs (mem s) !! d = Some D ∧ k mod 4 = 1 ∧
  1 ≤ k ≤ 4 * N ∧ shape a k h ∧ (∃ r, cells (mem s) !! a = Some r ∧ k ≤ lcnt r) ∧
  ((∃ fin o n, ph s u = Inst fin a o n k ∧ owner_ok (mem s) u D (Inst fin a o n k)) ∧ cond D a k h ∨
   gone (mem s) (ph s) u D a k).
Proof.
  destruct (i_help _ _ Hinv _ _ _ _ _ _ Hp) as [(u & D & -> & HD & Hk & Hk1 & Hsh & Hc) _].
  assert ((∃ r, cells (mem s) !! a = Some r ∧ k ≤ lcnt r) ∧
    ((∃ fin o n, ph s u = Inst fin a o n k ∧ owner_ok (mem s) u D (Inst fin a o n k)) ∧ cond D a k h ∨
     gone (mem s) (ph s) u D a k)) as [(r & Hr & Hkr) Hc'].
  { destruct Hc as [[(fin & o & n & Hf) Hc]|Hg].
    - destruct (ph_owner _ _ _ _ Hinv Hf) as (D' & HD' & Hok); [done|]. assert (D' = D) as -> by congruence.
      split; [|left; eauto 8]. destruct Hok as (_ & _ & _ & _ & _ & [[Hcell _]|[(r & Hr & ?) _]]);
        [eexists; split; [done|simpl; lia]|eauto with lia].
    - split; [|by right]. destruct Hg as [[(r & Hr & ?) _] _]. eauto with lia. }
  pose proof (i_bound _ _ Hinv _ _ Hr). exists u, D. split_and!; try done; [lia|eauto].
Qed.

(** The helper of one's own descriptor. *)
Lemma own_facts o n : w = AOwn o n →
  ∃ D, d = Z.of_nat t ∧ descs (mem s) !! d = Some D ∧ owner_ok (mem s) t D (Inst false a o n k).
Proof.
  intros ->. destruct (i_help _ _ Hinv _ _ _ _ _ _ Hp) as [_ Hd]. specialize (Hd o n eq_refl).
  destruct (i_own _ _ Hinv _ _ Hp) as (D & HD & Hok). exists D. subst d. done.
Qed.

(** A helper goes on inside [try_complete]. *)
Lemma inv_help_go h' D :
  descs (mem s) !! d = Some D → shape a k h' →
  (∀ u fin o n, d = Z.of_nat u → ph s u = Inst fin a o n k → cond D a k h → cond D a k h') →
  inv (N + 1) (Cst (mem s) (<[t := PHelp d a k h' w]> (pcs s))).
Proof.
  intros HD Hsh Hc. apply (inv_local _ _ _ _ _ Hinv Hp); try done.
  intros d0 a0 k0 h0 w0 [= <- <- <- <- <-].
  destruct (i_help _ _ Hinv _ _ _ _ _ _ Hp) as [(u & D' & Hd & HD' & Hk & Hk1 & _ & Hcase) Hw].
  split; [|done]. assert (D' = D) as -> by congruence. exists u, D. split_and!; try done.
  destruct Hcase as [[(fin & o & n & Hf) Hc0]|Hg]; [left|by right]. split; [eauto|]. by eapply Hc.
Qed.

(** A helper returns from [try_complete] without having changed the memory. *)
Lemma inv_help_done :
  (∀ o n D, w = AOwn o n → descs (mem s) !! d = Some D → passed (mem s) D a k) →
  inv (N + 1) (Cst (mem s) (<[t := (resume t a k w).1]> (pcs s))).
Proof.
  intros Hpas. pose proof own_facts as Hown. destruct w as [|o n|o n|o n]; simpl.
  1-3: by apply (inv_local _ _ _ _ _ Hinv Hp).
  destruct (Hown o n eq_refl) as (D & Hd & HD & Hok). specialize (Hpas o n D eq_refl HD).
  rewrite Hd in HD. eapply inv_phase; try done.
  - destruct Hok as (H1 & H2 & H3 & H4 & H5 & _). simpl. split_and!; try done. by right.
  - intros fin a0 o0 n0 k0 [= <- <- <- <- <-]. right. done.
Qed.

End HelpStep.

Definition after_help (t : nat) (d a k : Z) (w : after) (h' : option hpc) : pc :=
  match h' with Some h' => PHelp d a k h' w | None => (resume t a k w).1 end.

(** The status of an installed descriptor. *)
Lemma inst_status a k j : k mod 4 = 1 → 0 ≤ j ≤ 2 →
  in_progress (LV a (k + j)) = (j =? 0) ∧ committed (LV a (k + j)) = (j =? 1) ∧
  base (LV a (k + j)) = k - 1.
Proof.
  intros Hk Hj. rewrite in_progress_mod, committed_mod, base_div. simpl.
  assert (j = 0 ∨ j = 1 ∨ j = 2) as [->|[->| ->]] by lia; simpl; split_and!; mod_lia.
Qed.

Lemma in_progress_k x a k : k mod 4 = 1 → lval x = a → base x = k - 1 → in_progress x = true → x = LV a k.
Proof.
  rewrite in_progress_mod, base_div. intros Hk <- Hb Hip. destruct x as [v c]. simpl in *.
  f_equal. mod_lia.
Qed.

Section HelpInv.
Context (N : Z) (s : cst) (t : nat) (d a k : Z) (w : after).
Context (Hinv : inv N s) (HN : 4 * N + 16 < U64).

Lemma inv_H0 m' h' :
  pcs s !! t = Some (PHelp d a k H0 w) → timely s t = true →
  help_step (mem s) d a k H0 = Some (m', h') →
  inv (N + 1) (Cst m' (<[t := after_help t d a k w h']> (pcs s))).
Proof.
  intros Hp Ht Hst. destruct (help_facts _ _ _ _ _ _ _ _ Hinv Hp) as (u & D & Hd & HD & Hk & _ & _ & _ & Hcase).
  unfold help_step in Hst. rewrite HD in Hst. simpl in Hst.
  unfold timely in Ht. rewrite Hp, HD in Ht.
  destruct (Z.eqb_spec (lval (d_var D)) a) as [Ha|Ha]; simpl in Hst, Ht.
  - apply Z.eqb_eq in Ht. destruct (in_progress (d_var D)) eqn:Hip; injection Hst as <- <-;
      (eapply inv_help_go; [done..|exact HD| |]).
    + by apply in_progress_k.
    + done.
    + done.
    + intros v fin o n _ _ _ Heq. rewrite Heq in Hip. rewrite in_progress_mod in Hip. simpl in Hip.
      by rewrite Hk in Hip.
  - injection Hst as <- <-. eapply inv_help_done; [done..|]. intros o n D0 Hw HD0. exfalso.
    destruct (own_facts _ _ _ _ _ _ _ _ Hinv Hp o n Hw) as (D' & _ & HD' & Hok).
    destruct Hok as (_ & _ & _ & _ & (j & _ & Hv) & _). simplify_eq. by rewrite Hv in Ha.
Qed.

Lemma inv_H12 h h' m' :
  (∃ x, h = H1 x) ∨ (∃ x e, h = H2 x e) ∨ (∃ y, h = H5 y) →
  pcs s !! t = Some (PHelp d a k h w) → help_step (mem s) d a k h = Some (m', h') →
  inv (N + 1) (Cst m' (<[t := after_help t d a k w h']> (pcs s))).
Proof.
  intros Hh Hp Hst. destruct (help_facts _ _ _ _ _ _ _ _ Hinv Hp) as (u & D & Hd & HD & Hk & _ & Hsh & _).
  unfold help_step in Hst. rewrite HD in Hst. simpl in Hst.
  destruct Hh as [[x ->]|[(x & e & ->)|[y ->]]]; injection Hst as <- <-;
    (eapply inv_help_go; [done..|exact HD|done|done || naive_solver]).
Qed.

Lemma inv_H3 x b m' h' :
  pcs s !! t = Some (PHelp d a k (H3 x b) w) → help_step (mem s) d a k (H3 x b) = Some (m', h') →
  inv (N + 2) (Cst m' (<[t := after_help t d a k w h']> (pcs s))).
Proof.
  intros Hp Hst. destruct (help_facts _ _ _ _ _ _ _ _ Hinv Hp) as (u & D & Hd & HD & Hk & Hkb & Hsh & _ & Hcase).
  simpl in Hsh. subst x. unfold help_step in Hst. rewrite HD in Hst. simpl in Hst.
  rewrite (decide_exec b d _ _ D HD) in Hst.
  assert (LV a (Z.lor (base (LV a k)) 1) = LV a k) as Hlor.
  { apply (lor_base_k a k (LV a k)); [done..|]. rewrite base_div. simpl. mod_lia. }
  injection Hlor as Hlor. simpl lval in Hst. rewrite Hlor in Hst.
  case_decide as Hv; simpl in Hst; injection Hst as <- <-; simpl after_help.
  - rewrite u64_small by (unfold is_u64; destruct b; lia).
    destruct Hcase as [[(fin & o & n & Hf & _) _]|[[_ Hbad] _]]; [|done].
    set (D' := d_set_var (LV a (k + (if b then 1 else 2))) D).
    assert (inv (N + 1) (Cst (put_desc d D' (mem s)) (pcs s))) as Hi1.
    { subst d. eapply inv_decide; try done. destruct b; [right|by left]. split; [done|].
      intros i a0 o0 n0 c0. by rewrite Hf. }
    replace (N + 2) with (N + 1 + 1) by lia.
    apply (inv_help_go (N + 1) (Cst (put_desc d D' (mem s)) (pcs s)) t d a k (H3 (LV a k) b) w Hi1 Hp _ D').
    + by apply lookup_insert_eq.
    + simpl. split; [done|]. rewrite base_div. simpl. mod_lia.
    + intros _ _ _ _ _ _ _. unfold D'. simpl. intros [= ?]. destruct b; lia.
  - apply (inv_mono (N + 1)); [|lia].
    apply (inv_help_go N s t d a k (H3 (LV a k) b) w Hinv Hp _ D HD); [|done].
    simpl. split; [done|]. rewrite base_div. simpl. mod_lia.
Qed.

(** The assertion of [cleanup] holds. *)
Lemma cleanup_assert x D :
  pcs s !! t = Some (PHelp d a k (H4 x) w) → descs (mem s) !! d = Some D →
  match_ x (d_var D) = true → in_progress (d_var D) = false.
Proof.
  intros Hp HD Hm. destruct (help_facts _ _ _ _ _ _ _ _ Hinv Hp) as (u & D' & _ & HD' & Hk & _ & Hsh & _ & Hcase).
  assert (D' = D) as -> by congruence. destruct Hsh as [Ha Hb].
  unfold match_ in Hm. apply andb_true_iff in Hm as [Hm1 Hm2].
  apply Z.eqb_eq in Hm1, Hm2. destruct (in_progress (d_var D)) eqn:Hip; [|done]. exfalso.
  assert (d_var D = LV a k) as Hv by (apply in_progress_k; congruence).
  destruct Hcase as [[_ Hc]|[[_ Hbad] _]]; simpl in *; congruence.
Qed.

Lemma inv_H4 x m' h' :
  pcs s !! t = Some (PHelp d a k (H4 x) w) → help_step (mem s) d a k (H4 x) = Some (m', h') →
  inv (N + 1) (Cst m' (<[t := after_help t d a k w h']> (pcs s))).
Proof.
  intros Hp Hst. destruct (help_facts _ _ _ _ _ _ _ _ Hinv Hp) as (u & D & Hd & HD & Hk & Hkb & [Ha Hb] & _ & _).
  unfold help_step in Hst. rewrite HD in Hst. simpl in Hst.
  destruct (match_ x (d_var D)) eqn:Hm; simpl in Hst.
  - rewrite (cleanup_assert x D Hp HD Hm) in Hst. injection Hst as <- <-.
    unfold match_ in Hm. apply andb_true_iff in Hm as [Hm1 Hm2]. apply Z.eqb_eq in Hm1, Hm2.
    eapply inv_help_go; [done..|exact HD| |].
    + simpl. split; congruence.
    + intros _ _ _ _ _ _ Hc. by split.
  - injection Hst as <- <-. eapply inv_help_done; [done..|]. intros o n D0 Hw HD0. exfalso.
    destruct (own_facts _ _ _ _ _ _ _ _ Hinv Hp o n Hw) as (D' & _ & HD' & Hok).
    destruct Hok as (_ & _ & _ & _ & (j & Hj & Hv) & _). simplify_eq.
    destruct (inst_status (lval x) k j Hk Hj) as (_ & _ & Hbj).
    unfold match_ in Hm. rewrite Hv in Hm. simpl in Hm. rewrite Hbj, Hb, !Z.eqb_refl in Hm. done.
Qed.

Lemma inv_H6 y v m' h' :
  pcs s !! t = Some (PHelp d a k (H6 y v) w) → help_step (mem s) d a k (H6 y v) = Some (m', h') →
  inv (N + 2) (Cst m' (<[t := after_help t d a k w h']> (pcs s))).
Proof.
  intros Hp Hst.
  destruct (help_facts _ _ _ _ _ _ _ _ Hinv Hp) as (u & D & Hd & HD & Hk & Hkb & [Ha Hb] & (r & Hr & _) & Hcase).
  unfold help_step in Hst. rewrite HD, Ha in Hst. simpl in Hst.
  rewrite (cas_cell_exec _ _ _ _ r Hr), Hb, lor_pred in Hst by done.
  case_decide as Hrk; simpl in Hst; injection Hst as <- <-; simpl after_help.
  - subst r.
    destruct Hcase as [[(fin & o & n & Hf & Hok) (Hvk & Hy & _)]|[[(r & Hr' & ?) _] _]]; [|simplify_eq; simpl in *; lia].
    destruct Hok as (_ & _ & _ & _ & (j & Hj & Hv) & _). rewrite Hv in Hvk, Hy.
    destruct (inst_status a k j Hk Hj) as (_ & Hcm & _). rewrite Hy, Hcm. simpl.
    assert (j = 1 ∨ j = 2) as Hj12.
    { assert (j ≠ 0); [|lia]. intros ->. by rewrite Z.add_0_r in Hvk. }
    set (c' := if j =? 1 then k + j +₆ 2 else k + j +₆ 1).
    assert (c' = k + 3) as Hc'.
    { unfold c'. destruct Hj12 as [-> | ->]; simpl; rewrite u64_small by (unfold is_u64; lia); lia. }
    rewrite Hc'.
    assert (inv (N + 1) (Cst (put_cell a (LV v (k + 3)) (mem s)) (pcs s))) as Hi1.
    { eapply inv_put_plain; [done|exact Hr|simpl; mod_lia|simpl; lia|]. simpl.
      intros u0 o0 n0 D0 [= Hd0] _ HD0. rewrite Hd in HD. assert (u0 = u) as -> by lia. simplify_eq.
      split; [lia|]. by rewrite Hv. }
    replace (N + 2) with (N + 1 + 1) by lia.
    apply (inv_help_done (N + 1) (Cst (put_cell a (LV v (k + 3)) (mem s)) (pcs s)) t d a k (H6 y v) w Hi1 Hp).
    intros o0 n0 D0 _ HD0. simpl in HD0. simplify_eq. split; [|by rewrite Hv].
    eexists. simpl. rewrite lookup_insert_eq. split; [done|simpl; lia].
  - apply (inv_mono (N + 1)); [|lia].
    apply (inv_help_done N s t d a k (H6 y v) w Hinv Hp). intros o n D0 Hw HD0.
    destruct (own_facts _ _ _ _ _ _ _ _ Hinv Hp o n Hw) as (D' & Hd' & HD' & Hok).
    destruct Hok as (_ & _ & _ & _ & _ & [[Hcell _]|Hpas]); [|by simplify_eq].
    exfalso. rewrite <- Hd' in Hcell. congruence.
Qed.

End HelpInv.

Lemma inv_help_step N s t d a k h w m' h' :
  inv N s → 4 * N + 16 < U64 → timely s t = true → pcs s !! t = Some (PHelp d a k h w) →
  help_step (mem s) d a k h = Some (m', h') →
  inv (N + 2) (Cst m' (<[t := after_help t d a k w h']> (pcs s))).
Proof.
  intros Hi HN Ht Hp Hst. destruct h as [|x|x e|x b|x|y|y v].
  - apply (inv_mono (N + 1)); [by eapply inv_H0|lia].
  - apply (inv_mono (N + 1)); [eapply (inv_H12 N s t d a k w Hi); [|exact Hp|exact Hst]; naive_solver|lia].
  - apply (inv_mono (N + 1)); [eapply (inv_H12 N s t d a k w Hi); [|exact Hp|exact Hst]; naive_solver|lia].
  - by eapply inv_H3.
  - apply (inv_mono (N + 1)); [by eapply inv_H4|lia].
  - apply (inv_mono (N + 1)); [eapply (inv_H12 N s t d a k w Hi); [|exact Hp|exact Hst]; naive_solver|lia].
  - by eapply inv_H6.
Qed.

(** A cell that holds a descriptor: the thread that read it starts to help. *)
Lemma help_ok_start N s a r :
  inv N s → cells (mem s) !! a = Some r → is_desc r = true →
  help_ok (mem s) (ph s) (lval r) a (lcnt r) H0.
Proof.
  rewrite is_desc_mod. intros Hi Hr Hd.
  destruct (i_cell _ _ Hi a r Hr) as [H0 [H|(H & u & o & n & Hv & Hf)]]; [by rewrite H in Hd|].
  destruct (ph_owner _ _ _ _ Hi Hf) as (D & HD & _ & Hk1 & _); [done|].
  exists u, D. rewrite Hv. split_and!; try done. left. split; [eauto|done].
Qed.

Lemma plain_cell N s a r :
  inv N s → cells (mem s) !! a = Some r → is_desc r = false → lcnt r mod 4 = 0 ∧ 0 ≤ lcnt r.
Proof.
  rewrite is_desc_mod. intros Hi Hr Hd. destruct (i_cell _ _ Hi a r Hr) as [H0 [H|(H & _)]]; [done|].
  by rewrite H in Hd.
Qed.

Section StepInv.
Context (N : Z) (s : cst) (t : nat).
Context (Hinv : inv N s) (HN : 4 * N + 16 < U64).

(** Positions with a free descriptor: helping, or returning. *)
Lemma inv_read p p' a r w :
  pcs s !! t = Some p → phase_of p = Free → cells (mem s) !! a = Some r →
  (∀ o n, w ≠ AOwn o n) →
  p' = PHelp (lval r) a (lcnt r) H0 w ∧ is_desc r = true ∨ phase_of p' = Free ∧ (∀ d a k h w, p' ≠ PHelp d a k h w) →
  inv (N + 1) (Cst (mem s) (<[t := p']> (pcs s))).
Proof.
  intros Hp Hf Hr Hw [[-> Hd]|[Hf' Hnh]].
  - apply (inv_local _ _ _ _ _ Hinv Hp); try done.
    + rewrite Hf. destruct w; try done. by destruct (Hw o n).
    + intros d0 a0 k0 h0 w0 [= <- <- <- <- <-]. split; [by eapply help_ok_start|].
      intros o n ->. by destruct (Hw o n).
  - apply (inv_local _ _ _ _ _ Hinv Hp); try done; [by rewrite Hf|].
    intros d0 a0 k0 h0 w0 ->. by destruct (Hnh d0 a0 k0 h0 w0).
Qed.

Lemma inv_cas1 a o n r :
  pcs s !! t = Some (PCas0 a o n) → cells (mem s) !! a = Some r → lcnt r mod 4 = 0 →
  inv (N + 1) (Cst (mem s) (<[t := PCas1 a o n (lcnt r)]> (pcs s))).
Proof.
  intros Hp Hr Hm. destruct (i_own _ _ Hinv _ _ Hp) as (D & HD & _).
  pose proof (i_cell _ _ Hinv _ _ Hr) as [H0 _]. eapply inv_phase; try done.
  - simpl. split_and!; try done; [eauto with lia|lia..].
  - intros a0 k Hk [[(r' & Hr' & ?) _] _] i o0 n0 c [= <- <- <- <- <-]. simplify_eq. lia.
Qed.

(** Returning when the phase needs nothing more. *)
Lemma inv_return p D :
  pcs s !! t = Some p → descs (mem s) !! Z.of_nat t = Some D →
  (∀ fin a o n k, phase_of p = Inst fin a o n k → passed (mem s) D a k) →
  inv (N + 1) (Cst (mem s) (<[t := PIdle]> (pcs s))).
Proof.
  intros Hp HD Hin. eapply inv_phase; try done. intros fin a o n k Hf. left. split; [by eapply Hin|done].
Qed.

Lemma inv_cas_set p p' D' D a o n c i :
  pcs s !! t = Some p → phase_of p = Prep i a o n c → phase_of p' = Prep (S i) a o n c →
  descs (mem s) !! Z.of_nat t = Some D → owner_ok (mem s) t D' (Prep (S i) a o n c) →
  (d_var D' = d_var D ∨ d_var D' = LV a (c + 1)) →
  inv (N + 1) (Cst (put_desc (Z.of_nat t) D' (mem s)) (<[t := p']> (pcs s))).
Proof.
  intros Hp Hf Hf' HD Hok Hv. destruct (i_own _ _ Hinv _ _ Hp) as (D0 & HD0 & Hok0).
  rewrite Hf in Hok0. destruct Hok0 as (Hc & Hc0 & (r & Hr & Hrc) & _).
  pose proof (i_bound _ _ Hinv _ _ Hr) as Hb. pose proof (i_var _ _ Hinv _ _ HD) as Hvb.
  apply (inv_own_write _ _ _ p p' Hinv Hp D D'); try done.
  - intros. by rewrite Hf.
  - intros. by rewrite Hf'.
  - by rewrite Hf'.
  - intros a0 k Hk Hk1 [[_ Hne] Hpr]. rewrite Hf'. split; [|].
    + destruct Hv as [-> | ->]; [done|]. intros [= <- <-].
      specialize (Hpr i o n c). rewrite (ph_lookup _ _ _ Hp), Hf in Hpr. specialize (Hpr eq_refl). lia.
    + intros i0 o0 n0 c0 [= <- <- <- <- <-]. apply (Hpr i o n c). by rewrite (ph_lookup _ _ _ Hp), Hf.
  - intros d a0 k h w ->. simpl in Hf'. by destruct w.
  - destruct Hv as [-> | ->]; simpl; lia.
Qed.

End StepInv.

Lemma inv_abort N s u x b m1 :
  inv N s → 4 * N + 16 < U64 → exec (abort (Z.of_nat u) x) (mem s) = Some (b, m1) →
  inv (N + 1) (Cst m1 (pcs s)).
Proof.
  intros Hi HN Hex. destruct (descs (mem s) !! Z.of_nat u) as [D|] eqn:HD.
  2: { unfold exec, abort, cas_desc_var in Hex. revert Hex. dstep. by rewrite HD. }
  pose proof (decide_exec false _ x _ D HD) as Hd. simpl in Hd. rewrite Hd in Hex.
  case_decide as Hv; injection Hex as <- <-; [|by apply (inv_mono N); [destruct s|lia]].
  pose proof (i_var _ _ Hi _ _ HD) as Hb. rewrite Hv in Hb. simpl in Hb.
  rewrite u64_small by (unfold is_u64; lia). eapply inv_decide; try done; [|by left].
  rewrite lor_base_div. mod_lia.
Qed.

(** The two outcomes of the CAS that installs the descriptor, and of a plain CAS. *)
Lemma install_cases N s t a o n c b m1 :
  inv N s → 4 * N + 16 < U64 → pcs s !! t = Some (PCas4 a o n c) →
  exec (cas_cell a (LV o c) (LV (Z.of_nat t) (c +₆ 1))) (mem s) = Some (b, m1) →
  c +₆ 1 = c + 1 ∧
  (b = true ∧ cells (mem s) !! a = Some (LV o c) ∧ m1 = put_cell a (LV (Z.of_nat t) (c + 1)) (mem s) ∨
   b = false ∧ m1 = mem s).
Proof.
  intros Hi HN Hp Hex. destruct (i_own _ _ Hi _ _ Hp) as (D & HD & Hc & Hc0 & (r & Hr & Hrc) & _).
  pose proof (i_bound _ _ Hi _ _ Hr).
  assert (c +₆ 1 = c + 1) as Hadd by (apply u64_small; unfold is_u64; lia). split; [done|].
  rewrite (cas_cell_exec _ _ _ _ r Hr), Hadd in Hex. case_decide; simplify_eq; auto.
Qed.

Lemma plain_cases N s t a o n c b m1 :
  inv N s → pcs s !! t = Some (PPlain1 a o n c) →
  exec (cas_cell a (LV o c) (LV n (c +₆ 4))) (mem s) = Some (b, m1) →
  b = true ∧ cells (mem s) !! a = Some (LV o c) ∧ m1 = put_cell a (LV n (c +₆ 4)) (mem s) ∧
    c mod 4 = 0 ∧ 0 ≤ c ≤ 4 * N ∨
  b = false ∧ m1 = mem s.
Proof.
  intros Hi Hp Hex. destruct (i_own _ _ Hi _ _ Hp) as (D & HD & Hc & Hc0).
  destruct (cells (mem s) !! a) as [r|] eqn:Hr.
  2: { unfold exec, cas_cell in Hex. revert Hex. dstep. by rewrite Hr. }
  rewrite (cas_cell_exec _ _ _ _ r Hr) in Hex. pose proof (i_bound _ _ Hi _ _ Hr) as Hb.
  case_decide; simplify_eq; [left|by right]. by split_and!.
Qed.

Lemma inv_plain_cas N s t a o n c :
  inv N s → 4 * N + 16 < U64 → pcs s !! t = Some (PPlain1 a o n c) →
  cells (mem s) !! a = Some (LV o c) → c mod 4 = 0 → 0 ≤ c ≤ 4 * N →
  inv (N + 2) (Cst (put_cell a (LV n (c +₆ 4)) (mem s)) (<[t := PIdle]> (pcs s))).
Proof.
  intros Hi HN Hp Hr Hc Hb. destruct (i_own _ _ Hi _ _ Hp) as (D & HD & _).
  rewrite u64_small by (unfold is_u64; lia). replace (N + 2) with (N + 1 + 1) by lia.
  eapply (inv_return (N + 1) (Cst _ (pcs s))); try done.
  eapply inv_put_plain; [done|exact Hr|simpl; mod_lia|simpl; lia|]. simpl.
  intros u o0 n0 D0 _ Hf _. destruct (ph_owner _ _ _ _ Hi Hf) as (D1 & _ & Hk & _); [done|]. mod_lia.
Qed.

(** The points of [begin_transaction] and of the abort, and those of the
    operations themselves; the others are helping. *)
Definition in_transaction (p : pc) : bool :=
  match p with PIdle | PBegin1 _ | PBegin2 _ | PAbort0 _ _ | PAbort1 _ _ _ | PAbort2 _ _ => true | _ => false end.
Definition in_op (p : pc) : bool :=
  match p with PHelp _ _ _ _ _ => false | _ => negb (in_transaction p) end.

Lemma inv_transaction_step N s t p a m' p' evs :
  inv N s → 4 * N + 16 < U64 → pcs s !! t = Some p → in_transaction p = true → thread_step (mem s) t p a = Some (m', p', evs) →
  inv (N + 2) (Cst m' (<[t := p']> (pcs s))).
Proof.
  intros Hi HN Hp Hpc Hts. destruct (i_own _ _ Hi _ _ Hp) as (D & HD & Hok). pose proof (i_var _ _ Hi _ _ HD) as HDv.
  unfold thread_step in Hts. rewrite HD in Hts. simpl in Hts.
  destruct p as [|e|e|u e|u e x|u x|b|b o n|b o n c|b o n c|b o n c|b o n c|b o n k|b o n|b o n c|d b k h w];
    try done; destruct a as [q| |u' e'| |]; try done; simpl in Hts.
  (* calls *)
  1-4: injection Hts as <- <- <-; apply (inv_mono (N + 1)); [|lia];
    apply (inv_local _ _ _ _ _ Hi Hp); try done; try (by destruct q).
  - (* PBegin1 *) apply bind_Some in Hts as (D' & HD' & Hts). injection Hts as <- <- <-.
    apply (inv_mono (N + 1)); [|lia].
    assert (d_var D' = LV 0 0) as HDv'.
    { unfold reinit in HD'. destruct (increment_sn (d_tid_sn D)); simpl in HD'; by simplify_eq. }
    apply (inv_own_write _ _ _ _ _ Hi Hp D D'); try done; rewrite HDv'; simpl; [|lia].
    intros a k _ Hk _. split; [|done]. intros [= <- <-]. lia.
  - (* PBegin2 *) injection Hts as <- <- <-. apply (inv_mono (N + 1)); [|lia].
    apply (inv_own_write _ _ _ _ _ Hi Hp D _); try done; simpl; [|lia].
    intros a k _ Hk [[_ Hg] _]. by split.
  - (* PAbort0 *) apply bind_Some in Hts as (D' & HD' & Hts). injection Hts as <- <- <-.
    apply (inv_mono (N + 1)); [|lia]. by apply (inv_local _ _ _ _ _ Hi Hp).
  - (* PAbort1 *) apply bind_Some in Hts as (D' & HD' & Hts). injection Hts as <- <- <-.
    apply (inv_mono (N + 1)); [|lia]. apply (inv_local _ _ _ _ _ Hi Hp); try done; by case_match.
  - (* PAbort2 *) apply bind_Some in Hts as ([bb m1] & Hex & Hts). injection Hts as <- <- <-.
    replace (N + 2) with (N + 1 + 1) by lia.
    by apply (inv_local (N + 1) (Cst m1 (pcs s)) _ _ _ (inv_abort _ _ _ _ _ _ Hi HN Hex) Hp).
Qed.

Lemma inv_op_step N s t p a m' p' evs :
  inv N s → 4 * N + 16 < U64 → pcs s !! t = Some p → in_op p = true → thread_step (mem s) t p a = Some (m', p', evs) →
  inv (N + 2) (Cst m' (<[t := p']> (pcs s))).
Proof.
  intros Hi HN Hp Hpc Hts. destruct (i_own _ _ Hi _ _ Hp) as (D & HD & Hok). pose proof (i_var _ _ Hi _ _ HD) as HDv.
  unfold thread_step in Hts. rewrite HD in Hts. simpl in Hts.
  destruct p as [|e|e|u e|u e x|u x|b|b o n|b o n c|b o n c|b o n c|b o n c|b o n k|b o n|b o n c|d b k h w];
    try done; destruct a as [q| |u' e'| |]; try done; simpl in Hts.
  - (* PLoad *) apply bind_Some in Hts as (r & Hr & Hts). apply (inv_mono (N + 1)); [|lia].
    destruct (is_desc r) eqn:Hd; injection Hts as <- <- <-;
      eapply (inv_read _ _ _ Hi _ _ _ r ALoad); naive_solver.
  - (* PCas0 *) apply bind_Some in Hts as (r & Hr & Hts). apply (inv_mono (N + 1)); [|lia].
    destruct (is_desc r) eqn:Hd; [|destruct (Z.eqb_spec (lval r) o); simpl in Hts;
      [destruct (Z.eqb_spec (Z.land (lcnt r) 3) 0); [|done]|]]; injection Hts as <- <- <-.
    + eapply (inv_read _ _ _ Hi _ _ _ r (AFail o n)); naive_solver.
    + apply inv_cas1; try done. by rewrite <- land3.
    + eapply (inv_read _ _ _ Hi _ _ _ r (AFail o n)); naive_solver.
  - (* PCas1 *) injection Hts as <- <- <-. apply (inv_mono (N + 1)); [|lia].
    pose proof Hok as (Hc & Hc0 & (r & Hr & Hrc) & _). pose proof (i_bound _ _ Hi _ _ Hr).
    rewrite u64_small by (unfold is_u64; lia).
    eapply (inv_cas_set _ _ _ Hi _ _ _ D b o n c 0); try done; [|by right].
    simpl. split_and!; try done; [eauto|by left|lia..].
  - (* PCas2 *) injection Hts as <- <- <-. apply (inv_mono (N + 1)); [|lia].
    eapply (inv_cas_set _ _ _ Hi _ _ _ D b o n c 1); try done; [|by left].
    destruct Hok as (H1 & H2 & H3 & H4 & _). simpl. split_and!; try done; [intros; apply H4; lia|lia].
  - (* PCas3 *) injection Hts as <- <- <-. apply (inv_mono (N + 1)); [|lia].
    eapply (inv_cas_set _ _ _ Hi _ _ _ D b o n c 2); try done; [|by left].
    destruct Hok as (H1 & H2 & H3 & H4 & H5 & _).
    simpl. split_and!; try done; intros; [apply H4|apply H5]; lia.
  - (* PCas4 *) apply bind_Some in Hts as ([bb m1] & Hex & Hts).
    destruct (install_cases _ _ _ _ _ _ _ _ _ Hi HN Hp Hex) as (Hc & [(-> & Hr & ->)|(-> & ->)]);
      rewrite ?Hc in Hts; injection Hts as <- <- <-; apply (inv_mono (N + 1)); try lia;
      [by apply inv_install|by eapply inv_return].
  - (* PCas5 *) injection Hts as <- <- <-. apply (inv_mono (N + 1)); [|lia].
    eapply inv_return; try done. intros fin a0 o0 n0 k0 [= <- <- <- <- <-].
    by destruct Hok as (_ & _ & _ & _ & _ & [[_ ?]|?]).
  - (* PPlain0 *) apply bind_Some in Hts as (r & Hr & Hts). apply (inv_mono (N + 1)); [|lia].
    destruct (is_desc r) eqn:Hd; injection Hts as <- <- <-.
    + eapply (inv_read _ _ _ Hi _ _ _ r (APlain o n)); naive_solver.
    + eapply inv_phase; try done. by eapply plain_cell.
  - (* PPlain1 *) apply bind_Some in Hts as ([bb m1] & Hex & Hts). injection Hts as <- <- <-.
    destruct (plain_cases _ _ _ _ _ _ _ _ _ Hi Hp Hex) as [(-> & Hr & -> & Hc & Hb)|[-> ->]];
      [by eapply inv_plain_cas|apply (inv_mono (N + 1)); [by eapply inv_return|lia]].
Qed.

(** Every step, of whatever thread, preserves the invariant, as long as helpers
    are timely and the counters stay below the wrap-around. *)
Lemma dcss_inv_step N s t a s' evs :
  inv N s → 4 * N + 16 < U64 → timely s t = true → step s t a = Some (s', evs) → inv (N + 2) s'.
Proof.
  intros Hi HN Ht Hst. unfold step in Hst. apply bind_Some in Hst as (p & Hp & Hst).
  apply bind_Some in Hst as ([[m' p'] evs'] & Hts & Hst). injection Hst as <- <-.
  destruct (in_transaction p) eqn:Hpt; [by eapply inv_transaction_step|].
  destruct (in_op p) eqn:Hpo; [by eapply inv_op_step|]. destruct p as [| | | | | | | | | | | | | | |d b k h w]; try done.
  destruct (i_own _ _ Hi _ _ Hp) as (D & HD & Hok). unfold thread_step in Hts. rewrite HD in Hts. simpl in Hts.
  destruct a as [q| |u' e'| |]; try done; simpl in Hts.
  apply bind_Some in Hts as ([m1 h'] & Hh & Hts).
  pose proof (inv_help_step _ _ _ _ _ _ _ _ _ _ Hi HN Ht Hp Hh) as Hres.
  unfold after_help in Hres. destruct h' as [h'|]; [by injection Hts as <- <- <-|].
  destruct (resume t b k w) as [p0 ev0]. by injection Hts as <- <- <-.
Qed.

End DcssConc.
