(* ===== verification/DcssLin.v ===== *)
(** * Linearizability of DCSS

    The interleaved execution of [DcssConc] refines atomic registers: the
    relation [R] between its states and those of the specification, one lemma
    per kind of step, and the theorem for whole runs in which helpers are
    timely ([dcss_linearizable]).  Without that hypothesis it does not hold:
    [dcss_stale_helper_loses_update]. *)

From S2P Require Import Prelude Dcss DcssConc.
Import DcssConc.

Module DcssLin.

(** ** The simulation *)

(** The value of a cell *)
Definition abs_val (m : dmem) (a : Z) : option Z :=
  r ← cells m !! a;
  if is_desc r then D ← descs m !! lval r; Some (if committed (d_var D) then d_new_val D else d_old_val D)
  else Some (lval r).

(** The call a thread is in *)
Definition op_of (p : pc) : option op :=
  match p with
  | PLoad a => Some (OLoad a)
  | PCas0 a o n | PCas1 a o n _ | PCas2 a o n _ | PCas3 a o n _ | PCas4 a o n _ | PCas5 a o n _ =>
      Some (OCas a o n)
  | PPlain0 a o n | PPlain1 a o n _ => Some (OPlain a o n)
  | PHelp _ a _ _ ALoad => Some (OLoad a)
  | PHelp _ a _ _ (AFail o n) | PHelp _ a _ _ (AOwn o n) => Some (OCas a o n)
  | PHelp _ a _ _ (APlain o n) => Some (OPlain a o n)
  | _ => None
  end.

Definition is_inst (p : pc) : bool := match phase_of p with Inst _ _ _ _ _ => true | _ => false end.

(** Some thread has found the epoch of [t]'s installed descriptor, still in
    progress, current and is about to commit it. *)
Definition vflag (s : cst) (t : nat) : Prop :=
  ∃ u a k x w fin o n D, pcs s !! u = Some (PHelp (Z.of_nat t) a k (H3 x true) w) ∧
    ph s t = Inst fin a o n k ∧ k mod 4 = 1 ∧
    descs (mem s) !! Z.of_nat t = Some D ∧ d_var D = LV a k.

Definition spc_ok (vf : Prop) (p : pc) (D : sc_desc_t) (x : spc) : Prop :=
  match op_of p with
  | None => x = SIdle
  | Some q =>
      if is_inst p && committed (d_var D) then x = SDone (RBool true)
      else ∃ v, x = SPend q v ∧ (vf → v = true)
  end.

Record R (s : cst) (A : ast) : Prop := {
  r_val : ∀ a, aval A !! a = abs_val (mem s) a;
  r_glob : aglob A = global_epoch (mem s);
  r_pc : ∀ t p D, pcs s !! t = Some p → descs (mem s) !! Z.of_nat t = Some D →
    aop A !! t = Some (d_epoch D) ∧ ∃ x, apc A !! t = Some x ∧ spc_ok (vflag s t) p D x;
}.

Lemma spc_ok_frame (vf vf' : Prop) p D D' x :
  (vf' → vf) → (is_inst p = true → committed (d_var D') = committed (d_var D)) →
  spc_ok vf p D x → spc_ok vf' p D' x.
Proof.
  unfold spc_ok. intros Hvf Hc. destruct (op_of p) as [q|]; [|done].
  destruct (is_inst p); simpl; [rewrite Hc by done; destruct (committed (d_var D)); [done|]|];
    intros (v & -> & Hv); exists v; auto.
Qed.

(** No thread gets new grounds to commit. *)
Lemma vflag_frame s t p p' m' u :
  pcs s !! t = Some p → descs m' = descs (mem s) → (∀ d a k x w, p' ≠ PHelp d a k (H3 x true) w) →
  (∀ fin a o n k, phase_of p' = Inst fin a o n k → ∃ fin o n, phase_of p = Inst fin a o n k) →
  vflag (Cst m' (<[t := p']> (pcs s))) u → vflag s u.
Proof.
  intros Hp Hd Hnh Hf (v & a & k & x & w & fin & o & n & D & Hv & Hph & Hrest).
  simpl in Hrest. rewrite Hd in Hrest.
  simpl in Hv. apply list_lookup_insert_Some in Hv as [(<- & Hv & _)|[Hne Hv]];
    [by destruct (Hnh (Z.of_nat u) a k x w)|].
  rewrite (ph_insert _ _ _ _ _ _ Hp) in Hph. unfold upd_ph in Hph. case_decide as Hu.
  - subst u. destruct (Hf _ _ _ _ _ Hph) as (fin' & o' & n' & Hf').
    exists v, a, k, x, w, fin', o', n', D. rewrite (ph_lookup _ _ _ Hp). done.
  - exists v, a, k, x, w, fin, o, n, D. done.
Qed.

(** A step of [t] that leaves the specification of the other threads alone. *)
Lemma R_move s t p p' m' A A' :
  R s A → pcs s !! t = Some p →
  (∀ a, aval A' !! a = abs_val m' a) → aglob A' = global_epoch m' →
  (∀ u q D', u ≠ t → pcs s !! u = Some q → descs m' !! Z.of_nat u = Some D' →
     ∃ D, descs (mem s) !! Z.of_nat u = Some D ∧ d_epoch D' = d_epoch D ∧
       (is_inst q = true → committed (d_var D') = committed (d_var D))) →
  (∀ u, u ≠ t → aop A' !! u = aop A !! u ∧ apc A' !! u = apc A !! u) →
  (∀ u, u ≠ t → vflag (Cst m' (<[t := p']> (pcs s))) u → vflag s u) →
  (∀ D', descs m' !! Z.of_nat t = Some D' → aop A' !! t = Some (d_epoch D') ∧
     ∃ x, apc A' !! t = Some x ∧ spc_ok (vflag (Cst m' (<[t := p']> (pcs s))) t) p' D' x) →
  R (Cst m' (<[t := p']> (pcs s))) A'.
Proof.
  intros HR Hp Hval Hglob Hdesc Hoth Hvf Hme. split; simpl; try done.
  intros u q D' Hq HD'. apply list_lookup_insert_Some in Hq as [(<- & <- & _)|[Hne Hq]]; [by apply Hme|].
  destruct (Hdesc u q D') as (D & HD & He & Hc); [done..|].
  destruct (r_pc _ _ HR _ _ _ Hq HD) as (Hop & x & Hx & Hsp).
  destruct (Hoth u) as [-> ->]; [done|]. rewrite He. split; [done|]. exists x. split; [done|].
  eapply spc_ok_frame; [by apply Hvf|done|done].
Qed.

Section Sim.
Context (N : Z) (s : cst) (t : nat) (p : pc) (A : ast) (D : sc_desc_t).
Context (Hinv : inv N s) (HR : R s A) (Hp : pcs s !! t = Some p).
Context (HD : descs (mem s) !! Z.of_nat t = Some D).

(** A step that the specification does not see. *)
Lemma sim_quiet p' m' D' :
  (∀ a, abs_val m' a = abs_val (mem s) a) → global_epoch m' = global_epoch (mem s) →
  (∀ u, u ≠ t → descs m' !! Z.of_nat u = descs (mem s) !! Z.of_nat u) →
  descs m' !! Z.of_nat t = Some D' → d_epoch D' = d_epoch D →
  op_of p' = op_of p → is_inst p' && committed (d_var D') = is_inst p && committed (d_var D) →
  (∀ u, vflag (Cst m' (<[t := p']> (pcs s))) u → vflag s u) →
  R (Cst m' (<[t := p']> (pcs s))) A.
Proof.
  intros Hval Hg Hdesc HD' He Hop Hin Hvf. eapply R_move; try done.
  - intros a. by rewrite Hval, (r_val _ _ HR).
  - by rewrite Hg, (r_glob _ _ HR).
  - intros u q Du Hu _. rewrite Hdesc by done. eauto.
  - intros u _. apply Hvf.
  - intros D0 HD0. simplify_eq. rewrite He. destruct (r_pc _ _ HR _ _ _ Hp HD) as (Ho & x & Hx & Hsp).
    split; [done|]. exists x. split; [done|]. unfold spc_ok in *. rewrite Hop, Hin.
    destruct (op_of p); [|done]. destruct (is_inst p && committed (d_var D)); [done|].
    destruct Hsp as (v & -> & Hv). exists v. auto.
Qed.

(** The thread's call is pending in the specification. *)
Lemma sim_pending q :
  op_of p = Some q → is_inst p && committed (d_var D) = false → ∃ v, apc A !! t = Some (SPend q v).
Proof.
  intros Hop Hin. destruct (r_pc _ _ HR _ _ _ Hp HD) as (_ & x & Hx & Hsp).
  unfold spc_ok in Hsp. rewrite Hop, Hin in Hsp. destruct Hsp as (v & -> & _). eauto.
Qed.

(** A call returns: the specification is at [A1] with the result ready. *)
Lemma sim_return m' A1 r :
  (∀ a, aval A1 !! a = abs_val m' a) → aglob A1 = global_epoch m' → descs m' = descs (mem s) →
  aop A1 = aop A → (∀ u, u ≠ t → apc A1 !! u = apc A !! u) → apc A1 !! t = Some (SDone r) →
  ∃ A', aruns A1 [ERet t r] A' ∧ R (Cst m' (<[t := PIdle]> (pcs s))) A'.
Proof.
  intros Hval Hg Hd Hop Hpc Hr. exists (a_pc t SIdle A1).
  split; [eapply aruns_vis; [by constructor|constructor]|].
  assert (t < length (apc A1))%nat as Hlt by (by eapply lookup_lt_Some).
  eapply R_move; try done.
  - intros u q Du Hu _. rewrite Hd. eauto.
  - intros u Hu. simpl. rewrite Hop, list_lookup_insert_ne by done. auto.
  - intros u _. by eapply vflag_frame.
  - intros D0 HD0. rewrite Hd in HD0. simplify_eq. simpl. rewrite Hop.
    destruct (r_pc _ _ HR _ _ _ Hp HD) as (Ho & _). split; [done|].
    eexists. split; [by apply list_lookup_insert_eq|done].
Qed.

(** A CAS fails. *)
Lemma sim_fail :
  (∃ a o n, op_of p = Some (OCas a o n) ∨ op_of p = Some (OPlain a o n)) →
  is_inst p && committed (d_var D) = false →
  ∃ A', aruns A [ERet t (RBool false)] A' ∧ R (Cst (mem s) (<[t := PIdle]> (pcs s))) A'.
Proof.
  intros (a & o & n & Hop) Hin.
  assert (∃ q v, apc A !! t = Some (SPend q v) ∧ (q = OCas a o n ∨ q = OPlain a o n)) as (q & v & Hq & Hqq).
  { destruct Hop as [Hop|Hop]; destruct (sim_pending _ Hop Hin) as [v Hv]; eauto. }
  assert (t < length (apc A))%nat as Hlt by (by eapply lookup_lt_Some).
  destruct (sim_return (mem s) (a_pc t (SDone (RBool false)) A) (RBool false)) as (A' & HA' & HR');
    simpl; try done.
  - apply (r_val _ _ HR).
  - apply (r_glob _ _ HR).
  - intros u Hu. by rewrite list_lookup_insert_ne.
  - by apply list_lookup_insert_eq.
  - exists A'. split; [|done]. eapply aruns_lin; [|done]. destruct Hqq as [-> | ->]; by econstructor.
Qed.

(** A load reads a plain cell. *)
Lemma sim_load a r :
  op_of p = Some (OLoad a) → is_inst p = false → cells (mem s) !! a = Some r → is_desc r = false →
  ∃ A', aruns A [ERet t (RVal (lval r))] A' ∧ R (Cst (mem s) (<[t := PIdle]> (pcs s))) A'.
Proof.
  intros Hop Hin Hr Hd. destruct (sim_pending _ Hop) as [v Hv]; [by rewrite Hin|].
  assert (t < length (apc A))%nat as Hlt by (by eapply lookup_lt_Some).
  destruct (sim_return (mem s) (a_pc t (SDone (RVal (lval r))) A) (RVal (lval r))) as (A' & HA' & HR');
    simpl; try done.
  - apply (r_val _ _ HR).
  - apply (r_glob _ _ HR).
  - intros u Hu. by rewrite list_lookup_insert_ne.
  - by apply list_lookup_insert_eq.
  - exists A'. split; [|done]. eapply aruns_lin; [|done]. econstructor; [done|].
    rewrite (r_val _ _ HR). unfold abs_val. rewrite Hr. simpl. by rewrite Hd.
Qed.

(** A plain CAS succeeds. *)
Lemma sim_plain a o n c :
  op_of p = Some (OPlain a o n) → is_inst p = false →
  cells (mem s) !! a = Some (LV o c) → c mod 4 = 0 → 0 ≤ c ≤ 4 * N → 4 * N + 16 < U64 →
  ∃ A', aruns A [ERet t (RBool true)] A' ∧
    R (Cst (put_cell a (LV n (c +₆ 4)) (mem s)) (<[t := PIdle]> (pcs s))) A'.
Proof.
  intros Hop Hin Hr Hc Hc0 HN. destruct (sim_pending _ Hop) as [v Hv]; [by rewrite Hin|].
  rewrite u64_small by (unfold is_u64; lia).
  assert (t < length (apc A))%nat as Hlt by (by eapply lookup_lt_Some).
  destruct (sim_return (put_cell a (LV n (c + 4)) (mem s))
    (a_pc t (SDone (RBool true)) (a_write a n A)) (RBool true)) as (A' & HA' & HR'); simpl; try done.
  - intros b. unfold abs_val. simpl. destruct (decide (a = b)) as [<-|Hne].
    + rewrite !lookup_insert_eq. simpl. rewrite is_desc_mod. simpl.
      by replace ((c + 4) mod 4 =? 1) with false by mod_lia.
    + rewrite !lookup_insert_ne by done. by rewrite (r_val _ _ HR).
  - apply (r_glob _ _ HR).
  - intros u Hu. by rewrite list_lookup_insert_ne.
  - by apply list_lookup_insert_eq.
  - exists A'. split; [|done]. eapply aruns_lin; [|done]. eapply lin_plain; [done|].
    rewrite (r_val _ _ HR). unfold abs_val. rewrite Hr. simpl. rewrite is_desc_mod. simpl. by rewrite Hc.
Qed.

(** [CAS_verify] returns what the descriptor says. *)
Lemma sim_cas5 a o n k :
  p = PCas5 a o n k →
  ∃ A', aruns A [ERet t (RBool (committed (d_var D)))] A' ∧
    R (Cst (mem s) (<[t := PIdle]> (pcs s))) A'.
Proof.
  intros Heq. assert (op_of p = Some (OCas a o n) ∧ is_inst p = true) as [Hop Hin] by (by rewrite Heq).
  destruct (committed (d_var D)) eqn:Hc.
  - destruct (r_pc _ _ HR _ _ _ Hp HD) as (_ & x & Hx & Hsp). unfold spc_ok in Hsp.
    rewrite Hop, Hin, Hc in Hsp. simpl in Hsp. subst x.
    apply sim_return; try done; [apply (r_val _ _ HR)|apply (r_glob _ _ HR)].
  - apply sim_fail; [eauto|by rewrite Hc, andb_false_r].
Qed.

End Sim.

(** What a descriptor stands for in its cell. *)
Definition desc_val (D : sc_desc_t) : Z := if committed (d_var D) then d_new_val D else d_old_val D.

Lemma abs_val_put_desc m d D D' a :
  descs m !! d = Some D →
  desc_val D' = desc_val D ∨ (∀ r, cells m !! a = Some r → is_desc r = true → lval r ≠ d) →
  abs_val (put_desc d D' m) a = abs_val m a.
Proof.
  intros HD Hv. unfold abs_val. simpl. destruct (cells m !! a) as [r|] eqn:Hr; [|done]. simpl.
  destruct (is_desc r) eqn:Hdr; [|done]. destruct (decide (lval r = d)) as [Heq|Hne].
  - rewrite Heq, lookup_insert_eq, HD. simpl. f_equal. destruct Hv as [Hv|Hv]; [done|]. by destruct (Hv r eq_refl Hdr).
  - by rewrite lookup_insert_ne.
Qed.

(** Only the memory changes, and the specification does not see it. *)
Lemma R_mem s m' A :
  R s A → (∀ a, abs_val m' a = abs_val (mem s) a) → global_epoch m' = global_epoch (mem s) →
  (∀ u q D', pcs s !! u = Some q → descs m' !! Z.of_nat u = Some D' →
     ∃ D, descs (mem s) !! Z.of_nat u = Some D ∧ d_epoch D' = d_epoch D ∧
       (is_inst q = true → committed (d_var D') = committed (d_var D) ∧
          ∀ a k, k mod 4 = 1 → d_var D' = LV a k → d_var D = LV a k)) →
  R (Cst m' (pcs s)) A.
Proof.
  intros HR Hval Hg Hd. split; simpl.
  - intros a. by rewrite Hval, (r_val _ _ HR).
  - by rewrite Hg, (r_glob _ _ HR).
  - intros u q D' Hq HD'. destruct (Hd u q D' Hq HD') as (D & HD & He & Hc).
    destruct (r_pc _ _ HR _ _ _ Hq HD) as (Ho & x & Hx & Hsp). rewrite He. split; [done|].
    exists x. split; [done|]. eapply spc_ok_frame; [|intros Hin; by apply Hc|done].
    intros (v & a & k & y & w & fin & o & n & D0 & Hv & Hph & Hk & HD0 & Hvar). simpl in HD0.
    assert (D0 = D') as -> by congruence.
    exists v, a, k, y, w, fin, o, n, D. split_and!; try done. apply Hc; try done.
    assert (phase_of q = Inst fin a o n k) as Hfq by (by rewrite <- Hph; symmetry; apply (ph_lookup s)).
    unfold is_inst. by rewrite Hfq.
Qed.

Lemma decided_not_committed a k : k mod 4 = 1 →
  committed (LV a k) = false ∧ committed (LV a (k + 1)) = true ∧ committed (LV a (k + 2)) = false.
Proof.
  intros Hk. rewrite !committed_mod. simpl. split_and!; mod_lia.
Qed.

(** [abort] is invisible. *)
Lemma R_abort s u D a k A :
  R s A → descs (mem s) !! Z.of_nat u = Some D → d_var D = LV a k → k mod 4 = 1 →
  R (Cst (put_desc (Z.of_nat u) (d_set_var (LV a (k + 2)) D) (mem s)) (pcs s)) A.
Proof.
  intros HR HD Hv Hk. destruct (decided_not_committed a k Hk) as (H0 & _ & H2).
  apply R_mem; try done.
  - intros b. apply (abs_val_put_desc _ _ D); [done|]. left. unfold desc_val. simpl. by rewrite Hv, H0, H2.
  - intros v q D'. simpl. destruct (decide (v = u)) as [->|Hne].
    + rewrite lookup_insert_eq. intros _ [= <-]. exists D. split_and!; try done. simpl. intros _.
      rewrite Hv, H0, H2. split; [done|]. intros a0 k0 Hk0 [= -> <-]. mod_lia.
    + rewrite lookup_insert_ne by lia. eauto 8.
Qed.

(** No other cell holds the installed descriptor. *)
Lemma inst_cell_unique N s u fin a o n k b r :
  inv N s → ph s u = Inst fin a o n k → cells (mem s) !! b = Some r → is_desc r = true →
  lval r = Z.of_nat u → b = a ∧ lcnt r = k.
Proof.
  rewrite is_desc_mod. intros Hi Hf Hb Hd Hv.
  destruct (i_cell _ _ Hi _ _ Hb) as [_ [Hm|(_ & v & o' & n' & Hv' & Hf')]]; [by rewrite Hm in Hd|].
  assert (v = u) as -> by lia. rewrite Hf in Hf'. by simplify_eq.
Qed.

(** The position of a thread whose descriptor is installed. *)
Lemma inst_pc s u fin a o n k : ph s u = Inst fin a o n k →
  ∃ q, pcs s !! u = Some q ∧ op_of q = Some (OCas a o n) ∧ is_inst q = true.
Proof.
  unfold ph, is_inst. destruct (pcs s !! u) as [q|]; [|done]. simpl. intros Hq. exists q. split; [done|].
  rewrite Hq. split; [|done].
  destruct q as [| | | | | | | | | | | | | | |d' a' k' h' w']; try done; [by simplify_eq/=|].
  destruct w'; by simplify_eq/=.
Qed.

(** [commit] of an installed descriptor in progress is where its CAS takes
    effect. *)
Lemma R_commit N s u D fin a o n k A :
  inv N s → R s A → descs (mem s) !! Z.of_nat u = Some D → d_var D = LV a k →
  ph s u = Inst fin a o n k → vflag s u →
  ∃ A', alin A A' ∧
    R (Cst (put_desc (Z.of_nat u) (d_set_var (LV a (k + 1)) D) (mem s)) (pcs s)) A'.
Proof.
  intros Hi HR HD Hv Hf Hvf.
  destruct (ph_owner _ _ _ _ Hi Hf) as (D0 & HD0 & Hk & Hk1 & Ho & Hn & _ & Hcell); [done|].
  assert (D0 = D) as -> by congruence.
  destruct Hcell as [[Hcell ->]|[_ Hbad]]; [|done].
  destruct (decided_not_committed a k Hk) as (H0 & H1 & _).
  assert (is_desc (LV (Z.of_nat u) k) = true) as Hdesc by (rewrite is_desc_mod; simpl; mod_lia).
  destruct (inst_pc s u false a o n k Hf) as (q & Hq & Hop & Hin).
  destruct (r_pc _ _ HR _ _ _ Hq HD) as (Haop & x & Hx & Hsp).
  unfold spc_ok in Hsp. rewrite Hop, Hin, Hv, H0 in Hsp. destruct Hsp as (v & -> & Hvt).
  rewrite (Hvt Hvf) in Hx.
  assert (aval A !! a = Some o) as Hval.
  { rewrite (r_val _ _ HR). unfold abs_val. rewrite Hcell. simpl. rewrite Hdesc, HD. simpl.
    by rewrite Hv, H0, Ho. }
  exists (a_pc u (SDone (RBool true)) (a_write a n A)). split; [by eapply lin_cas|]. split; simpl.
  - intros b. destruct (decide (a = b)) as [<-|Hne].
    + rewrite lookup_insert_eq. unfold abs_val. simpl. rewrite Hcell. simpl.
      rewrite Hdesc, lookup_insert_eq. simpl. by rewrite H1, Hn.
    + rewrite lookup_insert_ne, (abs_val_put_desc _ _ D), (r_val _ _ HR); try done.
      right. intros r Hr Hdr Hlv. destruct (inst_cell_unique _ _ _ _ _ _ _ _ _ _ Hi Hf Hr Hdr Hlv). done.
  - apply (r_glob _ _ HR).
  - intros v0 q0 D' Hq0. destruct (decide (v0 = u)) as [->|Hne].
    + rewrite lookup_insert_eq. intros [= <-]. split; [done|]. exists (SDone (RBool true)).
      split; [apply list_lookup_insert_eq; by eapply lookup_lt_Some|].
      assert (q0 = q) as -> by congruence. unfold spc_ok. rewrite Hop, Hin. simpl. by rewrite H1.
    + rewrite lookup_insert_ne by lia. intros HD'. rewrite list_lookup_insert_ne by done.
      destruct (r_pc _ _ HR _ _ _ Hq0 HD') as (Ho' & x' & Hx' & Hsp'). split; [done|].
      exists x'. split; [done|]. eapply spc_ok_frame; [|done|done].
      intros (v1 & a1 & k1 & y & w & fin & o1 & n1 & D1 & Hv1 & Hph1 & Hk' & HD1 & Hvar1). simpl in HD1.
      rewrite lookup_insert_ne in HD1 by lia. exists v1, a1, k1, y, w, fin, o1, n1, D1. done.
Qed.

(** [cleanup] replaces the descriptor by the value it stands for. *)
Lemma R_cleanup s a d D v c A :
  R s A → cells (mem s) !! a = Some (LV d c) → is_desc (LV d c) = true → descs (mem s) !! d = Some D →
  v = desc_val D → is_desc (LV v (c + 3)) = false →
  R (Cst (put_cell a (LV v (c + 3)) (mem s)) (pcs s)) A.
Proof.
  intros HR Hr Hd HD -> Hd'. apply R_mem; try done; [|simpl; eauto 8].
  intros b. unfold abs_val. simpl. destruct (decide (a = b)) as [<-|Hne].
  - rewrite lookup_insert_eq, Hr. simpl. by rewrite Hd', Hd, HD.
  - by rewrite lookup_insert_ne.
Qed.

(** The thread writes its descriptor, which is not installed. *)
Lemma R_own_write N s t p A D D' :
  inv N s → R s A → pcs s !! t = Some p → is_inst p = false →
  descs (mem s) !! Z.of_nat t = Some D → d_epoch D' = d_epoch D →
  R (Cst (put_desc (Z.of_nat t) D' (mem s)) (pcs s)) A.
Proof.
  intros Hi HR Hp Hin HD He. apply R_mem; try done.
  - intros a. apply (abs_val_put_desc _ _ D); [done|]. right. intros r Hr Hd Hv.
    rewrite is_desc_mod in Hd. destruct (i_cell _ _ Hi _ _ Hr) as [_ [Hm|(_ & u & o & n & Hu & Hf)]].
    + by rewrite Hm in Hd.
    + assert (u = t) as -> by lia. rewrite (ph_lookup _ _ _ Hp) in Hf. unfold is_inst in Hin.
      by rewrite Hf in Hin.
  - intros u q D0 Hq. simpl. destruct (decide (u = t)) as [->|Hne].
    + rewrite lookup_insert_eq. intros [= <-]. exists D. split_and!; try done. simplify_eq. by rewrite Hin.
    + rewrite lookup_insert_ne by lia. eauto 8.
Qed.

Section SimHelp.
Context (s : cst) (t : nat) (d a k : Z) (h : hpc) (w : after) (A : ast).
Context (HR : R s A) (Hp : pcs s !! t = Some (PHelp d a k h w)).

Lemma sim_help_go (D : sc_desc_t) h' :
  descs (mem s) !! Z.of_nat t = Some D → (∀ x, h' ≠ H3 x true) →
  R (Cst (mem s) (<[t := PHelp d a k h' w]> (pcs s))) A.
Proof.
  intros HD Hh. apply (sim_quiet s t _ A D HR Hp HD _ _ D); try done.
  intros u. eapply vflag_frame; try done; [|simpl; eauto].
  intros d0 a0 k0 x w0 [= _ _ _ -> _]. by destruct (Hh x).
Qed.

Lemma sim_resume (D : sc_desc_t) p' evs :
  descs (mem s) !! Z.of_nat t = Some D → resume t a k w = (p', evs) →
  ∃ A', aruns A evs A' ∧ R (Cst (mem s) (<[t := p']> (pcs s))) A'.
Proof.
  intros HD Hres. destruct w as [|o n|o n|o n]; injection Hres as <- <-.
  2,3: by apply (sim_fail s t _ A D HR Hp HD); [simpl; eauto|].
  1,2: exists A; (split; [constructor|]); apply (sim_quiet s t _ A D HR Hp HD _ _ D); try done;
    intros u; eapply vflag_frame; try done; simpl; naive_solver.
Qed.

End SimHelp.

(** [check_epoch] of an installed descriptor in progress. *)
Lemma sim_verify N s t d a k x e w A :
  inv N s → R s A → pcs s !! t = Some (PHelp d a k (H2 x e) w) → e = global_epoch (mem s) →
  ∃ A', aruns A [] A' ∧ R (Cst (mem s) (<[t := PHelp d a k (H3 x true) w]> (pcs s))) A'.
Proof.
  intros Hi HR Hp He. destruct (i_own _ _ Hi _ _ Hp) as (Dt & HDt & _).
  destruct (help_facts _ _ _ _ _ _ _ _ Hi Hp) as (u & D & -> & HD & Hk & _ & _ & _ & Hcase).
  set (s' := Cst _ _).
  assert (∀ v, v ≠ u → vflag s' v → vflag s v) as Hvf.
  { intros v Hv (v1 & a1 & k1 & y & w1 & fin & o1 & n1 & D1 & Hv1 & Hph1 & Hrest). simpl in *.
    apply list_lookup_insert_Some in Hv1 as [(_ & [= Hu _ _ _ _] & _)|[Hne Hv1]]; [lia|].
    exists v1, a1, k1, y, w1, fin, o1, n1, D1. split; [done|]. split; [|done].
    unfold s' in Hph1. rewrite (ph_insert _ _ _ _ _ _ Hp) in Hph1. by rewrite (upd_ph_same s t _ _ Hp) in Hph1. }
  assert (∀ A', (∀ b, aval A' !! b = aval A !! b) → aglob A' = aglob A → aop A' = aop A →
    (∀ v, v ≠ u → apc A' !! v = apc A !! v) →
    (∀ q x, pcs s !! u = Some q → apc A !! u = Some x → spc_ok (vflag s u) q D x →
       ∃ x', apc A' !! u = Some x' ∧ spc_ok (vflag s' u) q D x') → R s' A') as HR'.
  { intros A' Hval Hg Hop Hoth Hu. split; simpl.
    - intros b. by rewrite Hval, (r_val _ _ HR).
    - by rewrite Hg, (r_glob _ _ HR).
    - intros v q Dv Hq HDv.
      assert (∃ q0, pcs s !! v = Some q0 ∧ ∀ vf Dv x, spc_ok vf q0 Dv x ↔ spc_ok vf q Dv x) as (q0 & Hq0 & Hsame).
      { apply list_lookup_insert_Some in Hq as [(<- & <- & _)|[_ Hq]]; eexists; split; done. }
      destruct (r_pc _ _ HR _ _ _ Hq0 HDv) as (Ho & y & Hy & Hsp). rewrite Hop. split; [done|].
      destruct (decide (v = u)) as [->|Hne].
      + assert (Dv = D) as -> by congruence. destruct (Hu q0 y) as (x' & Hx' & Hsp'); try done.
        exists x'. split; [done|]. by apply Hsame.
      + exists y. rewrite Hoth by done. split; [done|]. apply Hsame.
        eapply spc_ok_frame; [by apply Hvf|done|done]. }
  destruct (decide (d_var D = LV a k)) as [Hv|Hv].
  - destruct Hcase as [[(fin & o & n & Hf & _) Hep]|[[_ Hbad] _]]; [|done]. simpl in Hep.
    assert (committed (d_var D) = false) as Hc by (rewrite Hv; by apply decided_not_committed).
    destruct (inst_pc s u fin a o n k Hf) as (q & Hq & Hop & Hin).
    destruct (sim_pending s u q A D HR Hq HD _ Hop) as [v Hpend]; [by rewrite Hc, andb_false_r|].
    destruct (r_pc _ _ HR _ _ _ Hq HD) as (Haop & _).
    exists (a_pc u (SPend (OCas a o n) true) A). split.
    + eapply aruns_lin; [|constructor]. eapply lin_verify; [done|].
      rewrite Haop, (r_glob _ _ HR). congruence.
    + apply HR'; simpl; try done; [intros; by rewrite list_lookup_insert_ne|].
      intros q0 y Hq0 _ _. assert (q0 = q) as -> by congruence.
      eexists. split; [apply list_lookup_insert_eq; by eapply lookup_lt_Some|].
      unfold spc_ok. rewrite Hop, Hc, andb_false_r. eauto.
  - exists A. split; [constructor|]. apply HR'; try done. intros q y Hq Hy Hsp. exists y. split; [done|].
    eapply spc_ok_frame; [|done|done].
    intros (v1 & a1 & k1 & z & w1 & fin & o1 & n1 & D1 & Hv1 & Hph1 & Hk1 & HD1 & Hvar). simpl in *.
    apply list_lookup_insert_Some in Hv1 as [(_ & [= -> -> _ _] & _)|[Hne Hv1]]; [congruence|].
    exists v1, a1, k1, z, w1, fin, o1, n1, D1. split; [done|]. split; [|done].
    unfold s' in Hph1. rewrite (ph_insert _ _ _ _ _ _ Hp) in Hph1. by rewrite (upd_ph_same s t _ _ Hp) in Hph1.
Qed.

(** [commit] or [abort] by a helper, or its failing CAS. *)
Lemma sim_decide N s t d a k x b w A m' h' :
  inv N s → 4 * N + 16 < U64 → R s A → pcs s !! t = Some (PHelp d a k (H3 x b) w) →
  help_step (mem s) d a k (H3 x b) = Some (m', h') →
  ∃ A' Dt, h' = Some (H4 x) ∧ aruns A [] A' ∧ R (Cst m' (pcs s)) A' ∧ descs m' !! Z.of_nat t = Some Dt.
Proof.
  intros Hi HN HR Hp Hst. destruct (i_own _ _ Hi _ _ Hp) as (Dt & HDt & _).
  destruct (help_facts _ _ _ _ _ _ _ _ Hi Hp) as (u & D & -> & HD & Hk & Hkb & Hsh & _ & Hcase).
  simpl in Hsh. subst x. unfold help_step in Hst. rewrite HD in Hst. simpl in Hst.
  rewrite (decide_exec b _ _ _ D HD) in Hst.
  assert (Z.lor (base (LV a k)) 1 = k) as Hlor by (rewrite lor_base_div; simpl; mod_lia).
  simpl lval in Hst. rewrite Hlor in Hst.
  case_decide as Hv; simpl in Hst; injection Hst as <- <-.
  2: { exists A, Dt. split_and!; try done; [constructor|by destruct s]. }
  rewrite u64_small by (unfold is_u64; destruct b; lia).
  destruct Hcase as [[(fin & o & n & Hf & _) _]|[[_ Hbad] _]]; [|done].
  assert (∀ D', is_Some (descs (put_desc (Z.of_nat u) D' (mem s)) !! Z.of_nat t)) as Hsome.
  { intros D'. simpl. apply lookup_insert_is_Some'. eauto. }
  destruct b.
  - assert (vflag s u) as Hvf by (exists t, a, k, (LV a k), w, fin, o, n, D; done).
    destruct (R_commit _ _ _ _ _ _ _ _ _ _ Hi HR HD Hv Hf Hvf) as (A' & Hl & HR').
    destruct (Hsome (d_set_var (LV a (k + 1)) D)) as [Dt' HDt']. exists A', Dt'.
    split_and!; try done. eapply aruns_lin; [done|constructor].
  - destruct (Hsome (d_set_var (LV a (k + 2)) D)) as [Dt' HDt']. exists A, Dt'.
    split_and!; try done; [constructor|]. by eapply R_abort.
Qed.

(** The CAS of [cleanup]. *)
Lemma sim_cleanup N s t d a k y v w A m' h' :
  inv N s → 4 * N + 16 < U64 → R s A → pcs s !! t = Some (PHelp d a k (H6 y v) w) →
  help_step (mem s) d a k (H6 y v) = Some (m', h') →
  h' = None ∧ descs m' = descs (mem s) ∧ R (Cst m' (pcs s)) A.
Proof.
  intros Hi HN HR Hp Hst.
  destruct (help_facts _ _ _ _ _ _ _ _ Hi Hp) as (u & D & Hd & HD & Hk & Hkb & [Ha Hb] & (r & Hr & _) & Hcase).
  unfold help_step in Hst. rewrite HD, Ha in Hst. simpl in Hst.
  rewrite (cas_cell_exec _ _ _ _ r Hr), Hb, lor_pred in Hst by done.
  case_decide as Hrk; simpl in Hst; injection Hst as <- <-; [|split_and!; try done; by destruct s].
  split_and!; try done. subst r.
  destruct Hcase as [[(fin & o & n & Hf & Hok) (Hvk & Hy & Hval)]|[[(r & Hr' & ?) _] _]];
    [|simplify_eq; simpl in *; lia].
  destruct Hok as (_ & _ & _ & _ & (j & Hj & Hv) & _).
  destruct (inst_status a k j Hk Hj) as (_ & Hcm & _). rewrite <- Hv, <- Hy in Hcm.
  assert (j = 1 ∨ j = 2) as Hj12.
  { assert (j ≠ 0); [|lia]. intros ->. by rewrite Z.add_0_r in Hv. }
  assert ((if committed y then lcnt y +₆ 2 else lcnt y +₆ 1) = k + 3) as ->.
  { rewrite Hcm, Hy, Hv. simpl.
    destruct Hj12 as [-> | ->]; simpl; rewrite u64_small by (unfold is_u64; lia); lia. }
  eapply R_cleanup; try done.
  - rewrite is_desc_mod. simpl. mod_lia.
  - unfold desc_val. by rewrite <- Hy.
  - rewrite is_desc_mod. simpl. mod_lia.
Qed.

Lemma sim_help N s t d a k h w A m' h' p' evs :
  inv N s → 4 * N + 16 < U64 → R s A → pcs s !! t = Some (PHelp d a k h w) →
  help_step (mem s) d a k h = Some (m', h') →
  match h' with
  | Some h' => (p', evs) = (PHelp d a k h' w, [])
  | None => (p', evs) = resume t a k w
  end →
  ∃ A', aruns A evs A' ∧ R (Cst m' (<[t := p']> (pcs s))) A'.
Proof.
  intros Hi HN HR Hp Hst Hres. destruct (i_own _ _ Hi _ _ Hp) as (Dt & HDt & _).
  destruct h as [|x|x e|x b|x|y|y v].
  4: { destruct (sim_decide _ _ _ _ _ _ _ _ _ _ _ _ Hi HN HR Hp Hst) as (A' & D & -> & Hrun & HR' & HD).
    injection Hres as -> ->. exists A'. split; [done|].
    by apply (sim_help_go (Cst m' (pcs s)) t d a k (H3 x b) w A' HR' Hp D). }
  6: { destruct (sim_cleanup _ _ _ _ _ _ _ _ _ _ _ _ Hi HN HR Hp Hst) as (-> & Hdm & HR').
    eapply (sim_resume (Cst m' (pcs s)) t d a k (H6 y v) w A HR' Hp Dt); simpl; [by rewrite Hdm|done]. }
  all: unfold help_step in Hst; apply bind_Some in Hst as (D & HD & Hst).
  3: { injection Hst as <- <-. injection Hres as -> ->.
    destruct (Z.eqb_spec e (global_epoch (mem s))) as [He|He]; [by eapply sim_verify|].
    exists A. split; [constructor|]. by apply (sim_help_go s t d a k (H2 x e) w A HR Hp Dt). }
  all: repeat case_match; simplify_eq/=.
  all: try (eapply sim_resume; [done..|by symmetry]).
  all: exists A; (split; [constructor|]); by eapply sim_help_go.
Qed.

(** Installing the descriptor is invisible. *)
Lemma sim_install N s t a o n c A :
  inv N s → 4 * N + 16 < U64 → R s A → pcs s !! t = Some (PCas4 a o n c) →
  cells (mem s) !! a = Some (LV o c) →
  R (Cst (put_cell a (LV (Z.of_nat t) (c + 1)) (mem s))
         (<[t := PHelp (Z.of_nat t) a (c + 1) H0 (AOwn o n)]> (pcs s))) A.
Proof.
  intros Hi HN HR Hp Hr. destruct (i_own _ _ Hi _ _ Hp) as (D & HD & Hc & Hc0 & _ & Hv & Ho & Hn).
  specialize (Hv ltac:(lia)). specialize (Ho ltac:(lia)).
  assert (committed (d_var D) = false) as Hcm.
  { destruct Hv as [-> | ->]; rewrite committed_mod; simpl; mod_lia. }
  apply (sim_quiet s t _ A D HR Hp HD _ _ D); try done.
  - intros b. unfold abs_val. simpl. destruct (decide (a = b)) as [<-|Hne].
    + rewrite lookup_insert_eq, Hr. simpl. rewrite !is_desc_mod. simpl.
      replace ((c + 1) mod 4 =? 1) with true by mod_lia. replace (c mod 4 =? 1) with false by mod_lia.
      rewrite HD. simpl. by rewrite Hcm, Ho.
    + by rewrite lookup_insert_ne.
  - intros u (v & a1 & k1 & x & w1 & fin & o1 & n1 & D1 & Hv1 & Hph1 & Hk1 & HD1 & Hvar). simpl in *.
    apply list_lookup_insert_Some in Hv1 as [(_ & [=] & _)|[Hne Hv1]].
    rewrite (ph_insert _ _ _ _ _ _ Hp) in Hph1. unfold upd_ph in Hph1. case_decide as Hu.
    + exfalso. subst u. simpl in Hph1. injection Hph1 as <- <- <- <- <-.
      destruct (help_facts _ _ _ _ _ _ _ _ Hi Hv1) as (u & D2 & Hu & HD2 & _ & _ & _ & _ & Hcase).
      assert (u = t) as -> by lia. rewrite (ph_lookup _ _ _ Hp) in Hcase.
      destruct Hcase as [[(? & ? & ? & [=] & _) _]|[_ Hg]].
      specialize (Hg 3%nat o n c). rewrite (ph_lookup _ _ _ Hp) in Hg. specialize (Hg eq_refl). lia.
    + exists v, a1, k1, x, w1, fin, o1, n1, D1. done.
Qed.

(** A thread whose descriptor is not installed moves on inside its call. *)
Lemma sim_go s t p p' A D :
  R s A → pcs s !! t = Some p → descs (mem s) !! Z.of_nat t = Some D →
  op_of p' = op_of p → is_inst p = false → is_inst p' = false →
  (∀ d a k x w, p' ≠ PHelp d a k (H3 x true) w) →
  ∃ A', aruns A [] A' ∧ R (Cst (mem s) (<[t := p']> (pcs s))) A'.
Proof.
  intros HR Hp HD Hop Hin Hin' Hnh. exists A. split; [constructor|].
  apply (sim_quiet s t p A D HR Hp HD _ _ D); try done; [by rewrite Hin, Hin'|].
  intros u. eapply vflag_frame; try done. intros fin a o n k Hf. unfold is_inst in Hin'. by rewrite Hf in Hin'.
Qed.

Lemma sim_call s t q A D :
  R s A → pcs s !! t = Some PIdle → descs (mem s) !! Z.of_nat t = Some D →
  ∃ A', aruns A [ECall t q] A' ∧ R (Cst (mem s) (<[t := call_pc q]> (pcs s))) A'.
Proof.
  intros HR Hp HD. destruct (r_pc _ _ HR _ _ _ Hp HD) as (Ho & x & Hx & Hsp). cbn in Hsp. subst x.
  assert (op_of (call_pc q) = Some q ∧ is_inst (call_pc q) = false ∧
    ∀ d a k h w, call_pc q ≠ PHelp d a k h w) as (Hop & Hin & Hnh) by (by destruct q).
  assert (∀ u, vflag (Cst (mem s) (<[t := call_pc q]> (pcs s))) u → vflag s u) as Hvf.
  { intros u. eapply vflag_frame; try done. intros fin a o n k Hf. unfold is_inst in Hin. by rewrite Hf in Hin. }
  exists (a_pc t (SPend q false) A). split; [eapply aruns_vis; [by constructor|constructor]|].
  eapply R_move; try done.
  - apply (r_val _ _ HR).
  - apply (r_glob _ _ HR).
  - eauto.
  - intros u Hu. simpl. by rewrite list_lookup_insert_ne.
  - intros u _. apply Hvf.
  - intros D' HD'. simplify_eq. split; [done|]. simpl.
    eexists. split; [apply list_lookup_insert_eq; by eapply lookup_lt_Some|].
    unfold spc_ok. rewrite Hop, Hin. simpl. exists false. split; [done|].
    intros (v & a & k & y & w & fin & o & n & D0 & _ & Hph & _)%Hvf.
    by rewrite (ph_lookup _ _ _ Hp) in Hph.
Qed.

Lemma sim_begin N s t e A D :
  inv N s → R s A → pcs s !! t = Some (PBegin2 e) → descs (mem s) !! Z.of_nat t = Some D →
  ∃ A', aruns A [EBegin t e] A' ∧
    R (Cst (put_desc (Z.of_nat t) (set_up_epoch e D) (mem s)) (<[t := PIdle]> (pcs s))) A'.
Proof.
  intros Hi HR Hp HD. destruct (r_pc _ _ HR _ _ _ Hp HD) as (Ho & x & Hx & Hsp). cbn in Hsp. subst x.
  exists (Ast (aval A) (aglob A) (<[t := e]> (aop A)) (apc A)).
  split; [eapply aruns_vis; [by apply vis_begin|constructor]|].
  assert (∀ u, vflag (Cst (put_desc (Z.of_nat t) (set_up_epoch e D) (mem s)) (<[t := PIdle]> (pcs s))) u →
    u ≠ t) as Hnt.
  { intros u (v & a & k & y & w & fin & o & n & D0 & _ & Hph & _) ->.
    rewrite (ph_insert _ _ _ _ _ _ Hp) in Hph. unfold upd_ph in Hph. by rewrite decide_True in Hph. }
  eapply R_move; try done; simpl.
  - intros a. rewrite (r_val _ _ HR). symmetry. apply (abs_val_put_desc _ _ D); [done|by left].
  - apply (r_glob _ _ HR).
  - intros u q D' Hu _. rewrite lookup_insert_ne by lia. eauto.
  - intros u Hu. by rewrite list_lookup_insert_ne.
  - intros u Hu (v & a & k & y & w & fin & o & n & D0 & Hv & Hph & Hrest). simpl in *.
    rewrite lookup_insert_ne in Hrest by lia. rewrite (ph_insert _ _ _ _ _ _ Hp) in Hph.
    unfold upd_ph in Hph. rewrite decide_False in Hph by done.
    apply list_lookup_insert_Some in Hv as [(_ & [=] & _)|[_ Hv]].
    exists v, a, k, y, w, fin, o, n, D0. done.
  - intros D'. rewrite lookup_insert_eq. intros [= <-].
    split; [apply list_lookup_insert_eq; by eapply lookup_lt_Some|]. by exists SIdle.
Qed.

Lemma sim_advance s t A D :
  R s A → pcs s !! t = Some PIdle → descs (mem s) !! Z.of_nat t = Some D →
  ∃ A', aruns A [EAdvance] A' ∧
    R (Cst (Dmem (cells (mem s)) (descs (mem s)) (global_epoch (mem s) +₆ 1)) (<[t := PIdle]> (pcs s))) A'.
Proof.
  intros HR Hp HD. exists (Ast (aval A) (aglob A +₆ 1) (aop A) (apc A)).
  split; [eapply aruns_vis; [constructor|constructor]|].
  assert (∀ u, vflag (Cst (Dmem (cells (mem s)) (descs (mem s)) (global_epoch (mem s) +₆ 1))
    (<[t := PIdle]> (pcs s))) u → vflag s u) as Hvf by (intros u; by eapply vflag_frame).
  eapply R_move; try done; simpl.
  - apply (r_val _ _ HR).
  - by rewrite (r_glob _ _ HR).
  - eauto.
  - intros u _. apply Hvf.
  - intros D' HD'. destruct (r_pc _ _ HR _ _ _ Hp HD') as (Ho & x & Hx & Hsp). split; [done|]. by exists x.
Qed.

(** The thread writes its own descriptor and moves on. *)
Lemma sim_own_write N s t p p' A D D' :
  inv N s → R s A → pcs s !! t = Some p → descs (mem s) !! Z.of_nat t = Some D →
  d_epoch D' = d_epoch D → op_of p' = op_of p → is_inst p = false → is_inst p' = false →
  (∀ d a k x w, p' ≠ PHelp d a k (H3 x true) w) →
  ∃ A', aruns A [] A' ∧ R (Cst (put_desc (Z.of_nat t) D' (mem s)) (<[t := p']> (pcs s))) A'.
Proof.
  intros Hi HR Hp HD He Hop Hin Hin' Hnh. pose proof (R_own_write _ _ _ _ _ _ _ Hi HR Hp Hin HD He) as HR1.
  apply (sim_go (Cst (put_desc (Z.of_nat t) D' (mem s)) (pcs s)) t p p' A D' HR1 Hp); try done.
  by apply lookup_insert_eq.
Qed.

(** The epoch advancer aborts a descriptor. *)
Lemma sim_try_abort N s t u x b m1 A :
  inv N s → 4 * N + 16 < U64 → R s A → pcs s !! t = Some (PAbort2 u x) →
  exec (abort (Z.of_nat u) x) (mem s) = Some (b, m1) →
  ∃ A', aruns A [] A' ∧ R (Cst m1 (<[t := PIdle]> (pcs s))) A'.
Proof.
  intros Hi HN HR Hp Hex. destruct (i_own _ _ Hi _ _ Hp) as (Dt & HDt & _).
  destruct (descs (mem s) !! Z.of_nat u) as [D|] eqn:HD.
  2: { unfold exec, abort, cas_desc_var in Hex. revert Hex. dstep. by rewrite HD. }
  pose proof (decide_exec false _ x _ D HD) as Hd. simpl in Hd. rewrite Hd in Hex.
  case_decide as Hv; injection Hex as <- <-; [|by apply (sim_go s t _ _ A Dt HR Hp)].
  pose proof (i_var _ _ Hi _ _ HD) as Hb. rewrite Hv in Hb. simpl in Hb.
  rewrite u64_small by (unfold is_u64; lia).
  pose proof (R_abort _ _ _ _ _ _ HR HD Hv ltac:(rewrite lor_base_div; mod_lia)) as HR1.
  clear Hd. set (m1 := put_desc _ _ _) in *.
  assert (is_Some (descs m1 !! Z.of_nat t)) as [D1 HD1] by (apply lookup_insert_is_Some'; eauto).
  by apply (sim_go (Cst m1 (pcs s)) t _ _ A D1 HR1 Hp).
Qed.

Lemma sim_step N s t a s' evs A :
  inv N s → 4 * N + 16 < U64 → R s A → step s t a = Some (s', evs) →
  ∃ A', aruns A evs A' ∧ R s' A'.
Proof.
  intros Hi HN HR Hst. unfold step in Hst. apply bind_Some in Hst as (p & Hp & Hst).
  apply bind_Some in Hst as ([[m' p'] evs'] & Hts & Hst). injection Hst as <- <-.
  destruct (i_own _ _ Hi _ _ Hp) as (D & HD & Hok).
  unfold thread_step in Hts. rewrite HD in Hts. simpl in Hts.
  destruct p as [|e|e|u e|u e x|u x|b|b o n|b o n c|b o n c|b o n c|b o n c|b o n k|b o n|b o n c|d b k h w];
    destruct a as [q| |u' e'| |]; try done; simpl in Hts.
  - injection Hts as <- <- <-. by eapply sim_call.
  - injection Hts as <- <- <-. by eapply sim_go.
  - injection Hts as <- <- <-. by eapply sim_go.
  - injection Hts as <- <- <-. by eapply sim_advance.
  - apply bind_Some in Hts as (D' & HD' & Hts). injection Hts as <- <- <-.
    eapply sim_own_write; try done. unfold reinit in HD'. destruct (increment_sn _); by simplify_eq/=.
  - injection Hts as <- <- <-. by eapply sim_begin.
  - apply bind_Some in Hts as (D' & HD' & Hts). injection Hts as <- <- <-. by eapply sim_go.
  - apply bind_Some in Hts as (D' & HD' & Hts). injection Hts as <- <- <-.
    case_match; by eapply sim_go.
  - apply bind_Some in Hts as ([bb m1] & Hex & Hts). injection Hts as <- <- <-. by eapply sim_try_abort.
  - apply bind_Some in Hts as (r & Hr & Hts). destruct (is_desc r) eqn:Hd; injection Hts as <- <- <-;
      [by eapply sim_go|by eapply sim_load].
  - apply bind_Some in Hts as (r & Hr & Hts). repeat case_match; simplify_eq; try (by eapply sim_go).
    eapply sim_fail; [done..|simpl; eauto|done].
  - injection Hts as <- <- <-. by eapply sim_own_write.
  - injection Hts as <- <- <-. by eapply sim_own_write.
  - injection Hts as <- <- <-. by eapply sim_own_write.
  - apply bind_Some in Hts as ([bb m1] & Hex & Hts).
    destruct (install_cases _ _ _ _ _ _ _ _ _ Hi HN Hp Hex) as (Hc & [(-> & Hr & ->)|(-> & ->)]);
      rewrite ?Hc in Hts; injection Hts as <- <- <-.
    + exists A. split; [constructor|]. by eapply sim_install.
    + eapply sim_fail; [done..|simpl; eauto|done].
  - injection Hts as <- <- <-. by eapply sim_cas5.
  - apply bind_Some in Hts as (r & Hr & Hts). case_match; simplify_eq; by eapply sim_go.
  - apply bind_Some in Hts as ([bb m1] & Hex & Hts). injection Hts as <- <- <-.
    destruct (plain_cases _ _ _ _ _ _ _ _ _ Hi Hp Hex) as [(-> & Hr & -> & Hc & Hb)|[-> ->]].
    + by eapply (sim_plain N).
    + eapply sim_fail; [done..|simpl; eauto|done].
  - apply bind_Some in Hts as ([m1 h'] & Hh & Hts).
    destruct h' as [h'|]; [|destruct (resume t b k w) as [p0 ev0] eqn:Hres]; injection Hts as <- <- <-;
      (eapply sim_help; [done..|]); [done|by rewrite Hres].
Qed.

(** ** Refinement *)

Definition initial (vals : gmap Z Z) (e : Z) (n : nat) (s : cst) : Prop :=
  cells (mem s) = (λ v, LV v 0) <$> vals ∧ global_epoch (mem s) = e ∧
  pcs s = replicate n PIdle ∧
  (∀ t, (t < n)%nat → ∃ D, descs (mem s) !! Z.of_nat t = Some D ∧ d_epoch D = NULL_EPOCH) ∧
  (∀ d D, descs (mem s) !! d = Some D → d_var D = LV 0 0).

Definition atomic (vals : gmap Z Z) (e : Z) (n : nat) : ast :=
  Ast vals e (replicate n NULL_EPOCH) (replicate n SIdle).

Lemma inv_initial vals e n s : initial vals e n s → inv 0 s.
Proof.
  intros (Hc & Hg & Hp & Hd & Hv).
  assert (∀ a r, cells (mem s) !! a = Some r → lcnt r = 0) as Hcnt.
  { intros a r. rewrite Hc, lookup_fmap. by intros (v & _ & ->)%fmap_Some. }
  split.
  - intros t p. rewrite Hp. intros [-> Ht]%lookup_replicate_1. destruct (Hd t Ht) as (D & HD & _). by exists D.
  - intros a r Hr. split; rewrite (Hcnt a r Hr); [lia|by left].
  - intros t d a k h w. rewrite Hp. by intros [? _]%lookup_replicate_1.
  - intros a r Hr. rewrite (Hcnt a r Hr). lia.
  - intros d D HD. rewrite (Hv d D HD). simpl. lia.
Qed.

Lemma R_initial vals e n s : initial vals e n s → R s (atomic vals e n).
Proof.
  intros (Hc & Hg & Hp & Hd & Hv). split; simpl; try done.
  - intros a. unfold abs_val. rewrite Hc, lookup_fmap. by destruct (vals !! a).
  - intros t p D. rewrite Hp. intros [-> Ht]%lookup_replicate_1 HD.
    destruct (Hd t Ht) as (D' & HD' & He). simplify_eq.
    split; [by rewrite He, lookup_replicate_2 by done|]. exists SIdle. by rewrite lookup_replicate_2 by done.
Qed.

Lemma sim_run tr N s s' evs A :
  inv N s → 4 * (N + 2 * Z.of_nat (length tr)) + 16 < U64 → R s A → run s tr = Some (s', evs) →
  timely_run s tr = true →
  inv (N + 2 * Z.of_nat (length tr)) s' ∧ ∃ A', aruns A evs A' ∧ R s' A'.
Proof.
  revert N s evs A. induction tr as [|[t a] tr IH]; intros N s evs A Hi HN HR Hrun Ht; simpl in *.
  - injection Hrun as <- <-. split; [apply (inv_mono N); [done|lia]|]. exists A. split; [constructor|done].
  - apply bind_Some in Hrun as ([s1 evs1] & Hst & Hrun).
    apply bind_Some in Hrun as ([s2 evs2] & Hrun & Heq). injection Heq as <- <-.
    rewrite Hst in Ht. apply andb_true_iff in Ht as [Ht Ht'].
    destruct (sim_step _ _ _ _ _ _ _ Hi ltac:(lia) HR Hst) as (A1 & Hr1 & HR1).
    pose proof (dcss_inv_step _ _ _ _ _ _ Hi ltac:(lia) Ht Hst) as Hi1.
    destruct (IH (N + 2) s1 evs2 A1) as (Hi2 & A2 & Hr2 & HR2); try done; [lia|].
    split; [apply (inv_mono _ _ _ Hi2); lia|]. exists A2. split; [by eapply aruns_app|done].
Qed.

(** [try_complete] is never stuck; in particular the assertion of [cleanup]
    does not fail. *)
Lemma help_progress N s t d a k h w :
  inv N s → pcs s !! t = Some (PHelp d a k h w) → is_Some (help_step (mem s) d a k h).
Proof.
  intros Hi Hp. destruct (help_facts _ _ _ _ _ _ _ _ Hi Hp) as (u & D & Hd & HD & Hk & _ & Hsh & (r & Hr & _) & _).
  unfold help_step. rewrite HD. simpl. destruct h as [|x|x e|x b|x|y|y v]; try done.
  - rewrite (decide_exec b d x _ D HD). by case_decide.
  - destruct (match_ x (d_var D)) eqn:Hm; [|done]. simpl.
    by rewrite (cleanup_assert _ _ _ _ _ _ _ Hi x D Hp HD Hm).
  - destruct Hsh as [-> _]. rewrite (cas_cell_exec _ _ _ _ r Hr). by case_decide.
Qed.


(** ** Examples *)

Definition go (t k : nat) : list (nat * act) := replicate k (t, Go).

Definition desc0 : sc_desc_t := ScDesc 0 0 NULL_EPOCH 0 (LV 0 0).
Definition s_ex : cst :=
  Cst (Dmem {[100 := LV 1 0]} (<[0 := desc0]> {[1 := desc0]}) 3) [PIdle; PIdle].

Lemma s_ex_initial : initial {[100 := 1]} 3 2 s_ex.
Proof.
  split_and!; try done.
  - intros [|[|t]] Ht; [by exists desc0..|lia].
  - intros d D. simpl. rewrite lookup_insert_Some, lookup_singleton_Some. by intros [[_ <-]|(_ & _ & <-)].
Qed.

(** Thread 0 installs its descriptor, thread 1 meets it in a load and completes
    it for thread 0. *)
Definition tr_help : list (nat * act) :=
  [(0%nat, Begin)] ++ go 0 2 ++ [(0%nat, Call (OCas 100 1 2))] ++ go 0 5 ++
  [(1%nat, Call (OLoad 100))] ++ go 1 9 ++ go 0 5.


(** ** A helper that is not timely

    To show that a history is not one of atomic registers: with two threads of
    which the second only loads, [two A Q] says that the first is at [x] and the
    cell 100 holds [v] with [Q x v]. *)

Definition loads (y : spc) : Prop :=
  y = SIdle ∨ (∃ b, y = SPend (OLoad 100) b) ∨ ∃ v, y = SDone (RVal v).

Definition two (Q : spc → Z → Prop) (A : ast) : Prop :=
  ∃ x y v, apc A = [x; y] ∧ aval A !! 100 = Some v ∧ loads y ∧ Q x v.

Definition at_rest (w : Z) (x : spc) (v : Z) : Prop := x = SIdle ∧ v = w.
Definition in_cas (o n : Z) (x : spc) (v : Z) : Prop :=
  (∃ b, x = SPend (OCas 100 o n) b) ∧ v = o ∨ x = SDone (RBool true) ∧ v = n ∨ x = SDone (RBool false) ∧ v = o.
Definition in_load (w : Z) (x : spc) (v : Z) : Prop :=
  v = w ∧ ((∃ b, x = SPend (OLoad 100) b) ∨ x = SDone (RVal w)).

(** The sets of positions that internal steps do not leave. *)
Inductive closed : (spc → Z → Prop) → Prop :=
  | closed_rest w : closed (at_rest w)
  | closed_cas o n : closed (in_cas o n)
  | closed_load w : closed (in_load w).

Lemma two_lin Q A A' : closed Q → alin A A' → two Q A → two Q A'.
Proof.
  intros HQ Hlin (x & y & v & Hpc & Hval & Hy & Hx).
  assert (∀ t z, apc A !! t = Some z → (t = 0%nat ∧ z = x) ∨ (t = 1%nat ∧ z = y)) as Hcase.
  { rewrite Hpc. intros [|[|t]] z; simpl; intros [= ->]; auto. }
  destruct HQ as [w|o n|w]; unfold at_rest, in_cas, in_load, loads in *;
    destruct Hlin as [A t a v' b Ht Ha|A t a o' n' b Ht Ha|A t a o' n' Ht Ha|A t a o' n' b Ht Ha|A t a o' n' b Ht|A t a o' n' b Ht];
    destruct (Hcase _ _ Ht) as [[-> <-]|[-> <-]]; try naive_solver;
    unfold two, a_pc, a_write; simpl; rewrite Hpc; simpl.
  all: repeat match goal with
    | H : _ ∨ _ |- _ => destruct H
    | H : _ ∧ _ |- _ => destruct H
    | H : ∃ _, _ |- _ => destruct H
    end; simplify_eq; try rewrite lookup_insert_eq; do 3 eexists; unfold loads; split_and!; eauto 7.
Qed.

(** Up to the next event. *)
Lemma two_runs Q A e evs A' :
  closed Q → two Q A → aruns A (e :: evs) A' → ∃ A1 A2, two Q A1 ∧ avis A1 e A2 ∧ aruns A2 evs A'.
Proof.
  intros HQ HA Hrun. remember (e :: evs) as l eqn:Hl. induction Hrun; simplify_eq; eauto using two_lin.
Qed.

(** The events *)
Inductive next : (spc → Z → Prop) → ev → (spc → Z → Prop) → Prop :=
  | next_begin w e : next (at_rest w) (EBegin 0 e) (at_rest w)
  | next_cas o n : next (at_rest o) (ECall 0 (OCas 100 o n)) (in_cas o n)
  | next_cas_ret o n : next (in_cas o n) (ERet 0 (RBool true)) (at_rest n)
  | next_load w : next (at_rest w) (ECall 0 (OLoad 100)) (in_load w)
  | next_load_1 Q : next Q (ECall 1 (OLoad 100)) Q
  | next_ret_1 Q v : next Q (ERet 1 (RVal v)) Q.

Lemma two_vis Q e Q' A A' : next Q e Q' → two Q A → avis A e A' → two Q' A'.
Proof.
  intros Hn (x & y & v & Hpc & Hval & Hy & Hx) Hvis. destruct Hn; inversion Hvis as [? ? ? Ht|? ? ? Ht|? ? ? Ht|]; subst;
    rewrite Hpc in Ht; injection Ht as ->; unfold two, a_pc; simpl; rewrite ?Hpc; simpl;
    do 3 eexists; (split; [done|]); (split; [done|]); unfold loads, at_rest, in_cas, in_load in *;
    naive_solver.
Qed.

Fixpoint nexts (Q : spc → Z → Prop) (evs : list ev) (Q' : spc → Z → Prop) : Prop :=
  match evs with
  | [] => Q = Q'
  | e :: evs => ∃ Q1, closed Q ∧ next Q e Q1 ∧ nexts Q1 evs Q'
  end.

Lemma two_nexts Q evs1 Q' evs2 A A' :
  nexts Q evs1 Q' → two Q A → aruns A (evs1 ++ evs2) A' → ∃ A1, two Q' A1 ∧ aruns A1 evs2 A'.
Proof.
  revert Q A. induction evs1 as [|e evs1 IH]; intros Q A; simpl; [intros <-; eauto|].
  intros (Q1 & Hc & Hn & Hns) HA Hrun. destruct (two_runs _ _ _ _ _ Hc HA Hrun) as (A1 & A2 & H1 & Hv & Hr).
  eapply IH; [done| |done]. by eapply two_vis.
Qed.

(** Thread 1 meets the descriptor of the first [CAS_verify] of thread 0, and
    goes on when thread 0 is setting it up for the second one. *)
Definition tr_stale : list (nat * act) :=
  [(0%nat, Begin)] ++ go 0 2 ++ [(0%nat, Call (OCas 100 1 2))] ++ go 0 5 ++
  [(1%nat, Call (OLoad 100))] ++ go 1 1 ++ go 0 8 ++
  [(0%nat, Begin)] ++ go 0 2 ++ [(0%nat, Call (OCas 100 2 3))] ++ go 0 2 ++ go 1 6 ++ go 0 3 ++ go 1 1 ++ go 0 5 ++ go 1 1 ++
  [(0%nat, Call (OLoad 100))] ++ go 0 1.

Definition evs_stale : list ev :=
  [EBegin 0 3; ECall 0 (OCas 100 1 2); ECall 1 (OLoad 100); ERet 0 (RBool true);
   EBegin 0 3; ECall 0 (OCas 100 2 3); ERet 0 (RBool true); ERet 1 (RVal 2); ECall 0 (OLoad 100)].

(** C35. A stale helper loses an update.  [try_complete] checks only that the
    descriptor is set up for the same cell, not that it is the same use of it,
    and [set_up_var] publishes the new status before the new values.  A helper
    that met the descriptor of an earlier [CAS_verify] on the cell commits the
    next one before it is installed and cleans it up with the earlier new
    value: thread 0 changes the cell from 1 to 2 and from 2 to 3, both calls
    return true, and its next load returns 2.  No execution of atomic registers
    has these calls and returns. *)
Theorem dcss_stale_helper_loses_update :
  (∃ s, run s_ex tr_stale = Some (s, evs_stale ++ [ERet 0 (RVal 2)]) ∧
     abs_val (mem s) 100 = Some 2) ∧
  ¬ ∃ A, aruns (atomic {[100 := 1]} 3 2) (evs_stale ++ [ERet 0 (RVal 2)]) A.
Proof.
  split; [eexists; split; vm_compute; reflexivity|].
  intros (A & HA).
  assert (nexts (at_rest 1) evs_stale (in_load 3)) as Hn.
  { repeat (eexists; split; [constructor|]; split; [constructor|]). done. }
  assert (two (at_rest 1) (atomic {[100 := 1]} 3 2)) as H0 by (exists SIdle, SIdle, 1; by split_and!; [..|left|]).
  destruct (two_nexts _ _ _ _ _ _ Hn H0 HA) as (A1 & H1 & Hr).
  destruct (two_runs _ _ _ _ _ (closed_load 3) H1 Hr) as (A2 & A3 & (x & y & v & Hpc & _ & _ & Hx) & Hv & _).
  inversion Hv as [|? ? ? Ht| |]; subst. rewrite Hpc in Ht. injection Ht as ->.
  unfold in_load in Hx. naive_solver.
Qed.

End DcssLin.
