(* ===== verification/EpochSys.v ===== *)
(** * The epoch system (src/persist/EpochSys.hpp, EpochSys.cpp)

    Persistent blocks ([PBlk]), their life cycle (allocation, copy-on-write
    update, deletion through anti-nodes, retirement and reclamation) and the
    transactions of the blocking ([EpochSys]) and nonblocking ([nbEpochSys])
    epoch systems, composed from the containers, trackers and descriptors of
    the other files.

    The code runs in the state monad over [esys]; the calling thread's
    [EpochSys::tid] is the argument [tid].  Ralloc is a parameter: [ralloc h] is
    the address [allocate] returns when the allocated blocks are [h].  Blocks
    are addressed by nonzero integers, [nullptr] is 0.  [deallocate] takes the
    block out of the heap: later accesses are undefined behaviour. *)

From S2P Require Import Prelude PersistFunc UIDGen FixedBuffers Containers ToBePersisted TransTrackers ToBeFreed PersistTracker Dcss.
Import ThreadLocalFreedContainer IncreasingMindicator.

(** ** PBlk *)

(** [get_data] is the virtual method that returns the block owned by this one;
    [payload] stands for the fields of the derived class ([None] for a plain
    [PBlk], such as an anti-node). *)
Record pblk (P : Type) : Type := Pblk {
  retire : Z;
  epoch : Z;
  blktype : PBlkType;
  tid_sn : Z;
  id : Z;
  get_data : Z;
  payload : option P;
}.
Arguments Pblk {P}.
Arguments retire {P}.
Arguments epoch {P}.
Arguments blktype {P}.
Arguments tid_sn {P}.
Arguments id {P}.
Arguments get_data {P}.
Arguments payload {P}.

Section pblk.
Context {P : Type}.
Implicit Type b : pblk P.

Definition set_epoch (e : Z) b := Pblk (retire b) e (blktype b) (tid_sn b) (id b) (get_data b) (payload b).
Definition set_blktype (t : PBlkType) b :=
  Pblk (retire b) (epoch b) t (tid_sn b) (id b) (get_data b) (payload b).
Definition set_retire (r : Z) b :=
  Pblk r (epoch b) (blktype b) (tid_sn b) (id b) (get_data b) (payload b).
Definition set_id (i : Z) b :=
  Pblk (retire b) (epoch b) (blktype b) (tid_sn b) i (get_data b) (payload b).
Definition set_tidsn (x : Z) b :=
  Pblk (retire b) (epoch b) (blktype b) x (id b) (get_data b) (payload b).
Definition set_payload (p : P) b :=
  Pblk (retire b) (epoch b) (blktype b) (tid_sn b) (id b) (get_data b) (Some p).

(** [PBlk()], in a derived object with fields [p] *)
Definition new_PBlk (p : P) (data : Z) : pblk P := Pblk 0 NULL_EPOCH INIT 0 0 data (Some p).
(** [PBlk(const PBlk& oth)]: the other members get their default values. *)
Definition copy_blktype (t : PBlkType) : PBlkType := match t with OWNED => OWNED | _ => INIT end.
(** the copy constructor of a derived class [T], and of [PBlk] itself *)
Definition copy_T b : pblk P := Pblk 0 NULL_EPOCH (copy_blktype (blktype b)) 0 (id b) (get_data b) (payload b).
Definition copy_PBlk b : pblk P := Pblk 0 NULL_EPOCH (copy_blktype (blktype b)) 0 (id b) 0 None.
End pblk.

Inductive SysMode : Type := ONLINE | RECOVER.

(** ** State *)

Record esys (P C T : Type) : Type := Esys {
  dm : dmem;
  local_descs : list Z;
  heap : gmap Z (pblk P);
  uid_generator : list Z;
  trans_tracker : T;
  to_be_persisted : bwb (C:=C);
  to_be_freed : tlfc Z;
  persisted_epochs : im;
  last_epochs : list Z;
  target_epoch : Z;
  sys_mode : SysMode;
  plog : list pevent;
}.
Arguments Esys {P C T}.
Arguments dm {P C T}.
Arguments local_descs {P C T}.
Arguments heap {P C T}.
Arguments uid_generator {P C T}.
Arguments trans_tracker {P C T}.
Arguments to_be_persisted {P C T}.
Arguments to_be_freed {P C T}.
Arguments persisted_epochs {P C T}.
Arguments last_epochs {P C T}.
Arguments target_epoch {P C T}.
Arguments sys_mode {P C T}.
Arguments plog {P C T}.

Section esys.
Context {P C T : Type} `{!FixedContainer C, !Tracker T}.
Context (ralloc : gmap Z (pblk P) → Z) (malloc_size : Z → Z) (task_num : nat).
Notation esys := (esys P C T).
Notation E := (M esys).

Definition with_dm (d : dmem) (s : esys) : esys :=
  Esys d (local_descs s) (heap s) (uid_generator s) (trans_tracker s) (to_be_persisted s)
    (to_be_freed s) (persisted_epochs s) (last_epochs s) (target_epoch s) (sys_mode s) (plog s).
Definition with_heap (h : gmap Z (pblk P)) (s : esys) : esys :=
  Esys (dm s) (local_descs s) h (uid_generator s) (trans_tracker s) (to_be_persisted s)
    (to_be_freed s) (persisted_epochs s) (last_epochs s) (target_epoch s) (sys_mode s) (plog s).
Definition with_uid (u : list Z) (s : esys) : esys :=
  Esys (dm s) (local_descs s) (heap s) u (trans_tracker s) (to_be_persisted s)
    (to_be_freed s) (persisted_epochs s) (last_epochs s) (target_epoch s) (sys_mode s) (plog s).
Definition with_tracker (k : T) (s : esys) : esys :=
  Esys (dm s) (local_descs s) (heap s) (uid_generator s) k (to_be_persisted s)
    (to_be_freed s) (persisted_epochs s) (last_epochs s) (target_epoch s) (sys_mode s) (plog s).
Definition with_tbp (k : bwb (C:=C)) (l : list pevent) (s : esys) : esys :=
  Esys (dm s) (local_descs s) (heap s) (uid_generator s) (trans_tracker s) k
    (to_be_freed s) (persisted_epochs s) (last_epochs s) (target_epoch s) (sys_mode s) (plog s ++ l).
Definition with_tbf (k : tlfc Z) (s : esys) : esys :=
  Esys (dm s) (local_descs s) (heap s) (uid_generator s) (trans_tracker s) (to_be_persisted s)
    k (persisted_epochs s) (last_epochs s) (target_epoch s) (sys_mode s) (plog s).
Definition with_pers (k : im) (s : esys) : esys :=
  Esys (dm s) (local_descs s) (heap s) (uid_generator s) (trans_tracker s) (to_be_persisted s)
    (to_be_freed s) k (last_epochs s) (target_epoch s) (sys_mode s) (plog s).
Definition with_last (l : list Z) (s : esys) : esys :=
  Esys (dm s) (local_descs s) (heap s) (uid_generator s) (trans_tracker s) (to_be_persisted s)
    (to_be_freed s) (persisted_epochs s) l (target_epoch s) (sys_mode s) (plog s).
Definition with_log (l : list pevent) (s : esys) : esys :=
  Esys (dm s) (local_descs s) (heap s) (uid_generator s) (trans_tracker s) (to_be_persisted s)
    (to_be_freed s) (persisted_epochs s) (last_epochs s) (target_epoch s) (sys_mode s) (plog s ++ l).

(** ** Calls into the components *)

Definition lift_outcome {A} (o : outcome A) : E A :=
  match o with Ret a => mret_ a | Throw e => mthrow e end.

Definition on_dm {A} (f : M dmem A) : E A := λ s,
  let '(o, d) := f (dm s) in (o, with_dm d s).

Definition on_tbp (f : bwb (C:=C) → outcome (list pevent * bwb (C:=C))) : E unit := λ s,
  match f (to_be_persisted s) with
  | Ret (l, k) => (Ret tt, with_tbp k l s)
  | Throw e => (Throw e, s)
  end.

Definition tbp_register_persist (blk c : Z) (tid : nat) : E unit :=
  on_tbp (register_persist malloc_size blk c tid).
Definition tbp_register_persist_raw (blk c : Z) (tid : nat) : E unit :=
  on_tbp (register_persist_raw malloc_size blk c tid).
Definition tbp_persist_epoch_local (c : Z) (tid : nat) : E unit :=
  on_tbp (persist_epoch_local malloc_size c tid).
Definition tbp_register_persist_desc_local (c : Z) (tid : nat) : E unit :=
  on_tbp (λ k, Ret ([], Bwb (bwb_task_num k) (register_persist_desc_local c tid (bwb_desc k))
                            (bwb_container k))).

Definition tbf_register_free (blk c : Z) (tid : nat) : E unit := λ s,
  match tl_register_free (blk =? 0) blk c tid (to_be_freed s) with
  | Ret k => (Ret tt, with_tbf k s)
  | Throw e => (Throw e, s)
  end.

Definition read_blk (b : Z) : E (pblk P) := λ s,
  match heap s !! b with Some x => (Ret x, s) | None => (Throw (UB "dangling PBlk*"), s) end.
Definition write_blk (b : Z) (x : pblk P) : E unit := mmod (λ s, with_heap (<[b := x]> (heap s)) s).
Definition modify_blk (b : Z) (f : pblk P → pblk P) : E unit :=
  let* x := read_blk b in write_blk b (f x).

(** [new_pblk<T>(args...)]: allocate and construct in place *)
Definition new_pblk (x : pblk P) : E Z := λ s,
  let b := ralloc (heap s) in (Ret b, with_heap (<[b := x]> (heap s)) s).

Definition delete_pblk (b c : Z) (tid : nat) : E unit :=
  do* modify_blk b (set_epoch NULL_EPOCH) in
  do* mmod (λ s, with_heap (delete b (heap s)) s) in
  let* mode := mget sys_mode in
  match mode with
  | ONLINE =>
      if negb (c =? NULL_EPOCH) then
        if (task_num <=? tid)%nat then mmod (with_log [Clwb b])
        else tbp_register_persist_raw b c tid
      else mret_ tt
  | RECOVER => mret_ tt
  end.

(** ** Operations on blocks, common to both epoch systems *)

Definition get_epoch : E Z := mget (λ s, global_epoch (dm s)).
Definition check_epoch (c : Z) : E bool := on_dm (Dcss.check_epoch c).

Definition validate_access (b c : Z) : E unit :=
  if c =? NULL_EPOCH then mthrow (Errexit "access with NULL_EPOCH. BEGIN_OP not called?")
  else
    let* x := read_blk b in
    if c <? epoch x then mthrow OldSeeNewException else mret_ tt.

Definition openread_pblk (b c : Z) : E Z := do* validate_access b c in mret_ b.
Definition openread_pblk_unsafe (b c : Z) : E Z := mret_ b.

Definition openwrite_pblk (b c : Z) (tid : nat) : E Z :=
  do* validate_access b c in
  let* blk := read_blk b in
  if epoch blk <? c then
    do* tbf_register_free b c tid in
    let* b' := new_pblk (copy_T blk) in
    do* massert (negb (b' =? 0)) "blk" in
    do* modify_blk b' (set_epoch c) in
    do* modify_blk b' (set_blktype UPDATE) in
    mret_ b'
  else mret_ b.

Definition register_update_pblk (b c : Z) (tid : nat) : E unit :=
  if c =? NULL_EPOCH then mret_ tt else tbp_register_persist b c tid.

(** The common part of the two [register_alloc_pblk]: [tag] is what the
    nonblocking system does first ([set_tid_sn]). *)
Fixpoint register_alloc_loop (tag : Z → E unit) (fuel : nat) (b c : Z) (tid : nat) : E unit :=
  match fuel with
  | O => mthrow (UB "out of fuel")
  | S fuel' =>
      do* tag b in
      do* massert (negb (c =? NULL_EPOCH)) "c != NULL_EPOCH" in
      do* modify_blk b (set_epoch c) in
      let* blk := read_blk b in
      do* massert (bool_decide (blktype blk = INIT ∨ blktype blk = OWNED))
            "blk->blktype == INIT || blk->blktype == OWNED" in
      do* (if bool_decide (blktype blk = INIT) then modify_blk b (set_blktype ALLOC) else mret_ tt) in
      do* (if id blk =? 0 then
             let* u := mget uid_generator in
             match UIDGen.get_id u tid with
             | Some (i, u') => do* mmod (with_uid u') in modify_blk b (set_id i)
             | None => mthrow (UB "curr_ids[tid]")
             end
           else mret_ tt) in
      do* tbp_register_persist b c tid in
      if negb (get_data blk =? 0) then register_alloc_loop tag fuel' (get_data blk) c tid
      else mret_ tt
  end.

(** The recursion follows [get_data]; a chain of distinct blocks is no longer
    than the number of blocks. *)
Definition register_alloc_pblk (b c : Z) (tid : nat) : E unit :=
  let* h := mget heap in register_alloc_loop (λ _, mret_ tt) (S (size h)) b c tid.

Fixpoint reset_alloc_loop (fuel : nat) (b c : Z) (tid : nat) : E unit :=
  match fuel with
  | O => mthrow (UB "out of fuel")
  | S fuel' =>
      do* modify_blk b (set_epoch NULL_EPOCH) in
      let* blk := read_blk b in
      do* massert (bool_decide (blktype blk = ALLOC)) "blk->blktype == ALLOC" in
      do* modify_blk b (set_blktype INIT) in
      do* tbp_register_persist_raw b c tid in
      if negb (get_data blk =? 0) then reset_alloc_loop fuel' (get_data blk) c tid
      else mret_ tt
  end.
Definition reset_alloc_pblk (b c : Z) (tid : nat) : E unit :=
  let* h := mget heap in reset_alloc_loop (S (size h)) b c tid.

Definition free_pblk (b c : Z) (tid : nat) : E unit :=
  let* blk := read_blk b in
  let e := epoch blk in
  if e =? NULL_EPOCH then delete_pblk b c tid
  else if c <? e then mthrow OldSeeNewException
  else if e =? c then
    match blktype blk with
    | ALLOC => delete_pblk b c tid
    | UPDATE =>
        do* modify_blk b (set_blktype DELETE) in
        tbf_register_free b c tid
    | DELETE => mthrow (Errexit "double free error.")
    | _ => tbf_register_free b c tid
    end
  else
    let* del := new_pblk (copy_PBlk blk) in
    do* modify_blk del (set_blktype DELETE) in
    do* modify_blk del (set_epoch c) in
    do* tbp_register_persist del c tid in
    do* tbf_register_free del (c +₆ 1) tid in
    tbf_register_free b c tid.

Definition reclaim_pblk (b c : Z) (tid : nat) : E unit :=
  if c =? NULL_EPOCH then mthrow (Errexit "reclaiming a block in NULL epoch")
  else
    let* blk := read_blk b in
    let e := epoch blk in
    if c <? e then mthrow (Errexit "reclaiming a block created in a newer epoch")
    else if retire blk =? 0 then
      match blktype blk with
      | DELETE => if e <? c -₆ 1 then delete_pblk b c tid else tbf_register_free b c tid
      | _ => free_pblk b c tid
      end
    else
      let* anti := read_blk (retire blk) in
      if c <? epoch anti then mthrow (Errexit "reclaiming a block retired in a newer epoch")
      else if e <? c -₆ 1 then
        do* tbf_register_free (retire blk) c tid in delete_pblk b c tid
      else
        do* tbf_register_free (retire blk) (c +₆ 1) tid in tbf_register_free b c tid.

(** ** EpochSys: retirement, transactions, epoch boundaries *)

Definition retire_pblk (b c : Z) (tid : nat) : E unit :=
  let* blk := read_blk b in
  if negb (retire blk =? 0) then
    mthrow (Errexit "double retire error, or this block was tentatively retired before recent crash.")
  else if c <? epoch blk then mthrow OldSeeNewException
  else
    do* (if epoch blk =? c then
           match blktype blk with
           | ALLOC | UPDATE => modify_blk b (set_blktype DELETE)
           | _ => mthrow (Errexit "wrong type of PBlk to retire.")
           end
         else
           let* anti := new_pblk (copy_PBlk blk) in
           do* modify_blk b (set_retire anti) in
           do* modify_blk anti (set_blktype DELETE) in
           do* modify_blk anti (set_epoch c) in
           tbp_register_persist anti c tid) in
    tbp_register_persist b c tid.

Definition get_last_epoch (tid : nat) : E Z := λ s,
  match last_epochs s !! tid with Some e => (Ret e, s) | None => (Throw (UB "last_epochs[tid]"), s) end.
Definition set_last_epoch (tid : nat) (e : Z) : E unit := mmod (λ s, with_last (<[tid := e]> (last_epochs s)) s).

Definition local_desc (tid : nat) : E Z := λ s,
  match local_descs s !! tid with Some d => (Ret d, s) | None => (Throw (UB "local_descs[tid]"), s) end.
Definition reinit_desc (tid : nat) : E unit :=
  let* d := local_desc tid in
  let* D := on_dm (load_desc d) in
  let* D' := lift_outcome (reinit D) in
  on_dm (store_desc d D').
Definition set_up_desc_epoch (tid : nat) (e : Z) : E unit :=
  let* d := local_desc tid in
  let* D := on_dm (load_desc d) in
  on_dm (store_desc d (set_up_epoch e D)).

(** [do { ret = global_epoch } while (!consistent_register_active(ret, ret))]:
    without interference the first attempt succeeds. *)
Fixpoint register_active (fuel : nat) (tid : nat) : E Z :=
  match fuel with
  | O => mthrow (Spin "consistent_register_active")
  | S fuel' =>
      let* ret := get_epoch in
      let* ok := (λ s, let '(b, k) := consistent_register tid ret ret (global_epoch (dm s)) (trans_tracker s)
                       in (Ret b, with_tracker k s)) in
      if ok : bool then mret_ ret else register_active fuel' tid
  end.

Definition unregister_active (c : Z) (tid : nat) : E unit :=
  mmod (λ s, with_tracker (tt_unset tid c (trans_tracker s)) s).

Definition next_epoch (tid : nat) : E Z := λ s, (next_epoch_to_persist tid (persisted_epochs s), s).
Definition after_persist (v : Z) (tid : nat) : E unit := λ s,
  match after_persist_epoch v tid (persisted_epochs s) with
  | Ret k => (Ret tt, with_pers k s)
  | Throw e => (Throw e, s)
  end.

(** [while (true) { ... }] of [begin_transaction]: past epochs a [sync] waits for *)
Fixpoint help_persist (fuel : nat) (persist_until : Z) (tid : nat) : E unit :=
  match fuel with
  | O => mthrow (UB "out of fuel")
  | S fuel' =>
      let* to_persist := next_epoch tid in
      if (to_persist =? NULL_EPOCH) || (persist_until <? to_persist) then mret_ tt
      else
        do* tbp_persist_epoch_local to_persist tid in
        do* after_persist to_persist tid in
        help_persist fuel' persist_until tid
  end.

(** [for (i = ...; i <= lim; i++) { to_be_freed->help_free_local(i); sfence(); }]:
    the blocks freed by the container are passed to [delete_pblk] one by one *)
Fixpoint local_free_loop (fuel : nat) (i lim : Z) (tid : nat) : E unit :=
  match fuel with
  | O => mthrow (UB "out of fuel")
  | S fuel' =>
      if i <=? lim then
        do* (λ s, match tl_help_free_local i tid (to_be_freed s) with
                  | Ret (l, k) => mfor l (λ p, delete_pblk p.1 p.2 tid) (with_tbf k s)
                  | Throw e => (Throw e, s)
                  end) in
        do* mmod (with_log [Sfence]) in
        local_free_loop fuel' (i +₆ 1) lim tid
      else mret_ tt
  end.

(** [ThreadLocalFreedContainer::free_on_new_epoch] with its calls of [delete_pblk] *)
Definition free_on_new_epoch (c : Z) (tid : nat) : E unit :=
  let* te := mget (λ s, threadEpoch (to_be_freed s)) in
  match te !! tid with
  | None => mthrow (UB "threadEpoch[tid]")
  | Some last_epoch =>
      if last_epoch =? c then mret_ tt
      else
        do* mmod (λ s, with_tbf (Tlfc (container (to_be_freed s)) (<[tid := c]> te)) s) in
        local_free_loop 4 (last_epoch -₆ 1) (Z.min (last_epoch +₆ 1) (c -₆ 2)) tid
  end.

(** [IncreasingMindicator::first_write_on_new_epoch] does nothing. *)
Definition begin_transaction (tid : nat) : E Z :=
  do* reinit_desc tid in
  let* ret := register_active 1 tid in
  let* last_epoch := get_last_epoch tid in
  do* (if negb (last_epoch =? ret) then
         do* set_last_epoch tid ret in
         let* target := mget target_epoch in
         let persist_until := Z.min (target -₆ 2) (ret -₆ 1) in
         let* leaf := next_epoch tid in
         help_persist (S (S (Z.to_nat (persist_until - leaf)))) persist_until tid
       else mret_ tt) in
  do* free_on_new_epoch ret tid in
  do* set_up_desc_epoch tid ret in
  mret_ ret.

(** [DedicatedEpochAdvancer::on_end_transaction] does nothing. *)
Definition end_transaction (c : Z) (tid : nat) : E unit :=
  do* set_last_epoch tid c in unregister_active c tid.

Definition begin_reclaim_transaction (tid : nat) : E Z :=
  let* ret := register_active 1 tid in
  do* free_on_new_epoch ret tid in
  mret_ ret.

Definition end_reclaim_transaction := end_transaction.
Definition end_readonly_transaction := unregister_active.
Definition abort_transaction := unregister_active.

(** [to_be_freed->help_free(c-2)], which the thread-local container ignores *)
Definition on_epoch_begin (c : Z) : E unit :=
  mmod (λ s, with_tbf (tl_help_free (c -₆ 2) (to_be_freed s)) s).

Definition next_thread (v : Z) (curr : nat) : E (option nat) := λ s,
  (next_thread_to_persist v curr (persisted_epochs s), s).

(** the loop over the lagging threads; [abort_desc] is what the nonblocking
    system does before the write-back ([try_abort]) *)
Fixpoint persist_threads (abort_desc : nat → E unit) (fuel : nat) (v : Z) (curr_thread : option nat) : E unit :=
  match fuel with
  | O => mthrow (UB "out of fuel")
  | S fuel' =>
      match curr_thread with
      | None => mret_ tt
      | Some t =>
          do* abort_desc t in
          do* tbp_persist_epoch_local v t in
          do* after_persist v t in
          let* curr' := next_thread v t in
          persist_threads abort_desc fuel' v curr'
      end
  end.

Definition on_epoch_end (c : Z) (tid : nat) : E unit :=
  let* quiet := mget (λ s, no_active_scan task_num (c -₆ 1) (trans_tracker s)) in
  if negb quiet then mthrow (Spin "no_active(c-1)")
  else
    let* curr := next_thread (c -₆ 1) (tid mod task_num) in
    let* n := mget (λ s, length (leaves (persisted_epochs s))) in
    persist_threads (λ _, mret_ tt) (S n) (c -₆ 1) curr.

(** ** nbEpochSys *)

(** [b->set_tid_sn(tid, get_dcss_desc()->get_sn())] *)
Definition tag_tid_sn (tid : nat) (b : Z) : E unit :=
  let* d := local_desc tid in
  let* D := on_dm (load_desc d) in
  let* x := lift_outcome (set_tid_sn (Z.of_nat tid) (get_sn (d_tid_sn D))) in
  modify_blk b (set_tidsn x).

Definition nb_register_alloc_pblk (b c : Z) (tid : nat) : E unit :=
  let* h := mget heap in register_alloc_loop (tag_tid_sn tid) (S (size h)) b c tid.

(** Creates the anti-node of [b]; both overloads of [prepare_retire_pblk] store
    it next to [b] in the list of pending retirements. *)
Definition nb_prepare_retire_pblk (b c : Z) (tid : nat) : E Z :=
  let* blk := read_blk b in
  if c <? epoch blk then mthrow OldSeeNewException
  else
    let* anti := new_pblk (copy_PBlk blk) in
    do* modify_blk anti (set_blktype DELETE) in
    do* modify_blk anti (set_epoch c) in
    do* tag_tid_sn tid anti in
    do* tbp_register_persist anti c tid in
    mret_ anti.

Definition nb_withdraw_retire_pblk (anti c : Z) (tid : nat) : E unit :=
  if negb (anti =? 0) then delete_pblk anti c tid else mret_ tt.

Definition nb_retire_pblk (b c anti : Z) : E unit :=
  let* blk := read_blk b in
  if negb (retire blk =? 0) then
    mthrow (Errexit "double retire error, or this block was tentatively retired before recent crash.")
  else
    do* massert (epoch blk <=? c) "e <= c" in
    do* massert (negb (anti =? 0)) "anti!=nullptr" in
    modify_blk b (set_retire anti).

Definition local_free (c : Z) (tid : nat) : E unit :=
  let* last_epoch := get_last_epoch tid in
  if last_epoch =? c then mret_ tt
  else local_free_loop 4 (last_epoch -₆ 1) (Z.min (last_epoch +₆ 1) (c -₆ 2)) tid.

Definition local_persist (c : Z) (tid : nat) : E unit :=
  let* last_epoch := get_last_epoch tid in
  if last_epoch =? c then mret_ tt
  else
    do* tbp_persist_epoch_local last_epoch tid in
    let* to_persist := next_epoch tid in
    do* (if to_persist <=? last_epoch then after_persist last_epoch tid else mret_ tt) in
    mmod (with_log [Sfence]).

Definition nb_begin_transaction (tid : nat) : E Z :=
  let* ret := get_epoch in
  do* local_persist ret tid in
  do* reinit_desc tid in
  do* set_up_desc_epoch tid ret in
  do* tbp_register_persist_desc_local ret tid in
  do* local_free ret tid in
  mret_ ret.

Definition nb_end_transaction (c : Z) (tid : nat) : E unit := set_last_epoch tid c.
Definition nb_begin_reclaim_transaction (tid : nat) : E Z :=
  let* ret := get_epoch in
  do* local_persist ret tid in
  do* local_free ret tid in
  mret_ ret.
Definition nb_end_reclaim_transaction := nb_end_transaction.
Definition nb_end_readonly_transaction := nb_end_transaction.
Definition nb_abort_transaction := nb_end_transaction.

Definition nb_on_epoch_begin (c : Z) : E unit := mret_ tt.

Definition nb_on_epoch_end (c : Z) (tid : nat) : E unit :=
  let* curr := next_thread (c -₆ 1) (tid mod task_num) in
  let* n := mget (λ s, length (leaves (persisted_epochs s))) in
  persist_threads (λ t, let* d := local_desc t in on_dm (try_abort d (c -₆ 1))) (S n) (c -₆ 1) curr.

(** ** Start-up *)

(** [local_descs[i] = new_pblk<sc_desc_t>(i)] at the addresses [desc_addr i] *)
Fixpoint init_descs (desc_addr : nat → Z) (tids : list nat) : outcome (gmap Z sc_desc_t) :=
  match tids with
  | [] => Ret ∅
  | i :: tids' =>
      match new_sc_desc (Z.of_nat i), init_descs desc_addr tids' with
      | Ret D, Ret m => Ret (<[desc_addr i := D]> m)
      | Throw e, _ => Throw e
      | _, Throw e => Throw e
      end
  end.

(** The part of [EpochSys::init] after the heap [h] and the epoch [e] are known:
    the descriptors, and [parse_env] with the default configuration.
    [container] and [tracker] are the freshly constructed objects;
    [uid_generator] was initialised by the constructor, in a restart too.
    [DedicatedEpochAdvancer] leaves [target_epoch] value initialised. *)
Definition start (desc_addr : nat → Z) (h : gmap Z (pblk P)) (e : Z) (container : C) (tracker : T) : outcome esys :=
  match init_descs desc_addr (seq 0 task_num), im_new task_num with
  | Ret m, Ret t =>
      Ret (Esys (Dmem ∅ m e) (desc_addr <$> seq 0 task_num) h (UIDGen.init (Z.of_nat task_num))
             tracker (Bwb task_num (desc_new task_num) container) (tl_new task_num) t
             (replicate task_num NULL_EPOCH) 0 ONLINE [])
  | Throw e, _ => Throw e
  | _, Throw e => Throw e
  end.

(** [init] on a heap that is not restarted: [reset] creates the epoch container. *)
Definition init (desc_addr : nat → Z) (container : C) (tracker : T) : outcome esys :=
  start desc_addr ∅ INIT_EPOCH container tracker.

(** ** Behaviour *)

Context `{!FixedContainerLaws C}.
Implicit Type s : esys.

(** What an operation needs of the containers: room for [k] registrations. *)
Definition es_ready (n : nat) (k : Z) s : Prop :=
  bwb_ok n k (to_be_persisted s) ∧ tab_dims n (container (to_be_freed s)).

(** [b] is registered for write-back, or for reclamation, by [tid] in epoch [c]. *)
Definition will_persist s (b c : Z) (tid : nat) : Prop := b ∈ pending (to_be_persisted s) (win c) tid.
Definition will_free s (b c : Z) (tid : nat) : Prop := b ∈ slot (container (to_be_freed s)) tid (win c).

(** Everything but the heap and the containers is unchanged. *)
Definition frame s s' : Prop :=
  dm s' = dm s ∧ local_descs s' = local_descs s ∧ uid_generator s' = uid_generator s ∧
  trans_tracker s' = trans_tracker s ∧ persisted_epochs s' = persisted_epochs s ∧
  last_epochs s' = last_epochs s ∧ target_epoch s' = target_epoch s ∧ sys_mode s' = sys_mode s.

Lemma tbp_register_persist_ok n k s b c tid :
  es_ready n k s → 0 < k → (tid < n)%nat → 0 < b → c ≠ NULL_EPOCH →
  ∃ l kk, tbp_register_persist b c tid s = (Ret tt, with_tbp kk l s) ∧
    bwb_ok n (k - 1) kk ∧ b ∈ pending kk (win c) tid.
Proof.
  intros [Hb Hd] Hk Ht Hb0 Hc. unfold tbp_register_persist, on_tbp, register_persist.
  destruct (Z.eqb_spec b 0); [lia|]. destruct (Z.eqb_spec c NULL_EPOCH); [done|].
  destruct (bwb_push_spec malloc_size n k (to_be_persisted s) b c tid) as (l & kk & -> & Hok & Hin & _);
    [done|done|done|lia|].
  by exists l, kk.
Qed.

Lemma tbp_register_persist_raw_ok n k s b c tid :
  es_ready n k s → 0 < k → (tid < n)%nat → 0 < b → c ≠ NULL_EPOCH →
  ∃ l kk, tbp_register_persist_raw b c tid s = (Ret tt, with_tbp kk l s) ∧ bwb_ok n (k - 1) kk.
Proof.
  intros [Hb Hd] Hk Ht Hb0 Hc. unfold tbp_register_persist_raw, on_tbp, register_persist_raw.
  destruct (Z.eqb_spec b 0); [lia|]. destruct (Z.eqb_spec c NULL_EPOCH); [done|].
  destruct (bwb_push_spec malloc_size n k (to_be_persisted s) (mark_raw b) c tid)
    as (l & kk & -> & Hok & _); [done|done|done|by apply mark_raw_nonzero|].
  by exists l, kk.
Qed.

Lemma tbf_register_free_ok n s b c tid :
  tab_dims n (container (to_be_freed s)) → (tid < n)%nat → b ≠ 0 →
  ∃ k, tbf_register_free b c tid s = (Ret tt, with_tbf k s) ∧ tab_dims n (container k) ∧
    b ∈ slot (container k) tid (win c) ∧
    (∀ w t x, x ∈ slot (container (to_be_freed s)) t w → x ∈ slot (container k) t w).
Proof.
  intros Hd Ht Hb. unfold tbf_register_free, tl_register_free.
  destruct (Z.eqb_spec b 0); [done|]. rewrite (vc_push_slot n) by done.
  eexists. split; [done|]. simpl. split; [auto with montage|]. split.
  - rewrite (slot_set_eq n) by auto with montage. auto with montage.
  - intros w t x Hx. destruct (decide ((win c, tid) = (w, t))) as [[= <- <-]|Hne].
    + rewrite (slot_set_eq n) by auto with montage. apply elem_of_app. by left.
    + by rewrite slot_set_ne.
Qed.

Lemma delete_pblk_ok n k s b blk c tid :
  es_ready n k s → 0 < k → (tid < n)%nat → (n ≤ task_num)%nat → 0 < b → c ≠ NULL_EPOCH →
  heap s !! b = Some blk →
  ∃ s', delete_pblk b c tid s = (Ret tt, s') ∧ heap s' = delete b (heap s) ∧ frame s s' ∧
    es_ready n (k - 1) s' ∧ to_be_freed s' = to_be_freed s.
Proof.
  intros [Hb Hd] Hk Ht Hn Hb0 Hc Hblk.
  assert (bwb_ok n (k - 1) (to_be_persisted s)) as Hb' by (eapply fc_ok_mono; [|done]; lia).
  unfold delete_pblk, modify_blk, read_blk, write_blk, mbind_, mmod, mget. rewrite Hblk. simpl.
  rewrite delete_insert_eq. destruct (sys_mode s) eqn:Hmode; [|eexists; split_and!; done].
  destruct (Z.eqb_spec c NULL_EPOCH); [done|]. simpl.
  destruct (Nat.leb_spec task_num tid); [lia|].
  match goal with |- context [tbp_register_persist_raw b c tid ?s1] =>
    destruct (tbp_register_persist_raw_ok n k s1 b c tid) as (l & kk & -> & Hok); [done..|] end.
  eexists. split_and!; done.
Qed.

(** ** The end of an epoch *)

(** The loop of [on_epoch_end] is the tracker's loop, with the write-back of
    the threads it visits. *)
Lemma persist_threads_sim n k v fuel : ∀ curr s ts tr,
  epoch_end_loop fuel v curr (persisted_epochs s) = Ret (ts, tr) →
  Forall (λ t, t < n)%nat ts → es_ready n k s →
  ∃ s', persist_threads (λ _, mret_ tt) fuel v curr s = (Ret tt, s') ∧
    (∃ kk lg, s' = with_pers tr (with_tbp kk lg s)) ∧
    es_ready n k s' ∧ (∀ e, e ∈ plog s → e ∈ plog s') ∧
    (∀ w t y, y ∈ pending (to_be_persisted s) w t →
      (∀ e, e ∈ do_persist malloc_size y → e ∈ plog s') ∨ y ∈ pending (to_be_persisted s') w t) ∧
    (∀ t y e, t ∈ ts → y ∈ pending (to_be_persisted s) (win v) t →
      e ∈ do_persist malloc_size y → e ∈ plog s').
Proof.
  induction fuel as [|fuel IH]; intros curr s ts tr Hloop Hts Hr; [done|]. simpl in Hloop |- *.
  destruct curr as [t|].
  2:{ injection Hloop as <- <-. exists s. split_and!; try done; [|auto|set_solver].
      exists (to_be_persisted s), []. unfold with_pers, with_tbp. simpl. rewrite app_nil_r. by destruct s. }
  destruct (after_persist_epoch v t (persisted_epochs s)) as [t1|] eqn:Hap; [|done].
  destruct (next_thread_to_persist v t t1) as [curr'|] eqn:Hnx; [|done].
  destruct (epoch_end_loop fuel v curr' t1) as [[ts' tr']|] eqn:Hl; [|done].
  injection Hloop as <- <-. apply Forall_cons in Hts as [Ht Hts]. destruct Hr as [Hb Hd].
  destruct (persist_epoch_local_spec malloc_size n k (to_be_persisted s) v t Hb Ht)
    as (l & kk & Hpe & Hb1 & Hkept & Hall).
  set (s1 := with_pers t1 (with_tbp kk l s)).
  destruct (IH curr' s1 ts' tr') as (s' & Hrun & (kk' & lg' & Hp) & Hr' & Hlog & Hkept' & Hall'); [done..|].
  exists s'. unfold tbp_persist_epoch_local, on_tbp, after_persist, next_thread, mbind_, mret_.
  rewrite Hpe. cbn [persisted_epochs with_tbp]. rewrite Hap. cbn [persisted_epochs with_pers]. rewrite Hnx.
  assert (∀ e, e ∈ plog s ∨ e ∈ l → e ∈ plog s') as Hlog'.
  { intros e He. apply Hlog. simpl. by apply elem_of_app. }
  assert (∀ w t y, y ∈ pending (to_be_persisted s) w t →
    (∀ e, e ∈ do_persist malloc_size y → e ∈ plog s') ∨ y ∈ pending (to_be_persisted s') w t) as Hk.
  { intros w t2 y Hy. destruct (Hkept w t2 y Hy) as [He|Hy']; [left; eauto|by apply Hkept']. }
  split_and!; try done; [|auto|].
  { exists kk', (l ++ lg'). rewrite Hp. unfold with_pers, with_tbp. simpl. by rewrite app_assoc. }
  intros t2 y e Ht2 Hy He. apply elem_of_cons in Ht2 as [->|Ht2]; [by eauto|].
  destruct (Hkept _ t2 y Hy) as [He'|Hy']; [by eauto|by eapply Hall'].
Qed.

(** [on_epoch_end(c)] for a quiet tracker: the threads [ts] it visits, what it
    changes, and what it writes back. *)
Lemma on_epoch_end_run (n : nat) (k : Z) (s : esys) (c : Z) (tid : nat) :
  es_ready n k s →
  (∀ t l, leaves (persisted_epochs s) !! t = Some l → (n ≤ t)%nat → val (persisted_epochs s) l = UINT64_MAX) →
  (0 < task_num ≤ length (leaves (persisted_epochs s)))%nat →
  code (leaves (persisted_epochs s)) →
  IncreasingMindicator.heap (leaves (persisted_epochs s)) (val (persisted_epochs s)) →
  0 < c < UINT64_MAX → no_active_scan task_num (c - 1) (trans_tracker s) = true →
  ∃ s' (ts : list nat) tr kk lg, on_epoch_end c tid s = (Ret tt, s') ∧ s' = with_pers tr (with_tbp kk lg s) ∧
    es_ready n k s' ∧ leaves tr = leaves (persisted_epochs s) ∧
    IncreasingMindicator.heap (leaves tr) (val tr) ∧ (∀ l, l ∈ leaves tr → c - 1 ≤ val tr l) ∧
    (∀ t l, leaves tr !! t = Some l → t ∉ ts → val tr l = val (persisted_epochs s) l) ∧
    (∀ t, t ∈ ts → (t < n)%nat) ∧
    (∀ t y e, t ∈ ts → y ∈ pending (to_be_persisted s) (win (c - 1)) t →
      e ∈ do_persist malloc_size y → e ∈ plog s').
Proof.
  intros Hr Hn Htn Hcode Hheap Hc Hquiet. unfold UINT64_MAX in Hc.
  unfold on_epoch_end, mget, next_thread, mbind_. rewrite u64_small by (unfold is_u64; lia).
  rewrite Hquiet. simpl. set (tr := persisted_epochs s) in *.
  assert (tid mod task_num < length (leaves tr))%nat as Ht.
  { pose proof (Nat.mod_upper_bound tid task_num). lia. }
  destruct (next_thread_spec tr (c - 1) _ Hcode Hheap Ht) as (r & Hnt & Hrr). rewrite Hnt.
  destruct (epoch_end_loop_spec (S (length (leaves tr))) (c - 1) r tr)
    as (ts & tr' & Hloop & HL & Hh' & Hall & _ & Hout & Hvis); [done|done|unfold UINT64_MAX; lia| |
    destruct r as [i|]; [done|by destruct Hrr]|].
  { pose proof (length_filter (λ l, val tr l ≤ c - 1) (leaves tr)). unfold lagging. lia. }
  assert (∀ t, t ∈ ts → (t < n)%nat) as Hts.
  { intros t Hin. destruct (Hvis t Hin) as (l & Hl & Hv). destruct (decide (t < n)%nat) as [|Hge]; [done|].
    specialize (Hn t l Hl ltac:(lia)). fold tr in Hn. unfold UINT64_MAX in Hn. lia. }
  destruct (persist_threads_sim n k (c - 1) _ r s ts tr' Hloop) as (s' & Hrun & (kk & lg & Hp) & Hr' & _ & _ & Hwb);
    [by apply Forall_forall|done|].
  exists s', ts, tr', kk, lg. split_and!; try done. intros t l. rewrite HL. apply Hout.
Qed.


Section with_ralloc.
Hypothesis ralloc_fresh : ∀ h, h !! ralloc h = None.
Hypothesis ralloc_pos : ∀ h, 0 < ralloc h.

Ltac estep := unfold modify_blk, read_blk, write_blk, new_pblk, massert, mbind_, mret_, mthrow, mget, mmod.

(** Copy-on-write.  Opening a block for writing in epoch [c]: without an
    operation it is an error; a block of a newer epoch raises OldSeeNew and
    changes nothing; a block already of epoch [c] is returned as it is; a block
    of an older epoch is left untouched and registered for reclamation, and the
    caller gets a fresh copy with the same id and payload, tagged UPDATE in
    epoch [c]. *)
Theorem openwrite_pblk_spec (n : nat) (k : Z) (s : esys) (b c : Z) (tid : nat) (blk : pblk P) :
  es_ready n k s → (tid < n)%nat → 0 < b → heap s !! b = Some blk →
  (c = NULL_EPOCH → ∃ m, openwrite_pblk b c tid s = (Throw (Errexit m), s)) ∧
  (c ≠ NULL_EPOCH → c < epoch blk → openwrite_pblk b c tid s = (Throw OldSeeNewException, s)) ∧
  (c ≠ NULL_EPOCH → epoch blk = c → openwrite_pblk b c tid s = (Ret b, s)) ∧
  (c ≠ NULL_EPOCH → epoch blk < c → ∃ b' s', openwrite_pblk b c tid s = (Ret b', s') ∧
    heap s !! b' = None ∧ frame s s' ∧ es_ready n k s' ∧ will_free s' b c tid ∧
    heap s' = <[b' := Pblk 0 c UPDATE 0 (id blk) (get_data blk) (payload blk)]> (heap s)).
Proof.
  intros [Hbw Hd] Ht Hb Hblk. unfold openwrite_pblk, validate_access. split_and!; intros Hc.
  - rewrite Hc. eexists. reflexivity.
  - intros He. destruct (Z.eqb_spec c NULL_EPOCH); [done|]. estep. rewrite Hblk.
    destruct (Z.ltb_spec c (epoch blk)); [done|lia].
  - intros He. destruct (Z.eqb_spec c NULL_EPOCH); [done|]. estep. rewrite Hblk.
    destruct (Z.ltb_spec c (epoch blk)); [lia|]. rewrite Hblk.
    destruct (Z.ltb_spec (epoch blk) c); [lia|done].
  - intros He. destruct (Z.eqb_spec c NULL_EPOCH); [done|]. estep. rewrite Hblk.
    destruct (Z.ltb_spec c (epoch blk)); [lia|]. rewrite Hblk.
    destruct (Z.ltb_spec (epoch blk) c); [|lia].
    destruct (tbf_register_free_ok n s b c tid) as (kf & -> & Hd' & Hin & _); [done|done|lia|]. simpl.
    pose proof (ralloc_pos (heap s)). destruct (Z.eqb_spec (ralloc (heap s)) 0); [lia|]. simpl.
    rewrite lookup_insert_eq. simpl. rewrite lookup_insert_eq. simpl.
    eexists _, _. split; [done|]. split; [done|]. split; [done|]. split; [done|]. split; [done|].
    simpl. by rewrite !insert_insert_eq.
Qed.

(** Deletion.  [free_pblk] in epoch [c], for each case of the block: not
    yet tagged, or allocated in [c], it is deallocated at once; updated in [c],
    it becomes its own anti-node and waits for reclamation; of an older epoch,
    it is left untouched and waits, and a fresh anti-node with its id, tagged
    DELETE in epoch [c], is registered for write-back and waits one epoch
    longer than the block; already deleted in [c], or of a newer epoch, it is
    an error that changes nothing. *)
Theorem free_pblk_spec (n : nat) (k : Z) (s : esys) (b c : Z) (tid : nat) (blk : pblk P) :
  es_ready n k s → 1 < k → (tid < n)%nat → (n ≤ task_num)%nat → 0 < b → 0 < c < UINT64_MAX →
  heap s !! b = Some blk →
  (epoch blk = NULL_EPOCH ∨ epoch blk = c ∧ blktype blk = ALLOC →
    ∃ s', free_pblk b c tid s = (Ret tt, s') ∧ heap s' = delete b (heap s) ∧ frame s s') ∧
  (epoch blk = c → blktype blk = UPDATE →
    ∃ s', free_pblk b c tid s = (Ret tt, s') ∧ frame s s' ∧ will_free s' b c tid ∧
      heap s' = <[b := set_blktype DELETE blk]> (heap s)) ∧
  (NULL_EPOCH < epoch blk < c →
    ∃ s' del, free_pblk b c tid s = (Ret tt, s') ∧ frame s s' ∧ heap s !! del = None ∧
      heap s' = <[del := Pblk 0 c DELETE 0 (id blk) 0 None]> (heap s) ∧
      will_persist s' del c tid ∧ will_free s' b c tid ∧ will_free s' del (c + 1) tid) ∧
  (epoch blk = c → blktype blk = DELETE → ∃ m, free_pblk b c tid s = (Throw (Errexit m), s)) ∧
  (c < epoch blk → free_pblk b c tid s = (Throw OldSeeNewException, s)).
Proof.
  intros Hr Hk Ht Hn Hb Hc Hblk. pose proof Hr as [Hbw Hd]. unfold UINT64_MAX in Hc.
  unfold NULL_EPOCH in *. unfold free_pblk. estep. rewrite Hblk. unfold NULL_EPOCH. split_and!.
  - intros He.
    destruct (delete_pblk_ok n k s b blk c tid) as (s' & Hdel & Hh & Hf & _);
      [done|lia|done|done|done|unfold NULL_EPOCH; lia|done|].
    exists s'. split; [|done]. destruct (Z.eqb_spec (epoch blk) 0) as [|Hne]; [done|].
    destruct He as [?|[He Hbt]]; [done|]. destruct (Z.ltb_spec c (epoch blk)); [lia|].
    destruct (Z.eqb_spec (epoch blk) c); [|done]. by rewrite Hbt.
  - intros He Hbt. destruct (Z.eqb_spec (epoch blk) 0); [lia|].
    destruct (Z.ltb_spec c (epoch blk)); [lia|]. destruct (Z.eqb_spec (epoch blk) c); [|done].
    rewrite Hbt. rewrite Hblk.
    match goal with |- context [tbf_register_free b c tid ?s1] =>
      destruct (tbf_register_free_ok n s1 b c tid) as (kf & -> & Hd' & Hin & _); [done|done|lia|] end.
    eexists. split_and!; done.
  - intros He. destruct (Z.eqb_spec (epoch blk) 0); [lia|].
    destruct (Z.ltb_spec c (epoch blk)); [lia|]. destruct (Z.eqb_spec (epoch blk) c); [lia|]. simpl.
    rewrite lookup_insert_eq. simpl. rewrite lookup_insert_eq. simpl.
    pose proof (ralloc_pos (heap s)) as Hpos.
    match goal with |- context [tbp_register_persist ?d c tid ?s1] =>
      destruct (tbp_register_persist_ok n k s1 d c tid) as (l & kk & -> & Hok & Hin);
        [done|lia|done|done|unfold NULL_EPOCH; lia|] end.
    match goal with |- context [tbf_register_free ?d (c +₆ 1) tid ?s1] =>
      destruct (tbf_register_free_ok n s1 d (c +₆ 1) tid) as (k1 & -> & Hd1 & Hin1 & _);
        [done|done|lia|] end.
    match goal with |- context [tbf_register_free b c tid ?s1] =>
      destruct (tbf_register_free_ok n s1 b c tid) as (k2 & -> & Hd2 & Hin2 & Hkeep);
        [done|done|lia|] end.
    rewrite u64_small in Hin1 by (unfold is_u64; lia).
    eexists _, (ralloc (heap s)). split; [done|]. split_and!; try done.
    + simpl. by rewrite !insert_insert_eq.
    + unfold will_free. simpl. by apply Hkeep.
  - intros He Hbt. destruct (Z.eqb_spec (epoch blk) 0); [lia|].
    destruct (Z.ltb_spec c (epoch blk)); [lia|]. destruct (Z.eqb_spec (epoch blk) c); [|done].
    rewrite Hbt. eauto.
  - intros He. destruct (Z.eqb_spec (epoch blk) 0); [lia|].
    by destruct (Z.ltb_spec c (epoch blk)); [|lia].
Qed.

(** ** Versions of past epochs

    What recovery reads of a block, and the part of the heap that the epoch [c]
    has not tagged. *)
Definition durable (x : pblk P) := (epoch x, blktype x, id x, payload x).

Definition old_part (c : Z) (h : gmap Z (pblk P)) : gmap Z (Z * PBlkType * Z * option P) :=
  omap (λ x, if decide (epoch x = c ∨ epoch x = NULL_EPOCH) then None else Some (durable x)) h.

Lemma old_part_insert c h b x :
  (∀ y, h !! b = Some y → epoch y = c ∨ epoch y = NULL_EPOCH) → epoch x = c ∨ epoch x = NULL_EPOCH →
  old_part c (<[b := x]> h) = old_part c h.
Proof.
  intros Hold Hx. apply map_eq. intros a. unfold old_part. rewrite !lookup_omap.
  destruct (decide (b = a)) as [->|Hne]; [|by rewrite lookup_insert_ne].
  rewrite lookup_insert_eq. simpl. rewrite decide_True by done.
  destruct (h !! a) as [y|]; [|done]. simpl. rewrite decide_True; [done|]. by apply Hold.
Qed.

Lemma old_part_insert_same c h b x y :
  h !! b = Some y → durable x = durable y → old_part c (<[b := x]> h) = old_part c h.
Proof.
  intros Hy Hd. apply map_eq. intros a. unfold old_part. rewrite !lookup_omap.
  destruct (decide (b = a)) as [->|Hne]; [|by rewrite lookup_insert_ne].
  rewrite lookup_insert_eq, Hy. simpl. unfold durable in Hd. injection Hd as He Ht Hi Hp.
  unfold durable. by rewrite He, Ht, Hi, Hp.
Qed.

Lemma old_part_delete c h b y :
  h !! b = Some y → epoch y = c ∨ epoch y = NULL_EPOCH → old_part c (delete b h) = old_part c h.
Proof.
  intros Hy He. apply map_eq. intros a. unfold old_part. rewrite !lookup_omap.
  destruct (decide (b = a)) as [->|Hne]; [|by rewrite lookup_delete_ne].
  rewrite lookup_delete_eq, Hy. simpl. by rewrite decide_True.
Qed.

Lemma on_tbp_heap f s o s' : on_tbp f s = (o, s') → heap s' = heap s.
Proof. unfold on_tbp. destruct (f _) as [[l k]|e]; by intros [= <- <-]. Qed.
Lemma tbf_heap b c tid s o s' : tbf_register_free b c tid s = (o, s') → heap s' = heap s.
Proof. unfold tbf_register_free. destruct (tl_register_free _ _ _ _ _); by intros [= <- <-]. Qed.

Lemma delete_pblk_heap b c tid s x :
  heap s !! b = Some x → heap (delete_pblk b c tid s).2 = delete b (heap s).
Proof.
  intros Hx. unfold delete_pblk. estep. rewrite Hx. simpl. rewrite delete_insert_eq.
  destruct (sys_mode s); [|done]. destruct (negb _); [|done]. destruct (_ <=? _)%nat; [done|].
  match goal with |- context [tbp_register_persist_raw ?b ?c ?t ?s1] =>
    destruct (tbp_register_persist_raw b c t s1) as [o s2] eqn:E end.
  apply on_tbp_heap in E. simpl. by rewrite E.
Qed.

(** The setter generated for a field of a block ([GENERATE_FIELD], [set_n]):
    [f] changes that field of the payload. *)
Definition set_field (b c : Z) (f : option P → option P) (tid : nat) : E Z :=
  do* massert (negb (c =? NULL_EPOCH)) "ds->get_local_epoch() != NULL_EPOCH" in
  let* ret := openwrite_pblk b c tid in
  do* modify_blk ret (λ x, Pblk (retire x) (epoch x) (blktype x) (tid_sn x) (id x) (get_data x) (f (payload x))) in
  do* register_update_pblk ret c tid in
  mret_ ret.

(** The operations of a transaction of epoch [c] on existing blocks. *)
Inductive wop : Type :=
  | OpenRead (b : Z)
  | OpenWrite (b : Z)
  | SetField (b : Z) (f : option P → option P)
  | RegisterUpdate (b : Z)
  | FreePBlk (b : Z)
  | RetirePBlk (b : Z).

Definition run_wop (o : wop) (c : Z) (tid : nat) : E unit :=
  match o with
  | OpenRead b => let* _b := openread_pblk b c in mret_ tt
  | OpenWrite b => let* _b := openwrite_pblk b c tid in mret_ tt
  | SetField b f => let* _b := set_field b c f tid in mret_ tt
  | RegisterUpdate b => register_update_pblk b c tid
  | FreePBlk b => free_pblk b c tid
  | RetirePBlk b => retire_pblk b c tid
  end.

(** [keeps c m]: whatever its outcome, [m] preserves the versions of the epochs
    other than [c]; [keeps_then] adds what is known of the result. *)
Definition keeps (c : Z) (s s' : esys) : Prop := old_part c (heap s') = old_part c (heap s).

Lemma openwrite_keeps c b tid s :
  keeps c s (openwrite_pblk b c tid s).2 ∧
  ∀ b', (openwrite_pblk b c tid s).1 = Ret b' →
    ∃ x, heap (openwrite_pblk b c tid s).2 !! b' = Some x ∧ epoch x = c.
Proof.
  unfold openwrite_pblk, validate_access, keeps. estep.
  destruct (Z.eqb_spec c NULL_EPOCH); [done|]. destruct (heap s !! b) as [blk|] eqn:Hb; [|done].
  destruct (Z.ltb_spec c (epoch blk)); [done|]. rewrite Hb.
  destruct (Z.ltb_spec (epoch blk) c); [|split; [done|]; intros b' [= <-]; exists blk; split; [done|lia]].
  destruct (tbf_register_free b c tid s) as [[[]|e] s1] eqn:E; apply tbf_heap in E; simpl; [|by rewrite E].
  destruct (negb _); simpl.
  - rewrite !lookup_insert_eq. simpl. rewrite !lookup_insert_eq. simpl. split.
    + rewrite !insert_insert_eq, E. apply old_part_insert; [|by left]. by rewrite ralloc_fresh.
    + intros b' [= <-]. rewrite lookup_insert_eq. by eexists.
  - split; [|done]. rewrite E. apply old_part_insert; [by rewrite ralloc_fresh|by right].
Qed.

Lemma set_field_keeps c b f tid s : keeps c s (set_field b c f tid s).2.
Proof.
  unfold set_field. pose proof (openwrite_keeps c b tid s) as [Hk Hret]. unfold keeps in *.
  destruct (openwrite_pblk b c tid s) as [[b'|e] s1] eqn:E; estep; rewrite ?E; simpl in *;
    destruct (negb _); simpl; rewrite ?E; try done.
  destruct (Hret b' eq_refl) as (x & Hx & He). rewrite Hx. simpl.
  match goal with |- context [register_update_pblk ?b ?c ?t ?s1] =>
    assert (heap (register_update_pblk b c t s1).2 = heap s1) as Hh end.
  { unfold register_update_pblk. destruct (c =? NULL_EPOCH); [done|].
    destruct (tbp_register_persist _ _ _ _) as [o s2] eqn:E2. by apply on_tbp_heap in E2. }
  destruct (register_update_pblk _ _ _ _) as [[[]|e] s2]; simpl in *; rewrite Hh; rewrite <- Hk;
    (apply old_part_insert; [rewrite Hx; intros y [= <-]; by left|by left]).
Qed.

Lemma tbf_keeps c b e tid s : keeps c s (tbf_register_free b e tid s).2.
Proof.
  unfold keeps. destruct (tbf_register_free b e tid s) as [o s'] eqn:E. apply tbf_heap in E. simpl. by rewrite E.
Qed.
Lemma tbp_keeps c b e tid s : keeps c s (tbp_register_persist b e tid s).2.
Proof.
  unfold keeps. destruct (tbp_register_persist b e tid s) as [o s'] eqn:E. apply on_tbp_heap in E. simpl. by rewrite E.
Qed.
Lemma keeps_trans c s1 s2 s3 : keeps c s1 s2 → keeps c s2 s3 → keeps c s1 s3.
Proof. unfold keeps. congruence. Qed.
Lemma keeps_bind {A B} c (m : E A) (k : A → E B) s :
  keeps c s (m s).2 → (∀ a, keeps c (m s).2 (k a (m s).2).2) → keeps c s (mbind_ m k s).2.
Proof.
  intros Hm Hk. unfold mbind_. destruct (m s) as [[a|e] s1]; [|done].
  eapply keeps_trans; [done|]. apply Hk.
Qed.

Lemma free_keeps c b tid s : keeps c s (free_pblk b c tid s).2.
Proof.
  unfold free_pblk. unfold mbind_ at 1, read_blk. destruct (heap s !! b) as [blk|] eqn:Hb; [|done].
  assert (epoch blk = c ∨ epoch blk = NULL_EPOCH → keeps c s (delete_pblk b c tid s).2) as Hdel.
  { intros He. unfold keeps. rewrite (delete_pblk_heap _ _ _ _ blk) by done.
    by apply (old_part_delete _ _ _ blk). }
  destruct (Z.eqb_spec (epoch blk) NULL_EPOCH); [by apply Hdel; right|].
  destruct (Z.ltb_spec c (epoch blk)); [done|]. destruct (Z.eqb_spec (epoch blk) c) as [He|].
  - destruct (blktype blk); try apply tbf_keeps; [by apply Hdel; left| |done].
    apply keeps_bind; [|intros; apply tbf_keeps]. unfold keeps. estep. rewrite Hb. simpl.
    apply old_part_insert; [rewrite Hb; intros y [= <-]; by left|by left].
  - estep. simpl. rewrite !lookup_insert_eq. simpl. rewrite !lookup_insert_eq. simpl.
    rewrite !insert_insert_eq.
    apply (keeps_trans c _ (with_heap (<[ralloc (heap s) := set_epoch c (set_blktype DELETE (copy_PBlk blk))]>
      (heap s)) s)).
    { unfold keeps. apply old_part_insert; [by rewrite ralloc_fresh|by left]. }
    refine (keeps_bind c (tbp_register_persist _ _ _) (λ _, mbind_ (tbf_register_free _ _ _) (λ _, tbf_register_free _ _ _)) _ _ _);
      [apply tbp_keeps|]. intros []. apply keeps_bind; [apply tbf_keeps|]. intros. apply tbf_keeps.
Qed.

Lemma retire_keeps c b tid s : keeps c s (retire_pblk b c tid s).2.
Proof.
  unfold retire_pblk. unfold mbind_ at 1, read_blk. destruct (heap s !! b) as [blk|] eqn:Hb; [|done].
  destruct (negb _); [done|]. destruct (Z.ltb_spec c (epoch blk)); [done|].
  apply keeps_bind; [|intros; apply tbp_keeps].
  destruct (Z.eqb_spec (epoch blk) c) as [He|Hne].
  - assert (keeps c s (modify_blk b (set_blktype DELETE) s).2) as Hm.
    { unfold keeps. estep. rewrite Hb. apply old_part_insert; [rewrite Hb; intros y [= <-]|]; by left. }
    destruct (blktype blk); done.
  - pose proof (ralloc_fresh (heap s)) as Hf.
    assert (b ≠ ralloc (heap s)) as Hbne by (intros ->; congruence).
    estep. simpl. rewrite lookup_insert_ne, Hb by done. simpl.
    rewrite (lookup_insert_ne _ b), lookup_insert_eq by done. simpl. rewrite lookup_insert_eq. simpl.
    eapply keeps_trans; [|apply tbp_keeps]. unfold keeps. simpl. rewrite insert_insert_eq.
    rewrite old_part_insert, (old_part_insert_same _ _ _ _ blk), old_part_insert; try done.
    + by rewrite Hf.
    + by right.
    + by rewrite lookup_insert_ne.
    + rewrite lookup_insert_ne, lookup_insert_eq by done. intros y [= <-]. by right.
    + by left.
Qed.
End with_ralloc.
End esys.


(** ** Concrete instances *)
Module Example.
Import FixedBuffers.FixedCircBuffer FixedCircBufferContainer PerEpochTransactionTracker.

(** An allocator: the address after the highest one in use. *)
Definition bump (h : gmap Z (pblk Z)) : Z := foldr Z.max 0 (map_to_list h).*1 + 64.

Lemma bump_pos h : 0 < bump h.
Proof.
  unfold bump. assert (∀ l, 0 ≤ foldr Z.max 0 l) as H; [|specialize (H (map_to_list h).*1); lia].
  induction l; simpl; lia.
Qed.
Lemma bump_fresh h : h !! bump h = None.
Proof.
  destruct (h !! bump h) as [x|] eqn:Hx; [exfalso|done].
  apply elem_of_map_to_list in Hx.
  assert (∀ l k, k ∈ l → k ≤ foldr Z.max 0 l) as H.
  { induction l as [|y l IH]; intros k; [set_solver|]. simpl. intros [->|Hk]%elem_of_cons; [lia|].
    specialize (IH k Hk). lia. }
  specialize (H (map_to_list h).*1 (bump h)). unfold bump in *.
  assert (foldr Z.max 0 (map_to_list h).*1 + 64 ∈ (map_to_list h).*1); [|specialize (H ltac:(done)); lia].
  apply list_elem_of_fmap. by eexists (_, _).
Qed.

Notation sys := (esys Z (table (fcb Z)) (list Z)).

(** Two threads, buffers of 64 entries, three blocks: 64 of epoch 3 with its
    anti-node 128 of epoch 10, and 192 of epoch 9. *)
Definition heap0 : gmap Z (pblk Z) :=
  <[64 := Pblk 128 3 ALLOC 0 7 0 (Some 70)]> (<[128 := Pblk 0 10 DELETE 0 7 0 None]>
    {[192 := Pblk 0 9 ALLOC 0 8 0 (Some 80)]}).

Definition es0 : sys :=
  Esys (Dmem ∅ {[1000 := ScDesc 0 0 3 0 (LV 0 0)]} 10) [1000; 1064] heap0 (UIDGen.init 2) [10; 0]
    (Bwb 2 (desc_new 2) (fcc_new 2 64)) (tl_new 2)
    (Im [[false]; [true]] (λ _, NULL_EPOCH)) [10; 0] 0 ONLINE [].

Lemma es0_ready : es_ready 2 100 es0.
Proof.
  split; [|apply tab_dims_new]. unfold bwb_ok. simpl. apply fcc_new_ok; unfold U64; lia.
Qed.

(** Two threads in epoch 4; thread 1 has registered block 192 for epoch 3. *)
Definition es1 : sys :=
  with_tbp (match register_persist (λ _, 256) 192 3 1 (to_be_persisted es0) with
            | Ret (_, k) => k | Throw _ => to_be_persisted es0 end) []
    (with_tracker [4; 0] es0).


Lemma openwrite_pblk_spec_witness :
  ∃ b' s', openwrite_pblk bump 192 10 0 es0 = (Ret b', s') ∧
    heap es0 !! b' = None ∧ frame es0 s' ∧ es_ready 2 100 s' ∧ will_free s' 192 10 0 ∧
    heap s' = <[b' := Pblk 0 10 UPDATE 0 8 0 (Some 80)]> (heap es0).
Proof.
  pose proof (openwrite_pblk_spec bump bump_fresh bump_pos 2 100 es0 192 10 0
    (Pblk 0 9 ALLOC 0 8 0 (Some 80)) es0_ready) as H.
  apply H; [lia|lia|reflexivity|discriminate|reflexivity].
Defined.

Lemma free_pblk_spec_witness :
  ∃ s' del, free_pblk bump (λ _, 256) 2 192 10 0 es0 = (Ret tt, s') ∧ frame es0 s' ∧
    heap es0 !! del = None ∧ heap s' = <[del := Pblk 0 10 DELETE 0 8 0 None]> (heap es0) ∧
    will_persist s' del 10 0 ∧ will_free s' 192 10 0 ∧ will_free s' del (10 + 1) 0.
Proof.
  pose proof (free_pblk_spec bump (λ _, 256) 2 bump_fresh bump_pos 2 100 es0 192 10 0
    (Pblk 0 9 ALLOC 0 8 0 (Some 80)) es0_ready) as H.
  apply H; [lia|lia|lia|lia|unfold UINT64_MAX, U64; lia|reflexivity|unfold NULL_EPOCH; simpl; lia].
Defined.


(** [reclaim_pblk] can destroy a version that recovery still needs.  It
    decides that a retired block "was retired at least two epochs ago" from the
    epoch of the block, not from the epoch of its anti-node.  Block 64, created
    in epoch 3 and retired in epoch 10, is deallocated at once when it is
    reclaimed in epoch 10, although a crash in epoch 10 recovers epoch 8, where
    the block is still live: its version disappears from the heap. *)
Theorem reclaim_destroys_durable_version :
  ∃ s', reclaim_pblk bump (λ _, 256) 2 64 10 0 es0 = (Ret tt, s') ∧
    old_part 10 (heap es0) !! 64 = Some (3, ALLOC, 7, Some 70) ∧
    old_part 10 (heap s') !! 64 = None ∧ heap s' !! 64 = None.
Proof.
  assert (fst (reclaim_pblk bump (λ _, 256) 2 64 10 0 es0) = Ret tt) as H1 by (vm_compute; reflexivity).
  assert (heap (snd (reclaim_pblk bump (λ _, 256) 2 64 10 0 es0)) !! 64 = None) as H2
    by (vm_compute; reflexivity).
  destruct (reclaim_pblk bump (λ _, 256) 2 64 10 0 es0) as [o s']. simpl in *. subst o.
  exists s'. split_and!; [done|reflexivity| |done].
  unfold old_part. by rewrite lookup_omap, H2.
Qed.
End Example.
