(* ===== verification/Recovery.v ===== *)
(** * Recovery (EpochSys::recover and nbEpochSys::recover, src/persist/EpochSys.cpp)

    After a crash, [rec_thd] threads scan the blocks of the heap twice.  The
    first pass finds the epoch container, the largest epoch and the anti-nodes;
    the second pass keeps, for every id, the newest version that is old enough
    (two epochs) and not deleted.  The threads work on their own data between
    barriers and merge it in the order of their numbers ([curr_reporting]), so
    each phase is a function of the lists of blocks of the threads.

    The iterators of Ralloc ([_ral->recover(rec_thd)], called once per pass) are
    parameters: a list of blocks per thread for each pass.  An [unordered_map]
    is a [gmap]; [errexit] in a thread ends the recovery. *)

From S2P Require Import Prelude Dcss.

(** A block as recovery reads it.  [r_global] is the [global_epoch] of the epoch
    container; for a descriptor, [r_committed] is [committed()]. *)
Record rblk : Type := Rblk {
  r_addr : Z;
  r_epoch : Z;
  r_type : PBlkType;
  r_id : Z;
  r_tid_sn : Z;
  r_global : Z;
  r_committed : bool;
}.

#[export] Instance rblk_eq_dec : EqDecision rblk.
Proof. solve_decision. Defined.

(** ** First pass *)

Record pass1_t : Type := Pass1 {
  max_epoch_local : Z;
  anti_nodes_local : list rblk;
  deleted_ids_local : gset Z;
  epoch_container : bool;
}.

Definition pass1_step (clean_start : bool) (b : rblk) (a : pass1_t) : outcome pass1_t :=
  match r_type b with
  | EPOCH =>
      Ret (Pass1 (Z.max (Z.max (r_global b) (max_epoch_local a)) (r_epoch b))
                 (anti_nodes_local a) (deleted_ids_local a) true)
  | DELETE =>
      if clean_start then Throw (Errexit "delete node appears after a clean exit.")
      else
        Ret (Pass1 (Z.max (max_epoch_local a) (r_epoch b)) (anti_nodes_local a ++ [b])
                   (if r_epoch b =? NULL_EPOCH then deleted_ids_local a
                    else {[r_id b]} ∪ deleted_ids_local a)
                   (epoch_container a))
  | _ => Ret (Pass1 (Z.max (max_epoch_local a) (r_epoch b)) (anti_nodes_local a)
                    (deleted_ids_local a) (epoch_container a))
  end.

Fixpoint pass1_loop (clean_start : bool) (l : list rblk) (a : pass1_t) : outcome pass1_t :=
  match l with
  | [] => Ret a
  | b :: l' => match pass1_step clean_start b a with
               | Ret a' => pass1_loop clean_start l' a'
               | Throw e => Throw e
               end
  end.

Definition pass1 (clean_start : bool) (l : list rblk) : outcome pass1_t :=
  pass1_loop clean_start l (Pass1 0 [] ∅ false).

Fixpoint omapM {A B} (f : A → outcome B) (l : list A) : outcome (list B) :=
  match l with
  | [] => Ret []
  | x :: l' => match f x, omapM f l' with
               | Ret y, Ret l'' => Ret (y :: l'')
               | Throw e, _ => Throw e
               | _, Throw e => Throw e
               end
  end.

(** ** Merges after the first pass *)

(** [max_epoch = std::max(max_epoch, max_epoch_local)], thread by thread *)
Definition merge_max (ps : list pass1_t) : Z := foldl (λ m p, Z.max m (max_epoch_local p)) 0 ps.

(** remove premature deleted_ids: those of the anti-nodes of the last two epochs *)
Definition mature_deleted (max_epoch : Z) (p : pass1_t) : gset Z :=
  foldr (λ b d, if bool_decide (r_epoch b = max_epoch ∨ r_epoch b = max_epoch -₆ 1)
                then d ∖ {[r_id b]} else d)
        (deleted_ids_local p) (anti_nodes_local p).

Definition merge_deleted (max_epoch : Z) (ps : list pass1_t) : gset Z :=
  foldl (λ d p, d ∪ mature_deleted max_epoch p) ∅ ps.

(** ** Second pass *)

Record pass2_t : Type := Pass2 {
  in_use_local : gmap Z rblk;
  not_in_use_local : list rblk;
}.

(** The switch on the type of a block that passed the first test.  [free_desc]:
    the blocking system frees descriptors, the nonblocking one keeps them. *)
Definition classify (clean_start free_desc : bool) (b : rblk) (a : pass2_t) : outcome pass2_t :=
  match r_type b with
  | OWNED => Throw (Errexit "OWNED isn't a valid blktype in this version.")
  | ALLOC =>
      match in_use_local a !! r_id b with
      | None => Ret (Pass2 (<[r_id b := b]> (in_use_local a)) (not_in_use_local a))
      | Some _ =>
          if clean_start then Throw (Errexit "more than one record with the same id after a clean exit.")
          else Ret (Pass2 (in_use_local a) (not_in_use_local a ++ [b]))
      end
  | UPDATE =>
      match in_use_local a !! r_id b with
      | Some found =>
          if clean_start then Throw (Errexit "more than one record with the same id after a clean exit.")
          else if r_epoch found <? r_epoch b
               then Ret (Pass2 (<[r_id b := b]> (in_use_local a)) (not_in_use_local a ++ [found]))
               else Ret (Pass2 (in_use_local a) (not_in_use_local a ++ [b]))
      | None => Ret (Pass2 (<[r_id b := b]> (in_use_local a)) (not_in_use_local a))
      end
  | DELETE | EPOCH => Ret a
  | DESC => if free_desc then Ret (Pass2 (in_use_local a) (not_in_use_local a ++ [b])) else Ret a
  | _ => Throw (Errexit "wrong type of pblk discovered")
  end.

Definition is_payload_type (t : PBlkType) : bool :=
  negb (bool_decide (t = EPOCH ∨ t = DESC ∨ t = DELETE)).

Definition pass2_step (premature : rblk → outcome bool) (clean_start free_desc : bool)
    (b : rblk) (a : pass2_t) : outcome pass2_t :=
  if is_payload_type (r_type b) then
    match premature b with
    | Ret true => Ret (Pass2 (in_use_local a) (not_in_use_local a ++ [b]))
    | Ret false => classify clean_start free_desc b a
    | Throw e => Throw e
    end
  else classify clean_start free_desc b a.

Fixpoint pass2_loop (premature : rblk → outcome bool) (clean_start free_desc : bool)
    (l : list rblk) (a : pass2_t) : outcome pass2_t :=
  match l with
  | [] => Ret a
  | b :: l' => match pass2_step premature clean_start free_desc b a with
               | Ret a' => pass2_loop premature clean_start free_desc l' a'
               | Throw e => Throw e
               end
  end.

Definition pass2 (premature : rblk → outcome bool) (clean_start free_desc : bool) (l : list rblk) :=
  pass2_loop premature clean_start free_desc l (Pass2 ∅ []).

(** ** Merge of the second pass *)

(** [for (auto itr : in_use_local)]: the newer of two versions stays. *)
Definition merge_one (i : Z) (b : rblk) (a : pass2_t) : pass2_t :=
  match in_use_local a !! i with
  | None => Pass2 (<[i := b]> (in_use_local a)) (not_in_use_local a)
  | Some found =>
      if r_epoch found <? r_epoch b
      then Pass2 (<[i := b]> (in_use_local a)) (not_in_use_local a ++ [found])
      else Pass2 (in_use_local a) (not_in_use_local a ++ [b])
  end.

(** [acc]: [in_use] and all that the threads so far will deallocate. *)
Definition merge_thread (acc p : pass2_t) : pass2_t :=
  map_fold merge_one (Pass2 (in_use_local acc) (not_in_use_local acc ++ not_in_use_local p)) (in_use_local p).

Definition merge_in_use (ps : list pass2_t) : pass2_t := foldl merge_thread (Pass2 ∅ []) ps.

(** ** EpochSys::recover *)

Record recovered_t : Type := Recovered {
  in_use : gmap Z rblk;
  freed : list rblk;
  new_global_epoch : Z;
}.

Definition premature (epoch_cap : Z) (deleted : gset Z) (b : rblk) : outcome bool :=
  Ret ((r_epoch b =? NULL_EPOCH) || (epoch_cap <? r_epoch b) || bool_decide (r_id b ∈ deleted)).

Definition recover (clean_start : bool) (parts1 parts2 : list (list rblk)) : outcome recovered_t :=
  match omapM (pass1 clean_start) parts1 with
  | Throw e => Throw e
  | Ret ps =>
      if negb (existsb epoch_container ps)
      then Throw (Errexit "epoch container not found during recovery")
      else
        let max_epoch := merge_max ps in
        let deleted_ids := merge_deleted max_epoch ps in
        let epoch_cap := max_epoch -₆ 2 in
        match omapM (pass2 (premature epoch_cap deleted_ids) clean_start true) parts2 with
        | Throw e => Throw e
        | Ret qs =>
            let m := merge_in_use qs in
            Ret (Recovered (in_use_local m)
                   (not_in_use_local m ++ concat (anti_nodes_local <$> ps)) max_epoch)
        end
  end.

(** ** What recovery should keep *)

(** The newest epoch of an image, and the epoch it is recovered to. *)
Definition block_epoch (b : rblk) : Z :=
  match r_type b with EPOCH => Z.max (r_global b) (r_epoch b) | _ => r_epoch b end.
Definition max_of (B : list rblk) : Z := foldr (λ b m, Z.max (block_epoch b) m) 0 B.

(** The id [i] was deleted in an epoch no later than [cap]. *)
Definition deleted (cap : Z) (B : list rblk) (i : Z) : Prop :=
  ∃ b, b ∈ B ∧ r_type b = DELETE ∧ r_id b = i ∧ r_epoch b ≠ NULL_EPOCH ∧ r_epoch b ≤ cap.

(** A version of a live block. *)
Definition version (cap : Z) (B : list rblk) (b : rblk) : Prop :=
  (r_type b = ALLOC ∨ r_type b = UPDATE) ∧ r_epoch b ≠ NULL_EPOCH ∧ r_epoch b ≤ cap ∧
  ¬ deleted cap B (r_id b).

(** [b] is the newest of the versions of [i] among [S]. *)
Definition newest (cand : rblk → Prop) (S : list rblk) (i : Z) (b : rblk) : Prop :=
  b ∈ S ∧ cand b ∧ r_id b = i ∧ ∀ b', b' ∈ S → cand b' → r_id b' = i → r_epoch b' ≤ r_epoch b.

(** The images the epoch system leaves behind: there is an epoch container; a
    block without a final type is not old enough to be recovered; two versions
    of an id have different epochs and its allocation is the oldest one; the
    anti-nodes of an id agree on whether the deletion is old enough. *)
Record image_ok (B : list rblk) : Prop := {
  im_container : ∃ b, b ∈ B ∧ r_type b = EPOCH;
  im_range : 2 ≤ max_of B < U64 ∧ ∀ b, b ∈ B → 0 ≤ r_epoch b;
  im_types : ∀ b, b ∈ B → r_type b = INIT ∨ r_type b = OWNED ∨ r_type b = RECLAIMED →
    r_epoch b = NULL_EPOCH ∨ max_of B - 2 < r_epoch b;
  im_versions : ∀ b b', b ∈ B → b' ∈ B → version (max_of B - 2) B b → version (max_of B - 2) B b' →
    r_id b = r_id b' → (r_epoch b = r_epoch b' → b = b') ∧ (r_type b = ALLOC → r_epoch b ≤ r_epoch b');
  im_antis : ∀ b b', b ∈ B → b' ∈ B → r_type b = DELETE → r_type b' = DELETE → r_id b = r_id b' →
    r_epoch b ≠ NULL_EPOCH → r_epoch b' ≠ NULL_EPOCH →
    r_epoch b ≤ max_of B - 2 → r_epoch b' ≤ max_of B - 2;
}.

(** ** The newest versions, computed incrementally *)
Section newest.
Context (cand : rblk → Prop).

Record is_newest (m : gmap Z rblk) (S : list rblk) : Prop := {
  nw_sound : ∀ i b, m !! i = Some b → b ∈ S ∧ cand b ∧ r_id b = i;
  nw_max : ∀ b, b ∈ S → cand b → ∃ b0, m !! r_id b = Some b0 ∧ r_epoch b ≤ r_epoch b0;
}.

Lemma is_newest_newest m S i b : is_newest m S → m !! i = Some b → newest cand S i b.
Proof.
  intros [Hs Hm] Hb. destruct (Hs i b Hb) as (Hin & Hc & Hid). split_and!; [done..|].
  intros b' Hb' Hc' Hid'. destruct (Hm b' Hb' Hc') as (b0 & Hb0 & Hle).
  rewrite Hid', Hb in Hb0. by injection Hb0 as <-.
Qed.

Lemma newest_is_newest m S i b :
  (∀ b1 b2, b1 ∈ S → b2 ∈ S → cand b1 → cand b2 → r_id b1 = r_id b2 → r_epoch b1 = r_epoch b2 → b1 = b2) →
  is_newest m S → newest cand S i b → m !! i = Some b.
Proof.
  intros Hu Hm (Hin & Hc & Hid & Hmax). destruct (nw_max _ _ Hm b Hin Hc) as (b0 & Hb0 & Hle).
  destruct (nw_sound _ _ Hm _ _ Hb0) as (Hin0 & Hc0 & Hid0).
  rewrite Hid in Hb0, Hid0. specialize (Hmax b0 Hin0 Hc0 Hid0).
  rewrite (Hu b b0); [done..|congruence|lia].
Qed.

Lemma is_newest_nil : is_newest ∅ [].
Proof. constructor; [by intros i b; rewrite lookup_empty|set_solver]. Qed.

Lemma is_newest_skip m S b : ¬ cand b → is_newest m S → is_newest m (S ++ [b]).
Proof.
  intros Hno [Hs Hm]. constructor.
  - intros i b' Hb'. destruct (Hs i b' Hb') as (? & ? & ?). split_and!; [|done..].
    apply elem_of_app. by left.
  - intros b' [Hb'|Hb'%list_elem_of_singleton]%elem_of_app; [by apply Hm|by subst].
Qed.

Lemma is_newest_insert m S b :
  cand b → is_newest m S → (∀ f, m !! r_id b = Some f → r_epoch f ≤ r_epoch b) →
  is_newest (<[r_id b := b]> m) (S ++ [b]).
Proof.
  intros Hc [Hs Hm] Hle. constructor.
  - intros i b' Hb'. apply lookup_insert_Some in Hb' as [[<- <-]|[Hne Hb']];
      [split_and!; auto with montage|].
    destruct (Hs i b' Hb') as (? & ? & ?). split_and!; [apply elem_of_app; by left|done..].
  - intros b' [Hb'|Hb'%list_elem_of_singleton]%elem_of_app Hc';
      [|subst; exists b; by rewrite lookup_insert_eq].
    destruct (Hm b' Hb' Hc') as (b0 & Hb0 & Hle0). destruct (decide (r_id b = r_id b')) as [Heq|Hne].
    + rewrite <- Heq in Hb0. specialize (Hle b0 Hb0). exists b. rewrite Heq, lookup_insert_eq.
      split; [done|lia].
    + exists b0. by rewrite lookup_insert_ne.
Qed.

Lemma is_newest_keep m S b f :
  is_newest m S → m !! r_id b = Some f → r_epoch b ≤ r_epoch f → is_newest m (S ++ [b]).
Proof.
  intros [Hs Hm] Hf Hle. constructor.
  - intros i b' Hb'. destruct (Hs i b' Hb') as (? & ? & ?). split_and!; [|done..].
    apply elem_of_app. by left.
  - intros b' [Hb'|Hb'%list_elem_of_singleton]%elem_of_app Hc'; [by apply Hm|subst; eauto].
Qed.

(** The merge of two maps keeps the newer of two versions. *)
Lemma merge_thread_lookup acc p i :
  in_use_local (merge_thread acc p) !! i =
  match in_use_local acc !! i, in_use_local p !! i with
  | Some f, Some b => Some (if r_epoch f <? r_epoch b then b else f)
  | Some f, None => Some f
  | None, o => o
  end.
Proof.
  unfold merge_thread. set (a0 := Pass2 (in_use_local acc) _).
  apply (map_fold_weak_ind (λ r m, in_use_local r !! i =
    match in_use_local acc !! i, m !! i with
    | Some f, Some b => Some (if r_epoch f <? r_epoch b then b else f)
    | Some f, None => Some f
    | None, o => o
    end)).
  - simpl. rewrite lookup_empty. by destruct (in_use_local acc !! i).
  - intros j x m r Hj IH. unfold merge_one. destruct (decide (i = j)) as [->|Hne].
    + rewrite lookup_insert_eq. rewrite Hj in IH.
      assert (in_use_local r !! j = in_use_local acc !! j) as -> by (by destruct (in_use_local acc !! j)).
      destruct (in_use_local acc !! j) as [f|]; [|simpl; by rewrite lookup_insert_eq].
      destruct (_ <? _); simpl; [by rewrite lookup_insert_eq|done].
    + rewrite (lookup_insert_ne m) by done.
      destruct (in_use_local r !! j) as [f|]; [destruct (_ <? _)|]; simpl;
        rewrite ?lookup_insert_ne by done; done.
Qed.

Lemma is_newest_merge acc p S1 S2 :
  is_newest (in_use_local acc) S1 → is_newest (in_use_local p) S2 →
  is_newest (in_use_local (merge_thread acc p)) (S1 ++ S2).
Proof.
  intros [Hs1 Hm1] [Hs2 Hm2]. constructor.
  - intros i b. rewrite merge_thread_lookup, elem_of_app.
    destruct (in_use_local acc !! i) as [f|] eqn:Hf; destruct (in_use_local p !! i) as [x|] eqn:Hx;
      [destruct (_ <? _)|..]; intros [= <-]; naive_solver.
  - intros b Hb Hc. rewrite merge_thread_lookup. apply elem_of_app in Hb as [Hb|Hb].
    + destruct (Hm1 b Hb Hc) as (b0 & -> & Hle). destruct (in_use_local p !! r_id b) as [x|]; [|eauto].
      destruct (Z.ltb_spec (r_epoch b0) (r_epoch x)); eexists; (split; [done|]); lia.
    + destruct (Hm2 b Hb Hc) as (b0 & -> & Hle). destruct (in_use_local acc !! r_id b) as [f|]; [|eauto].
      destruct (Z.ltb_spec (r_epoch f) (r_epoch b0)); eexists; (split; [done|]); lia.
Qed.
End newest.

(** ** No block is lost: accounting *)

Definition vals (m : gmap Z rblk) : list rblk := (map_to_list m).*2.
Definition acct (a : pass2_t) : list rblk := vals (in_use_local a) ++ not_in_use_local a.

Lemma vals_fresh m i b : m !! i = None → vals (<[i := b]> m) ≡ₚ b :: vals m.
Proof. intros Hi. unfold vals. by rewrite map_to_list_insert. Qed.

Lemma vals_replace m i b f : m !! i = Some f → f :: vals (<[i := b]> m) ≡ₚ b :: vals m.
Proof.
  intros Hf. rewrite <- (insert_delete_id m i f Hf) at 2. rewrite <- insert_delete_eq.
  rewrite !vals_fresh by apply lookup_delete_eq. apply Permutation_swap.
Qed.

Lemma merge_one_acct i b a : acct (merge_one i b a) ≡ₚ b :: acct a.
Proof.
  unfold merge_one, acct. destruct (in_use_local a !! i) as [f|] eqn:Hf; simpl.
  - destruct (_ <? _); simpl; [|solve_Permutation].
    rewrite app_assoc, (Permutation_app_comm _ [f]). simpl. by rewrite app_comm_cons, vals_replace.
  - by rewrite vals_fresh.
Qed.

Lemma merge_thread_acct acc p : acct (merge_thread acc p) ≡ₚ acct acc ++ acct p.
Proof.
  unfold merge_thread. set (a0 := Pass2 (in_use_local acc) _).
  assert (acct (map_fold merge_one a0 (in_use_local p)) ≡ₚ vals (in_use_local p) ++ acct a0) as ->.
  { apply (map_fold_weak_ind (λ r m, acct r ≡ₚ vals m ++ acct a0)); [done|].
    intros i x m r Hi IH. rewrite merge_one_acct, vals_fresh by done. simpl. by rewrite IH. }
  unfold acct. simpl. solve_Permutation.
Qed.

Lemma merge_in_use_spec cand qs : ∀ acc S Ss,
  is_newest cand (in_use_local acc) S → Forall2 (λ q S, is_newest cand (in_use_local q) S) qs Ss →
  is_newest cand (in_use_local (foldl merge_thread acc qs)) (S ++ concat Ss) ∧
  acct (foldl merge_thread acc qs) ≡ₚ acct acc ++ concat (acct <$> qs).
Proof.
  induction qs as [|q qs IH]; intros acc S Ss Hacc Hqs.
  - apply Forall2_nil_inv_l in Hqs as ->. simpl. by rewrite !app_nil_r.
  - apply Forall2_cons_inv_l in Hqs as (S' & Ss' & Hq & Hqs & ->). simpl.
    destruct (IH (merge_thread acc q) (S ++ S') Ss') as [Hn Ha]; [by apply is_newest_merge|done|].
    rewrite app_assoc. split; [done|]. by rewrite Ha, merge_thread_acct, <- app_assoc.
Qed.

(** ** Second pass of one thread *)

Definition kept_type (b : rblk) : Prop := r_type b ≠ DELETE ∧ r_type b ≠ EPOCH.
#[local] Instance kept_type_dec b : Decision (kept_type b).
Proof. unfold kept_type. apply _. Defined.

Section pass2.
Context (cap : Z) (B : list rblk) (dels : gset Z).
Hypothesis Hdels : ∀ i, i ∈ dels ↔ deleted cap B i.
Hypothesis Htypes : ∀ b, b ∈ B → r_type b = INIT ∨ r_type b = OWNED ∨ r_type b = RECLAIMED →
  r_epoch b = NULL_EPOCH ∨ cap < r_epoch b.
Hypothesis Halloc : ∀ b b', b ∈ B → b' ∈ B → version cap B b → version cap B b' →
  r_id b = r_id b' → r_type b = ALLOC → r_epoch b ≤ r_epoch b'.

Lemma premature_version b :
  b ∈ B → is_payload_type (r_type b) = true →
  ∃ r, premature cap dels b = Ret r ∧
    if r : bool then ¬ version cap B b
    else version cap B b.
Proof.
  intros Hb Hp. unfold premature, version. eexists. split; [done|]. pose proof (Hdels (r_id b)) as Hdel.
  destruct (Z.eqb_spec (r_epoch b) NULL_EPOCH) as [He|He]; [simpl; tauto|].
  destruct (Z.ltb_spec cap (r_epoch b)) as [Hc|Hc]; [simpl; lia|]. simpl.
  case_bool_decide as Hd; [tauto|]. split_and!; [|done|done|tauto].
  unfold is_payload_type in Hp. specialize (Htypes b Hb).
  destruct (r_type b); try done; try (exfalso; destruct Htypes; [tauto|done|lia]); tauto.
Qed.

Lemma pass2_step_spec b a S :
  b ∈ B → (∀ x, x ∈ S → x ∈ B) → is_newest (version cap B) (in_use_local a) S →
  ∃ a', pass2_step (premature cap dels) false true b a = Ret a' ∧
    is_newest (version cap B) (in_use_local a') (S ++ [b]) ∧
    acct a' ≡ₚ filter kept_type [b] ++ acct a.
Proof.
  intros Hb HS Hn. unfold pass2_step.
  destruct (is_payload_type (r_type b)) eqn:Hp.
  - assert (filter kept_type [b] = [b]) as ->.
    { rewrite filter_cons_True; [done|]. unfold kept_type. unfold is_payload_type in Hp.
      by destruct (r_type b). }
    destruct (premature_version b Hb Hp) as ([] & -> & Hv).
    { eexists. split; [done|]. simpl. split; [by apply is_newest_skip|]. unfold acct. simpl. solve_Permutation. }
    pose proof Hv as ([Ht|Ht] & _); unfold classify; rewrite Ht.
    + destruct (in_use_local a !! r_id b) as [f|] eqn:Hf.
      * eexists. split; [done|]. simpl. split; [|unfold acct; simpl; solve_Permutation].
        destruct (nw_sound _ _ _ Hn _ _ Hf) as (HfS & Hfv & Hid).
        eapply is_newest_keep; [done|done|]. by apply Halloc; auto.
      * eexists. split; [done|]. simpl. split; [|unfold acct; simpl; by rewrite vals_fresh].
        apply is_newest_insert; [done..|]. by rewrite Hf.
    + destruct (in_use_local a !! r_id b) as [f|] eqn:Hf.
      * destruct (Z.ltb_spec (r_epoch f) (r_epoch b)); (eexists; split; [done|]; simpl; split).
        -- apply is_newest_insert; [done..|]. rewrite Hf. intros ? [= <-]. lia.
        -- unfold acct. simpl. rewrite app_assoc, (Permutation_app_comm _ [f]). simpl.
           by rewrite app_comm_cons, vals_replace.
        -- eapply is_newest_keep; done.
        -- unfold acct. simpl. solve_Permutation.
      * eexists. split; [done|]. simpl. split; [|unfold acct; simpl; by rewrite vals_fresh].
        apply is_newest_insert; [done..|]. by rewrite Hf.
  - assert (¬ version cap B b) as Hnv.
    { intros ([Ht|Ht] & _); by rewrite Ht in Hp. }
    unfold classify. unfold is_payload_type in Hp. destruct (r_type b) eqn:Ht; try done;
      (eexists; split; [done|]; split; [by apply is_newest_skip|]).
    + rewrite filter_cons_False; [done|]. unfold kept_type. rewrite Ht. tauto.
    + rewrite filter_cons_False; [done|]. unfold kept_type. rewrite Ht. tauto.
    + rewrite filter_cons_True; [|unfold kept_type; by rewrite Ht]. unfold acct. simpl. solve_Permutation.
Qed.

Lemma pass2_loop_spec l : ∀ a S,
  (∀ x, x ∈ l → x ∈ B) → (∀ x, x ∈ S → x ∈ B) → is_newest (version cap B) (in_use_local a) S →
  ∃ a', pass2_loop (premature cap dels) false true l a = Ret a' ∧
    is_newest (version cap B) (in_use_local a') (S ++ l) ∧ acct a' ≡ₚ filter kept_type l ++ acct a.
Proof.
  induction l as [|b l IH]; intros a S Hl HS Hn; simpl.
  - exists a. by rewrite app_nil_r.
  - destruct (pass2_step_spec b a S) as (a1 & -> & Hn1 & Ha1); [set_solver|done|done|].
    destruct (IH a1 (S ++ [b])) as (a2 & -> & Hn2 & Ha2); [set_solver|set_solver|done|].
    exists a2. rewrite <- app_assoc in Hn2. split; [done|]. split; [done|].
    rewrite Ha2, Ha1. change (b :: l) with ([b] ++ l). rewrite filter_app. solve_Permutation.
Qed.
End pass2.

(** ** First pass of one thread *)

Lemma max_of_nonneg B : 0 ≤ max_of B.
Proof. induction B; simpl; lia. Qed.
Lemma max_of_app B1 B2 : max_of (B1 ++ B2) = Z.max (max_of B1) (max_of B2).
Proof. induction B1 as [|b B1 IH]; simpl; [pose proof (max_of_nonneg B2)|]; lia. Qed.
#[export] Instance max_of_Permutation : Proper ((≡ₚ) ==> eq) max_of.
Proof. intros B B'. induction 1; simpl; lia. Qed.
Lemma block_epoch_le B b : b ∈ B → block_epoch b ≤ max_of B.
Proof. induction B as [|x B IH]; [set_solver|]. simpl. intros [->|Hb]%elem_of_cons; [lia|]. specialize (IH Hb). lia. Qed.
Lemma epoch_le_max B b : b ∈ B → r_epoch b ≤ max_of B.
Proof.
  intros Hb%block_epoch_le. unfold block_epoch in Hb. destruct (r_type b); lia.
Qed.

Definition anti (b : rblk) : Prop := r_type b = DELETE.

Record pass1_ok (l : list rblk) (p : pass1_t) : Prop := {
  p1_max : max_epoch_local p = max_of l;
  p1_antis : anti_nodes_local p = filter anti l;
  p1_deleted : ∀ i, i ∈ deleted_ids_local p ↔
    ∃ b, b ∈ l ∧ r_type b = DELETE ∧ r_id b = i ∧ r_epoch b ≠ NULL_EPOCH;
  p1_container : epoch_container p = true ↔ ∃ b, b ∈ l ∧ r_type b = EPOCH;
}.

Lemma pass1_step_ok l p b :
  pass1_ok l p → ∃ p', pass1_step false b p = Ret p' ∧ pass1_ok (l ++ [b]) p'.
Proof.
  intros [Hm Ha Hd Hc].
  assert (max_of (l ++ [b]) = Z.max (max_of l) (block_epoch b)) as Hmax.
  { rewrite max_of_app. simpl. pose proof (max_of_nonneg l). lia. }
  assert (r_type b ≠ DELETE → (∀ i, i ∈ deleted_ids_local p ↔
    ∃ x, x ∈ l ++ [b] ∧ r_type x = DELETE ∧ r_id x = i ∧ r_epoch x ≠ NULL_EPOCH) ∧
    anti_nodes_local p = filter anti (l ++ [b])) as Hno.
  { intros Hb. split.
    - intros i. rewrite Hd. split; [intros (x & ? & ?); exists x; set_solver|].
      intros (x & Hx & Ht & ?). exists x. split; [|done]. set_solver.
    - rewrite filter_app, filter_cons_False, filter_nil, app_nil_r by done. done. }
  assert (r_type b ≠ EPOCH → (epoch_container p = true ↔ ∃ x, x ∈ l ++ [b] ∧ r_type x = EPOCH)) as Hnc.
  { intros Hb. rewrite Hc. split; [intros (x & ? & ?); exists x; set_solver|].
    intros (x & Hx & Ht). exists x. split; [|done]. set_solver. }
  unfold pass1_step, block_epoch in *.
  destruct (r_type b) eqn:Ht; (eexists; split; [done|]);
    try (destruct Hno as [Hno1 Hno2]; [congruence|]; constructor; simpl; [lia|done|done|by apply Hnc]).
  - constructor; simpl; [lia| | |by apply Hnc].
    + rewrite filter_app, filter_cons_True, filter_nil by done. by rewrite Ha.
    + intros i. destruct (Z.eqb_spec (r_epoch b) NULL_EPOCH) as [He|He].
      * rewrite Hd. split; [intros (x & ? & ?); exists x; set_solver|].
        intros (x & Hx & Hxt & Hxi & Hxe). exists x. split; [|done]. set_solver.
      * rewrite elem_of_union, elem_of_singleton, Hd. split.
        -- intros [->|(x & ? & ?)]; [exists b; set_solver|exists x; set_solver].
        -- intros (x & [Hx|Hx%list_elem_of_singleton]%elem_of_app & ? & ? & ?);
             [right; by exists x|left; by subst].
  - destruct Hno as [Hno1 Hno2]; [congruence|]. constructor; simpl; [lia|done|done|].
    split; [|done]. intros _. exists b. set_solver.
Qed.

Lemma pass1_ok_spec l : ∃ p, pass1 false l = Ret p ∧ pass1_ok l p.
Proof.
  assert (∀ l' l0 p, pass1_ok l0 p → ∃ p', pass1_loop false l' p = Ret p' ∧ pass1_ok (l0 ++ l') p') as Hloop.
  { induction l' as [|b l' IH]; intros l0 p Hp; simpl; [exists p; by rewrite app_nil_r|].
    destruct (pass1_step_ok l0 p b Hp) as (p1 & -> & Hp1).
    destruct (IH _ _ Hp1) as (p2 & -> & Hp2). exists p2. by rewrite <- app_assoc in Hp2. }
  apply (Hloop l [] (Pass1 0 [] ∅ false)). constructor; simpl; [done|done|set_solver|].
  split; [done|set_solver].
Qed.

Lemma omapM_spec {A A'} (f : A → outcome A') (R : A → A' → Prop) l :
  (∀ x, x ∈ l → ∃ y, f x = Ret y ∧ R x y) → ∃ ys, omapM f l = Ret ys ∧ Forall2 R l ys.
Proof.
  induction l as [|x l IH]; intros H; simpl; [by exists []|].
  destruct (H x) as (y & -> & Hy); [set_solver|]. destruct IH as (ys & -> & Hys); [set_solver|].
  exists (y :: ys). split; [done|by constructor].
Qed.

Lemma merge_max_spec parts ps :
  Forall2 pass1_ok parts ps → merge_max ps = max_of (concat parts).
Proof.
  intros H. unfold merge_max.
  assert (∀ m, 0 ≤ m → foldl (λ m p, Z.max m (max_epoch_local p)) m ps = Z.max m (max_of (concat parts))) as Hf.
  { induction H as [|l p parts ps Hp _ IH]; intros m Hm; simpl; [lia|].
    rewrite IH, (p1_max _ _ Hp), max_of_app by lia. lia. }
  rewrite Hf by lia. pose proof (max_of_nonneg (concat parts)). lia.
Qed.

Lemma mature_deleted_spec max p i :
  i ∈ mature_deleted max p ↔ i ∈ deleted_ids_local p ∧
    ∀ b, b ∈ anti_nodes_local p → r_id b = i → r_epoch b ≠ max ∧ r_epoch b ≠ max -₆ 1.
Proof.
  unfold mature_deleted. induction (anti_nodes_local p) as [|x l IH]; simpl; [set_solver|].
  case_bool_decide as He.
  - rewrite elem_of_difference, IH, elem_of_singleton. split.
    + intros [[? Hl] Hne]. split; [done|]. intros b [->|Hb]%elem_of_cons Hid; [done|by apply Hl].
    + intros [? Hl]. split; [split; [done|]; intros; apply Hl; [by right|done]|].
      intros ->. destruct (Hl x); [by left|done|tauto].
  - rewrite IH. split.
    + intros [? Hl]. split; [done|]. intros b [->|Hb]%elem_of_cons Hid; [tauto|by apply Hl].
    + intros [? Hl]. split; [done|]. intros; apply Hl; [by right|done].
Qed.

Lemma merge_deleted_spec max ps i :
  i ∈ merge_deleted max ps ↔ ∃ p, p ∈ ps ∧ i ∈ mature_deleted max p.
Proof.
  unfold merge_deleted.
  assert (∀ d : gset Z, i ∈ foldl (λ d p, d ∪ mature_deleted max p) d ps ↔
    i ∈ d ∨ ∃ p, p ∈ ps ∧ i ∈ mature_deleted max p) as Hf.
  { induction ps as [|p ps IH]; intros d; simpl; [set_solver|]. rewrite IH. set_solver. }
  rewrite Hf. set_solver.
Qed.

Lemma recover_deleted B parts ps i :
  image_ok B → concat parts ≡ₚ B → Forall2 pass1_ok parts ps →
  i ∈ merge_deleted (max_of B) ps ↔ deleted (max_of B - 2) B i.
Proof.
  intros Hok HB Hps. pose proof (im_range _ Hok) as [Hmax Hnn]. rewrite merge_deleted_spec.
  assert (∀ x, x ∈ B ↔ ∃ l, l ∈ parts ∧ x ∈ l) as HinB.
  { intros x. by rewrite <- HB, elem_of_concat. }
  split.
  - intros (p & Hp & Hm). apply list_elem_of_lookup in Hp as [j Hj].
    destruct (Forall2_lookup_r _ _ _ _ _ Hps Hj) as (l & Hl & Hpok).
    apply mature_deleted_spec in Hm as [Hd Hmat]. apply (p1_deleted _ _ Hpok) in Hd as (b & Hb & Ht & Hid & He).
    assert (b ∈ B) as HbB by (apply HinB; exists l; split; [by eapply list_elem_of_lookup_2|done]).
    destruct (Hmat b) as [H1 H2]; [rewrite (p1_antis _ _ Hpok); apply list_elem_of_filter; done|done|].
    rewrite u64_small in H2 by (unfold is_u64; lia). pose proof (epoch_le_max B b HbB).
    exists b. split_and!; try done. lia.
  - intros (b & HbB & Ht & Hid & He & Hle). apply HinB in HbB as Hb. destruct Hb as (l & Hl & Hb).
    apply list_elem_of_lookup in Hl as [j Hj]. destruct (Forall2_lookup_l _ _ _ _ _ Hps Hj) as (p & Hp & Hpok).
    exists p. split; [by eapply list_elem_of_lookup_2|]. apply mature_deleted_spec. split.
    { apply (p1_deleted _ _ Hpok). by exists b. }
    intros b' Hb' Hid'. rewrite (p1_antis _ _ Hpok), list_elem_of_filter in Hb'. destruct Hb' as [Ht' Hb'].
    assert (b' ∈ B) as HbB' by (apply HinB; exists l; split; [by eapply list_elem_of_lookup_2|done]).
    rewrite u64_small by (unfold is_u64; lia).
    destruct (decide (r_epoch b' = NULL_EPOCH)) as [->|Hne]; [unfold NULL_EPOCH; lia|].
    pose proof (im_antis _ Hok b b' HbB HbB' Ht Ht' ltac:(congruence) He Hne Hle). lia.
Qed.

Lemma kept_partition B :
  (filter kept_type B ++ filter anti B) ++ filter (λ b, r_type b = EPOCH) B ≡ₚ B.
Proof.
  induction B as [|b B IH]; [done|]. rewrite !filter_cons.
  assert (kept_type b ∧ ¬ anti b ∧ r_type b ≠ EPOCH ∨ ¬ kept_type b ∧ anti b ∧ r_type b ≠ EPOCH ∨
    ¬ kept_type b ∧ ¬ anti b ∧ r_type b = EPOCH) as Hb.
  { unfold kept_type, anti. destruct (r_type b); naive_solver. }
  repeat case_decide; try tauto; simpl; rewrite <- IH at 4 || rewrite <- IH at 2; solve_Permutation.
Qed.

(** Some thread finds the epoch container in the first pass. *)
Lemma pass1_container B parts1 ps :
  image_ok B → concat parts1 ≡ₚ B → Forall2 pass1_ok parts1 ps → existsb epoch_container ps = true.
Proof.
  intros Hok H1 Hps. destruct (im_container _ Hok) as (b & Hb & Ht). rewrite <- H1, elem_of_concat in Hb.
  destruct Hb as (l & Hl & Hb). apply list_elem_of_lookup in Hl as [j Hj].
  destruct (Forall2_lookup_l _ _ _ _ _ Hps Hj) as (p & Hp & Hpok).
  apply existsb_exists. exists p. rewrite <- list_elem_of_In.
  split; [by eapply list_elem_of_lookup_2|]. apply (p1_container _ _ Hpok). by exists b.
Qed.

(** What the threads found in a pass is the corresponding part of the image. *)
Lemma concat_parts {A} (R : list rblk → A → Prop) (f : A → list rblk) (P : rblk → Prop)
    `{!∀ b, Decision (P b)} B parts xs :
  (∀ l x, R l x → f x ≡ₚ filter P l) → concat parts ≡ₚ B → Forall2 R parts xs →
  concat (f <$> xs) ≡ₚ filter P B.
Proof.
  intros HR <- Hxs. induction Hxs as [|l x parts xs Hx _ IH]; simpl; [done|].
  by rewrite (HR _ _ Hx), IH, filter_app.
Qed.

(** The second pass of one thread. *)
Lemma pass2_part B cap dels l :
  image_ok B → cap = max_of B - 2 → (∀ i, i ∈ dels ↔ deleted cap B i) → (∀ x, x ∈ l → x ∈ B) →
  ∃ q, pass2 (premature cap dels) false true l = Ret q ∧
    is_newest (version cap B) (in_use_local q) l ∧ acct q ≡ₚ filter kept_type l.
Proof.
  intros Hok -> Hdels Hl.
  destruct (pass2_loop_spec (max_of B - 2) B dels Hdels) with (l := l) (a := Pass2 ∅ []) (S := @nil rblk)
    as (a & Ha & Hn & Hacct); [apply (im_types _ Hok)| |done|set_solver|apply is_newest_nil|].
  { intros b b' Hb Hb' Hv Hv' Hid Ht. by apply (im_versions _ Hok). }
  exists a. split; [done|]. split; [done|]. rewrite Hacct. unfold acct, vals. simpl.
  by rewrite map_to_list_empty, app_nil_r.
Qed.

(** The run on an image: the results of the two passes and of the merges. *)
Lemma recover_run (B : list rblk) (parts1 parts2 : list (list rblk)) :
  image_ok B → concat parts1 ≡ₚ B → concat parts2 ≡ₚ B →
  ∃ ps qs, recover false parts1 parts2 =
      Ret (Recovered (in_use_local (merge_in_use qs))
             (not_in_use_local (merge_in_use qs) ++ concat (anti_nodes_local <$> ps)) (max_of B)) ∧
    Forall2 pass1_ok parts1 ps ∧
    Forall2 (λ l q, is_newest (version (max_of B - 2) B) (in_use_local q) l ∧ acct q ≡ₚ filter kept_type l) parts2 qs.
Proof.
  intros Hok H1 H2. pose proof (im_range _ Hok) as [Hmax _]. unfold recover.
  destruct (omapM_spec (pass1 false) pass1_ok parts1) as (ps & -> & Hps).
  { intros l _. apply pass1_ok_spec. }
  rewrite (pass1_container B parts1) by done.
  simpl. assert (merge_max ps = max_of B) as -> by (rewrite (merge_max_spec _ _ Hps); by rewrite H1).
  rewrite u64_small by (unfold is_u64; lia).
  set (cap := max_of B - 2). set (dels := merge_deleted (max_of B) ps).
  assert (∀ i, i ∈ dels ↔ deleted cap B i) as Hdels by (intros i; by apply (recover_deleted B parts1)).
  destruct (omapM_spec (pass2 (premature cap dels) false true)
    (λ l q, is_newest (version cap B) (in_use_local q) l ∧ acct q ≡ₚ filter kept_type l) parts2)
    as (qs & -> & Hqs).
  { intros l Hl. apply pass2_part; [done..|]. intros x Hx. rewrite <- H2. apply elem_of_concat. eauto. }
  by exists ps, qs.
Qed.

(** The merged result: the newest versions of the image, and every payload
    block once. *)
Lemma merge_in_use_newest (B : list rblk) (parts2 : list (list rblk)) qs :
  image_ok B → concat parts2 ≡ₚ B →
  Forall2 (λ l q, is_newest (version (max_of B - 2) B) (in_use_local q) l ∧ acct q ≡ₚ filter kept_type l) parts2 qs →
  (∀ i b, in_use_local (merge_in_use qs) !! i = Some b ↔ newest (version (max_of B - 2) B) B i b) ∧
  acct (merge_in_use qs) ≡ₚ filter kept_type B.
Proof.
  intros Hok H2 Hqs. set (cap := max_of B - 2) in *.
  assert (∀ x, x ∈ concat parts2 ↔ x ∈ B) as Hin2 by (intros x; by rewrite H2).
  destruct (merge_in_use_spec (version cap B) qs (Pass2 ∅ []) [] parts2) as [Hn Hacct].
  { apply is_newest_nil. }
  { apply Forall2_flip. eapply Forall2_impl; [exact Hqs|]. by intros l q []. }
  split.
  - intros i b. simpl in Hn.
    assert (newest (version cap B) (concat parts2) i b ↔ newest (version cap B) B i b) as <-.
    { unfold newest. split; intros (? & ? & ? & Hx); split_and!; try done; try (by apply Hin2);
        intros b' Hb'; apply Hx; by apply Hin2. }
    split; [by apply is_newest_newest|]. apply newest_is_newest; [|done].
    intros b1 b2 Hb1%Hin2 Hb2%Hin2 Hv1 Hv2 Hid.
    by destruct (im_versions _ Hok b1 b2 Hb1 Hb2 Hv1 Hv2 Hid).
  - assert (concat (acct <$> qs) ≡ₚ filter kept_type B) as <-.
    { eapply concat_parts; [|exact H2|exact Hqs]. by intros l q []. }
    unfold merge_in_use. rewrite Hacct. unfold acct at 1, vals at 1. simpl. by rewrite map_to_list_empty.
Qed.

(** C10. Recovery returns exactly the live blocks of the epoch it recovers to.
    For every image the epoch system can leave behind, however Ralloc splits it
    among any number of recovery threads (and differently for the two passes),
    a dirty restart recovers without an error; the epoch becomes the largest
    one found, [max]; an id is in the result exactly when it has a version of
    epoch [max-2] or earlier and no deletion of epoch [max-2] or earlier, with
    the newest such version; and nothing is lost or freed twice: the result,
    the freed blocks and the epoch container together are the image. *)
Theorem recover_correct (B : list rblk) (parts1 parts2 : list (list rblk)) :
  image_ok B → concat parts1 ≡ₚ B → concat parts2 ≡ₚ B →
  ∃ r, recover false parts1 parts2 = Ret r ∧ new_global_epoch r = max_of B ∧
    (∀ i b, in_use r !! i = Some b ↔ newest (version (max_of B - 2) B) B i b) ∧
    vals (in_use r) ++ freed r ++ filter (λ b, r_type b = EPOCH) B ≡ₚ B.
Proof.
  intros Hok H1 H2. destruct (recover_run B parts1 parts2 Hok H1 H2) as (ps & qs & -> & Hps & Hqs).
  destruct (merge_in_use_newest B parts2 qs Hok H2 Hqs) as [Hn Hacct].
  eexists. split; [done|]. simpl. split; [done|]. split; [done|].
  rewrite app_assoc, (app_assoc (vals _)).
  assert (concat (anti_nodes_local <$> ps) ≡ₚ filter anti B) as ->.
  { eapply concat_parts; [|exact H1|exact Hps]. intros l p Hp. by rewrite (p1_antis _ _ Hp). }
  fold (acct (merge_in_use qs)). rewrite Hacct. apply kept_partition.
Qed.

(** An image with eight blocks: id 1 has versions of epochs 3, 5 and 9, id 2 was
    deleted in epoch 6, id 3 in epoch 10; the crash was in epoch 10. *)
Definition image_example : list rblk :=
  [Rblk 64 0 EPOCH 0 0 10 false; Rblk 128 3 ALLOC 1 0 0 false; Rblk 192 5 UPDATE 1 0 0 false;
   Rblk 256 9 UPDATE 1 0 0 false; Rblk 320 4 ALLOC 2 0 0 false; Rblk 384 6 DELETE 2 0 0 false;
   Rblk 448 7 ALLOC 3 0 0 false; Rblk 512 10 DELETE 3 0 0 false].

Ltac image_cases :=
  repeat match goal with
  | H : _ ∈ _ :: _ |- _ => apply elem_of_cons in H as [->|H]
  | H : _ ∈ [] |- _ => by apply not_elem_of_nil in H
  end.

Lemma image_example_ok : image_ok image_example.
Proof.
  constructor.
  - eexists. split; [by left|done].
  - change (max_of image_example) with 10. split; [unfold U64; lia|].
    intros b Hb. unfold image_example in Hb. image_cases; simpl; lia.
  - intros b Hb Ht. unfold image_example in Hb. image_cases; naive_solver.
  - change (max_of image_example) with 10. intros b b' Hb Hb' (Ht & _ & Hc & _) (Ht' & _ & Hc' & _).
    unfold image_example in Hb, Hb'. image_cases; simpl in *; try lia; try naive_solver.
  - change (max_of image_example) with 10. intros b b' Hb Hb'.
    unfold image_example in Hb, Hb'. image_cases; simpl in *; try done; try lia.
Qed.

Lemma recover_correct_witness :
  let B := image_example in
  ∃ r, recover false [take 3 B; drop 3 B] [drop 5 B; take 5 B] = Ret r ∧
    new_global_epoch r = max_of B ∧
    (∀ i b, in_use r !! i = Some b ↔ newest (version (max_of B - 2) B) B i b) ∧
    vals (in_use r) ++ freed r ++ filter (λ b, r_type b = EPOCH) B ≡ₚ B.
Proof.
  apply (recover_correct image_example _ _ image_example_ok); simpl; [done|solve_Permutation].
Defined.

(** The result of that run: version 5 of id 1 and the undeleted id 3. *)
Example recover_example :
  match recover false [take 3 image_example; drop 3 image_example]
                      [drop 5 image_example; take 5 image_example] with
  | Ret r => (r_addr <$> in_use r !! 1, in_use r !! 2, r_addr <$> in_use r !! 3)
  | Throw _ => (None, None, None)
  end = (Some 192, None, Some 448).
Proof. vm_compute. reflexivity. Qed.

(** ** nbEpochSys::recover *)

Record nb_pass1_t : Type := NbPass1 {
  nb_pass1 : pass1_t;
  descs_local : gmap Z rblk;
}.

Definition nb_pass1_step (b : rblk) (a : nb_pass1_t) : outcome nb_pass1_t :=
  match pass1_step false b (nb_pass1 a) with
  | Throw e => Throw e
  | Ret p =>
      Ret (NbPass1 p (match r_type b with
                      | DESC => <[get_tid (r_tid_sn b) := b]> (descs_local a)
                      | _ => descs_local a
                      end))
  end.

Fixpoint nb_pass1_loop (l : list rblk) (a : nb_pass1_t) : outcome nb_pass1_t :=
  match l with
  | [] => Ret a
  | b :: l' => match nb_pass1_step b a with
               | Ret a' => nb_pass1_loop l' a'
               | Throw e => Throw e
               end
  end.

(** [descs.merge(descs_local)] keeps the entries already there. *)
Definition merge_descs (ps : list nb_pass1_t) : gmap Z rblk :=
  foldl (λ d p, d ∪ descs_local p) ∅ ps.

(** The transaction of [b] is not registered in its thread's descriptor, or
    registered but not committed.  [descs[tid]] without an entry is a null
    pointer, dereferenced. *)
Definition uncommitted (descs : gmap Z rblk) (b : rblk) : outcome bool :=
  match descs !! get_tid (r_tid_sn b) with
  | None => Throw (UB "descs[curr_tid] is null")
  | Some d => Ret ((get_sn (r_tid_sn d) <? get_sn (r_tid_sn b)) ||
                   ((get_sn (r_tid_sn b) =? get_sn (r_tid_sn d)) && negb (r_committed d)))
  end.

Fixpoint nb_mature_deleted (epoch_cap : Z) (descs : gmap Z rblk) (antis : list rblk) (d : gset Z)
    : outcome (gset Z) :=
  match antis with
  | [] => Ret d
  | n :: antis' =>
      match (if epoch_cap <? r_epoch n then Ret true else uncommitted descs n) with
      | Throw e => Throw e
      | Ret b => nb_mature_deleted epoch_cap descs antis' (if b : bool then d ∖ {[r_id n]} else d)
      end
  end.

Definition nb_premature (epoch_cap : Z) (dels : gset Z) (descs : gmap Z rblk) (b : rblk) : outcome bool :=
  if (r_epoch b =? NULL_EPOCH) || (epoch_cap <? r_epoch b) || bool_decide (r_id b ∈ dels)
  then Ret true else uncommitted descs b.

(** A thread computes its [epoch_cap] from the [max_epoch] it sees right after
    it has merged its own maximum, without waiting for the other threads:
    [seen] lists these values. *)
Definition nb_recover (clean_start : bool) (seen : list Z) (parts1 parts2 : list (list rblk))
    : outcome recovered_t :=
  match omapM (λ l, nb_pass1_loop l (NbPass1 (Pass1 0 [] ∅ false) ∅)) parts1 with
  | Throw e => Throw e
  | Ret ps =>
      if negb (existsb (epoch_container ∘ nb_pass1) ps)
      then Throw (Errexit "epoch container not found during recovery")
      else
        let descs := merge_descs ps in
        let caps := (λ m, m -₆ 2) <$> seen in
        match omapM (λ '(cap, p), nb_mature_deleted cap descs (anti_nodes_local (nb_pass1 p))
                                     (deleted_ids_local (nb_pass1 p))) (zip caps ps) with
        | Throw e => Throw e
        | Ret ds =>
            let dels := foldl (∪) ∅ ds in
            match omapM (λ '(cap, l), pass2 (nb_premature cap dels descs) clean_start false l)
                        (zip caps parts2) with
            | Throw e => Throw e
            | Ret qs =>
                let m := merge_in_use qs in
                Ret (Recovered (in_use_local m)
                       (not_in_use_local m ++ concat ((λ p, anti_nodes_local (nb_pass1 p)) <$> ps))
                       (merge_max (nb_pass1 <$> ps)))
            end
        end
  end.

(** The values of [max_epoch] a thread can see after its merge: the maximum of
    a prefix of the threads that contains it. *)
Definition seen_ok (parts1 : list (list rblk)) (seen : list Z) : Prop :=
  length seen = length parts1 ∧
  ∀ t m, seen !! t = Some m →
    ∃ k, (t < k ≤ length parts1)%nat ∧ m = max_of (concat (take k parts1)).

(** C40. The nonblocking recovery depends on a race and can drop a durable
    block.  [epoch_cap = max_epoch - 2] is computed before the barrier that
    waits for the maxima of the later threads.  Two threads; the first scans a
    committed block of epoch 5 and its descriptor, the second the epoch
    container of epoch 10.  If the first thread reads [max_epoch] after the
    second one has merged, block 1 is recovered; if it reads it before, its
    cap is 3 and the block, five epochs old, is dropped and freed. *)
Theorem nb_recover_race :
  let b := Rblk 128 5 ALLOC 1 3 0 false in
  let d := Rblk 192 5 DESC 0 3 0 true in
  let parts := [[b; d]; [Rblk 64 0 EPOCH 0 0 10 false]] in
  seen_ok parts [10; 10] ∧ seen_ok parts [5; 10] ∧
  (∃ r, nb_recover false [10; 10] parts parts = Ret r ∧ in_use r !! 1 = Some b) ∧
  (∃ r, nb_recover false [5; 10] parts parts = Ret r ∧ in_use r !! 1 = None ∧ b ∈ freed r).
Proof.
  intros b d parts. split_and!.
  - split; [done|]. intros [|[|t]] m Hm; simpl in Hm; try done; injection Hm as <-; exists 2%nat;
      (split; [simpl; lia|reflexivity]).
  - split; [done|]. intros [|[|t]] m Hm; simpl in Hm; try done; injection Hm as <-;
      [exists 1%nat|exists 2%nat]; (split; [simpl; lia|reflexivity]).
  - eexists. split; [vm_compute; reflexivity|]. reflexivity.
  - eexists. split; [vm_compute; reflexivity|]. split; [reflexivity|]. by left.
Qed.
