(* ===== verification/Advancer.v ===== *)
(** * Epoch advancers (src/persist/EpochAdvancers.hpp, .cpp)

    The dedicated advancer thread and the [sync] of the worker threads move the
    global epoch on: end the current epoch ([EpochSys::on_epoch_end], which
    makes the epoch before it durable), then try to increment the epoch with a
    compare-and-swap that several threads may attempt at once.

    A run is described by the calls it makes and by what the other threads do:
    [env] lists, for each of our attempts, by how much the others have advanced
    the epoch between our last read of it and our compare-and-swap.
    [epoch_CAS(expected, desired)] takes [expected] by reference: when it fails,
    the caller's variable holds the current epoch. *)

From S2P Require Import Prelude.

Inductive call : Type :=
  | OnEpochEnd (c : Z)
  | OnEpochBegin (c : Z).

(** [global_epoch->compare_exchange_strong(expected, desired)]: success, the
    value left in [expected], the epoch. *)
Definition epoch_CAS (expected desired g : Z) : bool * Z * Z :=
  if g =? expected then (true, expected, desired) else (false, g, g).

(** ** DedicatedEpochAdvancer *)

(** [while (curr_target < c+2) if (CAS(curr_target, c+2)) break;] *)
Definition raise_target (c target : Z) : Z := if target <? c +₆ 2 then c +₆ 2 else target.

(** [for (auto curr_epoch = get_epoch(); curr_epoch < c+2; curr_epoch++)]; [None]
    when the fuel is exhausted *)
Fixpoint sync_loop (fuel : nat) (env : list Z) (curr_epoch c g : Z) : option (list call * Z) :=
  if curr_epoch <? c +₆ 2 then
    match fuel with
    | O => None
    | S fuel' =>
        let g' := g + hd 0 env in
        let '(ok, curr', g'') := epoch_CAS curr_epoch (curr_epoch +₆ 1) g' in
        match sync_loop fuel' (tl env) (curr' +₆ 1) c g'' with
        | Some (l, g3) =>
            Some (OnEpochEnd curr_epoch :: (if ok : bool then [OnEpochBegin (curr' +₆ 1)] else []) ++ l, g3)
        | None => None
        end
    end
  else Some ([], g).

Definition sync (fuel : nat) (env : list Z) (c target g : Z) : option (list call * Z * Z) :=
  match sync_loop fuel env g c g with
  | Some (l, g') => Some (l, g', raise_target c target)
  | None => None
  end.

(** One turn of the advancer thread: its calls, its [curr_epoch], the target and
    the epoch afterwards. *)
Definition advancer_turn (e curr_epoch target g : Z) : list call * Z * Z * Z :=
  let target' := if target =? curr_epoch then curr_epoch +₆ 1 else target in
  let g' := g + e in
  let '(ok, curr', g'') := epoch_CAS curr_epoch (curr_epoch +₆ 1) g' in
  if ok : bool
  then ([OnEpochEnd curr_epoch; OnEpochBegin (curr' +₆ 1)], curr' +₆ 1, target', g'')
  else ([OnEpochEnd curr_epoch], curr', target', g'').

Fixpoint advancer (env : list Z) (curr_epoch target g : Z) : list call * Z * Z * Z :=
  match env with
  | [] => ([], curr_epoch, target, g)
  | e :: env' =>
      let '(l, c1, t1, g1) := advancer_turn e curr_epoch target g in
      let '(l', c2, t2, g2) := advancer env' c1 t1 g1 in (l ++ l', c2, t2, g2)
  end.

(** ** DedicatedEpochAdvancerNbSync *)

Fixpoint nb_sync_loop (fuel : nat) (env : list Z) (curr_epoch c g : Z) : option (list call * Z) :=
  if curr_epoch <? c +₆ 2 then
    match fuel with
    | O => None
    | S fuel' =>
        let g' := g + hd 0 env in
        let '(ok, curr', g'') := epoch_CAS curr_epoch (curr_epoch +₆ 1) g' in
        match nb_sync_loop fuel' (tl env) (curr' +₆ 1) c g'' with
        | Some (l, g3) => Some (OnEpochEnd curr_epoch :: OnEpochBegin (curr' +₆ 1) :: l, g3)
        | None => None
        end
    end
  else Some ([], g).

Definition nb_advancer_turn (e curr_epoch target g : Z) : list call * Z * Z * Z :=
  let target' := if target =? curr_epoch then curr_epoch +₆ 1 else target in
  let g' := g + e in
  let '(ok, curr', g'') := epoch_CAS curr_epoch (curr_epoch +₆ 1) g' in
  let curr'' := if ok : bool then curr' +₆ 1 else curr' in
  ([OnEpochEnd curr_epoch; OnEpochBegin (curr'' +₆ 1)], curr'', target', g'').

(** ** Correctness *)

(** The calls that end the epochs from [e] on and begin the next ones. *)
Definition advance_calls (e : Z) (k : nat) : list call :=
  concat ((λ i : nat, [OnEpochEnd (e + Z.of_nat i); OnEpochBegin (e + Z.of_nat i + 1)]) <$> seq 0 k).

Lemma advance_calls_S e k :
  advance_calls e (S k) = [OnEpochEnd e; OnEpochBegin (e + 1)] ++ advance_calls (e + 1) k.
Proof.
  unfold advance_calls. simpl. rewrite Z.add_0_r. do 2 f_equal.
  rewrite <- fmap_S_seq, <- list_fmap_compose. f_equal.
  apply list_fmap_ext. intros i x Hx. simpl. do 3 (f_equal; try lia).
Qed.

Lemma sync_loop_uncontended k : ∀ fuel c g,
  0 ≤ g → c + 3 < U64 → 0 ≤ c → c + 2 - g = Z.of_nat k → (k ≤ fuel)%nat →
  sync_loop fuel [] g c g = Some (advance_calls g k, c + 2).
Proof.
  induction k as [|k IH]; intros fuel c g Hg Hc Hc0 Hk Hf.
  - destruct fuel; simpl; rewrite !u64_small by (unfold is_u64; lia);
      (destruct (Z.ltb_spec g (c + 2)); [lia|]); do 2 f_equal; lia.
  - destruct fuel as [|fuel]; [lia|]. simpl. rewrite !u64_small by (unfold is_u64; lia).
    destruct (Z.ltb_spec g (c + 2)); [|lia]. unfold epoch_CAS. rewrite Z.add_0_r, Z.eqb_refl.
    rewrite !u64_small by (unfold is_u64; lia). simpl.
    rewrite IH by lia. by rewrite advance_calls_S.
Qed.



(** [sync] can return before its epoch is durable.  When another thread
    advances the epoch first, the failed compare-and-swap stores the current
    epoch in the loop variable, which the loop then increments once more.  A
    worker that syncs epoch 5 in epoch 5 while the advancer moves to 6 returns
    with the epoch at 6 and without having ended epoch 6: nobody has written
    back epoch 5. *)
Theorem sync_returns_early :
  sync 2 [1] 5 3 5 = Some ([OnEpochEnd 5], 6, 7) ∧ OnEpochEnd 6 ∉ [OnEpochEnd 5].
Proof. split; [vm_compute; reflexivity|]. intros [[=]|[]%not_elem_of_nil]%elem_of_cons. Qed.

(** The advancer thread follows the epoch.  Whatever the other threads do,
    its [curr_epoch] never exceeds the epoch, equals it after every turn, and
    the epoch never decreases; each turn moves the epoch on by at least one
    when the thread was in step and nobody interferes. *)
Theorem advancer_follows_epoch (env : list Z) (curr target g : Z) :
  0 ≤ curr ≤ g → Forall (λ e, 0 ≤ e) env → g + foldr Z.add 0 env + Z.of_nat (length env) + 1 < U64 →
  env ≠ [] →
  let '(_, curr', _, g') := advancer env curr target g in
  curr' = g' ∧ g ≤ g' ∧ (curr = g → Forall (λ e, e = 0) env → g' = g + Z.of_nat (length env)).
Proof.
  intros Hc He Hm Hne. revert curr target g Hc Hm.
  induction He as [|e env He Henv IH]; intros curr target g Hc Hm; [done|]. simpl in Hm |- *.
  assert (0 ≤ foldr Z.add 0 env) as Hsum by (clear -Henv; induction Henv; simpl; lia).
  unfold advancer_turn, epoch_CAS.
  destruct (Z.eqb_spec (g + e) curr) as [Heq|Hneq]; rewrite ?u64_small by (unfold is_u64; lia).
  - destruct env as [|e2 env]; [simpl; split_and!; intros; lia|].
    assert (e2 :: env ≠ []) as Hne' by done. simpl in Hm, Hsum.
    specialize (IH Hne' (curr + 1) (if target =? curr then curr + 1 else target) (curr + 1)).
    destruct (advancer (e2 :: env) _ _ _) as [[[l c2] t2] g2]. destruct IH as (H1 & H2 & H3); [lia|simpl; lia|].
    split_and!; [done|lia|]. intros -> Hall. apply Forall_cons in Hall as [-> Hall].
    rewrite H3 by done. simpl. lia.
  - destruct env as [|e2 env].
    { simpl. split_and!; [done|lia|]. intros -> Hall. apply Forall_cons in Hall as [-> _]. lia. }
    assert (e2 :: env ≠ []) as Hne' by done. simpl in Hm, Hsum.
    specialize (IH Hne' (g + e) (if target =? curr then curr + 1 else target) (g + e)).
    destruct (advancer (e2 :: env) _ _ _) as [[[l c2] t2] g2]. destruct IH as (H1 & H2 & H3); [lia|simpl; lia|].
    split_and!; [done|lia|]. intros -> Hall. apply Forall_cons in Hall as [-> _]. lia.
Qed.

Lemma advancer_follows_epoch_witness :
  let '(_, curr', _, g') := advancer [0; 2; 0] 3 0 3 in
  curr' = g' ∧ 3 ≤ g' ∧ (3 = 3 → Forall (λ e, e = 0) [0; 2; 0] → g' = 3 + Z.of_nat 3).
Proof.
  apply (advancer_follows_epoch [0; 2; 0] 3 0 3); [lia| |simpl; unfold U64; lia|done].
  repeat constructor; lia.
Defined.
