(* ===== verification/Recoverable.v ===== *)
(** * The API of a recoverable data structure
      (src/persist/api/Recoverable.hpp, Recoverable.cpp)

    A data structure brackets its operations with [begin_op] and [end_op] (or
    [end_readonly_op], [abort_op]), allocates its payloads with [pnew], deletes
    them with [pdelete] or [pretire] and [preclaim], and reads and writes them
    through [openread_pblk] and [openwrite_pblk].  The API object keeps, per
    thread, the epoch of the operation in progress ([NULL_EPOCH] outside one)
    and the allocations and retirements made before the operation began.

    The virtual methods of the epoch system are the record [esys_ops]; the
    blocking ([EpochSys]) and the nonblocking ([nbEpochSys]) system are its two
    instances. *)

From S2P Require Import Prelude PersistFunc UIDGen FixedBuffers Containers ToBePersisted TransTrackers ToBeFreed PersistTracker Dcss EpochSys.

Section recoverable.
Context {P C T : Type} `{!FixedContainer C, !Tracker T}.
Context (ralloc : gmap Z (pblk P) → Z) (malloc_size : Z → Z) (task_num : nat).
Notation esys := (esys P C T).
Notation E := (M esys).

(** ** Virtual methods of the epoch system *)

Record esys_ops : Type := EsysOps {
  v_begin_transaction : nat → E Z;
  v_end_transaction : Z → nat → E unit;
  v_begin_reclaim_transaction : nat → E Z;
  v_end_reclaim_transaction : Z → nat → E unit;
  v_end_readonly_transaction : Z → nat → E unit;
  v_abort_transaction : Z → nat → E unit;
  v_register_alloc_pblk : Z → Z → nat → E unit;
  (** the second component of the pair for [b]: the anti-node, or null *)
  v_prepare_retire_pblk : Z → Z → nat → E Z;
  (** on a pair prepared before the operation *)
  v_prepare_pending : Z * Z → Z → nat → E Z;
  v_withdraw_retire_pblk : Z → Z → nat → E unit;
  v_retire_pblk : Z → Z → Z → nat → E unit;
}.

Definition EpochSys_ops : esys_ops := EsysOps
  (begin_transaction malloc_size task_num) end_transaction
  (begin_reclaim_transaction malloc_size task_num) end_reclaim_transaction
  end_readonly_transaction abort_transaction
  (register_alloc_pblk malloc_size)
  (λ b c tid, mret_ 0) (λ r c tid, mret_ r.2) (λ b c tid, mret_ tt)
  (λ b c anti tid, retire_pblk ralloc malloc_size b c tid).

Definition nbEpochSys_ops : esys_ops := EsysOps
  (nb_begin_transaction malloc_size task_num) nb_end_transaction
  (nb_begin_reclaim_transaction malloc_size task_num) nb_end_reclaim_transaction
  nb_end_readonly_transaction nb_abort_transaction
  (nb_register_alloc_pblk malloc_size)
  (nb_prepare_retire_pblk ralloc malloc_size)
  (λ r c tid, do* massert (r.2 =? 0) "pending_retire.second==nullptr" in
              nb_prepare_retire_pblk ralloc malloc_size r.1 c tid)
  (nb_withdraw_retire_pblk malloc_size task_num)
  (λ b c anti tid, nb_retire_pblk b c anti).

(** ** State *)

Record recoverable : Type := Rec {
  es : esys;
  epochs : list Z;
  pending_allocs : list (list Z);
  pending_retires : list (list (Z * Z));
}.

Definition new_recoverable (s : esys) : recoverable :=
  Rec s (replicate task_num NULL_EPOCH) (replicate task_num []) (replicate task_num []).

Notation R := (M recoverable).

Definition on_es {A} (f : E A) : R A := λ r,
  let '(o, s) := f (es r) in (o, Rec s (epochs r) (pending_allocs r) (pending_retires r)).

Definition get_local_epoch (tid : nat) : R Z := λ r,
  match epochs r !! tid with Some e => (Ret e, r) | None => (Throw (UB "epochs[tid]"), r) end.
Definition set_local_epoch (tid : nat) (e : Z) : R unit :=
  mmod (λ r, Rec (es r) (<[tid := e]> (epochs r)) (pending_allocs r) (pending_retires r)).
Definition get_allocs (tid : nat) : R (list Z) := mget (λ r, default [] (pending_allocs r !! tid)).
Definition set_allocs (tid : nat) (l : list Z) : R unit :=
  mmod (λ r, Rec (es r) (epochs r) (<[tid := l]> (pending_allocs r)) (pending_retires r)).
Definition get_retires (tid : nat) : R (list (Z * Z)) := mget (λ r, default [] (pending_retires r !! tid)).
Definition set_retires (tid : nat) (l : list (Z * Z)) : R unit :=
  mmod (λ r, Rec (es r) (epochs r) (pending_allocs r) (<[tid := l]> (pending_retires r))).

Context (ops : esys_ops).

(** ** Operation brackets *)

(** [for (auto& r : pending_retires) prepare_retire_pblk(r, epoch)] *)
Fixpoint prepare_all (l : list (Z * Z)) (c : Z) (tid : nat) : E (list (Z * Z)) :=
  match l with
  | [] => mret_ []
  | r :: l' =>
      let* a := v_prepare_pending ops r c tid in
      let* l'' := prepare_all l' c tid in
      mret_ ((r.1, a) :: l'')
  end.

Definition begin_op (tid : nat) : R unit :=
  let* e := get_local_epoch tid in
  do* massert (e =? NULL_EPOCH) "epochs[tid] == NULL_EPOCH" in
  let* c := on_es (v_begin_transaction ops tid) in
  do* set_local_epoch tid c in
  let* rs := get_retires tid in
  let* rs' := on_es (prepare_all rs c tid) in
  do* set_retires tid rs' in
  let* bs := get_allocs tid in
  do* on_es (mfor bs (λ b,
        let* x := read_blk b in
        do* massert (epoch x =? NULL_EPOCH) "(*b)->get_epoch() == NULL_EPOCH" in
        v_register_alloc_pblk ops b c tid)) in
  massert (negb (c =? NULL_EPOCH)) "epochs[tid] != NULL_EPOCH".

Definition end_op (tid : nat) : R unit :=
  let* c := get_local_epoch tid in
  do* massert (negb (c =? NULL_EPOCH)) "epochs[tid] != NULL_EPOCH" in
  let* rs := get_retires tid in
  do* on_es (mfor rs (λ r, v_retire_pblk ops r.1 c r.2 tid)) in
  do* set_retires tid [] in
  do* on_es (v_end_transaction ops c tid) in
  do* set_local_epoch tid NULL_EPOCH in
  set_allocs tid [].

Definition end_readonly_op (tid : nat) : R unit :=
  let* c := get_local_epoch tid in
  do* massert (negb (c =? NULL_EPOCH)) "epochs[tid] != NULL_EPOCH" in
  do* on_es (v_end_readonly_transaction ops c tid) in
  do* set_local_epoch tid NULL_EPOCH in
  let* bs := get_allocs tid in
  let* rs := get_retires tid in
  do* massert (bool_decide (bs = [])) "pending_allocs.empty()" in
  massert (bool_decide (rs = [])) "pending_retires.empty()".

Definition abort_op (tid : nat) : R unit :=
  let* c := get_local_epoch tid in
  do* massert (negb (c =? NULL_EPOCH)) "epochs[tid] != NULL_EPOCH" in
  let* rs := get_retires tid in
  do* on_es (mfor rs (λ r, v_withdraw_retire_pblk ops r.2 c tid)) in
  do* set_retires tid [] in
  let* bs := get_allocs tid in
  do* on_es (mfor bs (λ b, reset_alloc_pblk malloc_size b c tid)) in
  do* on_es (v_abort_transaction ops c tid) in
  set_local_epoch tid NULL_EPOCH.

(** ** Payloads *)

(** [pnew<T>(args...)]: [x] is the constructed object. *)
Definition pnew (x : pblk P) (tid : nat) : R Z :=
  let* b := on_es (new_pblk ralloc x) in
  let* c := get_local_epoch tid in
  if c =? NULL_EPOCH then
    let* bs := get_allocs tid in do* set_allocs tid (bs ++ [b]) in mret_ b
  else do* on_es (v_register_alloc_pblk ops b c tid) in mret_ b.

Definition register_update (b : Z) (tid : nat) : R unit :=
  let* c := get_local_epoch tid in on_es (register_update_pblk malloc_size b c tid).

(** [std::find] on the reversed vector and [erase((pos+1).base())]: the last
    occurrence is removed. *)
Definition erase_last (b : Z) (l : list Z) : option (list Z) :=
  match list_find (b =.) (reverse l) with
  | Some (i, _) => Some (reverse (delete i (reverse l)))
  | None => None
  end.

Definition pdelete (b : Z) (tid : nat) : R unit :=
  let* mode := mget (λ r, sys_mode (es r)) in
  match mode with
  | RECOVER => mret_ tt
  | ONLINE =>
      let* c := get_local_epoch tid in
      if negb (c =? NULL_EPOCH) then on_es (free_pblk ralloc malloc_size task_num b c tid)
      else
        let* x := on_es (read_blk b) in
        do* (if epoch x =? NULL_EPOCH then
               let* bs := get_allocs tid in
               match erase_last b bs with
               | Some bs' => set_allocs tid bs'
               | None => mthrow (AssertFail "pos != pending_allocs.rend()")
               end
             else mret_ tt) in
        on_es (delete_pblk malloc_size task_num b c tid)
  end.

Definition pretire (b : Z) (tid : nat) : R unit :=
  let* c := get_local_epoch tid in
  let* rs := get_retires tid in
  if c =? NULL_EPOCH then set_retires tid (rs ++ [(b, 0)])
  else let* a := on_es (v_prepare_retire_pblk ops b c tid) in set_retires tid (rs ++ [(b, a)]).

Definition preclaim (b : Z) (tid : nat) : R unit :=
  let* mode := mget (λ r, sys_mode (es r)) in
  match mode with
  | RECOVER => mret_ tt
  | ONLINE =>
      let* e := get_local_epoch tid in
      if e =? NULL_EPOCH then
        let* c := on_es (v_begin_reclaim_transaction ops tid) in
        do* set_local_epoch tid c in
        let* x := on_es (read_blk b) in
        do* (if retire x =? 0 then
               let* bs := get_allocs tid in
               match erase_last b bs with
               | Some bs' => set_allocs tid bs'
               | None => mret_ tt
               end
             else mret_ tt) in
        do* on_es (reclaim_pblk ralloc malloc_size task_num b c tid) in
        do* on_es (v_end_reclaim_transaction ops c tid) in
        set_local_epoch tid NULL_EPOCH
      else on_es (reclaim_pblk ralloc malloc_size task_num b e tid)
  end.

Definition openread (b : Z) (tid : nat) : R Z :=
  let* c := get_local_epoch tid in
  do* massert (negb (c =? NULL_EPOCH)) "epochs[tid] != NULL_EPOCH" in
  on_es (openread_pblk b c).

Definition openwrite (b : Z) (tid : nat) : R Z :=
  let* c := get_local_epoch tid in
  do* massert (negb (c =? NULL_EPOCH)) "epochs[tid] != NULL_EPOCH" in
  on_es (openwrite_pblk ralloc b c tid).

(** ** CAS_verify, in or outside an operation *)
Definition CAS_verify (a expected desired : Z) (tid : nat) : R bool :=
  let* e := get_local_epoch tid in
  let not_in_operation := e =? NULL_EPOCH in
  do* (if not_in_operation then begin_op tid else mret_ tt) in
  let* c := get_local_epoch tid in
  do* massert (negb (c =? NULL_EPOCH)) "ds->get_local_epoch() != NULL_EPOCH" in
  let* d := on_es (local_desc tid) in
  let* ok := on_es (on_dm (CAS_verify_body d a expected desired)) in
  do* (if not_in_operation then if ok : bool then end_op tid else abort_op tid else mret_ tt) in
  mret_ ok.

(** ** The bracket discipline *)

Inductive api : Type :=
  | BeginOp | EndOp | EndReadonlyOp | AbortOp
  | PNew (x : pblk P) | PDelete (b : Z) | PRetire (b : Z) | PReclaim (b : Z)
  | POpenRead (b : Z) | POpenWrite (b : Z) | PRegisterUpdate (b : Z)
  | PCasVerify (a expected desired : Z).

Definition api_call (o : api) (tid : nat) : R unit :=
  match o with
  | BeginOp => begin_op tid
  | EndOp => end_op tid
  | EndReadonlyOp => end_readonly_op tid
  | AbortOp => abort_op tid
  | PNew x => let* _b := pnew x tid in mret_ tt
  | PDelete b => pdelete b tid
  | PRetire b => pretire b tid
  | PReclaim b => preclaim b tid
  | POpenRead b => let* _b := openread b tid in mret_ tt
  | POpenWrite b => let* _b := openwrite b tid in mret_ tt
  | PRegisterUpdate b => register_update b tid
  | PCasVerify a e d => let* _b := CAS_verify a e d tid in mret_ tt
  end.

Definition api_run (os : list api) (tid : nat) : R unit := mfor os (λ o, api_call o tid).

(** The specification: an automaton with two states, outside ([false]) and
    inside ([true]) an operation; [None]: the call is not allowed. *)
Definition bracket (inside : bool) (o : api) : option bool :=
  match o, inside with
  | BeginOp, false => Some true
  | (EndOp | EndReadonlyOp | AbortOp), true => Some false
  | (POpenRead _ | POpenWrite _), true => Some true
  | (PNew _ | PDelete _ | PRetire _ | PReclaim _ | PRegisterUpdate _ | PCasVerify _ _ _), b => Some b
  | _, _ => None
  end.

Fixpoint brackets (inside : bool) (os : list api) : option bool :=
  match os with
  | [] => Some inside
  | o :: os' => match bracket inside o with Some b => brackets b os' | None => None end
  end.

(** What a method does to the epoch of the calling thread, when it returns. *)
Definition steps {A} (tid : nat) (m : R A) (Q : Z → A → Z → Prop) : Prop :=
  ∀ r a r' e, epochs r !! tid = Some e → m r = (Ret a, r') →
    ∃ e', epochs r' !! tid = Some e' ∧ Q e a e' ∧ ∀ t, t ≠ tid → epochs r' !! t = epochs r !! t.

Lemma steps_weaken {A} tid (m : R A) (Q Q' : Z → A → Z → Prop) :
  steps tid m Q → (∀ e a e', Q e a e' → Q' e a e') → steps tid m Q'.
Proof. intros Hm HQ r a r' e He Hr. destruct (Hm r a r' e He Hr) as (e' & ? & ? & ?). eauto. Qed.

Lemma steps_bind {A A'} tid (m : R A) (k : A → R A') Q1 Q2 :
  steps tid m Q1 → (∀ a, steps tid (k a) (Q2 a)) →
  steps tid (mbind_ m k) (λ e b e2, ∃ a e1, Q1 e a e1 ∧ Q2 a e1 b e2).
Proof.
  intros Hm Hk r b r2 e He Hr. unfold mbind_ in Hr.
  destruct (m r) as [[a|err] r1] eqn:Hm1; [|done].
  destruct (Hm r a r1 e He Hm1) as (e1 & He1 & HQ1 & Ho1).
  destruct (Hk a r1 b r2 e1 He1 Hr) as (e2 & He2 & HQ2 & Ho2).
  exists e2. split; [done|]. split; [eauto|]. intros t Ht. by rewrite Ho2, Ho1.
Qed.

Lemma steps_es {A} tid (f : E A) : steps tid (on_es f) (λ e _ e', e' = e).
Proof. intros r a r' e He. unfold on_es. destruct (f (es r)) as [o s]. intros [= -> <-]. by exists e. Qed.
Lemma steps_get tid : steps tid (get_local_epoch tid) (λ e a e', a = e ∧ e' = e).
Proof. intros r a r' e He. unfold get_local_epoch. rewrite He. intros [= <- <-]. by exists e. Qed.
Lemma steps_set tid c : steps tid (set_local_epoch tid c) (λ _ _ e', e' = c).
Proof.
  intros r a r' e He [= <- <-]. exists c. simpl. split_and!; [|done|].
  - apply list_lookup_insert_eq. by eapply lookup_lt_Some.
  - intros t Ht. by apply list_lookup_insert_ne.
Qed.
Lemma steps_ret {A} tid (x : A) : steps tid (mret_ x) (λ e a e', a = x ∧ e' = e).
Proof. intros r a r' e He [= <- <-]. by exists e. Qed.
Lemma steps_throw {A} tid err : steps tid (mthrow (A:=A) err) (λ _ _ _, False).
Proof. by intros r a r' e He. Qed.
Lemma steps_assert tid b m : steps tid (massert b m) (λ e _ e', b = true ∧ e' = e).
Proof. intros r a r' e He. unfold massert. destruct b; [|done]. intros [= <- <-]. by exists e. Qed.
Lemma steps_mget {A} tid (f : recoverable → A) : steps tid (mget f) (λ e _ e', e' = e).
Proof. intros r a r' e He [= <- <-]. by exists e. Qed.
Lemma steps_allocs tid l : steps tid (set_allocs tid l) (λ e _ e', e' = e).
Proof. intros r a r' e He [= <- <-]. by exists e. Qed.
Lemma steps_retires tid l : steps tid (set_retires tid l) (λ e _ e', e' = e).
Proof. intros r a r' e He [= <- <-]. by exists e. Qed.

(** Walk through the straight-line part of a method, then read off the effect. *)
Ltac steps_prim := first
  [ eapply steps_es | eapply steps_get | eapply steps_set | eapply steps_ret | eapply steps_throw
  | eapply steps_assert | eapply steps_mget | eapply steps_allocs | eapply steps_retires ].
Ltac steps_walk :=
  repeat lazymatch goal with
  | |- steps _ (mbind_ _ _) _ => eapply steps_bind; [steps_prim|intros ?]
  end; try steps_prim.
Ltac steps_read :=
  intros;
  repeat match goal with
  | H : ∃ _, _ |- _ => destruct H
  | H : _ ∧ _ |- _ => destruct H
  | H : negb _ = true |- _ => apply negb_true_iff in H
  end; subst.

Definition nonnull (e : Z) : bool := negb (e =? NULL_EPOCH).

Definition same (e : Z) (e' : Z) : Prop := nonnull e' = nonnull e.

Lemma begin_op_steps tid : steps tid (begin_op tid) (λ e _ e', nonnull e = false ∧ nonnull e' = true).
Proof.
  unfold begin_op. eapply steps_weaken; [steps_walk|]. simpl. unfold nonnull. steps_read.
  split; [by apply negb_false_iff|by apply negb_true_iff].
Qed.
Lemma end_op_steps tid : steps tid (end_op tid) (λ e _ e', nonnull e = true ∧ nonnull e' = false).
Proof.
  unfold end_op. eapply steps_weaken; [steps_walk|]. simpl. unfold nonnull. steps_read.
  split; [by apply negb_true_iff|done].
Qed.
Lemma end_readonly_op_steps tid :
  steps tid (end_readonly_op tid) (λ e _ e', nonnull e = true ∧ nonnull e' = false).
Proof.
  unfold end_readonly_op. eapply steps_weaken; [steps_walk|]. simpl. unfold nonnull. steps_read.
  split; [by apply negb_true_iff|done].
Qed.
Lemma abort_op_steps tid : steps tid (abort_op tid) (λ e _ e', nonnull e = true ∧ nonnull e' = false).
Proof.
  unfold abort_op. eapply steps_weaken; [steps_walk|]. simpl. unfold nonnull. steps_read.
  split; [by apply negb_true_iff|done].
Qed.

Lemma pnew_steps x tid : steps tid (pnew x tid) (λ e _ e', same e e').
Proof.
  unfold pnew. eapply steps_weaken.
  - steps_walk. instantiate (1 := λ _ e _ e', e' = e).
    destruct (_ =? _); (eapply steps_weaken; [steps_walk|]); simpl; by steps_read.
  - simpl. by steps_read.
Qed.
Lemma pdelete_steps b tid : steps tid (pdelete b tid) (λ e _ e', same e e').
Proof.
  unfold pdelete. eapply steps_weaken.
  - eapply steps_bind; [steps_prim|intros mode]. instantiate (1 := λ _ e _ e', e' = e). simpl.
    destruct mode; [|eapply steps_weaken; [steps_prim|simpl; by steps_read]].
    eapply steps_weaken.
    + eapply steps_bind; [steps_prim|intros c]. instantiate (1 := λ _ e _ e', e' = e). simpl.
      destruct (negb _); [steps_prim|]. eapply steps_weaken.
      * eapply steps_bind; [steps_prim|intros y].
        eapply (steps_bind _ _ _ (λ e _ e', e' = e)); [|intros; steps_prim].
        destruct (_ =? _); [|eapply steps_weaken; [steps_prim|simpl; by steps_read]].
        eapply steps_weaken.
        -- eapply steps_bind; [steps_prim|intros bs]. instantiate (1 := λ _ e _ e', e' = e). simpl.
           destruct (erase_last _ _); [steps_prim|].
           eapply steps_weaken; [steps_prim|done].
        -- simpl. by steps_read.
      * simpl. by steps_read.
    + simpl. by steps_read.
  - simpl. by steps_read.
Qed.

(** Methods that leave the epoch of the thread as it is. *)
Lemma steps_branch {A A'} tid (m : R A) (k : A → R A') (Q : Z → Z → Prop) :
  steps tid m (λ e a e', e' = e) → (∀ a, steps tid (k a) (λ e _ e', Q e e')) →
  steps tid (mbind_ m k) (λ e _ e', Q e e').
Proof.
  intros Hm Hk. eapply steps_weaken; [eapply steps_bind; [done|exact Hk]|]. simpl. by steps_read.
Qed.

(** A method that starts by reading the epoch of the thread. *)
Lemma steps_on_epoch {A} tid (k : Z → R A) Q :
  (∀ c, steps tid (k c) (Q c)) → steps tid (mbind_ (get_local_epoch tid) k) (λ e a e', Q e e a e').
Proof.
  intros Hk. eapply steps_weaken; [eapply steps_bind; [apply steps_get|exact Hk]|]. simpl. by steps_read.
Qed.

Lemma steps_id {A} tid (m : R A) : steps tid m (λ e _ e', e' = e) → steps tid m (λ e _ e', same e e').
Proof. intros H. eapply steps_weaken; [done|]. simpl. by intros e a e' ->. Qed.

Lemma pretire_steps b tid : steps tid (pretire b tid) (λ e _ e', same e e').
Proof.
  apply steps_id. unfold pretire. apply (steps_on_epoch tid _ (λ _ e _ e', e' = e)). intros c.
  apply steps_branch; [apply steps_mget|]. intros rs. destruct (_ =? _); [apply steps_retires|].
  apply steps_branch; [apply steps_es|]. intros a. apply steps_retires.
Qed.

Lemma register_update_steps b tid : steps tid (register_update b tid) (λ e _ e', same e e').
Proof.
  apply steps_id. apply (steps_on_epoch tid _ (λ _ e _ e', e' = e)). intros c. apply steps_es.
Qed.

Lemma openread_steps b tid : steps tid (openread b tid) (λ e _ e', nonnull e = true ∧ same e e').
Proof.
  unfold openread. eapply steps_weaken; [steps_walk|]. simpl. unfold same, nonnull. steps_read.
  split; [by apply negb_true_iff|done].
Qed.
Lemma openwrite_steps b tid : steps tid (openwrite b tid) (λ e _ e', nonnull e = true ∧ same e e').
Proof.
  unfold openwrite. eapply steps_weaken; [steps_walk|]. simpl. unfold same, nonnull. steps_read.
  split; [by apply negb_true_iff|done].
Qed.

Lemma preclaim_steps b tid : steps tid (preclaim b tid) (λ e _ e', same e e').
Proof.
  unfold preclaim. apply steps_branch; [apply steps_mget|]. intros [];
    [|apply steps_id; eapply steps_weaken; [apply steps_ret|simpl; by steps_read]].
  eapply steps_weaken.
  - apply (steps_on_epoch tid _ (λ c e _ e', if c =? NULL_EPOCH then e' = NULL_EPOCH else e' = e)).
    intros e. destruct (e =? NULL_EPOCH) eqn:He; [|apply steps_es].
    eapply steps_weaken.
    + eapply steps_bind; [steps_prim|intros c]. eapply steps_bind; [steps_prim|intros ?].
      eapply steps_bind; [steps_prim|intros x].
      eapply (steps_bind _ _ _ (λ e _ e', e' = e)); [|intros ?; steps_walk].
      destruct (retire x =? 0); [|eapply steps_weaken; [apply steps_ret|simpl; by steps_read]].
      apply (steps_branch tid _ _ (λ e e', e' = e)); [apply steps_mget|]. intros bs.
      destruct (erase_last b bs); [apply steps_allocs|].
      eapply steps_weaken; [apply steps_ret|simpl; by steps_read].
    + simpl. by steps_read.
  - simpl. intros e _ e'. unfold same, nonnull. destruct (e =? NULL_EPOCH) eqn:He; intros ->; by rewrite ?He.
Qed.

Lemma CAS_verify_steps a x d tid : steps tid (CAS_verify a x d tid) (λ e _ e', same e e').
Proof.
  unfold CAS_verify. eapply steps_weaken.
  - apply (steps_on_epoch tid _ (λ c e _ e', nonnull c = nonnull e → same e e')). intros e0.
    cbv zeta. destruct (e0 =? NULL_EPOCH) eqn:He0.
    + eapply steps_weaken.
      * eapply steps_bind; [apply begin_op_steps|intros ?]. eapply steps_bind; [steps_prim|intros c].
        eapply steps_bind; [steps_prim|intros ?]. eapply steps_bind; [steps_prim|intros dd].
        eapply steps_bind; [steps_prim|intros ok].
        eapply (steps_bind _ _ _ (λ e _ e', nonnull e' = false)); [|intros ?; steps_prim].
        destruct ok; (eapply steps_weaken; [apply end_op_steps || apply abort_op_steps|by intros ??? []]).
      * simpl. unfold same. steps_read. congruence.
    + eapply steps_weaken.
      * eapply steps_bind; [steps_prim|intros ?]. eapply steps_bind; [steps_prim|intros c].
        eapply steps_bind; [steps_prim|intros ?]. eapply steps_bind; [steps_prim|intros dd].
        eapply steps_bind; [steps_prim|intros ok]. eapply steps_bind; [steps_prim|intros ?]. steps_prim.
      * simpl. unfold same. by steps_read.
  - simpl. intros e b e' H. by apply H.
Qed.

Lemma api_call_steps o tid :
  steps tid (api_call o tid) (λ e _ e', bracket (nonnull e) o = Some (nonnull e')).
Proof.
  assert (∀ {A} (m : R A) Q, steps tid m (λ e _ e', Q e e') →
    steps tid (let* _b := m in mret_ tt) (λ e _ e', Q e e')) as Hunit.
  { intros A m Q Hm. eapply steps_weaken; [eapply steps_bind; [exact Hm|intros; apply steps_ret]|].
    simpl. by steps_read. }
  destruct o; simpl; eapply steps_weaken;
    try (apply begin_op_steps || apply end_op_steps || apply end_readonly_op_steps ||
      apply abort_op_steps || apply (Hunit _ _ (λ e e', same e e')), pnew_steps || apply pdelete_steps ||
      apply pretire_steps || apply preclaim_steps || apply register_update_steps ||
      apply (Hunit _ _ (λ e e', nonnull e = true ∧ same e e')), openread_steps ||
      apply (Hunit _ _ (λ e e', nonnull e = true ∧ same e e')), openwrite_steps ||
      apply (Hunit _ _ (λ e e', same e e')), CAS_verify_steps);
    simpl; unfold same; intros e _ e'; try (intros ->; done); try (intros [-> ->]; done).
Qed.
End recoverable.
Arguments recoverable : clear implicits.
Arguments api : clear implicits.

(** C28. The API enforces operation brackets.  For both epoch systems, and for
    any sequence of API calls of a thread that all return (no assertion fails,
    nothing is thrown), the sequence is accepted by the two-state automaton
    [brackets]: operations do not nest, they are closed by [end_op],
    [end_readonly_op] or [abort_op], payloads are opened only inside one.  The
    epoch recorded for the thread is [NULL_EPOCH] exactly outside an operation,
    and the other threads' epochs are untouched. *)
Theorem api_refines_brackets {P C T} `{!FixedContainer C, !Tracker T}
    (ralloc : gmap Z (pblk P) → Z) (malloc_size : Z → Z) (task_num : nat)
    (ops : esys_ops (P:=P) (C:=C) (T:=T)) (os : list (api P)) (tid : nat)
    (r r' : recoverable P C T) (e : Z) :
  epochs r !! tid = Some e →
  api_run ralloc malloc_size task_num ops os tid r = (Ret tt, r') →
  ∃ e', epochs r' !! tid = Some e' ∧ brackets (nonnull e) os = Some (nonnull e') ∧
    ∀ t, t ≠ tid → epochs r' !! t = epochs r !! t.
Proof.
  revert r e. unfold api_run. induction os as [|o os IH]; intros r e He Hr; simpl in *.
  { injection Hr as <-. by exists e. }
  unfold mbind_ in Hr. destruct (api_call ralloc malloc_size task_num ops o tid r) as [[[]|] r1] eqn:Hc; [|done].
  destruct (api_call_steps ralloc malloc_size task_num ops o tid r tt r1 e He Hc) as (e1 & He1 & Hb & Ho1).
  rewrite Hb. destruct (IH r1 e1 He1 Hr) as (e' & He' & Hbs & Ho). exists e'. split_and!; [done..|].
  intros t Ht. by rewrite Ho, Ho1.
Qed.

Import EpochSys.Example FixedCircBufferContainer PerEpochTransactionTracker.

Definition rec0 : recoverable Z (table (FixedBuffers.FixedCircBuffer.fcb Z)) (list Z) := new_recoverable 2 es0.
Definition blocking_ops := EpochSys_ops (P:=Z) (C:=table (FixedBuffers.FixedCircBuffer.fcb Z)) (T:=list Z)
  bump (λ _, 256) 2.

Definition api_example : list (api Z) :=
  [PNew (new_PBlk 5 0); BeginOp; POpenWrite 192; PNew (new_PBlk 6 0); AbortOp; BeginOp; PDelete 192; EndOp].

Lemma api_refines_brackets_witness :
  ∃ r', api_run bump (λ _, 256) 2 blocking_ops api_example 0 rec0 = (Ret tt, r') ∧
  ∃ e', epochs r' !! 0%nat = Some e' ∧ brackets (nonnull 0) api_example = Some (nonnull e') ∧
    ∀ t, t ≠ 0%nat → epochs r' !! t = epochs rec0 !! t.
Proof.
  assert (fst (api_run bump (λ _, 256) 2 blocking_ops api_example 0 rec0) = Ret tt) as H1
    by (vm_compute; reflexivity).
  destruct (api_run bump (λ _, 256) 2 blocking_ops api_example 0 rec0) as [o r'] eqn:H2.
  simpl in H1. subst o. exists r'. split; [done|].
  exact (api_refines_brackets bump (λ _, 256) 2 blocking_ops api_example 0 rec0 r' 0 eq_refl H2).
Defined.

(** ** Aborting an operation *)
Section abort.
Context {P C T : Type} `{!FixedContainer C, !Tracker T}.
Context (ralloc : gmap Z (pblk P) → Z) (malloc_size : Z → Z) (task_num : nat).
Notation esys := (esys P C T).

Definition reset (x : pblk P) : pblk P := set_blktype INIT (set_epoch NULL_EPOCH x).

Lemma reset_alloc_heap (b c : Z) (tid : nat) (s s' : esys) x :
  heap s !! b = Some x → get_data x = 0 → reset_alloc_pblk malloc_size b c tid s = (Ret tt, s') →
  heap s' = <[b := reset x]> (heap s).
Proof.
  intros Hx Hd. unfold reset_alloc_pblk, mbind_ at 1, mget. cbn [reset_alloc_loop].
  unfold modify_blk, read_blk, write_blk, massert, mbind_, mret_, mmod, mthrow. rewrite Hx. simpl.
  rewrite lookup_insert_eq. case_bool_decide; [|done]. simpl. rewrite lookup_insert_eq. simpl.
  match goal with |- context [tbp_register_persist_raw ?m ?b ?c ?t ?s1] =>
    destruct (tbp_register_persist_raw m b c t s1) as [[[]|] s2] eqn:E end; [|done].
  apply on_tbp_heap in E. rewrite Hd. simpl. intros [= <-]. rewrite E. simpl. by rewrite insert_insert_eq.
Qed.

Lemma reset_all_heap (bs : list Z) (c : Z) (tid : nat) : ∀ s s' : esys,
  (∀ b, b ∈ bs → ∃ x, heap s !! b = Some x ∧ get_data x = 0) →
  mfor bs (λ b, reset_alloc_pblk malloc_size b c tid) s = (Ret tt, s') →
  (∀ b x, b ∈ bs → heap s !! b = Some x → heap s' !! b = Some (reset x)) ∧
  (∀ b, b ∉ bs → heap s' !! b = heap s !! b).
Proof.
  induction bs as [|b bs IH]; intros s s' Hbs Hr; simpl in Hr.
  { injection Hr as <-. split; [set_solver|done]. }
  unfold mbind_ in Hr. destruct (reset_alloc_pblk malloc_size b c tid s) as [[[]|] s1] eqn:E; [|done].
  destruct (Hbs b) as (x & Hx & Hd); [by left|].
  pose proof (reset_alloc_heap b c tid s s1 x Hx Hd E) as Hh1.
  destruct (IH s1 s') as [Hin Hout].
  { intros b' Hb'. rewrite Hh1. destruct (decide (b = b')) as [<-|Hne].
    - exists (reset x). by rewrite lookup_insert_eq.
    - rewrite lookup_insert_ne by done. apply Hbs. by right. }
  { done. }
  split.
  - intros b' y Hb' Hy. destruct (decide (b = b')) as [<-|Hne].
    + rewrite Hx in Hy. injection Hy as <-. destruct (decide (b ∈ bs)) as [Hi|Hi].
      * rewrite (Hin b (reset x)); [done..|]. by rewrite Hh1, lookup_insert_eq.
      * rewrite Hout by done. by rewrite Hh1, lookup_insert_eq.
    + apply elem_of_cons in Hb' as [->|Hb']; [done|]. apply Hin; [done|]. by rewrite Hh1, lookup_insert_ne.
  - intros b' [Hne Hb']%not_elem_of_cons. rewrite Hout by done. by rewrite Hh1, lookup_insert_ne.
Qed.
End abort.

(** Aborting and retrying.  When [abort_op] of the blocking system returns,
    the allocations of the operation are still pending and each of them is
    back to the state [begin_op] asserts: no epoch, type INIT, id and payload
    kept; no other block has changed, the pending retirements are withdrawn,
    and the thread is outside an operation. *)
Theorem abort_op_resets_allocs {P C T} `{!FixedContainer C, !Tracker T}
    (ralloc : gmap Z (pblk P) → Z) (malloc_size : Z → Z) (task_num : nat)
    (tid : nat) (r r' : recoverable P C T) (bs : list Z) (c : Z) :
  epochs r !! tid = Some c → pending_allocs r !! tid = Some bs → is_Some (pending_retires r !! tid) →
  (∀ b, b ∈ bs → ∃ x, heap (es r) !! b = Some x ∧ get_data x = 0) →
  abort_op malloc_size (EpochSys_ops ralloc malloc_size task_num) tid r = (Ret tt, r') →
  epochs r' !! tid = Some NULL_EPOCH ∧ pending_allocs r' !! tid = Some bs ∧
  pending_retires r' !! tid = Some [] ∧
  (∀ b x, b ∈ bs → heap (es r) !! b = Some x → heap (es r') !! b = Some (reset x)) ∧
  (∀ b, b ∉ bs → heap (es r') !! b = heap (es r) !! b).
Proof.
  intros He Hb [rs Hrs] Hbs. unfold abort_op, get_local_epoch, get_retires, get_allocs, set_retires,
    set_local_epoch, on_es, massert, mbind_ at 1, mthrow, mget, mmod, mret_. rewrite He. unfold mbind_.
  destruct (negb _); [|done]. rewrite Hrs. simpl.
  assert (∀ l (s : esys P C T), mfor l (λ _ : Z * Z, λ s0, (Ret tt, s0)) s = (Ret tt, s)) as Hnop.
  { induction l as [|y l IH]; intros s; [done|]. simpl. unfold mbind_. apply IH. }
  unfold mret_ in Hnop |- *. rewrite Hnop. simpl. rewrite Hb. simpl.
  destruct (mfor bs _ (es r)) as [[[]|] s1] eqn:E; [|done]. simpl. intros [= <-]. simpl.
  destruct (reset_all_heap malloc_size bs c tid (es r) s1 Hbs E) as [H1 H2].
  split_and!; [| |by rewrite list_lookup_insert_eq; [|by eapply lookup_lt_Some]|done|done].
  - apply list_lookup_insert_eq. by eapply lookup_lt_Some.
  - done.
Qed.

(** The state after [PNew; BeginOp]. *)
Definition rec1 := (api_run bump (λ _, 256) 2 blocking_ops [PNew (new_PBlk 5 0); BeginOp] 0 rec0).2.

Lemma abort_op_resets_allocs_witness :
  ∃ r', abort_op (λ _, 256) blocking_ops 0 rec1 = (Ret tt, r') ∧
  epochs r' !! 0%nat = Some NULL_EPOCH ∧ pending_allocs r' !! 0%nat = Some [256] ∧
  pending_retires r' !! 0%nat = Some [] ∧
  (∀ b x, b ∈ [256] → heap (es rec1) !! b = Some x → heap (es r') !! b = Some (reset x)) ∧
  (∀ b, b ∉ [256] → heap (es r') !! b = heap (es rec1) !! b).
Proof.
  assert (fst (abort_op (λ _, 256) blocking_ops 0 rec1) = Ret tt) as H1 by (vm_compute; reflexivity).
  destruct (abort_op (λ _, 256) blocking_ops 0 rec1) as [o r'] eqn:H2. simpl in H1. subst o.
  exists r'. split; [done|].
  apply (abort_op_resets_allocs bump (λ _, 256) 2 0 rec1 r' [256] 10); [vm_compute; reflexivity..| | |exact H2].
  - eexists. vm_compute. reflexivity.
  - intros b Hb. apply list_elem_of_singleton in Hb as ->. eexists. split; [vm_compute; reflexivity|].
    reflexivity.
Defined.
