(* ===== verification/Versions.v ===== *)
(** * Versions of blocks and the crash images of the heap

    What the epoch system keeps in its heap for recovery, independently of how
    its operations compute it.  A tagged block is a version of its id
    ([ALLOC], [UPDATE]) or a deletion mark ([DELETE]); a version that was
    replaced or deleted waits for reclamation, and [K] records the epoch in
    which that happened.  So a version is live from its epoch up to the epoch in
    [K], and the heap contains the live payloads of the current epoch [g] and of
    the ends of epochs [g-1] and [g-2] at the same time: the list [H] of past
    generations.

    The first part shows that the changes the operations make to the heap keep
    this invariant; the second part that [EpochSys::recover] on any image a crash
    can leave returns the generation of epoch [g-2]. *)

From S2P Require Import Prelude Dcss EpochSys Recovery.

Section versions.
Context {P : Type}.
Implicit Types (h : gmap Z (pblk P)) (K : gmap Z Z) (L : gmap Z P) (H : list (gmap Z P)) (x y : pblk P).

Definition ver x : Prop := NULL_EPOCH < epoch x ∧ (blktype x = ALLOC ∨ blktype x = UPDATE).
Definition del x : Prop := NULL_EPOCH < epoch x ∧ blktype x = DELETE.

Lemma ver_del x : ver x → del x → False.
Proof. intros [_ [Hx|Hx]] [_ Hy]; congruence. Qed.

(** The payload [p] at [b] is live at the end of epoch [e]. *)
Definition gen_at h K (e b : Z) (p : P) : Prop :=
  ∃ x, h !! b = Some x ∧ ver x ∧ payload x = Some p ∧ epoch x ≤ e ∧ ∀ t, K !! b = Some t → e < t.

(** [pend] are the allocated but untagged blocks, [u] the next identifier. *)
Record versions (g u : Z) (pend : list Z) h K L H : Prop := {
  v_pend : ∀ b x, h !! b = Some x → b ∈ pend → epoch x = NULL_EPOCH ∧ id x = 0 ∧ K !! b = None;
  v_blk : ∀ b x, h !! b = Some x → b ∉ pend →
    (NULL_EPOCH < epoch x ≤ g ∧ 0 ≤ id x < u) ∧ (ver x ∨ del x ∧ ∃ t, K !! b = Some t ∧ epoch x ≤ t);
  v_live : ∀ b x, h !! b = Some x → ver x → K !! b = None → is_Some (L !! b);
  v_heap : ∀ b p, L !! b = Some p → K !! b = None ∧ ∃ x, h !! b = Some x ∧ payload x = Some p;
  v_dom : ∀ b t, K !! b = Some t → is_Some (h !! b);
  v_killed : ∀ b x t, h !! b = Some x → ver x → K !! b = Some t → epoch x < t ≤ g ∧
    ∃ b' x', h !! b' = Some x' ∧ id x' = id x ∧ epoch x' = t ∧ (ver x' ∨ del x');
  v_del : ∀ d y b x, h !! d = Some y → del y → h !! b = Some x → ver x → id x = id y →
    ∃ t, K !! b = Some t ∧ t ≤ epoch y;
  v_del1 : ∀ d y d' y', h !! d = Some y → del y → h !! d' = Some y' → del y' → id y = id y' → d = d';
  v_ver : ∀ b x b' x', h !! b = Some x → ver x → h !! b' = Some x' → ver x' → id x = id x' → b ≠ b' →
    epoch x ≠ epoch x' ∧ (epoch x < epoch x' → ∃ t, K !! b = Some t ∧ t ≤ epoch x') ∧
    (blktype x = ALLOC → epoch x < epoch x');
  v_gen : ∀ j b p, (j < 2)%nat → past H j !! b = Some p ↔ gen_at h K (g - 1 - Z.of_nat j) b p;
}.

(** ** The changes of the heap *)

Lemma versions_init g u : versions g u [] ∅ ∅ ∅ [].
Proof.
  constructor; try (intros *; rewrite ?lookup_empty; done).
  intros [|j] b p _; unfold past; simpl; rewrite lookup_empty; split; try done;
    intros (x & Hx & _); by rewrite lookup_empty in Hx.
Qed.

(** A tagged block is not pending. *)
Lemma versions_tagged g u pend h K L H b x :
  versions g u pend h K L H → h !! b = Some x → epoch x ≠ NULL_EPOCH → b ∉ pend.
Proof. intros Hv Hx He Hb. by destruct (v_pend _ _ _ _ _ _ _ Hv b x Hx Hb). Qed.
Lemma ver_tagged x : ver x → epoch x ≠ NULL_EPOCH.
Proof. intros [? _] ?. unfold NULL_EPOCH in *. lia. Qed.
Lemma del_tagged x : del x → epoch x ≠ NULL_EPOCH.
Proof. intros [? _] ?. unfold NULL_EPOCH in *. lia. Qed.

(** A fresh address carries no record. *)
Lemma versions_fresh g u pend h K L H b :
  versions g u pend h K L H → h !! b = None → K !! b = None ∧ L !! b = None.
Proof.
  intros Hv Hb. split.
  - destruct (K !! b) as [t|] eqn:Ht; [|done]. apply (v_dom _ _ _ _ _ _ _ Hv) in Ht as [? ?]. congruence.
  - destruct (L !! b) as [p|] eqn:Hp; [|done]. apply (v_heap _ _ _ _ _ _ _ Hv) in Hp as (_ & ? & ? & _). congruence.
Qed.

(** An untagged block [b] is put in place of nothing or of an untagged block:
    no version changes. *)
Lemma gen_at_insert h K e b b' x p :
  (∀ y, h !! b = Some y → ¬ ver y ∨ e < epoch y) → ¬ ver x ∨ e < epoch x →
  gen_at (<[b := x]> h) K e b' p ↔ gen_at h K e b' p.
Proof.
  intros Hy Hx. destruct (decide (b = b')) as [<-|Hne].
  - split; intros (y & Hb & Hv & Hp & He & Hk).
    + rewrite lookup_insert_eq in Hb. injection Hb as <-. exfalso. destruct Hx; [done|lia].
    + exfalso. destruct (Hy y Hb); [done|lia].
  - unfold gen_at. by rewrite lookup_insert_ne.
Qed.

Lemma untagged_not_ver x : epoch x = NULL_EPOCH → ¬ ver x.
Proof. intros He [? _]. unfold NULL_EPOCH in *. lia. Qed.
Lemma untagged_not_del x : epoch x = NULL_EPOCH → ¬ del x.
Proof. intros He [? _]. unfold NULL_EPOCH in *. lia. Qed.

Ltac ins := repeat match goal with
  | Hx : <[?b := _]> _ !! ?b = Some _ |- _ => rewrite lookup_insert_eq in Hx; injection Hx as <-
  | Hx : <[_ := _]> _ !! _ = Some _ |- _ => apply lookup_insert_Some in Hx as [[<- <-]|[? Hx]]
  | Hx : delete _ _ !! _ = Some _ |- _ => apply lookup_delete_Some in Hx as [? Hx]
  end.

(** [pnew], and a change of a block that is not tagged yet *)
Lemma versions_pend g u (pend pend' : list Z) h K L H b x p :
  versions g u pend h K L H → h !! b = None ∨ b ∈ pend → (∀ a, a ∈ pend' ↔ a ∈ pend ∨ a = b) →
  epoch x = NULL_EPOCH → id x = 0 → payload x = Some p →
  versions g u pend' (<[b := x]> h) K (<[b := p]> L) H.
Proof.
  intros Hv Hb Hp He Hi Hpay. pose proof (untagged_not_ver x He) as Hnv. pose proof (untagged_not_del x He) as Hnd.
  assert (∀ y, h !! b = Some y → epoch y = NULL_EPOCH ∧ K !! b = None) as Hold.
  { intros y Hy. destruct Hb as [|Hb]; [congruence|]. by destruct (v_pend _ _ _ _ _ _ _ Hv b y Hy Hb) as (? & _ & ?). }
  assert (K !! b = None) as HKb.
  { destruct (h !! b) as [y|] eqn:Hy; [by apply (Hold y)|by apply (versions_fresh _ _ _ _ _ _ _ _ Hv)]. }
  destruct Hv as [V1 V2 V3 V4 V5 V6 V7 V8 V9 V10]. constructor.
  - intros a y Ha Hin. ins; [done|]. apply (V1 a); [done|]. by apply Hp in Hin as [?| ->].
  - intros a y Ha Hin. ins; [exfalso; apply Hin, Hp; auto|]. apply V2; [done|]. intros ?. apply Hin, Hp. auto.
  - intros a y Ha Hvy Hk. ins; [done|]. rewrite lookup_insert_ne by done. by eapply V3.
  - intros a q Ha. ins; [split; [done|]; exists x; by rewrite lookup_insert_eq|].
    rewrite lookup_insert_ne by done. by apply V4.
  - intros a t Ha. rewrite lookup_insert. case_decide; [done|by eapply V5].
  - intros a y t Ha Hvy Hk. ins; [done|]. destruct (V6 a y t Ha Hvy Hk) as (? & b' & x' & Hb' & Hid & Het & Hvd).
    split; [done|]. exists b', x'. rewrite lookup_insert_ne; [done|]. intros <-.
    destruct (Hold x' Hb') as [Hex _]. destruct Hvd as [[? _]|[? _]]; unfold NULL_EPOCH in *; lia.
  - intros d y a z Hd Hdy Ha Hvz Hid. ins; try done. by eapply V7.
  - intros d y d' y' Hd Hdy Hd' Hdy' Hid. ins; try done. by eapply V8.
  - intros a y a' y' Ha Hvy Ha' Hvy' Hid Hne. ins; try done. by apply (V9 a y a' y').
  - intros j a q Hj. rewrite V10 by done. symmetry. apply gen_at_insert; [|by left].
    intros y Hy. left. apply untagged_not_ver. by apply (Hold y).
Qed.

(** [pdelete] of a block that is not tagged yet. *)
Lemma versions_unpend g u (pend pend' : list Z) h K L H b x :
  versions g u pend h K L H → h !! b = Some x → b ∈ pend → (∀ a, a ∈ pend' ↔ a ∈ pend ∧ a ≠ b) →
  versions g u pend' (delete b h) K (delete b L) H.
Proof.
  intros Hv Hx Hb Hp. destruct (v_pend _ _ _ _ _ _ _ Hv b x Hx Hb) as (He & _ & HKb).
  pose proof (untagged_not_ver x He) as Hnv. pose proof (untagged_not_del x He) as Hnd.
  destruct Hv as [V1 V2 V3 V4 V5 V6 V7 V8 V9 V10]. constructor.
  - intros a y Ha [Hin _]%Hp. ins. by apply (V1 a).
  - intros a y Ha Hin. ins. apply V2; [done|]. intros ?. by apply Hin, Hp.
  - intros a y Ha Hvy Hk. ins. rewrite lookup_delete_ne by done. by eapply V3.
  - intros a q Ha. ins. rewrite lookup_delete_ne by done. by apply V4.
  - intros a t Ha. rewrite lookup_delete_ne by congruence. by eapply V5.
  - intros a y t Ha Hvy Hk. ins. destruct (V6 a y t Ha Hvy Hk) as (? & c & z & Hc & Hid & Het & Hvd).
    split; [done|]. exists c, z. rewrite lookup_delete_ne; [done|]. intros <-. simplify_eq. by destruct Hvd.
  - intros d y a z Hd Hdy Ha Hvz Hid. ins. by eapply V7.
  - intros d y d' y' Hd Hdy Hd' Hdy' Hid. ins. by eapply V8.
  - intros a y a' y' Ha Hvy Ha' Hvy' Hid Hne. ins. by apply (V9 a y a' y').
  - intros j a q Hj. rewrite V10 by done. unfold gen_at. split; intros (y & Hy & Hvy & Hrest); exists y.
    + rewrite lookup_delete_ne; [done|]. intros <-. by simplify_eq.
    + by ins.
Qed.

(** [register_alloc_pblk]: a pending block is tagged and gets the next id. *)
Lemma versions_register g u (pend : list Z) h K L H b x x' :
  versions g u (b :: pend) h K L H → b ∉ pend → NULL_EPOCH < g → 0 ≤ u → h !! b = Some x → is_Some (L !! b) →
  epoch x' = g → blktype x' = ALLOC → id x' = u → payload x' = payload x →
  versions g (u + 1) pend (<[b := x']> h) K L H.
Proof.
  intros Hv Hbp Hg Hu Hx [p HLb] He Ht Hi Hpay.
  destruct (v_pend _ _ _ _ _ _ _ Hv b x Hx) as (Hex & _ & HKb); [set_solver|].
  pose proof (untagged_not_ver x Hex) as Hnv. pose proof (untagged_not_del x Hex) as Hnd.
  assert (ver x') as Hvx' by (split; [by rewrite He|by left]).
  assert (∀ a y, a ≠ b → h !! a = Some y → ver y ∨ del y → 0 ≤ id y < u ∧ epoch y ≤ g) as Hids.
  { intros a y Hab Ha Hvd. destruct (v_blk _ _ _ _ _ _ _ Hv a y Ha) as [[? ?] _]; [|lia].
    eapply (versions_tagged _ _ _ _ _ _ _ _ _ Hv); [exact Ha|].
    destruct Hvd; [by apply ver_tagged|by apply del_tagged]. }
  pose proof Hv as [V1 V2 V3 V4 V5 V6 V7 V8 V9 V10]. constructor.
  - intros a y Ha Hin. ins; [done|]. apply (V1 a); [done|set_solver].
  - intros a y Ha Hin. ins; [split; [lia|by left]|]. destruct (V2 a y Ha) as [[? ?] ?]; [set_solver|].
    split; [|done]. lia.
  - intros a y Ha Hvy Hk. ins; [done|]. by eapply V3.
  - intros a q Ha. destruct (V4 a q Ha) as [? (y & Hy & Hp)]. split; [done|].
    rewrite lookup_insert. case_decide; [|by exists y]. subst. exists x'. simplify_eq. by rewrite Hpay.
  - intros a t Ha. rewrite lookup_insert. case_decide; [done|by eapply V5].
  - intros a y t Ha Hvy Hk. ins; [congruence|]. destruct (V6 a y t Ha Hvy Hk) as (? & b' & z & Hb' & Hid & Het & Hvd).
    split; [done|]. exists b', z. rewrite lookup_insert_ne; [done|]. intros <-. simplify_eq. by destruct Hvd.
  - intros d y a z Hd Hdy Ha Hvz Hid. ins; try (by destruct (ver_del x')).
    + destruct (Hids d y) as [? _]; [done|done|by right|]. lia.
    + by eapply V7.
  - intros d y d' y' Hd Hdy Hd' Hdy' Hid. ins; try (by destruct (ver_del x')). by eapply V8.
  - intros a y a' y' Ha Hvy Ha' Hvy' Hid Hne. ins; try done.
    + destruct (Hids a y) as [? _]; [done|done|by left|]. lia.
    + destruct (Hids a' y') as [? _]; [done|done|by left|]. lia.
    + by apply (V9 a y a' y').
  - intros j a q Hj. rewrite V10 by done. symmetry. apply gen_at_insert; [|right; lia].
    intros y Hy. left. simplify_eq. done.
Qed.

(** An in-place update of a block of the current epoch. *)
Lemma versions_write g u h K L H b x x' p :
  versions g u [] h K L H → h !! b = Some x → ver x → K !! b = None → epoch x = g →
  epoch x' = g → blktype x' = blktype x → id x' = id x → payload x' = Some p →
  versions g u [] (<[b := x']> h) K (<[b := p]> (delete b L)) H.
Proof.
  intros Hv Hx Hvx HK Heg He Ht Hi Hp.
  assert (ver x') as Hvx' by (destruct Hvx as [? ?]; split; [lia|by rewrite Ht]).
  pose proof Hv as [V1 V2 V3 V4 V5 V6 V7 V8 V9 V10]. constructor.
  - set_solver.
  - intros a y Ha Hin. ins; [|by apply V2]. destruct (V2 b x Hx (not_elem_of_nil _)) as [[? ?] _]. rewrite Hi. split; [lia|by left].
  - intros a y Ha Hvy Hk. ins; [by rewrite lookup_insert_eq|]. rewrite lookup_insert_ne, lookup_delete_ne by done.
    by eapply V3.
  - intros a q Ha. ins; [split; [done|]; exists x'; by rewrite lookup_insert_eq|].
    rewrite lookup_insert_ne by done. by apply V4.
  - intros a t Ha. rewrite lookup_insert. case_decide; [done|by eapply V5].
  - intros a y t Ha Hvy Hk. ins; [congruence|]. destruct (V6 a y t Ha Hvy Hk) as (? & b' & z & Hb' & Hid & Het & Hvd).
    split; [done|]. destruct (decide (b = b')) as [<-|Hne].
    + rewrite Hx in Hb'. injection Hb' as <-. exists b, x'. rewrite lookup_insert_eq.
      split; [done|]. split; [congruence|]. split; [lia|by left].
    + exists b', z. by rewrite lookup_insert_ne.
  - intros d y a z Hd Hdy Ha Hvz Hid. ins; try (by destruct (ver_del x')).
    + apply (V7 d y b x); [done|done|done|done|congruence].
    + by eapply V7.
  - intros d y d' y' Hd Hdy Hd' Hdy' Hid. ins; try (by destruct (ver_del x')). by eapply V8.
  - intros a y a' y' Ha Hvy Ha' Hvy' Hid Hne. ins; try done.
    + rewrite He. destruct (V9 a y b x) as (? & ? & ?); [done..|congruence|done|]. by rewrite Heg in *.
    + rewrite He, Ht. destruct (V9 b x a' y') as (? & ? & ?); [done..|congruence|done|]. by rewrite Heg in *.
    + by apply (V9 a y a' y').
  - intros j a q Hj. rewrite V10 by done. symmetry. apply gen_at_insert; [|right; lia].
    intros y Hy. simplify_eq. right. lia.
Qed.

Lemma gen_at_kill h K e b t a p :
  K !! b = None → e < t → gen_at h (<[b := t]> K) e a p ↔ gen_at h K e a p.
Proof.
  intros HK Het. unfold gen_at. split; intros (y & Hy & Hv & Hp & He & Hk); exists y; split_and!; try done; intros t'.
  - intros Ht. apply Hk. by rewrite lookup_insert_ne by congruence.
  - intros Ht. ins; [lia|by apply Hk].
Qed.

Lemma gen_at_delete h K e b x a p :
  h !! b = Some x → e < epoch x → gen_at (delete b h) K e a p ↔ gen_at h K e a p.
Proof.
  intros Hx Hlt. unfold gen_at. split; intros (y & Hy & Hv & Hp & He & Hk); exists y; split_and!; try done.
  - by ins.
  - rewrite lookup_delete_ne; [done|]. intros <-. simplify_eq. lia.
Qed.

(** The versions of the id of a live block: they are older and replaced, and
    there is no deletion mark. *)
Lemma versions_older g u pend h K L H b x :
  versions g u pend h K L H → h !! b = Some x → ver x → K !! b = None →
  (∀ d y, h !! d = Some y → del y → id y ≠ id x) ∧
  ∀ a y, h !! a = Some y → ver y → id y = id x → a ≠ b → epoch y < epoch x ∧ ∃ t, K !! a = Some t ∧ t ≤ epoch x.
Proof.
  intros Hv Hx Hvx HK. split.
  - intros d y Hd Hdy Hid. destruct (v_del _ _ _ _ _ _ _ Hv d y b x) as (t & ? & _); [done..|]. congruence.
  - intros a y Ha Hvy Hid Hne.
    destruct (v_ver _ _ _ _ _ _ _ Hv b x a y) as (Hd & Hlt & _); [done..|].
    destruct (v_ver _ _ _ _ _ _ _ Hv a y b x) as (_ & Hlt' & _); [done..|].
    assert (epoch y < epoch x); [|by auto]. destruct (decide (epoch x < epoch y)) as [Hl|]; [|lia].
    destruct (Hlt Hl) as (t & ? & _). congruence.
Qed.

(** Copy-on-write: the block is replaced by a new version in epoch [g]. *)
Lemma versions_copy g u h K L H b x b' x' p :
  versions g u [] h K L H → h !! b = Some x → ver x → K !! b = None → epoch x < g → h !! b' = None →
  epoch x' = g → blktype x' = UPDATE → id x' = id x → payload x' = Some p →
  versions g u [] (<[b' := x']> h) (<[b := g]> K) (<[b' := p]> (delete b L)) H.
Proof.
  intros Hv Hx Hvx HK Hlt Hb' He Ht Hi Hp.
  assert (ver x') as Hvx' by (destruct Hvx as [? ?]; split; [lia|by right]).
  destruct (versions_older _ _ _ _ _ _ _ _ _ Hv Hx Hvx HK) as [Hnodel Hold].
  destruct (versions_fresh _ _ _ _ _ _ _ _ Hv Hb') as [HKb' HLb'].
  assert (b ≠ b') as Hbb by congruence.
  pose proof Hv as [V1 V2 V3 V4 V5 V6 V7 V8 V9 V10]. constructor.
  - set_solver.
  - intros a y Ha Hin. ins.
    { destruct (V2 b x Hx (not_elem_of_nil _)) as [[? ?] _]. rewrite Hi, He. split; [lia|by left]. }
    destruct (V2 a y Ha Hin) as [? [?|[? (t & ? & ?)]]]; (split; [done|]); [by left|right].
    split; [done|]. exists t. rewrite lookup_insert_ne by congruence. done.
  - intros a y Ha Hvy Hk. apply lookup_insert_None in Hk as [Hk Hab]. ins; [by rewrite lookup_insert_eq|].
    rewrite lookup_insert_ne, lookup_delete_ne by done. by eapply V3.
  - intros a q Ha. ins.
    + rewrite lookup_insert_ne by done. split; [done|]. exists x'. by rewrite lookup_insert_eq.
    + rewrite !lookup_insert_ne by done. by apply V4.
  - intros a t Ha. rewrite lookup_insert. case_decide; [done|]. ins; [by eexists|by eapply V5].
  - intros a y t Ha Hvy Hk. ins; try congruence.
    + split; [simplify_eq; lia|]. exists b', x'. rewrite lookup_insert_eq. simplify_eq. auto.
    + destruct (V6 a y t Ha Hvy Hk) as (? & c & z & Hc & Hid & Het & Hvd). split; [done|]. exists c, z.
      by rewrite lookup_insert_ne by congruence.
  - intros d y a z Hd Hdy Ha Hvz Hid. ins; try (by destruct (ver_del x')).
    + destruct (Hnodel d y); [done|done|congruence].
    + destruct (V7 d y a z Hd Hdy Ha Hvz Hid) as (t & ? & ?). exists t. rewrite lookup_insert_ne by congruence. done.
  - intros d y d' y' Hd Hdy Hd' Hdy' Hid. ins; try (by destruct (ver_del x')). by eapply V8.
  - intros a y a' y' Ha Hvy Ha' Hvy' Hid Hne. ins; try done.
    + rewrite He. destruct (decide (a = b)) as [->|Hab].
      { simplify_eq. split; [lia|]. split; [|done]. intros _. exists (epoch x'). by rewrite lookup_insert_eq. }
      destruct (Hold a y) as (? & t & ? & ?); [done|done|congruence|done|].
      split; [lia|]. split; [|lia]. intros _. exists t. rewrite lookup_insert_ne by done. split; [done|lia].
    + rewrite He. assert (epoch y' < g) as Hlt'.
      { destruct (decide (a' = b)) as [->|Hab]; [simplify_eq; lia|].
        destruct (Hold a' y') as (? & _); [done|done|congruence|done|lia]. }
      split; [lia|]. split; [lia|]. by rewrite Ht.
    + destruct (V9 a y a' y') as (Hd & Hl & Hal); [done..|]. split; [done|]. split; [|done]. intros Hlt'.
      destruct (Hl Hlt') as (t & ? & ?). exists t. rewrite lookup_insert_ne by congruence. done.
  - intros j a q Hj. rewrite V10 by done. rewrite gen_at_insert; [by rewrite gen_at_kill by (done || lia)| |right; lia].
    intros y Hy. congruence.
Qed.

(** Deletion of a block allocated in the same epoch: it is deallocated. *)
Lemma versions_drop g u h K L H b x :
  versions g u [] h K L H → h !! b = Some x → blktype x = ALLOC → epoch x = g → NULL_EPOCH < g → K !! b = None →
  versions g u [] (delete b h) K (delete b L) H.
Proof.
  intros Hv Hx Ht He Hg HK. assert (ver x) as Hvx by (split; [lia|by left]).
  destruct (versions_older _ _ _ _ _ _ _ _ _ Hv Hx Hvx HK) as [Hnodel Hold].
  assert (∀ a y, h !! a = Some y → ver y → id y = id x → a = b) as Honly.
  { intros a y Ha Hvy Hid. destruct (decide (a = b)) as [|Hne]; [done|exfalso].
    destruct (Hold a y) as [? _]; [done..|].
    destruct (v_ver _ _ _ _ _ _ _ Hv b x a y) as (_ & _ & Hal); [done..|]. specialize (Hal Ht). lia. }
  pose proof Hv as [V1 V2 V3 V4 V5 V6 V7 V8 V9 V10]. constructor.
  - set_solver.
  - intros a y Ha Hin. ins. by apply V2.
  - intros a y Ha Hvy Hk. ins. rewrite lookup_delete_ne by done. by eapply V3.
  - intros a q Ha. ins. rewrite lookup_delete_ne by done. by apply V4.
  - intros a t Ha. rewrite lookup_delete_ne by congruence. by eapply V5.
  - intros a y t Ha Hvy Hk. ins. destruct (V6 a y t Ha Hvy Hk) as (? & c & z & Hc & Hid & Het & Hvd).
    split; [done|]. exists c, z. rewrite lookup_delete_ne; [done|]. intros <-. simplify_eq.
    destruct (Honly a y); done.
  - intros d y a z Hd Hdy Ha Hvz Hid. ins. by eapply V7.
  - intros d y d' y' Hd Hdy Hd' Hdy' Hid. ins. by eapply V8.
  - intros a y a' y' Ha Hvy Ha' Hvy' Hid Hne. ins. by apply (V9 a y a' y').
  - intros j a q Hj. rewrite V10 by done. symmetry. eapply gen_at_delete; [done|lia].
Qed.

(** Deletion of a block updated in the same epoch: it becomes the mark. *)
Lemma versions_mark g u h K L H b x x' :
  versions g u [] h K L H → h !! b = Some x → ver x → K !! b = None → epoch x = g →
  epoch x' = g → blktype x' = DELETE → id x' = id x →
  versions g u [] (<[b := x']> h) (<[b := g]> K) (delete b L) H.
Proof.
  intros Hv Hx Hvx HK Heg He Ht Hi.
  assert (del x') as Hdx' by (destruct Hvx as [? ?]; split; [lia|done]).
  destruct (versions_older _ _ _ _ _ _ _ _ _ Hv Hx Hvx HK) as [Hnodel Hold].
  pose proof Hv as [V1 V2 V3 V4 V5 V6 V7 V8 V9 V10]. constructor.
  - set_solver.
  - intros a y Ha Hin. ins.
    { destruct (V2 b x Hx (not_elem_of_nil _)) as [[? ?] _]. rewrite Hi, He. split; [lia|]. right. split; [done|].
      exists g. rewrite lookup_insert_eq. split; [done|lia]. }
    destruct (V2 a y Ha Hin) as [? [?|[? (t & ? & ?)]]]; (split; [done|]); [by left|right].
    split; [done|]. exists t. rewrite lookup_insert_ne by congruence. done.
  - intros a y Ha Hvy Hk. apply lookup_insert_None in Hk as [Hk Hab]. ins; [done|]. rewrite lookup_delete_ne by done.
    by eapply V3.
  - intros a q Ha. ins. rewrite !lookup_insert_ne by done. by apply V4.
  - intros a t Ha. rewrite lookup_insert. case_decide; [done|]. ins; [done|by eapply V5].
  - intros a y t Ha Hvy Hk. ins; try done; try congruence; try (by destruct (ver_del x')).
    destruct (V6 a y t Ha Hvy Hk) as (? & c & z & Hc & Hid & Het & Hvd). split; [done|].
    destruct (decide (c = b)) as [->|Hcb].
    + simplify_eq. exists b, x'. rewrite lookup_insert_eq. split; [done|]. split; [congruence|]. split; [lia|by right].
    + exists c, z. by rewrite lookup_insert_ne.
  - intros d y a z Hd Hdy Ha Hvz Hid. ins; try (by destruct (ver_del x')).
    + destruct (Hold a z) as (? & t & ? & ?); [done|done|congruence|done|].
      exists t. rewrite lookup_insert_ne by done. split; [done|lia].
    + destruct (V7 d y a z Hd Hdy Ha Hvz Hid) as (t & ? & ?). exists t. rewrite lookup_insert_ne by congruence. done.
  - intros d y d' y' Hd Hdy Hd' Hdy' Hid. ins; [done|exfalso|exfalso|by eapply V8].
    + by apply (Hnodel d y); [..|congruence].
    + by apply (Hnodel d' y'); [..|congruence].
  - intros a y a' y' Ha Hvy Ha' Hvy' Hid Hne. ins; try (by destruct (ver_del x')).
    destruct (V9 a y a' y') as (Hd & Hl & Hal); [done..|]. split; [done|]. split; [|done]. intros Hlt'.
    destruct (Hl Hlt') as (t & ? & ?). exists t. rewrite lookup_insert_ne by congruence. done.
  - intros j a q Hj. rewrite V10 by done. rewrite gen_at_insert.
    + rewrite gen_at_kill by (done || lia). done.
    + intros y Hy. simplify_eq. right. lia.
    + left. by intros ?; destruct (ver_del x').
Qed.

(** Deletion of an older block: a mark is allocated, both will be reclaimed. *)
Lemma versions_anti g u h K L H b x d y :
  versions g u [] h K L H → h !! b = Some x → ver x → K !! b = None → epoch x < g → h !! d = None →
  epoch y = g → blktype y = DELETE → id y = id x →
  versions g u [] (<[d := y]> h) (<[b := g]> (<[d := g + 1]> K)) (delete b L) H.
Proof.
  intros Hv Hx Hvx HK Hlt Hd He Ht Hi.
  assert (del y) as Hdy by (destruct Hvx as [? ?]; split; [lia|done]).
  destruct (versions_older _ _ _ _ _ _ _ _ _ Hv Hx Hvx HK) as [Hnodel Hold].
  destruct (versions_fresh _ _ _ _ _ _ _ _ Hv Hd) as [HKd HLd]. assert (b ≠ d) as Hbd by congruence.
  assert (∀ a z t, h !! a = Some z → a ≠ b → K !! a = Some t → <[b := g]> (<[d := g + 1]> K) !! a = Some t) as HKo.
  { intros a z t Ha Hab Hk. by rewrite !lookup_insert_ne by congruence. }
  pose proof Hv as [V1 V2 V3 V4 V5 V6 V7 V8 V9 V10]. constructor.
  - set_solver.
  - intros a z Ha Hin. ins.
    { destruct (V2 b x Hx (not_elem_of_nil _)) as [[? ?] _]. rewrite Hi, He. split; [lia|]. right. split; [done|].
      exists (g + 1). rewrite lookup_insert_ne, lookup_insert_eq by done. split; [done|lia]. }
    destruct (V2 a z Ha Hin) as [? [?|[? (t & ? & ?)]]]; (split; [done|]); [by left|right].
    split; [done|]. exists t. split; [|done]. by eapply HKo; [|congruence|].
  - intros a z Ha Hvz Hk. rewrite !lookup_insert_None in Hk. destruct Hk as [[Hk ?] Hab]. ins; [done|].
    rewrite lookup_delete_ne by done. by eapply V3.
  - intros a q Ha. ins. destruct (V4 a q Ha) as (HKa & z & Hz & Hpz).
    rewrite !lookup_insert_ne by congruence. split; [done|]. by exists z.
  - intros a t Ha. rewrite lookup_insert. case_decide; [done|]. ins; [by eexists|done|by eapply V5].
  - intros a z t Ha Hvz Hk. ins; try done; try congruence; try (by destruct (ver_del y)).
    + simplify_eq. split; [lia|]. exists d, y. rewrite lookup_insert_eq. auto.
    + destruct (V6 a z t Ha Hvz Hk) as (? & c & w & Hc & Hid & Het & Hvd). split; [done|]. exists c, w.
      by rewrite lookup_insert_ne by congruence.
  - intros d' y' a z Hd' Hdy' Ha Hvz Hid. ins; try (by destruct (ver_del y)).
    + destruct (decide (a = b)) as [->|Hab]; [exists g; rewrite lookup_insert_eq; split; [done|lia]|].
      destruct (Hold a z) as (? & t & ? & ?); [done|done|congruence|done|].
      exists t. split; [by eapply HKo|lia].
    + destruct (V7 d' y' a z Hd' Hdy' Ha Hvz Hid) as (t & ? & ?). exists t. split; [|done].
      by eapply HKo; [|congruence|].
  - intros d1 y1 d2 y2 Hd1 Hdy1 Hd2 Hdy2 Hid. ins; [done|exfalso|exfalso|by eapply V8].
    + by apply (Hnodel d1 y1); [..|congruence].
    + by apply (Hnodel d2 y2); [..|congruence].
  - intros a z a' z' Ha Hvz Ha' Hvz' Hid Hne. ins; try (by destruct (ver_del y)).
    destruct (V9 a z a' z') as (Hdf & Hl & Hal); [done..|]. split; [done|]. split; [|done]. intros Hlt'.
    destruct (Hl Hlt') as (t & ? & ?). exists t. split; [|done]. by eapply HKo; [|congruence|].
  - intros j a q Hj. rewrite V10 by done. rewrite gen_at_insert.
    + rewrite (gen_at_kill _ (<[d := g + 1]> K)) by (rewrite ?lookup_insert_ne by done; done || lia).
      by rewrite gen_at_kill by (done || lia).
    + congruence.
    + left. by intros ?; destruct (ver_del y).
Qed.

(** Reclamation in epoch [g]: what was replaced or deleted in epoch [g-2] or
    earlier leaves the heap. *)
Lemma versions_reclaim g u pend h h' K L H (l : list Z) :
  versions g u pend h K L H →
  (∀ b, b ∈ l → h' !! b = None) → (∀ b, b ∉ l → h' !! b = h !! b) →
  (∀ b t, K !! b = Some t → b ∈ l ↔ t ≤ g - 2) → (∀ b, b ∈ l → is_Some (K !! b)) →
  versions g u pend h' (filter (λ bt, bt.1 ∉ l) K) L H.
Proof.
  intros Hv Hn Hs HK Hl. set (K' := filter _ K).
  assert (∀ b t, K' !! b = Some t ↔ K !! b = Some t ∧ b ∉ l) as HK'.
  { intros b t. unfold K'. by rewrite map_lookup_filter_Some. }
  assert (∀ b, b ∉ l → K' !! b = K !! b) as HKo.
  { intros b Hb. apply option_eq. intros t. rewrite HK'. tauto. }
  assert (∀ b x, h' !! b = Some x → b ∉ l ∧ h !! b = Some x) as Hh.
  { intros b x Hx. assert (b ∉ l) as Hb by (intros Hb; by rewrite Hn in Hx). by rewrite <- Hs. }
  destruct Hv as [V1 V2 V3 V4 V5 V6 V7 V8 V9 V10]. constructor.
  - intros b x [Hb Hx]%Hh Hin. rewrite HKo by done. by apply V1.
  - intros b x [Hb Hx]%Hh Hin. rewrite HKo by done. by apply V2.
  - intros b x [Hb Hx]%Hh Hvx Hk. rewrite HKo in Hk by done. by eapply V3.
  - intros b p HL. destruct (V4 b p HL) as (HKb & x & Hx & Hp).
    assert (b ∉ l) as Hb by (intros Hb; destruct (Hl b Hb); congruence).
    rewrite HKo, Hs by done. split; [done|]. by exists x.
  - intros b t [Ht Hb]%HK'. rewrite Hs by done. by eapply V5.
  - intros b x t [Hb Hx]%Hh Hvx [Ht _]%HK'. destruct (V6 b x t Hx Hvx Ht) as (Het & b' & x' & Hx' & Hid & He & Hvd).
    split; [done|]. exists b', x'. rewrite Hs; [done|]. intros Hb'. apply Hb, (HK b t Ht).
    destruct (Hl b' Hb') as [t' Ht']. apply (HK b' t' Ht') in Hb'. destruct Hvd as [Hvx'|Hdx'].
    + destruct (V6 b' x' t' Hx' Hvx' Ht') as [? _]. lia.
    + destruct (V2 b' x' Hx') as [_ [?|[_ (t2 & Ht2 & ?)]]]; [|by destruct (ver_del x')|].
      * intros Hp. destruct (V1 b' x' Hx' Hp) as [? _]. by apply (del_tagged x').
      * simplify_eq. lia.
  - intros d y b x [_ Hd]%Hh Hdy [Hb Hx]%Hh Hvx Hid. rewrite HKo by done. by eapply V7.
  - intros d y d' y' [_ Hd]%Hh Hdy [_ Hd']%Hh. by eapply V8.
  - intros b x b' x' [Hb Hx]%Hh Hvx [Hb' Hx']%Hh. rewrite (HKo b) by done. by apply V9.
  - intros j b p Hj. rewrite V10 by done. unfold gen_at. split; intros (x & Hx & Hvx & Hp & He & Hk).
    + exists x. assert (b ∉ l) as Hb.
      { intros Hb. destruct (Hl b Hb) as [t Ht]. specialize (Hk t Ht). apply (HK b t Ht) in Hb. lia. }
      rewrite Hs, HKo by done. by split_and!.
    + apply Hh in Hx as [Hb Hx]. rewrite HKo in Hk by done. by exists x.
Qed.

(** The epoch advances: the live payloads become a past generation. *)
Lemma versions_advance g u h K L H :
  versions g u [] h K L H → versions (g + 1) u [] h K L (L :: H).
Proof.
  intros Hv. pose proof Hv as [V1 V2 V3 V4 V5 V6 V7 V8 V9 V10]. constructor; try done.
  - intros b x Hx Hin. destruct (V2 b x Hx Hin) as [[? ?] ?]. split; [lia|done].
  - intros b x t Hx Hvx Ht. destruct (V6 b x t Hx Hvx Ht) as [? ?]. split; [lia|done].
  - intros [|j] b p Hj; unfold past; simpl.
    + rewrite Z.sub_0_r, Z.add_simpl_r. split.
      * intros HL. destruct (V4 b p HL) as (HKb & x & Hx & Hp).
        destruct (V2 b x Hx) as [[? ?] [?|[_ (t & ? & _)]]]; [set_solver| |congruence].
        exists x. split_and!; try done; [lia|]. intros t. congruence.
      * intros (x & Hx & Hvx & Hp & _ & Hk). destruct (K !! b) as [t|] eqn:Ht.
        { destruct (V6 b x t Hx Hvx Ht) as [? _]. specialize (Hk t eq_refl). lia. }
        destruct (V3 b x Hx Hvx Ht) as [p' Hp']. destruct (V4 b p' Hp') as (_ & x' & ? & ?). by simplify_eq.
    + fold (past H j). rewrite V10 by lia. by replace (g + 1 - 1 - Z.of_nat (S j)) with (g - 1 - Z.of_nat j) by lia.
Qed.
End versions.

(** ** Crash images

    A block as recovery reads it when its contents have reached memory. *)
Definition rblk_of {P} (b : Z) (x : pblk P) : rblk := Rblk b (epoch x) (blktype x) (id x) (tid_sn x) 0 false.

(** The image [I] that a crash in epoch [g] can leave of the heap [h]: the epoch
    container holds [g]; transient descriptors may be left over; every block of
    epoch [g-2] or earlier has been written back; of a younger block, or one
    that was never tagged, the header may have any type, and its epoch may
    still be the one of fresh memory. *)
Record crash_image {P} (g : Z) (h : gmap Z (pblk P)) (I : list rblk) : Prop := {
  ci_container : ∃ c, c ∈ I ∧ r_type c = EPOCH;
  ci_system : ∀ r, r ∈ I → r_type r = EPOCH ∨ r_type r = DESC →
    r_epoch r = NULL_EPOCH ∧ (r_type r = EPOCH → r_global r = g);
  ci_old : ∀ b x, h !! b = Some x → NULL_EPOCH < epoch x ≤ g - 2 → rblk_of b x ∈ I;
  ci_block : ∀ r, r ∈ I → r_type r ≠ EPOCH → r_type r ≠ DESC →
    ∃ x, h !! r_addr r = Some x ∧ r_id r = id x ∧ (r_epoch r = NULL_EPOCH ∨ r_epoch r = epoch x) ∧
      (NULL_EPOCH < r_epoch r ≤ g - 2 → r = rblk_of (r_addr r) x);
}.

(** The image of a heap in which everything has been written back. *)
Definition full_image {P} (g : Z) (h : gmap Z (pblk P)) : list rblk :=
  Rblk 0 NULL_EPOCH EPOCH 0 0 g false :: ((λ bx, rblk_of bx.1 bx.2) <$> map_to_list h).

Lemma full_image_crash {P} g (h : gmap Z (pblk P)) :
  map_Forall (λ _ x, blktype x ≠ EPOCH ∧ blktype x ≠ DESC) h → crash_image g h (full_image g h).
Proof.
  intros Hh. unfold full_image.
  assert (∀ r, r ∈ ((λ bx, rblk_of bx.1 bx.2) <$> map_to_list h) → ∃ b x, h !! b = Some x ∧ r = rblk_of b x) as Hin.
  { intros r ([b x] & -> & Hbx%elem_of_map_to_list)%list_elem_of_fmap. by exists b, x. }
  constructor.
  - eexists. split; [left|done].
  - intros r [->|(b & x & Hx & ->)%Hin]%elem_of_cons Ht; [done|]. destruct (Hh b x Hx). simpl in Ht. tauto.
  - intros b x Hx _. right. apply list_elem_of_fmap. exists (b, x). split; [done|]. by apply elem_of_map_to_list.
  - intros r [->|(b & x & Hx & ->)%Hin]%elem_of_cons Ht _; [done|]. exists x. split_and!; auto.
Qed.

(** The payloads of the recovered blocks, by address. *)
Definition recovered_payloads {P} (h : gmap Z (pblk P)) (r : recovered_t) : gmap Z P :=
  filter (λ bp, bp.1 ∈ r_addr <$> vals (in_use r)) (omap payload h).

Section crash.
Context {P : Type}.
Implicit Types (h : gmap Z (pblk P)) (K : gmap Z Z) (L : gmap Z P) (H : list (gmap Z P)) (x y : pblk P).
Context (g u : Z) h K L H (I : list rblk).
Hypothesis Hg : INIT_EPOCH ≤ g < U64.
Hypothesis Hv : versions g u [] h K L H.
Hypothesis HI : crash_image g h I.

(** A block of the image that is old enough is a block of the heap. *)
Lemma image_old r :
  r ∈ I → NULL_EPOCH < r_epoch r ≤ g - 2 → ∃ x, h !! r_addr r = Some x ∧ r = rblk_of (r_addr r) x.
Proof.
  intros Hr He. assert (r_type r ≠ EPOCH ∧ r_type r ≠ DESC) as [H1 H2].
  { split; intros Ht; (destruct (ci_system _ _ _ HI r Hr) as [? _]; [auto|]); unfold NULL_EPOCH in *; lia. }
  destruct (ci_block _ _ _ HI r Hr H1 H2) as (x & Hx & _ & _ & Heq). exists x. auto.
Qed.

Lemma image_range r : r ∈ I → 0 ≤ r_epoch r ≤ g.
Proof.
  intros Hr. unfold INIT_EPOCH in Hg.
  destruct (decide (r_type r = EPOCH ∨ r_type r = DESC)) as [Ht|Ht].
  { destruct (ci_system _ _ _ HI r Hr Ht) as [-> _]. unfold NULL_EPOCH. lia. }
  destruct (ci_block _ _ _ HI r Hr) as (x & Hx & _ & [->| ->] & _); [tauto|tauto|unfold NULL_EPOCH; lia|].
  destruct (v_blk _ _ _ _ _ _ _ Hv _ x Hx) as [[? _] _]; [set_solver|]. unfold NULL_EPOCH in *. lia.
Qed.

Lemma image_max : max_of I = g.
Proof.
  assert (∀ r, r ∈ I → block_epoch r ≤ g) as Hle.
  { intros r Hr. pose proof (image_range r Hr). unfold block_epoch.
    destruct (r_type r) eqn:Ht; try lia. destruct (ci_system _ _ _ HI r Hr) as [_ Hc]; [by left|].
    rewrite Hc by done. lia. }
  apply Z.le_antisymm.
  - unfold INIT_EPOCH in Hg. clear -Hle Hg. induction I as [|r l IH]; simpl; [lia|].
    pose proof (Hle r ltac:(set_solver)). specialize (IH ltac:(set_solver)). lia.
  - destruct (ci_container _ _ _ HI) as (c & Hc & Ht). pose proof (block_epoch_le I c Hc) as Hb.
    unfold block_epoch in Hb. rewrite Ht in Hb. destruct (ci_system _ _ _ HI c Hc) as [_ Hcg]; [by left|].
    rewrite Hcg in Hb by done. lia.
Qed.

Lemma image_deleted i :
  deleted (g - 2) I i ↔ ∃ d y, h !! d = Some y ∧ del y ∧ id y = i ∧ epoch y ≤ g - 2.
Proof.
  split.
  - intros (r & Hr & Ht & Hid & He & Hle). pose proof (image_range r Hr) as Hrr. unfold NULL_EPOCH in He.
    destruct (image_old r Hr) as (x & Hx & Heq); [unfold NULL_EPOCH; lia|]. rewrite Heq in Ht, Hid, Hle, He. simpl in *.
    exists (r_addr r), x. split_and!; try done. split; [|done].
    rewrite Heq in Hrr. simpl in Hrr. unfold NULL_EPOCH. lia.
  - intros (d & y & Hd & [He Ht] & Hid & Hle). exists (rblk_of d y). split; [by apply (ci_old _ _ _ HI)|].
    split_and!; try done. simpl. lia.
Qed.

(** The versions that recovery may keep, in terms of the heap. *)
Lemma image_version r :
  r ∈ I → version (g - 2) I r ↔
    ∃ x, h !! r_addr r = Some x ∧ r = rblk_of (r_addr r) x ∧ ver x ∧ epoch x ≤ g - 2 ∧
      ¬ deleted (g - 2) I (id x).
Proof.
  intros Hr. pose proof (image_range r Hr) as Hra. split.
  - intros (Ht & He & Hle & Hnd). destruct (image_old r Hr) as (x & Hx & Heq); [unfold NULL_EPOCH in *; lia|].
    exists x. rewrite Heq in Ht, He, Hle, Hnd, Hra. simpl in *. split_and!; try done.
    split; [unfold NULL_EPOCH in *; lia|done].
  - intros (x & Hx & Heq & [He Ht] & Hle & Hnd). rewrite Heq. unfold version. simpl. split_and!; try done. lia.
Qed.

Lemma image_is_ok : image_ok I.
Proof.
  unfold INIT_EPOCH in Hg. constructor; rewrite ?image_max.
  - apply (ci_container _ _ _ HI).
  - split; [lia|]. intros r Hr. by apply image_range.
  - intros r Hr Ht. pose proof (image_range r Hr). unfold NULL_EPOCH.
    destruct (decide (r_epoch r = 0)) as [|Hnz]; [by left|]. right.
    destruct (decide (r_epoch r ≤ g - 2)) as [Hle|]; [exfalso|lia].
    destruct (image_old r Hr) as (x & Hx & Heq); [unfold NULL_EPOCH; lia|].
    destruct (v_blk _ _ _ _ _ _ _ Hv _ x Hx) as [_ Hvd]; [set_solver|]. rewrite Heq in Ht. simpl in Ht.
    destruct Hvd as [[_ [?|?]]|[[_ ?] _]]; naive_solver congruence.
  - intros r r' Hr Hr' (x & Hx & Heq & Hvx & _)%image_version (x' & Hx' & Heq' & Hvx' & _)%image_version Hid; try done.
    rewrite Heq, Heq' in Hid |- *. simpl in *. destruct (decide (r_addr r = r_addr r')) as [Ha|Hne].
    + rewrite Ha in Hx |- *. rewrite Hx in Hx'. injection Hx' as <-. split; [done|lia].
    + destruct (v_ver _ _ _ _ _ _ _ Hv _ x _ x' Hx Hvx Hx' Hvx' Hid Hne) as (? & _ & Hal). split; [done|].
      intros Ht. specialize (Hal Ht). lia.
  - intros r r' Hr Hr' Ht Ht' Hid He He' Hle. pose proof (image_range r Hr) as Hrr. pose proof (image_range r' Hr').
    unfold NULL_EPOCH in *. destruct (image_old r Hr) as (y & Hy & Heq); [unfold NULL_EPOCH; lia|].
    destruct (ci_block _ _ _ HI r' Hr') as (x & Hx & Hidx & [?|Hex] & _); [congruence|congruence|unfold NULL_EPOCH in *; lia|].
    assert (del y) as Hdy.
    { rewrite Heq in Ht, He. simpl in *. split; [|done]. rewrite Heq in Hrr. simpl in Hrr. unfold NULL_EPOCH. lia. }
    assert (id y = id x) as Hyx by (rewrite Heq in Hid; simpl in Hid; congruence).
    destruct (v_blk _ _ _ _ _ _ _ Hv _ x Hx) as [_ [Hvx|[Hdx _]]]; [set_solver| |].
    + destruct (v_del _ _ _ _ _ _ _ Hv _ y _ x Hy Hdy Hx Hvx) as (t & Ht2 & Hty); [done|].
      destruct (v_killed _ _ _ _ _ _ _ Hv _ x t Hx Hvx Ht2) as [? _].
      rewrite Heq in Hle. simpl in Hle. lia.
    + pose proof (v_del1 _ _ _ _ _ _ _ Hv _ y _ x Hy Hdy Hx Hdx Hyx) as Ha. rewrite Ha in Hy.
      rewrite Hy in Hx. injection Hx as <-. rewrite Heq in Hle. simpl in Hle. lia.
Qed.

(** What recovery returns: the blocks live at the end of epoch [g-2]. *)
Lemma recover_generation parts1 parts2 :
  concat parts1 ≡ₚ I → concat parts2 ≡ₚ I →
  ∃ r, recover false parts1 parts2 = Ret r ∧ new_global_epoch r = g ∧ recovered_payloads h r = past H 1 ∧
    ∀ i rb, in_use r !! i = Some rb → ∃ x, h !! r_addr rb = Some x ∧ ver x ∧ id x = i ∧ epoch x ≤ g - 2.
Proof.
  intros H1 H2. destruct (recover_run I parts1 parts2 image_is_ok H1 H2) as (ps & qs & -> & _ & Hqs).
  destruct (merge_in_use_newest I parts2 qs image_is_ok H2 Hqs) as [Hn _]. rewrite image_max in Hn |- *.
  eexists. split; [done|]. split; [done|]. split; cycle 1.
  { intros i rb (Hin & Hver & Hid & _)%Hn. apply image_version in Hver as (x & Hx & Heq & Hvx & Hle & _); [|done].
    exists x. rewrite Heq in Hid. by split_and!. }
  apply map_eq. intros b. apply option_eq. intros p.
  unfold recovered_payloads. rewrite map_lookup_filter_Some, lookup_omap_Some, (v_gen _ _ _ _ _ _ _ Hv) by lia. simpl.
  replace (g - 1 - Z.of_nat 1) with (g - 2) by lia. unfold vals. split.
  - intros [(x & Hp & Hx) Hin]. apply list_elem_of_fmap in Hin as (r & Ha & Hr).
    apply list_elem_of_fmap in Hr as ([i r'] & -> & Hr). apply elem_of_map_to_list, Hn in Hr.
    simpl in *. destruct Hr as (Hin & Hver & Hid & Hmax).
    apply image_version in Hver as (x' & Hx' & Heq & Hvx & Hle & Hnd); [|done].
    rewrite <- Ha in Hx', Heq. rewrite Hx in Hx'. injection Hx' as <-. exists x. split_and!; try done.
    intros t Ht. destruct (v_killed _ _ _ _ _ _ _ Hv b x t Hx Hvx Ht) as (Het & b' & y & Hy & Hiy & Hey & Hvd).
    destruct (decide (t ≤ g - 2)) as [Htg|]; [exfalso|lia]. destruct Hvd as [Hvy|Hdy].
    + assert (rblk_of b' y ∈ I) as Hyin by (apply (ci_old _ _ _ HI); [done|destruct Hvy; lia]).
      specialize (Hmax (rblk_of b' y) Hyin). rewrite Heq in Hmax, Hid. simpl in Hmax, Hid.
      enough (epoch y ≤ epoch x) by lia. apply Hmax; [|congruence].
      apply image_version; [done|]. exists y. rewrite <- Hiy in Hnd. split_and!; try done. lia.
    + apply Hnd, image_deleted. exists b', y. split_and!; try done. lia.
  - intros (x & Hx & Hvx & Hp & Hle & Hk). split; [by exists x|].
    assert (rblk_of b x ∈ I) as Hxin by (apply (ci_old _ _ _ HI); [done|destruct Hvx; lia]).
    apply list_elem_of_fmap. exists (rblk_of b x). split; [done|]. apply list_elem_of_fmap.
    exists (id x, rblk_of b x). split; [done|]. apply elem_of_map_to_list, Hn.
    assert (¬ deleted (g - 2) I (id x)) as Hnd.
    { rewrite image_deleted. intros (d & y & Hy & Hdy & Hid & Hey).
      destruct (v_del _ _ _ _ _ _ _ Hv d y b x Hy Hdy Hx Hvx) as (t & Ht & ?); [done|]. specialize (Hk t Ht). lia. }
    split; [done|]. split; [apply image_version; [done|]; by exists x|]. split; [done|].
    intros r Hr Hver Hid. apply image_version in Hver as (y & Hy & Heq & Hvy & Hley & _); [|done].
    rewrite Heq in Hid |- *. simpl in *. destruct (decide (r_addr r = b)) as [Ha|Hne].
    + rewrite Ha, Hx in Hy. injection Hy as <-. lia.
    + destruct (v_ver _ _ _ _ _ _ _ Hv b x _ y Hx Hvx Hy Hvy) as (_ & Hlt & _); [done|done|].
      destruct (decide (epoch x < epoch y)) as [Hl|]; [|lia]. destruct (Hlt Hl) as (t & Ht & ?).
      specialize (Hk t Ht). lia.
Qed.
End crash.
