(* ===== verification/PayloadApi.v ===== *)
(** * The payload interface: what a data structure uses of the epoch system

    A lock-based data structure of Montage sees the epoch system through the
    methods of [Recoverable] and through the accessors that [GENERATE_FIELD]
    generates for its payload class.  [PayloadApi] lists those operations over
    an abstract state [S], for payloads of type [P]; [PayloadLaws] is what the
    data structures rely on.  The client files are proved against the laws; the
    blocking epoch system discharges them in [EpochApi].

    The laws speak of the live payloads [L], a map from addresses to payloads,
    and of a budget [k] of calls after which a 64-bit (or 48-bit) counter could
    wrap.  Three predicates describe where the system is: [p_idle], no thread
    is in an operation and none has pending allocations; [p_out tid], only
    [tid] may have allocated, namely the payloads of its last argument;
    [p_in tid], [tid] is in an operation.

    [EpochLaws] adds the epoch advancer: the predicates are indexed by the past
    generations [H], the live payloads at the ends of the earlier epochs, most
    recent first.  [CrashLaws] adds crashes: whatever the system is doing, a
    crash followed by recovery brings back the generation two epochs ago. *)

From S2P Require Import Prelude.

Class PayloadApi (S P : Type) : Type := {
  (** [pnew<Payload>(...)] *)
  p_new : P → nat → M S Z;
  (** [pdelete(payload)] *)
  p_delete : Z → nat → M S unit;
  p_begin_op : nat → M S unit;
  p_end_op : nat → M S unit;
  p_end_readonly_op : nat → M S unit;
  (** [payload->get_unsafe_f(ds)]: the field [f] of the result *)
  p_get : Z → M S P;
  (** [payload->set_f(ds, v)]: the argument sets the field *)
  p_set : Z → (P → P) → nat → M S Z;
  (** [payload->set_unsafe_f(ds, v)] *)
  p_set_unsafe : Z → (P → P) → M S unit;
  (** [online_mode()] ([true]) and [recover_mode()] ([false]) *)
  p_mode : bool → M S unit;
  (** the epoch advancer: one epoch ends and the next begins *)
  p_advance : M S unit;
}.

Class PayloadLaws (S P : Type) `{!PayloadApi S P} : Type := {
  p_threads : nat;
  p_idle : Z → S → gmap Z P → Prop;
  p_out : nat → Z → S → gmap Z P → list Z → Prop;
  p_in : nat → Z → S → gmap Z P → Prop;
  (** a block allocated in the current epoch and not updated since *)
  p_young : S → Z → Prop;
  p_enter k s L tid : p_idle k s L → (tid < p_threads)%nat → p_out tid k s L [];
  p_leave tid k s L : p_out tid k s L [] → p_idle k s L;
  p_new_law tid k s L N p :
    p_out tid k s L N → 0 < k →
    ∃ b s', p_new p tid s = (Ret b, s') ∧ b ≠ 0 ∧ L !! b = None ∧
      p_out tid (k - 1) s' (<[b := p]> L) (N ++ [b]);
  p_set_unsafe_law tid k s L N b p f :
    p_out tid k s L N → b ∈ N → L !! b = Some p →
    ∃ s', p_set_unsafe b f s = (Ret tt, s') ∧ p_out tid k s' (<[b := f p]> L) N;
  p_drop_law tid k s L N b p :
    p_out tid k s L N → b ∈ N → L !! b = Some p →
    ∃ N' s', p_delete b tid s = (Ret tt, s') ∧ N ≡ₚ b :: N' ∧ p_out tid k s' (delete b L) N';
  p_new_in_law tid k s L p :
    p_in tid k s L → 0 < k →
    ∃ b s', p_new p tid s = (Ret b, s') ∧ b ≠ 0 ∧ L !! b = None ∧ p_in tid (k - 1) s' (<[b := p]> L);
  p_begin_law tid k s L N :
    p_out tid k s L N → 0 < k →
    ∃ s', p_begin_op tid s = (Ret tt, s') ∧ p_in tid (k - 1) s' L;
  p_nonnull_law tid k s L b p : p_in tid k s L → L !! b = Some p → b ≠ 0;
  p_get_law tid k s L b p : p_in tid k s L → L !! b = Some p → p_get b s = (Ret p, s);
  p_get_idle_law k s L b p : p_idle k s L → L !! b = Some p → p_get b s = (Ret p, s);
  p_set_law tid k s L b p f :
    p_in tid k s L → 0 < k → L !! b = Some p →
    ∃ b' s', p_set b f tid s = (Ret b', s') ∧ (b' = b ∨ L !! b' = None) ∧
      p_in tid (k - 1) s' (<[b' := f p]> (delete b L));
  p_delete_law tid k s L b p :
    p_in tid k s L → 0 < k → L !! b = Some p →
    ∃ s', p_delete b tid s = (Ret tt, s') ∧ p_in tid (k - 1) s' (delete b L);
  p_end_law tid k s L :
    p_in tid k s L → ∃ s', p_end_op tid s = (Ret tt, s') ∧ p_idle k s' L;
  p_young_begin tid k s L N b s' :
    p_out tid k s L N → 0 < k → b ∈ N → p_begin_op tid s = (Ret tt, s') → p_young s' b;
  p_young_end tid k s L b s' :
    p_in tid k s L → p_young s b → p_end_op tid s = (Ret tt, s') → p_young s' b;
  p_young_delete_law k s L b p tid :
    p_idle k s L → p_young s b → L !! b = Some p → (tid < p_threads)%nat →
    ∃ s', p_delete b tid s = (Ret tt, s') ∧ p_idle k s' (delete b L);
  p_readonly_law tid k s L :
    p_idle k s L → 0 < k → (tid < p_threads)%nat →
    ∃ s', mbind_ (p_begin_op tid) (λ _, p_end_readonly_op tid) s = (Ret tt, s') ∧ p_idle (k - 1) s' L;
  p_recover_mode_law k s L :
    p_idle k s L → ∃ s1, p_mode false s = (Ret tt, s1) ∧
      (∀ b tid, p_delete b tid s1 = (Ret tt, s1)) ∧
      ∃ s2, p_mode true s1 = (Ret tt, s2) ∧ p_idle k s2 L;
}.

Class EpochLaws (S P : Type) `{!PayloadApi S P} : Type := {
  e_threads : nat;
  e_laws : list (gmap Z P) → PayloadLaws S P;
  e_same H : @p_threads _ _ _ (e_laws H) = e_threads;
  e_advance k s L H :
    @p_idle _ _ _ (e_laws H) k s L → 0 < k →
    ∃ s', p_advance s = (Ret tt, s') ∧ @p_idle _ _ _ (e_laws (L :: H)) (k - 1) s' L;
}.

(** [crash s o]: a crash in state [s] and the recovery after it can end with the
    outcome [o]: an exception, or the payloads found. *)
Class CrashLaws (S P : Type) `{!PayloadApi S P, !EpochLaws S P} (crash : S → outcome (gmap Z P) → Prop) : Prop := {
  c_idle k s L H o : @p_idle _ _ _ (e_laws H) k s L → crash s o → o = Ret (past H 1);
  c_in tid k s L H o : @p_in _ _ _ (e_laws H) tid k s L → crash s o → o = Ret (past H 1);
}.

(** [MontageOpHolder _holder(this); body]: the destructor ends the operation,
    also when [body] leaves by an exception. *)
Definition op_holder {S P A} `{!PayloadApi S P} (tid : nat) (body : M S A) : M S A := λ s,
  match p_begin_op tid s with
  | (Throw e, s1) => (Throw e, s1)
  | (Ret _, s1) =>
      let '(o, s2) := body s1 in
      match p_end_op tid s2 with
      | (Ret _, s3) => (o, s3)
      | (Throw e, s3) => (Throw e, s3)
      end
  end.

(** [MontageOpHolderReadOnly(this);]: a temporary, destroyed at once *)
Definition op_holder_readonly_tmp {S P} `{!PayloadApi S P} (tid : nat) : M S unit :=
  do* p_begin_op tid in p_end_readonly_op tid.

Lemma op_holder_law {S P A} `{!PayloadApi S P, !PayloadLaws S P} (tid : nat) (body : M S A)
    (k : Z) (s : S) (L : gmap Z P) (N : list Z) (Q : A → Z → gmap Z P → Prop) :
  p_out tid k s L N → 0 < k →
  (∀ s1, p_in tid (k - 1) s1 L → ∃ a s2 k' L', body s1 = (Ret a, s2) ∧ p_in tid k' s2 L' ∧ Q a k' L') →
  ∃ a s' k' L', op_holder tid body s = (Ret a, s') ∧ p_idle k' s' L' ∧ Q a k' L'.
Proof.
  intros Ho Hk Hb. unfold op_holder. destruct (p_begin_law tid k s L N Ho Hk) as (s1 & -> & Hin).
  destruct (Hb s1 Hin) as (a & s2 & k' & L' & -> & Hin2 & HQ).
  destruct (p_end_law tid k' s2 L' Hin2) as (s3 & -> & Hid). by exists a, s3, k', L'.
Qed.
