(* ===== verification/History.v ===== *)
(** * Histories of operations over the epoch system

    What the data structures have in common: a history is a sequence of
    operations by threads and of epoch advances; it is run on the data structure
    and on its abstract specification.  The past generations of payloads
    correspond to the abstract states at the epoch advances, and a crash brings
    back the one before the last two.

    The data structure is given by its operations, an invariant [ok H r a d]
    (past generations [H], room for [r] more operations, abstract state [a]) and
    the relation [gen] between the live payloads and the abstract state. *)

From S2P Require Import Prelude.

Notation hist Op := (list (option (nat * Op))).

Section history.
Context {Op R A D P : Type}.
Context (run_op : Op → nat → M D R) (adv : M D unit) (spec_op : Op → A → R * A).
Implicit Types (h : hist Op) (a : A) (d : D).

(** The operations run, their results collected. *)
Fixpoint run h : M D (list R) :=
  match h with
  | [] => mret_ []
  | None :: h' => do* adv in run h'
  | Some (tid, o) :: h' => let* r := run_op o tid in let* rs := run h' in mret_ (r :: rs)
  end.

(** The specification; an epoch advance changes nothing. *)
Fixpoint spec h a : list R * A :=
  match h with
  | [] => ([], a)
  | None :: h' => spec h' a
  | Some (_, o) :: h' => let '(r, a1) := spec_op o a in let '(rs, a2) := spec h' a1 in (r :: rs, a2)
  end.

Definition all_calls (valid : nat → Op → Prop) h : Prop := ∀ tid o, Some (tid, o) ∈ h → valid tid o.
Definition threads_below (n : nat) : hist Op → Prop := all_calls (λ tid _, (tid < n)%nat).

(** The part of a history that a crash does not undo: the operations followed by
    at least two epoch advances. *)
Fixpoint advances h : nat :=
  match h with [] => 0 | None :: h' => 1 + advances h' | Some _ :: h' => advances h' end.
Fixpoint durable_part h : hist Op :=
  match h with
  | [] => []
  | x :: h' => if (2 <=? advances h')%nat then x :: durable_part h' else []
  end.

(** The abstract states at the epoch advances, most recent first. *)
Fixpoint spec_past h a (past : list A) : list A :=
  match h with
  | [] => past
  | None :: h' => spec_past h' a (a :: past)
  | Some (_, o) :: h' => spec_past h' (spec_op o a).2 past
  end.

Lemma spec_past_durable h : ∀ a past,
  spec_past h a past !! 1%nat =
  match advances h with
  | O => past !! 1%nat
  | S O => past !! 0%nat
  | _ => Some (spec (durable_part h) a).2
  end.
Proof.
  induction h as [|[[tid o]|] h IH]; intros a past; simpl; [done| |]; rewrite IH; destruct (advances h) as [|[|k]]; simpl; try done.
  destruct (spec_op o a) as [r a1]. simpl. by destruct (spec (durable_part h) a1).
Qed.

Lemma durable_part_short h : (advances h < 2)%nat → durable_part h = [].
Proof.
  destruct h as [|x h]; [done|]. intros Hlt. cbn [durable_part].
  destruct (Nat.leb_spec 2 (advances h)); [|done]. destruct x; simpl in Hlt; lia.
Qed.

Lemma all_calls_cons valid x h : all_calls valid (x :: h) → all_calls valid h.
Proof. intros Hth tid o Hin. apply (Hth tid o). by right. Qed.

Context (valid : nat → Op → Prop) (ok : list (gmap Z P) → nat → A → D → Prop) (gen : gmap Z P → A → Prop).
Hypothesis op_ok : ∀ H r a d o tid, ok H (S r) a d → valid tid o →
  ∃ d', run_op o tid d = (Ret (spec_op o a).1, d') ∧ ok H r (spec_op o a).2 d'.
Hypothesis adv_ok : ∀ H r a d, ok H (S r) a d → ∃ L d', adv d = (Ret tt, d') ∧ ok (L :: H) r a d' ∧ gen L a.

Lemma run_ok h : ∀ H r a d past,
  ok H (length h + r) a d → all_calls valid h → Forall2 gen H past →
  ∃ d' H', run h d = (Ret (spec h a).1, d') ∧ ok H' r (spec h a).2 d' ∧ Forall2 gen H' (spec_past h a past).
Proof using op_ok adv_ok.
  induction h as [|[[tid o]|] h IH]; intros H r a d past Hok Hth Hp; simpl; [by exists d, H|..];
    pose proof (all_calls_cons _ _ _ Hth) as Hth'; unfold mbind_.
  - destruct (op_ok H (length h + r) a d o tid Hok) as (d1 & -> & Hok1); [by apply (Hth tid o); left|].
    destruct (spec_op o a) as [x a1]. simpl in *. destruct (IH H r a1 d1 past Hok1 Hth' Hp) as (d2 & H2 & -> & Hok2 & Hp2).
    destruct (spec h a1) as [rs a2]. by exists d2, H2.
  - destruct (adv_ok H (length h + r) a d Hok) as (L & d1 & -> & Hok1 & Hg).
    apply (IH (L :: H) r a d1 (a :: past)); [done|done|by constructor].
Qed.

(** What a crash leaves: [a0] stands for the time before the history. *)
Lemma past_durable_from h H a a0 :
  gen ∅ a0 → Forall2 gen H (spec_past h a []) →
  gen (past H 1) (if (2 <=? advances h)%nat then (spec (durable_part h) a).2 else a0).
Proof using Type.
  clear adv_ok op_ok. intros Hnil Hall. pose proof (spec_past_durable h a []) as Hd. unfold past.
  destruct (H !! 1%nat) as [L|] eqn:HL; simpl.
  - destruct (Forall2_lookup_l _ _ _ _ _ Hall HL) as (m & Hm & Hg). rewrite Hm in Hd.
    destruct (advances h) as [|[|k]]; simpl in Hd; by simplify_eq.
  - assert (spec_past h a [] !! 1%nat = None) as Hm.
    { apply lookup_ge_None. rewrite <- (Forall2_length _ _ _ Hall). by apply lookup_ge_None. }
    rewrite Hm in Hd. by destruct (advances h) as [|[|k]].
Qed.
Lemma past_durable h H a :
  gen ∅ a → Forall2 gen H (spec_past h a []) → gen (past H 1) (spec (durable_part h) a).2.
Proof using Type.
  clear adv_ok op_ok. intros Hnil Hall. pose proof (past_durable_from h H a a Hnil Hall) as Hg.
  destruct (Nat.leb_spec 2 (advances h)); [done|]. by rewrite durable_part_short.
Qed.
End history.
