(* ===== verification/EpochApi.v ===== *)
(** * The blocking epoch system implements the payload interface

    The operations of [PayloadApi] over [Recoverable] and [EpochSys], and the
    proof of [PayloadLaws]: under the calls of a lock-based data structure,
    operation by operation, no call fails, no live payload is ever freed or
    changed behind the data structure's back, and the blocks waiting for
    reclamation are distinct, allocated and not live. *)

From S2P Require Import Prelude PersistFunc UIDGen FixedBuffers Containers ToBePersisted TransTrackers ToBeFreed PersistTracker Dcss EpochSys Recoverable PayloadApi.
Import ThreadLocalFreedContainer IncreasingMindicator EpochSys.

(** ** Blocks waiting for reclamation, over all threads *)

Definition wait_all {T} (n : nat) (v : table (list T)) : list T := concat (waiting v <$> seq 0 n).

Lemma wait_all_split {T} n (v : table (list T)) tid :
  (tid < n)%nat → ∃ rest, wait_all n v ≡ₚ waiting v tid ++ rest ∧
    ∀ v', (∀ t, t ≠ tid → waiting v' t = waiting v t) → wait_all n v' ≡ₚ waiting v' tid ++ rest.
Proof.
  intros Ht. unfold wait_all.
  assert (seq 0 n = seq 0 tid ++ tid :: seq (S tid) (n - S tid)) as ->.
  { replace n with (tid + S (n - S tid))%nat at 1 by lia. by rewrite seq_app. }
  exists (concat (waiting v <$> seq 0 tid) ++ concat (waiting v <$> seq (S tid) (n - S tid))).
  assert (∀ v' a m, (∀ t, t ≠ tid → waiting v' t = waiting v t) → (a + m ≤ tid ∨ tid < a)%nat →
    waiting v' <$> seq a m = waiting v <$> seq a m) as Hother.
  { intros v' a m Hv Ham. apply list_fmap_ext. intros i t Hi. apply Hv. apply lookup_seq in Hi. lia. }
  split; [|intros v' Hv]; rewrite fmap_app, fmap_cons, concat_app; simpl.
  - solve_Permutation.
  - rewrite (Hother v' 0%nat tid), (Hother v' (S tid)) by (done || lia). solve_Permutation.
Qed.

Section epoch_api.
Context {P C T : Type} `{!FixedContainer C, !FixedContainerLaws C, !Tracker T, !TrackerLaws T}.
Context (ralloc : gmap Z (pblk P) → Z) (malloc_size : Z → Z) (n : nat).
Notation esys := (esys P C T).
Notation E := (M esys).
Implicit Type s : esys.

(** ** The epoch advancer, without interference

    One turn of [DedicatedEpochAdvancer::advancer] (thread [task_num]), whose
    [curr_epoch] is the global epoch. *)
Definition advance_epoch : E unit :=
  let* c := get_epoch in
  do* mmod (λ s, Esys (dm s) (local_descs s) (heap s) (uid_generator s) (trans_tracker s)
              (to_be_persisted s) (to_be_freed s) (persisted_epochs s) (last_epochs s)
              (if target_epoch s =? c then c +₆ 1 else target_epoch s) (sys_mode s) (plog s)) in
  do* on_epoch_end malloc_size n c n in
  do* mmod (λ s, with_dm (Dmem (cells (dm s)) (descs (dm s)) (c +₆ 1)) s) in
  on_epoch_begin (c +₆ 1).

(** ** The control state: epochs, descriptors, identifiers, persistence tree *)

Definition g s : Z := global_epoch (dm s).

Record tree_ok (tr : im) : Prop := {
  tree_code : code (leaves tr);
  tree_heap : IncreasingMindicator.heap (leaves tr) (val tr);
  tree_len : (n ≤ length (leaves tr))%nat;
  tree_real : ∀ t l, leaves tr !! t = Some l → (t < n)%nat → 0 ≤ val tr l;
  tree_odd : ∀ t l, leaves tr !! t = Some l → (n ≤ t)%nat → val tr l = UINT64_MAX;
}.

Record ctl (k : Z) (s : esys) : Prop := {
  ctl_mode : sys_mode s = ONLINE;
  ctl_epoch : INIT_EPOCH ≤ g s ∧ g s + k + 4 < U64;
  ctl_descs : ∀ t, (t < n)%nat → ∃ d D, local_descs s !! t = Some d ∧
    descs (dm s) !! d = Some D ∧ Z.land (d_tid_sn D) SN_MASK + k < SN_MASK;
  ctl_uid : ∀ t, (t < n)%nat → is_Some (uid_generator s !! t);
  ctl_last : ∀ t, (t < n)%nat → is_Some (last_epochs s !! t);
  ctl_tree : tree_ok (persisted_epochs s);
}.

(** ** The containers: room for [K] registrations, [F] waiting to be freed *)

Record stock (K : Z) (F : list Z) (s : esys) : Prop := {
  st_room : 0 ≤ K;
  st_ready : es_ready n (K + Z.of_nat (length F)) s;
  st_epochs : ∀ t, (t < n)%nat → ∃ e, threadEpoch (to_be_freed s) !! t = Some e ∧ INIT_EPOCH ≤ e ≤ g s;
  st_wait : wait_all n (container (to_be_freed s)) ≡ₚ F;
  st_nodup : NoDup F;
  st_alloc : ∀ b, b ∈ F → 0 < b ∧ is_Some (heap s !! b);
}.

Lemma ctl_frame k s s' : frame s s' → ctl k s → ctl k s'.
Proof.
  intros (Hdm & Hld & Hu & _ & Hp & Hl & _ & Hm) [H1 H2 H3 H4 H5 H6]. unfold g in *.
  constructor; unfold g; rewrite ?Hdm, ?Hld, ?Hu, ?Hp, ?Hl, ?Hm; done.
Qed.

Lemma ctl_mono k k' s : k' ≤ k → ctl k s → ctl k' s.
Proof.
  intros Hk [H1 H2 H3 H4 H5 H6]. constructor; try done; [lia|].
  intros t Ht. destruct (H3 t Ht) as (d & D & ? & ? & ?). exists d, D. split_and!; [done|done|lia].
Qed.

(** ** Reclamation at the beginning of an operation *)

(** The blocks [l] are deallocated, nothing else changes. *)
Definition cut (l : list Z) (h h' : gmap Z (pblk P)) : Prop :=
  (∀ b, b ∈ l → h' !! b = None) ∧ (∀ b, b ∉ l → h' !! b = h !! b).

Lemma cut_nil h : cut [] h h.
Proof. split; [set_solver|done]. Qed.
Lemma cut_app l1 l2 h1 h2 h3 : cut l1 h1 h2 → cut l2 h2 h3 → cut (l1 ++ l2) h1 h3.
Proof.
  intros [Hn1 Hs1] [Hn2 Hs2]. split; intros b; rewrite ?not_elem_of_app, ?elem_of_app.
  - destruct (decide (b ∈ l2)); [auto|]. intros [?|?]; [|done]. rewrite Hs2; auto.
  - intros [??]. rewrite Hs2; auto.
Qed.

Lemma delete_all_ok c tid l : ∀ K s,
  es_ready n (K + Z.of_nat (length l)) s → 0 ≤ K → (tid < n)%nat → c ≠ NULL_EPOCH → NoDup l →
  (∀ b, b ∈ l → 0 < b ∧ is_Some (heap s !! b)) →
  ∃ s', mfor ((λ b, (b, c)) <$> l) (λ p, delete_pblk malloc_size n p.1 p.2 tid) s = (Ret tt, s') ∧
    frame s s' ∧ es_ready n K s' ∧ to_be_freed s' = to_be_freed s ∧
    cut l (heap s) (heap s').
Proof.
  induction l as [|b l IH]; intros K s Hr HK Ht Hc Hnd Hl; simpl.
  - rewrite Z.add_0_r in Hr. exists s. split_and!; try done. apply cut_nil.
  - apply NoDup_cons in Hnd as [Hbl Hnd]. destruct (Hl b) as [Hb [x Hx]]; [set_solver|].
    destruct (delete_pblk_ok malloc_size n n (K + Z.of_nat (length (b :: l))) s b x c tid)
      as (s1 & Hdel & Hh & Hf & Hr1 & Htbf); [done|simpl; lia|done|done|done|done|done|].
    destruct (IH K s1) as (s2 & Hrun & Hf2 & Hr2 & Htbf2 & Hh2); [|done|done|done|done| |].
    { by replace (K + Z.of_nat (length l)) with (K + Z.of_nat (length (b :: l)) - 1) by (simpl; lia). }
    { intros b' Hb'. rewrite Hh, lookup_delete_ne by set_solver. apply Hl. set_solver. }
    exists s2. unfold mbind_. simpl. rewrite Hdel. split_and!; [done| |done|by rewrite Htbf2|].
    + destruct Hf as (?&?&?&?&?&?&?&?), Hf2 as (?&?&?&?&?&?&?&?). unfold frame. split_and!; congruence.
    + apply (cut_app [b] l _ (heap s1)); [|done]. rewrite Hh. split; intros b' Hb'.
      * apply list_elem_of_singleton in Hb' as ->. apply lookup_delete_eq.
      * apply lookup_delete_ne. set_solver.
Qed.

Lemma frame_refl s : frame s s.
Proof. unfold frame. by split_and!. Qed.
Lemma frame_trans s1 s2 s3 : frame s1 s2 → frame s2 s3 → frame s1 s3.
Proof. intros (?&?&?&?&?&?&?&?) (?&?&?&?&?&?&?&?). unfold frame. split_and!; congruence. Qed.

(** What a call of [free_on_new_epoch] does: some of [tid]'s waiting blocks [l]
    are deallocated. *)
Definition freed_local (tid : nat) (l : list Z) s s' : Prop :=
  frame s s' ∧ waiting (container (to_be_freed s)) tid ≡ₚ l ++ waiting (container (to_be_freed s')) tid ∧
  (∀ t, t ≠ tid → waiting (container (to_be_freed s')) t = waiting (container (to_be_freed s)) t) ∧
  cut l (heap s) (heap s').

(** The waiting blocks of the epochs [lo] to [hi] are handed out as [l]. *)
Definition popped (tid : nat) (lo hi : Z) (l : list Z) (v v' : table (list Z)) : Prop :=
  (∀ b, b ∈ l ↔ ∃ i, lo ≤ i ≤ hi ∧ b ∈ slot v tid (win i)) ∧
  (∀ i, lo ≤ i ≤ hi → slot v' tid (win i) = []) ∧
  (∀ w, (∀ i, lo ≤ i ≤ hi → w ≠ win i) → slot v' tid w = slot v tid w).

Lemma popped_none tid lo hi v : hi < lo → popped tid lo hi [] v v.
Proof. intros Hlt. split_and!; [|lia|done]. intros b. split; [set_solver|]. intros (i & ? & _). lia. Qed.

Lemma popped_step tid i lim l v v' :
  tab_dims n v → (tid < n)%nat → i ≤ lim → lim - i < EPOCH_WINDOW →
  popped tid (i + 1) lim l (tab_set v (win i) tid []) v' → popped tid i lim (reverse (slot v tid (win i)) ++ l) v v'.
Proof.
  intros Hd Ht Hle Hw (Hin & Hnil & Hoth).
  assert (∀ j, i + 1 ≤ j ≤ lim → win j ≠ win i) as Hne.
  { intros j Hj E. apply win_inj in E; lia. }
  assert (∀ j, i + 1 ≤ j ≤ lim → slot (tab_set v (win i) tid []) tid (win j) = slot v tid (win j)) as Hsl.
  { intros j Hj. apply slot_set_ne. intros [= E]. by apply (Hne j). }
  split_and!.
  - intros b. rewrite elem_of_app, elem_of_reverse, Hin. split.
    + intros [Hb|(j & Hj & Hb)]; [exists i; split; [lia|done]|]. rewrite Hsl in Hb by done. exists j. split; [lia|done].
    + intros (j & Hj & Hb). destruct (decide (j = i)) as [->|]; [by left|right]. exists j.
      rewrite Hsl by lia. split; [lia|done].
  - intros j Hj. destruct (decide (j = i)) as [->|]; [|apply Hnil; lia].
    rewrite Hoth; [by apply (slot_set_eq n); auto with montage|]. intros j Hj' E. by apply (Hne j).
  - intros w Hw'. rewrite Hoth; [|intros j Hj; apply Hw'; lia]. apply slot_set_ne.
    intros [= E]. apply (Hw' i); [lia|done].
Qed.

Lemma local_free_loop_ok fuel tid : ∀ i lim K s,
  (tid < n)%nat → 0 < i → lim + 1 < U64 → Z.max 0 (lim - i + 1) < Z.of_nat fuel →
  es_ready n (K + Z.of_nat (length (waiting (container (to_be_freed s)) tid))) s → 0 ≤ K →
  NoDup (waiting (container (to_be_freed s)) tid) →
  (∀ b, b ∈ waiting (container (to_be_freed s)) tid → 0 < b ∧ is_Some (heap s !! b)) →
  lim - i < EPOCH_WINDOW →
  ∃ l s', local_free_loop malloc_size n fuel i lim tid s = (Ret tt, s') ∧ freed_local tid l s s' ∧
    es_ready n (K + Z.of_nat (length (waiting (container (to_be_freed s')) tid))) s' ∧
    threadEpoch (to_be_freed s') = threadEpoch (to_be_freed s) ∧
    popped tid i lim l (container (to_be_freed s)) (container (to_be_freed s')).
Proof.
  induction fuel as [|fuel IH]; intros i lim K s Ht Hi Hlim Hf Hr HK Hnd Hal Hwin; [lia|]; simpl.
  destruct (Z.leb_spec i lim) as [Hle|Hgt].
  2:{ exists [], s. split_and!; try done; [|by apply popped_none].
      split_and!; [apply frame_refl|done..|apply cut_nil]. }
  set (v := container (to_be_freed s)) in *. destruct Hr as [Hb Hd].
  unfold mbind_, mmod, tl_help_free_local. fold v. rewrite (vc_pop_slot n) by done.
  pose proof (waiting_pop n v tid (win i) Hd (win_lt i) Ht) as Hpop.
  set (v' := tab_set v (win i) tid []) in *. set (l := slot v tid (win i)) in *.
  rewrite Hpop in Hnd. apply NoDup_app in Hnd as (Hndl & Hdisj & Hnd').
  rewrite Hpop, length_app, Nat2Z.inj_add in Hb.
  set (s0 := with_tbf (Tlfc v' (threadEpoch (to_be_freed s))) s).
  destruct (delete_all_ok i tid (reverse l) (K + Z.of_nat (length (waiting v' tid))) s0)
    as (s1 & Hrun & Hf1 & Hr1 & Htbf1 & Hh1); [|lia|done|unfold NULL_EPOCH; lia|by rewrite reverse_Permutation| |].
  { rewrite length_reverse. split; [|by apply tab_dims_set].
    replace (K + _ + _) with (K + (Z.of_nat (length l) + Z.of_nat (length (waiting v' tid)))) by lia. done. }
  { intros b. rewrite elem_of_reverse. intros Hbl. apply Hal. rewrite Hpop. set_solver. }
  rewrite u64_small by (unfold is_u64; lia).
  assert (container (to_be_freed s1) = v') as Hv1 by (by rewrite Htbf1).
  destruct (IH (i + 1) lim K (with_log [Sfence] s1)) as (l2 & s2 & Hloop & (Hf2 & Hp2 & Ho2 & Hh2) & Hr2 & Hte2 & Hpop2);
    simpl; rewrite ?Hv1; [done|lia|lia|lia|done|done|done| |lia|].
  { intros b Hbw. rewrite (proj2 Hh1) by (rewrite elem_of_reverse; set_solver).
    apply Hal. rewrite Hpop. set_solver. }
  simpl in Hp2, Ho2, Hh2, Hte2, Hpop2. rewrite Hv1 in Hp2, Ho2, Hpop2.
  exists (reverse l ++ l2), s2. rewrite Hrun, Hloop. split; [done|]. split; [|split; [done|split]].
  - split; [|split; [|split]].
    + eapply frame_trans; [exact Hf1|exact Hf2].
    + fold v. rewrite Hpop, Hp2, app_assoc. by rewrite (reverse_Permutation l).
    + intros t Hne. rewrite Ho2 by done. by apply waiting_set_other.
    + by eapply cut_app.
  - by rewrite Hte2, Htbf1.
  - by apply popped_step.
Qed.

(** The effect of reclamation in epoch [c] on the heap and the waiting blocks. *)
Definition reclaims (tid : nat) (c : Z) (l : list Z) s s' : Prop :=
  cut l (heap s) (heap s') ∧ tab_dims n (container (to_be_freed s')) ∧ ∃ te, threadEpoch (to_be_freed s) !! tid = Some te ∧
    threadEpoch (to_be_freed s') = <[tid := c]> (threadEpoch (to_be_freed s)) ∧
    popped tid (te - 1) (Z.min (te + 1) (c - 2)) l (container (to_be_freed s)) (container (to_be_freed s')).

Lemma free_on_new_epoch_ok K F s tid :
  stock K F s → (tid < n)%nat → INIT_EPOCH ≤ g s → g s + 4 < U64 →
  ∃ l F' s', free_on_new_epoch malloc_size n (g s) tid s = (Ret tt, s') ∧ frame s s' ∧
    stock K F' s' ∧ F ≡ₚ l ++ F' ∧ reclaims tid (g s) l s s'.
Proof.
  intros [HK Hr He Hw Hnd Hal] Ht Hg Hg4. destruct (He tid Ht) as (e & Hte & Hee).
  unfold free_on_new_epoch, mbind_, mget. rewrite Hte. destruct (Z.eqb_spec e (g s)) as [->|Hne].
  { exists [], F, s. split; [done|]. split; [apply frame_refl|]. split; [by constructor|].
    split; [done|]. split; [apply cut_nil|]. split; [apply Hr|]. exists (g s). split; [done|].
    rewrite list_insert_id by done. split; [done|]. apply popped_none. lia. }
  unfold INIT_EPOCH in *. rewrite !u64_small by (unfold is_u64; lia). unfold mmod.
  set (s0 := with_tbf (Tlfc (container (to_be_freed s)) (<[tid := g s]> (threadEpoch (to_be_freed s)))) s).
  destruct (wait_all_split n (container (to_be_freed s)) tid Ht) as (rest & Hsplit & Hother).
  rewrite Hw in Hsplit. rewrite Hsplit in Hnd. apply NoDup_app in Hnd as (Hnd1 & Hdisj & Hnd2).
  rewrite Hsplit, length_app, Nat2Z.inj_add in Hr.
  destruct (local_free_loop_ok 4 tid (e - 1) (Z.min (e + 1) (g s - 2)) (K + Z.of_nat (length rest)) s0)
    as (l & s' & Hrun & (Hf & Hp & Ho & Hh) & Hr' & Hte' & Hpop); simpl; [done|lia|lia|lia| |lia|done| |unfold EPOCH_WINDOW; lia|].
  { by replace (K + Z.of_nat (length rest) + _) with
      (K + (Z.of_nat (length (waiting (container (to_be_freed s)) tid)) + Z.of_nat (length rest))) by lia. }
  { intros b Hb. apply Hal. rewrite Hsplit. set_solver. }
  simpl in Hp, Ho, Hh, Hte', Hpop. rewrite Hp in Hnd1. apply NoDup_app in Hnd1 as (Hndl & Hdl & Hnd').
  set (w := waiting (container (to_be_freed s')) tid) in *.
  exists l, (w ++ rest), s'. split; [done|]. split; [done|]. split; [|split; [by rewrite Hsplit, Hp, app_assoc|split; [done|split; [apply Hr'|by exists e]]]].
  assert (g s' = g s) as Hgs by (destruct Hf as (Hdm & _); unfold g; by rewrite Hdm).
  constructor.
  - done.
  - rewrite length_app, Nat2Z.inj_add. by replace (K + (Z.of_nat (length w) + Z.of_nat (length rest)))
      with (K + Z.of_nat (length rest) + Z.of_nat (length w)) by lia.
  - intros t Htn. rewrite Hte', Hgs. destruct (decide (t = tid)) as [->|Hn].
    + rewrite list_lookup_insert_eq by (by eapply lookup_lt_Some). exists (g s). unfold INIT_EPOCH. split; [done|lia].
    + rewrite list_lookup_insert_ne by done. by apply He.
  - by apply Hother.
  - apply NoDup_app. split_and!; [done| |done]. intros b Hb. apply Hdisj. rewrite Hp. set_solver.
  - intros b Hb. destruct (Hal b) as [Hpos Hsome].
    { rewrite Hsplit, Hp. set_solver. }
    rewrite (proj2 Hh); [done|]. intros Hbl. apply elem_of_app in Hb as [Hb|Hb]; [by eapply Hdl|].
    eapply Hdisj; [|done]. rewrite Hp. set_solver.
Qed.

(** ** Helping the persistence of past epochs *)

Lemma stock_same K F s s' :
  to_be_freed s' = to_be_freed s → heap s' = heap s → g s' = g s →
  (bwb_ok n (K + Z.of_nat (length F)) (to_be_persisted s) →
   bwb_ok n (K + Z.of_nat (length F)) (to_be_persisted s')) →
  stock K F s → stock K F s'.
Proof.
  intros Hf Hh Hg Hb [HK [Hr Hd] He Hw Hnd Hal].
  constructor; rewrite ?Hf, ?Hh, ?Hg; try done. split; [by apply Hb|by rewrite Hf].
Qed.

Lemma after_persist_tree tr v tid l :
  tree_ok tr → (tid < n)%nat → leaves tr !! tid = Some l → 0 ≤ v < UINT64_MAX →
  ∃ tr', after_persist_epoch v tid tr = Ret tr' ∧ tree_ok tr' ∧ leaves tr' = leaves tr ∧ v < val tr' l.
Proof.
  intros [Hc Hh Hn Hreal Hodd] Ht Hl Hv.
  destruct (after_persist_spec tr v tid l Hc Hh Hl Hv) as (tr' & Hap & HL & Hh' & Hgt & Hx).
  assert (∀ t l', leaves tr !! t = Some l' → t ≠ tid → val tr' l' = val tr l') as Hx'.
  { intros t l' Hl' Hne. apply Hx; [by eapply list_elem_of_lookup_2|]. intros ->. apply Hne.
    by eapply NoDup_lookup; [apply Hc|..]. }
  exists tr'. split_and!; try done. constructor; rewrite ?HL; try done.
  - by rewrite HL in Hh'.
  - intros t l' Hl' Htn. destruct (decide (t = tid)) as [->|Hne].
    + rewrite Hl in Hl'. injection Hl' as <-. lia.
    + rewrite (Hx' t l' Hl' Hne). by eapply Hreal.
  - intros t l' Hl' Htn. rewrite (Hx' t l' Hl'); [by eapply Hodd|lia].
Qed.

Lemma help_persist_ok K tid l until fuel : ∀ s,
  tree_ok (persisted_epochs s) → (tid < n)%nat → leaves (persisted_epochs s) !! tid = Some l →
  until < UINT64_MAX → until - val (persisted_epochs s) l + 1 < Z.of_nat fuel → (0 < fuel)%nat →
  bwb_ok n K (to_be_persisted s) →
  ∃ tr kk lg, help_persist malloc_size fuel until tid s = (Ret tt, with_pers tr (with_tbp kk lg s)) ∧
    tree_ok tr ∧ bwb_ok n K kk.
Proof.
  induction fuel as [|fuel IH]; intros s Ht Htid Hl Hu Hf Hpos HK; [lia|]; simpl.
  set (tr := persisted_epochs s) in *. unfold mbind_, next_epoch, next_epoch_to_persist. fold tr. rewrite Hl.
  destruct (Z.eqb_spec (val tr l) NULL_EPOCH) as [|Hnz]; simpl;
    [|destruct (Z.ltb_spec until (val tr l)) as [|Hle]; simpl].
  1-2: exists tr, (to_be_persisted s), []; split_and!; try done;
    unfold mret_, with_pers, with_tbp; simpl; rewrite app_nil_r; by destruct s.
  pose proof (tree_real _ Ht tid l Hl Htid) as Hge. unfold NULL_EPOCH in Hnz.
  destruct (after_persist_tree tr (val tr l) tid l Ht Htid Hl) as (tr1 & Hap & Htr1 & HL1 & Hgt); [lia|].
  destruct (persist_epoch_local_spec malloc_size n K (to_be_persisted s) (val tr l) tid HK Htid)
    as (lg & kk & Hpe & HK1 & _).
  unfold tbp_persist_epoch_local, on_tbp, after_persist. rewrite Hpe.
  cbn [persisted_epochs with_tbp]. fold tr. rewrite Hap.
  destruct (IH (with_pers tr1 (with_tbp kk lg s))) as (tr2 & kk2 & lg2 & Hrun & Htr2 & HK2);
    [done|done|simpl; by rewrite HL1|done|simpl; lia|lia|done|].
  exists tr2, kk2, (lg ++ lg2). split; [|done].
  etrans; [exact Hrun|]. unfold with_pers, with_tbp. simpl. by rewrite app_assoc.
Qed.

(** ** Transactions *)

Lemma reinit_desc_ok k s tid :
  ctl k s → 0 < k → (tid < n)%nat →
  ∃ m, reinit_desc tid s = (Ret tt, with_dm (Dmem (cells (dm s)) m (g s)) s) ∧
    ctl (k - 1) (with_dm (Dmem (cells (dm s)) m (g s)) s).
Proof.
  intros [H1 H2 H3 H4 H5 H6] Hk Ht. destruct (H3 tid Ht) as (d & D & Hd & HD & Hsn).
  unfold reinit_desc, mbind_, local_desc, on_dm, load_desc, store_desc, lift_outcome, reinit, increment_sn.
  rewrite Hd, HD. destruct (Z.eqb_spec (Z.land (d_tid_sn D) SN_MASK) SN_MASK); [lia|].
  eexists. split; [destruct s as [[] ]; reflexivity|]. constructor; simpl; unfold g in *; simpl; try done; [lia|].
  intros t Htn. destruct (H3 t Htn) as (d' & D' & Hd' & HD' & Hsn'). exists d'.
  destruct (decide (d = d')) as [->|Hne].
  - rewrite HD in HD'. injection HD' as <-. eexists. split; [done|]. rewrite lookup_insert_eq. split; [done|].
    simpl. rewrite !sn_mask_mod in *. unfold u64, U64, SN_MASK in *.
    rewrite Z.mod_mod_divide by (by exists (2 ^ 16)).
    change (2 ^ 48) with 281474976710656 in *. Z.to_euclidean_division_equations. lia.
  - exists D'. rewrite lookup_insert_ne by done. split_and!; [done|done|lia].
Qed.

Lemma set_up_desc_epoch_ok k s tid e :
  ctl k s → (tid < n)%nat →
  ∃ m, set_up_desc_epoch tid e s = (Ret tt, with_dm (Dmem (cells (dm s)) m (g s)) s) ∧
    ctl k (with_dm (Dmem (cells (dm s)) m (g s)) s).
Proof.
  intros [H1 H2 H3 H4 H5 H6] Ht. destruct (H3 tid Ht) as (d & D & Hd & HD & Hsn).
  unfold set_up_desc_epoch, mbind_, local_desc, on_dm, load_desc, store_desc. rewrite Hd, HD.
  eexists. split; [destruct s as [[] ]; reflexivity|]. constructor; simpl; unfold g in *; simpl; try done.
  intros t Htn. destruct (H3 t Htn) as (d' & D' & Hd' & HD' & Hsn'). exists d'.
  destruct (decide (d = d')) as [->|Hne].
  - rewrite HD in HD'. injection HD' as <-. eexists. split; [done|]. by rewrite lookup_insert_eq.
  - exists D'. by rewrite lookup_insert_ne.
Qed.

(** [last_epochs] and the helping loop of [begin_transaction] *)
Lemma begin_help_ok k K F s tid :
  ctl k s → stock K F s → (tid < n)%nat → 0 ≤ k →
  ∃ s', (let* last_epoch := get_last_epoch tid in
         if negb (last_epoch =? g s) then
           do* set_last_epoch tid (g s) in
           let* target := mget target_epoch in
           let persist_until := Z.min (target -₆ 2) (g s -₆ 1) in
           let* leaf := next_epoch tid in
           help_persist malloc_size (S (S (Z.to_nat (persist_until - leaf)))) persist_until tid
         else mret_ tt) s = (Ret tt, s') ∧
    ctl k s' ∧ stock K F s' ∧ g s' = g s ∧ heap s' = heap s ∧ trans_tracker s' = trans_tracker s ∧
    to_be_freed s' = to_be_freed s ∧ uid_generator s' = uid_generator s.
Proof.
  intros Hctl Hst Ht Hk. pose proof Hctl as [H1 H2 H3 H4 H5 H6]. destruct (H5 tid Ht) as [e He].
  unfold mbind_, get_last_epoch. rewrite He.
  destruct (Z.eqb_spec e (g s)) as [->|Hne]; simpl; [by exists s|].
  unfold set_last_epoch, mmod, mget, next_epoch, next_epoch_to_persist. simpl.
  destruct (lookup_lt_is_Some_2 (leaves (persisted_epochs s)) tid) as [l Hl].
  { pose proof (tree_len _ H6). lia. }
  rewrite Hl. set (until := Z.min _ _). set (s1 := with_last _ s).
  assert (until < UINT64_MAX) as Hu.
  { unfold until, UINT64_MAX. unfold INIT_EPOCH in H2. rewrite (u64_small (g s - 1)) by (unfold is_u64; lia). lia. }
  destruct (help_persist_ok (K + Z.of_nat (length F)) tid l until
    (S (S (Z.to_nat (until - val (persisted_epochs s) l)))) s1) as (tr & kk & lg & Hrun & Htr & HK);
    [done|done|done|done|simpl; lia|lia|by destruct Hst as [? []]|].
  eexists. split; [exact Hrun|]. split; [|split; [|done]].
  - constructor; simpl; try done. intros t Htn. destruct (decide (t = tid)) as [->|].
    + rewrite list_lookup_insert_eq by (by eapply lookup_lt_Some). done.
    + rewrite list_lookup_insert_ne by done. by apply H5.
  - by eapply stock_same; [..|exact Hst].
Qed.

Lemma begin_transaction_ok k K F s tid reg :
  ctl k s → 0 < k → stock K F s → (tid < n)%nat → tt_rep n (trans_tracker s) reg → reg tid = None →
  ∃ l F' s', begin_transaction malloc_size n tid s = (Ret (g s), s') ∧ ctl (k - 1) s' ∧
    stock K F' s' ∧ g s' = g s ∧ F ≡ₚ l ++ F' ∧ reclaims tid (g s) l s s' ∧ uid_generator s' = uid_generator s ∧
    tt_rep n (trans_tracker s') (<[tid := Some (g s)]> reg).
Proof.
  intros Hctl Hk Hst Ht Hrep Hreg. pose proof (ctl_epoch _ _ Hctl) as Hg. unfold INIT_EPOCH in Hg.
  destruct (reinit_desc_ok k s tid Hctl Hk Ht) as (m1 & H1 & Hctl1).
  set (s1 := with_dm _ s) in *. set (s2 := with_tracker (tt_set tid (g s) (trans_tracker s)) s1).
  assert (register_active 1 tid s1 = (Ret (g s), s2)) as H2.
  { unfold register_active, mbind_, get_epoch, mget, consistent_register. simpl. by rewrite Z.eqb_refl. }
  assert (ctl (k - 1) s2) as Hctl2 by (by destruct Hctl1; constructor).
  destruct (begin_help_ok (k - 1) K F s2 tid) as (s3 & H3 & Hctl3 & Hst3 & Hg3 & Hh3 & Htr3 & Htf3 & Hu3); [done| |done|lia|].
  { by eapply stock_same; [..|exact Hst]. }
  change (g s2) with (g s) in *.
  destruct (free_on_new_epoch_ok K F s3 tid Hst3 Ht) as (l & F' & s4 & H4 & Hf4 & Hst4 & HF & Hcut);
    [unfold INIT_EPOCH; lia|lia|]. rewrite Hg3 in H4, Hcut.
  assert (g s4 = g s) as Hg4 by (destruct Hf4 as (Hdm & _); unfold g in *; by rewrite Hdm).
  destruct (set_up_desc_epoch_ok (k - 1) s4 tid (g s)) as (m5 & H5 & Hctl5); [by eapply ctl_frame|done|].
  exists l, F', (with_dm (Dmem (cells (dm s4)) m5 (g s4)) s4). split_and!.
  - unfold begin_transaction. unfold mbind_ at 1. rewrite H1. unfold mbind_ at 1. rewrite H2.
    unfold mbind_ in H3 |- *. destruct (get_last_epoch tid s2) as [[last_epoch|err] sx]; [|done]. simpl in H3 |- *.
    destruct (negb (last_epoch =? g s)); rewrite H3, H4, H5; done.
  - done.
  - eapply stock_same; [..|exact Hst4]; done.
  - done.
  - done.
  - unfold reclaims in Hcut |- *. rewrite Hh3, Htf3 in Hcut. exact Hcut.
  - destruct Hf4 as (_ & _ & Hu4 & _). simpl. by rewrite Hu4, Hu3.
  - simpl. destruct Hf4 as (_ & _ & _ & Htr4 & _). rewrite Htr4, Htr3. simpl.
    apply tt_rep_set; [done|done|done|]. unfold NULL_EPOCH. lia.
Qed.

(** ** Registrations and the containers *)

Lemma stock_mono K K' F s : 0 ≤ K' ≤ K → stock K F s → stock K' F s.
Proof.
  intros HK [H0 [Hb Hd] He Hw Hnd Hal]. constructor; try done; [lia|].
  split; [|done]. eapply fc_ok_mono; [|exact Hb]. lia.
Qed.

Lemma stock_heap K F s h :
  (∀ b, b ∈ F → is_Some (h !! b)) → stock K F s → stock K F (with_heap h s).
Proof.
  intros Hh [H0 Hr He Hw Hnd Hal]. constructor; try done. intros b Hb. split; [by apply Hal|by apply Hh].
Qed.

Lemma stock_heap_insert K F s b x : stock K F s → stock K F (with_heap (<[b := x]> (heap s)) s).
Proof.
  intros Hs. apply stock_heap; [|done]. intros a Ha. rewrite lookup_insert.
  case_decide; [done|]. by apply (st_alloc _ _ _ Hs).
Qed.

Lemma stock_persist K F s b c tid :
  stock K F s → 0 < K → (tid < n)%nat → 0 < b → c ≠ NULL_EPOCH →
  ∃ l kk, tbp_register_persist malloc_size b c tid s = (Ret tt, with_tbp kk l s) ∧
    stock (K - 1) F (with_tbp kk l s).
Proof.
  intros [H0 Hr He Hw Hnd Hal] HK Ht Hb Hc.
  destruct (tbp_register_persist_ok malloc_size n (K + Z.of_nat (length F)) s b c tid)
    as (l & kk & Hrun & Hok & _); [done|lia|done|done|done|].
  exists l, kk. split; [done|]. constructor; try done; [lia|]. destruct Hr as [_ Hd].
  split; [|done]. by replace (K - 1 + Z.of_nat (length F)) with (K + Z.of_nat (length F) - 1) by lia.
Qed.

(** [register_free]: the block waits in the window of [c]. *)
Definition push_wait (b c : Z) (tid : nat) (f : tlfc Z) : tlfc Z :=
  Tlfc (tab_set (container f) (win c) tid (slot (container f) tid (win c) ++ [b])) (threadEpoch f).

Lemma stock_free K F s b c tid :
  stock K F s → 0 < K → (tid < n)%nat → 0 < b → b ∉ F → is_Some (heap s !! b) →
  let k := push_wait b c tid (to_be_freed s) in
  tbf_register_free b c tid s = (Ret tt, with_tbf k s) ∧ stock (K - 1) (b :: F) (with_tbf k s).
Proof.
  intros [H0 [Hbw Hd] He Hw Hnd Hal] HK Ht Hb HbF Hsome. unfold tbf_register_free, tl_register_free.
  destruct (Z.eqb_spec b 0); [lia|]. rewrite (vc_push_slot n) by done. split; [done|]. unfold push_wait.
  set (v := container (to_be_freed s)) in *. constructor; simpl; try done.
  - lia.
  - split; simpl; [|auto with montage].
    by replace (K - 1 + Z.of_nat (S (length F))) with (K + Z.of_nat (length F)) by lia.
  - destruct (wait_all_split n v tid Ht) as (rest & Hsplit & Hother).
    rewrite Hother by (intros t Hne; by apply waiting_set_other).
    rewrite <- (waiting_set n v tid (win c) [b]) by auto with montage.
    rewrite <- Hw, Hsplit. solve_Permutation.
  - by apply NoDup_cons.
  - intros a. rewrite elem_of_cons. intros [->|Ha]; [done|by apply Hal].
Qed.

Lemma stock_delete K F s b x c tid :
  stock K F s → 0 < K → (tid < n)%nat → 0 < b → b ∉ F → c ≠ NULL_EPOCH → heap s !! b = Some x →
  ∃ s', delete_pblk malloc_size n b c tid s = (Ret tt, s') ∧ heap s' = delete b (heap s) ∧
    frame s s' ∧ stock (K - 1) F s' ∧ to_be_freed s' = to_be_freed s.
Proof.
  intros [H0 Hr He Hw Hnd Hal] HK Ht Hb HbF Hc Hx.
  destruct (delete_pblk_ok malloc_size n n (K + Z.of_nat (length F)) s b x c tid)
    as (s' & Hrun & Hh & Hf & Hr' & Htbf); [done|lia|done|done|done|done|done|].
  exists s'. split_and!; [done|done|done| |done].
  assert (g s' = g s) as Hg by (destruct Hf as (Hdm & _); unfold g; by rewrite Hdm).
  constructor; rewrite ?Htbf, ?Hg; try done; [lia|..].
  - by replace (K - 1 + Z.of_nat (length F)) with (K + Z.of_nat (length F) - 1) by lia.
  - intros a Ha. rewrite Hh, lookup_delete_ne by set_solver. by apply Hal.
Qed.

(** ** Live payloads *)

(** A live block: allocated and not yet tagged when it is pending, tagged with
    an epoch that has begun otherwise. *)
Definition live_blk (e : Z) (pend : list Z) (h : gmap Z (pblk P)) (b : Z) (p : P) : Prop :=
  0 < b ∧ ∃ x, h !! b = Some x ∧ payload x = Some p ∧ get_data x = 0 ∧
    (b ∈ pend → epoch x = NULL_EPOCH ∧ blktype x = INIT) ∧
    (b ∉ pend → NULL_EPOCH < epoch x ≤ e ∧ (blktype x = ALLOC ∨ blktype x = UPDATE)).

(** ** The effects of the operations on the heap and the waiting blocks *)

Definition same_store s s' : Prop :=
  heap s' = heap s ∧ to_be_freed s' = to_be_freed s ∧ uid_generator s' = uid_generator s ∧ g s' = g s.

Definition register_eff (b : Z) (x : pblk P) (tid : nat) s s' : Prop :=
  g s' = g s ∧ to_be_freed s' = to_be_freed s ∧ ∃ i,
    heap s' = <[b := Pblk (retire x) (g s) ALLOC (tid_sn x) i 0 (payload x)]> (heap s) ∧
    (id x = 0 → uid_generator s !! tid = Some i ∧ uid_generator s' = <[tid := i +₆ 1]> (uid_generator s)).

Definition set_eff (b : Z) (x : pblk P) (b' : Z) (q : P) (tid : nat) s s' : Prop :=
  uid_generator s' = uid_generator s ∧ g s' = g s ∧
  ((b' = b ∧ epoch x = g s ∧ to_be_freed s' = to_be_freed s ∧ heap s' = <[b := set_payload q x]> (heap s)) ∨
   (epoch x < g s ∧ 0 < b' ∧ heap s !! b' = None ∧ to_be_freed s' = push_wait b (g s) tid (to_be_freed s) ∧
    heap s' = <[b' := Pblk 0 (g s) UPDATE 0 (id x) 0 (Some q)]> (heap s))).

Definition free_eff (b : Z) (x : pblk P) (tid : nat) s s' : Prop :=
  uid_generator s' = uid_generator s ∧ g s' = g s ∧
  ((epoch x = g s ∧ blktype x = ALLOC ∧ to_be_freed s' = to_be_freed s ∧ heap s' = delete b (heap s)) ∨
   (epoch x = g s ∧ blktype x = UPDATE ∧ to_be_freed s' = push_wait b (g s) tid (to_be_freed s) ∧
    heap s' = <[b := set_blktype DELETE x]> (heap s)) ∨
   (epoch x < g s ∧ ∃ d, 0 < d ∧ heap s !! d = None ∧
    to_be_freed s' = push_wait b (g s) tid (push_wait d (g s + 1) tid (to_be_freed s)) ∧
    heap s' = <[d := Pblk 0 (g s) DELETE 0 (id x) 0 None]> (heap s))).

Definition advance_eff s s' : Prop :=
  heap s' = heap s ∧ to_be_freed s' = to_be_freed s ∧ uid_generator s' = uid_generator s ∧ g s' = g s + 1.

Hypothesis ralloc_fresh : ∀ h, h !! ralloc h = None.
Hypothesis ralloc_pos : ∀ h, 0 < ralloc h.

(** A further invariant of the heap and the waiting blocks, for the budget, the
    pending allocations and the live payloads, that the effects keep. *)
Class heap_inv (W : Z → list Z → esys → gmap Z P → Prop) : Prop := {
  hi_mono k k' pend s L : 0 ≤ k' ≤ k → W k pend s L → W k' pend s L;
  hi_same k pend s s' L : same_store s s' → W k pend s L → W k pend s' L;
  hi_new k pend s L p : W k pend s L → 0 < k → let b := ralloc (heap s) in
    W (k - 1) (pend ++ [b]) (with_heap (<[b := new_PBlk p 0]> (heap s)) s) (<[b := p]> L);
  hi_unsafe k pend s L b x p : W k pend s L → b ∈ pend → heap s !! b = Some x → epoch x = NULL_EPOCH →
    W k pend (with_heap (<[b := set_payload p x]> (heap s)) s) (<[b := p]> L);
  hi_register k pend s s' L b x tid : W k (b :: pend) s L → b ∉ pend → (tid < n)%nat →
    heap s !! b = Some x → is_Some (L !! b) → register_eff b x tid s s' → W k pend s' L;
  hi_reclaim k pend s s' L l tid : W k pend s L → (tid < n)%nat → g s' = g s →
    uid_generator s' = uid_generator s → reclaims tid (g s) l s s' → W k pend s' L;
  hi_set k s s' L b x p b' q tid : W k [] s L → 0 < k → (tid < n)%nat →
    threadEpoch (to_be_freed s) !! tid = Some (g s) → L !! b = Some p → heap s !! b = Some x →
    NULL_EPOCH < epoch x → blktype x = ALLOC ∨ blktype x = UPDATE →
    set_eff b x b' q tid s s' → W (k - 1) [] s' (<[b' := q]> (delete b L));
  hi_free k s s' L b x p tid : W k [] s L → 0 < k → (tid < n)%nat →
    threadEpoch (to_be_freed s) !! tid = Some (g s) → L !! b = Some p → heap s !! b = Some x →
    NULL_EPOCH < epoch x → blktype x = ALLOC ∨ blktype x = UPDATE →
    free_eff b x tid s s' → W (k - 1) [] s' (delete b L);
  hi_drop k pend pend' s L b x : W k pend s L → pend ≡ₚ b :: pend' → NoDup pend → heap s !! b = Some x →
    epoch x = NULL_EPOCH → W k pend' (with_heap (delete b (heap s)) s) (delete b L);
  hi_young k s L b x p : W k [] s L → L !! b = Some p → heap s !! b = Some x → epoch x = g s →
    blktype x = ALLOC → W k [] (with_heap (delete b (heap s)) s) (delete b L);
}.

(** The state between two calls: budget [k], pending allocations [pend],
    registrations [reg], live payloads [L], waiting blocks [F]. *)
Record eok (W : Z → list Z → esys → gmap Z P → Prop)
    (k : Z) (pend : list Z) (reg : nat → option Z) (s : esys) (L : gmap Z P) (F : list Z) : Prop := {
  eok_k : 0 ≤ k;
  eok_ctl : ctl k s;
  eok_stock : stock (4 * k + Z.of_nat (length pend)) F s;
  eok_rep : tt_rep n (trans_tracker s) reg;
  eok_live : ∀ b p, L !! b = Some p → b ∉ F ∧ live_blk (g s) pend (heap s) b p;
  eok_nodup : NoDup pend;
  eok_pend : ∀ b, b ∈ pend → is_Some (L !! b);
  eok_te : ∀ t e, (t < n)%nat → reg t = Some e → threadEpoch (to_be_freed s) !! t = Some e;
  eok_inv : W k pend s L;
}.
Arguments eok_k {_} _ _ _ _ _ _ _.
Arguments eok_ctl {_} _ _ _ _ _ _ _.
Arguments eok_stock {_} _ _ _ _ _ _ _.
Arguments eok_rep {_} _ _ _ _ _ _ _.
Arguments eok_live {_} _ _ _ _ _ _ _.
Arguments eok_nodup {_} _ _ _ _ _ _ _.
Arguments eok_pend {_} _ _ _ _ _ _ _.
Arguments eok_te {_} _ _ _ _ _ _ _.
Arguments eok_inv {_} _ _ _ _ _ _ _.

Context (W : Z → list Z → esys → gmap Z P → Prop) `{!heap_inv W}.

Lemma live_blk_other e pend pend' h h' b p :
  h' !! b = h !! b → (b ∈ pend' ↔ b ∈ pend) → live_blk e pend h b p → live_blk e pend' h' b p.
Proof. intros Hh Hp (Hb & x & ?). split; [done|]. exists x. by rewrite Hh, Hp. Qed.

Lemma live_blk_le e e' pend h b p : e ≤ e' → live_blk e pend h b p → live_blk e' pend h b p.
Proof.
  intros He (Hb & x & Hx & Hp & Hd & Hin & Hout). split; [done|]. exists x. split_and!; try done.
  intros Hn. destruct (Hout Hn) as [??]. split; [lia|done].
Qed.

Lemma live_blk_tagged e pend h b p x :
  0 < b → b ∉ pend → h !! b = Some x → payload x = Some p → get_data x = 0 → NULL_EPOCH < epoch x ≤ e →
  blktype x = ALLOC ∨ blktype x = UPDATE → live_blk e pend h b p.
Proof. intros. split; [done|]. by exists x. Qed.


Lemma eok_fresh k pend reg s L F : eok W k pend reg s L F → L !! ralloc (heap s) = None ∧ ralloc (heap s) ∉ F.
Proof.
  intros He. pose proof (ralloc_fresh (heap s)) as Hf. split.
  - destruct (L !! _) as [p|] eqn:Hp; [exfalso|done].
    destruct (eok_live _ _ _ _ _ _ He _ _ Hp) as (_ & _ & x & Hx & _). congruence.
  - intros Hin. destruct (st_alloc _ _ _ (eok_stock _ _ _ _ _ _ He) _ Hin) as [_ [x Hx]]. congruence.
Qed.

(** Changing one block that is live afterwards. *)
Lemma live_update k pend (pend' : list Z) reg s L F (F' : list Z) b p h :
  eok W k pend reg s L F → (∀ a, a ≠ b → a ∈ pend' ↔ a ∈ pend) → (∀ a, a ∈ F' → a ∈ F) →
  b ∉ F' → (∀ a, a ≠ b → h !! a = heap s !! a) → live_blk (g s) pend' h b p →
  ∀ a q, <[b := p]> L !! a = Some q → a ∉ F' ∧ live_blk (g s) pend' h a q.
Proof.
  intros He Hp HF Hb Hh Hl a q. rewrite lookup_insert. case_decide as Hab.
  - subst. by intros [= <-].
  - intros Ha. destruct (eok_live _ _ _ _ _ _ He a q Ha) as [HaF Hla].
    split; [auto|]. eapply live_blk_other; [by apply Hh|by apply Hp|done].
Qed.

Lemma eok_new k pend reg s L F p :
  eok W k pend reg s L F → 0 < k →
  let b := ralloc (heap s) in
  ∃ s', new_pblk ralloc (new_PBlk p 0) s = (Ret b, s') ∧ L !! b = None ∧ g s' = g s ∧
    eok W (k - 1) (pend ++ [b]) reg s' (<[b := p]> L) F.
Proof.
  intros He Hk b. destruct (eok_fresh _ _ _ _ _ _ He) as [HL HF].
  pose proof He as [H0 Hc Hs Hr Hl Hn Hp Hte HW]. eexists. split; [done|]. split; [done|]. split; [done|].
  assert (b ∉ pend) as Hbp by (intros Hin; destruct (Hp b Hin); unfold b in *; congruence).
  constructor; simpl; try done.
  - lia.
  - apply (ctl_frame _ s); [by repeat split|]. eapply ctl_mono; [|done]. lia.
  - apply stock_heap_insert. eapply stock_mono; [|done]. rewrite length_app. simpl. lia.
  - apply (live_update k pend _ reg s L F); [done| |done|done| |].
    + intros a Ha. rewrite elem_of_app, list_elem_of_singleton. naive_solver.
    + intros a Ha. by apply lookup_insert_ne.
    + split; [by apply ralloc_pos|]. eexists. rewrite lookup_insert_eq. split; [done|].
      split_and!; try done. intros Hno. exfalso. apply Hno. set_solver.
  - apply NoDup_app. split_and!; [done| |apply NoDup_singleton]. set_solver.
  - intros a. rewrite elem_of_app, list_elem_of_singleton, lookup_insert. case_decide; [done|].
    intros [?| ->]; [by apply Hp|done].
  - by apply hi_new.
Qed.

Lemma eok_register_alloc k pend reg s L F b tid :
  eok W k (b :: pend) reg s L F → (tid < n)%nat →
  ∃ s', register_alloc_pblk malloc_size b (g s) tid s = (Ret tt, s') ∧ g s' = g s ∧
    eok W k pend reg s' L F ∧ ∃ y, heap s' = <[b := y]> (heap s) ∧ epoch y = g s ∧ blktype y = ALLOC.
Proof.
  intros He Ht. pose proof He as [H0 Hc Hs Hr Hl Hn Hp Hte HW].
  destruct (Hp b) as [p HLb]; [set_solver|].
  destruct (Hl b p HLb) as (HbF & Hb & x & Hx & Hpay & Hdata & Hin & _).
  destruct Hin as [Hep Hty]; [set_solver|]. pose proof (ctl_epoch _ _ Hc) as [Hg _]. unfold INIT_EPOCH in Hg.
  apply NoDup_cons in Hn as [Hbp Hn].
  destruct (ctl_uid _ _ Hc tid Ht) as [u Hu].
  assert (∃ i u', register_alloc_pblk malloc_size b (g s) tid s =
    tbp_register_persist malloc_size b (g s) tid (with_uid u' (with_heap
      (<[b := Pblk (retire x) (g s) ALLOC (tid_sn x) i 0 (Some p)]> (heap s)) s)) ∧
    (∀ t, is_Some (uid_generator s !! t) → is_Some (u' !! t)) ∧
    (id x = 0 → uid_generator s !! tid = Some i ∧ u' = <[tid := i +₆ 1]> (uid_generator s)))
    as (i & u' & -> & Hu' & Hid').
  { unfold register_alloc_pblk, mbind_ at 1, mget. cbn [register_alloc_loop].
    unfold modify_blk, mbind_, read_blk, write_blk, mmod, massert, mret_, mget.
    destruct (Z.eqb_spec (g s) NULL_EPOCH) as [E|_]; [unfold NULL_EPOCH in E; lia|]. simpl. rewrite Hx. simpl.
    rewrite lookup_insert_eq. simpl. rewrite Hty. simpl.
    rewrite lookup_insert_eq. simpl. destruct (Z.eqb_spec (id x) 0) as [Hid|Hid].
    - unfold UIDGen.get_id. cbn [uid_generator with_heap]. rewrite Hu. simpl. rewrite lookup_insert_eq. simpl.
      exists u, (<[tid := u +₆ 1]> (uid_generator s)). unfold set_id, set_blktype, set_epoch. simpl.
      rewrite Hdata, Hpay. simpl. rewrite !insert_insert_eq.
      split; [by destruct (tbp_register_persist _ _ _ _ _) as [[[]|] ?]|]. split; [|done].
      intros t [y Hy]. destruct (decide (t = tid)) as [->|].
      + rewrite list_lookup_insert_eq by (by eapply lookup_lt_Some). done.
      + by rewrite list_lookup_insert_ne.
    - exists (id x), (uid_generator s). split; [|done]. unfold set_blktype, set_epoch. simpl.
      rewrite Hdata, Hpay. simpl. rewrite insert_insert_eq.
      by destruct s, (tbp_register_persist _ _ _ _ _) as [[[]|] ?]. }
  match goal with |- context [tbp_register_persist _ _ _ _ ?s1] => set (s1' := s1) end.
  assert (stock (4 * k + Z.of_nat (length (b :: pend))) F s1') as Hs1.
  { eapply stock_same; [..|apply (stock_heap_insert _ _ s b), Hs]; done. }
  destruct (stock_persist _ F s1' b (g s) tid Hs1) as (l & kk & -> & Hs2);
    [simpl; lia|done|done|unfold NULL_EPOCH; lia|].
  eexists. split; [done|]. split; [done|]. split; [|by eexists]. constructor; simpl; try done.
  - destruct Hc as [H1 H2 H3 H4 H5 H6]. constructor; simpl; try done. intros t Htn. apply Hu', H4, Htn.
  - simpl in Hs2. by replace (4 * k + Z.of_nat (length pend)) with (4 * k + Z.of_nat (S (length pend)) - 1) by lia.
  - rewrite <- (insert_id L b p HLb).
    apply (live_update k (b :: pend) pend reg s L F F b); [done|set_solver|done|done| |].
    + intros a Ha. by apply lookup_insert_ne.
    + eapply live_blk_tagged; [done|done|apply lookup_insert_eq|done|done| |by left].
      simpl. unfold NULL_EPOCH. lia.
  - intros a Ha. apply Hp. set_solver.
  - eapply (hi_register k pend s); [exact HW|done|exact Ht|exact Hx|by eexists|].
    split; [done|]. split; [done|]. exists i. rewrite Hpay. done.
Qed.

Lemma eok_begin k pend reg s L F tid :
  eok W k pend reg s L F → 0 < k → (tid < n)%nat → reg tid = None →
  ∃ l F' s', begin_transaction malloc_size n tid s = (Ret (g s), s') ∧ g s' = g s ∧
    eok W (k - 1) pend (<[tid := Some (g s)]> reg) s' L F' ∧
    F ≡ₚ l ++ F' ∧ reclaims tid (g s) l s s' ∧ uid_generator s' = uid_generator s.
Proof.
  intros [H0 Hc Hs Hr Hl Hn Hp Hte HW] Hk Ht Hreg.
  destruct (begin_transaction_ok k _ F s tid reg Hc Hk Hs Ht Hr Hreg)
    as (l & F' & s' & Hrun & Hc' & Hs' & Hg & HF & Hcut & Hu & Hr').
  exists l, F', s'. split; [done|]. split; [done|]. split; [|done]. constructor; try done.
  - lia.
  - eapply stock_mono; [|done]. lia.
  - intros b p HL. destruct (Hl b p HL) as [HbF Hlive]. rewrite HF in HbF.
    split; [set_solver|]. rewrite Hg. eapply live_blk_other; [|done|exact Hlive].
    apply Hcut. set_solver.
  - destruct Hcut as [_ [_ (te & Hte' & Hte2 & _)]]. intros t e Htn. rewrite Hte2.
    destruct (decide (t = tid)) as [->|Hne].
    + rewrite fn_lookup_insert. intros [= <-]. rewrite list_lookup_insert_eq; [done|]. by eapply lookup_lt_Some.
    + rewrite fn_lookup_insert_ne, list_lookup_insert_ne by done. by apply Hte.
  - eapply (hi_reclaim (k - 1) pend s); [|exact Ht|done|done|exact Hcut]. eapply hi_mono; [|exact HW]. lia.
Qed.

Lemma eok_unregister k reg s L F tid e :
  eok W k [] reg s L F → (tid < n)%nat → reg tid = Some e →
  eok W k [] (<[tid := None]> reg) (with_tracker (tt_unset tid e (trans_tracker s)) s) L F.
Proof.
  intros [H0 [H1 H2 H3 H4 H5 H6] Hs Hr Hl Hn Hp Hte HW] Ht Hreg. constructor; simpl; try done.
  - eapply stock_same; [..|exact Hs]; done.
  - by apply tt_rep_unset.
  - intros t e' Htn. destruct (decide (t = tid)) as [->|Hne]; [by rewrite fn_lookup_insert|].
    rewrite fn_lookup_insert_ne by done. by apply Hte.
  - eapply hi_same; [|exact HW]. by repeat split.
Qed.

Lemma eok_last k pend reg s L F tid e :
  eok W k pend reg s L F → eok W k pend reg (with_last (<[tid := e]> (last_epochs s)) s) L F.
Proof.
  intros [H0 [H1 H2 H3 H4 H5 H6] Hs Hr Hl Hn Hp Hte HW]. constructor; simpl; try done.
  - constructor; simpl; try done. intros t Ht. destruct (H5 t Ht) as [y Hy].
    destruct (decide (t = tid)) as [->|].
    + rewrite list_lookup_insert_eq by (by eapply lookup_lt_Some). done.
    + by rewrite list_lookup_insert_ne.
  - eapply stock_same; [..|exact Hs]; done.
  - eapply hi_same; [|exact HW]. by repeat split.
Qed.

(** Replacing or removing a live block: what is left of [L] stays live. *)
Lemma live_remove k reg s L F (F' : list Z) b h :
  eok W k [] reg s L F → (∀ a, a ∈ F' → a = b ∨ a ∈ F ∨ heap s !! a = None) →
  (∀ a, a ≠ b → is_Some (heap s !! a) → h !! a = heap s !! a) →
  ∀ a q, delete b L !! a = Some q → a ∉ F' ∧ live_blk (g s) [] h a q.
Proof.
  intros He HF Hh a q. rewrite lookup_delete_Some. intros [Hab Ha].
  destruct (eok_live _ _ _ _ _ _ He a q Ha) as [HaF Hla]. pose proof Hla as (_ & x & Hx & _). split.
  - intros Hin. destruct (HF a Hin) as [->|[?|Hno]]; [done|done|congruence].
  - eapply live_blk_other; [|done|exact Hla]. apply Hh; [done|by eexists].
Qed.

(** After a call that leaves the threads alone *)
Lemma eok_rebuild k K reg s s' L L' F F' :
  eok W k [] reg s L F → 0 < k → frame s s' →
  threadEpoch (to_be_freed s') = threadEpoch (to_be_freed s) → stock K F' s' → 4 * (k - 1) ≤ K →
  (∀ a q, L' !! a = Some q → a ∉ F' ∧ live_blk (g s) [] (heap s') a q) → W (k - 1) [] s' L' →
  eok W (k - 1) [] reg s' L' F'.
Proof.
  intros [H0 Hc Hs Hr Hl Hn Hp Hte HW] Hk Hf He Hs' HK Hl' HW'. pose proof Hf as (Hdm & _ & _ & Htr & _).
  assert (g s' = g s) as Hg by (unfold g; by rewrite Hdm).
  constructor; rewrite ?Htr, ?He, ?Hg; try done; [lia| | |intros b; set_solver].
  - apply (ctl_frame _ s); [done|]. eapply ctl_mono; [|done]. lia.
  - eapply stock_mono; [|exact Hs']. simpl. lia.
Qed.

Lemma eok_set k reg s L F b p (f : P → P) tid :
  eok W k [] reg s L F → 0 < k → (tid < n)%nat → reg tid = Some (g s) → L !! b = Some p →
  ∃ b' F' s', set_field ralloc malloc_size b (g s) (fmap f) tid s = (Ret b', s') ∧ g s' = g s ∧
    (b' = b ∨ L !! b' = None) ∧ eok W (k - 1) [] reg s' (<[b' := f p]> (delete b L)) F'.
Proof.
  intros He Hk Ht Hreg HLb. pose proof He as [H0 Hc Hs Hr Hl Hn Hp Hte HW].
  destruct (Hl b p HLb) as (HbF & Hb & x & Hx & Hpay & Hdata & _ & Hout).
  destruct Hout as [Hep Hty]; [set_solver|]. pose proof (ctl_epoch _ _ Hc) as [Hg _].
  unfold INIT_EPOCH, NULL_EPOCH in *. simpl in Hs. change (Z.of_nat 0) with 0 in Hs. rewrite Z.add_0_r in Hs.
  unfold set_field, openwrite_pblk, validate_access, register_update_pblk.
  unfold modify_blk, mbind_, read_blk, write_blk, new_pblk, mmod, massert, mret_, NULL_EPOCH.
  destruct (Z.eqb_spec (g s) 0); [lia|]. simpl. rewrite Hx. simpl.
  destruct (Z.ltb_spec (g s) (epoch x)); [lia|]. rewrite Hx.
  destruct (Z.ltb_spec (epoch x) (g s)) as [Hlt|Hge].
  - destruct (stock_free _ F s b (g s) tid Hs) as (-> & Hs1); [lia|done|done|done|by eexists|].
    destruct (eok_fresh _ _ _ _ _ _ He) as [HLf HFf]. pose proof (ralloc_pos (heap s)) as Hpos. simpl.
    set (b' := ralloc (heap s)) in *. destruct (Z.eqb_spec b' 0); [lia|]. simpl.
    rewrite !lookup_insert_eq. simpl. rewrite !lookup_insert_eq. simpl. rewrite !lookup_insert_eq. simpl.
    rewrite !insert_insert_eq.
    match goal with |- context [tbp_register_persist _ _ _ _ ?s1] => set (s1' := s1) end.
    pose proof (stock_heap_insert _ _ _ b' _ Hs1 : stock (4 * k - 1) (b :: F) s1') as Hs2.
    destruct (stock_persist _ (b :: F) s1' b' (g s) tid Hs2) as (l & kk & -> & Hs3); [lia|done|done|
      unfold NULL_EPOCH; lia|].
    assert (b' ≠ b) as Hne by (intros E; pose proof (ralloc_fresh (heap s)) as Hfr; fold b' in Hfr; congruence).
    eexists b', (b :: F), _. split; [done|]. split; [done|]. split; [by right|].
    eapply (eok_rebuild k _ reg s); [exact He|done|by repeat split|done|exact Hs3|lia| |]; simpl.
    + intros a q. rewrite lookup_insert. case_decide as Hab.
      * subst a. intros [= <-]. split; [by apply not_elem_of_cons|].
        eapply live_blk_tagged; [done|set_solver|apply lookup_insert_eq|simpl; by rewrite Hpay|done| |by right].
        change (g _) with (g s). unfold NULL_EPOCH. simpl. lia.
      * apply (live_remove k reg s L F (b :: F) b); [done|set_solver|].
        intros c Hcb [y Hy]. rewrite lookup_insert_ne; [done|]. intros <-.
        pose proof (ralloc_fresh (heap s)) as Hfr. fold b' in Hfr. congruence.
    + eapply (hi_set k s); [exact HW|done|exact Ht|by apply Hte|exact HLb|exact Hx|unfold NULL_EPOCH; lia|done|].
      split; [done|]. split; [done|]. right. split; [done|]. split; [done|]. split; [by apply ralloc_fresh|]. split; [done|].
      simpl. by rewrite Hdata, Hpay.
  - rewrite Hx. simpl.
    match goal with |- context [tbp_register_persist _ _ _ _ ?s1] => set (s1' := s1) end.
    destruct (stock_persist (4 * k) F s1' b (g s) tid) as (l & kk & -> & Hs3);
      [by apply stock_heap_insert|lia|done|done|unfold NULL_EPOCH; lia|].
    eexists b, F, _. split; [done|]. split; [done|]. split; [by left|].
    eapply (eok_rebuild k _ reg s); [exact He|done|by repeat split|done|exact Hs3|lia| |]; simpl.
    + intros a q. rewrite lookup_insert. case_decide as Hab.
      * subst a. intros [= <-]. split; [done|].
        by eapply live_blk_tagged; [|set_solver|apply lookup_insert_eq|simpl; by rewrite Hpay|..].
      * apply (live_remove k reg s L F F b); [done|set_solver|].
        intros c Hcb _. by rewrite lookup_insert_ne.
    + eapply (hi_set k s); [exact HW|done|exact Ht|by apply Hte|exact HLb|exact Hx|unfold NULL_EPOCH; lia|done|].
      split; [done|]. split; [done|]. left. split; [done|]. split; [lia|]. split; [done|]. simpl. by rewrite Hpay.
Qed.

Lemma eok_free k reg s L F b p tid :
  eok W k [] reg s L F → 0 < k → (tid < n)%nat → reg tid = Some (g s) → L !! b = Some p →
  ∃ F' s', free_pblk ralloc malloc_size n b (g s) tid s = (Ret tt, s') ∧ g s' = g s ∧
    eok W (k - 1) [] reg s' (delete b L) F'.
Proof.
  intros He Hk Ht Hreg HLb. pose proof He as [H0 Hc Hs Hr Hl Hn Hp Hte HW].
  destruct (Hl b p HLb) as (HbF & Hb & x & Hx & Hpay & Hdata & _ & Hout).
  destruct Hout as [Hep Hty]; [set_solver|]. pose proof (ctl_epoch _ _ Hc) as [Hg Hgm].
  unfold INIT_EPOCH, NULL_EPOCH in *. simpl in Hs. change (Z.of_nat 0) with 0 in Hs. rewrite Z.add_0_r in Hs.
  unfold free_pblk, modify_blk, mbind_, read_blk, write_blk, new_pblk, mmod, NULL_EPOCH. rewrite Hx.
  destruct (Z.eqb_spec (epoch x) 0); [lia|]. destruct (Z.ltb_spec (g s) (epoch x)); [lia|].
  destruct (Z.eqb_spec (epoch x) (g s)) as [Heq|Hne]; [destruct Hty as [Hty|Hty]; rewrite Hty|].
  - destruct (stock_delete _ F s b x (g s) tid Hs) as (s' & -> & Hh & Hf & Hs' & Htbf); [lia|done|done|done|
      unfold NULL_EPOCH; lia|done|].
    pose proof Hf as (Hdm & _ & _ & Htr & _). assert (g s' = g s) as Hgs by (unfold g; by rewrite Hdm).
    exists F, s'. split; [done|]. split; [done|].
    eapply (eok_rebuild k _ reg s); [exact He|done|exact Hf|by rewrite Htbf|exact Hs'|lia| |]; simpl.
    + apply (live_remove k reg s L F F b); [done|set_solver|].
      intros a Ha _. rewrite Hh. by apply lookup_delete_ne.
    + eapply (hi_free k s); [exact HW|done|exact Ht|by apply Hte|exact HLb|exact Hx|unfold NULL_EPOCH; lia|auto|].
      pose proof Hf as (_ & _ & Hu & _). split; [done|]. split; [done|]. left. by rewrite Htbf.
  - rewrite Hx.
    match goal with |- context [tbf_register_free _ _ _ ?s1] => set (s1' := s1) end.
    destruct (stock_free (4 * k) F s1' b (g s) tid) as (-> & Hs1);
      [by apply stock_heap_insert|lia|done|done|done|simpl; by rewrite lookup_insert_eq|].
    eexists (b :: F), _. split; [done|]. split; [done|].
    eapply (eok_rebuild k _ reg s); [exact He|done|by repeat split|done|exact Hs1|lia| |]; simpl.
    + apply (live_remove k reg s L F (b :: F) b); [done|set_solver|].
      intros a Ha _. by apply lookup_insert_ne.
    + eapply (hi_free k s); [exact HW|done|exact Ht|by apply Hte|exact HLb|exact Hx|unfold NULL_EPOCH; lia|auto|].
      split; [done|]. split; [done|]. right. by left.
  - destruct (eok_fresh _ _ _ _ _ _ He) as [HLf HFf]. pose proof (ralloc_pos (heap s)) as Hpos. simpl.
    pose proof (ralloc_fresh (heap s)) as Hfr. set (d := ralloc (heap s)) in *.
    assert (d ≠ b) as Hdb by congruence.
    rewrite !lookup_insert_eq. simpl. rewrite !lookup_insert_eq. simpl. rewrite !insert_insert_eq.
    match goal with |- context [tbp_register_persist _ _ _ _ ?s1] => set (s1' := s1) end.
    destruct (stock_persist (4 * k) F s1' d (g s) tid) as (l & kk & -> & Hs1);
      [exact (stock_heap_insert _ _ s d _ Hs)|lia|done|done|unfold NULL_EPOCH; lia|].
    destruct (stock_free _ F _ d (g s +₆ 1) tid Hs1) as (-> & Hs2);
      [lia|done|done|done|simpl; by rewrite lookup_insert_eq|].
    destruct (stock_free _ (d :: F) _ b (g s) tid Hs2) as (-> & Hs3);
      [lia|done|done|by apply not_elem_of_cons|simpl; by rewrite lookup_insert_ne, Hx|].
    eexists (b :: d :: F), _. split; [done|]. split; [done|].
    eapply (eok_rebuild k _ reg s); [exact He|done|by repeat split|done|exact Hs3|lia| |]; simpl.
    + apply (live_remove k reg s L F (b :: d :: F) b); [done| |].
      { intros a [->|[->|Ha]%elem_of_cons]%elem_of_cons; auto. }
      intros a Ha [y Hy]. apply lookup_insert_ne. congruence.
    + eapply (hi_free k s); [exact HW|done|exact Ht|by apply Hte|exact HLb|exact Hx|unfold NULL_EPOCH; lia|auto|].
      split; [done|]. split; [done|]. right. right. split; [lia|]. exists d. simpl. rewrite u64_small by (unfold is_u64; lia). done.
Qed.

(** [delete_pblk] outside an operation: the block is gone, nothing is written back. *)
Lemma delete_pblk_outside s b x tid :
  heap s !! b = Some x → sys_mode s = ONLINE →
  delete_pblk malloc_size n b NULL_EPOCH tid s = (Ret tt, with_heap (delete b (heap s)) s).
Proof.
  intros Hx Hm. unfold delete_pblk, modify_blk, mbind_, read_blk, write_blk, mmod, mget, mret_. rewrite Hx. simpl.
  rewrite Hm. simpl. by rewrite delete_insert_eq.
Qed.

(** A block that is not waiting for reclamation goes. *)
Lemma eok_gone k pend pend' reg s L F b :
  eok W k pend reg s L F → is_Some (L !! b) → NoDup pend' → (∀ a, a ∈ pend' ↔ a ∈ pend ∧ a ≠ b) →
  (length pend' ≤ length pend)%nat →
  W k pend' (with_heap (delete b (heap s)) s) (delete b L) →
  eok W k pend' reg (with_heap (delete b (heap s)) s) (delete b L) F.
Proof.
  intros He [p HLb] Hnd' Hp' Hlen HW'. pose proof He as [H0 Hc Hs Hr Hl Hn Hp Hte HW].
  destruct (Hl b p HLb) as [HbF _]. constructor; simpl; try done.
  - by apply (ctl_frame _ s); [repeat split|].
  - eapply stock_mono; [|apply stock_heap; [|exact Hs]].
    + split; [|lia]. lia.
    + intros a Ha. rewrite lookup_delete_ne by set_solver. by apply (st_alloc _ _ _ Hs).
  - intros a q Ha. apply lookup_delete_Some in Ha as [Hab Ha]. destruct (Hl a q Ha) as [HaF Hla].
    split; [done|]. eapply live_blk_other; [by apply lookup_delete_ne| |exact Hla]. rewrite Hp'. naive_solver.
  - intros a Ha. apply Hp' in Ha as [Ha Hab]. rewrite lookup_delete_ne by done. by apply Hp.
Qed.

(** The advance of the epoch may change the further invariant. *)
Lemma eok_advance (W' : Z → list Z → esys → gmap Z P → Prop) k reg s L F :
  eok W k [] reg s L F → (∀ t, reg t = None) → 0 < k → (0 < n)%nat →
  (∀ s', W k [] s L → advance_eff s s' → W' (k - 1) [] s' L) →
  ∃ s', advance_epoch s = (Ret tt, s') ∧ g s' = g s + 1 ∧ eok W' (k - 1) [] reg s' L F.
Proof.
  intros [H0 [H1 H2 H3 H4 H5 [T1 T2 T3 T4 T5]] Hs Hr Hl Hnd Hp Hte HW] Hreg Hk Hn HW'. unfold INIT_EPOCH in H2.
  unfold advance_epoch, mbind_, get_epoch, mget, mmod. fold (g s).
  set (s1 := Esys _ _ _ _ _ _ _ _ _ _ _ _).
  pose proof (st_ready _ _ _ Hs) as Hrd. change (Z.of_nat (length [])) with 0 in Hrd. rewrite Z.add_0_r in Hrd.
  destruct (on_epoch_end_run malloc_size n n (4 * k + Z.of_nat (length F)) s1 (g s) n)
    as (s2 & ts & tr & kk & lg & -> & -> & Hr2 & HL & Hth & Hge & Hout & Hts & _);
    [exact Hrd|exact T5|by split|exact T1|exact T2|unfold UINT64_MAX; lia| |].
  { unfold no_active_scan. apply forallb_forall. intros i Hi. apply in_seq in Hi.
    eapply tt_rep_idle; [exact Hr|done|lia]. }
  simpl in HL, Hge, Hout. rewrite u64_small by (unfold is_u64; lia).
  eexists. split; [done|]. split; [done|]. constructor; simpl; try done.
  - lia.
  - constructor; simpl; unfold g; simpl; try done; [fold (g s); unfold INIT_EPOCH; lia|..].
    + intros t Ht. destruct (H3 t Ht) as (d & D & ? & ? & ?). exists d, D. split_and!; [done|done|lia].
    + constructor; try done; [by rewrite HL|by rewrite HL|..].
      * intros t l Hl' Ht. specialize (Hge l ltac:(by eapply list_elem_of_lookup_2)). lia.
      * intros t l Hl' Ht. rewrite (Hout t l Hl'); [rewrite HL in Hl'; by apply (T5 t)|].
        intros Hin. specialize (Hts t Hin). lia.
  - destruct Hs as [Hs0 _ Hs2 Hs3 Hs4 Hs5]. simpl in *. constructor; simpl; try done; [lia|..].
    + destruct Hr2 as [Hb Hd]. split; [|done]. eapply fc_ok_mono; [|exact Hb]. lia.
    + intros t Ht. destruct (Hs2 t Ht) as (e & ? & ?). exists e. unfold g. simpl. fold (g s). split; [done|lia].
  - intros b p HLb. destruct (Hl b p HLb) as [HbF Hlive]. split; [done|].
    eapply live_blk_le; [|exact Hlive]. unfold g. simpl. fold (g s). lia.
  - apply HW'; [exact HW|]. by repeat split.
Qed.

(** ** The operations of the interface *)

Notation R := (M (recoverable P C T)).
Notation ops := (EpochSys_ops ralloc malloc_size n).

Definition api_get (b : Z) : R P := on_es (
  let* x := read_blk b in
  match payload x with Some p => mret_ p | None => mthrow (UB "not a payload") end).
Definition api_set (b : Z) (f : P → P) (tid : nat) : R Z :=
  let* c := get_local_epoch tid in on_es (set_field ralloc malloc_size b c (fmap f) tid).
Definition api_set_unsafe (b : Z) (f : P → P) : R unit := on_es (
  modify_blk b (λ x, Pblk (retire x) (epoch x) (blktype x) (tid_sn x) (id x) (get_data x) (f <$> payload x))).
Definition set_mode (online : bool) s : esys :=
  Esys (dm s) (local_descs s) (heap s) (uid_generator s) (trans_tracker s) (to_be_persisted s)
    (to_be_freed s) (persisted_epochs s) (last_epochs s) (target_epoch s)
    (if online then ONLINE else RECOVER) (plog s).
Definition api_mode (online : bool) : R unit := on_es (mmod (set_mode online)).

Definition EpochSys_api : PayloadApi (recoverable P C T) P := {|
  p_new p tid := pnew ralloc ops (new_PBlk p 0) tid;
  p_delete := pdelete ralloc malloc_size n;
  p_begin_op := begin_op ops;
  p_end_op := end_op ops;
  p_end_readonly_op := end_readonly_op ops;
  p_get := api_get;
  p_set := api_set;
  p_set_unsafe := api_set_unsafe;
  p_mode := api_mode;
  p_advance := on_es advance_epoch;
|}.

(** ** The invariant of the API object

    [who] is the thread in an operation, [owner] the thread that may have
    pending allocations. *)
Definition reg_of (who : option nat) (e : Z) (t : nat) : option Z := if decide (who = Some t) then Some e else None.

Record rinv (W : Z → list Z → esys → gmap Z P → Prop) (who : option nat) (owner : nat) (pend : list Z) (k : Z)
    (r : recoverable P C T) (L : gmap Z P) : Prop := {
  ri_owner : (owner < n)%nat;
  ri_who : ∀ t, who = Some t → t = owner ∧ pend = [];
  ri_es : ∃ F, eok W k pend (reg_of who (g (es r))) (es r) L F;
  ri_epochs : ∀ t, (t < n)%nat → epochs r !! t = Some (default NULL_EPOCH (reg_of who (g (es r)) t));
  ri_retires : ∀ t, (t < n)%nat → pending_retires r !! t = Some [];
  ri_allocs : ∀ t, (t < n)%nat → t ≠ owner → pending_allocs r !! t = Some [];
  ri_pend : is_Some (pending_allocs r !! owner) ∧ (who = None → pending_allocs r !! owner = Some pend);
}.

Arguments ri_es {_} _ _ _ _ _ _ _.

Definition api_idle W (k : Z) (r : recoverable P C T) (L : gmap Z P) : Prop := rinv W None 0 [] k r L.
Definition api_out W (tid : nat) (k : Z) (r : recoverable P C T) (L : gmap Z P) (pend : list Z) : Prop :=
  rinv W None tid pend k r L.
Definition api_in W (tid : nat) (k : Z) (r : recoverable P C T) (L : gmap Z P) : Prop :=
  rinv W (Some tid) tid [] k r L.

Lemma reg_none e t : reg_of None e t = None.
Proof. unfold reg_of. by rewrite decide_False. Qed.
Lemma reg_self tid e : reg_of (Some tid) e tid = Some e.
Proof. unfold reg_of. by rewrite decide_True. Qed.

Lemma eok_reg {W0} k pend reg reg' s L F :
  (∀ t, reg t = reg' t) → eok W0 k pend reg s L F → eok W0 k pend reg' s L F.
Proof.
  intros Hr []. constructor; try done; [by eapply tt_rep_ext|]. intros t e Ht. rewrite <- Hr. auto.
Qed.

(** An operation of the epoch system that leaves the API object alone. *)
Lemma rinv_es who owner pend pend' k k' r s' L L' :
  rinv W who owner pend k r L → g s' = g (es r) → (who = None → pend' = pend) → (who ≠ None → pend' = []) →
  (∃ F, eok W k' pend' (reg_of who (g (es r))) s' L' F) →
  rinv W who owner pend' k' (Rec s' (epochs r) (pending_allocs r) (pending_retires r)) L'.
Proof.
  intros [H1 H2 _ H4 H5 H6 [H7 H8]] Hg Hp Hp' He. constructor; simpl; rewrite ?Hg; try done.
  - intros t ->. destruct (H2 t eq_refl). split; [done|]. by apply Hp'.
  - split; [done|]. intros ->. rewrite (Hp eq_refl). by apply H8.
Qed.

Lemma api_enter k r L tid : api_idle W k r L → (tid < n)%nat → api_out W tid k r L [].
Proof.
  intros [H1 H2 H3 H4 H5 H6 [H7 H8]] Ht. constructor; try done.
  - intros t Htn Hne. destruct (decide (t = 0%nat)) as [->|]; [by apply H8|by apply H6].
  - assert (pending_allocs r !! tid = Some []) as ->; [|done].
    destruct (decide (tid = 0%nat)) as [->|]; [by apply H8|by apply H6].
Qed.

Lemma api_leave k r L tid : rinv W None tid [] k r L → api_idle W k r L.
Proof.
  intros [H1 H2 H3 H4 H5 H6 [H7 H8]].
  assert (∀ t, (t < n)%nat → pending_allocs r !! t = Some []) as Hall.
  { intros t Ht. destruct (decide (t = tid)) as [->|]; [by apply H8|by apply H6]. }
  constructor; try done; [lia|by auto|]. rewrite Hall by lia. done.
Qed.

Lemma api_new_law tid k r L pend p :
  api_out W tid k r L pend → 0 < k →
  ∃ b r', pnew ralloc ops (new_PBlk p 0) tid r = (Ret b, r') ∧ b ≠ 0 ∧ L !! b = None ∧
    api_out W tid (k - 1) r' (<[b := p]> L) (pend ++ [b]).
Proof.
  intros Hr Hk. pose proof Hr as [H1 H2 [F He] H4 H5 H6 [H7 H8]].
  destruct (eok_new _ _ _ _ _ _ p He Hk) as (s' & Hnew & HL & Hg & He').
  set (b := ralloc (heap (es r))) in *. exists b.
  unfold pnew, mbind_, on_es, get_local_epoch. rewrite Hnew. simpl. rewrite (H4 tid H1), reg_none. simpl.
  unfold get_allocs, set_allocs, mget, mmod, mret_. simpl. rewrite (H8 eq_refl). simpl.
  eexists. split; [done|]. split; [pose proof (ralloc_pos (heap (es r))); unfold b; lia|].
  split; [done|]. constructor; simpl; rewrite ?Hg; try done.
  - by exists F.
  - intros t Ht Hne. rewrite list_lookup_insert_ne by done. by apply H6.
  - rewrite list_lookup_insert_eq by (eapply lookup_lt_Some; by apply H8). done.
Qed.

Lemma in_epoch tid k r L : api_in W tid k r L → (tid < n)%nat ∧ epochs r !! tid = Some (g (es r)) ∧ g (es r) ≠ NULL_EPOCH.
Proof.
  intros [H1 H2 [F He] H4 _ _ _]. split; [done|]. split; [by rewrite (H4 tid H1), reg_self|].
  pose proof (ctl_epoch _ _ (eok_ctl _ _ _ _ _ _ He)) as [Hg _]. unfold INIT_EPOCH, NULL_EPOCH in *. lia.
Qed.

Lemma api_new_in_law tid k r L p :
  api_in W tid k r L → 0 < k →
  ∃ b r', pnew ralloc ops (new_PBlk p 0) tid r = (Ret b, r') ∧ b ≠ 0 ∧ L !! b = None ∧
    api_in W tid (k - 1) r' (<[b := p]> L).
Proof.
  intros Hr Hk. destruct (in_epoch _ _ _ _ Hr) as (Ht & Hep & Hnz). destruct (ri_es _ _ _ _ _ _ Hr) as [F He].
  destruct (eok_new _ _ _ _ _ _ p He Hk) as (s1 & Hnew & HL & Hg & He1). rewrite app_nil_l in He1.
  destruct (eok_register_alloc _ _ _ _ _ _ _ tid He1 Ht) as (s2 & Hreg & Hg2 & He2 & _).
  exists (ralloc (heap (es r))). unfold pnew, mbind_, on_es, get_local_epoch. rewrite Hnew. simpl. rewrite Hep.
  destruct (Z.eqb_spec (g (es r)) NULL_EPOCH); [done|]. simpl. rewrite Hg in Hreg. rewrite Hreg.
  eexists. split; [done|]. split; [pose proof (ralloc_pos (heap (es r))); lia|]. split; [done|].
  eapply rinv_es; [exact Hr|congruence|done|done|by exists F].
Qed.

Lemma erase_last_elem b l : b ∈ l → ∃ l', erase_last b l = Some l' ∧ l ≡ₚ b :: l'.
Proof.
  intros Hb. unfold erase_last. destruct (list_find (b =.) (reverse l)) as [[i y]|] eqn:Hf.
  - apply list_find_Some in Hf as (Hi & <- & _). eexists. split; [done|].
    rewrite reverse_Permutation, <- (delete_Permutation _ _ _ Hi). by rewrite reverse_Permutation.
  - apply list_find_None in Hf. rewrite Forall_forall in Hf. destruct (Hf b); [by rewrite elem_of_reverse|done].
Qed.

(** [pdelete] of a payload that is still pending *)
Lemma api_drop_law tid k r L pend b p :
  api_out W tid k r L pend → b ∈ pend → L !! b = Some p →
  ∃ pend' r', pdelete ralloc malloc_size n b tid r = (Ret tt, r') ∧ pend ≡ₚ b :: pend' ∧
    api_out W tid k r' (delete b L) pend'.
Proof.
  intros Hr Hbp HLb. pose proof Hr as [H1 H2 [F He] H4 H5 H6 [H7 H8]].
  destruct (eok_live _ _ _ _ _ _ He b p HLb) as (HbF & Hb & x & Hx & _ & _ & Hin & _).
  destruct (Hin Hbp) as [Hep _]. destruct (erase_last_elem b pend Hbp) as (pend' & Hel & Hpp).
  exists pend'. pose proof (ctl_mode _ _ (eok_ctl _ _ _ _ _ _ He)) as Hm.
  unfold pdelete, mbind_, mget, get_local_epoch. rewrite Hm, (H4 tid H1), reg_none. simpl.
  unfold on_es at 1, read_blk. rewrite Hx. simpl. rewrite Hep. simpl.
  unfold get_allocs, set_allocs, mget, mmod. simpl. rewrite (H8 eq_refl). simpl. rewrite Hel. simpl.
  unfold on_es. simpl. rewrite (delete_pblk_outside _ _ x) by done.
  eexists. split; [done|]. split; [done|]. pose proof (eok_nodup _ _ _ _ _ _ He) as Hnd. rewrite Hpp in Hnd.
  constructor; simpl; try done.
  - exists F. eapply (eok_gone _ pend); [exact He|by eexists| | | |].
    + by apply NoDup_cons in Hnd as [_ ?].
    + apply NoDup_cons in Hnd as [Hn _]. intros a. rewrite Hpp, elem_of_cons. naive_solver.
    + rewrite Hpp. simpl. lia.
    + eapply hi_drop; [by apply (eok_inv _ _ _ _ _ _ He)|done|by rewrite Hpp|exact Hx|done].
  - intros t Ht Hne. rewrite list_lookup_insert_ne by done. by apply H6.
  - rewrite list_lookup_insert_eq by (eapply lookup_lt_Some; by apply H8). done.
Qed.

Lemma api_set_unsafe_law tid k r L pend b p f :
  api_out W tid k r L pend → b ∈ pend → L !! b = Some p →
  ∃ r', api_set_unsafe b f r = (Ret tt, r') ∧ api_out W tid k r' (<[b := f p]> L) pend.
Proof.
  intros Hr Hbp HLb. pose proof Hr as [H1 H2 [F He] H4 H5 H6 [H7 H8]].
  pose proof He as [E0 Ec Es Er El En Ep Ete EW].
  destruct (El b p HLb) as (HbF & Hb & x & Hx & Hpay & Hdata & Hin & Hout).
  unfold api_set_unsafe, on_es, modify_blk, mbind_, read_blk, write_blk, mmod. rewrite Hx. simpl.
  eexists. split; [done|]. eapply rinv_es; [exact Hr|done|done|done|].
  exists F. constructor; simpl; try done.
  - apply (ctl_frame _ (es r)); [by repeat split|done].
  - by apply stock_heap_insert.
  - apply (live_update k pend pend (reg_of None (g (es r))) (es r) L F F b (f p)); [done|done|done|done| |].
    + intros a Ha. by apply lookup_insert_ne.
    + split; [done|]. eexists. rewrite lookup_insert_eq. split; [done|]. simpl. by rewrite Hpay.
  - intros a Ha. rewrite lookup_insert. case_decide; [done|by apply Ep].
  - eapply hi_same; [|apply (hi_unsafe k pend (es r) L b x (f p)); [exact EW|done|done|by apply Hin]].
    repeat split. simpl. unfold set_payload. by rewrite Hpay.
Qed.

(** A block of the current epoch that nothing has replaced *)
Definition young s (b : Z) : Prop := ∃ x, heap s !! b = Some x ∧ epoch x = g s ∧ blktype x = ALLOC.
Definition api_young (r : recoverable P C T) : Z → Prop := young (es r).

Lemma register_allocs_ok k reg tid L F pend : ∀ s,
  eok W k pend reg s L F → (tid < n)%nat →
  ∃ s', mfor pend (λ b, let* x := read_blk b in
      do* massert (epoch x =? NULL_EPOCH) "(*b)->get_epoch() == NULL_EPOCH" in
      v_register_alloc_pblk ops b (g s) tid) s = (Ret tt, s') ∧ g s' = g s ∧ eok W k [] reg s' L F ∧
    ∀ b, b ∈ pend ∨ young s b → young s' b.
Proof.
  induction pend as [|b pend IH]; intros s He Ht; [exists s; split_and!; try done; set_solver|].
  destruct (eok_register_alloc _ _ _ _ _ _ _ _ He Ht) as (s1 & H1 & Hg & He1 & y & Hh & Hey & Hty).
  destruct (IH s1 He1 Ht) as (s2 & H2 & Hg2 & He2 & Hy). rewrite Hg in *.
  assert (∀ a, a = b ∨ young s a → young s1 a) as Hy1.
  { intros a Ha. unfold young. rewrite Hh, lookup_insert, Hg. case_decide; [by exists y|]. destruct Ha; [congruence|done]. }
  exists s2. split; [|split; [congruence|split; [done|]]]; cycle 1.
  { intros a Ha. apply Hy. rewrite elem_of_cons in Ha. naive_solver. }
  destruct (eok_pend _ _ _ _ _ _ He b) as [p HLb]; [set_solver|].
  destruct (eok_live _ _ _ _ _ _ He b p HLb) as (_ & _ & x & Hx & _ & _ & Hin & _).
  destruct Hin as [Hep _]; [set_solver|].
  cbn [mfor]. unfold mbind_ at 1. unfold mbind_ at 1. unfold read_blk at 1. rewrite Hx.
  unfold mbind_ at 1, massert. rewrite Hep. simpl. rewrite H1. exact H2.
Qed.

Lemma api_begin_law tid k r L pend :
  api_out W tid k r L pend → 0 < k → ∃ r', begin_op ops tid r = (Ret tt, r') ∧ api_in W tid (k - 1) r' L ∧
    pending_allocs r' !! tid = Some pend ∧ ∀ b, b ∈ pend → api_young r' b.
Proof.
  intros Hr Hk. pose proof Hr as [H1 H2 [F He] H4 H5 H6 [H7 H8]].
  destruct (eok_begin _ _ _ _ _ _ tid He Hk H1) as (l & F' & s1 & Hb & Hg1 & He1 & _); [apply reg_none|].
  destruct (register_allocs_ok _ _ tid _ _ _ _ He1 H1) as (s2 & Hall & Hg2 & He2 & Hyg).
  rewrite Hg1 in Hall, Hg2. pose proof (ctl_epoch _ _ (eok_ctl _ _ _ _ _ _ He)) as [Hge _].
  unfold INIT_EPOCH in Hge.
  unfold begin_op, mbind_ at 1, get_local_epoch. rewrite (H4 tid H1), reg_none. cbn [default].
  unfold mbind_ at 1, massert at 1. simpl. unfold mbind_ at 1, on_es at 1. simpl. rewrite Hb.
  unfold mbind_ at 1, set_local_epoch, mmod at 1. unfold mbind_ at 1, get_retires, mget. simpl.
  rewrite (H5 tid H1). simpl. unfold mbind_ at 1, on_es at 1. simpl.
  unfold mbind_ at 1, set_retires, mmod at 1. simpl. unfold mbind_ at 1, get_allocs, mget. simpl.
  rewrite (H8 eq_refl). simpl. unfold mbind_ at 1, on_es at 1. simpl in Hall |- *.
  rewrite Hall. simpl.
  unfold massert. destruct (Z.eqb_spec (g (es r)) NULL_EPOCH) as [E|_]; [unfold NULL_EPOCH in E; lia|]. simpl.
  eexists. split; [done|]. split; [|split; [by apply H8|intros b Hbp; apply Hyg; by left]].
  constructor; simpl; rewrite ?Hg2; try done.
  - by intros t [= <-].
  - exists F'. eapply eok_reg; [|exact He2]. intros t. unfold reg_of.
    destruct (decide (tid = t)) as [->|Hne]; [by rewrite fn_lookup_insert, decide_True|].
    rewrite fn_lookup_insert_ne by done. by rewrite !decide_False by congruence.
  - intros t Ht. destruct (decide (tid = t)) as [->|Hne].
    + rewrite reg_self. rewrite list_lookup_insert_eq; [done|]. eapply lookup_lt_Some. by apply H4.
    + rewrite list_lookup_insert_ne by done. rewrite (H4 t Ht). unfold reg_of.
      by rewrite !decide_False by congruence.
  - intros t Ht. destruct (decide (tid = t)) as [->|Hne].
    + rewrite list_lookup_insert_eq; [done|]. eapply lookup_lt_Some. by apply H5.
    + rewrite list_lookup_insert_ne by done. by apply H5.
Qed.

Lemma api_read k who owner pend r L b p : rinv W who owner pend k r L → L !! b = Some p → api_get b r = (Ret p, r).
Proof.
  intros Hr HLb. destruct (ri_es _ _ _ _ _ _ Hr) as [F He].
  destruct (eok_live _ _ _ _ _ _ He b p HLb) as (_ & _ & x & Hx & Hpay & _).
  unfold api_get, on_es, mbind_, read_blk. rewrite Hx, Hpay. by destruct r.
Qed.

Lemma api_young_delete k r L b p tid :
  api_idle W k r L → api_young r b → L !! b = Some p → (tid < n)%nat →
  ∃ r', pdelete ralloc malloc_size n b tid r = (Ret tt, r') ∧ api_idle W k r' (delete b L).
Proof.
  intros Hr (x & Hx & Hep & Hty) HLb Ht. pose proof Hr as [H1 H2 [F He] H4 H5 H6 [H7 H8]].
  pose proof (eok_ctl _ _ _ _ _ _ He) as [Hm [Hg _] _ _ _ _]. unfold INIT_EPOCH in Hg.
  unfold pdelete, mbind_, mget, get_local_epoch. rewrite Hm, (H4 tid Ht), reg_none. simpl.
  unfold on_es at 1, read_blk. rewrite Hx. simpl.
  destruct (Z.eqb_spec (epoch x) NULL_EPOCH) as [E|_]; [unfold NULL_EPOCH in E; lia|]. unfold mret_.
  unfold on_es. simpl. rewrite (delete_pblk_outside _ _ x) by done.
  eexists. split; [done|]. eapply rinv_es; [exact Hr|done|done|done|].
  exists F. eapply (eok_gone _ []); [exact He|by eexists|by apply NoDup_nil|set_solver|done|].
  eapply hi_young; [by apply (eok_inv _ _ _ _ _ _ He)|exact HLb|exact Hx|done|done].
Qed.

Lemma api_set_law tid k r L b p f :
  api_in W tid k r L → 0 < k → L !! b = Some p →
  ∃ b' r', api_set b f tid r = (Ret b', r') ∧ (b' = b ∨ L !! b' = None) ∧
    api_in W tid (k - 1) r' (<[b' := f p]> (delete b L)).
Proof.
  intros Hin Hk HLb. destruct (in_epoch _ _ _ _ Hin) as (Ht & Hep & Hnz).
  pose proof Hin as Hr. destruct (ri_es _ _ _ _ _ _ Hr) as [F He].
  destruct (eok_set _ _ _ _ _ b p f tid He Hk Ht (reg_self _ _) HLb) as (b' & F' & s' & Hrun & Hg & Hb' & He').
  exists b'. unfold api_set, mbind_, get_local_epoch, on_es. rewrite Hep, Hrun.
  eexists. split; [done|]. split; [done|]. eapply rinv_es; [exact Hr|done|done|done|by exists F'].
Qed.

Lemma api_delete_law tid k r L b p :
  api_in W tid k r L → 0 < k → L !! b = Some p →
  ∃ r', pdelete ralloc malloc_size n b tid r = (Ret tt, r') ∧ api_in W tid (k - 1) r' (delete b L).
Proof.
  intros Hin Hk HLb. destruct (in_epoch _ _ _ _ Hin) as (Ht & Hep & Hnz).
  pose proof Hin as Hr. destruct (ri_es _ _ _ _ _ _ Hr) as [F He].
  destruct (eok_free _ _ _ _ _ b p tid He Hk Ht (reg_self _ _) HLb) as (F' & s' & Hrun & Hg & He').
  unfold pdelete, mbind_, mget. rewrite (ctl_mode _ _ (eok_ctl _ _ _ _ _ _ He)).
  unfold get_local_epoch. rewrite Hep. destruct (Z.eqb_spec (g (es r)) NULL_EPOCH); [done|]. simpl.
  unfold on_es. rewrite Hrun. eexists. split; [done|].
  eapply rinv_es; [exact Hr|done|done|done|by exists F'].
Qed.

(** Unregistering, whatever else of the API object and of [last_epochs] changes. *)
Lemma rinv_unregister tid k r L s' allocs :
  api_in W tid k r L →
  (s' = es r ∨ s' = with_last (<[tid := g (es r)]> (last_epochs (es r))) (es r)) →
  (∀ t, (t < n)%nat → allocs !! t = Some []) →
  api_idle W k (Rec (with_tracker (tt_unset tid (g (es r)) (trans_tracker s')) s')
    (<[tid := NULL_EPOCH]> (epochs r)) allocs (pending_retires r)) L.
Proof.
  intros Hin Hs' Hal. pose proof Hin as [H1 H2 [F He] H4 H5 H6 _].
  assert (eok W k [] (reg_of (Some tid) (g (es r))) s' L F) as He'.
  { destruct Hs' as [-> | ->]; [done|by apply eok_last]. }
  assert (g s' = g (es r)) as Hg by (by destruct Hs' as [-> | ->]).
  constructor; simpl; rewrite ?Hg; try done; [lia| |..].
  - exists F. eapply eok_reg; [|apply (eok_unregister _ _ _ _ _ tid (g (es r)) He' H1), reg_self].
    intros t. rewrite reg_none. destruct (decide (tid = t)) as [->|]; [by rewrite fn_lookup_insert|].
    rewrite fn_lookup_insert_ne by done. unfold reg_of. by rewrite decide_False by congruence.
  - intros t Ht. rewrite ?reg_none. destruct (decide (tid = t)) as [->|].
    + rewrite list_lookup_insert_eq; [done|]. eapply lookup_lt_Some. by apply H4.
    + rewrite list_lookup_insert_ne by done. rewrite (H4 t Ht). unfold reg_of. by rewrite decide_False by congruence.
  - intros t Ht _. by apply Hal.
  - rewrite Hal by lia. done.
Qed.

Lemma api_end_law tid k r L :
  api_in W tid k r L → ∃ r', end_op ops tid r = (Ret tt, r') ∧ api_idle W k r' L ∧
    ∀ b, api_young r b → api_young r' b.
Proof.
  intros Hin. destruct (in_epoch _ _ _ _ Hin) as (Ht & Hep & Hnz).
  pose proof Hin as [H1 H2 _ H4 H5 H6 [H7 _]].
  unfold end_op, mbind_, get_local_epoch. rewrite Hep. unfold massert.
  destruct (Z.eqb_spec (g (es r)) NULL_EPOCH); [done|]. simpl.
  unfold get_retires, set_retires, mget, mmod, on_es. rewrite (H5 tid H1). simpl.
  unfold end_transaction, mbind_, set_last_epoch, unregister_active, mmod. simpl.
  unfold set_local_epoch, set_allocs, mmod. simpl. eexists. split; [done|].
  rewrite (list_insert_id (pending_retires r)) by (by apply H5). split; [|done].
  apply (rinv_unregister tid k r L (with_last _ (es r))); [done|by right|].
  intros t Htn. destruct (decide (tid = t)) as [->|].
  - rewrite list_lookup_insert_eq; [done|]. destruct H7 as [a Ha]. by eapply lookup_lt_Some.
  - rewrite list_lookup_insert_ne by done. by apply H6.
Qed.

Lemma api_readonly_law tid k r L :
  api_idle W k r L → 0 < k → (tid < n)%nat →
  ∃ r', mbind_ (begin_op ops tid) (λ _, end_readonly_op ops tid) r = (Ret tt, r') ∧ api_idle W (k - 1) r' L.
Proof.
  intros Hid Hk Ht.
  destruct (api_begin_law tid k r L []) as (r1 & Hb & Hin & Hpa & _); [by apply api_enter|done|].
  destruct (in_epoch _ _ _ _ Hin) as (_ & Hep & Hnz). pose proof Hin as [H1 H2 _ H4 H5 H6 [H7 _]].
  unfold mbind_ at 1. rewrite Hb. unfold end_readonly_op, mbind_, get_local_epoch. rewrite Hep. unfold massert.
  destruct (Z.eqb_spec (g (es r1)) NULL_EPOCH); [done|]. simpl.
  unfold on_es, end_readonly_transaction, unregister_active, mmod, set_local_epoch, get_allocs, get_retires, mget, mret_.
  simpl. rewrite Hpa, (H5 tid H1). simpl. eexists. split; [done|].
  apply (rinv_unregister tid (k - 1) r1 L (es r1)); [done|by left|].
  intros t Htn. destruct (decide (tid = t)) as [->|]; [done|by apply H6].
Qed.

Lemma api_advance_law (W' : Z → list Z → esys → gmap Z P → Prop) k r L :
  api_idle W k r L → 0 < k → (∀ s', W k [] (es r) L → advance_eff (es r) s' → W' (k - 1) [] s' L) →
  ∃ r', on_es advance_epoch r = (Ret tt, r') ∧ api_idle W' (k - 1) r' L.
Proof.
  intros Hid Hk HW'. pose proof Hid as [H1 H2 [F He] H4 H5 H6 [H7 H8]].
  destruct (eok_advance W' _ _ _ _ _ He) as (s' & Hrun & Hg & He'); [apply reg_none|done|lia|done|].
  unfold on_es. rewrite Hrun. eexists. split; [done|]. constructor; simpl; try done.
  - exists F. eapply eok_reg; [|exact He']. intros t. by rewrite !reg_none.
Qed.

Lemma api_recover_mode_law k r L :
  api_idle W k r L → ∃ r1, api_mode false r = (Ret tt, r1) ∧
    (∀ b tid, pdelete ralloc malloc_size n b tid r1 = (Ret tt, r1)) ∧
    ∃ r2, api_mode true r1 = (Ret tt, r2) ∧ api_idle W k r2 L.
Proof.
  intros Hid. eexists. split; [done|]. split; [done|]. eexists. split; [done|].
  pose proof (ri_es _ _ _ _ _ _ Hid) as [F He]. pose proof (ctl_mode _ _ (eok_ctl _ _ _ _ _ _ He)) as Hm.
  destruct r as [s e a t]. simpl in *. assert (set_mode true (set_mode false s) = s) as ->; [|done].
  unfold set_mode. simpl. rewrite <- Hm. by destruct s.
Qed.

(** ** Start-up *)

Lemma init_descs_ok desc_addr tids :
  (∀ t, t ∈ tids → Z.of_nat t < 65536) →
  ∃ m, init_descs desc_addr tids = Ret m ∧
    ∀ t, t ∈ tids → ∃ D, m !! desc_addr t = Some D ∧ Z.land (d_tid_sn D) SN_MASK = 0.
Proof.
  induction tids as [|t tids IH]; intros Ht; simpl; [exists ∅; split; [done|set_solver]|].
  destruct IH as (m & -> & Hm); [set_solver|]. unfold new_sc_desc.
  rewrite set_tid_sn_eq by (unfold SN_MASK; specialize (Ht t ltac:(set_solver)); lia).
  eexists. split; [done|]. intros t' Ht'. rewrite lookup_insert. case_decide as Heq.
  - eexists. split; [done|]. simpl. rewrite sn_mask_mod, Z.add_0_r. apply Z.mod_mul. lia.
  - apply elem_of_cons in Ht' as [->|Ht']; [done|by apply Hm].
Qed.

(** A system that has just started, on the heap [h] in epoch [e], with the live
    payloads [L]. *)
Lemma start_idle (desc_addr : nat → Z) (h : gmap Z (pblk P)) (e : Z) (L : gmap Z P) (c0 : C) (t0 : T) (k : Z) :
  (0 < n)%nat → Z.of_nat n ≤ 65536 → 0 ≤ k < SN_MASK → INIT_EPOCH ≤ e → e + k + 4 < U64 →
  fc_ok n (4 * k) c0 → tt_rep n t0 (λ _, None) → (∀ b p, L !! b = Some p → live_blk e [] h b p) →
  (∀ s, heap s = h → to_be_freed s = Tlfc (VectorContainer.vc_new n) (replicate n INIT_EPOCH) →
     uid_generator s = UIDGen.init (Z.of_nat n) → g s = e → W k [] s L) →
  ∃ s, start n desc_addr h e c0 t0 = Ret s ∧ heap s = h ∧ g s = e ∧ api_idle W k (new_recoverable n s) L.
Proof.
  intros Hn Hn2 Hk He Hek Hc0 Ht0 HL HW. unfold start.
  destruct (init_descs_ok desc_addr (seq 0 n)) as (m & -> & Hm).
  { intros t Ht. apply elem_of_seq in Ht. lia. }
  destruct (im_new_spec n Hn) as (tr & -> & Hcode & Hlen & Hheap & Hval & Hodd). eexists. split_and!; [done|done|done|].
  assert (∀ t, wait_all n (VectorContainer.vc_new (T:=Z) t) = []) as Hwait.
  { intros t. clear. unfold wait_all. induction (seq 0 n) as [|u l IH]; simpl; [done|]. rewrite waiting_new. exact IH. }
  assert (∀ A (x : A) t, (t < n)%nat → replicate n x !! t = Some x) as Hrep by (intros; by apply lookup_replicate_2).
  match goal with |- api_idle W k (new_recoverable n ?s0) L => set (s := s0) end.
  assert (ctl k s) as Hctl.
  { constructor; [done|unfold g; simpl; lia|..].
    - intros t Ht. destruct (Hm t) as (D & HD & Hsn); [apply elem_of_seq; lia|].
      exists (desc_addr t), D. split; [|split; [exact HD|rewrite Hsn; lia]].
      simpl. rewrite list_lookup_fmap, lookup_seq_lt by done. done.
    - intros t Ht. simpl. rewrite UIDGen.init_lookup; [by eexists|lia|].
      destruct (uid_layout_spec (Z.of_nat n)) as (_ & _ & Hmax); lia.
    - intros t Ht. simpl. rewrite Hrep by done. by eexists.
    - constructor; simpl; auto. rewrite Hlen. unfold even_cnt. destruct (Nat.odd n); lia. }
  assert (stock (4 * k) [] s) as Hstock.
  { constructor; [lia|..|by apply NoDup_nil|by intros b []%elem_of_nil].
    - rewrite Z.add_0_r. split; [exact Hc0|apply tab_dims_new].
    - intros t Ht. exists INIT_EPOCH. simpl. rewrite Hrep by done. by unfold g.
    - simpl. by rewrite Hwait. }
  constructor; [done|intros; discriminate|..].
  - exists []. constructor; [lia|exact Hctl|by rewrite Z.add_0_r|exact Ht0|intros b p Hb; split; [apply not_elem_of_nil|by apply HL]|
      by apply NoDup_nil|by intros b []%elem_of_nil|done|by apply HW].
  - intros t Ht. simpl. by rewrite Hrep.
  - intros t Ht. simpl. by rewrite Hrep.
  - intros t Ht _. simpl. by rewrite Hrep.
  - simpl. rewrite Hrep by done. split; [by eexists|done].
Qed.

(** A freshly initialised system is idle, with no live payload. *)
Lemma init_idle (desc_addr : nat → Z) (c0 : C) (t0 : T) (k : Z) :
  (0 < n)%nat → Z.of_nat n ≤ 65536 → 0 ≤ k < SN_MASK → fc_ok n (4 * k) c0 → tt_rep n t0 (λ _, None) →
  (∀ s, heap s = ∅ → to_be_freed s = Tlfc (VectorContainer.vc_new n) (replicate n INIT_EPOCH) →
     uid_generator s = UIDGen.init (Z.of_nat n) → g s = INIT_EPOCH → W k [] s ∅) →
  ∃ s, init n desc_addr c0 t0 = Ret s ∧ api_idle W k (new_recoverable n s) ∅.
Proof.
  intros Hn Hn2 Hk Hc0 Ht0 HW.
  destruct (start_idle desc_addr ∅ INIT_EPOCH ∅ c0 t0 k) as (s & Hs & _ & _ & Hid);
    try done; [unfold INIT_EPOCH, SN_MASK, U64 in *; lia|by exists s].
Qed.

(** ** The instances *)

Definition EpochSys_laws : @PayloadLaws (recoverable P C T) P EpochSys_api.
Proof using All.
  refine {| p_threads := n; p_idle := api_idle W; p_out := api_out W; p_in := api_in W; p_young := api_young |}.
  - exact api_enter.
  - intros tid k s L Ho. by eapply api_leave.
  - exact api_new_law.
  - exact api_set_unsafe_law.
  - exact api_drop_law.
  - exact api_new_in_law.
  - intros tid k s L N Ho Hk. destruct (api_begin_law tid k s L N Ho Hk) as (r' & ? & ? & _). by exists r'.
  - intros tid k s L b p Hin HL. destruct (ri_es _ _ _ _ _ _ Hin) as [F He].
    destruct (eok_live _ _ _ _ _ _ He b p HL) as (_ & ? & _). lia.
  - intros tid k s L b p Hin. by eapply api_read.
  - intros k s L b p Hin. by eapply api_read.
  - exact api_set_law.
  - exact api_delete_law.
  - intros tid k s L Hin. destruct (api_end_law tid k s L Hin) as (r' & ? & ? & _). by exists r'.
  - intros tid k s L N b s' Ho Hk Hb Hrun. destruct (api_begin_law tid k s L N Ho Hk) as (r' & Hr & _ & _ & Hy).
    simpl in Hrun. rewrite Hr in Hrun. injection Hrun as <-. by apply Hy.
  - intros tid k s L b s' Hin Hb Hrun. destruct (api_end_law tid k s L Hin) as (r' & Hr & _ & Hy).
    simpl in Hrun. rewrite Hr in Hrun. injection Hrun as <-. by apply Hy.
  - intros k s L b p tid. apply api_young_delete.
  - exact api_readonly_law.
  - exact api_recover_mode_law.
Defined.
End epoch_api.

(** No further invariant. *)
#[export] Instance no_heap_inv {P C T} ralloc n : @heap_inv P C T ralloc n (λ _ _ _ _, True).
Proof. by constructor. Qed.

(** Without the past generations: for any number of threads. *)
Definition EpochSys_epochs {P C T} `{!FixedContainer C, !FixedContainerLaws C, !Tracker T, !TrackerLaws T}
    (ralloc : gmap Z (pblk P) → Z) (malloc_size : Z → Z) (n : nat)
    (fresh : ∀ h, h !! ralloc h = None) (pos : ∀ h, 0 < ralloc h) :
  @EpochLaws (recoverable P C T) P (EpochSys_api ralloc malloc_size n).
Proof.
  refine {| e_threads := n; e_laws _ := EpochSys_laws ralloc malloc_size n fresh pos (λ _ _ _ _, True) |}.
  - done.
  - intros k s L H Hid Hk. by apply (api_advance_law malloc_size n (λ _ _ _ _, True) (λ _ _ _ _, True)).
Defined.
