(* ===== verification/Crash.v ===== *)
(** * Crashes of the blocking epoch system with one worker thread

    [Versions] as a further invariant of the system: what is waiting in the
    thread-local container of the worker, under the window of epoch [t], was
    replaced or deleted in epoch [t] (or is the mark of a deletion in [t-1]), and
    reclamation in epoch [g] takes exactly the windows up to [g-2].  So
    [EpochSys] with one worker thread keeps the crash laws of [PayloadApi].

    With two threads it does not: reclamation is local to a thread, so the mark
    of a deletion can be reclaimed by the deleting thread while an old version of
    the block still waits in the container of a thread that is idle. *)

From S2P Require Import Prelude PersistFunc UIDGen FixedBuffers Containers ToBePersisted TransTrackers ToBeFreed PersistTracker Dcss EpochSys Recovery Recoverable PayloadApi EpochApi Versions.
Import ThreadLocalFreedContainer IncreasingMindicator EpochSys.

(** ** The waiting blocks and their epochs *)

Record kills (g te : Z) (K : gmap Z Z) (f : tlfc Z) : Prop := {
  kl_dims : tab_dims 1 (container f);
  kl_te : threadEpoch f !! 0%nat = Some te;
  kl_range : INIT_EPOCH ≤ te ≤ g;
  kl_tag : ∀ b t, K !! b = Some t ↔ b ∈ slot (container f) 0 (win t) ∧ te - 1 ≤ t ≤ te + 1;
  kl_cover : ∀ w b, b ∈ slot (container f) 0 w → ∃ t, te - 1 ≤ t ≤ te + 1 ∧ w = win t;
}.

(** Two epochs of the range with the same window are equal. *)
Lemma window_eq te t t' : te - 1 ≤ t ≤ te + 1 → te - 1 ≤ t' ≤ te + 1 → win t = win t' → t = t'.
Proof. intros. apply win_inj; [|done]. unfold EPOCH_WINDOW. lia. Qed.

Lemma kills_push g te K f b c :
  kills g te K f → te = g → c = g ∨ c = g + 1 → K !! b = None → kills g te (<[b := c]> K) (push_wait b c 0 f).
Proof.
  intros [H1 H2 H3 H4 H5] -> Hc HK.
  assert (∀ w a, a ∈ slot (container (push_wait b c 0 f)) 0 w ↔ a ∈ slot (container f) 0 w ∨ a = b ∧ w = win c) as Hsl.
  { intros w a. simpl. destruct (decide (w = win c)) as [->|Hne].
    - rewrite (slot_set_eq 1) by auto with montage. rewrite elem_of_app, list_elem_of_singleton. naive_solver.
    - rewrite slot_set_ne by congruence. naive_solver. }
  constructor; simpl; [auto with montage|done|done| |].
  - intros a t. rewrite Hsl. destruct (decide (b = a)) as [<-|Hne].
    + rewrite lookup_insert_eq. split.
      * intros [= <-]. split; [by right|lia].
      * intros [[Hin|[_ Hw]] Ht]; [|f_equal; apply (window_eq g); [lia|lia|done]].
        assert (K !! b = Some t) by (by apply H4). congruence.
    + rewrite lookup_insert_ne, H4 by done. naive_solver.
  - intros w a [Hin|[-> ->]]%Hsl; [by eapply H5|]. exists c. split; [lia|done].
Qed.

(** Reclamation in epoch [g] takes what was registered for [g-2] or earlier. *)
Lemma kills_pop g te K f f' (l : list Z) :
  kills g te K f → tab_dims 1 (container f') → threadEpoch f' = <[0%nat := g]> (threadEpoch f) →
  popped 0 (te - 1) (Z.min (te + 1) (g - 2)) l (container f) (container f') →
  (∀ b t, K !! b = Some t → b ∈ l ↔ t ≤ g - 2) ∧ (∀ b, b ∈ l → is_Some (K !! b)) ∧
  kills g g (filter (λ bt, bt.1 ∉ l) K) f'.
Proof.
  intros [H1 H2 H3 H4 H5] Hd Hte (Hin & Hnil & Hoth).
  assert (∀ b t, K !! b = Some t → b ∈ l ↔ t ≤ g - 2) as Hl.
  { intros b t Ht. rewrite Hin. apply H4 in Ht as Hb. destruct Hb as [Hb Hr]. split.
    - intros (i & Hi & Hbi). assert (K !! b = Some i) as Hbi' by (apply H4; split; [done|lia]). simplify_eq. lia.
    - intros Hle. exists t. split; [lia|done]. }
  split; [done|]. split.
  { intros b (i & Hi & Hb)%Hin. exists i. apply H4. split; [done|lia]. }
  assert (∀ w b, b ∈ slot (container f') 0 w → ∃ t, K !! b = Some t ∧ w = win t ∧ b ∉ l ∧ g - 1 ≤ t ≤ te + 1) as Hkeep.
  { intros w b Hb. set (Q i := te - 1 ≤ i ≤ Z.min (te + 1) (g - 2) ∧ w = win i).
    destruct (decide (Exists Q [te - 1; te; te + 1])) as [(i & _ & Hi & ->)%Exists_exists|Hno].
    { rewrite Hnil in Hb by done. by apply elem_of_nil in Hb. }
    assert (∀ i, ¬ Q i) as HQ.
    { intros i Hi. apply Hno, Exists_exists. exists i. split; [|done]. destruct Hi as [Hi _].
      assert (i = te - 1 ∨ i = te ∨ i = te + 1) as [-> | [-> | ->]] by lia; set_solver. }
    rewrite Hoth in Hb by (intros i Hi ->; by apply (HQ i)).
    destruct (H5 w b Hb) as (t & Ht & ->). assert (K !! b = Some t) as HK by (by apply H4).
    assert (¬ t ≤ g - 2) by (intros Hle; apply (HQ t); split; [lia|done]).
    exists t. split_and!; try done; try lia. by rewrite (Hl b t HK). }
  constructor; [done| |lia| |].
  - rewrite Hte. apply list_lookup_insert_eq. by eapply lookup_lt_Some.
  - intros b t. rewrite map_lookup_filter_Some. simpl. split.
    + intros [HK Hb]. pose proof HK as HK2. apply H4 in HK2 as [Hs Hr]. rewrite (Hl b t HK) in Hb. split; [|lia].
      rewrite Hoth; [done|]. intros i Hi Hw. assert (t = i) by (apply (window_eq te); [lia|lia|done]). lia.
    + intros [Hb Hr]. destruct (Hkeep _ _ Hb) as (t' & HK & Hw & Hbl & Ht').
      assert (t = t') as -> by (apply (window_eq g); [lia|lia|done]). done.
  - intros w b Hb. destruct (Hkeep _ _ Hb) as (t & _ & -> & _ & Ht). exists t. split; [lia|done].
Qed.

(** ** The invariant *)
Section crash.
Context {P C T : Type} `{!FixedContainer C, !FixedContainerLaws C, !Tracker T, !TrackerLaws T}.
Context (ralloc : gmap Z (pblk P) → Z) (malloc_size : Z → Z).
Hypothesis ralloc_fresh : ∀ h, h !! ralloc h = None.
Hypothesis ralloc_pos : ∀ h, 0 < ralloc h.
Notation esys := (esys P C T).
Implicit Type s : esys.

(** A block of a data structure that owns no other block. *)
Definition plain_blk (b : Z) (x : pblk P) : Prop :=
  0 < b ∧ get_data x = 0 ∧ (blktype x = DELETE ∨ is_Some (payload x)).

Record vinv (H : list (gmap Z P)) (k : Z) (pend : list Z) (s : esys) (L : gmap Z P) : Prop := {
  vi_room : 0 ≤ k ∧ INIT_EPOCH ≤ g s ∧ g s + k < U64;
  vi_heap : ∃ K te u, kills (g s) te K (to_be_freed s) ∧ uid_generator s !! 0%nat = Some u ∧
    0 ≤ u ∧ u + k + Z.of_nat (length pend) < U64 ∧ versions (g s) u pend (heap s) K L H;
  vi_blocks : map_Forall plain_blk (heap s);
}.

(** What [set_field] and [free_pblk] need of the invariant. *)
Lemma vinv_live H k s L b x p :
  vinv H k [] s L → threadEpoch (to_be_freed s) !! 0%nat = Some (g s) → L !! b = Some p → heap s !! b = Some x →
  NULL_EPOCH < epoch x → blktype x = ALLOC ∨ blktype x = UPDATE →
  ∃ K u, kills (g s) (g s) K (to_be_freed s) ∧ uid_generator s !! 0%nat = Some u ∧ 0 ≤ u ∧ u + k < U64 ∧
    versions (g s) u [] (heap s) K L H ∧ ver x ∧ K !! b = None ∧ epoch x ≤ g s ∧ NULL_EPOCH < g s.
Proof using Type.
  clear ralloc_pos ralloc_fresh malloc_size. intros [Hroom (K & te & u & Hk & Hu & Hu0 & Hb & Hv) _] Hte HL Hx He Ht. pose proof (kl_te _ _ _ _ Hk) as Hte'.
  rewrite Hte in Hte'. injection Hte' as <-. exists K, u. simpl in Hb.
  destruct (v_heap _ _ _ _ _ _ _ Hv b p HL) as [HK _].
  destruct (v_blk _ _ _ _ _ _ _ Hv b x Hx) as [[? ?] _]; [set_solver|].
  split_and!; try done; [lia|lia|unfold INIT_EPOCH, NULL_EPOCH in *; lia].
Qed.

(** Registration of a pending block *)
Lemma vinv_register H k pend s s' L b x tid :
  vinv H k (b :: pend) s L → b ∉ pend → (tid < 1)%nat → heap s !! b = Some x → is_Some (L !! b) →
  register_eff b x tid s s' → vinv H k pend s' L.
Proof using ralloc_fresh ralloc_pos.
  clear malloc_size. intros [Hr (K & te & u & Hk & Hu & Hu0 & Hb & Hv) Hbl] Hbp Ht Hx HL (Hg & Hf & i & Hh & Hi).
  destruct (v_pend _ _ _ _ _ _ _ Hv b x Hx) as (He & Hid & _); [set_solver|].
  destruct (Hi Hid) as [Hi1 Hi2]. assert (tid = 0%nat) as -> by lia. rewrite Hu in Hi1. injection Hi1 as <-.
  simpl in Hb. destruct HL as [p HL]. destruct (v_heap _ _ _ _ _ _ _ Hv b p HL) as (_ & x' & Hx' & Hp).
  assert (x' = x) as -> by congruence. destruct (Hbl b x Hx) as (? & ? & _).
  constructor; rewrite ?Hg, ?Hh; [done| |apply map_Forall_insert_2; [split_and!; [done|done|right; by eexists]|done]].
  exists K, te, (u + 1). rewrite Hf, Hi2. rewrite u64_small by (unfold is_u64; lia).
  rewrite list_lookup_insert_eq by (by eapply lookup_lt_Some). split_and!; try done; [lia|lia|].
  eapply versions_register; [exact Hv|done|unfold INIT_EPOCH, NULL_EPOCH in *; lia|done|exact Hx|done|..]; done.
Qed.

(** Update of a live block: in place or on a copy *)
Lemma vinv_set H k s s' L b x p b' q tid :
  vinv H k [] s L → 0 < k → (tid < 1)%nat → threadEpoch (to_be_freed s) !! tid = Some (g s) → L !! b = Some p →
  heap s !! b = Some x → NULL_EPOCH < epoch x → blktype x = ALLOC ∨ blktype x = UPDATE →
  set_eff b x b' q tid s s' → vinv H (k - 1) [] s' (<[b' := q]> (delete b L)).
Proof using ralloc_fresh ralloc_pos.
  clear malloc_size. intros Hw Hpos Ht Hte HL Hx He Hty (Hu & Hg & Hcase).
  assert (tid = 0%nat) as -> by lia. pose proof (vi_room _ _ _ _ _ Hw) as Hr. pose proof (vi_blocks _ _ _ _ _ Hw) as Hbl.
  destruct (vinv_live _ _ _ _ _ _ _ Hw Hte HL Hx He Hty) as (K & u & Hk & Hu1 & Hu0 & Hb & Hv & Hvx & HK & Hle & Hg0).
  destruct (Hbl b x Hx) as (? & ? & _). constructor; rewrite ?Hg; [lia|..];
    destruct Hcase as [(-> & Heg & Hf & Hh)|(Hlt & Hb'0 & Hb' & Hf & Hh)]; rewrite ?Hf, ?Hu, Hh;
    try by apply map_Forall_insert_2; [split_and!; [done|done|right; by eexists]|].
  + exists K, (g s), u. split_and!; try done; [simpl; lia|]. by eapply versions_write.
  + exists (<[b := g s]> K), (g s), u. split_and!; try done; [|simpl; lia|by eapply versions_copy].
    apply kills_push; auto.
Qed.

(** Deletion of a live block: at once, as its own mark, or by a new mark *)
Lemma vinv_free H k s s' L b x p tid :
  vinv H k [] s L → 0 < k → (tid < 1)%nat → threadEpoch (to_be_freed s) !! tid = Some (g s) → L !! b = Some p →
  heap s !! b = Some x → NULL_EPOCH < epoch x → blktype x = ALLOC ∨ blktype x = UPDATE →
  free_eff b x tid s s' → vinv H (k - 1) [] s' (delete b L).
Proof using ralloc_fresh ralloc_pos.
  clear malloc_size. intros Hw Hpos Ht Hte HL Hx He Hty (Hu & Hg & Hcase).
  assert (tid = 0%nat) as -> by lia. pose proof (vi_room _ _ _ _ _ Hw) as Hr. pose proof (vi_blocks _ _ _ _ _ Hw) as Hbl.
  destruct (vinv_live _ _ _ _ _ _ _ Hw Hte HL Hx He Hty) as (K & u & Hk & Hu1 & Hu0 & Hb & Hv & Hvx & HK & Hle & Hg0).
  destruct (Hbl b x Hx) as (? & ? & _). constructor; rewrite ?Hg; [lia|..];
    destruct Hcase as [(Heg & Hal & Hf & Hh)|[(Heg & Hup & Hf & Hh)|(Hlt & d & Hd0 & Hd & Hf & Hh)]]; rewrite ?Hf, ?Hu, Hh;
    try by apply map_Forall_insert_2; [split_and!; [done|done|by left]|].
  + exists K, (g s), u. split_and!; try done; [simpl; lia|]. by eapply versions_drop.
  + exists (<[b := g s]> K), (g s), u. split_and!; try done; [|simpl; lia|by eapply versions_mark].
    apply kills_push; auto.
  + exists (<[b := g s]> (<[d := g s + 1]> K)), (g s), u. split_and!; try done; [|simpl; lia|by eapply versions_anti].
    apply kills_push; [apply kills_push; auto|done|by left|].
    * by apply (versions_fresh _ _ _ _ _ _ _ _ Hv).
    * rewrite lookup_insert_ne; [done|]. congruence.
  + by apply map_Forall_delete.
Qed.

#[local] Instance vinv_heap_inv H : heap_inv ralloc 1 (vinv H).
Proof using ralloc_fresh ralloc_pos.
  clear malloc_size. constructor.
  - intros k k' pend s L Hk [? (K & te & u & ? & ? & ? & ? & ?) ?]. constructor; [lia| |done].
    exists K, te, u. split_and!; try done; lia.
  - intros k pend s s' L (Hh & Hf & Hu & Hg) [? (K & te & u & ? & ? & ? & ? & ?) ?].
    constructor; rewrite ?Hg, ?Hh; [lia| |done]. exists K, te, u. by rewrite Hf, Hu.
  - intros k pend s L p [Hr (K & te & u & Hk & Hu & Hu0 & Hb & Hv) Hbl] Hpos b.
    constructor; [unfold g in *; simpl; lia| |apply map_Forall_insert_2; [split_and!; [apply ralloc_pos|done|right; by eexists]|done]].
    exists K, te, u. unfold g in *. simpl. split_and!; try done; [rewrite length_app; simpl; lia|].
    eapply (versions_pend _ _ pend); [exact Hv|left; apply ralloc_fresh|set_solver|done|done|done].
  - intros k pend s L b x p [Hr (K & te & u & Hk & Hu & Hu0 & Hb & Hv) Hbl] Hin Hx He.
    destruct (Hbl b x Hx) as (? & ? & _). constructor; [done| |apply map_Forall_insert_2; [split_and!; [done|done|right; by eexists]|done]].
    exists K, te, u. unfold g in *. simpl. split_and!; try done.
    eapply (versions_pend _ _ pend pend); [exact Hv|by right|set_solver|done| |done].
    simpl. by apply (v_pend _ _ _ _ _ _ _ Hv b x Hx Hin).
  - intros. by eapply vinv_register.
  - intros k pend s s' L l tid [Hr (K & te & u & Hk & Hu & Hu0 & Hb & Hv) Hbl] Ht Hg Hug (Hcut & Hd & te' & Hte & Hte2 & Hpop).
    assert (tid = 0%nat) as -> by lia. rewrite (kl_te _ _ _ _ Hk) in Hte. injection Hte as <-. destruct Hcut as [Hn Hs].
    constructor; rewrite ?Hg; [done| |].
    + destruct (kills_pop _ _ _ _ (to_be_freed s') l Hk Hd Hte2 Hpop) as (Hl & Hsome & Hk').
      exists (filter (λ bt, bt.1 ∉ l) K), (g s), u. rewrite Hug. split_and!; try done. by eapply versions_reclaim.
    + intros b x Hx. destruct (decide (b ∈ l)) as [Hin|Hin]; [by rewrite Hn in Hx|]. rewrite Hs in Hx by done. by apply Hbl.
  - intros. by eapply vinv_set.
  - intros. by eapply vinv_free.
  - intros k pend pend' s L b x [Hr (K & te & u & Hk & Hu & Hu0 & Hb & Hv) Hbl] Hp Hnd Hx He.
    rewrite Hp in Hnd. apply NoDup_cons in Hnd as [Hbp _]. rewrite Hp in Hb. simpl in Hb.
    constructor; [done| |by apply map_Forall_delete]. exists K, te, u. unfold g in *. simpl. split_and!; try done; [lia|].
    eapply (versions_unpend _ _ pend); [exact Hv|exact Hx|rewrite Hp; by left|].
    intros a. rewrite Hp, elem_of_cons. split; [|naive_solver]. intros Ha. split; [by right|]. by intros ->.
  - intros k s L b x p [Hr (K & te & u & Hk & Hu & Hu0 & Hb & Hv) Hbl] HL Hx He Ht.
    constructor; [done| |by apply map_Forall_delete]. exists K, te, u. unfold g in *. simpl. split_and!; try done.
    destruct (v_heap _ _ _ _ _ _ _ Hv b p HL) as [HK _].
    eapply versions_drop; [exact Hv|exact Hx|done|done|unfold INIT_EPOCH, NULL_EPOCH in *; lia|done].
Qed.

Lemma vinv_init k s :
  heap s = ∅ → to_be_freed s = Tlfc (VectorContainer.vc_new 1) (replicate 1 INIT_EPOCH) →
  uid_generator s = UIDGen.init 1 → g s = INIT_EPOCH → 0 ≤ k → INIT_EPOCH + k < U64 → vinv [] k [] s ∅.
Proof using Type.
  clear ralloc_pos ralloc_fresh malloc_size. intros Hh Hf Hu Hg Hk Hb. constructor; rewrite ?Hg; [done| |by rewrite Hh].
  assert (∀ w, slot (VectorContainer.vc_new (T:=Z) 1) 0 w = []) as Hnil.
  { intros w. unfold slot. destruct (tab_get _ w 0) as [l|] eqn:Hl; [|done]. by apply tab_get_new in Hl as ->. }
  exists ∅, INIT_EPOCH, 0. rewrite Hf, Hu, Hh. split_and!; [|done|done|simpl; unfold INIT_EPOCH in *; lia|apply versions_init].
  constructor; simpl; [apply tab_dims_new|done|lia|..].
  - intros b t. rewrite lookup_empty, Hnil. split; [done|]. intros [[]%elem_of_nil _].
  - intros w b. rewrite Hnil. by intros []%elem_of_nil.
Qed.

(** ** The crash laws *)

(** A crash and the recovery after it, with the blocks of the image divided
    among the recovery threads in any way. *)
Definition crash_outcome (r : recoverable P C T) (o : outcome (gmap Z P)) : Prop :=
  ∃ I parts1 parts2, crash_image (g (es r)) (heap (es r)) I ∧ concat parts1 ≡ₚ I ∧ concat parts2 ≡ₚ I ∧
    o = match Recovery.recover false parts1 parts2 with
        | Ret rec => Ret (recovered_payloads (heap (es r)) rec)
        | Throw e => Throw e
        end.

(** A property of all outcomes, in terms of [recover]. *)
Lemma crash_outcome_recover (r : recoverable P C T) (Q : gmap Z P → Prop) I parts1 parts2 :
  (∀ o, crash_outcome r o → ∃ R, o = Ret R ∧ Q R) →
  crash_image (g (es r)) (heap (es r)) I → concat parts1 ≡ₚ I → concat parts2 ≡ₚ I →
  ∃ rec, Recovery.recover false parts1 parts2 = Ret rec ∧ Q (recovered_payloads (heap (es r)) rec).
Proof using Type.
  intros Hc HI H1 H2. edestruct Hc as (R & Ho & HR); [by exists I, parts1, parts2|].
  destruct (Recovery.recover false parts1 parts2) as [rec|e]; [|done]. exists rec. split; [done|]. by injection Ho as ->.
Qed.

Lemma vinv_crash H k r L o : vinv H k [] (es r) L → crash_outcome r o → o = Ret (past H 1).
Proof.
  intros [Hr (K & te & u & _ & _ & _ & _ & Hv) _] (I & p1 & p2 & HI & H1 & H2 & ->).
  destruct (recover_generation (g (es r)) u (heap (es r)) K L H I) with (parts1 := p1) (parts2 := p2)
    as (rec & -> & _ & -> & _); [lia|done|done|done|done|done].
Qed.

Lemma rinv_vinv H who owner pend k r L : rinv 1 (vinv H) who owner pend k r L → vinv H k pend (es r) L.
Proof. intros Hr. destruct (ri_es _ _ _ _ _ _ _ _ Hr) as [F He]. by apply (eok_inv _ _ _ _ _ _ _ _ He). Qed.

Definition EpochSys_generations : @EpochLaws (recoverable P C T) P (EpochSys_api ralloc malloc_size 1).
Proof using All.
  refine {| e_threads := 1; e_laws H := EpochSys_laws ralloc malloc_size 1 ralloc_fresh ralloc_pos (vinv H) |}.
  - done.
  - intros k s L H Hid Hk. apply (api_advance_law malloc_size 1 (vinv H) (vinv (L :: H)) k s L Hid Hk).
    intros s' [Hr (K & te & u & Hkl & Hu & Hu0 & Hb & Hv) Hbl] (Hh & Hf & Hug & Hg). constructor; rewrite ?Hg, ?Hh; [lia| |done].
    exists K, te, u. rewrite Hf, Hug. split_and!; try done; [|lia|by apply versions_advance].
    destruct Hkl as [? ? ? ? ?]. constructor; try done. lia.
Defined.

Lemma EpochSys_crash_laws : @CrashLaws (recoverable P C T) P _ EpochSys_generations crash_outcome.
Proof using All.
  constructor.
  - intros k s L H o Hid. eapply vinv_crash, rinv_vinv. exact Hid.
  - intros tid k s L H o Hid. eapply vinv_crash, rinv_vinv. exact Hid.
Qed.
End crash.
