(* ===== verification/Restart.v ===== *)
(** * Restart after a crash (EpochSys::init with a heap to recover)

    When Ralloc reports a restart, [EpochSys::init] first runs [recover]: it
    deallocates everything but the newest durable versions, takes up the epoch
    of the crash, and leaves the map of live blocks for [get_recovered].  Then it
    goes on as for an empty heap, with new containers and a new [uid_generator].

    The theorem: what starts up after a crash is an idle epoch system whose live
    payloads are those of the generation recovered, so that every client proved
    against [PayloadApi] can go on with it. *)

From S2P Require Import Prelude PersistFunc UIDGen FixedBuffers Containers ToBePersisted TransTrackers ToBeFreed PersistTracker Dcss EpochSys Recovery Recoverable Versions PayloadApi EpochApi Crash.
Import ThreadLocalFreedContainer IncreasingMindicator EpochSys.

(** The heap that recovery leaves.  The blocks it keeps had been written back
    before the crash, so their contents are those of the heap [h] at the crash. *)
Definition restart_heap {P} (h : gmap Z (pblk P)) (r : recovered_t) : gmap Z (pblk P) :=
  filter (λ bx, bx.1 ∈ r_addr <$> vals (in_use r)) h.

(** [EpochSys::init] in a restart; the result of [get_recovered] and the system.
    [set_fake_dirty] in the destructor makes every restart a dirty one. *)
Definition init_restart {P C T} `{!FixedContainer C, !Tracker T} (n : nat) (desc_addr : nat → Z)
    (container : C) (tracker : T) (h : gmap Z (pblk P)) (parts1 parts2 : list (list rblk)) :
    outcome (gmap Z Z * esys P C T) :=
  match Recovery.recover false parts1 parts2 with
  | Throw e => Throw e
  | Ret r =>
      match start n desc_addr (restart_heap h r) (new_global_epoch r) container tracker with
      | Throw e => Throw e
      | Ret s => Ret (r_addr <$> in_use r, s)
      end
  end.

Section restart.
Context {P C T : Type} `{!FixedContainer C, !FixedContainerLaws C, !Tracker T, !TrackerLaws T}.

Lemma restart_heap_lookup (h : gmap Z (pblk P)) r b x :
  restart_heap h r !! b = Some x ↔ h !! b = Some x ∧ b ∈ r_addr <$> vals (in_use r).
Proof. unfold restart_heap. by rewrite map_lookup_filter_Some. Qed.

Lemma recovered_payloads_lookup (h : gmap Z (pblk P)) r b p :
  recovered_payloads h r !! b = Some p ↔ ∃ x, restart_heap h r !! b = Some x ∧ payload x = Some p.
Proof.
  unfold recovered_payloads. rewrite map_lookup_filter_Some, lookup_omap_Some. simpl. setoid_rewrite restart_heap_lookup.
  naive_solver.
Qed.

(** The addresses that recovery returns: each once, and those of the payloads
    recovered. *)
Lemma recovered_addrs (g u : Z) (h : gmap Z (pblk P)) r :
  map_Forall plain_blk h →
  (∀ i rb, in_use r !! i = Some rb → ∃ x, h !! r_addr rb = Some x ∧ ver x ∧ id x = i ∧ epoch x ≤ g - 2) →
  NoDup (map_to_list (r_addr <$> in_use r)).*2 ∧
  ∀ b, b ∈ (map_to_list (r_addr <$> in_use r)).*2 ↔ is_Some (recovered_payloads h r !! b).
Proof.
  intros Hbl Hin.
  assert (∀ b, b ∈ (map_to_list (r_addr <$> in_use r)).*2 ↔ b ∈ r_addr <$> vals (in_use r)) as Hb.
  { intros b. unfold vals. rewrite map_to_list_fmap, <- !list_fmap_compose. done. }
  split.
  - apply NoDup_fmap_2_strong; [|apply NoDup_map_to_list].
    intros [i a] [j a'] Hi%elem_of_map_to_list Hj%elem_of_map_to_list. simpl. intros <-.
    apply lookup_fmap_Some in Hi as (rb & Ha & Hi). apply lookup_fmap_Some in Hj as (rb' & Ha' & Hj).
    destruct (Hin i rb Hi) as (x & Hx & _ & <- & _). destruct (Hin j rb' Hj) as (y & Hy & _ & <- & _).
    rewrite Ha in Hx. rewrite Ha' in Hy. by simplify_eq.
  - intros b. rewrite Hb. split.
    + intros Hbi. pose proof Hbi as (rb & -> & ([i rb'] & -> & Hi)%list_elem_of_fmap)%list_elem_of_fmap.
      apply elem_of_map_to_list in Hi. simpl in *. destruct (Hin i rb' Hi) as (x & Hx & [_ Hv] & _ & _).
      destruct (Hbl _ x Hx) as (_ & _ & [?|[p Hp]]); [destruct Hv; congruence|].
      exists p. apply recovered_payloads_lookup. exists x. by rewrite restart_heap_lookup.
    + intros [p (x & (_ & Hbi)%restart_heap_lookup & _)%recovered_payloads_lookup]. done.
Qed.

Context (ralloc : gmap Z (pblk P) → Z) (malloc_size : Z → Z) (n : nat).
Hypothesis ralloc_fresh : ∀ h, h !! ralloc h = None.
Hypothesis ralloc_pos : ∀ h, 0 < ralloc h.

(** Start-up after a crash: for every image a crash of a system with the crash
    invariant can leave, [init] succeeds, the system is idle, and its live
    payloads are the past generation, at the addresses that it returns. *)
Lemma init_restart_idle H k r L (desc_addr : nat → Z) (c0 : C) (t0 : T) k2 I parts1 parts2 :
  vinv H k [] (es r : esys P C T) L → (0 < n)%nat → Z.of_nat n ≤ 65536 → 0 ≤ k2 < SN_MASK → k2 + 4 ≤ k →
  fc_ok n (4 * k2) c0 → tt_rep n t0 (λ _, None) →
  crash_image (g (es r)) (heap (es r)) I → concat parts1 ≡ₚ I → concat parts2 ≡ₚ I →
  ∃ rec s, init_restart n desc_addr c0 t0 (heap (es r)) parts1 parts2 = Ret (rec, s) ∧
    api_idle n (λ _ _ _ _, True) k2 (new_recoverable n s) (past H 1) ∧
    NoDup (map_to_list rec).*2 ∧ ∀ b, b ∈ (map_to_list rec).*2 ↔ is_Some (past H 1 !! b).
Proof.
  intros Hv Hn Hn2 Hk2 Hk Hc Ht HI H1 H2. pose proof (vi_blocks _ _ _ _ _ Hv) as Hbl.
  destruct Hv as [Hr (K & te & u & _ & _ & _ & _ & Hv) _].
  destruct (recover_generation (g (es r)) u (heap (es r)) K L H I) with (parts1 := parts1) (parts2 := parts2)
    as (rec & Hrec & Hge & Hpast & Hin); [lia|done|done|done|done|].
  unfold init_restart. rewrite Hrec, Hge.
  destruct (start_idle ralloc malloc_size n ralloc_fresh ralloc_pos (λ _ _ _ _, True) desc_addr (restart_heap (heap (es r)) rec) (g (es r)) (past H 1) c0 t0 k2)
    as (s & -> & _ & _ & Hid); try done; [lia|lia|..].
  { intros b p Hb. pose proof Hb as Hb2. rewrite <- Hpast in Hb2. apply recovered_payloads_lookup in Hb2 as (x & Hx & Hp).
    apply (v_gen _ _ _ _ _ _ _ Hv) in Hb as (x' & Hx' & [He Hty] & _ & Hle & _); [|lia].
    pose proof Hx as [Hx2 _]%restart_heap_lookup. rewrite Hx2 in Hx'. injection Hx' as <-. destruct (Hbl b x Hx2) as (? & ? & _).
    eapply live_blk_tagged; [done|apply not_elem_of_nil|exact Hx|done|done|lia|done]. }
  exists (r_addr <$> in_use rec), s. split; [done|]. split; [exact Hid|]. rewrite <- Hpast. by apply (recovered_addrs (g (es r)) u).
Qed.
End restart.
