(* ===== verification/Config.v ===== *)
(** * Configuration (EpochSys::parse_env, src/persist/EpochSys.cpp)

    [EpochSys::reset] ends with [parse_env], which reads the environment of the
    test configuration, stores defaults into it and constructs the parts of the
    epoch system it names.  The result here is which classes are constructed.

    The theorems: which environments are accepted; without settings the parts
    are those of the development ([BufferedWB], [ThreadLocalFreedContainer],
    [PerEpochTransactionTracker], [IncreasingMindicator]); and, since [reset] can
    run again, that parsing the environment it leaves gives the same parts. *)

From S2P Require Import Prelude.

Notation env := (gmap string string).

Inductive persist_t : Type := NoToBePersistContainer | DirWB | BufferedWB.
Inductive free_t : Type := PerEpochFreedContainer | ThreadLocalFreedContainer | NoToBeFreedContainer.
Inductive trans_t : Type :=
  | AtomicTransactionTracker | FenceBeginTransactionTracker | PerEpochTransactionTracker | NoTransactionTracker.
Inductive tracker_t : Type := TIncreasingMindicator | TMindicator.
Inductive advancer_t : Type := NoEpochAdvancer | DedicatedEpochAdvancer.

Record config : Type := Config {
  to_be_persisted : persist_t;
  to_be_freed : free_t;
  trans_tracker : trans_t;
  persisted_epochs : tracker_t;
  epoch_advancer : advancer_t;
}.

(** [if (!gtc->checkEnv(x)) gtc->setEnv(x, d);] *)
Definition set_default (x d : string) (e : env) : env := match e !! x with Some _ => e | None => <[x := d]> e end.

(** [table], with the classes for the values that are recognised *)
Definition choose {A} (v : string) (table : list (string * A)) (msg : string) : outcome A :=
  match list_find (λ p, p.1 = v) table with
  | Some (_, (_, a)) => Ret a
  | None => Throw (Errexit msg)
  end.

Definition persist_table : list (string * persist_t) := [("DirWB", DirWB); ("BufferedWB", BufferedWB)]%string.
Definition free_table : list (string * free_t) :=
  [("PerEpoch", PerEpochFreedContainer); ("ThreadLocal", ThreadLocalFreedContainer); ("No", NoToBeFreedContainer)]%string.
Definition trans_table : list (string * trans_t) :=
  [("AtomicCounter", AtomicTransactionTracker); ("ActiveThread", FenceBeginTransactionTracker);
   ("CurrEpoch", PerEpochTransactionTracker)]%string.
Definition tracker_table : list (string * tracker_t) :=
  [("IncreasingMindicator", TIncreasingMindicator); ("Mindicator", TMindicator)]%string.

(** [if (gtc->checkEnv(x)) { choose } else { d }] *)
Definition setting {A} (x : string) (table : list (string * A)) (d : A) (msg : string) : M env A := λ e,
  (match e !! x with Some v => choose v table msg | None => Ret d end, e).

Definition parse_env : M env config :=
  do* mmod (set_default "EpochLengthUnit" "Millisecond") in
  do* mmod (set_default "EpochLength" "50") in
  do* mmod (set_default "BufferSize" "64") in
  let* strat := mget (λ e : env, e !! "PersistStrat"%string) in
  if bool_decide (strat = Some "No"%string) then
    mret_ (Config NoToBePersistContainer NoToBeFreedContainer NoTransactionTracker TIncreasingMindicator NoEpochAdvancer)
  else
    let* p := setting "PersistStrat" persist_table BufferedWB "unrecognized 'persist' environment" in
    do* mmod (set_default "PersistStrat" "BufferedWB") in
    let* f := setting "Free" free_table ThreadLocalFreedContainer "unrecognized 'free' environment" in
    let* t := setting "TransTracker" trans_table PerEpochTransactionTracker
      "unrecognized 'transaction counter' environment" in
    let* k := setting "PersistTracker" tracker_table TIncreasingMindicator "unrecognized 'persist tracker' environment" in
    mret_ (Config p f t k DedicatedEpochAdvancer).

(** ** What is accepted *)

(** The value of [x], if any, is in the table. *)
Definition known {A} (e : env) (x : string) (table : list (string * A)) : bool :=
  match e !! x with Some v => bool_decide (v ∈ table.*1) | None => true end.

Definition accepted (e : env) : bool :=
  bool_decide (e !! "PersistStrat"%string = Some "No"%string) ||
  (known e "PersistStrat" persist_table && known e "Free" free_table && known e "TransTracker" trans_table &&
   known e "PersistTracker" tracker_table).

(** The environment that [parse_env] leaves when it does not fail. *)
Definition completed (e : env) : env :=
  let e' := set_default "BufferSize" "64" (set_default "EpochLength" "50" (set_default "EpochLengthUnit" "Millisecond" e)) in
  set_default "PersistStrat" "BufferedWB" e'.

Lemma set_default_ne x d e y : x ≠ y → set_default x d e !! y = e !! y.
Proof. intros Hxy. unfold set_default. destruct (e !! x); [done|]. by apply lookup_insert_ne. Qed.

Lemma set_default_idem x d e : set_default x d (set_default x d e) = set_default x d e.
Proof. unfold set_default. destruct (e !! x) eqn:H; [by rewrite H|]. by rewrite lookup_insert_eq. Qed.

Lemma choose_ok {A} v (table : list (string * A)) msg :
  match choose v table msg with Ret _ => v ∈ table.*1 | Throw e => v ∉ table.*1 ∧ e = Errexit msg end.
Proof.
  unfold choose. destruct (list_find _ table) as [[i [w a]]|] eqn:Hf.
  - apply list_find_Some in Hf as (Hl & Hw & _). simpl in Hw. subst w. apply list_elem_of_fmap. exists (v, a).
    split; [done|]. by eapply list_elem_of_lookup_2.
  - apply list_find_None in Hf. split; [|done]. intros ([w a] & Hv & Hin)%list_elem_of_fmap.
    rewrite Forall_forall in Hf. by apply (Hf (w, a)).
Qed.

(** The choice for the value of one variable. *)
Definition pick {A} (o : option string) (table : list (string * A)) (d : A) : option A :=
  match o with Some v => (λ p, p.2.2) <$> list_find (λ p, p.1 = v) table | None => Some d end.

Lemma setting_pick {A} x (table : list (string * A)) d msg e :
  setting x table d msg e = (match pick (e !! x) table d with Some a => Ret a | None => Throw (Errexit msg) end, e).
Proof. unfold setting, pick, choose. destruct (e !! x) as [v|]; [|done]. by destruct (list_find _ table) as [[i [w a]]|]. Qed.

Lemma known_pick {A} e x (table : list (string * A)) d : known e x table = bool_decide (is_Some (pick (e !! x) table d)).
Proof.
  unfold known, pick. destruct (e !! x) as [v|]; [|by rewrite bool_decide_true by (by eexists)]. apply bool_decide_ext.
  pose proof (choose_ok v table "") as Hc. unfold choose in Hc.
  destruct (list_find _ table) as [[i [w a]]|]; simpl.
  - split; [by eexists|done].
  - split; [tauto|by intros []].
Qed.

#[local] Opaque setting set_default.

(** [parse_env] in terms of the five variables it reads. *)
Definition parts (e : env) : option config :=
  if bool_decide (e !! "PersistStrat"%string = Some "No"%string) then
    Some (Config NoToBePersistContainer NoToBeFreedContainer NoTransactionTracker TIncreasingMindicator NoEpochAdvancer)
  else
    p ← pick (e !! "PersistStrat"%string) persist_table BufferedWB;
    f ← pick (e !! "Free"%string) free_table ThreadLocalFreedContainer;
    t ← pick (e !! "TransTracker"%string) trans_table PerEpochTransactionTracker;
    k ← pick (e !! "PersistTracker"%string) tracker_table TIncreasingMindicator;
    Some (Config p f t k DedicatedEpochAdvancer).

Definition lengths (e : env) : env :=
  set_default "BufferSize" "64" (set_default "EpochLength" "50" (set_default "EpochLengthUnit" "Millisecond" e)).

Lemma lengths_ne e x : x ∉ ["EpochLengthUnit"; "EpochLength"; "BufferSize"]%string → lengths e !! x = e !! x.
Proof. intros Hx. unfold lengths. rewrite !set_default_ne; [done|..]; intros <-; apply Hx; set_solver. Qed.

Lemma parse_env_parts e :
  match parts e with
  | Some c => parse_env e = (Ret c, if bool_decide (e !! "PersistStrat"%string = Some "No"%string)
                                    then lengths e else completed e)
  | None => ∃ msg e', parse_env e = (Throw (Errexit msg), e')
  end.
Proof.
  assert (∀ x, x ∈ ["PersistStrat"; "Free"; "TransTracker"; "PersistTracker"]%string → lengths e !! x = e !! x) as Hl.
  { intros x Hx. apply lengths_ne. clear -Hx. set_unfold in Hx. destruct_or?; subst; set_solver. }
  unfold parse_env, parts, mbind_, mmod, mget. fold (lengths e). rewrite (Hl "PersistStrat"%string) by set_solver.
  case_bool_decide as Hno; [done|]. rewrite setting_pick, (Hl "PersistStrat"%string) by set_solver.
  destruct (pick _ persist_table _) as [p|]; simpl; [|by eexists _, _].
  fold (completed e).
  assert (∀ x, x ∈ ["Free"; "TransTracker"; "PersistTracker"]%string → completed e !! x = e !! x) as Hc.
  { intros x Hx. unfold completed. fold (lengths e). rewrite set_default_ne; [apply Hl; set_solver|].
    intros <-. clear -Hx. set_unfold in Hx. naive_solver. }
  rewrite setting_pick, Hc by set_solver. destruct (pick _ free_table _) as [f|]; simpl; [|by eexists _, _].
  rewrite setting_pick, Hc by set_solver. destruct (pick _ trans_table _) as [t|]; simpl; [|by eexists _, _].
  rewrite setting_pick, Hc by set_solver. destruct (pick _ tracker_table _) as [k|]; simpl; [done|by eexists _, _].
Qed.

Lemma accepted_parts e : accepted e = bool_decide (is_Some (parts e)).
Proof.
  unfold accepted, parts. case_bool_decide as Hno; [by rewrite bool_decide_true by (by eexists)|]. simpl.
  rewrite (known_pick e _ persist_table BufferedWB), (known_pick e _ free_table ThreadLocalFreedContainer),
    (known_pick e _ trans_table PerEpochTransactionTracker), (known_pick e _ tracker_table TIncreasingMindicator).
  destruct (pick _ persist_table _), (pick _ free_table _), (pick _ trans_table _), (pick _ tracker_table _); done.
Qed.

#[local] Transparent set_default.

Lemma set_default_sub x d e y v : e !! y = Some v → set_default x d e !! y = Some v.
Proof.
  unfold set_default. intros Hy. destruct (e !! x) eqn:Hx; [done|]. rewrite lookup_insert_ne; [done|congruence].
Qed.
Lemma set_default_has x d e : is_Some (set_default x d e !! x).
Proof. unfold set_default. destruct (e !! x) as [w|] eqn:Hx; [by exists w|rewrite lookup_insert_eq; by eexists]. Qed.
Lemma set_default_same x d e : is_Some (e !! x) → set_default x d e = e.
Proof. unfold set_default. by intros [v ->]. Qed.

Lemma lengths_same e e0 : (∀ y v, lengths e !! y = Some v → e0 !! y = Some v) → lengths e0 = e0.
Proof.
  intros Hsub. unfold lengths in *. rewrite (set_default_same "EpochLengthUnit"), (set_default_same "EpochLength"), set_default_same; [done|..].
  - destruct (set_default_has "BufferSize" "64" (set_default "EpochLength" "50" (set_default "EpochLengthUnit" "Millisecond" e)))
      as [w Hw]. exists w. by apply Hsub.
  - destruct (set_default_has "EpochLength" "50" (set_default "EpochLengthUnit" "Millisecond" e)) as [w Hw].
    exists w. by apply Hsub, set_default_sub.
  - destruct (set_default_has "EpochLengthUnit" "Millisecond" e) as [w Hw]. exists w. by apply Hsub, set_default_sub, set_default_sub.
Qed.

Lemma lengths_keep e x :
  x ∈ ["PersistStrat"; "Free"; "TransTracker"; "PersistTracker"]%string → lengths e !! x = e !! x.
Proof. intros Hx. apply lengths_ne. clear e. set_unfold in Hx. set_unfold. naive_solver. Qed.
Lemma completed_keep e x : x ∈ ["Free"; "TransTracker"; "PersistTracker"]%string → completed e !! x = e !! x.
Proof.
  intros Hx. unfold completed. fold (lengths e). rewrite set_default_ne; [apply lengths_keep; set_solver|].
  intros <-. set_unfold in Hx. naive_solver.
Qed.
Lemma completed_strat e :
  completed e !! "PersistStrat"%string = Some (default "BufferedWB"%string (e !! "PersistStrat"%string)).
Proof.
  unfold completed. fold (lengths e). pose proof (lengths_keep e "PersistStrat" ltac:(set_solver)) as Hl.
  destruct (e !! "PersistStrat"%string) as [v|] eqn:Hv; simpl; [by apply set_default_sub|].
  unfold set_default. by rewrite Hl, lookup_insert_eq.
Qed.

(** The two environments that [parse_env] leaves choose the same parts. *)
Lemma parts_lengths e : parts (lengths e) = parts e.
Proof. unfold parts. by rewrite !lengths_keep by set_solver. Qed.
Lemma parts_completed e : parts (completed e) = parts e.
Proof.
  unfold parts. rewrite completed_strat, !(completed_keep e "Free"), !(completed_keep e "TransTracker"), !(completed_keep e "PersistTracker") by set_solver.
  by destruct (e !! "PersistStrat"%string).
Qed.
Lemma completed_same e : lengths (completed e) = completed e ∧ completed (completed e) = completed e.
Proof.
  assert (lengths (completed e) = completed e) as Hl by (apply (lengths_same e); intros y v; apply set_default_sub).
  split; [done|]. unfold completed at 1. fold (lengths (completed e)). rewrite Hl. apply set_default_same.
  rewrite completed_strat. by eexists.
Qed.

(** The parts chosen are stable: parsing again the environment that the first
    call leaves, as [reset] does when it runs again, chooses the same parts and
    changes nothing; all settings are kept; an environment with an unknown value
    is rejected. *)
Theorem parse_env_stable (e : env) :
  if accepted e then
    ∃ c e1, parse_env e = (Ret c, e1) ∧ parse_env e1 = (Ret c, e1) ∧ ∀ x v, e !! x = Some v → e1 !! x = Some v
  else ∃ msg e1, parse_env e = (Throw (Errexit msg), e1).
Proof.
  pose proof (parse_env_parts e) as Hp. rewrite accepted_parts. destruct (parts e) as [c|] eqn:Hc;
    [rewrite bool_decide_true by (by eexists)|rewrite bool_decide_false by (by intros []); done].
  assert (∀ x v, e !! x = Some v → lengths e !! x = Some v) as Hsub by (intros x v Hx; by repeat apply set_default_sub).
  case_bool_decide as Hno; eexists c, _; (split; [exact Hp|]).
  - pose proof (parse_env_parts (lengths e)) as Hp1. rewrite parts_lengths, Hc, lengths_keep, bool_decide_true in Hp1 by (done || apply list_elem_of_here).
    rewrite (lengths_same e (lengths e)) in Hp1 by done. done.
  - pose proof (parse_env_parts (completed e)) as Hp1. rewrite parts_completed, Hc in Hp1.
    destruct (completed_same e) as [H1 H2]. rewrite H1, H2 in Hp1. split; [by destruct (bool_decide _)|].
    intros x v Hx. by apply set_default_sub, Hsub.
Qed.

(** Without settings. *)
Example parse_env_default :
  (parse_env ∅).1 = Ret (Config BufferedWB ThreadLocalFreedContainer PerEpochTransactionTracker TIncreasingMindicator
    DedicatedEpochAdvancer).
Proof. vm_compute. reflexivity. Qed.
