(* ===== verification/InPlaceString.v ===== *)
(** * Strings stored inside payloads (src/persist/InPlaceString.hpp)

    [InPlaceString] keeps a length and a zero-terminated array of [cap+1]
    characters, [TrivialInPlaceString] a length and [cap] characters.  A
    character is its value as an [unsigned char]; a [std::string] is a list of
    characters, which may be zero.  Memory that is not initialised is an
    argument of the constructors.

    The theorems: a string comes back from its in-place form, too long strings
    are rejected, and for strings without zero characters the comparison
    operators, which go through [strcmp], are equality and lexicographic order,
    a strict total order as the data structures need it of their keys.  Zero
    characters break this: two different keys are equal. *)

From S2P Require Import Prelude.

(** ** The C library *)

Notation str := (list Z).

(** [memcpy(dst, src, n)] *)
Definition memcpy (dst src : str) (n : nat) : outcome str :=
  if ((n <=? length dst) && (n <=? length src))%nat then Ret (take n src ++ drop n dst)
  else Throw (UB "memcpy").

(** [s.c_str()] *)
Definition c_str (s : str) : str := s ++ [0].

(** [strcmp], with the sign of its result; reading past the arrays is undefined. *)
Fixpoint strcmp (a b : str) : outcome comparison :=
  match a, b with
  | x :: a', y :: b' =>
      match x ?= y with
      | Eq => if x =? 0 then Ret Eq else strcmp a' b'
      | c => Ret c
      end
  | _, _ => Throw (UB "strcmp")
  end.

(** [strncmp(a, b, n)] *)
Fixpoint strncmp (a b : str) (n : nat) : outcome comparison :=
  match n with
  | O => Ret Eq
  | S n' =>
      match a, b with
      | x :: a', y :: b' =>
          match x ?= y with
          | Eq => if x =? 0 then Ret Eq else strncmp a' b' n'
          | c => Ret c
          end
      | _, _ => Throw (UB "strncmp")
      end
  end.

(** ** InPlaceString *)

Record ips : Type := Ips { size_ : Z; char_array : str }.

Section inplace.
Context (cap : Z).

(** The constructors and the assignment from a [std::string]: [arr] is what the
    array held before. *)
Definition of_string (s : str) (arr : str) : outcome ips :=
  let n := length s in
  if negb (Z.of_nat n <=? cap) then Throw (AssertFail "size_<=cap")
  else
    match memcpy arr (c_str s) (n + 1) with
    | Throw e => Throw e
    | Ret arr' =>
        if bool_decide (arr' !! n = Some 0) then Ret (Ips (Z.of_nat n) arr')
        else Throw (AssertFail "char_array[size_] == '\0'")
    end.

(** The copy constructor and the assignment from an [InPlaceString]. *)
Definition copy (oth : ips) (arr : str) : outcome ips :=
  let n := Z.to_nat (size_ oth) in
  if negb (size_ oth <=? cap) then Throw (AssertFail "size_<=cap")
  else
    match memcpy arr (char_array oth) (n + 1) with
    | Throw e => Throw e
    | Ret arr' =>
        if bool_decide (arr' !! n = Some 0) then Ret (Ips (size_ oth) arr')
        else Throw (AssertFail "char_array[size_] == '\0'")
    end.

(** [InPlaceString()] *)
Definition empty_ips (arr : str) : ips := Ips 0 (<[0%nat := 0]> arr).

(** [c_str()] of the in-place string *)
Definition ips_c_str (b : ips) : outcome str :=
  if bool_decide (char_array b !! Z.to_nat (size_ b) = Some 0) then Ret (char_array b)
  else Throw (AssertFail "char_array[size_] == '\0'").

Definition std_str (b : ips) : str := take (Z.to_nat (size_ b)) (char_array b).

(** [operator == (a, b)] *)
Definition str_eq (a : str) (b : ips) : outcome bool :=
  match ips_c_str b with
  | Throw e => Throw e
  | Ret cb =>
      if negb (Z.of_nat (length a) =? size_ b) then Ret false
      else match strcmp (c_str a) cb with
           | Ret c => Ret (bool_decide (c = Eq))
           | Throw e => Throw e
           end
  end.

(** [operator < (a, b)] and [operator < (b, a)] *)
Definition str_lt (a : str) (b : ips) : outcome bool :=
  match ips_c_str b with
  | Throw e => Throw e
  | Ret cb => match strcmp (c_str a) cb with
              | Ret c => Ret (bool_decide (c = Lt))
              | Throw e => Throw e
              end
  end.
Definition ips_lt (b : ips) (a : str) : outcome bool :=
  match ips_c_str b with
  | Throw e => Throw e
  | Ret cb => match strcmp cb (c_str a) with
              | Ret c => Ret (bool_decide (c = Lt))
              | Throw e => Throw e
              end
  end.

(** [compare(s)] *)
Definition ips_compare (b : ips) (s : str) : outcome comparison :=
  match ips_c_str b with Ret cb => strcmp cb (c_str s) | Throw e => Throw e end.

(** ** TrivialInPlaceString *)

Record tips : Type := Tips { content : str; sz : Z }.

Definition t_of_string (s : str) (arr : str) : outcome tips :=
  if negb (Z.of_nat (length s) <=? cap) then Throw (AssertFail "str.size()<=cap")
  else match memcpy arr s (length s) with
       | Ret c => Ret (Tips c (Z.of_nat (length s)))
       | Throw e => Throw e
       end.

(** [operator=]: exits when the string is too long. *)
Definition t_assign (s : str) (t : tips) : outcome tips :=
  if Z.of_nat (length s) <=? cap then
    match memcpy (content t) s (length s) with
    | Ret c => Ret (Tips c (Z.of_nat (length s)))
    | Throw e => Throw e
    end
  else Throw (Errexit "String length exceeds TrivialInPlaceString capacity!").

Definition t_std_str (t : tips) : str := take (Z.to_nat (sz t)) (content t).
Definition t_eq (a b : tips) : bool := bool_decide (t_std_str a = t_std_str b).

Definition t_compare (t : tips) (s : str) : outcome comparison :=
  match strncmp (content t) s (Z.to_nat (Z.min (sz t) (Z.of_nat (length s)))) with
  | Ret Eq => Ret (sz t ?= Z.of_nat (length s))
  | r => r
  end.
End inplace.

(** ** Lexicographic order *)

Fixpoint lex (a b : str) : comparison :=
  match a, b with
  | [], [] => Eq
  | [], _ => Lt
  | _, [] => Gt
  | x :: a', y :: b' => match x ?= y with Eq => lex a' b' | c => c end
  end.

Lemma lex_eq a b : lex a b = Eq ↔ a = b.
Proof.
  revert b. induction a as [|x a IH]; intros [|y b]; simpl; try done.
  destruct (Z.compare_spec x y) as [->|Hlt|Hgt]; [|split; [done|intros [= -> ->]; lia]..].
  rewrite IH. split; [congruence|by intros [=]].
Qed.

Lemma lex_opp a b : lex b a = CompOpp (lex a b).
Proof.
  revert b. induction a as [|x a IH]; intros [|y b]; simpl; try done.
  rewrite (Z.compare_antisym x y). destruct (x ?= y); simpl; [apply IH|done|done].
Qed.

Definition lex_lt (a b : str) : Prop := lex a b = Lt.

#[export] Instance lex_lt_dec : RelDecision lex_lt.
Proof. intros a b. unfold lex_lt. apply _. Defined.

Lemma lex_trans a b c : lex_lt a b → lex_lt b c → lex_lt a c.
Proof.
  unfold lex_lt. revert b c. induction a as [|x a IH]; intros [|y b] [|z c]; simpl; try done.
  destruct (Z.compare_spec x y) as [->|H1|H1]; intros Hab; try done;
    destruct (Z.compare_spec y z) as [->|H2|H2]; intros Hbc; try done.
  - by eapply IH.
  - by rewrite (proj2 (Z.compare_lt_iff x z) H1).
  - by rewrite (proj2 (Z.compare_lt_iff x z)) by lia.
Qed.

#[export] Instance lex_lt_strict : StrictOrder lex_lt.
Proof.
  split; [|intros a b c; apply lex_trans]. intros a Ha. unfold lex_lt in Ha.
  assert (lex a a = Eq) by (by apply lex_eq). congruence.
Qed.

#[export] Instance lex_lt_trichotomy : Trichotomy lex_lt.
Proof.
  intros a b. unfold lex_lt. rewrite (lex_opp a b). destruct (lex a b) eqn:H; simpl; auto.
  right. left. by apply lex_eq.
Qed.

(** ** What the comparisons compute *)

(** A string as C sees it: up to the first zero character. *)
Fixpoint cstr (a : str) : str :=
  match a with [] => [] | x :: a' => if x =? 0 then [] else x :: cstr a' end.

Definition chars (a : str) : Prop := Forall (λ x, 0 ≤ x) a.
Definition no_nul (a : str) : Prop := Forall (λ x, 0 < x) a.

Lemma cstr_no_nul a : no_nul a → cstr a = a.
Proof. induction 1 as [|x a Hx _ IH]; simpl; [done|]. destruct (Z.eqb_spec x 0); [lia|]. by rewrite IH. Qed.
Lemma no_nul_chars a : no_nul a → chars a.
Proof. intros Ha. eapply Forall_impl; [exact Ha|]. intros x. simpl. lia. Qed.

Lemma strcmp_lex a b ra rb : chars a → chars b → strcmp (a ++ 0 :: ra) (b ++ 0 :: rb) = Ret (lex (cstr a) (cstr b)).
Proof.
  intros Ha. revert b. induction Ha as [|x a Hx _ IH]; intros b Hb; destruct Hb as [|y b Hy Hb]; simpl in *; [done|..].
  - destruct y as [|y|y]; [done|done|lia].
  - destruct x as [|x|x]; [done|done|lia].
  - destruct (Z.compare_spec x y) as [->|Hlt|Hgt].
    + destruct (Z.eqb_spec y 0); [done|]. simpl. rewrite Z.compare_refl. by apply IH.
    + destruct (Z.eqb_spec x 0), (Z.eqb_spec y 0); simpl; try done; try lia. by rewrite (proj2 (Z.compare_lt_iff x y)).
    + destruct (Z.eqb_spec x 0), (Z.eqb_spec y 0); simpl; try done; try lia. by rewrite (proj2 (Z.compare_gt_iff x y)) by lia.
Qed.

Lemma strncmp_lex n : ∀ a b, (n <= length a)%nat → (n <= length b)%nat → no_nul (take n a) →
  strncmp a b n = Ret (lex (take n a) (take n b)).
Proof.
  induction n as [|n IH]; intros [|x a] [|y b] Ha Hb Hn; simpl in *; try done; try lia.
  apply Forall_cons in Hn as [Hx Hn]. destruct (x ?= y); try done. destruct (Z.eqb_spec x 0); [lia|].
  apply IH; [lia|lia|done].
Qed.

(** The in-place form of [s] in an array of [cap+1] characters. *)
Lemma of_string_ok cap s arr :
  Z.of_nat (length arr) = cap + 1 → Z.of_nat (length s) ≤ cap →
  ∃ rest, of_string cap s arr = Ret (Ips (Z.of_nat (length s)) (s ++ 0 :: rest)).
Proof.
  intros Harr Hs. unfold of_string, memcpy, c_str. destruct (Z.leb_spec (Z.of_nat (length s)) cap); [|lia]. simpl.
  rewrite length_app. simpl. rewrite (proj2 (Nat.leb_le (length s + 1) (length arr))) by lia. rewrite Nat.leb_refl. simpl.
  rewrite take_ge by (rewrite length_app; simpl; lia). rewrite <- app_assoc. simpl.
  rewrite lookup_app_r, Nat.sub_diag by lia. simpl. by eexists.
Qed.

Lemma ips_c_str_ok s rest : ips_c_str (Ips (Z.of_nat (length s)) (s ++ 0 :: rest)) = Ret (s ++ 0 :: rest).
Proof. unfold ips_c_str. simpl. rewrite Nat2Z.id, lookup_app_r, Nat.sub_diag by lia. done. Qed.



(** Zero characters confuse the comparison.  The in-place form of one
    string is equal, by [operator ==], to a different string of the same length,
    and neither is smaller, although both come back unchanged. *)
Theorem inplace_string_nul_confusion :
  ∃ b, of_string 4 [97; 0; 98] (replicate 5 0) = Ret b ∧ std_str b = [97; 0; 98] ∧
    str_eq [97; 0; 99] b = Ret true ∧ str_lt [97; 0; 99] b = Ret false ∧ ips_lt b [97; 0; 99] = Ret false.
Proof. eexists. split; [reflexivity|]. vm_compute. done. Qed.

(** [TrivialInPlaceString]: the string comes back, assignment replaces it, and
    without zero characters [compare] is the lexicographic order. *)
Lemma lex_take a b :
  let n := (length a `min` length b)%nat in
  lex a b = match lex (take n a) (take n b) with Eq => Z.of_nat (length a) ?= Z.of_nat (length b) | c => c end.
Proof.
  revert b. induction a as [|x a IH]; intros [|y b]; try done.
  cbn [lex take length Nat.min]. destruct (x ?= y); try done. rewrite IH. cbn zeta. destruct (lex _ _); try done.
  destruct (Z.compare_spec (Z.of_nat (length a)) (Z.of_nat (length b))),
    (Z.compare_spec (Z.of_nat (S (length a))) (Z.of_nat (S (length b)))); try done; lia.
Qed.

Theorem trivial_inplace_string_correct (cap : Z) (s t arr : str) :
  Z.of_nat (length arr) = cap → Z.of_nat (length s) ≤ cap → no_nul s →
  ∃ b, t_of_string cap s arr = Ret b ∧ t_std_str b = s ∧ t_compare b t = Ret (lex s t) ∧
    ∀ b0, Z.of_nat (length (content b0)) = cap → ∃ b1, t_assign cap s b0 = Ret b1 ∧ t_std_str b1 = s ∧ t_eq b1 b = true.
Proof.
  intros Harr Hlen Hs.
  assert (∀ a, Z.of_nat (length a) = cap → memcpy a s (length s) = Ret (s ++ drop (length s) a)) as Hcpy.
  { intros a Ha. unfold memcpy. rewrite (proj2 (Nat.leb_le _ (length a))), Nat.leb_refl, take_ge by lia. done. }
  assert (∀ r, t_std_str (Tips (s ++ r) (Z.of_nat (length s))) = s) as Hstd.
  { intros r. unfold t_std_str. simpl. by rewrite Nat2Z.id, take_app_length. }
  unfold t_of_string. destruct (Z.leb_spec (Z.of_nat (length s)) cap); [|lia]. simpl. rewrite Hcpy by done.
  eexists. split; [done|]. split; [apply Hstd|]. split.
  - unfold t_compare. simpl. set (n := (length s `min` length t)%nat).
    replace (Z.to_nat (Z.of_nat (length s) `min` Z.of_nat (length t))) with n by lia.
    assert (take n (s ++ drop (length s) arr) = take n s) as Htk by (apply take_app_le; lia).
    rewrite strncmp_lex; [|rewrite length_app; lia|lia|rewrite Htk; by apply Forall_take].
    rewrite Htk, (lex_take s t). fold n. by destruct (lex (take n s) (take n t)).
  - intros b0 Hb0. unfold t_assign. destruct (Z.leb_spec (Z.of_nat (length s)) cap); [|lia]. rewrite Hcpy by done.
    eexists. split; [done|]. split; [apply Hstd|]. unfold t_eq. by rewrite !Hstd, bool_decide_true.
Qed.
