(* ===== verification/HashTable.v ===== *)
(** * MontageHashTable (src/rideables/MontageHashTable.hpp)

    A map as an array of buckets, each a linked list sorted by key whose
    transient nodes point to persistent payloads.  The chain behind a bucket's
    head is the list of the nodes' payload pointers; the traversal loops walk
    it with [curr] and splice it at [prev].  [std::hash] and the key type are
    parameters, [curr_key > key] is a decidable strict total order.  Operations
    run one after another (each holds its bucket's lock); the epoch may advance
    between any two of them.

    The operations use the epoch system through [PayloadApi] only. *)

From S2P Require Import Prelude PayloadApi History.

Section hashtable.
Context {S K V : Type} `{!EqDecision K} (lt : K → K → Prop) `{!RelDecision lt}.
Context (hash_fn : K → Z) (idxSize : Z).
Context `{!PayloadApi S (K * V)}.

Record ht : Type := Ht { ds : S; buckets : list (list Z) }.

Notation H := (M ht).

Definition on_ds {A} (m : M S A) : H A := λ t, let '(o, s) := m (ds t) in (o, Ht s (buckets t)).
Definition idx (key : K) : nat := Z.to_nat (hash_fn key mod idxSize).
(** [buckets[idx].head.next] *)
Definition get_bucket (i : nat) : H (list Z) := λ t,
  match buckets t !! i with Some l => (Ret l, t) | None => (Throw (UB "buckets[idx]"), t) end.
Definition set_bucket (i : nat) (l : list Z) : H unit := mmod (λ t, Ht (ds t) (<[i := l]> (buckets t))).

Definition new_ht (s : S) : ht := Ht s (replicate (Z.to_nat idxSize) []).

(** ** Operations *)

Fixpoint get_loop (key : K) (l : list Z) : M S (option V) :=
  match l with
  | [] => mret_ None
  | curr :: l' =>
      let* p := p_get curr in
      if decide (p.1 = key) then let* q := p_get curr in mret_ (Some q.2)
      else get_loop key l'
  end.

Definition get (key : K) (tid : nat) : H (option V) :=
  do* on_ds (op_holder_readonly_tmp tid) in
  let* l := get_bucket (idx key) in
  on_ds (get_loop key l).

(** The loop returns the value and the new chain. *)
Fixpoint put_loop (key : K) (v : V) (new_node : Z) (tid : nat) (l : list Z) : M S (option V * list Z) :=
  match l with
  | [] => mret_ (None, [new_node])
  | curr :: l' =>
      let* p := p_get curr in
      if decide (p.1 = key) then
        let* q := p_get curr in
        let* curr' := p_set curr (λ q, (q.1, v)) tid in
        do* p_delete new_node tid in
        mret_ (Some q.2, curr' :: l')
      else if decide (lt key p.1) then mret_ (None, new_node :: curr :: l')
      else let* r := put_loop key v new_node tid l' in mret_ (r.1, curr :: r.2)
  end.

Definition put (key : K) (v : V) (tid : nat) : H (option V) :=
  let* new_node := on_ds (p_new (key, v) tid) in
  let* l := get_bucket (idx key) in
  let* r := on_ds (op_holder tid (put_loop key v new_node tid l)) in
  do* set_bucket (idx key) r.2 in
  mret_ r.1.

Fixpoint insert_loop (key : K) (new_node : Z) (tid : nat) (l : list Z) : M S (bool * list Z) :=
  match l with
  | [] => mret_ (true, [new_node])
  | curr :: l' =>
      let* p := p_get curr in
      if decide (p.1 = key) then do* p_delete new_node tid in mret_ (false, curr :: l')
      else if decide (lt key p.1) then mret_ (true, new_node :: curr :: l')
      else let* r := insert_loop key new_node tid l' in mret_ (r.1, curr :: r.2)
  end.

Definition ht_insert (key : K) (v : V) (tid : nat) : H bool :=
  let* new_node := on_ds (p_new (key, v) tid) in
  let* l := get_bucket (idx key) in
  let* r := on_ds (op_holder tid (insert_loop key new_node tid l)) in
  do* set_bucket (idx key) r.2 in
  mret_ r.1.

Definition replace (key : K) (v : V) (tid : nat) : H (option V) :=
  mthrow (AssertFail "replace not implemented yet.").

Fixpoint remove_loop (key : K) (tid : nat) (l : list Z) : M S (option V * list Z) :=
  match l with
  | [] => mret_ (None, [])
  | curr :: l' =>
      let* p := p_get curr in
      if decide (p.1 = key) then
        let* q := p_get curr in
        do* p_delete curr tid in
        mret_ (Some q.2, l')
      else if decide (lt key p.1) then mret_ (None, curr :: l')
      else let* r := remove_loop key tid l' in mret_ (r.1, curr :: r.2)
  end.

Definition remove (key : K) (tid : nat) : H (option V) :=
  let* l := get_bucket (idx key) in
  let* r := on_ds (op_holder tid (remove_loop key tid l)) in
  do* set_bucket (idx key) r.2 in
  mret_ r.1.

(** ** Destruction and recovery *)

(** [delete curr] calls [pdelete(payload)] unless the payload is null. *)
Definition clear (tid : nat) : H unit :=
  let* bs := mget buckets in
  do* on_ds (mfor bs (λ l, mfor l (λ curr, if curr =? 0 then mret_ tt else p_delete curr tid))) in
  mmod (λ t, Ht (ds t) (replicate (length bs) [])).

Definition destroy (tid : nat) : H unit :=
  do* on_ds (p_mode false) in
  do* clear tid in
  on_ds (p_mode true).

Fixpoint rec_loop (key : K) (new_node : Z) (l : list Z) : M S (list Z) :=
  match l with
  | [] => mret_ [new_node]
  | curr :: l' =>
      let* p := p_get curr in
      if decide (p.1 = key) then mthrow (Errexit "conflicting keys recovered.")
      else if decide (lt key p.1) then mret_ (new_node :: curr :: l')
      else let* r := rec_loop key new_node l' in mret_ (curr :: r)
  end.

Definition rec_insert (payload : Z) : H unit :=
  let* p := on_ds (p_get payload) in
  let* l := get_bucket (idx p.1) in
  let* l' := on_ds (rec_loop p.1 payload l) in
  set_bucket (idx p.1) l'.

(** [recover]: the payloads in the order in which the recovery threads take the
    bucket locks; the result is [rec_cnt]. *)
Definition recover (payloads : list Z) : H Z :=
  do* mfor payloads rec_insert in mret_ (Z.of_nat (length payloads)).

(** ** Correctness *)

Context `{!StrictOrder lt, !Trichotomy lt} `{!Countable K} `{!PayloadLaws S (K * V)}.
Implicit Types (L : gmap Z (K * V)) (l : list Z) (m : gmap K V).

(** A chain: every node's payload is live, the keys increase. *)
Definition before L (b b' : Z) : Prop :=
  ∃ kv kv', L !! b = Some kv ∧ L !! b' = Some kv' ∧ lt kv.1 kv'.1.
Definition chain L l : Prop := Forall (λ b, is_Some (L !! b)) l ∧ StronglySorted (before L) l.

Lemma before_key L b b' kv kv' : before L b b' → L !! b = Some kv → L !! b' = Some kv' → lt kv.1 kv'.1.
Proof. intros (? & ? & ? & ? & ?) ??. by simplify_eq. Qed.

Lemma chain_app L l1 l2 :
  chain L (l1 ++ l2) ↔ chain L l1 ∧ chain L l2 ∧ ∀ b b', b ∈ l1 → b' ∈ l2 → before L b b'.
Proof. unfold chain. rewrite Forall_app, StronglySorted_app. tauto. Qed.

Lemma chain_cons L b l :
  chain L (b :: l) ↔ is_Some (L !! b) ∧ chain L l ∧ ∀ b', b' ∈ l → before L b b'.
Proof.
  unfold chain. rewrite Forall_cons. split.
  - intros [[Hb Hl] Hs]. apply StronglySorted_inv in Hs as [Hs Hf]. rewrite Forall_forall in Hf. by split_and!.
  - intros (Hb & [Hl Hs] & Hf). split; [done|]. constructor; [done|]. by apply Forall_forall.
Qed.

Lemma chain_live L l b : chain L l → b ∈ l → is_Some (L !! b).
Proof. intros [Hl _]. rewrite Forall_forall in Hl. apply Hl. Qed.

(** A chain depends on its own nodes only. *)
Lemma chain_agree L L' l : (∀ b, b ∈ l → L' !! b = L !! b) → chain L l → chain L' l.
Proof.
  induction l as [|b l IH]; intros Hag; [by intros _; split; constructor|].
  rewrite !chain_cons. intros (Hb & Hc & Hlt). split_and!.
  - rewrite Hag by set_solver. done.
  - apply IH; [|done]. intros b' Hb'. apply Hag. set_solver.
  - intros b' Hb'. unfold before. rewrite !Hag by set_solver. by apply Hlt.
Qed.

Lemma chain_unique L l b b' key v v' :
  chain L l → b ∈ l → b' ∈ l → L !! b = Some (key, v) → L !! b' = Some (key, v') → b = b'.
Proof.
  induction l as [|c l IH]; [set_solver|]. rewrite chain_cons. intros (_ & Hc & Hlt) Hb Hb' HL HL'.
  apply elem_of_cons in Hb as [->|Hb], Hb' as [->|Hb'].
  - done.
  - destruct (irreflexivity lt key). exact (before_key L c b' (key, v) (key, v') (Hlt b' Hb') HL HL').
  - destruct (irreflexivity lt key). exact (before_key L c b (key, v') (key, v) (Hlt b Hb) HL' HL).
  - by apply IH.
Qed.

(** ** The three traversals

    All of them walk to the first node whose key is not smaller. *)

Fixpoint walk {A} (key : K) (hit : Z → list Z → M S (A * list Z)) (miss : list Z → M S (A * list Z)) (l : list Z)
    : M S (A * list Z) :=
  match l with
  | [] => miss []
  | curr :: l' =>
      let* p := p_get curr in
      if decide (p.1 = key) then hit curr l'
      else if decide (lt key p.1) then miss (curr :: l')
      else let* r := walk key hit miss l' in mret_ (r.1, curr :: r.2)
  end.

Definition under {A} (pre : list Z) (o : outcome (A * list Z) * S) : outcome (A * list Z) * S :=
  match o with
  | (Ret r, s) => (Ret (r.1, pre ++ r.2), s)
  | (Throw e, s) => (Throw e, s)
  end.

Definition reads (s : S) L : Prop := ∀ b kv, L !! b = Some kv → p_get b s = (Ret kv, s).

Lemma walk_spec {A} key (hit : Z → list Z → M S (A * list Z)) miss L s l :
  reads s L → chain L l →
  ∃ pre post, l = pre ++ post ∧ (∀ b kv, b ∈ pre → L !! b = Some kv → lt kv.1 key) ∧
    ((∃ b v post', post = b :: post' ∧ L !! b = Some (key, v) ∧
        walk key hit miss l s = under pre (hit b post' s)) ∨
     ((∀ b kv, b ∈ post → L !! b = Some kv → lt key kv.1) ∧
        walk key hit miss l s = under pre (miss post s))).
Proof.
  intros Hr. induction l as [|b l IH]; [|rewrite chain_cons].
  { intros _. simpl. exists [], []. split_and!; [done|set_solver|right]. split; [set_solver|].
    unfold under. by destruct (miss [] s) as [[[]|] ?]. }
  intros ([[k1 v1] Hb] & Hc & Hlt).
  assert (walk key hit miss (b :: l) s = if decide (k1 = key) then hit b l s
    else if decide (lt key k1) then miss (b :: l) s
    else mbind_ (walk key hit miss l) (λ r, mret_ (r.1, b :: r.2)) s) as ->.
  { simpl. unfold mbind_ at 1. rewrite (Hr _ _ Hb). simpl. by repeat case_decide. }
  assert (∀ o : outcome (A * list Z) * S, under [] o = o) as Hnil by (by intros [[[]|] ?]).
  destruct (decide (k1 = key)) as [->|Hne].
  { exists [], (b :: l). split_and!; [done|set_solver|left]. exists b, v1, l. by rewrite Hnil. }
  destruct (decide (lt key k1)) as [Hgt|Hngt].
  { exists [], (b :: l). split_and!; [done|set_solver|right]. rewrite Hnil. split; [|done].
    intros b' kv [->|Hb']%elem_of_cons Hkv; [by simplify_eq|].
    etrans; [exact Hgt|]. by apply (before_key L b b' (k1, v1) kv); [apply Hlt|..]. }
  destruct (IH Hc) as (pre & post & -> & Hpre & Hcase).
  exists (b :: pre), post. split_and!; [done| |].
  { intros b' kv [->|Hb']%elem_of_cons Hkv; [|by eapply Hpre]. simplify_eq. simpl.
    destruct (trichotomy lt k1 key) as [?|[?|?]]; done. }
  unfold mbind_, mret_. destruct Hcase as [(b' & v & post' & -> & Hb' & ->)|[Hpost ->]]; [left|right].
  - exists b', v, post'. split_and!; [done|done|]. unfold under. by destruct (hit b' post' s) as [[[]|] ?].
  - split; [done|]. unfold under. by destruct (miss post s) as [[[]|] ?].
Qed.

Lemma put_loop_walk key v new_node tid l :
  put_loop key v new_node tid l = walk key
    (λ curr l', let* q := p_get curr in
       let* curr' := p_set curr (λ q, (q.1, v)) tid in
       do* p_delete new_node tid in mret_ (Some q.2, curr' :: l'))
    (λ l', mret_ (None, new_node :: l')) l.
Proof. induction l as [|curr l IH]; [done|]. simpl. by rewrite IH. Qed.

Lemma insert_loop_walk key new_node tid l :
  insert_loop key new_node tid l = walk key
    (λ curr l', do* p_delete new_node tid in mret_ (false, curr :: l'))
    (λ l', mret_ (true, new_node :: l')) l.
Proof. induction l as [|curr l IH]; [done|]. simpl. by rewrite IH. Qed.

Lemma remove_loop_walk key tid l :
  remove_loop key tid l = walk key
    (λ curr l', let* q := p_get curr in do* p_delete curr tid in mret_ (Some q.2, l'))
    (λ l', mret_ (None, l')) l.
Proof. induction l as [|curr l IH]; [done|]. simpl. by rewrite IH. Qed.

(** ** Abstraction: the table and its live payloads represent the map [m]

    The live payloads are exactly those of the nodes: nothing leaks. *)
Record rep m (bs : list (list Z)) L : Prop := {
  rep_len : length bs = Z.to_nat idxSize;
  rep_chain : ∀ i l, bs !! i = Some l → chain L l;
  rep_idx : ∀ i l b kv, bs !! i = Some l → b ∈ l → L !! b = Some kv → idx kv.1 = i;
  rep_live : ∀ b, is_Some (L !! b) → ∃ i l, bs !! i = Some l ∧ b ∈ l;
  rep_map : ∀ k v, m !! k = Some v ↔ ∃ b, L !! b = Some (k, v);
}.

Lemma rep_bucket m bs L b key v :
  rep m bs L → L !! b = Some (key, v) → ∃ l, bs !! idx key = Some l ∧ b ∈ l.
Proof.
  intros Hr Hb. destruct (rep_live _ _ _ Hr b) as (i & l & Hi & Hin); [by eexists|].
  exists l. by rewrite (rep_idx _ _ _ Hr i l b _ Hi Hin Hb : idx key = i).
Qed.

Lemma rep_unique m bs L b b' key v v' :
  rep m bs L → L !! b = Some (key, v) → L !! b' = Some (key, v') → b = b' ∧ v = v'.
Proof.
  intros Hr Hb Hb'. destruct (rep_bucket _ _ _ _ _ _ Hr Hb) as (l & Hl & Hin).
  destruct (rep_bucket _ _ _ _ _ _ Hr Hb') as (l' & Hl' & Hin'). rewrite Hl in Hl'. injection Hl' as <-.
  assert (b = b') as -> by (by eapply chain_unique; [eapply rep_chain|..]). by simplify_eq.
Qed.

Lemma rep_absent m bs L key l :
  rep m bs L → bs !! idx key = Some l → (∀ b v, b ∈ l → L !! b ≠ Some (key, v)) → m !! key = None.
Proof.
  intros Hr Hl Hno. destruct (m !! key) as [v|] eqn:Hm; [exfalso|done].
  apply (rep_map _ _ _ Hr) in Hm as [b Hb]. destruct (rep_bucket _ _ _ _ _ _ Hr Hb) as (l' & Hl' & Hin).
  rewrite Hl in Hl'. injection Hl' as <-. by eapply Hno.
Qed.

(** One bucket changes from [l] to [l'], the live payloads from [L] to [L']. *)
Lemma rep_step m m' bs L L' i l l' :
  rep m bs L → bs !! i = Some l → (∀ b, is_Some (L !! b) → b ∉ l → L' !! b = L !! b) →
  chain L' l' → (∀ b kv, b ∈ l' → L' !! b = Some kv → idx kv.1 = i) →
  (∀ b, is_Some (L' !! b) → b ∈ l' ∨ is_Some (L !! b) ∧ b ∉ l) →
  (∀ k v, m' !! k = Some v ↔ ∃ b, L' !! b = Some (k, v)) →
  rep m' (<[i := l']> bs) L'.
Proof.
  intros Hr Hl Hag Hc' Hidx' Hlive' Hmap'. pose proof (lookup_lt_Some _ _ _ Hl) as Hlt.
  assert (∀ j lj, bs !! j = Some lj → j ≠ i → ∀ b, b ∈ lj → L' !! b = L !! b) as Hother.
  { intros j lj Hj Hji b Hb. pose proof (chain_live _ _ _ (rep_chain _ _ _ Hr _ _ Hj) Hb) as [kv Hkv].
    apply Hag; [by eexists|]. intros Hbl. apply Hji.
    by rewrite <- (rep_idx _ _ _ Hr j lj b kv Hj Hb Hkv), (rep_idx _ _ _ Hr i l b kv Hl Hbl Hkv). }
  constructor.
  - rewrite length_insert. apply (rep_len _ _ _ Hr).
  - intros j lj. destruct (decide (j = i)) as [->|Hne].
    + rewrite list_lookup_insert_eq by done. by intros [= <-].
    + rewrite list_lookup_insert_ne by done. intros Hj.
      eapply chain_agree; [by eapply Hother|by eapply rep_chain].
  - intros j lj b kv. destruct (decide (j = i)) as [->|Hne].
    + rewrite list_lookup_insert_eq by done. intros [= <-]. apply Hidx'.
    + rewrite list_lookup_insert_ne by done. intros Hj Hb. rewrite (Hother j lj Hj Hne b Hb).
      by apply (rep_idx _ _ _ Hr j lj b).
  - intros b Hb. destruct (Hlive' b Hb) as [Hin|[Hold Hnl]].
    + exists i, l'. by rewrite list_lookup_insert_eq.
    + destruct (rep_live _ _ _ Hr b Hold) as (j & lj & Hj & Hin). exists j, lj.
      rewrite list_lookup_insert_ne; [done|]. intros <-. rewrite Hl in Hj. by injection Hj as <-.
  - exact Hmap'.
Qed.

Lemma rep_insert m bs L key v pre post new_node :
  rep m bs L → bs !! idx key = Some (pre ++ post) → L !! new_node = None →
  (∀ b kv, b ∈ pre → L !! b = Some kv → lt kv.1 key) →
  (∀ b kv, b ∈ post → L !! b = Some kv → lt key kv.1) →
  m !! key = None ∧
  rep (<[key := v]> m) (<[idx key := pre ++ new_node :: post]> bs) (<[new_node := (key, v)]> L).
Proof.
  intros Hr Hl Hnew Hpre Hpost.
  assert (m !! key = None) as Hnone.
  { eapply rep_absent; [done|done|]. intros b v' Hb HL. destruct (irreflexivity lt key).
    apply elem_of_app in Hb as [Hb|Hb]; [by apply (Hpre b _ Hb HL)|by apply (Hpost b _ Hb HL)]. }
  split; [done|]. pose proof (rep_chain _ _ _ Hr _ _ Hl) as Hc.
  assert (∀ b, b ∈ pre ++ post → b ≠ new_node) as Hne.
  { intros b Hb ->. destruct (chain_live _ _ _ Hc Hb). congruence. }
  assert (∀ b, b ≠ new_node → <[new_node := (key, v)]> L !! b = L !! b) as Hag by (intros; by apply lookup_insert_ne).
  apply (chain_agree L (<[new_node := (key, v)]> L)) in Hc; [|intros b Hb; by apply Hag, Hne].
  apply chain_app in Hc as (Hc1 & Hc2 & Hc12).
  eapply rep_step; [exact Hr|exact Hl|..].
  - intros b [kv Hb] _. apply Hag. congruence.
  - apply chain_app. split_and!; [done|apply chain_cons; split_and!; [by rewrite lookup_insert_eq|done|]|].
    + intros b Hb. destruct (chain_live _ _ _ Hc2 Hb) as [kv Hkv]. exists (key, v), kv.
      rewrite lookup_insert_eq. split_and!; [done|done|]. apply (Hpost b); [done|].
      rewrite <- Hag; [done|]. apply Hne. set_solver.
    + intros b b' Hb [->|Hb']%elem_of_cons; [|by apply Hc12].
      destruct (chain_live _ _ _ Hc1 Hb) as [kv Hkv]. exists kv, (key, v).
      rewrite lookup_insert_eq. split_and!; [done|done|]. apply (Hpre b); [done|].
      rewrite <- Hag; [done|]. apply Hne. set_solver.
  - intros b kv Hb. destruct (decide (b = new_node)) as [->|Hbn]; [rewrite lookup_insert_eq; by intros [= <-]|].
    rewrite Hag by done. intros Hkv. apply (rep_idx _ _ _ Hr _ _ b kv Hl); [set_solver|done].
  - intros b. destruct (decide (b = new_node)) as [->|Hbn]; [set_solver|]. rewrite Hag by done. intros Hb.
    destruct (decide (b ∈ pre ++ post)); [left; set_solver|by right].
  - intros k1 v1. destruct (decide (k1 = key)) as [->|Hk].
    + rewrite lookup_insert_eq. split; [intros [= <-]; exists new_node; by rewrite lookup_insert_eq|].
      intros [b Hb]. destruct (decide (b = new_node)) as [->|Hbn]; [rewrite lookup_insert_eq in Hb; by simplify_eq|].
      rewrite Hag in Hb by done. pose proof (proj2 (rep_map _ _ _ Hr key v1) (ex_intro _ b Hb)). congruence.
    + rewrite lookup_insert_ne by done. rewrite (rep_map _ _ _ Hr). split; intros [b Hb].
      * exists b. rewrite Hag; [done|]. congruence.
      * destruct (decide (b = new_node)) as [->|Hbn]; [rewrite lookup_insert_eq in Hb; by simplify_eq|].
        exists b. by rewrite <- Hag.
Qed.

Lemma chain_around L pre b post key v :
  chain L (pre ++ b :: post) → L !! b = Some (key, v) →
  (∀ b' kv, b' ∈ pre → L !! b' = Some kv → lt kv.1 key) ∧
  (∀ b' kv, b' ∈ post → L !! b' = Some kv → lt key kv.1) ∧ chain L (pre ++ post) ∧ b ∉ pre ++ post.
Proof.
  rewrite chain_app, chain_cons. intros (Hc1 & (_ & Hc2 & Hlt) & Hc12) Hb.
  assert (∀ b' kv, b' ∈ pre → L !! b' = Some kv → lt kv.1 key) as Hpre.
  { intros b' kv Hb' Hkv. eapply (before_key L b' b kv (key, v)); [apply Hc12; set_solver|done|done]. }
  assert (∀ b' kv, b' ∈ post → L !! b' = Some kv → lt key kv.1) as Hpost.
  { intros b' kv Hb' Hkv. by apply (before_key L b b' (key, v) kv); [apply Hlt|..]. }
  split_and!; [done|done| |].
  - apply chain_app. split_and!; [done|done|]. intros x y Hx Hy. apply Hc12; set_solver.
  - intros [Hin|Hin]%elem_of_app; destruct (irreflexivity lt key); [by apply (Hpre b _ Hin Hb)|by apply (Hpost b _ Hin Hb)].
Qed.

Lemma rep_remove m bs L key v pre b post :
  rep m bs L → bs !! idx key = Some (pre ++ b :: post) → L !! b = Some (key, v) →
  m !! key = Some v ∧ rep (delete key m) (<[idx key := pre ++ post]> bs) (delete b L).
Proof.
  intros Hr Hl Hb. split; [apply (rep_map _ _ _ Hr); by exists b|].
  destruct (chain_around _ _ _ _ _ _ (rep_chain _ _ _ Hr _ _ Hl) Hb) as (_ & _ & Hc & Hnin).
  assert (∀ a, a ≠ b → delete b L !! a = L !! a) as Hag by (intros; by apply lookup_delete_ne).
  eapply rep_step; [exact Hr|exact Hl|..].
  - intros a _ Ha. apply Hag. set_solver.
  - eapply chain_agree; [|exact Hc]. intros a Ha. apply Hag. by intros ->.
  - intros a kv Ha [Hne Hkv]%lookup_delete_Some. apply (rep_idx _ _ _ Hr _ _ a kv Hl); [set_solver|done].
  - intros a [kv [Hne Hkv]%lookup_delete_Some]. destruct (decide (a ∈ pre ++ post)) as [|Hno]; [by left|right].
    split; [by eexists|]. set_solver.
  - intros k1 v1. rewrite lookup_delete_Some, (rep_map _ _ _ Hr). split.
    + intros [Hne [a Ha]]. exists a. apply lookup_delete_Some. split; [congruence|done].
    + intros [a [Hne Ha]%lookup_delete_Some]. split; [|by exists a]. intros ->.
      destruct (rep_unique _ _ _ _ _ _ _ _ Hr Ha Hb). congruence.
Qed.

Lemma rep_replace m bs L key v v' pre b b' post :
  rep m bs L → bs !! idx key = Some (pre ++ b :: post) → L !! b = Some (key, v) → b' = b ∨ L !! b' = None →
  m !! key = Some v ∧
  rep (<[key := v']> m) (<[idx key := pre ++ b' :: post]> bs) (<[b' := (key, v')]> (delete b L)).
Proof.
  intros Hr Hl Hb Hb'. destruct (rep_remove m bs L key v pre b post Hr Hl Hb) as [Hm Hr1]. split; [done|].
  destruct (chain_around _ _ _ _ _ _ (rep_chain _ _ _ Hr _ _ Hl) Hb) as (Hpre & Hpost & _ & _).
  pose proof (lookup_lt_Some _ _ _ Hl) as Hlt.
  destruct (rep_insert _ _ _ key v' pre post b' Hr1) as [_ Hr2].
  - by apply list_lookup_insert_eq.
  - rewrite lookup_delete_None. destruct Hb'; auto.
  - intros a kv Ha [_ Hkv]%lookup_delete_Some. by eapply Hpre.
  - intros a kv Ha [_ Hkv]%lookup_delete_Some. by eapply Hpost.
  - by rewrite list_insert_insert_eq, insert_delete_eq in Hr2.
Qed.

(** ** The operations refine those of a map *)

Hypothesis idxSize_pos : 0 < idxSize.

Definition ht_ok (k : Z) m (t : ht) : Prop := ∃ L, p_idle k (ds t) L ∧ rep m (buckets t) L.

Lemma idx_lt key : (idx key < Z.to_nat idxSize)%nat.
Proof using idxSize_pos.
  unfold idx. pose proof (Z.mod_pos_bound (hash_fn key) idxSize idxSize_pos). lia.
Qed.

Lemma rep_get_bucket m bs L key : rep m bs L → ∃ l, bs !! idx key = Some l.
Proof using idxSize_pos.
  intros Hr. apply lookup_lt_is_Some. rewrite (rep_len _ _ _ Hr). apply idx_lt.
Qed.

Lemma ht_rep_new : rep ∅ (replicate (Z.to_nat idxSize) []) ∅.
Proof.
  constructor.
  - apply length_replicate.
  - intros i l [-> _]%lookup_replicate. split; constructor.
  - intros i l b kv [-> _]%lookup_replicate. set_solver.
  - intros b [kv Hkv]. by rewrite lookup_empty in Hkv.
  - intros k v. rewrite lookup_empty. split; [done|]. intros [b Hb]. by rewrite lookup_empty in Hb.
Qed.

Lemma get_loop_spec key L s l :
  reads s L → chain L l →
  ∃ r, get_loop key l s = (Ret r, s) ∧ ∀ v, r = Some v ↔ ∃ b, b ∈ l ∧ L !! b = Some (key, v).
Proof.
  intros Hr Hc. pose proof Hc as Hc0. induction l as [|b l IH].
  { exists None. split; [done|]. set_solver. }
  apply chain_cons in Hc as ([[k1 v1] Hb] & Hc & Hlt). destruct (IH Hc Hc) as (r & Hrun & Hres).
  simpl. unfold mbind_ at 1. rewrite (Hr _ _ Hb). simpl. case_decide as Hk.
  - subst k1. exists (Some v1). unfold mbind_. rewrite (Hr _ _ Hb). split; [done|]. intros v. split.
    + intros [= <-]. exists b. split; [set_solver|done].
    + intros (b' & Hin & Hb'). assert (b = b') as <- by (eapply chain_unique; [exact Hc0|set_solver|done|done|done]).
      congruence.
  - exists r. split; [done|]. intros v. rewrite Hres. split.
    + intros (b' & Hin & Hb'). exists b'. split; [set_solver|done].
    + intros (b' & [->|Hin]%elem_of_cons & Hb'); [congruence|eauto].
Qed.

Lemma get_ok k m t key tid :
  ht_ok k m t → 0 < k → (tid < p_threads)%nat →
  ∃ t', get key tid t = (Ret (m !! key), t') ∧ ht_ok (k - 1) m t'.
Proof using All.
  intros (L & Hid & Hr) Hk Htid.
  destruct (p_readonly_law tid k (ds t) L Hid Hk Htid) as (s1 & H1 & Hid1).
  destruct (rep_get_bucket _ _ _ key Hr) as [l Hl].
  destruct (get_loop_spec key L s1 l) as (r & Hrun & Hres);
    [intros b kv; by apply (p_get_idle_law _ _ _ _ _ Hid1)|by eapply rep_chain|].
  exists (Ht s1 (buckets t)). split; [|by exists L].
  assert (op_holder_readonly_tmp tid (ds t) = (Ret tt, s1)) as H1' by exact H1.
  unfold get, mbind_, on_ds, get_bucket. rewrite H1'. simpl. rewrite Hl. simpl. rewrite Hrun. do 2 f_equal. apply option_eq. intros v.
  rewrite Hres, (rep_map _ _ _ Hr). split; [intros (b & _ & Hb); eauto|].
  intros [b Hb]. exists b. split; [|done]. destruct (rep_bucket _ _ _ _ _ _ Hr Hb) as (l' & Hl' & Hin).
  rewrite Hl in Hl'. by injection Hl' as <-.
Qed.

Lemma in_reads tid k s L L0 : p_in tid k s L → L0 ⊆ L → reads s L0.
Proof. intros Hin Hsub b kv Hb. eapply p_get_law; [exact Hin|]. by eapply lookup_weaken. Qed.

Lemma put_loop_ok m bs L l key v new_node tid k s :
  rep m bs L → bs !! idx key = Some l → L !! new_node = None →
  p_in tid k s (<[new_node := (key, v)]> L) → 2 ≤ k →
  ∃ r s' k' L', put_loop key v new_node tid l s = (Ret r, s') ∧ p_in tid k' s' L' ∧
    (k - 2 ≤ k' ∧ r.1 = m !! key ∧ rep (<[key := v]> m) (<[idx key := r.2]> bs) L').
Proof.
  intros Hr Hl Hnew Hin Hk. rewrite put_loop_walk.
  assert (reads s L) as Hrd by (eapply in_reads; [exact Hin|by apply insert_subseteq]).
  pose proof (rep_chain _ _ _ Hr _ _ Hl) as Hc.
  match goal with |- context [walk key ?h ?ms l] =>
    destruct (walk_spec key h ms L s l Hrd Hc)
      as (pre & post & -> & Hpre & [(b & v0 & post' & -> & Hb & ->)|[Hpost ->]]) end.
  - unfold mbind_ at 1. rewrite (Hrd _ _ Hb). assert (b ≠ new_node) as Hbn by congruence.
    destruct (p_set_law tid k s _ b (key, v0) (λ q, (q.1, v)) Hin) as (b' & s1 & H1 & Hb' & Hin1);
      [lia|by rewrite lookup_insert_ne|]. unfold mbind_ at 1. rewrite H1.
    assert (b' ≠ new_node) as Hbn' by (destruct Hb' as [->|Hb']; [done|intros ->; by rewrite lookup_insert_eq in Hb']).
    destruct (p_delete_law tid (k - 1) s1 _ new_node (key, v) Hin1) as (s2 & H2 & Hin2); [lia| |].
    { by rewrite lookup_insert_ne, lookup_delete_ne, lookup_insert_eq. }
    unfold mbind_ at 1. rewrite H2. simpl in Hin2.
    assert (delete new_node (<[b' := (key, v)]> (delete b (<[new_node := (key, v)]> L))) =
      <[b' := (key, v)]> (delete b L)) as E.
    { apply map_eq. intros a. destruct (decide (a = new_node)) as [->|Ha].
      - by rewrite lookup_delete_eq, lookup_insert_ne, lookup_delete_ne.
      - rewrite lookup_delete_ne by done. destruct (decide (a = b')) as [->|]; [by rewrite !lookup_insert_eq|].
        rewrite !(lookup_insert_ne _ b') by done. destruct (decide (a = b)) as [->|]; [by rewrite !lookup_delete_eq|].
        by rewrite !lookup_delete_ne, lookup_insert_ne by done. }
    rewrite E in Hin2.
    destruct (rep_replace m bs L key v0 v pre b b' post' Hr Hl Hb) as [Hm Hr'].
    { destruct Hb' as [->|Hb']; [by left|right]. by rewrite lookup_insert_ne in Hb'. }
    eexists _, s2, _, _. split; [done|]. split; [exact Hin2|]. simpl. split_and!; [lia|done|done].
  - destruct (rep_insert m bs L key v pre post new_node Hr Hl Hnew Hpre Hpost) as [Hm Hr'].
    eexists _, s, k, _. split; [done|]. split; [exact Hin|]. simpl. split_and!; [lia|done|done].
Qed.

Lemma insert_loop_ok m bs L l key v new_node tid k s :
  rep m bs L → bs !! idx key = Some l → L !! new_node = None →
  p_in tid k s (<[new_node := (key, v)]> L) → 2 ≤ k →
  ∃ r s' k' L', insert_loop key new_node tid l s = (Ret r, s') ∧ p_in tid k' s' L' ∧
    (k - 2 ≤ k' ∧ r.1 = bool_decide (m !! key = None) ∧
     rep (if m !! key then m else <[key := v]> m) (<[idx key := r.2]> bs) L').
Proof.
  intros Hr Hl Hnew Hin Hk. rewrite insert_loop_walk.
  assert (reads s L) as Hrd by (eapply in_reads; [exact Hin|by apply insert_subseteq]).
  pose proof (rep_chain _ _ _ Hr _ _ Hl) as Hc.
  match goal with |- context [walk key ?h ?ms l] =>
    destruct (walk_spec key h ms L s l Hrd Hc)
      as (pre & post & -> & Hpre & [(b & v0 & post' & -> & Hb & ->)|[Hpost ->]]) end.
  - destruct (p_delete_law tid k s _ new_node (key, v) Hin) as (s2 & H2 & Hin2); [lia|by rewrite lookup_insert_eq|].
    unfold mbind_ at 1. rewrite H2. rewrite delete_insert_id in Hin2 by done.
    assert (m !! key = Some v0) as -> by (apply (rep_map _ _ _ Hr); by exists b).
    eexists _, s2, _, _. split; [done|]. split; [exact Hin2|]. simpl. split_and!; [lia|done|].
    by rewrite list_insert_id.
  - destruct (rep_insert m bs L key v pre post new_node Hr Hl Hnew Hpre Hpost) as [-> Hr'].
    eexists _, s, k, _. split; [done|]. split; [exact Hin|]. simpl. split_and!; [lia|done|done].
Qed.

Lemma remove_loop_ok m bs L l key tid k s :
  rep m bs L → bs !! idx key = Some l → p_in tid k s L → 1 ≤ k →
  ∃ r s' k' L', remove_loop key tid l s = (Ret r, s') ∧ p_in tid k' s' L' ∧
    (k - 1 ≤ k' ∧ r.1 = m !! key ∧ rep (delete key m) (<[idx key := r.2]> bs) L').
Proof.
  intros Hr Hl Hin Hk. rewrite remove_loop_walk.
  assert (reads s L) as Hrd by (by eapply in_reads).
  pose proof (rep_chain _ _ _ Hr _ _ Hl) as Hc.
  match goal with |- context [walk key ?h ?ms l] =>
    destruct (walk_spec key h ms L s l Hrd Hc)
      as (pre & post & -> & Hpre & [(b & v0 & post' & -> & Hb & ->)|[Hpost ->]]) end.
  - unfold mbind_ at 1. rewrite (Hrd _ _ Hb).
    destruct (p_delete_law tid k s _ b (key, v0) Hin) as (s2 & H2 & Hin2); [lia|done|].
    unfold mbind_ at 1. rewrite H2. destruct (rep_remove m bs L key v0 pre b post' Hr Hl Hb) as [Hm Hr'].
    eexists _, s2, _, _. split; [done|]. split; [exact Hin2|]. simpl. split_and!; [lia|done|done].
  - assert (m !! key = None) as Hm.
    { eapply rep_absent; [done|done|]. intros b v' Hb HL. destruct (irreflexivity lt key).
      apply elem_of_app in Hb as [Hb|Hb]; [by apply (Hpre b _ Hb HL)|by apply (Hpost b _ Hb HL)]. }
    eexists _, s, k, L. split; [done|]. split; [exact Hin|]. simpl. split_and!; [lia|done|].
    rewrite list_insert_id by done. by rewrite delete_id.
Qed.

Lemma put_ok k m t key v tid :
  ht_ok k m t → 4 ≤ k → (tid < p_threads)%nat →
  ∃ t' k', put key v tid t = (Ret (m !! key), t') ∧ k - 4 ≤ k' ∧ ht_ok k' (<[key := v]> m) t'.
Proof using All.
  intros (L & Hid & Hr) Hk Htid. destruct (rep_get_bucket _ _ _ key Hr) as [l Hl].
  destruct (p_new_law tid k (ds t) L [] (key, v)) as (b & s1 & H1 & _ & Hb & Ho); [by apply p_enter|lia|].
  destruct (op_holder_law tid (put_loop key v b tid l) (k - 1) s1 _ _
    (λ r k' L', k - 4 ≤ k' ∧ r.1 = m !! key ∧ rep (<[key := v]> m) (<[idx key := r.2]> (buckets t)) L') Ho)
    as (r & s2 & k' & L' & H2 & Hid' & Hk' & Hres & Hr'); [lia| |].
  { intros s2 Hin. destruct (put_loop_ok m (buckets t) L l key v b tid (k - 1 - 1) s2)
      as (r & s' & k' & L' & ? & ? & ? & ? & ?); [done|done|done|done|lia|].
    exists r, s', k', L'. split_and!; [done|done|lia|done|done]. }
  unfold put, mbind_, on_ds, get_bucket, set_bucket, mmod, mret_. rewrite H1. simpl. rewrite Hl. simpl.
  rewrite H2. simpl. rewrite Hres. eexists _, k'. split; [done|]. split; [done|]. by exists L'.
Qed.

Lemma insert_ok k m t key v tid :
  ht_ok k m t → 4 ≤ k → (tid < p_threads)%nat →
  ∃ t' k', ht_insert key v tid t = (Ret (bool_decide (m !! key = None)), t') ∧ k - 4 ≤ k' ∧
    ht_ok k' (if m !! key then m else <[key := v]> m) t'.
Proof using All.
  intros (L & Hid & Hr) Hk Htid. destruct (rep_get_bucket _ _ _ key Hr) as [l Hl].
  destruct (p_new_law tid k (ds t) L [] (key, v)) as (b & s1 & H1 & _ & Hb & Ho); [by apply p_enter|lia|].
  destruct (op_holder_law tid (insert_loop key b tid l) (k - 1) s1 _ _
    (λ r k' L', k - 4 ≤ k' ∧ r.1 = bool_decide (m !! key = None) ∧
      rep (if m !! key then m else <[key := v]> m) (<[idx key := r.2]> (buckets t)) L') Ho)
    as (r & s2 & k' & L' & H2 & Hid' & Hk' & Hres & Hr'); [lia| |].
  { intros s2 Hin. destruct (insert_loop_ok m (buckets t) L l key v b tid (k - 1 - 1) s2)
      as (r & s' & k' & L' & ? & ? & ? & ? & ?); [done|done|done|done|lia|].
    exists r, s', k', L'. split_and!; [done|done|lia|done|done]. }
  unfold ht_insert, mbind_, on_ds, get_bucket, set_bucket, mmod, mret_. rewrite H1. simpl. rewrite Hl. simpl.
  rewrite H2. simpl. rewrite Hres. eexists _, k'. split; [done|]. split; [done|]. by exists L'.
Qed.

Lemma remove_ok k m t key tid :
  ht_ok k m t → 4 ≤ k → (tid < p_threads)%nat →
  ∃ t' k', remove key tid t = (Ret (m !! key), t') ∧ k - 4 ≤ k' ∧ ht_ok k' (delete key m) t'.
Proof using All.
  intros (L & Hid & Hr) Hk Htid. destruct (rep_get_bucket _ _ _ key Hr) as [l Hl].
  destruct (op_holder_law tid (remove_loop key tid l) k (ds t) L []
    (λ r k' L', k - 4 ≤ k' ∧ r.1 = m !! key ∧ rep (delete key m) (<[idx key := r.2]> (buckets t)) L'))
    as (r & s2 & k' & L' & H2 & Hid' & Hk' & Hres & Hr'); [by apply p_enter|lia| |].
  { intros s2 Hin. destruct (remove_loop_ok m (buckets t) L l key tid (k - 1) s2)
      as (r & s' & k' & L' & ? & ? & ? & ? & ?); [done|done|done|lia|].
    exists r, s', k', L'. split_and!; [done|done|lia|done|done]. }
  unfold remove, mbind_, on_ds, get_bucket, set_bucket, mmod, mret_. rewrite Hl. simpl.
  rewrite H2. simpl. rewrite Hres. eexists _, k'. split; [done|]. split; [done|]. by exists L'.
Qed.

(** ** Histories *)

Inductive hop : Type :=
  | Get (key : K) | Put (key : K) (v : V) | Insert (key : K) (v : V) | Remove (key : K).
Inductive hres : Type :=
  | RVal (o : option V) | RBool (b : bool).

Definition run_hop (o : hop) (tid : nat) : H hres :=
  match o with
  | Get key => let* r := get key tid in mret_ (RVal r)
  | Put key v => let* r := put key v tid in mret_ (RVal r)
  | Insert key v => let* r := ht_insert key v tid in mret_ (RBool r)
  | Remove key => let* r := remove key tid in mret_ (RVal r)
  end.

(** The specification: a finite map. *)
Definition spec_hop (o : hop) m : hres * gmap K V :=
  match o with
  | Get key => (RVal (m !! key), m)
  | Put key v => (RVal (m !! key), <[key := v]> m)
  | Insert key v => (RBool (bool_decide (m !! key = None)), if m !! key then m else <[key := v]> m)
  | Remove key => (RVal (m !! key), delete key m)
  end.

(** Histories of operations and epoch advances. *)
Definition run_history : hist hop → H (list hres) := run run_hop (on_ds p_advance).
Definition spec_history : hist hop → gmap K V → list hres * gmap K V := spec spec_hop.

Lemma run_hop_ok k m t o tid :
  ht_ok k m t → 4 ≤ k → (tid < p_threads)%nat →
  ∃ t' k', run_hop o tid t = (Ret (spec_hop o m).1, t') ∧ k - 4 ≤ k' ∧ ht_ok k' (spec_hop o m).2 t'.
Proof using All.
  intros Hok Hk Htid. destruct o as [key|key v|key v|key]; simpl; unfold mbind_.
  - destruct (get_ok k m t key tid Hok) as (t' & -> & Hok'); [lia|done|]. eexists _, _. split; [done|]. split; [|done]. lia.
  - destruct (put_ok k m t key v tid Hok Hk Htid) as (t' & k' & -> & ? & ?). by eexists _, _.
  - destruct (insert_ok k m t key v tid Hok Hk Htid) as (t' & k' & -> & ? & ?). by eexists _, _.
  - destruct (remove_ok k m t key tid Hok Hk Htid) as (t' & k' & -> & ? & ?). by eexists _, _.
Qed.

(** ** Recovery *)

Lemma rec_loop_walk key new_node l s :
  rec_loop key new_node l s =
  match walk (A:=unit) key (λ _ _, mthrow (Errexit "conflicting keys recovered."))
    (λ l', mret_ (tt, new_node :: l')) l s with
  | (Ret r, s') => (Ret r.2, s')
  | (Throw e, s') => (Throw e, s')
  end.
Proof.
  revert s. induction l as [|curr l IH]; intros s; [done|]. simpl. unfold mbind_ at 1 3.
  destruct (p_get curr s) as [[p|e] s1]; [|done]. case_decide; [done|]. case_decide; [done|].
  unfold mbind_, mret_. rewrite IH. by destruct (walk _ _ _ l s1) as [[[]|] ?].
Qed.

(** Re-inserting one payload whose key is not there yet. *)
Lemma rec_insert_ok k m L0 L t b key v :
  p_idle k (ds t) L → rep m (buckets t) L0 → L0 ⊆ L → L0 !! b = None → L !! b = Some (key, v) →
  (∀ b' v', L0 !! b' ≠ Some (key, v')) →
  ∃ bs', rec_insert b t = (Ret tt, Ht (ds t) bs') ∧ rep (<[key := v]> m) bs' (<[b := (key, v)]> L0).
Proof using All.
  intros Hid Hr Hsub Hb0 Hb Hfresh. destruct (rep_get_bucket _ _ _ key Hr) as [l Hl].
  assert (reads (ds t) L) as Hrd by (intros a kv; by apply (p_get_idle_law _ _ _ _ _ Hid)).
  assert (reads (ds t) L0) as Hrd0 by (intros a kv Ha; apply Hrd; by eapply lookup_weaken).
  unfold rec_insert, mbind_, on_ds, get_bucket, set_bucket, mmod. rewrite (Hrd _ _ Hb). simpl. rewrite Hl. simpl.
  rewrite rec_loop_walk.
  match goal with |- context [walk key ?h ?ms l] =>
    destruct (walk_spec key h ms L0 (ds t) l Hrd0 (rep_chain _ _ _ Hr _ _ Hl))
      as (pre & post & -> & Hpre & [(b' & v0 & post' & -> & Hb' & ->)|[Hpost ->]]) end.
  - by destruct (Hfresh b' v0).
  - destruct (rep_insert m _ L0 key v pre post b Hr Hl Hb0 Hpre Hpost) as [_ Hr'].
    eexists. split; [done|]. exact Hr'.
Qed.

Definition unique_keys L : Prop := ∀ b b' key v v', L !! b = Some (key, v) → L !! b' = Some (key, v') → b = b'.

(** The payloads [L] are the bindings of [m]. *)
Definition gen_rep L m : Prop :=
  unique_keys L ∧ ∀ key v, m !! key = Some v ↔ ∃ b, L !! b = Some (key, v).

Lemma rep_gen m bs L : rep m bs L → gen_rep L m.
Proof using StrictOrder0 Trichotomy0.
  intros Hr. split; [|apply (rep_map _ _ _ Hr)].
  intros b b' key v v' Hb Hb'. by destruct (rep_unique _ _ _ _ _ _ _ _ Hr Hb Hb').
Qed.

Lemma recover_loop k L payloads : ∀ m L0 t,
  p_idle k (ds t) L → rep m (buckets t) L0 → L0 ⊆ L → unique_keys L → NoDup payloads →
  (∀ b, b ∈ payloads → is_Some (L !! b) ∧ L0 !! b = None) →
  ∃ bs' m' L', mfor payloads rec_insert t = (Ret tt, Ht (ds t) bs') ∧ rep m' bs' L' ∧ L' ⊆ L ∧
    ∀ b, is_Some (L' !! b) ↔ b ∈ payloads ∨ is_Some (L0 !! b).
Proof using All.
  induction payloads as [|b payloads IH]; intros m L0 t Hid Hr Hsub Huniq Hnd Hp.
  { exists (buckets t), m, L0. split_and!; [by destruct t|done|done|]. set_solver. }
  apply NoDup_cons in Hnd as [Hbn Hnd]. destruct (Hp b) as [[[key v] Hb] Hb0]; [set_solver|].
  destruct (rec_insert_ok k m L0 L t b key v) as (bs1 & H1 & Hr1); try done.
  { intros b' v' Hb'. assert (b = b') as <-; [|congruence].
    eapply Huniq; [exact Hb|]. eapply lookup_weaken; [exact Hb'|done]. }
  destruct (IH (<[key := v]> m) (<[b := (key, v)]> L0) (Ht (ds t) bs1)) as (bs' & m' & L' & H2 & Hr' & Hsub' & Hdom);
    try done.
  { apply insert_subseteq_l; [done|done]. }
  { intros a Ha. destruct (Hp a) as [? Ha0]; [set_solver|]. split; [done|].
    rewrite lookup_insert_ne; [done|]. by intros <-. }
  exists bs', m', L'. simpl. unfold mbind_. rewrite H1, H2. split_and!; [done|done|done|].
  intros a. rewrite Hdom, lookup_insert, elem_of_cons. case_decide as Hab; [subst; naive_solver|].
  split; [tauto|]. intros [[->|?]|?]; tauto.
Qed.

Lemma recover_ok k m L s payloads :
  p_idle k s L → gen_rep L m → NoDup payloads → (∀ b, b ∈ payloads ↔ is_Some (L !! b)) →
  ∃ bs', recover payloads (new_ht s) = (Ret (Z.of_nat (length payloads)), Ht s bs') ∧ rep m bs' L.
Proof using All.
  intros Hid Hr Hnd Hp.
  destruct (recover_loop k L payloads ∅ ∅ (new_ht s)) as (bs' & m' & L' & H1 & Hr' & Hsub & Hdom); simpl; try done.
  - apply ht_rep_new.
  - apply map_empty_subseteq.
  - apply Hr.
  - intros b Hb. split; [by apply Hp|]. apply lookup_empty.
  - assert (L' = L) as ->.
    { apply map_eq. intros b. destruct (L !! b) as [kv|] eqn:Hb.
      - assert (is_Some (L' !! b)) as [kv' Hkv'] by (apply Hdom; left; apply Hp; by eexists).
        pose proof (lookup_weaken _ _ _ _ Hkv' Hsub). congruence.
      - destruct (L' !! b) as [kv'|] eqn:Hkv'; [|done].
        pose proof (lookup_weaken _ _ _ _ Hkv' Hsub). congruence. }
    assert (m' = m) as ->.
    { apply map_eq. intros key. apply option_eq. intros v.
      rewrite (rep_map _ _ _ Hr'). symmetry. apply Hr. }
    exists bs'. unfold recover, mbind_. by rewrite H1.
Qed.

(** The destructor empties the transient table and leaves every payload. *)
Lemma destroy_ok k m t tid :
  ht_ok k m t → ∃ t' L, destroy tid t = (Ret tt, t') ∧ p_idle k (ds t') L ∧ rep m (buckets t) L ∧
    Forall (λ l, l = []) (buckets t').
Proof using All.
  intros (L & Hid & Hr). destruct (p_recover_mode_law k (ds t) L Hid) as (s1 & H1 & Hdel & s2 & H2 & Hid2).
  assert (∀ bs, mfor bs (λ l, mfor l (λ curr, if curr =? 0 then mret_ tt else p_delete curr tid)) s1 = (Ret tt, s1)) as Hclear.
  { assert (∀ l, mfor l (λ curr, if curr =? 0 then mret_ tt else p_delete curr tid) s1 = (Ret tt, s1)) as Hl.
    { induction l as [|b l IH]; [done|]. simpl. unfold mbind_. destruct (b =? 0); [exact IH|]. by rewrite Hdel. }
    induction bs as [|l bs IH]; [done|]. simpl. unfold mbind_. by rewrite Hl. }
  unfold destroy, clear, mbind_, on_ds, mget, mmod. rewrite H1. simpl. rewrite Hclear. simpl. rewrite H2.
  eexists _, L. split; [done|]. split_and!; [done|done|]. simpl. by apply Forall_replicate.
Qed.
End hashtable.

(** ** Histories and epochs *)
Section histories.
Context {S K V : Type} `{!EqDecision K, !Countable K} (lt : K → K → Prop) `{!RelDecision lt, !StrictOrder lt, !Trichotomy lt}.
Context (hash_fn : K → Z) (idxSize : Z) (idxSize_pos : 0 < idxSize).
Context `{!PayloadApi S (K * V), !EpochLaws S (K * V)}.
Implicit Types (m : gmap K V) (ms : list (gmap K V)) (L : gmap Z (K * V)) (H : list (gmap Z (K * V))).

Notation ok H := (ht_ok (PayloadLaws0 := e_laws H) lt hash_fn idxSize).

(** The invariant, with room for [r] more operations. *)
Definition ht_room H (r : nat) m t : Prop := ∃ k, 4 * Z.of_nat r ≤ k ∧ ok H k m t.

Lemma run_history_ok h H r m t ms :
  ht_room H (length h + r) m t → threads_below e_threads h → Forall2 gen_rep H ms →
  ∃ t' H', run_history lt hash_fn idxSize h t = (Ret (spec_history h m).1, t') ∧ ht_room H' r (spec_history h m).2 t' ∧
    Forall2 gen_rep H' (spec_past spec_hop h m ms).
Proof using All.
  intros Hok Hth Hms. apply (run_ok _ _ _ (λ tid _, (tid < e_threads)%nat) ht_room gen_rep) with (H := H); [| |done..].
  - clear H r m t Hok Hms. intros H r m t o tid (k & Hk & Hok) Ht.
    destruct (run_hop_ok (PayloadLaws0 := e_laws H) lt hash_fn idxSize idxSize_pos k m t o tid Hok)
      as (t1 & k1 & H1 & Hk1 & Hok1); [lia|by rewrite e_same|]. exists t1. split; [done|]. exists k1. split; [lia|done].
  - clear H r m t Hok Hms. intros H r m t (k & Hk & L & Hid & Hr).
    destruct (e_advance k (ds t) L H Hid) as (s1 & H1 & Hid1); [lia|].
    exists L, (Ht s1 (buckets t)). unfold on_ds. rewrite H1. split; [done|]. split; [|by eapply rep_gen].
    exists (k - 1). split; [lia|]. by exists L.
Qed.

Lemma gen_rep_empty : gen_rep (∅ : gmap Z (K * V)) ∅.
Proof using Type.
  split; [intros b b' key v v' Hb; by rewrite lookup_empty in Hb|]. intros key v. rewrite lookup_empty.
  split; [done|]. intros [b Hb]. by rewrite lookup_empty in Hb.
Qed.

(** A table that has just been created. *)
Lemma new_ht_room H k r s : p_idle (PayloadLaws := e_laws H) k s ∅ → 4 * Z.of_nat r ≤ k → ht_room H r ∅ (new_ht idxSize s).
Proof using Type. intros Hid Hk. exists k. split; [done|]. exists ∅. split; [done|apply ht_rep_new]. Qed.
End histories.

(** C17. The table is a map.  For every implementation of the payload
    interface, every history of [get], [put], [insert] and [remove] by any
    threads, with the epoch advancing anywhere in between, no operation fails,
    every result is the one of a finite map, and at the end the live payloads
    are exactly the bindings of that map (nothing is lost, duplicated or
    leaked). *)
Theorem ht_refines_map {S K V} `{!EqDecision K, !Countable K} (lt : K → K → Prop) `{!RelDecision lt}
    `{!StrictOrder lt, !Trichotomy lt} `{!PayloadApi S (K * V), !EpochLaws S (K * V)}
    (hash_fn : K → Z) (idxSize k : Z) (s : S) (h : hist hop) :
  0 < idxSize → p_idle (PayloadLaws := e_laws []) k s ∅ → 4 * Z.of_nat (length h) ≤ k → threads_below e_threads h →
  ∃ t' k' L H, run_history lt hash_fn idxSize h (new_ht idxSize s) = (Ret (spec_history h ∅).1, t') ∧
    p_idle (PayloadLaws := e_laws H) k' (ds t') L ∧ unique_keys L ∧
    ∀ key v, (spec_history h ∅).2 !! key = Some v ↔ ∃ b, L !! b = Some (key, v).
Proof.
  intros Hpos Hid Hk Hth.
  destruct (run_history_ok lt hash_fn idxSize Hpos h [] 0 ∅ (new_ht idxSize s) [])
    as (t' & H' & Hrun & (k' & _ & L & Hid' & Hr) & _); [eapply new_ht_room; [done|lia]|done|done|].
  exists t', k', L, H'. split_and!; [done|done|..]; by apply (rep_gen lt hash_fn idxSize _ _ _ Hr).
Qed.

(** Restart.  After any history, the destructor runs in recovery mode and
    deletes no payload; rebuilding the table from the live payloads, in
    whatever order the recovery threads insert them, succeeds and counts them,
    and the rebuilt table answers every further history as the map did before
    the restart. *)
Theorem ht_restart_roundtrip {S K V} `{!EqDecision K, !Countable K} (lt : K → K → Prop) `{!RelDecision lt}
    `{!StrictOrder lt, !Trichotomy lt} `{!PayloadApi S (K * V), !EpochLaws S (K * V)}
    (hash_fn : K → Z) (idxSize k : Z) (s : S) (h h2 : hist hop) (tid : nat) :
  0 < idxSize → p_idle (PayloadLaws := e_laws []) k s ∅ → 4 * Z.of_nat (length h) + 4 * Z.of_nat (length h2) ≤ k →
  threads_below e_threads h → threads_below e_threads h2 →
  ∃ t1 t2 k' (L : gmap Z (K * V)) H,
    run_history lt hash_fn idxSize h (new_ht idxSize s) = (Ret (spec_history h ∅).1, t1) ∧
    destroy tid t1 = (Ret tt, t2) ∧ p_idle (PayloadLaws := e_laws H) k' (ds t2) L ∧
    ∀ payloads, NoDup payloads → (∀ b, b ∈ payloads ↔ is_Some (L !! b)) →
    ∃ t3 t4, recover lt hash_fn idxSize payloads (new_ht idxSize (ds t2)) =
        (Ret (Z.of_nat (length payloads)), t3) ∧
      run_history lt hash_fn idxSize h2 t3 = (Ret (spec_history h2 (spec_history h ∅).2).1, t4).
Proof.
  intros Hpos Hid Hk Hth Hth2.
  destruct (run_history_ok lt hash_fn idxSize Hpos h [] (length h2) ∅ (new_ht idxSize s) [])
    as (t1 & H1' & H1 & (k1 & Hk1 & Hok1) & Hms); [eapply new_ht_room; [done|lia]|done|done|].
  destruct (destroy_ok (PayloadLaws0 := e_laws H1') lt hash_fn idxSize Hpos k1 _ t1 tid Hok1)
    as (t2 & L & H2 & Hid2 & Hr2 & _).
  exists t1, t2, k1, L, H1'. split_and!; [done|done|done|]. intros payloads Hnd Hp.
  destruct (recover_ok (PayloadLaws0 := e_laws H1') lt hash_fn idxSize Hpos k1 _ L (ds t2) payloads Hid2 (rep_gen _ _ _ _ _ _ Hr2) Hnd Hp)
    as (bs & H3 & Hr3).
  destruct (run_history_ok lt hash_fn idxSize Hpos h2 H1' 0 (spec_history h ∅).2 (Ht (ds t2) bs) (spec_past spec_hop h ∅ []))
    as (t4 & H4' & H4 & _); [exists k1; split; [lia|by exists L]|done|done|].
  eexists _, t4. split; [exact H3|exact H4].
Qed.

(** The table survives a crash.  For every implementation of the payload
    interface with the crash laws, after every history of operations, whenever
    the crash happens, the payloads that recovery returns are exactly the
    bindings of the map as it was two epoch advances before the crash: the
    effect of a prefix of the history, nothing of the later operations, and
    each key once. *)
Lemma ht_crash_consistent {S K V} `{!EqDecision K, !Countable K} (lt : K → K → Prop) `{!RelDecision lt}
    `{!StrictOrder lt, !Trichotomy lt} `{!PayloadApi S (K * V), !EpochLaws S (K * V)}
    (crash : S → outcome (gmap Z (K * V)) → Prop) `{!CrashLaws S (K * V) crash}
    (hash_fn : K → Z) (idxSize k : Z) (s : S) (h : hist hop) :
  0 < idxSize → p_idle (PayloadLaws := e_laws []) k s ∅ → 4 * Z.of_nat (length h) ≤ k → threads_below e_threads h →
  ∃ t', run_history lt hash_fn idxSize h (new_ht idxSize s) = (Ret (spec_history h ∅).1, t') ∧
    ∀ o, crash (ds t') o → ∃ R, o = Ret R ∧ unique_keys R ∧
      ∀ key v, (spec_history (durable_part h) ∅).2 !! key = Some v ↔ ∃ b, R !! b = Some (key, v).
Proof.
  intros Hpos Hid Hk Hth.
  destruct (run_history_ok lt hash_fn idxSize Hpos h [] 0 ∅ (new_ht idxSize s) [])
    as (t' & H' & Hrun & (k' & _ & L & Hid' & _) & Hms); [eapply new_ht_room; [done|lia]|done|done|].
  exists t'. split; [done|]. intros o Hc. exists (past H' 1). split; [by eapply c_idle|].
  by apply (past_durable spec_hop gen_rep h H' ∅ gen_rep_empty).
Qed.
