(* ===== verification/MQueue.v ===== *)
(** * MontageQueue (src/rideables/MontageQueue.hpp)

    A queue with one lock: transient nodes linked from [head] to [tail], each
    pointing to a persistent payload that carries the value and a sequence
    number.  The transient memory is the map [nodes] from addresses to nodes,
    null is 0; [new_addr] is the address [new Node] returns.  Operations run
    one after another (each holds the lock), the epoch may advance between
    them.  The epoch system is used through [PayloadApi] only. *)

From S2P Require Import Prelude PayloadApi History.

Section queue.
Context {S T : Type} `{!PayloadApi S (T * Z)}.

Record node : Type := Node { next : Z; payload : Z; nval : T }.

Record mq : Type := Mq {
  ds : S;
  nodes : gmap Z node;
  global_sn : Z;
  head : Z;
  tail : Z;
}.

Context (new_addr : gmap Z node → Z).
Notation Q := (M mq).

Definition on_ds {A} (m : M S A) : Q A := λ t,
  let '(o, s) := m (ds t) in (o, Mq s (nodes t) (global_sn t) (head t) (tail t)).
Definition read_node (a : Z) : Q node := λ t,
  match nodes t !! a with Some nd => (Ret nd, t) | None => (Throw (UB "dangling Node*"), t) end.
Definition write_nodes (f : gmap Z node → gmap Z node) : Q unit :=
  mmod (λ t, Mq (ds t) (f (nodes t)) (global_sn t) (head t) (tail t)).
Definition set_head (a : Z) : Q unit := mmod (λ t, Mq (ds t) (nodes t) (global_sn t) a (tail t)).
Definition set_tail (a : Z) : Q unit := mmod (λ t, Mq (ds t) (nodes t) (global_sn t) (head t) a).

Definition new_mq (s : S) : mq := Mq s ∅ 0 0 0.

(** [new Node(this, v)]: the payload is created with sequence number 0 *)
Definition new_node (v : T) (tid : nat) : Q Z :=
  let* p := on_ds (p_new (v, 0) tid) in
  let* ns := mget nodes in
  let a := new_addr ns in
  do* write_nodes <[a := Node 0 p v]> in
  mret_ a.

Definition set_sn (a sn : Z) : Q unit :=
  let* nd := read_node a in
  do* massert (negb (payload nd =? 0)) "payload shouldn't be null" in
  on_ds (p_set_unsafe (payload nd) (λ p, (p.1, sn))).

Definition get_val (a : Z) : Q T :=
  let* nd := read_node a in
  do* massert (negb (payload nd =? 0)) "payload shouldn't be null" in
  let* p := on_ds (p_get (payload nd)) in
  mret_ p.1.

(** [delete node]: [~Node] deletes the payload *)
Definition delete_node (a : Z) (tid : nat) : Q unit :=
  let* nd := read_node a in
  do* on_ds (p_delete (payload nd) tid) in
  write_nodes (delete a).

(** [MontageOpHolder _holder(this); body], as [PayloadApi.op_holder] *)
Definition holding {A} (tid : nat) (body : Q A) : Q A := λ t,
  match on_ds (p_begin_op tid) t with
  | (Throw e, t1) => (Throw e, t1)
  | (Ret _, t1) =>
      let '(o, t2) := body t1 in
      match on_ds (p_end_op tid) t2 with
      | (Ret _, t3) => (o, t3)
      | (Throw e, t3) => (Throw e, t3)
      end
  end.

Definition enqueue (v : T) (tid : nat) : Q unit :=
  let* a := new_node v tid in
  let* sn := mget global_sn in
  do* set_sn a sn in
  do* mmod (λ t, Mq (ds t) (nodes t) (global_sn t +₆ 1) (head t) (tail t)) in
  holding tid (
    let* tl := mget tail in
    if tl =? 0 then do* set_head a in set_tail a
    else
      let* nd := read_node tl in
      do* write_nodes <[tl := Node a (payload nd) (nval nd)]> in
      set_tail a).

Definition dequeue (tid : nat) : Q (option T) :=
  holding tid (
    let* hd := mget head in
    if hd =? 0 then mret_ None
    else
      let* res := get_val hd in
      let* nd := read_node hd in
      do* set_head (next nd) in
      do* (if next nd =? 0 then set_tail 0 else mret_ tt) in
      do* delete_node hd tid in
      mret_ (Some res)).

(** ** The linked list *)

Context `{!PayloadLaws S (T * Z)}.
Hypothesis new_addr_fresh : ∀ h, h !! new_addr h = None.
Hypothesis new_addr_nonnull : ∀ h, new_addr h ≠ 0.

(** From the address [p] the nodes [ns] are linked up to null, with payloads [ps]. *)
Fixpoint linked (h : gmap Z node) (p : Z) (ns ps : list Z) : Prop :=
  match ns, ps with
  | [], [] => p = 0
  | a :: ns', b :: ps' => p = a ∧ a ≠ 0 ∧ ∃ nd, h !! a = Some nd ∧ payload nd = b ∧ linked h (next nd) ns' ps'
  | _, _ => False
  end.

Lemma linked_agree h h' ns : ∀ p ps,
  (∀ a, a ∈ ns → h' !! a = h !! a) → linked h p ns ps → linked h' p ns ps.
Proof.
  induction ns as [|a ns IH]; intros p [|b ps] Hag; simpl; try done.
  intros (-> & Hnz & nd & Hnd & Hb & Hl). split_and!; [done|done|]. exists nd.
  rewrite Hag by set_solver. split_and!; [done|done|]. apply IH; [|done]. intros a' Ha'. apply Hag. set_solver.
Qed.

(** Appending a node at the tail. *)
Lemma linked_snoc h p ns z ps b a nd v :
  linked h p (ns ++ [z]) ps → NoDup (ns ++ [z]) → h !! z = Some nd → h !! a = None → a ≠ 0 →
  linked (<[z := Node a (payload nd) (nval nd)]> (<[a := Node 0 b v]> h)) p ((ns ++ [z]) ++ [a]) (ps ++ [b]).
Proof.
  set (h' := <[z := _]> _). intros Hl Hnd Hz Ha Ha0. assert (a ≠ z) as Haz by congruence.
  assert (∀ x, x ≠ z → x ≠ a → h' !! x = h !! x) as Hother.
  { intros x ??. unfold h'. by rewrite !lookup_insert_ne. }
  revert p ps Hl. induction ns as [|c ns IH]; intros p [|b0 ps] Hl; simpl in *; try done.
  - destruct Hl as (-> & Hz0 & nd' & Hz' & <- & Hl). rewrite Hz in Hz'. injection Hz' as <-.
    destruct ps as [|? ?]; [|done]. split_and!; [done|done|]. exists (Node a (payload nd) (nval nd)). unfold h'.
    rewrite lookup_insert_eq. split_and!; [done|done|]. simpl. split_and!; [done|done|]. exists (Node 0 b v).
    by rewrite lookup_insert_ne, lookup_insert_eq.
  - destruct Hl as (-> & Hc0 & nd' & Hc & <- & Hl). apply NoDup_cons in Hnd as [Hcn Hnd].
    split_and!; [done|done|]. exists nd'. rewrite Hother; [|set_solver|congruence].
    split_and!; [done|done|]. by apply IH.
Qed.

(** ** Abstraction: a queue of values, with consecutive sequence numbers

    [items] are the payloads in queue order, with value and sequence number. *)
Record rep (q : list T) (t : mq) (L : gmap Z (T * Z)) (ns : list Z) (items : list (Z * (T * Z))) : Prop := {
  rep_linked : linked (nodes t) (head t) ns items.*1;
  rep_tail : tail t = default 0 (last ns);
  rep_nodes : ∀ a, is_Some (nodes t !! a) ↔ a ∈ ns;
  rep_nodup : NoDup ns;
  rep_distinct : NoDup items.*1;
  rep_live : L = list_to_map items;
  rep_nonnull : ∀ b, b ∈ items.*1 → b ≠ 0;
  rep_vals : items.*2.*1 = q;
  rep_sns : items.*2.*2 = seqZ (global_sn t - Z.of_nat (length q)) (Z.of_nat (length q));
}.

Definition mq_ok (k : Z) (q : list T) (t : mq) : Prop :=
  ∃ L ns items, p_idle k (ds t) L ∧ rep q t L ns items.

Lemma mq_rep_new s : rep [] (new_mq s) ∅ [] [].
Proof.
  constructor; simpl; try done; try (by constructor).
  - intros a. rewrite lookup_empty. split; [by intros [? ?]|set_solver].
  - set_solver.
Qed.

Lemma list_to_map_snoc (items : list (Z * (T * Z))) b x :
  b ∉ items.*1 → <[b := x]> (list_to_map items) = (list_to_map (items ++ [(b, x)]) : gmap Z (T * Z)).
Proof.
  intros Hb. rewrite list_to_map_app. simpl. rewrite insert_empty.
  rewrite map_union_comm; [by rewrite insert_union_singleton_l|].
  apply map_disjoint_singleton_r. by apply not_elem_of_list_to_map_1.
Qed.

Lemma linked_last_nonnull h ns z : ∀ p ps, linked h p (ns ++ [z]) ps → z ≠ 0.
Proof.
  induction ns as [|c ns IH]; intros p [|? ps]; simpl; try done.
  - by intros (-> & ? & _).
  - intros (_ & _ & nd & _ & _ & Hl). by eapply IH.
Qed.

(** A node at the end, with the next sequence number *)
Lemma rep_snoc q t t' L ns items a b v :
  rep q t L ns items → L !! b = None → b ≠ 0 → nodes t !! a = None → tail t' = a → global_sn t' = global_sn t + 1 →
  linked (nodes t') (head t') (ns ++ [a]) (items ++ [(b, (v, global_sn t))]).*1 →
  (∀ x, is_Some (nodes t' !! x) ↔ is_Some (nodes t !! x) ∨ x = a) →
  rep (q ++ [v]) t' (list_to_map (items ++ [(b, (v, global_sn t))])) (ns ++ [a]) (items ++ [(b, (v, global_sn t))]).
Proof.
  intros [Hl Htl Hdom Hnd Hdist HL Hnn Hv Hsn] HbL Hb0 Ha Htl' Hg' Hlk Hdom'.
  assert (b ∉ items.*1) as Hbi by (rewrite HL in HbL; by apply not_elem_of_list_to_map_2 in HbL).
  constructor; try done.
  - by rewrite last_snoc, Htl'.
  - intros x. rewrite Hdom', Hdom. set_solver.
  - apply NoDup_app. split_and!; [done| |apply NoDup_singleton]. intros x Hx ->%list_elem_of_singleton.
    apply Hdom in Hx as [? ?]. congruence.
  - rewrite fmap_app. apply NoDup_app. split_and!; [done| |apply NoDup_singleton]. set_solver.
  - intros c. rewrite fmap_app, elem_of_app. intros [?| ->%list_elem_of_singleton]; [by apply Hnn|done].
  - by rewrite !fmap_app, Hv.
  - rewrite !fmap_app, Hsn, length_app, Hg'. simpl.
    replace (Z.of_nat (length q + 1)) with (Z.of_nat (length q) + 1) by lia.
    rewrite seqZ_app by lia. f_equal; [f_equal; lia|].
    by replace (_ - _ + _) with (global_sn t) by lia.
Qed.

Lemma enqueue_ok k q t v tid :
  mq_ok k q t → 2 ≤ k → (tid < p_threads)%nat → 0 ≤ global_sn t → global_sn t + 1 < U64 →
  ∃ t', enqueue v tid t = (Ret tt, t') ∧ mq_ok (k - 2) (q ++ [v]) t' ∧ global_sn t' = global_sn t + 1.
Proof using All.
  intros (L & ns & items & Hid & Hrep) Hk Ht Hg0 Hg. pose proof Hrep as [Hl Htl Hdom Hnd Hdist HL Hnn Hv Hsn].
  destruct (p_new_law tid k (ds t) L [] (v, 0)) as (b & s1 & H1 & Hb0 & HbL & Ho1); [by apply p_enter|lia|].
  set (a := new_addr (nodes t)). pose proof (new_addr_fresh (nodes t)) as Ha. pose proof (new_addr_nonnull (nodes t)) as Ha0.
  fold a in Ha, Ha0.
  destruct (p_set_unsafe_law tid (k - 1) s1 _ _ b (v, 0) (λ p, (p.1, global_sn t)) Ho1) as (s2 & H2 & Ho2);
    [set_solver|by rewrite lookup_insert_eq|]. rewrite insert_insert_eq in Ho2. simpl in Ho2.
  destruct (p_begin_law tid (k - 1) s2 _ _ Ho2) as (s3 & H3 & Hin3); [lia|].
  destruct (p_end_law tid (k - 1 - 1) s3 _ Hin3) as (s4 & H4 & Hid4).
  replace (k - 1 - 1) with (k - 2) in Hid4 by lia.
  assert (b ∉ items.*1) as Hbi.
  { intros Hin. rewrite HL in HbL. apply not_elem_of_list_to_map_2 in HbL. done. }
  rewrite HL, list_to_map_snoc in Hid4 by done.
  assert (∀ t', tail t' = a → global_sn t' = global_sn t + 1 →
    ds t' = s4 → linked (nodes t') (head t') (ns ++ [a]) (items ++ [(b, (v, global_sn t))]).*1 →
    (∀ x, is_Some (nodes t' !! x) ↔ is_Some (nodes t !! x) ∨ x = a) →
    mq_ok (k - 2) (q ++ [v]) t' ∧ global_sn t' = global_sn t + 1) as Hfin.
  { intros t' Htl' Hg' Hds Hlk Hdom'. split; [|done]. eexists _, _, _. rewrite Hds. split; [done|].
    by eapply (rep_snoc q t t' L ns items a b v). }
  unfold enqueue, holding, new_node, set_sn, read_node, write_nodes, mbind_, on_ds, mget, mmod, mret_, massert.
  rewrite H1. simpl. fold a. rewrite lookup_insert_eq. simpl.
  destruct (Z.eqb_spec b 0); [done|]. simpl. rewrite H2. simpl. rewrite H3. simpl.
  rewrite u64_small by (unfold is_u64; lia).
  destruct (last ns) as [z|] eqn:Hlast.
  - apply last_Some in Hlast as [ns' ->]. simpl in Htl.
    assert (is_Some (nodes t !! z)) as [nd Hz] by (apply Hdom; set_solver).
    assert (a ≠ z) as Haz by congruence.
    pose proof (linked_last_nonnull _ _ _ _ _ Hl) as Hz0.
    rewrite Htl. destruct (Z.eqb_spec z 0); [done|]. cbn [nodes]. rewrite lookup_insert_ne, Hz by done. simpl. rewrite H4.
    eexists. split; [done|]. apply Hfin; simpl; try done.
    + rewrite fmap_app. by apply linked_snoc.
    + intros x. rewrite !lookup_insert. repeat case_decide; subst; naive_solver.
  - apply last_None in Hlast as ->. simpl in Htl, Hl. destruct items as [|? ?]; [|done]. rewrite Htl. simpl.
    rewrite H4. eexists. split; [done|]. apply Hfin; simpl; try done.
    + split_and!; [done|done|]. eexists. by rewrite lookup_insert_eq.
    + intros x. rewrite lookup_insert. case_decide; subst; naive_solver.
Qed.

Lemma seqZ_tail (x : Z) (l : list Z) e (m : nat) :
  x :: l = seqZ (e - Z.of_nat (Datatypes.S m)) (Z.of_nat (Datatypes.S m)) → l = seqZ (e - Z.of_nat m) (Z.of_nat m).
Proof.
  rewrite seqZ_cons by lia. intros [= _ ->]. f_equal; lia.
Qed.

Lemma dequeue_ok k q t tid :
  mq_ok k q t → 2 ≤ k → (tid < p_threads)%nat →
  ∃ t' k', dequeue tid t = (Ret (hd_error q), t') ∧ k - 2 ≤ k' ∧ mq_ok k' (List.tl q) t' ∧
    global_sn t' = global_sn t.
Proof using All.
  intros (L & ns & items & Hid & [Hl Htl Hdom Hnd Hdist HL Hnn Hv Hsn]) Hk Ht.
  destruct (p_begin_law tid k (ds t) L []) as (s1 & H1 & Hin1); [by apply p_enter|lia|].
  destruct ns as [|a ns], items as [|[b [v sn]] items]; simpl in Hl; try done.
  - destruct (p_end_law tid (k - 1) s1 _ Hin1) as (s2 & H2 & Hid2). simpl in Hv. subst q.
    unfold dequeue, holding, mbind_, on_ds, mget. rewrite H1. simpl. rewrite Hl. simpl. rewrite H2.
    eexists _, (k - 1). split; [done|]. split; [lia|]. split; [|done]. exists L, [], []. split; [done|]. by constructor.
  - destruct Hl as (Hhd & Ha0 & nd & Hnd' & Hb & Hl). simpl in *.
    apply NoDup_cons in Hnd as [Han Hnd]. apply NoDup_cons in Hdist as [Hbn Hdist].
    assert (L !! b = Some (v, sn)) as HLb by (rewrite HL; apply lookup_insert_eq).
    destruct (p_delete_law tid (k - 1) s1 L b (v, sn) Hin1) as (s2 & H2 & Hin2); [lia|done|].
    destruct (p_end_law tid (k - 1 - 1) s2 _ Hin2) as (s3 & H3 & Hid3).
    assert (delete b L = list_to_map items) as HL'.
    { rewrite HL. apply delete_insert_id. by apply not_elem_of_list_to_map_1. }
    assert (b ≠ 0) as Hb0 by (apply Hnn; set_solver). destruct q as [|v' q]; [done|]. injection Hv as -> Hv.
    unfold dequeue, holding, get_val, delete_node, read_node, set_head, set_tail, write_nodes, mbind_, on_ds, mget, mmod, mret_, massert.
    rewrite H1. simpl. rewrite Hhd. destruct (Z.eqb_spec a 0); [done|]. cbn [nodes]. rewrite Hnd', Hb.
    destruct (Z.eqb_spec b 0); [done|]. cbn [negb ds nodes]. unfold mret_. cbn [ds]. rewrite (p_get_law _ _ _ _ _ _ Hin1 HLb).
    cbn [nodes]. rewrite Hnd'.
    assert (next nd = 0 ↔ ns = []) as Hempty.
    { destruct ns as [|c ns], items as [|? ?]; simpl in Hl; try done. destruct Hl as (-> & ? & _). done. }
    destruct (Z.eqb_spec (next nd) 0) as [Hn0|Hn0]; cbn [nodes ds]; rewrite Hnd', Hb; cbn [nodes ds];
      rewrite H2; cbn [nodes ds]; rewrite H3.
    all: eexists _, (k - 2); split; [done|]; split; [lia|]; split; [|done].
    all: rewrite HL' in Hid3; replace (k - 1 - 1) with (k - 2) in Hid3 by lia.
    all: exists (list_to_map items), ns, items; split; [done|]; constructor; simpl; try done.
    all: try (eapply linked_agree; [|exact Hl]; intros x Hx; apply lookup_delete_ne; by intros ->).
    all: try (intros x Hx; apply Hnn; set_solver).
    all: try (intros x; rewrite lookup_delete_is_Some, Hdom; set_solver).
    + destruct Hempty as [-> _]; done.
    + by eapply seqZ_tail.
    + rewrite Htl. destruct ns; [|done]. destruct Hn0. by apply Hempty.
    + by eapply seqZ_tail.
Qed.

(** ** Histories *)

Inductive qop : Type := Enq (v : T) | Deq.

Definition run_qop (o : qop) (tid : nat) : Q (option (option T)) :=
  match o with
  | Enq v => do* enqueue v tid in mret_ None
  | Deq => let* r := dequeue tid in mret_ (Some r)
  end.

(** The specification: a first-in first-out queue.  The result of a dequeue is
    [Some r], of an enqueue [None]. *)
Definition spec_qop (o : qop) (q : list T) : option (option T) * list T :=
  match o with Enq v => (None, q ++ [v]) | Deq => (Some (hd_error q), List.tl q) end.

Definition run_queue : hist qop → Q (list (option (option T))) := run run_qop (on_ds p_advance).
Definition spec_queue : hist qop → list T → list (option (option T)) * list T := spec spec_qop.
End queue.

Lemma seqZ_sorted (m : nat) : ∀ e, StronglySorted Z.lt (seqZ e (Z.of_nat m)).
Proof.
  induction m as [|m IH]; intros e; [constructor|]. rewrite seqZ_cons by lia. constructor.
  - replace (Z.pred (Z.of_nat (Datatypes.S m))) with (Z.of_nat m) by lia. apply IH.
  - apply Forall_forall. intros x. rewrite elem_of_seqZ. lia.
Qed.

(** The payloads [L] are the elements of the queue [q], and sorting them by
    sequence number gives [q]. *)
Definition q_gen {T} (L : gmap Z (T * Z)) (q : list T) : Prop :=
  ∃ items, L = list_to_map items ∧ NoDup items.*1 ∧ items.*2.*1 = q ∧ StronglySorted Z.lt items.*2.*2.

Lemma q_gen_empty {T} : q_gen (∅ : gmap Z (T * Z)) [].
Proof. exists []. split_and!; [done|constructor|done|constructor]. Qed.

Section histories.
Context {S T : Type} `{!PayloadApi S (T * Z), !EpochLaws S (T * Z)} (new_addr : gmap Z (node (T:=T)) → Z).
Hypothesis new_addr_fresh : ∀ h, h !! new_addr h = None.
Hypothesis new_addr_nonnull : ∀ h, new_addr h ≠ 0.
Notation ok H := (mq_ok (PayloadLaws0 := e_laws H)).

(** The invariant, with room for [r] more operations. *)
Definition mq_room (H : list (gmap Z (T * Z))) (r : nat) (q : list T) (t : mq) : Prop :=
  0 ≤ global_sn t ∧ global_sn t + Z.of_nat r < U64 ∧ ∃ k, 2 * Z.of_nat r ≤ k ∧ ok H k q t.

Lemma rep_q_gen (q : list T) (t : mq (S:=S)) L ns items : rep q t L ns items → q_gen L q.
Proof using Type. intros [_ _ _ _ Hd HL _ Hv Hsn]. exists items. split_and!; try done. rewrite Hsn. apply seqZ_sorted. Qed.

Lemma run_qop_ok H r q t o tid :
  mq_room H (Datatypes.S r) q t → (tid < e_threads)%nat →
  ∃ t', run_qop new_addr o tid t = (Ret (spec_qop o q).1, t') ∧ mq_room H r (spec_qop o q).2 t'.
Proof using All.
  intros (Hg0 & Hg & k & Hk & Hok) Ht. rewrite <- (e_same H) in Ht. destruct o as [v|]; simpl; unfold mbind_.
  - destruct (enqueue_ok (PayloadLaws0 := e_laws H) new_addr new_addr_fresh new_addr_nonnull k q t v tid Hok)
      as (t1 & -> & Hok1 & Hg1); [lia|done|done|lia|].
    exists t1. split; [done|]. split; [lia|]. split; [lia|]. exists (k - 2). split; [lia|done].
  - destruct (dequeue_ok (PayloadLaws0 := e_laws H) new_addr new_addr_fresh new_addr_nonnull k q t tid Hok)
      as (t1 & k1 & -> & Hk1 & Hok1 & Hg1); [lia|done|].
    exists t1. split; [done|]. split; [lia|]. split; [lia|]. exists k1. split; [lia|done].
Qed.

Lemma q_advance_ok H r q t :
  mq_room H (Datatypes.S r) q t → ∃ L t', on_ds p_advance t = (Ret tt, t') ∧ mq_room (L :: H) r q t' ∧ q_gen L q.
Proof using All.
  intros (Hg0 & Hg & k & Hk & L & ns & items & Hid & Hr). destruct (e_advance k (ds t) L H Hid) as (s1 & H1 & Hid1); [lia|].
  exists L, (Mq s1 (nodes t) (global_sn t) (head t) (tail t)). unfold on_ds. rewrite H1. split; [done|].
  split; [|by eapply rep_q_gen]. split; [done|]. split; [simpl; lia|]. exists (k - 1). split; [lia|].
  exists L, ns, items. split; [done|]. by destruct Hr.
Qed.

Lemma run_queue_ok h H r q t qs :
  mq_room H (length h + r) q t → threads_below e_threads h → Forall2 q_gen H qs →
  ∃ t' H', run_queue new_addr h t = (Ret (spec_queue h q).1, t') ∧ mq_room H' r (spec_queue h q).2 t' ∧
    Forall2 q_gen H' (spec_past spec_qop h q qs).
Proof using All.
  intros Hok Hth Hqs. apply (run_ok _ _ _ (λ tid _, (tid < e_threads)%nat) mq_room q_gen run_qop_ok q_advance_ok) with (H := H); done.
Qed.

Lemma new_mq_room k r s :
  p_idle (PayloadLaws := e_laws []) k s ∅ → 2 * Z.of_nat r ≤ k → Z.of_nat r < U64 → mq_room [] r [] (new_mq s).
Proof using All.
  intros Hid Hk Hr. split; [done|]. split; [done|]. exists k. split; [done|]. exists ∅, [], [].
  split; [done|by apply (mq_rep_new new_addr)].
Qed.
End histories.

(** C18. The queue is first-in first-out.  For every implementation of the
    payload interface, every history of [enqueue] and [dequeue] by any threads,
    with the epoch advancing anywhere in between, no operation fails and every
    result is the one of a FIFO queue; at the end the live payloads are exactly
    the elements of the queue, and their sequence numbers increase in queue
    order, so that sorting the recovered payloads by sequence number gives the
    queue back. *)
Theorem mq_refines_fifo {S T} `{!PayloadApi S (T * Z), !EpochLaws S (T * Z)}
    (new_addr : gmap Z (node (T:=T)) → Z) (k : Z) (s : S) (h : hist qop) :
  (∀ m, m !! new_addr m = None) → (∀ m, new_addr m ≠ 0) →
  p_idle (PayloadLaws := e_laws []) k s ∅ → 2 * Z.of_nat (length h) ≤ k → threads_below e_threads h →
  Z.of_nat (length h) < U64 →
  ∃ t' k' H L, run_queue new_addr h (new_mq s) = (Ret (spec_queue h []).1, t') ∧
    p_idle (PayloadLaws := e_laws H) k' (ds t') L ∧ q_gen L (spec_queue h []).2.
Proof.
  intros Hfresh Hnz Hid Hk Hth Hlen.
  destruct (run_queue_ok new_addr Hfresh Hnz h [] 0 [] (new_mq s) [])
    as (t' & H & Hrun & (_ & _ & k' & _ & L & ns & items & Hid' & Hr) & _);
    [apply (new_mq_room new_addr Hfresh Hnz k); [done|lia|lia]|done|done|].
  exists t', k', H, L. split; [done|]. split; [done|]. by eapply rep_q_gen.
Qed.

(** The queue survives a crash: whenever the crash happens, the recovered
    payloads, sorted by their sequence numbers, are the queue as it was two epoch
    advances before. *)
Lemma mq_crash_consistent {S T} `{!PayloadApi S (T * Z), !EpochLaws S (T * Z)}
    (crash : S → outcome (gmap Z (T * Z)) → Prop) `{!CrashLaws S (T * Z) crash}
    (new_addr : gmap Z (node (T:=T)) → Z) (k : Z) (s : S) (h : hist qop) :
  (∀ m, m !! new_addr m = None) → (∀ m, new_addr m ≠ 0) →
  p_idle (PayloadLaws := e_laws []) k s ∅ → 2 * Z.of_nat (length h) ≤ k → threads_below e_threads h →
  Z.of_nat (length h) < U64 →
  ∃ t', run_queue new_addr h (new_mq s) = (Ret (spec_queue h []).1, t') ∧
    ∀ o, crash (ds t') o → ∃ R, o = Ret R ∧ q_gen R (spec_queue (durable_part h) []).2.
Proof.
  intros Hfresh Hnz Hid Hk Hth Hlen.
  destruct (run_queue_ok new_addr Hfresh Hnz h [] 0 [] (new_mq s) [])
    as (t' & H & Hrun & (_ & _ & k' & _ & L & ns & items & Hid' & _) & Hqs);
    [apply (new_mq_room new_addr Hfresh Hnz k); [done|lia|lia]|done|done|].
  exists t'. split; [done|]. intros o Hc. exists (past H 1). split; [by eapply c_idle|].
  by apply (past_durable spec_qop q_gen h H [] q_gen_empty).
Qed.
