(* ===== verification/MSQueue.v ===== *)
(** * MontageMSQueue (src/rideables/MontageMSQueue.hpp)

    The nonblocking queue of Michael and Scott over [atomic_lin_var] and
    [RCUTracker], with any number of threads: a program position per shared
    access, as in [DcssConc].  What it uses is taken at the level of the theorems
    about it: an [atomic_lin_var] is an atomic register whose [CAS_verify] succeeds only in the
    epoch of the operation and may also fail without reason ([DcssLin]); a
    retired node is destructed only when every thread that was in an operation
    when it was retired has left that operation ([RCUTracker]).  [CAS_verify] is
    called outside an operation and brackets itself with [begin_op] and
    [end_op] or [abort_op]; what [end_op] does after the commit, linking the anti-node,
    is part of the successful step.

    Addresses of freed nodes and payloads may be used again.  A dereference of
    memory that is not allocated, a second retirement of a node, and an exception set [fault]. *)

From S2P Require Import Prelude.

Module MSQueue.
Section queue.
Context {T : Type}.

(** [Payload], with the epoch of the operation that inserted it and, when it has
    been retired, the epoch of its anti-node *)
Record payload : Type := Payload {
  val : T;
  sn : Z;
  ep : option Z;
  retire : option Z;
}.

Record node : Type := Node {
  next : Z;
  pl : Z;
}.

Record mem : Type := Mem {
  nodes : gmap Z node;
  payloads : gmap Z payload;
  head : Z;
  tail : Z;
  global_sn : Z;
  epoch : Z;
  (** the retired nodes, each with the threads that have to leave their operation *)
  retired : gmap Z (gset nat);
  fault : bool;
}.

Inductive op : Type := Enq (v : T) | Deq.

(** The result of [dequeue] is an optional value. *)
Inductive ev : Type :=
  | ECall (t : nat) (o : op)
  | ERet (t : nat) (r : option (option T)).

(** Where a thread is: at the next shared access of [enqueue] ([n] the new node,
    [c] the local [cur_tail], [s] the sequence number, [x] the local [next]) or of [dequeue] ([h] the
    local [cur_head]). *)
Inductive pc : Type :=
  | Idle
  | ENew (v : T)  (** [new Node(this, v)] *)
  | EStart (n : Z)  (** [tracker.start_op] *)
  | ETail (n : Z)  (** [cur_tail = tail.load()] *)
  | ESn (n c : Z)  (** [global_sn.fetch_add(1)] *)
  | ENext (n c s : Z)  (** [cur_tail->next.load(this)] *)
  | ECheck (n c s x : Z)  (** [cur_tail == tail.load()] *)
  | ESet (n c s : Z)  (** [new_node->set_sn(s)] *)
  | EBegin (n c : Z)  (** [begin_op] of [CAS_verify] *)
  | ECas (n c e : Z)  (** its compare-and-swap, in the epoch [e] *)
  | ESwing (n c x : Z)  (** [tail.compare_exchange_strong(cur_tail, next)] *)
  | EFinish (n c : Z)  (** [tail.compare_exchange_strong(cur_tail, new_node)] *)
  | EEnd  (** [tracker.end_op] *)
  | DStart  (** [tracker.start_op] *)
  | DHead  (** [cur_head = head.load(this)] *)
  | DTail (h : Z)  (** [cur_tail = tail.load()] *)
  | DNext (h c : Z)  (** [cur_head->next.load(this)] *)
  | DCheck (h c x : Z)  (** [cur_head == head.load(this)] *)
  | DSwing (c x : Z)  (** [tail.compare_exchange_strong(cur_tail, next)] *)
  | DPayload (h x : Z)  (** [payload = next->payload; pretire(payload)] *)
  | DBegin (h x p : Z)  (** [begin_op] of [CAS_verify], with the anti-node *)
  | DCas (h x p e : Z)  (** its compare-and-swap, in the epoch [e] *)
  | DVal (h p : Z)  (** [payload->get_unsafe_val(this)] *)
  | DKeep (h p : Z) (r : T)  (** [cur_head->payload = payload] *)
  | DRetire (h : Z) (r : T)  (** [tracker.retire(cur_head, tid)] *)
  | DEnd (r : option T).  (** [tracker.end_op] *)

(** Between [start_op] and [end_op] *)
Definition in_op (p : pc) : bool :=
  match p with Idle | ENew _ | EStart _ | DStart => false | _ => true end.

Inductive act : Type :=
  | Call (o : op)
  | New (n p : Z)  (** the allocator's choice *)
  | Go
  | Give_up.  (** [CAS_verify] returns false *)

(** ** Memory *)

Definition failed (m : mem) : mem :=
  Mem (nodes m) (payloads m) (head m) (tail m) (global_sn m) (epoch m) (retired m) true.
Definition with_nodes (ns : gmap Z node) (m : mem) : mem :=
  Mem ns (payloads m) (head m) (tail m) (global_sn m) (epoch m) (retired m) (fault m).
Definition with_payloads (ps : gmap Z payload) (m : mem) : mem :=
  Mem (nodes m) ps (head m) (tail m) (global_sn m) (epoch m) (retired m) (fault m).
Definition with_head (h : Z) (m : mem) : mem :=
  Mem (nodes m) (payloads m) h (tail m) (global_sn m) (epoch m) (retired m) (fault m).
Definition with_tail (c : Z) (m : mem) : mem :=
  Mem (nodes m) (payloads m) (head m) c (global_sn m) (epoch m) (retired m) (fault m).
Definition with_sn (s : Z) (m : mem) : mem :=
  Mem (nodes m) (payloads m) (head m) (tail m) s (epoch m) (retired m) (fault m).
Definition with_epoch (e : Z) (m : mem) : mem :=
  Mem (nodes m) (payloads m) (head m) (tail m) (global_sn m) e (retired m) (fault m).
Definition with_retired (r : gmap Z (gset nat)) (m : mem) : mem :=
  Mem (nodes m) (payloads m) (head m) (tail m) (global_sn m) (epoch m) r (fault m).

Definition set_sn (s : Z) (p : payload) : payload := Payload (val p) s (ep p) (retire p).
Definition set_ep (e : Z) (p : payload) : payload := Payload (val p) (sn p) (Some e) (retire p).
Definition set_retire (e : Z) (p : payload) : payload := Payload (val p) (sn p) (ep p) (Some e).

Definition swing (c x : Z) (m : mem) : mem := if tail m =? c then with_tail x m else m.

(** Dereferences; [p] is where the thread stays when it faults. *)
Definition at_node (m : mem) (p : pc) (a : Z) (k : node → mem * pc * list ev) : mem * pc * list ev :=
  match nodes m !! a with Some nd => k nd | None => (failed m, p, []) end.
Definition at_payload (m : mem) (p : pc) (a : Z) (k : payload → mem * pc * list ev) : mem * pc * list ev :=
  match payloads m !! a with Some x => k x | None => (failed m, p, []) end.

(** [tracker.end_op(tid)] *)
Definition leave (t : nat) (m : mem) : mem := with_retired ((λ W, W ∖ {[t]}) <$> retired m) m.

(** ** Steps *)

(** One access of thread [t]; [ops] are the threads in an operation. *)
Definition thread_step (ops : gset nat) (m : mem) (t : nat) (q : pc) (a : act) : option (mem * pc * list ev) :=
  match q, a with
  | Idle, Call (Enq v) => Some (m, ENew v, [ECall t (Enq v)])
  | Idle, Call Deq => Some (m, DStart, [ECall t Deq])
  (* enqueue *)
  | ENew v, New n p =>
      if bool_decide (n ≠ 0 ∧ nodes m !! n = None ∧ p ≠ 0 ∧ payloads m !! p = None)
      then Some (with_payloads (<[p := Payload v 0 None None]> (payloads m)) (with_nodes (<[n := Node 0 p]> (nodes m)) m),
                 EStart n, [])
      else None
  | EStart n, Go => Some (m, ETail n, [])
  | ETail n, Go => Some (m, ESn n (tail m), [])
  | ESn n c, Go => Some (with_sn (u64 (global_sn m + 1)) m, ENext n c (global_sn m), [])
  | ENext n c s, Go => Some (at_node m q c (λ nd, (m, ECheck n c s (next nd), [])))
  | ECheck n c s x, Go =>
      Some (m, (if negb (c =? tail m) then ETail n else if x =? 0 then ESet n c s else ESwing n c x), [])
  | ESet n c s, Go =>
      Some (at_node m q n (λ nd, at_payload m q (pl nd) (λ x,
        (with_payloads (<[pl nd := set_sn s x]> (payloads m)) m, EBegin n c, []))))
  | EBegin n c, Go => Some (m, ECas n c (epoch m), [])
  | ECas n c e, Go =>
      Some (at_node m q c (λ nd, at_node m q n (λ new, at_payload m q (pl new) (λ x,
        if (next nd =? 0) && (e =? epoch m) then
          (with_payloads (<[pl new := set_ep e x]> (payloads m)) (with_nodes (<[c := Node n (pl nd)]> (nodes m)) m),
           EFinish n c, [])
        else (m, ETail n, [])))))
  | ECas n c e, Give_up => Some (m, ETail n, [])
  | ESwing n c x, Go => Some (swing c x m, ETail n, [])
  | EFinish n c, Go => Some (swing c n m, EEnd, [])
  | EEnd, Go => Some (leave t m, Idle, [ERet t None])
  (* dequeue *)
  | DStart, Go => Some (m, DHead, [])
  | DHead, Go => Some (m, DTail (head m), [])
  | DTail h, Go => Some (m, DNext h (tail m), [])
  | DNext h c, Go => Some (at_node m q h (λ nd, (m, DCheck h c (next nd), [])))
  | DCheck h c x, Go =>
      Some (m, (if negb (h =? head m) then DHead
                else if h =? c then (if x =? 0 then DEnd None else DSwing c x)
                else DPayload h x), [])
  | DSwing c x, Go => Some (swing c x m, DHead, [])
  | DPayload h x, Go => Some (at_node m q x (λ nd, (m, DBegin h x (pl nd), [])))
  | DBegin h x p, Go =>
      Some (at_payload m q p (λ y,
        if default 0 (ep y) <=? epoch m then (m, DCas h x p (epoch m), []) else (failed m, q, [])))
  | DCas h x p e, Go =>
      Some (at_payload m q p (λ y,
        if (head m =? h) && (e =? epoch m) then
          match retire y with
          | Some _ => (failed m, q, [])
          | None => (with_payloads (<[p := set_retire e y]> (payloads m)) (with_head x m), DVal h p, [])
          end
        else (m, DHead, [])))
  | DCas h x p e, Give_up => Some (m, DHead, [])
  | DVal h p, Go => Some (at_payload m q p (λ y, (m, DKeep h p (val y), [])))
  | DKeep h p r, Go =>
      Some (at_node m q h (λ nd, (with_nodes (<[h := Node (next nd) p]> (nodes m)) m, DRetire h r, [])))
  | DRetire h r, Go =>
      Some (match retired m !! h with
            | Some _ => (failed m, q, [])
            | None => (with_retired (<[h := ops]> (retired m)) m, DEnd (Some r), [])
            end)
  | DEnd r, Go => Some (leave t m, Idle, [ERet t (Some r)])
  | _, _ => None
  end.

Record sys : Type := Sys { mm : mem; pcs : list pc }.

Definition operating (ps : list pc) : gset nat :=
  list_to_set (filter (λ t, default false (in_op <$> ps !! t) = true) (seq 0 (length ps))).

(** [~Node] and [preclaim] of its payload, in the current epoch: by
    [reclaim_pblk] the payload is deallocated at once if its own epoch is old enough, otherwise it
    waits; that the to-be-freed container deallocates it two epochs later is not a step. *)
Definition destruct_node (a : Z) (m : mem) : mem :=
  match nodes m !! a with
  | None => failed m
  | Some nd =>
      match payloads m !! pl nd with
      | Some (Payload _ _ (Some e) (Some _)) =>
          with_retired (delete a (retired m)) (with_nodes (delete a (nodes m))
            (with_payloads (if e <? epoch m - 1 then delete (pl nd) (payloads m) else payloads m) m))
      | _ => failed m
      end
  end.

Inductive sact : Type :=
  | Th (t : nat) (a : act)
  | Advance
  | Destruct (a : Z).

Definition step (s : sys) (x : sact) : option (sys * list ev) :=
  match x with
  | Th t a =>
      q ← pcs s !! t;
      '(m', q', evs) ← thread_step (operating (pcs s)) (mm s) t q a;
      Some (Sys m' (<[t := q']> (pcs s)), evs)
  | Advance => Some (Sys (with_epoch (epoch (mm s) + 1) (mm s)) (pcs s), [])
  | Destruct a =>
      match retired (mm s) !! a with
      | Some W => if bool_decide (W = ∅) then Some (Sys (destruct_node a (mm s)) (pcs s), []) else None
      | None => None
      end
  end.

Fixpoint run (s : sys) (tr : list sact) : option (sys * list ev) :=
  match tr with
  | [] => Some (s, [])
  | x :: tr' => '(s1, evs1) ← step s x; '(s2, evs2) ← run s1 tr'; Some (s2, evs1 ++ evs2)
  end.

(** The constructor, with the dummy node [d], in the epoch [e], and [n] threads *)
Definition new_queue (d e : Z) (n : nat) : sys :=
  Sys (Mem {[d := Node 0 0]} ∅ d d 0 e ∅ false) (replicate n Idle).

(** ** Specification: an atomic queue

    A dequeue that finds the queue empty may note it and answer later, or go
    on: it answers "empty" only if the queue was empty at some moment between
    call and return.  [asnap] are the contents at the ends of the earlier
    epochs, most recent first. *)

Inductive spc : Type :=
  | SIdle
  | SEnq (v : T)
  | SDeq (empty_seen : bool)
  | SDone (r : option (option T)).

Record ast : Type := Ast { aq : list T; asnap : list (list T); apc : list spc }.

Definition set_apc (t : nat) (x : spc) (A : ast) : ast := Ast (aq A) (asnap A) (<[t := x]> (apc A)).

Inductive lin : ast → ast → Prop :=
  | lin_enq A t v : apc A !! t = Some (SEnq v) →
      lin A (set_apc t (SDone None) (Ast (aq A ++ [v]) (asnap A) (apc A)))
  | lin_deq A t b v q : apc A !! t = Some (SDeq b) → aq A = v :: q →
      lin A (set_apc t (SDone (Some (Some v))) (Ast q (asnap A) (apc A)))
  | lin_note A t b : apc A !! t = Some (SDeq b) → aq A = [] → lin A (set_apc t (SDeq true) A)
  | lin_empty A t : apc A !! t = Some (SDeq true) → lin A (set_apc t (SDone (Some None)) A)
  | lin_advance A : lin A (Ast (aq A) (aq A :: asnap A) (apc A)).

Inductive aruns : ast → list ev → ast → Prop :=
  | aruns_nil A : aruns A [] A
  | aruns_lin A A1 A2 evs : lin A A1 → aruns A1 evs A2 → aruns A evs A2
  | aruns_enq A t v A2 evs : apc A !! t = Some SIdle →
      aruns (set_apc t (SEnq v) A) evs A2 → aruns A (ECall t (Enq v) :: evs) A2
  | aruns_deq A t A2 evs : apc A !! t = Some SIdle →
      aruns (set_apc t (SDeq false) A) evs A2 → aruns A (ECall t Deq :: evs) A2
  | aruns_ret A t r A2 evs : apc A !! t = Some (SDone r) →
      aruns (set_apc t SIdle A) evs A2 → aruns A (ERet t r :: evs) A2.

Lemma msq_aruns_app A1 A2 A3 evs1 evs2 : aruns A1 evs1 A2 → aruns A2 evs2 A3 → aruns A1 (evs1 ++ evs2) A3.
Proof. induction 1; simpl; eauto using aruns. Qed.

Definition new_spec (n : nat) : ast := Ast [] [] (replicate n SIdle).
End queue.
Arguments payload T : clear implicits.
Arguments mem T : clear implicits.
Arguments op T : clear implicits.
Arguments ev T : clear implicits.
Arguments pc T : clear implicits.
Arguments act T : clear implicits.
Arguments sact T : clear implicits.
Arguments sys T : clear implicits.
Arguments spc T : clear implicits.
Arguments ast T : clear implicits.
End MSQueue.
