(* ===== verification/MSQueueInv.v ===== *)
(** * The invariant of the nonblocking queue

    Every node ever linked has a position; [head] and [tail] are positions that
    only grow, and a thread remembers the position of [head] when it started its
    operation ([since]): no node from that position on is destructed before it
    ends.  What a thread knows about the nodes it holds is stated in positions and
    stays true whatever the others do ([thread_ok]); what it has not
    published is its own ([private_ok]). *)

From S2P Require Import Prelude MSQueue.
Import MSQueue.

Module MSQueueInv.
Section inv.
Context {T : Type}.
Notation mem := (mem T).
Notation pc := (pc T).
Notation sys := (sys T).
Notation ast := (ast T).
Implicit Types (m : mem) (q : pc) (s : sys) (A : ast).

(** The payload of a position *)
Record item : Type := Item { i_pl : Z; i_val : T; i_sn : Z; i_ep : Z }.

(** [items !! i] belongs to the node [ns !! S i]; [ns !! 0] is the first dummy.
    [rets !! i] is the epoch in which it was dequeued. *)
Record ghost : Type := Gh {
  ns : list Z;
  items : list item;
  hd : nat;
  tl : nat;
  rets : list Z;
  freed : gset nat;
  since : nat → nat;
}.
Implicit Type G : ghost.

Definition own G (i : nat) (p : Z) : Prop := ∃ it, items G !! i = Some it ∧ p = i_pl it.
(** The payload pointer of the node at a position: its own, or after its
    dequeuer has stored it, that of the next one. *)
Definition field G (i : nat) (f : Z) : Prop :=
  i = 0%nat ∨ (∃ k, i = S k ∧ own G k f) ∨ ((i < hd G)%nat ∧ own G i f).

Definition stored G (i : nat) (it : item) : payload T :=
  Payload (i_val it) (i_sn it) (Some (i_ep it)) (rets G !! i).

Record shared G m : Prop := {
  s_len : length (ns G) = S (length (items G));
  s_hd : (hd G ≤ tl G)%nat;
  s_rets : length (rets G) = hd G;
  s_head : ns G !! hd G = Some (head m);
  s_tail : ns G !! tl G = Some (tail m);
  s_node i a : ns G !! i = Some a → i ∉ freed G →
    a ≠ 0 ∧ ∃ f, nodes m !! a = Some (Node (default 0 (ns G !! S i)) f) ∧ field G i f;
  s_inj i j a : ns G !! i = Some a → ns G !! j = Some a → i ∉ freed G → j ∉ freed G → i = j;
  s_item i it : items G !! i = Some it → i ∉ freed G → payloads m !! i_pl it = Some (stored G i it);
  s_pinj i j it jt : items G !! i = Some it → items G !! j = Some jt → i_pl it = i_pl jt →
    i ∉ freed G → j ∉ freed G → i = j;
  s_pay p y : payloads m !! p = Some y → ep y = None ∨ ∃ i it, items G !! i = Some it ∧ i_pl it = p ∧ y = stored G i it;
  s_sn i j it jt : (i < j)%nat → items G !! i = Some it → items G !! j = Some jt → i_sn it < i_sn jt;
  s_gsn i it : items G !! i = Some it → i_sn it < global_sn m;
  s_ep i it : items G !! i = Some it → i_ep it ≤ epoch m;
  s_rep i r : rets G !! i = Some r → r ≤ epoch m;
  s_freed i : i ∈ freed G → (i < hd G)%nat;
  s_ok : fault m = false;
}.

(** ** What a thread knows *)

Definition holds G (u : nat) (a : Z) (j : nat) : Prop := ns G !! j = Some a ∧ (since G u ≤ j)%nat.
(** The sequence number [c] is above those of all nodes up to [j]. *)
Definition above G (g : Z) (j : nat) (c : Z) : Prop :=
  c < g ∧ ∀ i, (i < j)%nat → ∃ it, items G !! i = Some it ∧ i_sn it < c.

(** The new node of an enqueue that is not linked yet *)
Definition priv (q : pc) : option Z :=
  match q with
  | EStart n | ETail n | ESn n _ | ENext n _ _ | ECheck n _ _ _ | ESet n _ _ | EBegin n _ | ECas n _ _ | ESwing n _ _ => Some n
  | _ => None
  end.
(** The dequeued node that is not retired yet *)
Definition pend (q : pc) : option Z :=
  match q with DVal h _ | DKeep h _ _ | DRetire h _ => Some h | _ => None end.

(** [x] is where the specification of the thread is; [g] is [global_sn]. *)
Definition thread_ok G (g : Z) (u : nat) (q : pc) (x : spc T) : Prop :=
  match q with
  | Idle => x = SIdle
  | ENew v => x = SEnq v
  | EStart _ | ETail _ | EBegin _ _ | ECas _ _ _ => True
  | ESn n c => ∃ j, holds G u c j
  | ENext n c s | ESet n c s => ∃ j, holds G u c j ∧ above G g j s
  | ECheck n c s y => ∃ j, holds G u c j ∧ above G g j s ∧ (y ≠ 0 → ns G !! S j = Some y)
  | ESwing n c y => ∃ j, holds G u c j ∧ ns G !! S j = Some y
  | EFinish n c => x = SDone None ∧ ∃ j, holds G u c j ∧ ns G !! S j = Some n
  | EEnd => x = SDone None
  | DStart | DHead => ∃ b, x = SDeq b
  | DTail h => (∃ b, x = SDeq b) ∧ ∃ j, holds G u h j ∧ (j ≤ hd G)%nat
  | DNext h c => (∃ b, x = SDeq b) ∧ ∃ j k, holds G u h j ∧ (j ≤ hd G)%nat ∧ ns G !! k = Some c ∧ (j ≤ k ≤ tl G)%nat
  | DCheck h c y => (∃ b, x = SDeq b ∧ (y = 0 → b = true)) ∧
      ∃ j k, holds G u h j ∧ (j ≤ hd G)%nat ∧ ns G !! k = Some c ∧ (j ≤ k ≤ tl G)%nat ∧
        (y ≠ 0 → ns G !! S j = Some y) ∧ (y = 0 → j = k)
  | DSwing c y => (∃ b, x = SDeq b) ∧ ∃ j, holds G u c j ∧ ns G !! S j = Some y
  | DPayload h y => (∃ b, x = SDeq b) ∧ ∃ j, holds G u h j ∧ ns G !! S j = Some y ∧ (j < tl G)%nat
  | DBegin h y p | DCas h y p _ => (∃ b, x = SDeq b) ∧
      ∃ j, holds G u h j ∧ ns G !! S j = Some y ∧ (j < tl G)%nat ∧ (own G j p ∨ ((S j < hd G)%nat ∧ own G (S j) p))
  | DVal h p => ∃ j it, holds G u h j ∧ (j < hd G)%nat ∧ items G !! j = Some it ∧ p = i_pl it ∧ x = SDone (Some (Some (i_val it)))
  | DKeep h p r => x = SDone (Some (Some r)) ∧ ∃ j, holds G u h j ∧ (j < hd G)%nat ∧ own G j p
  | DRetire h r => x = SDone (Some (Some r)) ∧ ∃ j, holds G u h j ∧ (j < hd G)%nat
  | DEnd r => x = SDone (Some r)
  end.

(** What the thread alone can reach, or write *)
Definition stamped G (g : Z) (u : nat) (q : pc) (z : Z) : Prop :=
  match q with EBegin _ c | ECas _ c _ => ∃ j, holds G u c j ∧ above G g j z | _ => True end.
Definition fresh G m (u : nat) (q : pc) (x : spc T) (n : Z) : Prop :=
  n ≠ 0 ∧ (∀ i, ns G !! i = Some n → i ∈ freed G) ∧
  ∃ p v c, nodes m !! n = Some (Node 0 p) ∧ payloads m !! p = Some (Payload v c None None) ∧ x = SEnq v ∧
    stamped G (global_sn m) u q c.
Definition private_ok G m (u : nat) (q : pc) (x : spc T) : Prop :=
  (∀ n, priv q = Some n → fresh G m u q x n) ∧
  (∀ h r, q = DRetire h r → ∃ j nx p, holds G u h j ∧ nodes m !! h = Some (Node nx p) ∧ own G j p).

(** A retired node waits for every thread that may hold it. *)
Definition guarded G (ps : list pc) m (a : Z) (W : gset nat) : Prop :=
  ∃ i nx p, (i < hd G)%nat ∧ i ∉ freed G ∧ ns G !! i = Some a ∧ nodes m !! a = Some (Node nx p) ∧ own G i p ∧
    ∀ u q, ps !! u = Some q → in_op q = true → (since G u ≤ i)%nat → u ∈ W.

(** Two threads do not share what they have not published or are about to
    retire. *)
Definition apart m (q q' : pc) : Prop :=
  (∀ n n', priv q = Some n → priv q' = Some n' → n ≠ n' ∧
     ∀ p p', nodes m !! n = Some (Node 0 p) → nodes m !! n' = Some (Node 0 p') → p ≠ p') ∧
  (∀ h h', pend q = Some h → pend q' = Some h' → h ≠ h').

(** The items that a crash in epoch [c+2] brings back *)
Fixpoint live (c : Z) (its : list item) (rs : list Z) : list item :=
  match its with
  | [] => []
  | it :: its' =>
      if (i_ep it <=? c) && negb (match rs with r :: _ => r <=? c | [] => false end)
      then it :: live c its' (drop 1 rs) else live c its' (drop 1 rs)
  end.

Record sim (pat : bool) (N : Z) G s A : Prop := {
  sm_shared : shared G (mm s);
  sm_gsn : 0 ≤ global_sn (mm s) ≤ N;
  sm_since u q : pcs s !! u = Some q → in_op q = true → (since G u ≤ hd G)%nat ∧ ∀ i, i ∈ freed G → (i < since G u)%nat;
  sm_thread u q : pcs s !! u = Some q → ∃ x, apc A !! u = Some x ∧ thread_ok G (global_sn (mm s)) u q x ∧ private_ok G (mm s) u q x;
  sm_apart u v q q' : u ≠ v → pcs s !! u = Some q → pcs s !! v = Some q' → apart (mm s) q q';
  sm_pend u q h : pcs s !! u = Some q → pend q = Some h → retired (mm s) !! h = None;
  sm_retired a W : retired (mm s) !! a = Some W → guarded G (pcs s) (mm s) a W;
  sm_queue : aq A = i_val <$> drop (hd G) (items G);
  sm_snap j l : asnap A !! j = Some l → l = i_val <$> live (epoch (mm s) - 1 - Z.of_nat j) (items G) (rets G);
  sm_old i it : items G !! i = Some it → epoch (mm s) - Z.of_nat (length (asnap A)) ≤ i_ep it;
  sm_patient : pat = true → ∀ i r, i ∈ freed G → rets G !! i = Some r → r ≤ epoch (mm s) - 2;
}.

(** ** The history only grows *)

Definition grows G G' : Prop :=
  ns G `prefix_of` ns G' ∧ items G `prefix_of` items G' ∧ (hd G ≤ hd G')%nat ∧ (tl G ≤ tl G')%nat.

Lemma grows_refl G : grows G G.
Proof. by split_and!. Qed.
Lemma grows_ns G G' i a : grows G G' → ns G !! i = Some a → ns G' !! i = Some a.
Proof. intros (? & _) ?. by eapply prefix_lookup_Some. Qed.
Lemma grows_item G G' i it : grows G G' → items G !! i = Some it → items G' !! i = Some it.
Proof. intros (_ & ? & _) ?. by eapply prefix_lookup_Some. Qed.
Lemma grows_own G G' i p : grows G G' → own G i p → own G' i p.
Proof. intros Hg (it & ? & ->). exists it. split; [by eapply grows_item|done]. Qed.
Lemma grows_holds G G' u a j : grows G G' → since G' u = since G u → holds G u a j → holds G' u a j.
Proof. intros Hg Hs [H1 H2]. split; [by eapply grows_ns|by rewrite Hs]. Qed.
Lemma grows_above G G' g g' j c : grows G G' → g ≤ g' → above G g j c → above G' g' j c.
Proof.
  intros Hg Hle [H1 H2]. split; [lia|]. intros i Hi. destruct (H2 i Hi) as (it & ? & ?).
  exists it. split; [by eapply grows_item|done].
Qed.
Lemma grows_hd G G' i : grows G G' → (i ≤ hd G)%nat → (i ≤ hd G')%nat.
Proof. intros (_ & _ & ? & _) ?. lia. Qed.
Lemma grows_lt_hd G G' i : grows G G' → (i < hd G)%nat → (i < hd G')%nat.
Proof. intros (_ & _ & ? & _) ?. lia. Qed.
Lemma grows_tl G G' i : grows G G' → (i ≤ tl G)%nat → (i ≤ tl G')%nat.
Proof. intros (_ & _ & _ & ?) ?. lia. Qed.
Lemma grows_lt_tl G G' i : grows G G' → (i < tl G)%nat → (i < tl G')%nat.
Proof. intros (_ & _ & _ & ?) ?. lia. Qed.
Hint Resolve grows_ns grows_item grows_own grows_holds grows_above grows_hd grows_lt_hd grows_tl grows_lt_tl : grow.

Lemma thread_ok_grows G G' g g' u q x :
  grows G G' → g ≤ g' → since G' u = since G u → thread_ok G g u q x → thread_ok G' g' u q x.
Proof.
  intros Hg Hle Hs. destruct q; simpl; try done; intros H; destruct_and? H; naive_solver eauto 10 with grow.
Qed.

(** ** One thread moves

    What a step of [t] has to show; everything about the other threads that is
    stated in positions follows from [grows]. *)

Record moves (pat : bool) (N : Z) G s A (t : nat) (q : pc) G' m' (q' : pc) A' : Prop := {
  mv_shared : shared G' m';
  mv_grows : grows G G';
  mv_freed : freed G' = freed G;
  mv_since u : u ≠ t → since G' u = since G u;
  mv_gsn : global_sn (mm s) ≤ global_sn m' ≤ N;
  mv_self : in_op q' = true → (since G' t ≤ hd G')%nat ∧ ∀ i, i ∈ freed G → (i < since G' t)%nat;
  mv_spec u x : u ≠ t → apc A !! u = Some x → apc A' !! u = Some x;
  mv_thread : ∃ x, apc A' !! t = Some x ∧ thread_ok G' (global_sn m') t q' x ∧ private_ok G' m' t q' x;
  mv_private u p x : u ≠ t → pcs s !! u = Some p → private_ok G (mm s) u p x → private_ok G' m' u p x;
  mv_apart u p : u ≠ t → pcs s !! u = Some p → apart m' q' p;
  mv_nodes u v p p' : u ≠ v → u ≠ t → v ≠ t → pcs s !! u = Some p → pcs s !! v = Some p' → apart (mm s) p p' → apart m' p p';
  mv_pend u p h : pcs s !! u = Some p → u ≠ t → pend p = Some h → retired (mm s) !! h = None → retired m' !! h = None;
  mv_pend_self h : pend q' = Some h → retired m' !! h = None;
  mv_retired a W : retired m' !! a = Some W → guarded G' (<[t := q']> (pcs s)) m' a W;
  mv_queue : aq A' = i_val <$> drop (hd G') (items G');
  mv_epoch : epoch m' = epoch (mm s);
  mv_asnap : asnap A' = asnap A;
  mv_live c : c < epoch (mm s) → live c (items G') (rets G') = live c (items G) (rets G);
  mv_old i it : items G' !! i = Some it → items G !! i = Some it ∨ i_ep it = epoch (mm s);
  mv_rets i r : rets G' !! i = Some r → i ∈ freed G → rets G !! i = Some r;
}.

Lemma apart_sym m q q' : apart m q q' → apart m q' q.
Proof.
  intros [H1 H2]. split.
  - intros n n' Hn Hn'. destruct (H1 n' n) as [Hne Hp]; [done..|]. split; [done|]. intros p p' ?? ->. by eapply Hp.
  - intros h h' Hh Hh' ->. by eapply H2.
Qed.

Lemma sim_moves pat N N' G s A t q G' m' q' A' :
  sim pat N G s A → pcs s !! t = Some q → moves pat N' G s A t q G' m' q' A' →
  sim pat N' G' (Sys m' (<[t := q']> (pcs s))) A'.
Proof.
  intros HS Hq [M1 M2 M3 M4 M5 M6 M7 M8 M9 M10 M11 M12 M13 M14 M15 M16 M17 M18 M19 M20].
  pose proof (sm_gsn _ _ _ _ _ HS) as Hg. constructor; simpl; try done.
  - lia.
  - intros u p Hp Hop. rewrite M3. apply list_lookup_insert_Some in Hp as [(<- & <- & _)|[Hne Hp]]; [by apply M6|].
    destruct (sm_since _ _ _ _ _ HS _ _ Hp Hop) as [Hle Hf]. rewrite M4 by done. split; [by eapply grows_hd|done].
  - intros u p Hp. apply list_lookup_insert_Some in Hp as [(<- & <- & _)|[Hne Hp]]; [done|].
    destruct (sm_thread _ _ _ _ _ HS _ _ Hp) as (x & Hx & Hok & Hpr). exists x. split; [by apply M7|].
    split; [|by apply M9]. apply (thread_ok_grows G _ (global_sn (mm s))); [done|lia|by apply M4|done].
  - intros u v p p' Huv Hp Hp'. apply list_lookup_insert_Some in Hp as [(<- & <- & _)|[Hne Hp]];
      apply list_lookup_insert_Some in Hp' as [(<- & <- & _)|[Hne' Hp']]; [done|by apply (M10 v p')|by apply apart_sym, (M10 u p)|].
    apply (M11 u v p p'); try done. by apply (sm_apart _ _ _ _ _ HS u v).
  - intros u p h Hp Hpe. apply list_lookup_insert_Some in Hp as [(<- & <- & _)|[Hne Hp]]; [by apply M13|].
    apply (M12 u p); try done. by apply (sm_pend _ _ _ _ _ HS u p).
  - intros j l. rewrite M17, M16. intros Hj. rewrite M18 by lia. by eapply (sm_snap _ _ _ _ _ HS).
  - intros i it Hi. rewrite M16, M17. destruct (M19 _ _ Hi) as [Hi'| ->]; [by eapply (sm_old _ _ _ _ _ HS)|lia].
  - intros Hpat i r Hi Hr. rewrite M16. rewrite M3 in Hi. eapply (sm_patient _ _ _ _ _ HS); [done|exact Hi|by apply M20].
Qed.

(** ** Steps that write nothing *)

Lemma set_apc_id t x A : apc A !! t = Some x → set_apc t x A = A.
Proof. intros Hx. destruct A as [a b c]. unfold set_apc. simpl in *. by rewrite list_insert_id. Qed.

Lemma private_none G m u q x : priv q = None → (∀ h r, q ≠ DRetire h r) → private_ok G m u q x.
Proof. intros Hn Hr. split; [intros n; by rewrite Hn|]. intros h r ->. by destruct (Hr h r). Qed.

Lemma private_same G m u q q' x :
  priv q' = priv q → (∀ g z, stamped G g u q z → stamped G g u q' z) → (∀ h r, q' ≠ DRetire h r) →
  private_ok G m u q x → private_ok G m u q' x.
Proof.
  intros Hp Hst Hr [H1 _]. split; [|intros h r ->; by destruct (Hr h r)].
  intros n Hn. rewrite Hp in Hn. destruct (H1 n Hn) as (? & ? & p & v & c & ? & ? & ? & ?).
  split; [done|]. split; [done|]. exists p, v, c. auto.
Qed.

Ltac samep := eapply private_same; [| | |eassumption]; (done || (intros ? ?; simpl; done)).

Lemma guarded_pcs G ps m t q q' a W :
  ps !! t = Some q → (in_op q' = true → in_op q = true) → guarded G ps m a W → guarded G (<[t := q']> ps) m a W.
Proof.
  intros Hq Hop (i & nx & p & H1 & H2 & H3 & H4 & H5 & H6). exists i, nx, p. split_and!; try done.
  intros u z Hz Hin. apply list_lookup_insert_Some in Hz as [(<- & <- & _)|[Hne Hz]]; [apply (H6 t q); auto|by eapply H6].
Qed.

Lemma apart_sub m q q' p :
  (priv q' = priv q ∨ priv q' = None) → (pend q' = pend q ∨ pend q' = None) → apart m q p → apart m q' p.
Proof.
  intros Hp Hd [H1 H2]. split.
  - intros n n' Hn. destruct Hp as [Hp|Hp]; rewrite Hp in Hn; [by apply H1|done].
  - intros h h' Hh. destruct Hd as [Hd|Hd]; rewrite Hd in Hh; [by apply H2|done].
Qed.

Lemma sim_local pat N G s A t q q' x' :
  sim pat N G s A → pcs s !! t = Some q → in_op q' = in_op q →
  (priv q' = priv q ∨ priv q' = None) → (pend q' = pend q ∨ pend q' = None) →
  thread_ok G (global_sn (mm s)) t q' x' → private_ok G (mm s) t q' x' →
  sim pat N G (Sys (mm s) (<[t := q']> (pcs s))) (set_apc t x' A).
Proof.
  intros HS Hq Hop Hpr Hpe Hok Hp. pose proof (sm_gsn _ _ _ _ _ HS).
  eapply sim_moves; [exact HS|exact Hq|]. constructor; try done.
  - apply (sm_shared _ _ _ _ _ HS).
  - lia.
  - intros Hin. apply (sm_since _ _ _ _ _ HS t q Hq). by rewrite <- Hop.
  - intros u x Hne Hx. simpl. by rewrite list_lookup_insert_ne.
  - destruct (sm_thread _ _ _ _ _ HS _ _ Hq) as (x & Hx & _). exists x'. split; [|done].
    simpl. apply list_lookup_insert_eq. by eapply lookup_lt_Some.
  - intros u p Hne Hu. eapply apart_sub; [done|done|]. by apply (sm_apart _ _ _ _ _ HS t u).
  - intros h Hh. destruct Hpe as [Hpe|Hpe]; rewrite Hpe in Hh; [by eapply (sm_pend _ _ _ _ _ HS)|done].
  - intros a W HW. eapply guarded_pcs; [exact Hq|by rewrite Hop|by apply (sm_retired _ _ _ _ _ HS)].
  - apply (sm_queue _ _ _ _ _ HS).
  - by left.
Qed.

(** ... and that the specification does not see *)
Lemma msq_sim_quiet pat N G s A t q q' :
  sim pat N G s A → pcs s !! t = Some q → in_op q' = in_op q →
  (priv q' = priv q ∨ priv q' = None) → (pend q' = pend q ∨ pend q' = None) →
  (∀ x, apc A !! t = Some x → thread_ok G (global_sn (mm s)) t q x → private_ok G (mm s) t q x →
     thread_ok G (global_sn (mm s)) t q' x ∧ private_ok G (mm s) t q' x) →
  sim pat N G (Sys (mm s) (<[t := q']> (pcs s))) A.
Proof.
  intros HS Hq Hop Hpr Hpe Hx. destruct (sm_thread _ _ _ _ _ HS _ _ Hq) as (x & Hap & Hok & Hp).
  destruct (Hx x Hap Hok Hp) as [Hok' Hp']. rewrite <- (set_apc_id _ _ _ Hap). by eapply sim_local.
Qed.

(** ** What is held is there *)

Section held.
Context (pat : bool) (N : Z) (G : ghost) (s : sys) (A : ast) (t : nat) (q : pc).
Context (HS : sim pat N G s A) (Hq : pcs s !! t = Some q) (Hop : in_op q = true).

Lemma held_unfreed a j : holds G t a j → j ∉ freed G.
Proof using All. intros [_ Hj] Hin. apply (sm_since _ _ _ _ _ HS _ _ Hq Hop) in Hin. lia. Qed.
Lemma held_next a j : holds G t a j → S j ∉ freed G.
Proof using All. intros [_ Hj] Hin. apply (sm_since _ _ _ _ _ HS _ _ Hq Hop) in Hin. lia. Qed.
Lemma held_step a j b : holds G t a j → ns G !! S j = Some b → holds G t b (S j).
Proof using Type. intros [_ Hj] Hb. split; [done|lia]. Qed.

Lemma held_node a j : holds G t a j →
  a ≠ 0 ∧ ∃ f, nodes (mm s) !! a = Some (Node (default 0 (ns G !! S j)) f) ∧ field G j f.
Proof using All.
  intros Hh. apply (s_node _ _ (sm_shared _ _ _ _ _ HS)); [apply Hh|by eapply held_unfreed].
Qed.
Lemma held_after a j b : holds G t a j → ns G !! S j = Some b → b ≠ 0.
Proof using All. intros Hh Hb. by destruct (held_node b (S j) (held_step _ _ _ Hh Hb)). Qed.
Lemma held_inj a j k : holds G t a j → holds G t a k → j = k.
Proof using All.
  intros Hj Hk. eapply (s_inj _ _ (sm_shared _ _ _ _ _ HS)); [apply Hj|apply Hk|by eapply held_unfreed..].
Qed.
Lemma held_payload a j it : holds G t a j → items G !! j = Some it →
  payloads (mm s) !! i_pl it = Some (stored G j it).
Proof using All. intros Hh Hi. apply (s_item _ _ (sm_shared _ _ _ _ _ HS)); [done|by eapply held_unfreed]. Qed.

Lemma holds_head : holds G t (head (mm s)) (hd G).
Proof using All. split; [apply (s_head _ _ (sm_shared _ _ _ _ _ HS))|by apply (sm_since _ _ _ _ _ HS t q)]. Qed.
Lemma holds_tail : holds G t (tail (mm s)) (tl G).
Proof using All.
  split; [apply (s_tail _ _ (sm_shared _ _ _ _ _ HS))|]. pose proof (s_hd _ _ (sm_shared _ _ _ _ _ HS)).
  destruct (sm_since _ _ _ _ _ HS t q) as [? _]; [done..|]. lia.
Qed.
End held.

(** ** Reads of enqueue *)

Section enqueue_reads.
Context (pat : bool) (N : Z) (G : ghost) (s : sys) (A : ast) (t : nat).
Context (HS : sim pat N G s A).
Notation after q' := (sim pat N G (Sys (mm s) (<[t := q']> (pcs s))) A).

Lemma sim_ETail n : pcs s !! t = Some (ETail n) → after (ESn n (tail (mm s))).
Proof using All.
  intros Hq. eapply msq_sim_quiet; [exact HS|exact Hq|done|by left|by left|]. intros x _ _ Hp. split.
  - exists (tl G). by eapply holds_tail.
  - samep.
Qed.

Lemma sim_ENext n c z nd : pcs s !! t = Some (ENext n c z) → nodes (mm s) !! c = Some nd → after (ECheck n c z (next nd)).
Proof using All.
  intros Hq Hn. eapply msq_sim_quiet; [exact HS|exact Hq|done|by left|by left|]. intros x _ (j & Hh & Ha) Hp. split.
  - exists j. split; [done|]. split; [done|]. eapply held_node in Hh as (_ & f & Hf & _); [|done..].
    rewrite Hn in Hf. injection Hf as ->. simpl. by destruct (ns G !! S j).
  - samep.
Qed.

Lemma sim_ECheck n c z y : pcs s !! t = Some (ECheck n c z y) →
  after (if negb (c =? tail (mm s)) then ETail n else if y =? 0 then ESet n c z else ESwing n c y).
Proof using All.
  intros Hq. eapply msq_sim_quiet; [exact HS|exact Hq|by repeat case_match|left; by repeat case_match|left; by repeat case_match|].
  intros x _ (j & Hh & Ha & Hy) Hp. destruct (negb _); [split; [done|samep]|].
  destruct (Z.eqb_spec y 0); (split; [|samep]); exists j; [done|auto].
Qed.

Lemma sim_EBegin n c : pcs s !! t = Some (EBegin n c) → after (ECas n c (epoch (mm s))).
Proof using All.
  intros Hq. eapply msq_sim_quiet; [exact HS|exact Hq|done|by left|by left|]. intros x _ Ho Hp. split; [done|].
  samep.
Qed.

(** The compare-and-swap fails. *)
Lemma sim_ECas_fails n c e : pcs s !! t = Some (ECas n c e) → after (ETail n).
Proof using All.
  intros Hq. eapply msq_sim_quiet; [exact HS|exact Hq|done|by left|by left|]. intros x _ Ho Hp. split; [done|].
  samep.
Qed.

Lemma sim_ESwing_fails n c y : pcs s !! t = Some (ESwing n c y) → after (ETail n).
Proof using All.
  intros Hq. eapply msq_sim_quiet; [exact HS|exact Hq|done|by left|by left|]. intros x _ Ho Hp. split; [done|].
  samep.
Qed.
Lemma sim_EFinish_fails n c : pcs s !! t = Some (EFinish n c) → after EEnd.
Proof using All.
  intros Hq. eapply msq_sim_quiet; [exact HS|exact Hq|done|by left|by left|]. intros x _ [-> _] Hp. split; [done|].
  by apply private_none.
Qed.
End enqueue_reads.

(** ** Reads of dequeue *)

Section dequeue_reads.
Context (pat : bool) (N : Z) (G : ghost) (s : sys) (A : ast) (t : nat).
Context (HS : sim pat N G s A).
Notation after q' := (sim pat N G (Sys (mm s) (<[t := q']> (pcs s))) A).
Ltac quiet Hq := eapply msq_sim_quiet; [exact HS|exact Hq|done|by left|by left|].

Lemma sim_DHead : pcs s !! t = Some DHead → after (DTail (head (mm s))).
Proof using All.
  intros Hq. quiet Hq. intros x _ Hx Hp. split; [|by apply private_none]. split; [done|]. exists (hd G).
  split; [by eapply holds_head|done].
Qed.

Lemma sim_DTail h : pcs s !! t = Some (DTail h) → after (DNext h (tail (mm s))).
Proof using All.
  intros Hq. quiet Hq. intros x _ (Hx & j & Hh & Hj) Hp. split; [|by apply private_none]. split; [done|]. exists j, (tl G).
  pose proof (s_hd _ _ (sm_shared _ _ _ _ _ HS)). split; [done|]. split; [done|].
  split; [apply (s_tail _ _ (sm_shared _ _ _ _ _ HS))|lia].
Qed.

Lemma sim_DCheck h c y : pcs s !! t = Some (DCheck h c y) → y ≠ 0 ∨ h ≠ c ∨ h ≠ head (mm s) →
  after (if negb (h =? head (mm s)) then DHead else if h =? c then (if y =? 0 then DEnd None else DSwing c y) else DPayload h y).
Proof using All.
  intros Hq Hy. eapply msq_sim_quiet; [exact HS|exact Hq|by repeat case_match|left; by repeat case_match|left; by repeat case_match|].
  intros x _ ((b & -> & Hb) & j & k & Hh & Hj & Hk & Hjk & Hn & He) _. destruct (Z.eqb_spec h (head (mm s))); simpl;
    [|split; [by eexists|by apply private_none]].
  destruct (Z.eqb_spec h c) as [->|Hne].
  - destruct (Z.eqb_spec y 0); [exfalso; naive_solver|]. split; [|by apply private_none].
    split; [by eexists|]. exists j. auto.
  - split; [|by apply private_none]. split; [by eexists|]. exists j. split; [done|].
    assert (j ≠ k) by (intros ->; destruct Hh; congruence).
    destruct (Z.eq_dec y 0) as [->|Hy0]; [by destruct H; apply He|]. split; [by apply Hn|lia].
Qed.

Lemma sim_DSwing_fails c y : pcs s !! t = Some (DSwing c y) → after DHead.
Proof using All. intros Hq. quiet Hq. intros x _ [Hx _] _. split; [done|by apply private_none]. Qed.

Lemma sim_DBegin h y p : pcs s !! t = Some (DBegin h y p) → after (DCas h y p (epoch (mm s))).
Proof using All. intros Hq. quiet Hq. intros x _ Hx _. split; [done|by apply private_none]. Qed.

Lemma sim_DCas_fails h y p e : pcs s !! t = Some (DCas h y p e) → after DHead.
Proof using All. intros Hq. quiet Hq. intros x _ [Hx _] _. split; [done|by apply private_none]. Qed.

(** The payload of the next node: its own, or if that one has been dequeued as
    well, the one its dequeuer has stored. *)
Lemma sim_DPayload h y nd : pcs s !! t = Some (DPayload h y) → nodes (mm s) !! y = Some nd → after (DBegin h y (pl nd)).
Proof using All.
  intros Hq Hnd. quiet Hq. intros x _ (Hx & j & Hh & Hy & Hj) _. split; [|by apply private_none]. split; [done|].
  exists j. split; [done|]. split; [done|]. split; [done|].
  pose proof (held_step _ _ _ _ _ Hh Hy) as Hh'. eapply held_node in Hh' as (_ & f & Hf & Hfd); [|done..].
  rewrite Hnd in Hf. injection Hf as ->. simpl. destruct Hfd as [?|[(k & [= <-] & ?)|?]]; [done|by left|by right].
Qed.

Lemma sim_DVal h p y : pcs s !! t = Some (DVal h p) → payloads (mm s) !! p = Some y → after (DKeep h p (val y)).
Proof using All.
  intros Hq Hy. quiet Hq. intros x _ (j & it & Hh & Hj & Hi & -> & ->) _. split; [|by apply private_none].
  eapply held_payload in Hi as Hp; [|done..]. rewrite Hp in Hy. injection Hy as <-. split; [done|].
  exists j. split; [done|]. split; [done|]. by exists it.
Qed.
End dequeue_reads.

(** ** Steps that write *)

(** The step of [t] does not touch what another thread has not published or is
    about to retire. *)
Definition spares s (t : nat) m' : Prop := ∀ u p n, u ≠ t → pcs s !! u = Some p →
  (priv p = Some n ∨ pend p = Some n → nodes m' !! n = nodes (mm s) !! n) ∧
  (∀ nd, priv p = Some n → nodes (mm s) !! n = Some nd → payloads m' !! pl nd = payloads (mm s) !! pl nd).

Lemma spares_private s t G G' m' u p x :
  spares s t m' → grows G G' → since G' u = since G u → freed G' = freed G → global_sn (mm s) ≤ global_sn m' →
  (∀ n i, priv p = Some n → ns G' !! i = Some n → ns G !! i = Some n) →
  u ≠ t → pcs s !! u = Some p → private_ok G (mm s) u p x → private_ok G' m' u p x.
Proof.
  intros Hsp Hg Hs Hf Hle Hns Hne Hp [H1 H2]. split.
  - intros n Hn. destruct (H1 n Hn) as (Hn0 & Hch & z & v & c & Hnd & Hpl & -> & Hst). destruct (Hsp u p n Hne Hp) as [Ha Hb].
    split; [done|]. split; [intros i Hi; rewrite Hf; eauto|]. exists z, v, c. pose proof (Hb _ Hn Hnd) as Hz. simpl in Hz. rewrite Ha, Hz by auto.
    split_and!; try done. destruct p; simpl in *; try done; destruct Hst as (j & ? & ?); exists j; eauto with grow.
  - intros h r ->. destruct (H2 h r) as (j & nx & z & Hh & Hnd & Hown); [done|]. destruct (Hsp u _ h Hne Hp) as [Ha _].
    exists j, nx, z. rewrite Ha by (by right). eauto with grow.
Qed.

Lemma spares_apart s t m' u v p p' :
  spares s t m' → u ≠ t → v ≠ t → pcs s !! u = Some p → pcs s !! v = Some p' → apart (mm s) p p' → apart m' p p'.
Proof.
  intros Hsp Hu Hv Hp Hp' [H1 H2]. split; [|done]. intros n n' Hn Hn'. destruct (H1 n n' Hn Hn') as [Hne Hpl]. split; [done|].
  by rewrite (proj1 (Hsp u p n Hu Hp) (or_introl Hn)), (proj1 (Hsp v p' n' Hv Hp') (or_introl Hn')).
Qed.

Lemma spares_same s t : spares s t (mm s).
Proof. by intros u p n _ _. Qed.

(** The nodes of others and of the history *)
Lemma sim_priv_node pat N G s A u p n :
  sim pat N G s A → pcs s !! u = Some p → priv p = Some n →
  n ≠ 0 ∧ (∀ i, ns G !! i = Some n → i ∈ freed G) ∧
  ∃ z v c, nodes (mm s) !! n = Some (Node 0 z) ∧ payloads (mm s) !! z = Some (Payload v c None None).
Proof.
  intros HS Hp Hn. destruct (sm_thread _ _ _ _ _ HS _ _ Hp) as (x & _ & _ & H1 & _).
  destruct (H1 n Hn) as (? & ? & z & v & c & ? & ? & _). split; [done|]. split; [done|]. by exists z, v, c.
Qed.
Lemma sim_pend_pos pat N G s A u p h :
  sim pat N G s A → pcs s !! u = Some p → pend p = Some h → ∃ j, holds G u h j ∧ (j < hd G)%nat ∧ j ∉ freed G.
Proof.
  intros HS Hp Hh. destruct (sm_thread _ _ _ _ _ HS _ _ Hp) as (x & _ & Hok & _).
  assert (∃ j, holds G u h j ∧ (j < hd G)%nat) as (j & Hj & Hlt).
  { destruct p; simplify_eq/=; naive_solver. }
  exists j. split; [done|]. split; [done|]. eapply held_unfreed; [exact HS|exact Hp|by destruct p|exact Hj].
Qed.
Lemma shared_node G m i a : shared G m → ns G !! i = Some a → i ∉ freed G → is_Some (nodes m !! a).
Proof. intros Hs Ha Hi. destruct (s_node _ _ Hs i a Ha Hi) as (_ & f & -> & _). by eexists. Qed.

(** A step outside the history: [G] stays, except that the thread may start its
    operation. *)
Lemma moves_same pat N N' G s A t q m' q' A' x' :
  sim pat N G s A → pcs s !! t = Some q → in_op q' = in_op q →
  shared G m' → spares s t m' → global_sn (mm s) ≤ global_sn m' ≤ N' → epoch m' = epoch (mm s) →
  apc A' = <[t := x']> (apc A) → aq A' = aq A → asnap A' = asnap A →
  thread_ok G (global_sn m') t q' x' → private_ok G m' t q' x' →
  (∀ u p, u ≠ t → pcs s !! u = Some p → apart m' q' p) →
  (∀ u p h, pcs s !! u = Some p → u ≠ t → pend p = Some h → retired (mm s) !! h = None → retired m' !! h = None) →
  (∀ h, pend q' = Some h → retired m' !! h = None) →
  (∀ a W, retired m' !! a = Some W → guarded G (<[t := q']> (pcs s)) m' a W) →
  moves pat N' G s A t q G m' q' A'.
Proof.
  intros HS Hq Hop Hsh Hsp Hgs He Hap Haq Has Hok Hpr Hapart Hpe Hpe' Hret. constructor; try done.
  - intros Hin. apply (sm_since _ _ _ _ _ HS t q Hq). by rewrite <- Hop.
  - intros u x Hne Hx. by rewrite Hap, list_lookup_insert_ne.
  - destruct (sm_thread _ _ _ _ _ HS _ _ Hq) as (x & Hx & _). exists x'. split; [|done].
    rewrite Hap. apply list_lookup_insert_eq. by eapply lookup_lt_Some.
  - intros u p x Hne Hp. apply (spares_private s t); try done. lia.
  - intros u v p p' _ Hu Hv Hp Hp'. by apply (spares_apart s t _ u v).
  - rewrite Haq. apply (sm_queue _ _ _ _ _ HS).
  - by left.
Qed.

Lemma retired_same pat N G s A t q q' a W :
  sim pat N G s A → pcs s !! t = Some q → in_op q' = in_op q → retired (mm s) !! a = Some W →
  guarded G (<[t := q']> (pcs s)) (mm s) a W.
Proof. intros HS Hq Hop HW. eapply guarded_pcs; [exact Hq|by rewrite Hop|by apply (sm_retired _ _ _ _ _ HS)]. Qed.

(** [global_sn.fetch_add(1)] *)
Lemma sim_ESn pat N G s A t n c :
  sim pat N G s A → N + 1 < U64 → pcs s !! t = Some (ESn n c) →
  sim pat (N + 1) G (Sys (with_sn (u64 (global_sn (mm s) + 1)) (mm s)) (<[t := ENext n c (global_sn (mm s))]> (pcs s))) A.
Proof.
  intros HS HN Hq. pose proof (sm_gsn _ _ _ _ _ HS) as Hg. pose proof (sm_shared _ _ _ _ _ HS) as Hsh.
  rewrite u64_small by (unfold is_u64; lia). destruct (sm_thread _ _ _ _ _ HS _ _ Hq) as (x & Hx & (j & Hj) & Hp).
  eapply sim_moves; [exact HS|exact Hq|]. eapply (moves_same _ _ _ _ _ _ _ _ _ _ _ x HS Hq); try done.
  - destruct Hsh. constructor; try done. intros i it Hi. simpl. specialize (s_gsn0 i it Hi). lia.
  - simpl. lia.
  - by rewrite list_insert_id.
  - exists j. split; [done|]. split; [simpl; lia|]. intros i Hi.
    assert (is_Some (items G !! i)) as [it Hit].
    { apply lookup_lt_is_Some. destruct Hj as [Hj%lookup_lt_Some _]. rewrite (s_len _ _ Hsh) in Hj. lia. }
    exists it. split; [done|]. by apply (s_gsn _ _ Hsh i).
  - destruct Hp as [H1 _]. split; [|done]. intros n' Hn'. destruct (H1 n' Hn') as (? & ? & z & v & k & ? & ? & ? & _).
    split; [done|]. split; [done|]. by exists z, v, k.
  - intros u p Hne Hp'. by apply (apart_sub _ (ESn n c)); [left..|apply (sm_apart _ _ _ _ _ HS t u)].
  - intros a W HW. by eapply (retired_same _ _ _ _ _ _ _ _ _ _ HS Hq).
Qed.

(** Payloads that no operation has published can be written. *)
Lemma shared_payload G m p v c z :
  shared G m → ep v = None → (payloads m !! p = None ∨ ∃ y, payloads m !! p = Some y ∧ ep y = None) →
  z = with_payloads (<[p := v]> (payloads m)) m → c = z → shared G c.
Proof.
  intros Hsh Hv Hp -> ->. destruct Hsh. constructor; try done; simpl.
  - intros i it Hi Hf. specialize (s_item0 i it Hi Hf). rewrite lookup_insert_ne; [done|]. intros ->.
    destruct Hp as [Hp|(y & Hp & Hy)]; [congruence|]. rewrite s_item0 in Hp. injection Hp as <-. done.
  - intros p' y. rewrite lookup_insert. case_decide; [intros [= <-]; by left|apply s_pay0].
Qed.

(** [new_node->set_sn(s)] *)
Lemma sim_ESet pat N G s A t n c k nd y :
  sim pat N G s A → pcs s !! t = Some (ESet n c k) → nodes (mm s) !! n = Some nd → payloads (mm s) !! pl nd = Some y →
  sim pat N G (Sys (with_payloads (<[pl nd := set_sn k y]> (payloads (mm s))) (mm s)) (<[t := EBegin n c]> (pcs s))) A.
Proof.
  intros HS Hq Hnd Hy. pose proof (sm_gsn _ _ _ _ _ HS) as Hg. pose proof (sm_shared _ _ _ _ _ HS) as Hsh.
  destruct (sm_thread _ _ _ _ _ HS _ _ Hq) as (x & Hx & (j & Hj & Ha) & Hp).
  destruct Hp as [H1 _]. destruct (H1 n eq_refl) as (Hn0 & Hch & z & v & k0 & Hnd' & Hz & -> & _).
  rewrite Hnd in Hnd'. injection Hnd' as ->. simpl in *. rewrite Hz in Hy. injection Hy as <-.
  eapply sim_moves; [exact HS|exact Hq|]. eapply (moves_same _ _ _ _ _ _ _ _ _ _ _ _ HS Hq); try done.
  - eapply (shared_payload _ (mm s) z (set_sn k (Payload v k0 None None))); [done|done|right; by eexists|done|done].
  - intros u p n' Hne Hu. split; [done|]. intros nd' Hpr Hnd'. simpl.
    destruct (sim_priv_node _ _ _ _ _ _ _ _ HS Hu Hpr) as (_ & _ & z' & v' & c' & Hz' & _). rewrite Hnd' in Hz'. injection Hz' as ->.
    simpl. rewrite lookup_insert_ne; [done|]. intros ->.
    destruct (sm_apart _ _ _ _ _ HS t u _ _ (not_eq_sym Hne) Hq Hu) as [Hap _]. by eapply (Hap n n').
  - simpl. lia.
  - by rewrite list_insert_id.
  - split; [|done]. intros n' [= <-]. split; [done|]. split; [done|]. exists z, v, k. simpl. rewrite lookup_insert_eq.
    split_and!; try done. by exists j.
  - intros u p Hne Hu. by apply (apart_sub _ (ESet n c k)); [left..|apply (sm_apart _ _ _ _ _ HS t u)].
  - intros a W HW. by eapply (retired_same _ _ _ _ _ _ _ _ _ _ HS Hq).
Qed.

(** [new Node(this, v)] *)
Lemma sim_New pat N G s A t v n p :
  sim pat N G s A → pcs s !! t = Some (ENew v) → n ≠ 0 → nodes (mm s) !! n = None → payloads (mm s) !! p = None →
  sim pat N G (Sys (with_payloads (<[p := Payload v 0 None None]> (payloads (mm s))) (with_nodes (<[n := Node 0 p]> (nodes (mm s))) (mm s)))
    (<[t := EStart n]> (pcs s))) A.
Proof.
  intros HS Hq Hn0 Hn Hp. pose proof (sm_gsn _ _ _ _ _ HS) as Hg. pose proof (sm_shared _ _ _ _ _ HS) as Hsh.
  destruct (sm_thread _ _ _ _ _ HS _ _ Hq) as (x & Hx & Hok & _). simpl in Hok. subst x.
  assert (∀ i a, ns G !! i = Some a → i ∉ freed G → a ≠ n) as Hch.
  { intros i a Ha Hi ->. destruct (shared_node _ _ _ _ Hsh Ha Hi) as [? ?]. congruence. }
  eapply sim_moves; [exact HS|exact Hq|]. eapply (moves_same _ _ _ _ _ _ _ _ _ _ _ _ HS Hq); try done.
  - eapply (shared_payload _ (with_nodes (<[n := Node 0 p]> (nodes (mm s))) (mm s)) p (Payload v 0 None None)); [|done|by left|done|done].
    destruct Hsh. constructor; simpl; try done. intros i a Ha Hi. rewrite lookup_insert_ne by (by eapply not_eq_sym, Hch). auto.
  - intros u q' n' Hne Hu. simpl. split.
    + intros Hpn. rewrite lookup_insert_ne; [done|]. intros <-. destruct Hpn as [Hpn|Hpn].
      * destruct (sim_priv_node _ _ _ _ _ _ _ _ HS Hu Hpn) as (_ & _ & ? & ? & ? & ? & _). congruence.
      * destruct (sim_pend_pos _ _ _ _ _ _ _ _ HS Hu Hpn) as (j & [Hj _] & _ & Hf). by eapply Hch.
    + intros nd Hpr Hnd. destruct (sim_priv_node _ _ _ _ _ _ _ _ HS Hu Hpr) as (_ & _ & z' & v' & c' & Hz' & Hz2).
      rewrite Hnd in Hz'. injection Hz' as ->. simpl. rewrite lookup_insert_ne; [done|]. congruence.
  - simpl. lia.
  - by rewrite list_insert_id.
  - split; [|done]. intros n' [= <-]. split; [done|]. split.
    + intros i Hi. destruct (decide (i ∈ freed G)); [done|]. by destruct (Hch i n Hi).
    + exists p, v, 0. simpl. by rewrite !lookup_insert_eq.
  - intros u q' Hne Hu. split; [|done]. intros n1 n2 [= <-] Hn2.
    destruct (sim_priv_node _ _ _ _ _ _ _ _ HS Hu Hn2) as (_ & _ & z' & v' & c' & Hz' & Hz2).
    split; [congruence|]. simpl. rewrite lookup_insert_eq. intros p1 p2 [= <-]. rewrite lookup_insert_ne by congruence. congruence.
  - intros a W HW. destruct (retired_same _ _ _ _ _ _ _ (EStart n) _ _ HS Hq eq_refl HW)
      as (i & nx & p' & H1 & H2 & H3 & H4 & H5 & H6).
    exists i, nx, p'. split_and!; try done. simpl. rewrite lookup_insert_ne; [done|]. eapply not_eq_sym, Hch; [exact H3|exact H2].
Qed.

(** ** The beginning and the end of an operation *)

Definition begin_at (t : nat) G : ghost :=
  Gh (ns G) (items G) (hd G) (tl G) (rets G) (freed G) (λ u, if decide (u = t) then hd G else since G u).

Lemma sim_start pat N G s A t q q' :
  sim pat N G s A → pcs s !! t = Some q → in_op q = false → priv q' = priv q → pend q' = None →
  (∀ h r, q' ≠ DRetire h r) → (∀ G g z, stamped G g t q' z) →
  (∀ g x, thread_ok G g t q x → thread_ok (begin_at t G) g t q' x) →
  sim pat N (begin_at t G) (Sys (mm s) (<[t := q']> (pcs s))) A.
Proof.
  intros HS Hq Hop Hpr Hpe Hdr Hst Hok. pose proof (sm_gsn _ _ _ _ _ HS). pose proof (sm_shared _ _ _ _ _ HS) as Hsh.
  eapply sim_moves; [exact HS|exact Hq|]. constructor; simpl; try done.
  - by destruct Hsh.
  - intros u Hu. by rewrite decide_False.
  - lia.
  - intros _. rewrite decide_True by done. split; [done|]. apply (s_freed _ _ Hsh).
  - destruct (sm_thread _ _ _ _ _ HS _ _ Hq) as (x & Hx & Hx1 & Hx2 & _). exists x. split; [done|]. split; [by apply Hok|].
    split; [|intros h r ->; by destruct (Hdr h r)]. intros n Hn. rewrite Hpr in Hn.
    destruct (Hx2 n Hn) as (? & ? & z & v & k & ? & ? & ? & _). split; [done|]. split; [done|]. exists z, v, k. by split_and!.
  - intros u p x Hne Hp Hx. apply (spares_private s t G); try done. simpl. by rewrite decide_False.
  - intros u p Hne Hp. apply (apart_sub _ q); [by left|by right|by apply (sm_apart _ _ _ _ _ HS t u)].
  - intros h. by rewrite Hpe.
  - intros a W HW. destruct (sm_retired _ _ _ _ _ HS a W HW) as (i & nx & p & H1 & H2 & H3 & H4 & H5 & H6).
    exists i, nx, p. split_and!; try done. simpl. intros u z Hz Hin.
    apply list_lookup_insert_Some in Hz as [(<- & <- & _)|[Hne Hz]]; [rewrite decide_True by done; lia|].
    rewrite decide_False by done. by eapply H6.
  - apply (sm_queue _ _ _ _ _ HS).
  - by left.
Qed.

(** [tracker.end_op], and the return *)
Lemma sim_leave pat N G s A t q :
  sim pat N G s A → pcs s !! t = Some q → sim pat N G (Sys (leave t (mm s)) (<[t := Idle]> (pcs s))) (set_apc t SIdle A).
Proof.
  intros HS Hq. pose proof (sm_gsn _ _ _ _ _ HS). pose proof (sm_shared _ _ _ _ _ HS) as Hsh.
  assert (∀ a W, retired (leave t (mm s)) !! a = Some W → ∃ W0, retired (mm s) !! a = Some W0 ∧ W = W0 ∖ {[t]}) as Hret.
  { intros a W. simpl. rewrite lookup_fmap. intros (W0 & ? & ->)%fmap_Some. by exists W0. }
  assert (∀ a, retired (mm s) !! a = None → retired (leave t (mm s)) !! a = None) as Hnone.
  { intros a Ha. simpl. by rewrite lookup_fmap, Ha. }
  eapply sim_moves; [exact HS|exact Hq|]. constructor; try done.
  - by destruct Hsh.
  - simpl. lia.
  - intros u x Hne Hx. simpl. by rewrite list_lookup_insert_ne.
  - destruct (sm_thread _ _ _ _ _ HS _ _ Hq) as (x & Hx & _). exists SIdle. split; [|by split; [|apply private_none]].
    simpl. apply list_lookup_insert_eq. by eapply lookup_lt_Some.
  - intros u p h _ _ _. apply Hnone.
  - intros a W (W0 & HW & ->)%Hret. destruct (sm_retired _ _ _ _ _ HS a W0 HW) as (i & nx & p & H1 & H2 & H3 & H4 & H5 & H6).
    exists i, nx, p. split_and!; try done. intros u z Hz Hin Hle.
    apply list_lookup_insert_Some in Hz as [(<- & <- & _)|[Hne Hz]]; [done|]. specialize (H6 u z Hz Hin Hle). set_solver.
  - apply (sm_queue _ _ _ _ _ HS).
  - by left.
Qed.

(** ** The tail is swung *)

Definition set_tl (k : nat) G : ghost := Gh (ns G) (items G) (hd G) k (rets G) (freed G) (since G).

Lemma sim_swing pat N G s A t q q' c y j :
  sim pat N G s A → pcs s !! t = Some q → in_op q = true → in_op q' = true → priv q' = None ∨ priv q' = priv q → pend q' = None →
  (∀ h r, q' ≠ DRetire h r) → (∀ G g z, stamped G g t q' z) → holds G t c j → ns G !! S j = Some y → tail (mm s) = c →
  (∀ G' g x, thread_ok G g t q x → thread_ok G' g t q' x) →
  ∃ G', sim pat N G' (Sys (with_tail y (mm s)) (<[t := q']> (pcs s))) A.
Proof.
  intros HS Hq Hop Hop' Hpr Hpe Hdr Hst Hj Hy Ht Hok. pose proof (sm_gsn _ _ _ _ _ HS). pose proof (sm_shared _ _ _ _ _ HS) as Hsh.
  assert (tl G = j) as Htl.
  { eapply held_inj; [exact HS|exact Hq|exact Hop| |exact Hj]. rewrite <- Ht. by eapply holds_tail. }
  exists (set_tl (S j) G). eapply sim_moves; [exact HS|exact Hq|]. constructor; simpl; try done.
  - destruct Hsh. constructor; simpl; try done. lia.
  - split_and!; simpl; try done. lia.
  - lia.
  - intros _. by apply (sm_since _ _ _ _ _ HS t q).
  - destruct (sm_thread _ _ _ _ _ HS _ _ Hq) as (x & Hx & Hx1 & Hx2 & _). exists x. split; [done|]. split; [by apply Hok|].
    split; [|intros h r ->; by destruct (Hdr h r)]. intros n Hn. destruct Hpr as [Hpr|Hpr]; rewrite Hpr in Hn; [done|].
    destruct (Hx2 n Hn) as (? & ? & z & v & k & ? & ? & ? & _). split; [done|]. split; [done|]. exists z, v, k. by split_and!.
  - intros u p Hne Hp. apply (apart_sub _ q); [naive_solver|by right|by apply (sm_apart _ _ _ _ _ HS t u)].
  - intros h. by rewrite Hpe.
  - intros a W HW. eapply (guarded_pcs G); [exact Hq|by rewrite Hop|]. by apply (sm_retired _ _ _ _ _ HS).
  - apply (sm_queue _ _ _ _ _ HS).
  - by left.
Qed.

(** ** A node is linked *)

Definition link (n : Z) (it : item) G : ghost :=
  Gh (ns G ++ [n]) (items G ++ [it]) (hd G) (tl G) (rets G) (freed G) (since G).

Lemma link_grows n it G : grows G (link n it G).
Proof. split_and!; simpl; [by apply prefix_app_r|by apply prefix_app_r|done|done]. Qed.
Lemma field_grows G G' i f : grows G G' → field G i f → field G' i f.
Proof. intros Hg [?|[(k & -> & ?)|[? ?]]]; [by left|right; left; eauto with grow|right; right; eauto with grow]. Qed.

Lemma ns_link G m n it j i a :
  shared G m → j = length (items G) → ns (link n it G) !! i = Some a →
  (ns G !! i = Some a ∧ (i ≤ j)%nat) ∨ (i = S j ∧ a = n).
Proof.
  intros Hsh Hlast. pose proof (s_len _ _ Hsh). simpl. intros [Hi|[Hi Ha]]%lookup_app_Some.
  - left. split; [done|]. apply lookup_lt_Some in Hi. lia.
  - right. apply list_lookup_singleton_Some in Ha as [Hi' ->]. split; [lia|done].
Qed.

Section link.
Context (G : ghost) (m : mem) (n c f p z : Z) (v : T) (j : nat).
Context (Hsh : shared G m) (Hc : ns G !! j = Some c) (Hj : j ∉ freed G) (Hlast : j = length (items G)).
Context (Hcn : nodes m !! c = Some (Node 0 f)) (Hn0 : n ≠ 0) (Hn : nodes m !! n = Some (Node 0 p)).
Context (Hp : payloads m !! p = Some (Payload v z None None)) (Hnew : ∀ i, ns G !! i = Some n → i ∈ freed G).
Context (Hz : ∀ i it, items G !! i = Some it → i_sn it < z) (Hz2 : z < global_sn m).
Let it := Item p v z (epoch m).
Let m' := with_payloads (<[p := Payload v z (Some (epoch m)) None]> (payloads m)) (with_nodes (<[c := Node n f]> (nodes m)) m).
Let G' := link n it G.

Lemma link_ns i a : ns G' !! i = Some a → (ns G !! i = Some a ∧ (i ≤ j)%nat) ∨ (i = S j ∧ a = n).
Proof using All. by apply (ns_link G m). Qed.
Lemma link_items i x : items G' !! i = Some x → (items G !! i = Some x ∧ (i < j)%nat) ∨ (i = j ∧ x = it).
Proof using All.
  simpl. intros [Hi|[Hi Ha]]%lookup_app_Some; [left; split; [done|by apply lookup_lt_Some in Hi; lia]|].
  right. apply list_lookup_singleton_Some in Ha as [Hi' <-]. split; [lia|done].
Qed.
Lemma link_other i x : items G !! i = Some x → i ∉ freed G → i_pl x ≠ p.
Proof using All.
  intros Hi Hf Heq. pose proof (s_item _ _ Hsh _ _ Hi Hf) as Hx. rewrite Heq, Hp in Hx. discriminate.
Qed.
Lemma link_last_freed : j ∉ freed G ∧ S j ∉ freed G ∧ rets G !! j = None.
Proof using All.
  pose proof (s_len _ _ Hsh). pose proof (s_hd _ _ Hsh). pose proof (lookup_lt_Some _ _ _ (s_tail _ _ Hsh)).
  split; [done|]. split; [intros Hin%(s_freed _ _ Hsh); lia|]. apply lookup_ge_None. rewrite (s_rets _ _ Hsh). lia.
Qed.
Lemma link_it : items G' !! j = Some it.
Proof using Hlast. simpl. by apply list_lookup_middle. Qed.
Lemma link_node i a : ns G' !! i = Some a → i ∉ freed G →
  a ≠ 0 ∧ ∃ f0, nodes m' !! a = Some (Node (default 0 (ns G' !! S i)) f0) ∧ field G' i f0.
Proof using All.
  pose proof (s_len _ _ Hsh) as Hlen. intros [[Ha Hi]|[-> ->]]%link_ns Hf.
  - destruct (s_node _ _ Hsh _ _ Ha Hf) as (Ha0 & f0 & Hfa & Hfd). split; [done|]. exists f0.
    split; [|by eapply field_grows, Hfd; apply link_grows]. simpl. destruct (decide (a = c)) as [->|Hne].
    + rewrite lookup_insert_eq. assert (i = j) as -> by (eapply (s_inj _ _ Hsh); [exact Ha|exact Hc|done|done]).
      rewrite Hcn in Hfa. injection Hfa as Hd ->. rewrite lookup_app_r by lia. by replace (S j - length (ns G))%nat with 0%nat by lia.
    + rewrite lookup_insert_ne, Hfa by done. do 3 f_equal. assert (i ≠ j) by (intros ->; congruence).
      by rewrite lookup_app_l by lia.
  - split; [done|]. exists p. assert (n ≠ c) by (intros ->; by apply Hj, Hnew). simpl. rewrite lookup_insert_ne, Hn by done.
    rewrite (lookup_ge_None_2 (ns G ++ [n])) by (rewrite length_app; simpl; lia). split; [done|].
    right. left. exists j. split; [done|]. exists it. split; [apply link_it|done].
Qed.

Lemma shared_link : shared G' m'.
Proof using All.
  pose proof link_last_freed as (_ & _ & Hrj). pose proof (link_grows n it G) as Hg.
  constructor; try apply Hsh; try apply link_node.
  - simpl. rewrite !length_app, (s_len _ _ Hsh). done.
  - eapply grows_ns; [exact Hg|apply (s_head _ _ Hsh)].
  - eapply grows_ns; [exact Hg|apply (s_tail _ _ Hsh)].
  - intros i k a [[Hi _]|[-> ->]]%link_ns [[Hk _]|[-> Hk2]]%link_ns Hfi Hfk; [by eapply (s_inj _ _ Hsh)|..|done].
    + subst. by apply Hnew in Hi.
    + by apply Hnew in Hk.
  - intros i x [[Hi _]|[-> ->]]%link_items Hf; simpl.
    + rewrite lookup_insert_ne by (by eapply not_eq_sym, link_other). by apply (s_item _ _ Hsh).
    + rewrite lookup_insert_eq. unfold stored. simpl. by rewrite Hrj.
  - intros i k x y [[Hi _]|[-> ->]]%link_items [[Hk _]|[-> ->]]%link_items Heq Hfi Hfk; [by eapply (s_pinj _ _ Hsh)|..|done].
    + by destruct (link_other _ _ Hi Hfi).
    + by destruct (link_other _ _ Hk Hfk).
  - intros p' y. simpl. rewrite lookup_insert. case_decide as Hpp.
    + intros [= <-]. right. exists j, it. subst p'. split; [apply link_it|]. split; [done|].
      unfold stored. simpl. by rewrite Hrj.
    + intros [?|(i & x & Hi & ? & ?)]%(s_pay _ _ Hsh); [by left|]. right. exists i, x. split; [exact (grows_item _ _ _ _ Hg Hi)|done].
  - intros i k x y Hik [[Hi _]|[-> ->]]%link_items [[Hk Hkj]|[-> ->]]%link_items; [by apply (s_sn _ _ Hsh i k)|by apply (Hz i)|lia|lia].
  - intros i x [[Hi _]|[-> ->]]%link_items; [by apply (s_gsn _ _ Hsh i)|done].
  - intros i x [[Hi _]|[-> ->]]%link_items; [by apply (s_ep _ _ Hsh i)|simpl; lia].
Qed.
End link.

Lemma live_snoc c it its : c < i_ep it → ∀ rs, live c (its ++ [it]) rs = live c its rs.
Proof.
  intros Hc. induction its as [|x its IH]; intros rs; simpl; [|by rewrite IH].
  by rewrite (proj2 (Z.leb_gt _ _)) by lia.
Qed.

(** Nobody else holds the last node of the list as its own, or waits to retire it. *)
Lemma last_unowned pat N G s A j c u q : sim pat N G s A → ns G !! j = Some c → j = length (items G) → j ∉ freed G →
  pcs s !! u = Some q → priv q ≠ Some c ∧ pend q ≠ Some c.
Proof.
  intros HS Hj Hlast Hjf Hu. pose proof (sm_shared _ _ _ _ _ HS) as Hsh. split; intros Hh.
  - destruct (sim_priv_node _ _ _ _ _ _ _ _ HS Hu Hh) as (_ & Hin & _). by apply Hjf, Hin.
  - destruct (sim_pend_pos _ _ _ _ _ _ _ _ HS Hu Hh) as (k & Hk & Hlt & Hkf). destruct Hk as [Hk _].
    assert (k = j) as -> by (eapply (s_inj _ _ Hsh); [exact Hk|exact Hj|done|done]).
    pose proof (s_hd _ _ Hsh). pose proof (lookup_lt_Some _ _ _ (s_tail _ _ Hsh)). rewrite (s_len _ _ Hsh) in *. lia.
Qed.

(** Writing the last node and the payload of the new one is invisible to the others' private nodes. *)
Lemma link_spares pat N G s A t q j c n p nd y : sim pat N G s A → pcs s !! t = Some q → priv q = Some n →
  nodes (mm s) !! n = Some (Node 0 p) → ns G !! j = Some c → j = length (items G) → j ∉ freed G →
  spares s t (with_payloads (<[p := y]> (payloads (mm s))) (with_nodes (<[c := nd]> (nodes (mm s))) (mm s))).
Proof.
  intros HS Hq Hn Hnn Hj Hlast Hjf u q' a Hne Hu.
  destruct (last_unowned _ _ _ _ _ _ _ _ _ HS Hj Hlast Hjf Hu) as [Ho1 Ho2]. split; simpl.
  - intros Ha. rewrite lookup_insert_ne; [done|naive_solver].
  - intros nd' Ha Hnd'. destruct (sim_priv_node _ _ _ _ _ _ _ _ HS Hu Ha) as (_ & _ & p' & v' & z' & Hnd2 & _).
    rewrite Hnd' in Hnd2. injection Hnd2 as ->. rewrite lookup_insert_ne; [done|]. simpl.
    destruct (sm_apart _ _ _ _ _ HS t u _ _ (not_eq_sym Hne) Hq Hu) as [Hap _]. by eapply (Hap n a).
Qed.

(** The compare-and-swap of enqueue succeeds: the enqueue takes effect. *)
Lemma sim_link pat N G s A t n c nd new y :
  sim pat N G s A → pcs s !! t = Some (ECas n c (epoch (mm s))) →
  nodes (mm s) !! c = Some nd → nodes (mm s) !! n = Some new → payloads (mm s) !! pl new = Some y → next nd = 0 →
  ∃ A' G', aruns A [] A' ∧ sim pat N G' (Sys (with_payloads (<[pl new := set_ep (epoch (mm s)) y]> (payloads (mm s)))
    (with_nodes (<[c := Node n (pl nd)]> (nodes (mm s))) (mm s))) (<[t := EFinish n c]> (pcs s))) A'.
Proof.
  intros HS Hq Hnd Hnew Hy Hnx. pose proof (sm_gsn _ _ _ _ _ HS) as Hgs. pose proof (sm_shared _ _ _ _ _ HS) as Hsh.
  destruct (sm_thread _ _ _ _ _ HS _ _ Hq) as (x & Hx & _ & Hp & _).
  destruct (Hp n eq_refl) as (Hn0 & Hch & p & v & z & Hn & Hpl & -> & j & Hj & Hab).
  rewrite Hnew in Hn. injection Hn as ->. simpl in *. rewrite Hpl in Hy. injection Hy as <-.
  pose proof Hj as Hj'. eapply held_node in Hj' as (Hc0 & f & Hcn & _); [|exact HS|exact Hq|done].
  rewrite Hnd in Hcn. injection Hcn as ->. simpl in *. pose proof (s_len _ _ Hsh) as Hlen.
  assert (j = length (items G)) as Hlast.
  { destruct (ns G !! S j) as [b|] eqn:Hb; simpl in Hnx; [by destruct (held_after _ _ _ _ _ _ _ HS Hq eq_refl _ _ _ Hj Hb)|].
    apply lookup_ge_None in Hb. destruct Hj as [Hj%lookup_lt_Some _]. lia. }
  assert (j ∉ freed G) as Hjf by (eapply held_unfreed; [exact HS|exact Hq|done|exact Hj]).
  rewrite Hnx in Hnd. set (it := Item p v z (epoch (mm s))). pose proof (link_grows n it G) as Hg.
  exists (set_apc t (SDone None) (Ast (aq A ++ [v]) (asnap A) (apc A))), (link n it G). split.
  { eapply aruns_lin; [|constructor]. by apply lin_enq. }
  assert (shared (link n it G) (with_payloads (<[p := Payload v z (Some (epoch (mm s))) None]> (payloads (mm s)))
    (with_nodes (<[c := Node n f]> (nodes (mm s))) (mm s)))) as Hsh'.
  { eapply (shared_link _ _ n c f p z v j); try done; [apply Hj| |apply Hab]. intros i x Hi. destruct Hab as [_ Hab].
    destruct (Hab i) as (x' & Hx' & ?); [apply lookup_lt_Some in Hi; lia|]. by simplify_eq. }
  assert (spares s t (with_payloads (<[p := Payload v z (Some (epoch (mm s))) None]> (payloads (mm s)))
    (with_nodes (<[c := Node n f]> (nodes (mm s))) (mm s)))) as Hsp.
  { by eapply (link_spares _ _ _ _ _ _ _ _ _ n p _ _ HS Hq); [|exact Hnew|apply Hj|..]. }
  pose proof (s_hd _ _ Hsh). pose proof (lookup_lt_Some _ _ _ (s_tail _ _ Hsh)).
  eapply sim_moves; [exact HS|exact Hq|]. constructor; try done.
  - simpl. lia.
  - intros _. by apply (sm_since _ _ _ _ _ HS t _ Hq).
  - intros u x Hne Hxu. simpl. by rewrite list_lookup_insert_ne.
  - exists (SDone None). split; [simpl; apply list_lookup_insert_eq; by eapply lookup_lt_Some|]. split; [|by apply private_none].
    split; [done|]. exists j. split; [by eapply grows_holds|]. simpl. apply list_lookup_middle. lia.
  - intros u q x Hne Hu. apply (spares_private s t G); try done. intros a i Ha Hi.
    destruct (ns_link G (mm s) n it j i a Hsh Hlast Hi) as [[? _]|[-> ->]]; [done|].
    destruct (sm_apart _ _ _ _ _ HS t u _ _ (not_eq_sym Hne) Hq Hu) as [Hap _]. by destruct (Hap n n).
  - intros u w q q' _ Hu Hw Hpu Hpw. by apply (spares_apart s t _ u w).
  - intros a W HW. destruct (sm_retired _ _ _ _ _ HS a W HW) as (i & nx & p0 & H1 & H2 & H3 & H4 & H5 & H6).
    exists i, nx, p0. split_and!; try done; [by eapply grows_ns| |by eapply grows_own|].
    + simpl. rewrite lookup_insert_ne; [done|]. intros ->.
      assert (i = j) by (eapply (s_inj _ _ Hsh); [exact H3|apply Hj|done|done]). lia.
    + intros u q Hu Hin. apply list_lookup_insert_Some in Hu as [(<- & <- & _)|[Hne Hu]]; [by apply (H6 t _ Hq)|by apply (H6 u q)].
  - simpl. rewrite (sm_queue _ _ _ _ _ HS), drop_app_le, fmap_app by lia. done.
  - intros k Hk. apply live_snoc. done.
  - intros i x' Hi. simpl in Hi. apply lookup_app_Some in Hi as [Hi|[_ Hi]]; [by left|].
    apply list_lookup_singleton_Some in Hi as [_ <-]. by right.
Qed.

(** ** A node is dequeued *)

Definition take e G : ghost := Gh (ns G) (items G) (S (hd G)) (tl G) (rets G ++ [e]) (freed G) (since G).

Lemma take_grows e G : grows G (take e G).
Proof. split_and!; simpl; try done. lia. Qed.
Lemma live_taken c e : c < e → ∀ its rs, live c its (rs ++ [e]) = live c its rs.
Proof.
  intros Hc its. induction its as [|it its IH]; intros rs; [done|]. destruct rs as [|r rs]; simpl.
  - by rewrite (proj2 (Z.leb_gt e c)) by lia.
  - rewrite !drop_0. by rewrite IH.
Qed.

Lemma stored_take e G i it : i ≠ length (rets G) → stored (take e G) i it = stored G i it.
Proof.
  intros Hi. unfold stored. simpl. f_equal. destruct (decide (i < length (rets G))%nat); [by rewrite lookup_app_l|].
  rewrite !lookup_ge_None_2; [done|lia|rewrite length_app; simpl; lia].
Qed.

Lemma shared_take G m y it :
  shared G m → items G !! hd G = Some it → ns G !! S (hd G) = Some y → (hd G < tl G)%nat →
  shared (take (epoch m) G) (with_payloads (<[i_pl it := set_retire (epoch m) (stored G (hd G) it)]> (payloads m)) (with_head y m)).
Proof.
  intros Hsh Hit Hy Hlt. pose proof (take_grows (epoch m) G) as Hg. pose proof (s_rets _ _ Hsh) as Hr.
  assert (hd G ∉ freed G) as Hf by (intros Hin%(s_freed _ _ Hsh); lia).
  assert (stored (take (epoch m) G) (hd G) it = set_retire (epoch m) (stored G (hd G) it)) as Hst.
  { unfold stored, set_retire. simpl. f_equal. by rewrite <- Hr, list_lookup_middle. }
  constructor; try apply Hsh; simpl; try done.
  - rewrite length_app, Hr. simpl. lia.
  - intros i a Ha Hi. destruct (s_node _ _ Hsh i a Ha Hi) as (? & f & ? & ?). split; [done|]. exists f.
    split; [done|]. by eapply field_grows.
  - intros i x Hx Hi. rewrite lookup_insert. case_decide as Hp.
    + assert (i = hd G) as -> by (by apply (s_pinj _ _ Hsh i (hd G) x it)). assert (x = it) as -> by congruence. by rewrite Hst.
    + rewrite stored_take; [by apply (s_item _ _ Hsh)|]. rewrite Hr. intros ->. congruence.
  - intros p x. rewrite lookup_insert. case_decide as Hp.
    + intros [= <-]. right. exists (hd G), it. by rewrite Hst.
    + intros [?|(i & x' & Hi & Hpi & ->)]%(s_pay _ _ Hsh); [by left|]. right. exists i, x'. split_and!; try done.
      rewrite stored_take; [done|]. rewrite Hr. intros ->. congruence.
  - intros i r [Hi|[_ Hi]]%lookup_app_Some; [by apply (s_rep _ _ Hsh i)|].
    apply list_lookup_singleton_Some in Hi as [_ <-]. lia.
  - intros i Hi%(s_freed _ _ Hsh). lia.
Qed.

(** The compare-and-swap of dequeue succeeds: the dequeue takes effect. *)
Lemma sim_take pat N G s A t h y p x :
  sim pat N G s A → pcs s !! t = Some (DCas h y p (epoch (mm s))) → payloads (mm s) !! p = Some x → head (mm s) = h →
  retire x = None ∧ ∃ A' G', aruns A [] A' ∧ sim pat N G' (Sys (with_payloads (<[p := set_retire (epoch (mm s)) x]> (payloads (mm s)))
    (with_head y (mm s))) (<[t := DVal h p]> (pcs s))) A'.
Proof.
  intros HS Hq Hx Hh. pose proof (sm_gsn _ _ _ _ _ HS) as Hgs. pose proof (sm_shared _ _ _ _ _ HS) as Hsh.
  destruct (sm_thread _ _ _ _ _ HS _ _ Hq) as (sx & Hsx & ((b & ->) & j & Hj & Hy & Hlt & Hown) & _).
  assert (j = hd G) as ->.
  { eapply held_inj; [exact HS|exact Hq|done|exact Hj|]. rewrite <- Hh. by eapply holds_head. }
  destruct Hown as [(it & Hit & ->)|[? _]]; [|lia]. assert (hd G ∉ freed G) as Hf by (intros Hin%(s_freed _ _ Hsh); lia).
  rewrite (s_item _ _ Hsh _ _ Hit Hf) in Hx. injection Hx as <-. split.
  { simpl. apply lookup_ge_None. by rewrite (s_rets _ _ Hsh). }
  pose proof (take_grows (epoch (mm s)) G) as Hg. pose proof (shared_take _ _ _ _ Hsh Hit Hy Hlt) as Hsh'.
  assert (aq A = i_val it :: (i_val <$> drop (S (hd G)) (items G))) as Hqueue.
  { rewrite (sm_queue _ _ _ _ _ HS). by rewrite (drop_S _ _ _ Hit). }
  assert (∀ k, ns G !! k = Some h → k ∉ freed G → k = hd G) as Huniq.
  { intros k Hk Hkf. eapply (s_inj _ _ Hsh); [exact Hk|apply Hj|done|done]. }
  exists (set_apc t (SDone (Some (Some (i_val it)))) (Ast (i_val <$> drop (S (hd G)) (items G)) (asnap A) (apc A))), (take (epoch (mm s)) G).
  split. { eapply aruns_lin; [|constructor]. by eapply lin_deq. }
  assert (spares s t (with_payloads (<[i_pl it := set_retire (epoch (mm s)) (stored G (hd G) it)]> (payloads (mm s))) (with_head y (mm s)))) as Hsp.
  { intros u q a Hne Hu. split; [done|]. intros nd Ha Hnd. simpl.
    destruct (sim_priv_node _ _ _ _ _ _ _ _ HS Hu Ha) as (_ & _ & z & v & k & Hz & Hz2). rewrite Hnd in Hz. injection Hz as ->. simpl.
    rewrite lookup_insert_ne; [done|]. intros Heq. rewrite <- Heq, (s_item _ _ Hsh _ _ Hit Hf) in Hz2. discriminate. }
  eapply sim_moves; [exact HS|exact Hq|]. constructor; try done.
  - simpl. lia.
  - intros _. destruct (sm_since _ _ _ _ _ HS t _ Hq eq_refl) as [??]. split; [simpl; lia|done].
  - intros u z Hne Hxu. simpl. by rewrite list_lookup_insert_ne.
  - eexists. split; [simpl; apply list_lookup_insert_eq; by eapply lookup_lt_Some|]. split; [|by apply private_none].
    exists (hd G), it. split; [exact Hj|]. split; [simpl; lia|]. done.
  - intros u q z Hne Hu. by apply (spares_private s t G).
  - intros u q Hne Hu. split; [done|]. intros h1 h2 [= <-] Hh2 <-.
    destruct (sim_pend_pos _ _ _ _ _ _ _ _ HS Hu Hh2) as (k & [Hk _] & Hlt2 & Hkf). rewrite (Huniq k Hk Hkf) in Hlt2. lia.
  - intros h1 [= <-]. simpl. destruct (retired (mm s) !! h) as [W|] eqn:HW; [exfalso|done].
    destruct (sm_retired _ _ _ _ _ HS _ _ HW) as (i & nx & q & H1 & H2 & H3 & _). rewrite (Huniq i H3 H2) in H1. lia.
  - intros a W HW. destruct (retired_same _ _ _ _ _ _ _ (DVal h (i_pl it)) _ _ HS Hq eq_refl HW) as (i & nx & p0 & H1 & H2 & H3 & H4 & H5 & H6).
    exists i, nx, p0. split_and!; try done. simpl. lia.
  - intros c Hc. by apply live_taken.
  - by left.
  - intros i r Hi Hin%(s_freed _ _ Hsh). simpl in Hi. rewrite lookup_app_l in Hi; [done|]. by rewrite (s_rets _ _ Hsh).
Qed.

(** [cur_head->payload = payload]: the dequeued node keeps the payload of its
    successor. *)
Lemma sim_DKeep pat N G s A t h p r nd :
  sim pat N G s A → pcs s !! t = Some (DKeep h p r) → nodes (mm s) !! h = Some nd →
  sim pat N G (Sys (with_nodes (<[h := Node (next nd) p]> (nodes (mm s))) (mm s)) (<[t := DRetire h r]> (pcs s))) A.
Proof.
  intros HS Hq Hnd. pose proof (sm_gsn _ _ _ _ _ HS) as Hgs. pose proof (sm_shared _ _ _ _ _ HS) as Hsh.
  destruct (sm_thread _ _ _ _ _ HS _ _ Hq) as (x & Hx & (Hxd & j & Hj & Hlt & Hown) & _).
  assert (j ∉ freed G) as Hjf by (eapply held_unfreed; [exact HS|exact Hq|done|exact Hj]).
  eapply sim_moves; [exact HS|exact Hq|]. eapply (moves_same _ _ _ _ _ _ _ _ _ _ _ x HS Hq); try done.
  - destruct Hsh. constructor; simpl; try done. intros i a Ha Hi. destruct (s_node0 i a Ha Hi) as (? & f & Hf & ?).
    split; [done|]. destruct (decide (a = h)) as [->|Hne]; [|exists f; by rewrite lookup_insert_ne].
    exists p. rewrite lookup_insert_eq. rewrite Hnd in Hf. injection Hf as ->. split; [done|].
    assert (i = j) as -> by (by eapply s_inj0; [exact Ha|apply Hj|..]). by right; right.
  - intros u q a Hne Hu. split; [|done]. intros Ha. simpl. rewrite lookup_insert_ne; [done|]. intros <-.
    destruct Ha as [Ha|Ha].
    + destruct (sim_priv_node _ _ _ _ _ _ _ _ HS Hu Ha) as (_ & Hch & _). by apply Hjf, Hch, Hj.
    + destruct (sm_apart _ _ _ _ _ HS t u _ _ (not_eq_sym Hne) Hq Hu) as [_ Hap]. by apply (Hap h h).
  - simpl. lia.
  - by rewrite list_insert_id.
  - split; [done|]. by exists j.
  - split; [done|]. intros h' r' [= <- <-]. exists j, (next nd), p. simpl. by rewrite lookup_insert_eq.
  - intros u q Hne Hu. split; [done|]. intros h1 h2 [= <-] Hh2.
    destruct (sm_apart _ _ _ _ _ HS t u _ _ (not_eq_sym Hne) Hq Hu) as [_ Hap]. by apply (Hap h h2).
  - intros h' [= <-]. by apply (sm_pend _ _ _ _ _ HS t _ h Hq).
  - intros a W HW. destruct (retired_same _ _ _ _ _ _ _ (DRetire h r) _ _ HS Hq eq_refl HW) as (i & nx & p0 & H1 & H2 & H3 & H4 & H5 & H6).
    exists i, nx, p0. split_and!; try done. simpl. rewrite lookup_insert_ne; [done|]. intros <-.
    pose proof (sm_pend _ _ _ _ _ HS t _ h Hq eq_refl). simpl in HW. congruence.
Qed.

Lemma operating_elem (ps : list pc) u q : ps !! u = Some q → in_op q = true → u ∈ operating ps.
Proof.
  intros Hu Hin. unfold operating. apply elem_of_list_to_set, list_elem_of_filter. rewrite Hu. split; [done|].
  apply elem_of_seq. apply lookup_lt_Some in Hu. lia.
Qed.

(** [tracker.retire(cur_head, tid)]: it is not retired yet. *)
Lemma sim_DRetire pat N G s A t h r :
  sim pat N G s A → pcs s !! t = Some (DRetire h r) → retired (mm s) !! h = None ∧
  sim pat N G (Sys (with_retired (<[h := operating (pcs s)]> (retired (mm s))) (mm s)) (<[t := DEnd (Some r)]> (pcs s))) A.
Proof.
  intros HS Hq. pose proof (sm_gsn _ _ _ _ _ HS) as Hgs. pose proof (sm_shared _ _ _ _ _ HS) as Hsh.
  split; [by apply (sm_pend _ _ _ _ _ HS t _ h Hq)|].
  destruct (sm_thread _ _ _ _ _ HS _ _ Hq) as (x & Hx & (Hxd & j & Hj & Hlt) & _ & Hpr).
  destruct (Hpr h r eq_refl) as (k & nx & p & Hk & Hnd & Hown).
  assert (k = j) as -> by (eapply held_inj; [exact HS|exact Hq|done|exact Hk|exact Hj]).
  assert (j ∉ freed G) as Hjf by (eapply held_unfreed; [exact HS|exact Hq|done|exact Hj]).
  eapply sim_moves; [exact HS|exact Hq|]. eapply (moves_same _ _ _ _ _ _ _ _ _ _ _ x HS Hq); try done.
  - by destruct Hsh.
  - simpl. lia.
  - by rewrite list_insert_id.
  - intros u q h' Hu Hne Hh' Hnone. simpl. rewrite lookup_insert_ne; [done|]. intros <-.
    destruct (sm_apart _ _ _ _ _ HS t u _ _ (not_eq_sym Hne) Hq Hu) as [_ Hap]. by apply (Hap h h).
  - intros a W. simpl. rewrite lookup_insert. case_decide as Ha; [|by apply (retired_same _ _ _ _ _ _ _ _ _ _ HS Hq)].
    intros [= <-]. subst a. exists j, nx, p. split_and!; try done; [apply Hj|]. intros u q Hu Hin _.
    apply list_lookup_insert_Some in Hu as [(<- & <- & _)|[Hne Hu]]; [by apply (operating_elem _ t _ Hq)|by apply (operating_elem _ u q)].
Qed.

(** ** Steps that the specification sees *)

Lemma msq_sim_call pat N G s A t o :
  sim pat N G s A → pcs s !! t = Some Idle →
  apc A !! t = Some SIdle ∧ sim pat N G (Sys (mm s) (<[t := match o with Enq v => ENew v | Deq => DStart end]> (pcs s)))
    (set_apc t (match o with Enq v => SEnq v | Deq => SDeq false end) A).
Proof.
  intros HS Hq. destruct (sm_thread _ _ _ _ _ HS _ _ Hq) as (x & Hx & Hok & _). simpl in Hok. subst x. split; [done|].
  eapply sim_local; [exact HS|exact Hq|by destruct o|left; by destruct o|left; by destruct o| |].
  - destruct o; [done|by eexists].
  - destruct o; by apply private_none.
Qed.

(** [cur_head->next.load]: if it is null, the queue is empty. *)
Lemma sim_DNext pat N G s A t h c nd :
  sim pat N G s A → pcs s !! t = Some (DNext h c) → nodes (mm s) !! h = Some nd →
  ∃ A', aruns A [] A' ∧ sim pat N G (Sys (mm s) (<[t := DCheck h c (next nd)]> (pcs s))) A'.
Proof.
  intros HS Hq Hnd. pose proof (sm_shared _ _ _ _ _ HS) as Hsh.
  destruct (sm_thread _ _ _ _ _ HS _ _ Hq) as (x & Hx & ((b & ->) & j & k & Hj & Hjh & Hk & Hjk) & _).
  pose proof Hj as Hj'. eapply held_node in Hj' as (_ & f & Hf & _); [|exact HS|exact Hq|done].
  rewrite Hnd in Hf. injection Hf as ->. simpl.
  assert (default 0 (ns G !! S j) = 0 → j = length (items G)) as Hlast.
  { destruct (ns G !! S j) as [a|] eqn:Ha; simpl.
    - intros ->. by destruct (held_after _ _ _ _ _ _ _ HS Hq eq_refl _ _ _ Hj Ha).
    - intros _. apply lookup_ge_None in Ha. destruct Hj as [Hj%lookup_lt_Some _]. pose proof (s_len _ _ Hsh). lia. }
  pose proof (s_hd _ _ Hsh). pose proof (lookup_lt_Some _ _ _ (s_tail _ _ Hsh)) as Htl. rewrite (s_len _ _ Hsh) in Htl.
  exists (set_apc t (SDeq (if default 0 (ns G !! S j) =? 0 then true else b)) A). split.
  - destruct (Z.eqb_spec (default 0 (ns G !! S j)) 0) as [H0|H0]; [|rewrite set_apc_id by done; constructor].
    eapply aruns_lin; [|constructor]. eapply lin_note; [done|]. rewrite (sm_queue _ _ _ _ _ HS), drop_ge; [done|].
    rewrite <- Hlast by done. done.
  - eapply sim_local; [exact HS|exact Hq|done|by left|by left| |by apply private_none]. split.
    + eexists. split; [done|]. intros ->. done.
    + exists j, k. split_and!; try apply Hj; try done; [lia..| |].
      * by destruct (ns G !! S j).
      * intros H0%Hlast. lia.
Qed.

(** The queue was seen empty. *)
Lemma sim_DCheck_empty pat N G s A t h :
  sim pat N G s A → pcs s !! t = Some (DCheck h h 0) →
  ∃ A', aruns A [] A' ∧ sim pat N G (Sys (mm s) (<[t := DEnd None]> (pcs s))) A'.
Proof.
  intros HS Hq. destruct (sm_thread _ _ _ _ _ HS _ _ Hq) as (x & Hx & ((b & -> & Hb) & _) & _).
  rewrite Hb in Hx by done. exists (set_apc t (SDone (Some None)) A). split; [by eapply aruns_lin, aruns_nil; apply lin_empty|].
  eapply sim_local; [exact HS|exact Hq|done|by left|by left|done|by apply private_none].
Qed.

(** ** Every step *)

Lemma sim_mono pat N N' G s A : N ≤ N' → sim pat N G s A → sim pat N' G s A.
Proof. intros HN [? Hg ? ? ? ? ? ? ? ? ?]. constructor; try done. lia. Qed.

Definition simulated pat N s A (evs : list (ev T)) : Prop := ∃ A' G', aruns A evs A' ∧ sim pat (N + 1) G' s A'.

Lemma simulated_quiet pat N G s A : sim pat N G s A → simulated pat N s A [].
Proof. intros HS. exists A, G. split; [constructor|]. eapply sim_mono; [|exact HS]. lia. Qed.
Lemma simulated_lin pat N G s A A' : aruns A [] A' → sim pat N G s A' → simulated pat N s A [].
Proof. intros Hr HS. exists A', G. split; [done|]. eapply sim_mono; [|exact HS]. lia. Qed.
Lemma simulated_return pat N s A t q r :
  (∃ G, sim pat N G s A) → pcs s !! t = Some q → (∀ G g x, thread_ok G g t q x → x = SDone r) →
  simulated pat N (Sys (leave t (mm s)) (<[t := Idle]> (pcs s))) A [ERet t r].
Proof.
  intros [G HS] Hq Hx. exists (set_apc t SIdle A), G. destruct (sm_thread _ _ _ _ _ HS _ _ Hq) as (x & Ha & Hok & _).
  rewrite (Hx _ _ _ Hok) in Ha. split; [by eapply aruns_ret, aruns_nil|]. eapply sim_mono; [|by eapply sim_leave]. lia.
Qed.

(** What a thread dereferences is allocated. *)
Lemma alive_holds pat N G s A t q a j :
  sim pat N G s A → pcs s !! t = Some q → in_op q = true → holds G t a j → ∃ nd, nodes (mm s) !! a = Some nd.
Proof. intros HS Hq Hop Hj. eapply held_node in Hj as (_ & f & Hf & _); [by eexists|exact HS|exact Hq|done]. Qed.
Lemma alive_own pat N G s A t q a j p :
  sim pat N G s A → pcs s !! t = Some q → in_op q = true → holds G t a j → own G j p →
  ∃ i it, payloads (mm s) !! p = Some (stored G i it) ∧ items G !! i = Some it.
Proof. intros HS Hq Hop Hj (it & Hit & ->). exists j, it. split; [by eapply held_payload|done]. Qed.

Section thread_step.
Context (pat : bool) (N : Z) (G : ghost) (s : sys) (A : ast) (t : nat) (m' : mem) (q' : pc) (evs : list (ev T)).
Context (HS : sim pat N G s A) (HN : N + 1 < U64).
Notation stepped q a := (thread_step (operating (pcs s)) (mm s) t q a = Some (m', q', evs)).
Notation goal := (simulated pat N (Sys m' (<[t := q']> (pcs s))) A evs).

Lemma step_swing q q1 c y :
  pcs s !! t = Some q → in_op q = true → in_op q1 = true → priv q1 = None ∨ priv q1 = priv q → pend q1 = None →
  (∀ h r, q1 ≠ DRetire h r) → (∀ G g z, stamped G g t q1 z) → (∃ j, holds G t c j ∧ ns G !! S j = Some y) →
  (∀ G' g x, thread_ok G g t q x → thread_ok G' g t q1 x) → sim pat N G (Sys (mm s) (<[t := q1]> (pcs s))) A →
  simulated pat N (Sys (swing c y (mm s)) (<[t := q1]> (pcs s))) A [].
Proof using HS.
  intros Hq Hop Hop1 Hpr Hpe Hdr Hst (j & Hj & Hy) Hok Hfail. unfold swing. destruct (Z.eqb_spec (tail (mm s)) c) as [Ht|Ht].
  - edestruct (sim_swing pat N G s A t q q1 c y j HS Hq) as [G' HG]; try done. by eapply simulated_quiet.
  - by eapply simulated_quiet.
Qed.

Lemma step_enqueue n q a : pcs s !! t = Some q → (priv q = Some n ∨ q = EEnd ∨ ∃ c, q = EFinish n c) → stepped q a → goal.
Proof using HS HN.
  intros Hq Hpr Hst. destruct (sm_thread _ _ _ _ _ HS _ _ Hq) as (x & Hx & Hok & Hp).
  destruct q; destruct Hpr as [Hpr|[Hpr|[? Hpr]]]; simplify_eq/=; destruct a; simplify_eq/=.
  - eapply simulated_quiet, sim_start; try done.
  - by eapply simulated_quiet, sim_ETail.
  - exists A, G. split; [constructor|]. by apply sim_ESn.
  - destruct Hok as (j & Hj & _). edestruct alive_holds as [nd Hnd]; [exact HS|exact Hq|done|exact Hj|].
    unfold at_node in *. rewrite Hnd in *. simplify_eq. by eapply simulated_quiet, sim_ENext.
  - by eapply simulated_quiet, sim_ECheck.
  - destruct Hp as [Hp _]. destruct (Hp n eq_refl) as (_ & _ & p & v & z & Hn & Hpl & _).
    unfold at_node, at_payload in *. rewrite Hn in *. simpl in *. rewrite Hpl in *. simplify_eq.
    eapply simulated_quiet. by eapply (sim_ESet _ _ _ _ _ _ _ _ _ (Node 0 p)).
  - by eapply simulated_quiet, sim_EBegin.
  - destruct Hp as [Hp _]. destruct (Hp n eq_refl) as (_ & _ & p & v & z & Hn & Hpl & _ & j & Hj & _).
    edestruct alive_holds as [nd Hnd]; [exact HS|exact Hq|done|exact Hj|].
    unfold at_node, at_payload in *. rewrite Hnd, Hn in *. simpl in *. rewrite Hpl in *.
    destruct (Z.eqb_spec (next nd) 0) as [H0|H0]; simpl in *; [|simplify_eq; by eapply simulated_quiet, sim_ECas_fails].
    destruct (Z.eqb_spec e (epoch (mm s))) as [->|He]; simplify_eq; [|by eapply simulated_quiet, sim_ECas_fails].
    edestruct (sim_link pat N G s A t n c nd (Node 0 p)) as (A' & G' & Hr & HG); try done. by eapply simulated_lin.
  - by eapply simulated_quiet, sim_ECas_fails.
  - eapply step_swing; [exact Hq|..]; try done; [by right|by eapply sim_ESwing_fails].
  - eapply step_swing; [exact Hq|..]; try done; [by left|destruct Hok as (_ & j & ? & ?); by exists j|by intros ??? [-> _]|by eapply sim_EFinish_fails].
  - eapply (simulated_return _ _ s _ _ EEnd); [by exists G|done|done].
Qed.

(** The payload a dequeuer is about to retire is there, and not of a later epoch. *)
Lemma payload_there q h y p : pcs s !! t = Some q → (q = DBegin h y p ∨ ∃ e, q = DCas h y p e) →
  ∃ x, payloads (mm s) !! p = Some x ∧ default 0 (ep x) <=? epoch (mm s) = true.
Proof using HS.
  intros Hq Hqq. destruct (sm_thread _ _ _ _ _ HS _ _ Hq) as (x & Hx & Hok & _).
  assert (∃ j, holds G t h j ∧ ns G !! S j = Some y ∧ (own G j p ∨ own G (S j) p)) as (j & Hj & Hy & Ho).
  { destruct Hqq as [->|[e ->]]; destruct Hok as (_ & j & ? & ? & _ & [?|[_ ?]]); eauto 10. }
  assert (∃ i it, payloads (mm s) !! p = Some (stored G i it) ∧ items G !! i = Some it) as (i & it & Hp & Hi).
  { destruct Ho as [Ho|Ho]; [eapply (alive_own _ _ _ _ _ _ _ h j); [exact HS|exact Hq|by destruct Hqq as [->|[? ->]]|done..]|].
    eapply (alive_own _ _ _ _ _ _ _ y (S j)); [exact HS|exact Hq|by destruct Hqq as [->|[? ->]]|by eapply held_step|done]. }
  exists (stored G i it). split; [done|]. simpl. apply Z.leb_le. by apply (s_ep _ _ (sm_shared _ _ _ _ _ HS) i).
Qed.

Lemma step_dequeue q a : pcs s !! t = Some q → priv q = None → (∀ v, q ≠ ENew v) → q ≠ Idle → q ≠ EEnd → (∀ n c, q ≠ EFinish n c) →
  stepped q a → goal.
Proof using HS HN.
  intros Hq Hpr Hn1 Hn2 Hn3 Hn4 Hst. destruct (sm_thread _ _ _ _ _ HS _ _ Hq) as (x & Hx & Hok & Hp).
  destruct q; try done; try (by destruct (Hn1 v)); try (by destruct (Hn4 n c)); destruct a; simplify_eq/=.
  - eapply simulated_quiet, sim_start; try done.
  - by eapply simulated_quiet, sim_DHead.
  - by eapply simulated_quiet, sim_DTail.
  - destruct Hok as (_ & j & k & Hj & _). edestruct alive_holds as [nd Hnd]; [exact HS|exact Hq|done|exact Hj|].
    unfold at_node in *. rewrite Hnd in *. simplify_eq. edestruct sim_DNext as (A' & Hr & HG); [exact HS|exact Hq|exact Hnd|].
    by eapply simulated_lin.
  - destruct (decide (x0 = 0 ∧ h = c ∧ h = head (mm s))) as [(-> & -> & ->)|Hne].
    + rewrite !Z.eqb_refl. simpl. edestruct sim_DCheck_empty as (A' & Hr & HG); [exact HS|exact Hq|]. by eapply simulated_lin.
    + eapply simulated_quiet, sim_DCheck; [exact HS|exact Hq|]. destruct (decide (x0 = 0)); [|by left].
      destruct (decide (h = c)); [|by right; left]. right; right. naive_solver.
  - eapply step_swing; [exact Hq|..]; try done; [by left|by destruct Hok|by intros ??? [? _]|by eapply sim_DSwing_fails].
  - destruct Hok as (_ & j & Hj & Hy & _). edestruct alive_holds as [nd Hnd]; [exact HS|exact Hq|done|by eapply held_step|].
    unfold at_node in *. rewrite Hnd in *. simplify_eq. by eapply simulated_quiet, sim_DPayload.
  - destruct (payload_there _ h x0 p Hq) as (y & Hy & Hle); [by left|]. unfold at_payload in *. rewrite Hy, Hle in *.
    simplify_eq. by eapply simulated_quiet, sim_DBegin.
  - destruct (payload_there _ h x0 p Hq) as (y & Hy & Hle); [right; by exists e|]. unfold at_payload in *. rewrite Hy in *.
    destruct (Z.eqb_spec (head (mm s)) h) as [Hh|Hh]; simpl in *; [|simplify_eq; by eapply simulated_quiet, sim_DCas_fails].
    destruct (Z.eqb_spec e (epoch (mm s))) as [->|He]; [|simplify_eq; by eapply simulated_quiet, sim_DCas_fails].
    edestruct (sim_take pat N G s A t h x0 p y) as (Hr & A' & G' & Hru & HG); try done. rewrite Hr in *. simplify_eq. by eapply simulated_lin.
  - by eapply simulated_quiet, sim_DCas_fails.
  - destruct Hok as (j & it & Hj & _ & Hit & -> & _). unfold at_payload in *.
    pose proof (held_payload _ _ _ _ _ _ _ HS Hq eq_refl _ _ _ Hj Hit) as Hy. rewrite Hy in *. simplify_eq. by eapply simulated_quiet, sim_DVal.
  - destruct Hok as (_ & j & Hj & _). edestruct alive_holds as [nd Hnd]; [exact HS|exact Hq|done|exact Hj|].
    unfold at_node in *. rewrite Hnd in *. simplify_eq. by eapply simulated_quiet, sim_DKeep.
  - destruct (sim_DRetire _ _ _ _ _ _ _ _ HS Hq) as [Hr HG]. rewrite Hr in *. simplify_eq. by eapply simulated_quiet.
  - eapply (simulated_return _ _ s _ _ (DEnd r)); [by exists G|done|done].
Qed.

Lemma step_thread q a : pcs s !! t = Some q → stepped q a → goal.
Proof using HS HN.
  intros Hq Hst. destruct (priv q) as [n|] eqn:Hpr; [eapply (step_enqueue n); [exact Hq|by left|exact Hst]|].
  destruct q; try done; try (by eapply step_dequeue); try solve [eapply (step_enqueue 0); [exact Hq|eauto|exact Hst]].
  - destruct a; try done. destruct (msq_sim_call _ _ _ _ _ _ o HS Hq) as [Ha HG]. unfold simulated. destruct o; simplify_eq/=.
    + eexists _, G. split; [by eapply aruns_enq, aruns_nil|]. eapply sim_mono; [|exact HG]. lia.
    + eexists _, G. split; [by eapply aruns_deq, aruns_nil|]. eapply sim_mono; [|exact HG]. lia.
  - destruct a; try done. simpl in Hst. case_bool_decide as Hnew; [|done]. destruct Hnew as (? & ? & ? & ?). simplify_eq.
    by eapply simulated_quiet, sim_New.
  - eapply (step_enqueue n); [exact Hq| |exact Hst]. right. right. by exists c.
Qed.
End thread_step.

(** The end of an epoch *)
Lemma live_all c its : (∀ it, it ∈ its → i_ep it ≤ c) → ∀ rs, (∀ r, r ∈ rs → r ≤ c) → live c its rs = drop (length rs) its.
Proof.
  induction its as [|it its IH]; intros Hi rs Hr; [by rewrite drop_nil|]. simpl.
  rewrite (proj2 (Z.leb_le _ _)) by (apply Hi; by left). simpl. destruct rs as [|r rs]; simpl.
  - f_equal. rewrite IH; [done|intros; apply Hi; by right|done].
  - rewrite (proj2 (Z.leb_le r c)) by (apply Hr; by left). simpl. rewrite drop_0. apply IH; [intros; apply Hi; by right|].
    intros. apply Hr. by right.
Qed.

Lemma msq_sim_advance pat N G s A :
  sim pat N G s A →
  sim pat N G (Sys (with_epoch (epoch (mm s) + 1) (mm s)) (pcs s)) (Ast (aq A) (aq A :: asnap A) (apc A)).
Proof.
  intros HS. pose proof (sm_shared _ _ _ _ _ HS) as Hsh. destruct HS as [H1 H2 H3 H4 H5 H6 H7 H8 H9 H10 H11].
  constructor; simpl; try done.
  - destruct Hsh. constructor; simpl; try done; [intros i it Hi; specialize (s_ep0 i it Hi); lia|].
    intros i r Hr. specialize (s_rep0 i r Hr). lia.
  - intros [|j] l; simpl.
    + intros [= <-]. rewrite live_all; [by rewrite (s_rets _ _ Hsh)|..].
      * intros it [i Hi]%list_elem_of_lookup. specialize (s_ep _ _ Hsh i it Hi). lia.
      * intros r [i Hi]%list_elem_of_lookup. specialize (s_rep _ _ Hsh i r Hi). lia.
    + intros Hj. rewrite (H9 j l Hj). do 2 f_equal. lia.
  - intros i it Hi. specialize (H10 i it Hi). lia.
  - intros Hp i r Hi Hr. specialize (H11 Hp i r Hi Hr). lia.
Qed.

(** A retired node is destructed: nobody holds it. *)
Definition free (i : nat) G : ghost :=
  Gh (ns G) (items G) (hd G) (tl G) (rets G) ({[i]} ∪ freed G) (since G).

(** What [destruct_node] does to a node at the position [i] *)
Lemma shared_free G m m' i a it :
  shared G m → ns G !! i = Some a → i ∉ freed G → (i < hd G)%nat → items G !! i = Some it →
  nodes m' = delete a (nodes m) → (payloads m' = payloads m ∨ payloads m' = delete (i_pl it) (payloads m)) →
  head m' = head m → tail m' = tail m → global_sn m' = global_sn m → epoch m' = epoch m → fault m' = fault m →
  shared (free i G) m'.
Proof.
  intros Hsh Ha Hi Hlt Hit Hn Hp Hh Ht Hg He Hf. destruct Hsh.
  constructor; simpl; rewrite ?Hh, ?Ht, ?Hg, ?He, ?Hf, ?Hn; try done.
  - intros k b Hb Hk. rewrite not_elem_of_union, not_elem_of_singleton in Hk. destruct Hk as [Hki Hk].
    rewrite lookup_delete_ne; [by apply s_node0|]. intros <-. by apply Hki, (s_inj0 k i a).
  - intros k l b Hk Hl Hkf Hlf. apply (s_inj0 k l b); set_solver.
  - intros k x Hx Hk. rewrite not_elem_of_union, not_elem_of_singleton in Hk. destruct Hk as [Hki Hk].
    destruct Hp as [->| ->]; [by apply s_item0|]. rewrite lookup_delete_ne; [by apply s_item0|].
    intros Heq. by apply Hki, (s_pinj0 k i x it).
  - intros k l x y Hx Hy Heq Hk Hl. apply (s_pinj0 k l x y); set_solver.
  - intros p y. destruct Hp as [->| ->]; [apply s_pay0|]. intros [_ Hy]%lookup_delete_Some. by apply s_pay0.
  - intros k [->%elem_of_singleton|Hk]%elem_of_union; [done|by apply s_freed0].
Qed.

Lemma destruct_retired G m a W ps :
  shared G m → guarded G ps m a W → ∃ i it nx r, (i < hd G)%nat ∧ i ∉ freed G ∧ ns G !! i = Some a ∧ items G !! i = Some it ∧
    nodes m !! a = Some (Node nx (i_pl it)) ∧ payloads m !! i_pl it = Some (stored G i it) ∧ rets G !! i = Some r ∧
    destruct_node a m = with_retired (delete a (retired m)) (with_nodes (delete a (nodes m))
      (with_payloads (if i_ep it <? epoch m - 1 then delete (i_pl it) (payloads m) else payloads m) m)) ∧
    ∀ u q, ps !! u = Some q → in_op q = true → (since G u ≤ i)%nat → u ∈ W.
Proof.
  intros Hsh (i & nx & p & H1 & H2 & H3 & H4 & (it & Hit & ->) & H6). exists i, it, nx.
  destruct (lookup_lt_is_Some_2 (rets G) i) as [r Hr]; [by rewrite (s_rets _ _ Hsh)|]. exists r.
  pose proof (s_item _ _ Hsh _ _ Hit H2) as Hp. split_and!; try done.
  unfold destruct_node. rewrite H4. simpl. rewrite Hp. unfold stored. by rewrite Hr.
Qed.

Lemma sim_destruct pat N G s A a :
  sim pat N G s A → retired (mm s) !! a = Some ∅ →
  (pat = true → ∀ nd x r, nodes (mm s) !! a = Some nd → payloads (mm s) !! pl nd = Some x → retire x = Some r → r ≤ epoch (mm s) - 2) →
  ∃ G', sim pat N G' (Sys (destruct_node a (mm s)) (pcs s)) A.
Proof.
  intros HS HW Hpat. pose proof (sm_shared _ _ _ _ _ HS) as Hsh.
  destruct (destruct_retired _ _ _ _ _ Hsh (sm_retired _ _ _ _ _ HS _ _ HW)) as (i & it & nx & r & Hi & Hif & Ha & Hit & Hn & Hp & Hr & -> & Hguard).
  assert (∀ u q, pcs s !! u = Some q → in_op q = true → (i < since G u)%nat) as Hsince.
  { intros u q Hu Hin. destruct (decide (since G u ≤ i)%nat); [|lia]. specialize (Hguard u q Hu Hin). set_solver. }
  assert (∀ u q n, pcs s !! u = Some q → priv q = Some n ∨ pend q = Some n → n ≠ a) as Hoth.
  { intros u q n Hu [Hpr|Hpe] ->.
    - destruct (sim_priv_node _ _ _ _ _ _ _ _ HS Hu Hpr) as (_ & Hch & _). by apply Hif, Hch.
    - pose proof (sm_pend _ _ _ _ _ HS u q a Hu Hpe). congruence. }
  exists (free i G). constructor; simpl; try apply HS.
  - by eapply shared_free; try done; simpl; [case_match; [by right|by left]].
  - intros u q Hu Hin. destruct (sm_since _ _ _ _ _ HS u q Hu Hin) as [? Hf]. split; [done|].
    intros k [->%elem_of_singleton|Hk]%elem_of_union; [by eapply Hsince|by apply Hf].
  - intros u q Hu. destruct (sm_thread _ _ _ _ _ HS u q Hu) as (x & Hx & Hok & Hpr & Hdr). exists x. split; [done|]. split; [done|]. split.
    + intros n Hpn. destruct (Hpr n Hpn) as (? & Hch & p & v & z & Hnd & Hpl & ? & ?). split; [done|].
      split; [intros k Hk; simpl; set_solver|]. exists p, v, z. simpl. rewrite lookup_delete_ne by (eapply not_eq_sym, Hoth; [exact Hu|by left]).
      split; [done|]. split; [|done]. case_match; [|done]. rewrite lookup_delete_ne; [done|]. intros <-. rewrite Hp in Hpl. discriminate.
    + intros h x' ->. destruct (Hdr h x' eq_refl) as (j & nx' & p & ? & Hnd & ?). exists j, nx', p. simpl.
      rewrite lookup_delete_ne by (eapply not_eq_sym, Hoth; [exact Hu|by right]). done.
  - intros u v q q' Huv Hu Hv. destruct (sm_apart _ _ _ _ _ HS u v q q' Huv Hu Hv) as [H1 H2]. split; [|done].
    intros n n' Hpn Hpn'. simpl. assert (a ≠ n ∧ a ≠ n') as [??] by (split; apply not_eq_sym; [apply (Hoth u q)|apply (Hoth v q')]; auto).
    rewrite !lookup_delete_ne by done. by apply H1.
  - intros u q h Hu Hh. rewrite lookup_delete_ne by (eapply not_eq_sym, Hoth; [eassumption|by right]).
    by apply (sm_pend _ _ _ _ _ HS u q).
  - intros b W [Hne Hb]%lookup_delete_Some. destruct (sm_retired _ _ _ _ _ HS b W Hb) as (k & nx' & p & H1 & H2 & H3 & H4 & H5 & H6).
    exists k, nx', p. simpl. split_and!; try done; [set_solver|by rewrite lookup_delete_ne].
  - intros Hpt k x Hk Hx. apply elem_of_union in Hk as [->%elem_of_singleton|Hk]; [|by eapply (sm_patient _ _ _ _ _ HS)].
    rewrite Hr in Hx. injection Hx as <-. by eapply (Hpat Hpt _ _ r Hn Hp).
Qed.
End inv.
End MSQueueInv.
