(* ===== verification/MSQueueLin.v ===== *)
(** * Linearizability and durability of the nonblocking queue

    Runs of [MSQueue] against the atomic queue, by the invariant of [MSQueueInv];
    what the payloads in memory say about the queue two epochs ago; and a run in which
    reclamation destroys a durable element. *)

From S2P Require Import Prelude MQueue MSQueue MSQueueInv.
Import MSQueue MSQueueInv.

Module MSQueueLin.
Section lin.
Context {T : Type}.
Notation mem := (mem T).
Notation sys := (sys T).
Implicit Types (m : mem) (s : sys) (A : ast T) (G : ghost (T := T)).

(** The payload of a destructed node was retired two epochs ago. *)
Definition patient_step s (x : sact T) : bool :=
  match x with
  | Destruct a =>
      match nodes (mm s) !! a with
      | Some nd => match payloads (mm s) !! pl nd with
                   | Some (Payload _ _ _ (Some r)) => r <=? epoch (mm s) - 2
                   | _ => true
                   end
      | None => true
      end
  | _ => true
  end.
Fixpoint patient s (tr : list (sact T)) : bool :=
  match tr with
  | [] => true
  | x :: tr' => patient_step s x && match step s x with Some (s1, _) => patient s1 tr' | None => true end
  end.

(** The elements linked after the node [a] *)
Inductive linked m : Z → list T → Prop :=
  | linked_end a f : nodes m !! a = Some (Node 0 f) → linked m a []
  | linked_next a f b nx p y vs : nodes m !! a = Some (Node b f) → b ≠ 0 → nodes m !! b = Some (Node nx p) →
      payloads m !! p = Some y → linked m b vs → linked m a (val y :: vs).

(** What a crash with the cutoff [c] brings back *)
Definition survives (c : Z) (y : payload T) : option (T * Z) :=
  match ep y with
  | Some e => if (e <=? c) && negb (match retire y with Some r => r <=? c | None => false end) then Some (val y, sn y) else None
  | None => None
  end.
Definition recovered m : gmap Z (T * Z) := omap (survives (epoch m - 2)) (payloads m).

(** ** Runs *)

Lemma msq_sim_step pat N G s A x s' evs :
  sim pat N G s A → N + 1 < U64 → (pat = true → patient_step s x = true) → step s x = Some (s', evs) →
  simulated pat N s' A evs.
Proof.
  intros HS HN Hpat Hst. destruct x as [t a| |a]; simpl in Hst.
  - apply bind_Some in Hst as (q & Hq & Hst). apply bind_Some in Hst as ([[m' q'] evs'] & Hts & Hst). simplify_eq.
    by eapply step_thread.
  - simplify_eq. eapply simulated_lin; [|by apply msq_sim_advance]. eapply aruns_lin; [apply lin_advance|constructor].
  - destruct (retired (mm s) !! a) as [W|] eqn:HW; [|done]. case_bool_decide as HWe; [|done]. simplify_eq.
    destruct (sim_destruct pat N G s A a HS HW) as [G' HG]; [|by eapply simulated_quiet].
    intros Hp nd y r Hnd Hy Hr. specialize (Hpat Hp). simpl in Hpat. rewrite Hnd, Hy in Hpat.
    destruct y as [v z e r']. simpl in Hr. subst r'. by apply Z.leb_le.
Qed.

Lemma msq_sim_run pat tr : ∀ N G s A s' evs,
  sim pat N G s A → N + Z.of_nat (length tr) < U64 → (pat = true → patient s tr = true) → run s tr = Some (s', evs) →
  ∃ A' G' N', aruns A evs A' ∧ sim pat N' G' s' A'.
Proof.
  induction tr as [|x tr IH]; intros N G s A s' evs HS HN Hpat Hr; simpl in Hr.
  - simplify_eq. exists A, G, N. split; [constructor|done].
  - apply bind_Some in Hr as ([s1 evs1] & Hst & Hr). apply bind_Some in Hr as ([s2 evs2] & Hr2 & Hr). simplify_eq.
    simpl in HN, Hpat. rewrite Hst in Hpat.
    destruct (msq_sim_step _ _ _ _ _ _ _ _ HS ltac:(lia) (λ H, proj1 (andb_prop _ _ (Hpat H))) Hst) as (A1 & G1 & Hr1 & HS1).
    destruct (IH _ _ _ _ _ _ HS1 ltac:(lia) (λ H, proj2 (andb_prop _ _ (Hpat H))) Hr2) as (A2 & G2 & N2 & Hr3 & HS2).
    exists A2, G2, N2. split; [by eapply msq_aruns_app|done].
Qed.

Lemma sim_new pat d e n : d ≠ 0 → sim (T := T) pat 0 (Gh [d] [] 0 0 [] ∅ (λ _, 0%nat)) (new_queue d e n) (new_spec n).
Proof.
  intros Hd. assert (∀ u q, pcs (new_queue (T := T) d e n) !! u = Some q → q = Idle) as Hidle.
  { intros u q Hq. by apply lookup_replicate in Hq as [-> _]. }
  constructor; simpl; try done.
  - constructor; simpl; try done.
    + intros [|i] a; [|done]. intros [= <-] _. split; [done|]. exists 0. rewrite lookup_singleton_eq. split; [done|by left].
    + intros [|i] [|j] a Hi Hj; done.
  - intros u q Hq. pose proof Hq as ->%Hidle. exists SIdle. apply lookup_replicate in Hq as [_ Hu].
    split; [by apply lookup_replicate|]. split; [done|by apply private_none].
  - intros u v q q' _ ->%Hidle ->%Hidle. by split.
Qed.

(** The list of nodes, read from memory *)
Lemma sim_linked pat N G s A : sim pat N G s A → linked (mm s) (head (mm s)) (aq A).
Proof.
  intros HS. pose proof (sm_shared _ _ _ _ _ HS) as Hsh. rewrite (sm_queue _ _ _ _ _ HS).
  assert (∀ k i a, (k + i = length (items G))%nat → (hd G ≤ i)%nat → ns G !! i = Some a →
    linked (mm s) a (i_val <$> drop i (items G))) as Hl.
  { induction k as [|k IH]; intros i a Hk Hi Ha.
    - destruct (s_node _ _ Hsh i a Ha) as (_ & f & Hf & _); [intros Hin%(s_freed _ _ Hsh); lia|].
      rewrite lookup_ge_None_2 in Hf by (rewrite (s_len _ _ Hsh); lia). rewrite drop_ge by lia. by eapply linked_end.
    - destruct (s_node _ _ Hsh i a Ha) as (_ & f & Hf & _); [intros Hin%(s_freed _ _ Hsh); lia|].
      destruct (lookup_lt_is_Some_2 (items G) i) as [it Hit]; [lia|].
      destruct (lookup_lt_is_Some_2 (ns G) (S i)) as [b Hb]; [rewrite (s_len _ _ Hsh); lia|]. rewrite Hb in Hf.
      destruct (s_node _ _ Hsh (S i) b Hb) as (Hb0 & p & Hp & Hfd); [intros Hin%(s_freed _ _ Hsh); lia|].
      destruct Hfd as [?|[(k' & [= <-] & it' & Hit' & ->)|[? _]]]; [done| |lia]. simplify_eq.
      rewrite (drop_S _ _ _ Hit). simpl. change (i_val it) with (val (stored G i it)). eapply linked_next; try done.
      + apply (s_item _ _ Hsh); [done|]. intros Hin%(s_freed _ _ Hsh). lia.
      + apply IH; [lia|lia|done]. }
  apply (Hl (length (items G) - hd G)%nat); [|done|apply (s_head _ _ Hsh)].
  pose proof (s_hd _ _ Hsh). pose proof (lookup_lt_Some _ _ _ (s_tail _ _ Hsh)). rewrite (s_len _ _ Hsh) in *. lia.
Qed.

(** ** What the payloads say *)

Lemma live_elem c it its : ∀ rs, it ∈ live (T := T) c its rs ↔
  ∃ i, its !! i = Some it ∧ i_ep it ≤ c ∧ ∀ r, rs !! i = Some r → c < r.
Proof.
  induction its as [|x its IH]; intros rs; simpl; [split; [by intros ?%elem_of_nil|by intros (? & ? & _)]|].
  assert (it ∈ live c its (drop 1 rs) ↔ ∃ i, its !! i = Some it ∧ i_ep it ≤ c ∧ ∀ r, rs !! S i = Some r → c < r) as IH'.
  { rewrite IH. by setoid_rewrite lookup_drop. }
  destruct (Z.leb_spec (i_ep x) c), (match rs with r :: _ => r <=? c | [] => false end) eqn:Hr; simpl; rewrite ?elem_of_cons, IH'.
  - split; [intros (i & ? & ? & ?); by exists (S i)|]. intros ([|i] & Hi & ? & Hc); [|by exists i].
    destruct rs as [|r rs]; [done|]. specialize (Hc r eq_refl). lia.
  - split; [|intros ([|i] & Hi & ? & Hc); [left; by simplify_eq/=|right; by exists i]].
    intros [->|(i & ? & ? & ?)]; [exists 0%nat|by exists (S i)]. split; [done|]. split; [done|].
    intros r Hr0. destruct rs as [|r' rs]; simplify_eq/=. lia.
  - split; [intros (i & ? & ? & ?); by exists (S i)|]. intros ([|i] & Hi & ? & Hc); [simplify_eq/=; lia|by exists i].
  - split; [intros (i & ? & ? & ?); by exists (S i)|]. intros ([|i] & Hi & ? & Hc); [simplify_eq/=; lia|by exists i].
Qed.

Definition older (x y : item (T := T)) : Prop := i_sn x < i_sn y.
Lemma items_sorted (its : list item) :
  (∀ i j x y, (i < j)%nat → its !! i = Some x → its !! j = Some y → older x y) → StronglySorted older its.
Proof.
  induction its as [|x its IH]; intros H; constructor.
  - apply IH. intros i j y z Hij Hy Hz. by apply (H (S i) (S j)); [lia|..].
  - apply Forall_forall. intros y [i Hi]%list_elem_of_lookup. by apply (H 0%nat (S i)); [lia|..].
Qed.
Lemma live_sorted c its : StronglySorted older its → ∀ rs, StronglySorted older (live c its rs).
Proof.
  induction 1 as [|x its Hs IH Hf]; intros rs; simpl; [constructor|]. case_match; [|done]. constructor; [done|].
  rewrite Forall_forall in *. intros y (i & Hi & _)%live_elem. apply Hf. by eapply list_elem_of_lookup_2.
Qed.
Lemma sorted_NoDup l : StronglySorted older l → NoDup l.
Proof.
  induction 1 as [|x l Hs IH Hf]; constructor; [|done]. intros Hx. rewrite Forall_forall in Hf. specialize (Hf _ Hx). unfold older in Hf. lia.
Qed.

(** Which items survive is to be read off their payloads. *)
Lemma survives_stored G c i it : survives c (stored G i it) = Some (i_val it, i_sn it) ↔
  i_ep it ≤ c ∧ ∀ r, rets G !! i = Some r → c < r.
Proof.
  unfold survives, stored. simpl. destruct (Z.leb_spec (i_ep it) c) as [H|H]; simpl.
  - destruct (rets G !! i) as [r|]; simpl; [|naive_solver]. destruct (Z.leb_spec r c); simpl; split; try done.
    + intros [_ Hr]. specialize (Hr r eq_refl). lia.
    + intros _. split; [done|]. by intros ? [= <-].
  - split; [done|lia].
Qed.

Definition entry (it : item (T := T)) : Z * (T * Z) := (i_pl it, (i_val it, i_sn it)).

Lemma recovered_live N G s A p x : sim true N G s A →
  recovered (mm s) !! p = Some x ↔ (p, x) ∈ entry <$> live (epoch (mm s) - 2) (items G) (rets G).
Proof.
  intros HS. pose proof (sm_shared _ _ _ _ _ HS) as Hsh. set (c := epoch (mm s) - 2).
  unfold recovered. rewrite lookup_omap, list_elem_of_fmap. split.
  - intros (y & Hy & Hs)%bind_Some. destruct (s_pay _ _ Hsh p y Hy) as [He|(i & it & Hi & <- & ->)].
    { unfold survives in Hs. by rewrite He in Hs. }
    assert (x = (i_val it, i_sn it)) as ->.
    { unfold survives, stored in Hs. simpl in Hs. case_match; by simplify_eq. }
    exists it. split; [done|]. apply survives_stored in Hs as [??]. apply live_elem. by exists i.
  - intros (it & Heq & (i & Hi & He & Hr)%live_elem). injection Heq as -> ->.
    rewrite (s_item _ _ Hsh i it Hi); [by apply survives_stored|]. intros Hf.
    pose proof (s_freed _ _ Hsh i Hf) as Hlt. rewrite <- (s_rets _ _ Hsh) in Hlt.
    apply lookup_lt_is_Some in Hlt as [r Hri]. specialize (Hr r Hri). pose proof (sm_patient _ _ _ _ _ HS eq_refl i r Hf Hri). lia.
Qed.

Lemma sim_durable N G s A : sim true N G s A → q_gen (recovered (mm s)) (default [] (asnap A !! 1%nat)).
Proof.
  intros HS. pose proof (sm_shared _ _ _ _ _ HS) as Hsh. set (l := live (epoch (mm s) - 2) (items G) (rets G)).
  assert (StronglySorted older l) as Hsort by (apply live_sorted, items_sorted; intros i j x y; apply (s_sn _ _ Hsh)).
  assert (NoDup (entry <$> l).*1) as Hnd.
  { rewrite <- list_fmap_compose. apply NoDup_fmap_2_strong; [|by apply sorted_NoDup]. intros x y Hx Hy Heq. simpl in Heq.
    assert (∀ z, z ∈ l → ∃ i, items G !! i = Some z ∧ i ∉ freed G) as Hz.
    { intros z (i & Hi & _ & Hr)%live_elem. exists i. split; [done|]. intros Hf.
      pose proof (s_freed _ _ Hsh i Hf) as Hlt. rewrite <- (s_rets _ _ Hsh) in Hlt. apply lookup_lt_is_Some in Hlt as [r Hri].
      specialize (Hr r Hri). pose proof (sm_patient _ _ _ _ _ HS eq_refl i r Hf Hri). lia. }
    destruct (Hz x Hx) as (i & Hi & Hif), (Hz y Hy) as (j & Hj & Hjf).
    assert (i = j) by (by apply (s_pinj _ _ Hsh i j x y)). congruence. }
  exists (entry <$> l). split; [|split; [done|split]].
  - apply map_eq. intros p. apply option_eq. intros x. rewrite (recovered_live _ _ _ _ _ _ HS). by apply elem_of_list_to_map.
  - rewrite <- !list_fmap_compose. destruct (asnap A !! 1%nat) as [q|] eqn:Hq; simpl.
    + rewrite (sm_snap _ _ _ _ _ HS _ _ Hq). unfold l. replace (epoch (mm s) - 1 - Z.of_nat 1) with (epoch (mm s) - 2) by lia.
      by apply list_fmap_ext.
    + destruct l as [|it l'] eqn:Hl; [done|]. assert (it ∈ l) as Hin by (rewrite Hl; by left).
      apply live_elem in Hin as (i & Hi & He & _). pose proof (sm_old _ _ _ _ _ HS _ _ Hi). apply lookup_ge_None in Hq. lia.
  - rewrite <- !list_fmap_compose. clear Hnd. induction Hsort as [|x l' Hs IH Hf]; simpl; constructor; [done|].
    apply Forall_fmap. eapply Forall_impl; [exact Hf|]. done.
Qed.
End lin.
End MSQueueLin.



(** ** Runs *)

Module Example.
Notation go t k := (replicate k (Th t Go)).

(** Two threads.  The second enqueuer finds the tail behind and helps; a
    dequeue fails when the epoch changes under it, another one finds the queue empty;
    the first dummy is destructed and its address used again. *)
Definition busy : list (sact Z) :=
  [Th 0 (Call (Enq 7)); Th 0 (New 1 2)] ++ go 0 8 ++ [Th 1 (Call (Enq 8)); Th 1 (New 3 4)] ++ go 1 15 ++ go 0 2 ++ [Advance] ++
  [Th 1 (Call Deq)] ++ go 1 7 ++ [Advance] ++ go 1 12 ++ [Th 0 (Call Deq)] ++ go 0 12 ++ [Th 0 (Call Deq)] ++ go 0 6 ++
  [Destruct 100; Th 1 (Call (Enq 9)); Th 1 (New 100 6)] ++ go 1 10.
Definition busy_events : list (ev Z) :=
  [ECall 0 (Enq 7); ECall 1 (Enq 8); ERet 1 None; ERet 0 None; ECall 1 Deq; ERet 1 (Some (Some 7)); ECall 0 Deq;
   ERet 0 (Some (Some 8)); ECall 0 Deq; ERet 0 (Some None); ECall 1 (Enq 9); ERet 1 None].


(** Two elements, of which the first is dequeued one epoch before the end and destructed later *)
Definition calm : list (sact Z) :=
  [Th 0 (Call (Enq 7)); Th 0 (New 1 2)] ++ go 0 10 ++ [Advance; Th 1 (Call (Enq 8)); Th 1 (New 3 4)] ++ go 1 10 ++
  [Advance; Th 1 (Call Deq)] ++ go 1 12 ++ [Advance; Advance; Destruct 100; Th 0 (Call Deq)] ++ go 0 12.


(** C36. Reclamation can destroy a durable element.  An element is enqueued in
    epoch 5 and still in the queue at the ends of the epochs 6 and 7; in epoch 8 it is dequeued, and
    the node it is attached to is destructed: [reclaim_pblk] looks at the epoch of the payload, not of its
    retirement, and deallocates it at once.  Before, a crash in epoch 8 would bring
    the queue of the end of epoch 6 back; afterwards it loses the element. *)
Theorem msq_reclaim_loses_element :
  let tr := [Th 0 (Call (Enq 7)); Th 0 (New 1 2)] ++ go 0 10 ++ [Advance; Advance; Advance; Th 1 (Call Deq)] ++ go 1 12 in
  ∃ s1 s2 evs, run (new_queue 100 5 2) tr = Some (s1, evs) ∧ step s1 (Destruct 100) = Some (s2, []) ∧
    epoch (mm s1) = 8 ∧ epoch (mm s2) = 8 ∧
    MSQueueLin.recovered (mm s1) = {[2 := (7, 0)]} ∧ MSQueueLin.recovered (mm s2) = ∅.
Proof. vm_compute. do 3 eexists. split_and!; reflexivity. Qed.
End Example.
