(* ===== verification/LfHashTable.v ===== *)
(** * MontageLfHashTable (src/rideables/MontageLfHashTable.hpp)

    The nonblocking hash table of Michael over [atomic_lin_var] and
    [RCUTracker], with any number of threads: a program position per shared
    access.  A bucket is a linked list sorted by key; the lowest bit of a link marks
    the node that holds it as deleted; [findNode] unlinks the marked nodes it meets.  [put] and
    [replace] link the new node behind the old one in the step that marks the old one.
    What the code uses is taken at the level of the theorems about it, as in [MSQueue]:
    an [atomic_lin_var] is an atomic register whose compare-and-swaps may fail
    without reason and whose [CAS_verify] succeeds only in the epoch of the
    operation, which it brackets with [begin_op] and [end_op] or [abort_op]; what
    [end_op] does after the commit is part of the successful step; a retired node is destructed
    only when every thread that was in an operation when it was retired has left
    that operation.

    [std::hash] and the key type are parameters; [key] and [payload] of a node are
    constant, and are read together with the access before.  Addresses of freed
    nodes and payloads may be used again.  A dereference of memory that is not
    allocated, a second retirement of a node, and an exception set [fault]. *)

From S2P Require Import Prelude.

Module LfHashTable.

(** ** Links with marks *)

Definition MARK_MASK : Z := Z.lnot 1.
Definition getPtr (d : Z) : Z := Z.land d MARK_MASK.
Definition getMark (d : Z) : bool := Z.testbit d 0.
Definition setMark (d : Z) : Z := Z.lor d 1.

Section table.
Context {K V : Type} `{!EqDecision K} (lt : K → K → Prop) `{!RelDecision lt}.
Context (hash_fn : K → Z) (idxSize : Z).

(** [Payload], with the epoch of the operation that published it and, when it
    has been retired, the epoch of its anti-node *)
Record payload : Type := Payload { pkey : K; pval : V; ep : option Z; retire : option Z }.
Record node : Type := Node { next : Z; pl : Z; key : K }.

Record mem : Type := Mem {
  nodes : gmap Z node;
  payloads : gmap Z payload;
  buckets : list Z;
  epoch : Z;
  (** the retired nodes, each with the threads that have to leave their operation *)
  retired : gmap Z (gset nat);
  fault : bool;
}.

Definition idx (k : K) : nat := Z.to_nat (hash_fn k mod idxSize).

(** A [MarkPtr*]: a bucket or the link of a node *)
Inductive loc : Type := Bkt (i : nat) | Nxt (a : Z).
#[global] Instance loc_eq_dec : EqDecision loc.
Proof. solve_decision. Defined.

Inductive op : Type := Get (k : K) | Put (k : K) (v : V) | Insert (k : K) (v : V) | Remove (k : K) | Replace (k : K) (v : V).
Inductive ret : Type := RVal (x : option V) | RBool (b : bool).
Definition okey (o : op) : K := match o with Get k | Put k _ | Insert k _ | Remove k | Replace k _ => k end.
(** The value of the node that the operation allocates first *)
Definition oval (o : op) : option V := match o with Put _ v | Insert _ v | Replace _ v => Some v | _ => None end.

Inductive ev : Type :=
  | ECall (t : nat) (o : op)
  | ERet (t : nat) (r : ret).

(** What [findNode] returns to: the operation with its [tmpNode] and, when the
    operation has taken effect and only cleans up, its result *)
Record ctx : Type := Ctx { co : op; cn : Z; cr : option ret }.

(** Where a thread is: at the next shared access of [findNode] ([p] is [prev],
    [a] is [curr], [w] the word read from its link, [x] the local [next]) or of an operation
    ([n] is [tmpNode]). *)
Inductive pc : Type :=
  | Idle
  | ONew (o : op)  (** [new Node(this, key, val, nullptr)] *)
  | OStart (o : op) (n : Z)  (** [tracker.start_op] *)
  | FHead (c : ctx)  (** [curr = getPtr(prev->ptr.load(this))] *)
  | FNext (c : ctx) (p : loc) (a : Z)  (** [next = curr->next.ptr.load(this)], [ckey = curr->get_key()] *)
  | FCheck (c : ctx) (p : loc) (a w : Z) (ckey : K)  (** [prev->ptr.load(this) != curr] *)
  | FUnlink (c : ctx) (p : loc) (a x : Z)  (** [prev->ptr.CAS(this, curr, next)] *)
  | FRetire (c : ctx) (p : loc) (a x : Z)  (** [tracker.retire(curr, tid)] *)
  | OStore (o : op) (n : Z) (p : loc) (a x : Z) (found : bool)  (** [tmpNode->next.ptr.store] *)
  | OVal (o : op) (n : Z) (p : loc) (a x : Z)  (** [curr->get_unsafe_val()], [curr->retire_payload()] *)
  | OBegin (o : op) (n : Z) (p : loc) (a x : Z) (old : option (Z * V))  (** [begin_op] of [CAS_verify], with the anti-node *)
  | OCas (o : op) (n : Z) (p : loc) (a x : Z) (old : option (Z * V)) (e : Z)  (** its compare-and-swap *)
  | OUnlink (o : op) (n : Z) (p : loc) (a b : Z) (r : ret)  (** [prev->ptr.CAS(this, curr, ...)] *)
  | ORetire (a : Z) (r : ret)  (** [tracker.retire(curr, tid)] *)
  | ODelete (o : op) (n : Z) (r : ret)  (** [delete tmpNode] *)
  | OEnd (r : ret).  (** [tracker.end_op] *)

(** Between [start_op] and [end_op] *)
Definition in_op (q : pc) : bool := match q with Idle | ONew _ | OStart _ _ => false | _ => true end.

Inductive act : Type :=
  | Call (o : op)
  | New (n p : Z)  (** the allocator's choice *)
  | Go
  | Give_up.  (** a compare-and-swap returns false *)

(** ** Memory *)

Definition failed (m : mem) : mem := Mem (nodes m) (payloads m) (buckets m) (epoch m) (retired m) true.
Definition with_nodes (ns : gmap Z node) (m : mem) : mem := Mem ns (payloads m) (buckets m) (epoch m) (retired m) (fault m).
Definition with_payloads (ps : gmap Z payload) (m : mem) : mem := Mem (nodes m) ps (buckets m) (epoch m) (retired m) (fault m).
Definition with_buckets (bs : list Z) (m : mem) : mem := Mem (nodes m) (payloads m) bs (epoch m) (retired m) (fault m).
Definition with_epoch (e : Z) (m : mem) : mem := Mem (nodes m) (payloads m) (buckets m) e (retired m) (fault m).
Definition with_retired (r : gmap Z (gset nat)) (m : mem) : mem := Mem (nodes m) (payloads m) (buckets m) (epoch m) r (fault m).

Definition set_ep (e : Z) (y : payload) : payload := Payload (pkey y) (pval y) (Some e) (retire y).
Definition set_retire (e : Z) (y : payload) : payload := Payload (pkey y) (pval y) (ep y) (Some e).
Definition set_next (w : Z) (nd : node) : node := Node w (pl nd) (key nd).

Definition load (m : mem) (p : loc) : option Z :=
  match p with Bkt i => buckets m !! i | Nxt a => next <$> nodes m !! a end.
Definition store (m : mem) (p : loc) (w : Z) : mem :=
  match p with
  | Bkt i => with_buckets (<[i := w]> (buckets m)) m
  | Nxt a => with_nodes (alter (set_next w) a (nodes m)) m
  end.

(** Dereferences; [q] is where the thread stays when it faults. *)
Definition at_loc (m : mem) (q : pc) (p : loc) (k : Z → mem * pc) : mem * pc :=
  match load m p with Some w => k w | None => (failed m, q) end.
Definition at_node (m : mem) (q : pc) (a : Z) (k : node → mem * pc) : mem * pc :=
  match nodes m !! a with Some nd => k nd | None => (failed m, q) end.
Definition at_payload (m : mem) (q : pc) (a : Z) (k : payload → mem * pc) : mem * pc :=
  match payloads m !! a with Some y => k y | None => (failed m, q) end.

(** [tracker.retire] and [tracker.end_op]; [ops] are the threads in an operation. *)
Definition retire_node (ops : gset nat) (m : mem) (q : pc) (a : Z) (q' : pc) : mem * pc :=
  match retired m !! a with
  | Some _ => (failed m, q)
  | None => (with_retired (<[a := ops]> (retired m)) m, q')
  end.
Definition leave (t : nat) (m : mem) : mem := with_retired ((λ W, W ∖ {[t]}) <$> retired m) m.

(** ** Steps *)

(** [findNode] returns [found]. *)
Definition find_ret (c : ctx) (p : loc) (a x : Z) (found : bool) : pc :=
  let o := co c in
  match cr c, o, found with
  | Some r, _, _ => OEnd r
  | None, Put _ _, _ | None, Insert _ _, false | None, Replace _ _, true => OStore o (cn c) p a x found
  | None, Get _, true | None, Remove _, true => OVal o (cn c) p a x
  | None, Insert _ _, true => ODelete o (cn c) (RBool false)
  | None, Replace _ _, false => ODelete o (cn c) (RVal None)
  | None, Get _, false | None, Remove _, false => OEnd (RVal None)
  end.
(** The inner loop goes on with [curr = a]. *)
Definition find_at (c : ctx) (p : loc) (a : Z) : pc := if a =? 0 then find_ret c p 0 0 false else FNext c p a.

(** The answer of an operation that has found, or not found, its key *)
Definition done_ret (o : op) (old : option V) : ret := match o with Insert _ _ => RBool true | _ => RVal old end.

(** The compare-and-swap of [CAS_verify] succeeds: on [prev], or with the payload [old] to retire on the link of
    [curr]. *)
Definition publish (m : mem) (q : pc) (o : op) (n e : Z) (k : mem → mem * pc) : mem * pc :=
  if n =? 0 then k m
  else at_node m q n (λ nd, at_payload m q (pl nd) (λ y, k (with_payloads (<[pl nd := set_ep e y]> (payloads m)) m))).
Definition cas (m : mem) (q : pc) (o : op) (n : Z) (p : loc) (a x : Z) (old : option (Z * V)) (e : Z) : mem * pc :=
  match old with
  | None => at_loc m q p (λ w,
      if (w =? a) && (e =? epoch m) then publish m q o n e (λ m', (store m' p n, OEnd (done_ret o None)))
      else (m, FHead (Ctx o n None)))
  | Some (b, v) => at_loc m q (Nxt a) (λ w,
      if (w =? x) && (e =? epoch m) then
        publish m q o n e (λ m', at_payload m' q b (λ y,
          match retire y with
          | Some _ => (failed m, q)
          | None =>
              let z := if n =? 0 then x else n in
              (store (with_payloads (<[b := set_retire e y]> (payloads m')) m') (Nxt a) (setMark z),
               OUnlink o n p a z (done_ret o (Some v)))
          end))
      else (m, FHead (Ctx o n None)))
  end.

(** One access of thread [t] inside an operation *)
Definition op_step (ops : gset nat) (m : mem) (q : pc) : option (mem * pc) :=
  match q with
  | FHead c => Some (at_loc m q (Bkt (idx (okey (co c)))) (λ w, (m, find_at c (Bkt (idx (okey (co c)))) (getPtr w))))
  | FNext c p a => Some (at_node m q a (λ nd, (m, FCheck c p a (next nd) (key nd))))
  | FCheck c p a w ckey =>
      Some (at_loc m q p (λ w', (m,
        if negb (w' =? a) then FHead c
        else if getMark w then FUnlink c p a (getPtr w)
        else if decide (lt ckey (okey (co c))) then find_at c (Nxt a) (getPtr w)
        else find_ret c p a (getPtr w) (bool_decide (ckey = okey (co c))))))
  | FUnlink c p a x => Some (at_loc m q p (λ w, if w =? a then (store m p x, FRetire c p a x) else (m, FHead c)))
  | FRetire c p a x => Some (retire_node ops m q a (find_at c p x))
  | OStore o n p a x found =>
      Some (at_node m q n (λ _, (store m (Nxt n) (if found then x else a),
                                 if found then OVal o n p a x else OBegin o n p a x None)))
  | OVal o n p a x =>
      Some (at_node m q a (λ nd, at_payload m q (pl nd) (λ y,
        (m, match o with Get _ => OEnd (RVal (Some (pval y))) | _ => OBegin o n p a x (Some (pl nd, pval y)) end))))
  | OBegin o n p a x old =>
      Some (match old with
            | None => (m, OCas o n p a x old (epoch m))
            | Some (b, _) => at_payload m q b (λ y,
                if default 0 (ep y) <=? epoch m then (m, OCas o n p a x old (epoch m)) else (failed m, q))
            end)
  | OCas o n p a x old e => Some (cas m q o n p a x old e)
  | OUnlink o n p a b r =>
      Some (at_loc m q p (λ w, if w =? a then (store m p b, ORetire a r) else (m, FHead (Ctx o n (Some r)))))
  | ORetire a r => Some (retire_node ops m q a (OEnd r))
  | ODelete o n r =>
      Some (at_node m q n (λ nd, at_payload m q (pl nd) (λ y,
        match ep y with
        | None => (with_payloads (delete (pl nd) (payloads m)) (with_nodes (delete n (nodes m)) m), OEnd r)
        | Some _ => (failed m, q)
        end)))
  | _ => None
  end.

(** A compare-and-swap fails. *)
Definition failed_cas (q : pc) : option pc :=
  match q with
  | FUnlink c _ _ _ => Some (FHead c)
  | OCas o n _ _ _ _ _ => Some (FHead (Ctx o n None))
  | OUnlink o n _ _ _ r => Some (FHead (Ctx o n (Some r)))
  | _ => None
  end.

Definition thread_step (ops : gset nat) (m : mem) (t : nat) (q : pc) (x : act) : option (mem * pc * list ev) :=
  match q, x with
  | Idle, Call o => Some (m, (if oval o is Some _ then ONew o else OStart o 0), [ECall t o])
  | ONew o, New n p =>
      match oval o with
      | Some v =>
          if bool_decide (0 < n < U64 ∧ n mod 64 = 0 ∧ nodes m !! n = None ∧ p ≠ 0 ∧ payloads m !! p = None)
          then Some (with_payloads (<[p := Payload (okey o) v None None]> (payloads m))
                       (with_nodes (<[n := Node 0 p (okey o)]> (nodes m)) m), OStart o n, [])
          else None
      | None => None
      end
  | OStart o n, Go => Some (m, FHead (Ctx o n None), [])
  | OEnd r, Go => Some (leave t m, Idle, [ERet t r])
  | _, Go => '(m', q') ← op_step ops m q; Some (m', q', [])
  | _, Give_up => q' ← failed_cas q; Some (m, q', [])
  | _, _ => None
  end.

Record sys : Type := Sys { mm : mem; pcs : list pc }.

Definition operating (ps : list pc) : gset nat :=
  list_to_set (filter (λ t, default false (in_op <$> ps !! t) = true) (seq 0 (length ps))).

(** [~Node] and [preclaim] of its payload, in the current epoch: by
    [reclaim_pblk] the payload is deallocated at once if its own epoch is old enough, otherwise it
    waits; that the to-be-freed container deallocates it two epochs later is not a step. *)
Definition destruct_node (a : Z) (m : mem) : mem :=
  match nodes m !! a with
  | None => failed m
  | Some nd =>
      match payloads m !! pl nd with
      | Some (Payload _ _ (Some e) (Some _)) =>
          with_retired (delete a (retired m)) (with_nodes (delete a (nodes m))
            (with_payloads (if e <? epoch m - 1 then delete (pl nd) (payloads m) else payloads m) m))
      | _ => failed m
      end
  end.

Inductive sact : Type :=
  | Th (t : nat) (x : act)
  | Advance
  | Destruct (a : Z).

Definition step (s : sys) (x : sact) : option (sys * list ev) :=
  match x with
  | Th t a =>
      q ← pcs s !! t;
      '(m', q', evs) ← thread_step (operating (pcs s)) (mm s) t q a;
      Some (Sys m' (<[t := q']> (pcs s)), evs)
  | Advance => Some (Sys (with_epoch (epoch (mm s) + 1) (mm s)) (pcs s), [])
  | Destruct a =>
      match retired (mm s) !! a with
      | Some W => if bool_decide (W = ∅) then Some (Sys (destruct_node a (mm s)) (pcs s), []) else None
      | None => None
      end
  end.

Fixpoint run (s : sys) (tr : list sact) : option (sys * list ev) :=
  match tr with
  | [] => Some (s, [])
  | x :: tr' => '(s1, evs1) ← step s x; '(s2, evs2) ← run s1 tr'; Some (s2, evs1 ++ evs2)
  end.

(** The constructor, in the epoch [e], and [n] threads *)
Definition new_table (e : Z) (n : nat) : sys := Sys (Mem ∅ ∅ (replicate (Z.to_nat idxSize) 0) e ∅ false) (replicate n Idle).
End table.

(** ** Specification: an atomic map

    An operation that leaves the map as it is may note the binding of its key at
    any time and answer by it later: what it answers was true at some moment between its call and
    its return.  [asnap] are the contents at the ends of the
    earlier epochs, most recent first. *)

Section spec.
Context {K V : Type} `{!EqDecision K, !Countable K}.
Notation op := (op (K := K) (V := V)).
Notation ev := (ev (K := K) (V := V)).
Notation ret := (ret (V := V)).

Inductive spc : Type :=
  | SIdle
  | SRun (o : op) (seen : list (option V))
  | SDone (r : ret).

Record ast : Type := Ast { am : gmap K V; asnap : list (gmap K V); apc : list spc }.

Definition set_apc (t : nat) (x : spc) (A : ast) : ast := Ast (am A) (asnap A) (<[t := x]> (apc A)).
Definition set_am (m : gmap K V) (A : ast) : ast := Ast m (asnap A) (apc A).

(** The answer of an operation that changes nothing, for a binding of its key *)
Definition observes (o : op) (x : option V) : option ret :=
  match o, x with
  | Get _, _ => Some (RVal x)
  | Insert _ _, Some _ => Some (RBool false)
  | Remove _, None | Replace _ _, None => Some (RVal None)
  | _, _ => None
  end.
(** The new binding and the answer of an operation that changes the map *)
Definition updates (o : op) (x : option V) : option (option V * ret) :=
  match o, x with
  | Put _ v, _ => Some (Some v, RVal x)
  | Insert _ v, None => Some (Some v, RBool true)
  | Remove _, Some _ => Some (None, RVal x)
  | Replace _ v, Some _ => Some (Some v, RVal x)
  | _, _ => None
  end.

Inductive lin : ast → ast → Prop :=
  | lin_note A t o seen : apc A !! t = Some (SRun o seen) → lin A (set_apc t (SRun o (am A !! okey o :: seen)) A)
  | lin_read A t o seen x r : apc A !! t = Some (SRun o seen) → x ∈ seen → observes o x = Some r →
      lin A (set_apc t (SDone r) A)
  | lin_update A t o seen x r : apc A !! t = Some (SRun o seen) → updates o (am A !! okey o) = Some (x, r) →
      lin A (set_apc t (SDone r) (set_am (partial_alter (λ _, x) (okey o) (am A)) A))
  | lin_advance A : lin A (Ast (am A) (am A :: asnap A) (apc A)).

Inductive aruns : ast → list ev → ast → Prop :=
  | aruns_nil A : aruns A [] A
  | aruns_lin A A1 A2 evs : lin A A1 → aruns A1 evs A2 → aruns A evs A2
  | aruns_call A t o A2 evs : apc A !! t = Some SIdle →
      aruns (set_apc t (SRun o []) A) evs A2 → aruns A (ECall t o :: evs) A2
  | aruns_ret A t r A2 evs : apc A !! t = Some (SDone r) →
      aruns (set_apc t SIdle A) evs A2 → aruns A (ERet t r :: evs) A2.

Lemma lf_aruns_app A1 A2 A3 evs1 evs2 : aruns A1 evs1 A2 → aruns A2 evs2 A3 → aruns A1 (evs1 ++ evs2) A3.
Proof. induction 1; simpl; eauto using aruns. Qed.

Definition new_spec (n : nat) : ast := Ast ∅ [] (replicate n SIdle).
End spec.
Arguments payload K V : clear implicits.
Arguments node K : clear implicits.
Arguments mem K V : clear implicits.
Arguments op K V : clear implicits.
Arguments ret V : clear implicits.
Arguments ev K V : clear implicits.
Arguments ctx K V : clear implicits.
Arguments pc K V : clear implicits.
Arguments act K V : clear implicits.
Arguments sact K V : clear implicits.
Arguments sys K V : clear implicits.
Arguments spc K V : clear implicits.
Arguments ast K V {_ _}.
End LfHashTable.
