(* ===== verification/LfChain.v ===== *)
(** * The chains of the nonblocking hash table

    The nodes behind a bucket as a list of addresses ([chain]): keys grow, strictly
    except behind a marked node, which may be followed by its replacement.
    Storing into the link of a node of a chain replaces what is behind it
    ([chain_splice]). *)

From S2P Require Import Prelude LfHashTable.
Import LfHashTable.

Module LfChain.

(** ** Links *)

Lemma getMark_setMark d : getMark (setMark d) = true.
Proof. unfold getMark, setMark. rewrite Z.lor_spec. by destruct (Z.testbit d 0). Qed.
Lemma getPtr_setMark d : getPtr (setMark d) = getPtr d.
Proof.
  apply Z.bits_inj'. intros i Hi. unfold getPtr, setMark, MARK_MASK. rewrite !Z.land_spec, Z.lor_spec, Z.lnot_spec by done.
  destruct (Z.testbit d i), (Z.testbit 1 i); done.
Qed.
Lemma getMark_getPtr d : getMark (getPtr d) = false.
Proof. unfold getMark, getPtr, MARK_MASK. rewrite Z.land_spec. by destruct (Z.testbit d 0). Qed.
Lemma getPtr_plain d : getMark d = false → getPtr d = d.
Proof.
  unfold getMark, getPtr, MARK_MASK. intros Hd. apply Z.bits_inj'. intros i Hi. rewrite Z.land_spec, Z.lnot_spec by done.
  destruct (decide (i = 0)) as [->|Hi0]; [by rewrite Hd|].
  replace (Z.testbit 1 i) with false; [by destruct (Z.testbit d i)|].
  symmetry. apply (Z.bits_above_log2 1 i); simpl; lia.
Qed.
Lemma getMark_aligned n : n mod 64 = 0 → getMark n = false.
Proof.
  intros Hn. unfold getMark. rewrite Z.bit0_odd. apply Z.div_exact in Hn; [|lia]. rewrite Hn, Z.odd_mul. done.
Qed.

Section chain.
Context {K V : Type} `{!EqDecision K} (lt : K → K → Prop) `{!RelDecision lt, !StrictOrder lt, !Trichotomy lt}.
Context (hash_fn : K → Z) (idxSize : Z).
Notation idx := (idx hash_fn idxSize).
Notation mem := (mem K V).
Implicit Types (ns : gmap Z (node K)) (nd : node K) (m : mem) (p : loc).

(** The keys that may follow a node *)
Definition above nd (k : K) : Prop := if getMark (next nd) then ¬ lt k (key nd) else lt (key nd) k.

Fixpoint chain ns (i : nat) (lo : K → Prop) (w : Z) (l : list Z) : Prop :=
  match l with
  | [] => w = 0
  | a :: l' => w = a ∧ a ≠ 0 ∧ ∃ nd, ns !! a = Some nd ∧ idx (key nd) = i ∧ lo (key nd) ∧ chain ns i (above nd) (getPtr (next nd)) l'
  end.

(** ** Order *)

Lemma lt_le_trans k1 k2 k3 : lt k1 k2 → ¬ lt k3 k2 → lt k1 k3.
Proof using StrictOrder0 Trichotomy0. intros H1 H2. destruct (trichotomy lt k2 k3) as [?|[->|?]]; [by etrans|done|done]. Qed.
Lemma le_trans k1 k2 k3 : ¬ lt k2 k1 → ¬ lt k3 k2 → ¬ lt k3 k1.
Proof using StrictOrder0 Trichotomy0.
  intros H1 H2 H3. apply H1. destruct (trichotomy lt k3 k2) as [?|[->|?]]; [done|done|by etrans].
Qed.
Lemma lt_le k1 k2 : lt k1 k2 → ¬ lt k2 k1.
Proof using StrictOrder0. intros H1 H2. apply (irreflexivity lt k1). by etrans. Qed.
Lemma lt_neq k1 k2 : lt k1 k2 → k1 ≠ k2.
Proof using StrictOrder0. intros H ->. by apply (irreflexivity lt k2). Qed.

Definition up_closed (lo : K → Prop) : Prop := ∀ k k', lo k → ¬ lt k' k → lo k'.
Lemma up_closed_above nd : up_closed (above nd).
Proof using StrictOrder0 Trichotomy0. intros k k'. unfold above. destruct (getMark _); [apply le_trans|apply lt_le_trans]. Qed.
Lemma key_above_le nd k : above nd k → ¬ lt k (key nd).
Proof using StrictOrder0. unfold above. destruct (getMark _); [done|apply lt_le]. Qed.

(** ** Chains *)

Lemma chain_frame ns ns' i lo w l : (∀ a, a ∈ l → ns' !! a = ns !! a) → chain ns i lo w l → chain ns' i lo w l.
Proof.
  revert lo w. induction l as [|a l IH]; intros lo w Heq; simpl; [done|]. intros (-> & ? & nd & ? & ? & ? & ?).
  split; [done|]. split; [done|]. exists nd. rewrite Heq by left. split_and!; [done..|].
  apply IH; [|done]. intros. apply Heq. by right.
Qed.
Lemma chain_lo ns i lo lo' w l : (∀ k, lo k → lo' k) → chain ns i lo w l → chain ns i lo' w l.
Proof. destruct l; simpl; [done|]. naive_solver. Qed.
Lemma chain_fun ns i i' lo lo' l : ∀ w l', chain ns i lo w l → chain ns i' lo' w l' → l = l'.
Proof.
  revert lo lo'. induction l as [|a l IH]; intros lo lo' w [|a' l']; simpl.
  - done.
  - intros -> (<- & ? & _). done.
  - intros (-> & ? & _) ?. done.
  - intros (-> & ? & nd & Hnd & _ & _ & Hl) (<- & _ & nd' & Hnd' & _ & _ & Hl'). simplify_eq. f_equal. by eapply IH.
Qed.

(** A node of a chain, and how to change it or what follows it *)
Lemma chain_at ns i lo w l1 a l2 : chain ns i lo w (l1 ++ a :: l2) →
  ∃ nd, ns !! a = Some nd ∧ a ≠ 0 ∧ idx (key nd) = i ∧ chain ns i (above nd) (getPtr (next nd)) l2 ∧
    ∀ ns' nd' l2', (∀ b, b ∈ l1 → ns' !! b = ns !! b) → ns' !! a = Some nd' → key nd' = key nd →
      chain ns' i (above nd') (getPtr (next nd')) l2' → chain ns' i lo w (l1 ++ a :: l2').
Proof.
  revert lo w. induction l1 as [|b l1 IH]; intros lo w; simpl.
  - intros (-> & ? & nd & ? & <- & ? & ?). exists nd. split_and!; [done..|]. intros ns' nd' l2' _ Hnd' Hk Hl.
    split; [done|]. split; [done|]. exists nd'. by rewrite Hk in *.
  - intros (-> & ? & ndb & ? & ? & ? & Hl). destruct (IH _ _ Hl) as (nd & ? & ? & ? & ? & Hr). exists nd. split_and!; [done..|].
    intros ns' nd' l2' Heq ???. split; [done|]. split; [done|]. exists ndb. rewrite Heq by left. split_and!; [done..|].
    eapply Hr; try done. intros. apply Heq. by right.
Qed.
Lemma chain_elem ns i lo w l a : chain ns i lo w l → a ∈ l → ∃ nd, ns !! a = Some nd ∧ idx (key nd) = i.
Proof.
  intros Hl (l1 & l2 & ->)%list_elem_of_split. destruct (chain_at _ _ _ _ _ _ _ Hl) as (nd & ? & _ & ? & _). by exists nd.
Qed.
Lemma chain_lb ns i lo w l : up_closed lo → chain ns i lo w l → ∀ a nd, a ∈ l → ns !! a = Some nd → lo (key nd).
Proof using StrictOrder0 Trichotomy0.
  revert lo w. induction l as [|b l IH]; intros lo w Hup; simpl; [by intros _ a nd ?%elem_of_nil|].
  intros (-> & _ & ndb & Hb & _ & Hlo & Hl) a nd [->|Ha]%elem_of_cons Hnd; [by simplify_eq|].
  pose proof (IH _ _ (up_closed_above ndb) Hl a nd Ha Hnd) as Hab%key_above_le. by eapply Hup.
Qed.
Lemma chain_NoDup ns i lo w l : chain ns i lo w l → NoDup l.
Proof.
  revert lo w. induction l as [|a l IH]; intros lo w Hl; constructor.
  - intros (l1 & l2 & ->)%list_elem_of_split. simpl in Hl. destruct Hl as (-> & _ & nd & Hnd & _ & _ & Hl).
    destruct (chain_at _ _ _ _ _ _ _ Hl) as (nd' & Hnd' & _ & _ & Hl2 & _). simplify_eq.
    pose proof (chain_fun _ _ _ _ _ _ _ _ Hl2 Hl) as Heq%(f_equal length). rewrite length_app in Heq. simpl in Heq. lia.
  - simpl in Hl. destruct Hl as (_ & _ & nd & _ & _ & _ & Hl). by eapply IH.
Qed.
(** A node behind another one *)
Lemma chain_behind ns i lo w l1 a l2 b nd nd' : chain ns i lo w (l1 ++ a :: l2) → ns !! a = Some nd →
  b ∈ l2 → ns !! b = Some nd' → above nd (key nd').
Proof using StrictOrder0 Trichotomy0.
  intros Hl Hnd Hb Hnd'. destruct (chain_at _ _ _ _ _ _ _ Hl) as (nd2 & ? & _ & _ & Hl2 & _). simplify_eq.
  eapply chain_lb; [apply up_closed_above|exact Hl2|done|done].
Qed.

(** ** All buckets *)

Definition chains m (ch : nat → list Z) : Prop := ∀ i, chain (nodes m) i (λ _, True) (default 0 (buckets m !! i)) (ch i).
Definition upd (i : nat) (l : list Z) (ch : nat → list Z) : nat → list Z := λ j, if decide (j = i) then l else ch j.

Lemma upd_eq i l ch : upd i l ch i = l.
Proof. unfold upd. by rewrite decide_True. Qed.
Lemma upd_ne i j l ch : j ≠ i → upd i l ch j = ch j.
Proof. unfold upd. intros. by rewrite decide_False. Qed.

(** [p] is a link of the bucket [i]: [l1] ends with it, [l2] is behind it. *)
Definition at_pos (ch : nat → list Z) m p (i : nat) (l1 l2 : list Z) : Prop :=
  ch i = l1 ++ l2 ∧
  match p with
  | Bkt j => j = i ∧ l1 = [] ∧ (i < length (buckets m))%nat
  | Nxt a => ∃ l0, l1 = l0 ++ [a]
  end.
(** The keys that may follow [p] when [w] is stored there *)
Definition lo_of m p (w : Z) (k : K) : Prop :=
  match p with Bkt _ => True | Nxt a => ∃ nd, nodes m !! a = Some nd ∧ above (set_next w nd) k end.

Lemma lo_of_up m p w : up_closed (lo_of m p w).
Proof using StrictOrder0 Trichotomy0.
  destruct p as [j|a]; intros k k'; simpl; [done|]. intros (nd & ? & ?) ?. exists nd. split; [done|]. by eapply up_closed_above.
Qed.
Lemma set_next_next nd : set_next (next nd) nd = nd.
Proof. by destruct nd. Qed.

Lemma chains_disjoint m ch i j a : chains m ch → a ∈ ch i → a ∈ ch j → i = j.
Proof.
  intros Hc Hi Hj. destruct (chain_elem _ _ _ _ _ _ (Hc i) Hi) as (nd & ? & <-), (chain_elem _ _ _ _ _ _ (Hc j) Hj) as (nd' & ? & <-).
  by simplify_eq.
Qed.

Lemma at_pos_load ch m p i l1 l2 : chains m ch → at_pos ch m p i l1 l2 →
  ∃ w, load m p = Some w ∧ chain (nodes m) i (lo_of m p w) (match p with Bkt _ => w | Nxt _ => getPtr w end) l2.
Proof.
  intros Hc [Hch Hp]. specialize (Hc i). rewrite Hch in Hc. destruct p as [j|a]; simpl in *.
  - destruct Hp as (-> & -> & [w Hw]%lookup_lt_is_Some_2). rewrite Hw in *. exists w. split; [done|]. simpl in Hc.
    by eapply chain_lo; [|exact Hc].
  - destruct Hp as [l0 ->]. rewrite <- app_assoc in Hc. destruct (chain_at _ _ _ _ _ _ _ Hc) as (nd & Hnd & _ & _ & Hl & _).
    exists (next nd). rewrite Hnd. split; [done|]. eapply chain_lo; [|exact Hl]. intros k Hk. exists nd. by rewrite set_next_next.
Qed.

Lemma chain_splice ch m p i l1 l2 w l2' : chains m ch → at_pos ch m p i l1 l2 →
  (∀ a, p = Nxt a → a ∉ l2') → chain (nodes m) i (lo_of m p w) (match p with Bkt _ => w | Nxt _ => getPtr w end) l2' →
  chains (store m p w) (upd i (l1 ++ l2') ch).
Proof.
  intros Hc [Hch Hp] Hni Hl j. pose proof (Hc i) as Hci. rewrite Hch in Hci. destruct p as [i'|a]; simpl in *.
  - destruct Hp as (-> & -> & Hi). destruct (decide (j = i)) as [->|Hne].
    + rewrite upd_eq, list_lookup_insert_eq by done. simpl. by eapply chain_lo; [|exact Hl].
    + rewrite upd_ne, list_lookup_insert_ne by done. apply Hc.
  - destruct Hp as [l0 ->]. rewrite <- app_assoc in Hci.
    assert (∀ l : list Z, a ∉ l → ∀ b, b ∈ l → alter (set_next w) a (nodes m) !! b = nodes m !! b) as Hfr.
    { intros l Hal b Hb. apply lookup_alter_ne. by intros ->. }
    destruct (decide (j = i)) as [->|Hne].
    + rewrite upd_eq, <- app_assoc. destruct (chain_at _ _ _ _ _ _ _ Hci) as (nd & Hnd & _ & _ & _ & Hr).
      pose proof (chain_NoDup _ _ _ _ _ Hci) as Hnd0. apply NoDup_app in Hnd0 as (_ & Hnd0 & _).
      eapply (Hr _ (set_next w nd)); [|by rewrite lookup_alter_eq, Hnd|done|].
      * apply Hfr. intros Ha. apply (Hnd0 a Ha). by left.
      * eapply chain_frame; [by apply Hfr, Hni|]. eapply chain_lo; [|exact Hl]. intros k (nd' & ? & ?). by simplify_eq.
    + rewrite upd_ne by done. eapply chain_frame; [|apply Hc]. apply Hfr. intros Ha.
      apply Hne. eapply chains_disjoint; [exact Hc|exact Ha|]. rewrite Hch. set_solver.
Qed.
End chain.
Arguments chain_elem {K lt hash_fn idxSize ns i lo w l a}.
Arguments chain_at {K lt hash_fn idxSize ns i lo w l1 a l2}.
Arguments chain_NoDup {K lt hash_fn idxSize ns i lo w l}.
Arguments chain_behind {K lt StrictOrder0 Trichotomy0 hash_fn idxSize ns i lo w l1 a l2 b nd nd'}.
Arguments chain_lb {K lt StrictOrder0 Trichotomy0 hash_fn idxSize ns i lo w l}.
Arguments chain_lo {K lt hash_fn idxSize ns i lo} lo' {w l}.
Arguments key_above_le {K lt StrictOrder0 nd k}.
Arguments lt_le_trans {K lt StrictOrder0 Trichotomy0 k1 k2 k3}.
End LfChain.
