(* ===== verification/LfTableInv.v ===== *)
(** * The invariant of the nonblocking hash table

    The ghost state: the chains of the buckets, the nodes that have been unlinked and
    not yet destructed ([dead]), and for each thread those that were unlinked before it started
    its operation ([old]).  A thread reaches only nodes that are linked, or were when it
    started ([held]); their key and payload do not change, nor their link once it is
    marked, and they are not destructed.  What a thread knows ([thread_ok]) is stated about such
    nodes and stays true whatever the others do ([keeps]). *)

From S2P Require Import Prelude HashTable LfHashTable LfChain.
Import LfHashTable LfChain.

Module LfTableInv.
Section inv.
Context {K V : Type} `{!EqDecision K, !Countable K} (lt : K → K → Prop) `{!RelDecision lt, !StrictOrder lt, !Trichotomy lt}.
Context (hash_fn : K → Z) (idxSize : Z).
Notation idx := (idx hash_fn idxSize).
Notation chains := (chains lt hash_fn idxSize).
Notation mem := (mem K V).
Notation payload := (payload K V).
Notation pc := (pc K V).
Notation op := (op K V).
Notation ctx := (ctx K V).
Notation sys := (sys K V).
Notation ast := (ast K V).
Notation spc := (spc K V).
Implicit Types (m : mem) (p : loc) (q : pc) (o : op) (c : ctx) (s : sys) (A : ast) (x : spc) (y : payload) (nd : node K).

(** ** What a crash with the cutoff [c] brings back *)

Definition survives (c : Z) (y : payload) : option (K * V) :=
  match ep y with
  | Some e => if (e <=? c) && negb (match retire y with Some r => r <=? c | None => false end) then Some (pkey y, pval y) else None
  | None => None
  end.
Definition surv (c : Z) (ps : gmap Z payload) : gmap Z (K * V) := omap (survives c) ps.

(** ** Shared state *)

Record ghost : Type := Gh { ch : nat → list Z; dead : gset Z; old : nat → gset Z }.
Implicit Type G : ghost.

(** Published and not destructed *)
Definition pub G (a : Z) : Prop := (∃ i, a ∈ ch G i) ∨ a ∈ dead G.
Definition pub_ok m (a : Z) : Prop :=
  a ≠ 0 ∧ getMark a = false ∧ ∃ nd y, nodes m !! a = Some nd ∧ payloads m !! pl nd = Some y ∧ pkey y = key nd ∧
    is_Some (ep y) ∧ (retire y = None ↔ getMark (next nd) = false).

Record shared G m : Prop := {
  s_ok : fault m = false;
  s_len : length (buckets m) = Z.to_nat idxSize;
  s_chains : chains m (ch G);
  s_pub a : pub G a → pub_ok m a;
  s_dead a : a ∈ dead G → (∀ i, a ∉ ch G i) ∧ ∃ nd, nodes m !! a = Some nd ∧ getMark (next nd) = true;
  s_own a b nd nd' : pub G a → pub G b → nodes m !! a = Some nd → nodes m !! b = Some nd' → pl nd = pl nd' → a = b;
  s_live b y : payloads m !! b = Some y → is_Some (ep y) → retire y = None →
    ∃ i a nd, a ∈ ch G i ∧ nodes m !! a = Some nd ∧ pl nd = b;
  s_ep b y : payloads m !! b = Some y → (∀ e, ep y = Some e → e ≤ epoch m) ∧ (∀ r, retire y = Some r → r ≤ epoch m);
}.

(** ** What a thread knows *)

Definition held G (u : nat) (a : Z) : Prop := pub G a ∧ a ∉ old G u.
Definition node_at m (a : Z) (P : node K → Prop) : Prop := ∃ nd, nodes m !! a = Some nd ∧ P nd.

Definition prev_ok G m (u : nat) (k : K) p : Prop :=
  match p with
  | Bkt i => i = idx k
  | Nxt a => held G u a ∧ node_at m a (λ nd, lt (key nd) k ∧ idx (key nd) = idx k)
  end.
Definition curr_ok G m (u : nat) (k : K) (a : Z) : Prop := held G u a ∧ node_at m a (λ nd, idx (key nd) = idx k).

Definition run_ok (o : op) x : Prop := ∃ seen, x = SRun o seen.
Definition ctx_ok c x : Prop := match cr c with Some r => x = SDone r | None => run_ok (co c) x end.
Definition saw c x (v : option V) : Prop := cr c = None → ∃ seen, x = SRun (co c) seen ∧ v ∈ seen.

(** [findNode] has found, or not found, the key. *)
Definition hit G m (u : nat) c p (a z : Z) x : Prop :=
  let k := okey (co c) in
  prev_ok G m u k p ∧ held G u a ∧ getMark z = false ∧
  ∃ nd y, nodes m !! a = Some nd ∧ key nd = k ∧ payloads m !! pl nd = Some y ∧ saw c x (Some (pval y)).
Definition miss G m (u : nat) (k : K) p (a : Z) : Prop :=
  prev_ok G m u k p ∧ (a ≠ 0 → curr_ok G m u k a ∧ node_at m a (λ nd, lt k (key nd))).

(** Operations that write when the key is found, or is not found *)
Definition hits o : bool := match o with Put _ _ | Remove _ | Replace _ _ => true | _ => false end.
Definition misses o : bool := match o with Put _ _ | Insert _ _ => true | _ => false end.
(** The new node is ready to be linked before [z]. *)
Definition ready m (n z : Z) : Prop := n ≠ 0 → node_at m n (λ nd, next nd = z).

Definition thread_ok G m (u : nat) q x : Prop :=
  match q with
  | Idle => x = SIdle
  | ONew o => run_ok o x ∧ is_Some (oval o)
  | OStart o _ => run_ok o x
  | FHead c => ctx_ok c x
  | FNext c p a => ctx_ok c x ∧ prev_ok G m u (okey (co c)) p ∧ curr_ok G m u (okey (co c)) a
  | FCheck c p a w ck =>
      let k := okey (co c) in
      ctx_ok c x ∧ prev_ok G m u k p ∧ curr_ok G m u k a ∧
      ∃ nd y, nodes m !! a = Some nd ∧ payloads m !! pl nd = Some y ∧ key nd = ck ∧
        if getMark w then next nd = w
        else (w ≠ 0 → curr_ok G m u k w) ∧ (w = 0 → lt ck k → saw c x None) ∧ (ck = k → saw c x (Some (pval y)))
  | FUnlink c p a z =>
      ctx_ok c x ∧ prev_ok G m u (okey (co c)) p ∧ curr_ok G m u (okey (co c)) a ∧
      node_at m a (λ nd, getMark (next nd) = true ∧ getPtr (next nd) = z)
  | FRetire c p a z =>
      ctx_ok c x ∧ prev_ok G m u (okey (co c)) p ∧ (z ≠ 0 → curr_ok G m u (okey (co c)) z) ∧ (z = 0 → saw c x None)
  | OStore o n p a z found =>
      n ≠ 0 ∧ run_ok o x ∧ if found then hits o = true ∧ hit G m u (Ctx o n None) p a z x else misses o = true ∧ miss G m u (okey o) p a
  | OVal o n p a z => hits o || bool_decide (n = 0) = true ∧ hit G m u (Ctx o n None) p a z x ∧ ready m n z
  | OBegin o n p a z old | OCas o n p a z old _ =>
      run_ok o x ∧
      match old with
      | None => n ≠ 0 ∧ misses o = true ∧ miss G m u (okey o) p a ∧ ready m n a
      | Some (b, v) => hits o = true ∧ hit G m u (Ctx o n None) p a z x ∧ ready m n z ∧
          ∃ nd y, nodes m !! a = Some nd ∧ pl nd = b ∧ payloads m !! b = Some y ∧ pval y = v
      end
  | OUnlink o n p a b r =>
      x = SDone r ∧ prev_ok G m u (okey o) p ∧ curr_ok G m u (okey o) a ∧ node_at m a (λ nd, getMark (next nd) = true ∧ getPtr (next nd) = b)
  | ODelete _ n r => n ≠ 0 ∧ x = SDone r
  | ORetire _ r | OEnd r => x = SDone r
  end.

(** ** What a thread owns *)

(** The operation in progress and its [tmpNode] that is not linked yet *)
Definition ctx_tmp c : option (op * Z) := match cr c with None => Some (co c, cn c) | Some _ => None end.
Definition tmpof q : option (op * Z) :=
  match q with
  | FHead c | FNext c _ _ | FCheck c _ _ _ _ | FUnlink c _ _ _ | FRetire c _ _ _ => ctx_tmp c
  | OStart o n | OStore o n _ _ _ _ | OVal o n _ _ _ | OBegin o n _ _ _ _ | OCas o n _ _ _ _ _ | ODelete o n _ => Some (o, n)
  | _ => None
  end.
Definition fresh G m (o : op) (v : V) (n : Z) : Prop :=
  n ≠ 0 ∧ getMark n = false ∧ ¬ pub G n ∧
  ∃ w b, nodes m !! n = Some (Node w b (okey o)) ∧ payloads m !! b = Some (Payload (okey o) v None None).
Definition private_ok G m q : Prop :=
  ∀ o n, tmpof q = Some (o, n) → match oval o with None => n = 0 | Some v => fresh G m o v n end.

(** The unlinked node that is not retired yet *)
Definition pend q : option Z := match q with FRetire _ _ a _ | ORetire a _ => Some a | _ => None end.

Definition apart m q q' : Prop :=
  (∀ o n o' n', tmpof q = Some (o, n) → tmpof q' = Some (o', n') → n ≠ 0 → n' ≠ 0 → n ≠ n' ∧
     ∀ nd nd', nodes m !! n = Some nd → nodes m !! n' = Some nd' → pl nd ≠ pl nd') ∧
  (∀ a a', pend q = Some a → pend q' = Some a' → a ≠ a').

Record sim (pat : bool) G s A : Prop := {
  sm_shared : shared G (mm s);
  sm_thread u q : pcs s !! u = Some q → ∃ x, apc A !! u = Some x ∧ thread_ok G (mm s) u q x;
  sm_private u q : pcs s !! u = Some q → private_ok G (mm s) q;
  sm_old u q : pcs s !! u = Some q → in_op q = true → old G u ⊆ dead G;
  sm_apart u v q q' : u ≠ v → pcs s !! u = Some q → pcs s !! v = Some q' → apart (mm s) q q';
  sm_pend u q a : pcs s !! u = Some q → pend q = Some a → a ∈ dead G ∧ a ∉ old G u ∧ retired (mm s) !! a = None;
  sm_retired a W : retired (mm s) !! a = Some W → a ∈ dead G ∧
    ∀ u q, pcs s !! u = Some q → in_op q = true → a ∉ old G u → u ∈ W;
  sm_gen : gen_rep (surv (epoch (mm s)) (payloads (mm s))) (am A);
  sm_snap : pat = true → gen_rep (surv (epoch (mm s) - 1) (payloads (mm s))) (default ∅ (asnap A !! 0%nat)) ∧
    gen_rep (surv (epoch (mm s) - 2) (payloads (mm s))) (default ∅ (asnap A !! 1%nat));
}.

(** ** Stability *)

(** What the steps of others leave as it is: the nodes that [u] holds *)
Definition keeps G m G' m' (u : nat) : Prop := ∀ a, held G u a → held G' u a ∧
  ∀ nd y, nodes m !! a = Some nd → payloads m !! pl nd = Some y →
    ∃ nd' y', nodes m' !! a = Some nd' ∧ key nd' = key nd ∧ pl nd' = pl nd ∧ (getMark (next nd) = true → next nd' = next nd) ∧
      payloads m' !! pl nd = Some y' ∧ pval y' = pval y.
(** ... and its own new node *)
Definition spares G m G' m' q : Prop := ∀ o n, tmpof q = Some (o, n) → n ≠ 0 →
  nodes m' !! n = nodes m !! n ∧ (∀ nd, nodes m !! n = Some nd → payloads m' !! pl nd = payloads m !! pl nd) ∧
  (¬ pub G n → ¬ pub G' n).

Lemma keeps_node G m G' m' u a (P : node K → Prop) :
  shared G m → keeps G m G' m' u → held G u a → node_at m a P →
  (∀ nd nd', P nd → key nd' = key nd → (getMark (next nd) = true → next nd' = next nd) → P nd') → node_at m' a P.
Proof.
  intros Hsh Hk Ha (nd & Hnd & HP) Hst. destruct (s_pub _ _ Hsh a (proj1 Ha)) as (_ & _ & nd2 & y & Hnd2 & Hy & _). simplify_eq.
  destruct (Hk a Ha) as [_ Hk']. destruct (Hk' _ _ Hnd Hy) as (nd' & y' & ? & ? & ? & ? & _). exists nd'. split; [done|]. by eapply Hst.
Qed.
Lemma keeps_prev G m G' m' u k p : shared G m → keeps G m G' m' u → prev_ok G m u k p → prev_ok G' m' u k p.
Proof.
  intros Hsh Hk. destruct p as [i|a]; simpl; [done|]. intros [Ha Hnd]. split; [by apply Hk|].
  eapply keeps_node; [done..|]. intros nd nd' ? Heq _. by rewrite Heq.
Qed.
Lemma keeps_curr G m G' m' u k a : shared G m → keeps G m G' m' u → curr_ok G m u k a → curr_ok G' m' u k a.
Proof.
  intros Hsh Hk [Ha Hnd]. split; [by apply Hk|]. eapply keeps_node; [done..|]. intros nd nd' ? Heq _. by rewrite Heq.
Qed.
Lemma keeps_hit G m G' m' u c p a z x : shared G m → keeps G m G' m' u → hit G m u c p a z x → hit G' m' u c p a z x.
Proof.
  intros Hsh Hk (? & Ha & ? & nd & y & Hnd & Hkey & Hy & ?). split; [by eapply keeps_prev|]. destruct (Hk a Ha) as [? Hk'].
  destruct (Hk' _ _ Hnd Hy) as (nd' & y' & ? & Hk2 & Hpl & _ & Hy' & Hv). split_and!; [done..|]. exists nd', y'. by rewrite Hk2, Hpl, Hv.
Qed.
Lemma keeps_miss G m G' m' u k p a : shared G m → keeps G m G' m' u → miss G m u k p a → miss G' m' u k p a.
Proof.
  intros Hsh Hk [? Hm]. split; [by eapply keeps_prev|]. intros Ha0. destruct (Hm Ha0) as [Hc Hlt]. split; [by eapply keeps_curr|].
  eapply keeps_node; [done|done|apply Hc|done|]. intros nd nd' ? Heq _. by rewrite Heq.
Qed.
Lemma keeps_marked G m G' m' u a z : shared G m → keeps G m G' m' u → held G u a →
  node_at m a (λ nd, getMark (next nd) = true ∧ getPtr (next nd) = z) → node_at m' a (λ nd, getMark (next nd) = true ∧ getPtr (next nd) = z).
Proof. intros Hsh Hk Ha Hn. eapply keeps_node; [done..|]. intros nd nd' [Hmk ?] _ Heq. by rewrite (Heq Hmk). Qed.
Lemma spares_ready G m G' m' q o n z : spares G m G' m' q → tmpof q = Some (o, n) → ready m n z → ready m' n z.
Proof. intros Hs Ht Hr Hn. destruct (Hr Hn) as (nd & ? & ?). destruct (Hs _ _ Ht Hn) as (Heq & _). exists nd. by rewrite Heq. Qed.

Lemma thread_ok_keeps G m G' m' u q x : shared G m → keeps G m G' m' u → spares G m G' m' q → thread_ok G m u q x → thread_ok G' m' u q x.
Proof.
  intros Hsh Hk Hs.
  assert (∀ a nd y, held G u a → nodes m !! a = Some nd → payloads m !! pl nd = Some y → ∃ nd' y', nodes m' !! a = Some nd' ∧
    pl nd' = pl nd ∧ payloads m' !! pl nd' = Some y' ∧ key nd' = key nd ∧ pval y' = pval y ∧ (getMark (next nd) = true → next nd' = next nd)) as Hval.
  { intros a nd y Ha Hnd Hy. destruct (proj2 (Hk a Ha) _ _ Hnd Hy) as (nd' & y' & ? & ? & Hpl & ? & Hy' & ?).
    exists nd', y'. split_and!; try done. by rewrite Hpl. }
  destruct q as [| | | |c p a|c p a w ck|c p a z|c p a z|o n p a z f|o n p a z|o n p a z ob|o n p a z ob e|o n p a b r| | |]; simpl; try done.
  - intros (? & ? & ?). split_and!; eauto using keeps_prev, keeps_curr.
  - intros (? & ? & Hc & nd & y & Hnd & Hy & ? & Hw). split_and!; eauto using keeps_prev, keeps_curr.
    destruct (Hval a nd y (proj1 Hc) Hnd Hy) as (nd' & y' & ? & ? & ? & Hkey & Hv & Hl). exists nd', y'. rewrite Hkey, Hv. split_and!; [done..|].
    destruct (getMark w) eqn:Hmw; [rewrite Hl; [done|by rewrite Hw]|]. destruct Hw as (Hw & ? & ?). split_and!; eauto using keeps_curr.
  - intros (? & ? & Hc & ?). split_and!; eauto using keeps_prev, keeps_curr. destruct Hc. by eapply keeps_marked.
  - intros (? & ? & ? & ?). split_and!; eauto using keeps_prev, keeps_curr.
  - intros (? & ? & ?). split_and!; [done..|]. destruct f; destruct_and!; split_and!; eauto using keeps_hit, keeps_miss.
  - intros (? & ? & ?). split_and!; eauto using keeps_hit, spares_ready.
  - intros [? Ho]. split; [done|]. destruct ob as [[b v]|]; [|destruct_and! Ho; split_and!; eauto using keeps_miss, spares_ready].
    destruct Ho as (? & Hh & ? & nd & y & Hnd & Hpl & Hy & ?). split_and!; eauto using keeps_hit, spares_ready.
    rewrite <- Hpl in Hy. destruct (Hval a nd y (proj1 (proj2 Hh)) Hnd Hy) as (nd' & y' & ? & Hpl' & ? & Hkey & Hv & Hl). exists nd', y'.
    rewrite Hv, <- Hpl, <- Hpl'. done.
  - intros [? Ho]. split; [done|]. destruct ob as [[b v]|]; [|destruct_and! Ho; split_and!; eauto using keeps_miss, spares_ready].
    destruct Ho as (? & Hh & ? & nd & y & Hnd & Hpl & Hy & ?). split_and!; eauto using keeps_hit, spares_ready.
    rewrite <- Hpl in Hy. destruct (Hval a nd y (proj1 (proj2 Hh)) Hnd Hy) as (nd' & y' & ? & Hpl' & ? & Hkey & Hv & Hl). exists nd', y'.
    rewrite Hv, <- Hpl, <- Hpl'. done.
  - intros (? & ? & Hc & ?). split_and!; eauto using keeps_prev, keeps_curr. destruct Hc. by eapply keeps_marked.
Qed.
Lemma private_ok_spares G m G' m' q : spares G m G' m' q → private_ok G m q → private_ok G' m' q.
Proof.
  intros Hs Hp o n Ht. specialize (Hp o n Ht). destruct (oval o) as [v|]; [|done]. destruct Hp as (Hn & ? & Hnp & w & b & Hnd & Hy).
  destruct (Hs o n Ht Hn) as (Hs1 & Hs2 & Hs3). split_and!; [done|done|by apply Hs3|]. exists w, b. rewrite Hs1. split; [done|].
  pose proof (Hs2 _ Hnd) as Heq. simpl in Heq. by rewrite Heq.
Qed.
Lemma apart_spares G m G' m' q q' : spares G m G' m' q → spares G m G' m' q' → apart m q q' → apart m' q q'.
Proof.
  intros Hs Hs' [H1 H2]. split; [|done]. intros o n o' n' Ht Ht' Hn Hn'. destruct (H1 _ _ _ _ Ht Ht' Hn Hn') as [? H3]. split; [done|].
  destruct (Hs _ _ Ht Hn) as [-> _], (Hs' _ _ Ht' Hn') as [-> _]. done.
Qed.
Lemma lf_apart_sym m q q' : apart m q q' → apart m q' q.
Proof.
  intros [H1 H2]. split.
  - intros o n o' n' Ht Ht' Hn Hn'. destruct (H1 _ _ _ _ Ht' Ht Hn' Hn) as [? H3]. split; [done|]. intros nd nd' ??. by apply not_eq_sym, H3.
  - intros a a' ??. by apply not_eq_sym, H2.
Qed.
(** ** One thread moves *)

(** What a step of [t] to [q'] has to show *)
Record moves (pat : bool) G s A (t : nat) q G' m' q' A' : Prop := {
  mv_shared : shared G' m';
  mv_keeps u q2 : u ≠ t → pcs s !! u = Some q2 → keeps G (mm s) G' m' u ∧ spares G (mm s) G' m' q2;
  mv_old u q2 : u ≠ t → pcs s !! u = Some q2 → in_op q2 = true → old G' u = old G u ∧ old G u ⊆ dead G';
  mv_spec u : u ≠ t → apc A' !! u = apc A !! u;
  mv_thread : ∃ x, apc A' !! t = Some x ∧ thread_ok G' m' t q' x;
  mv_private : private_ok G' m' q';
  mv_self : in_op q' = true → old G' t ⊆ dead G';
  mv_apart u q2 : u ≠ t → pcs s !! u = Some q2 → apart m' q' q2;
  mv_pend u q2 a : u ≠ t → pcs s !! u = Some q2 → pend q2 = Some a → a ∈ dead G' ∧ a ∉ old G' u ∧ retired m' !! a = None;
  mv_pend_self a : pend q' = Some a → a ∈ dead G' ∧ a ∉ old G' t ∧ retired m' !! a = None;
  mv_retired a W : retired m' !! a = Some W → a ∈ dead G' ∧
    (∀ u q2, u ≠ t → pcs s !! u = Some q2 → in_op q2 = true → a ∉ old G' u → u ∈ W) ∧ (in_op q' = true → a ∉ old G' t → t ∈ W);
  mv_gen : gen_rep (surv (epoch m') (payloads m')) (am A');
  mv_snap : pat = true → gen_rep (surv (epoch m' - 1) (payloads m')) (default ∅ (asnap A' !! 0%nat)) ∧
    gen_rep (surv (epoch m' - 2) (payloads m')) (default ∅ (asnap A' !! 1%nat));
}.

Lemma lf_sim_moves pat G s A t q G' m' q' A' :
  sim pat G s A → pcs s !! t = Some q → moves pat G s A t q G' m' q' A' → sim pat G' (Sys m' (<[t := q']> (pcs s))) A'.
Proof.
  intros HS Hq HM. assert (∀ u q2, <[t := q']> (pcs s) !! u = Some q2 → (u = t ∧ q2 = q') ∨ (u ≠ t ∧ pcs s !! u = Some q2)) as Hpc.
  { intros u q2 [(<- & <- & _)|[? ?]]%list_lookup_insert_Some; [by left|by right]. }
  constructor; simpl.
  - apply HM.
  - intros u q2 [[-> ->]|[Hne Hu]]%Hpc; [apply HM|]. destruct (sm_thread _ _ _ _ HS u q2 Hu) as (x & Hx & Hok). exists x.
    rewrite (mv_spec _ _ _ _ _ _ _ _ _ _ HM u Hne). split; [done|].
    destruct (mv_keeps _ _ _ _ _ _ _ _ _ _ HM u q2 Hne Hu). by eapply thread_ok_keeps; [apply HS|..].
  - intros u q2 [[-> ->]|[Hne Hu]]%Hpc; [apply HM|]. eapply private_ok_spares; [by eapply mv_keeps|by eapply sm_private].
  - intros u q2 [[-> ->]|[Hne Hu]]%Hpc Hin; [by apply HM|]. destruct (mv_old _ _ _ _ _ _ _ _ _ _ HM u q2 Hne Hu Hin) as [-> ?]. done.
  - intros u v q2 q3 Hne [[-> ->]|[Hne' Hu]]%Hpc [[-> ->]|[Hne'' Hv]]%Hpc.
    + done.
    + by eapply mv_apart.
    + apply lf_apart_sym. by eapply mv_apart.
    + destruct (mv_keeps _ _ _ _ _ _ _ _ _ _ HM u q2 Hne' Hu) as [_ ?], (mv_keeps _ _ _ _ _ _ _ _ _ _ HM v q3 Hne'' Hv) as [_ ?].
      eapply apart_spares; [done|done|]. eapply sm_apart; [exact HS|exact Hne|exact Hu|exact Hv].
  - intros u q2 a [[-> ->]|[Hne Hu]]%Hpc; [by eapply mv_pend_self|by eapply mv_pend].
  - intros a W (? & Hr & Hr')%(mv_retired _ _ _ _ _ _ _ _ _ _ HM). split; [done|].
    intros u q2 [[-> ->]|[Hne Hu]]%Hpc; [done|by eapply Hr].
  - apply HM.
  - apply HM.
Qed.

(** [A'] is reached from [A] by linearization points. *)
Definition simulated pat s A (evs : list (ev K V)) : Prop := ∃ A' G', aruns A evs A' ∧ sim pat G' s A'.

Lemma simulated_lf pat s A1 A2 evs1 evs2 : aruns A1 evs1 A2 → simulated pat s A2 evs2 → simulated pat s A1 (evs1 ++ evs2).
Proof. intros H (A' & G' & H1 & H2). exists A', G'. split; [by eapply lf_aruns_app|done]. Qed.

(** The thread may answer from what it has noted. *)
Definition answers x x' : Prop :=
  x' = x ∨ ∃ o seen v r, x = SRun o seen ∧ v ∈ seen ∧ observes o v = Some r ∧ x' = SDone r.
Lemma answers_runs A t x x' : apc A !! t = Some x → answers x x' → aruns A [] (set_apc t x' A).
Proof.
  intros Hx [->|(o & seen & v & r & -> & ? & ? & ->)].
  - replace (set_apc t x A) with A; [constructor|]. destruct A. unfold set_apc. simpl in *. by rewrite list_insert_id.
  - eapply aruns_lin; [by eapply lin_read|constructor].
Qed.

Lemma keeps_refl G m u : keeps G m G m u.
Proof. intros a Ha. split; [done|]. intros nd y Hnd Hy. exists nd, y. by split_and!. Qed.
Lemma spares_refl G m q : spares G m G m q.
Proof. intros o n Ht Hn. by split_and!. Qed.

(** A step that only moves the thread: it owns no more than before. *)
Lemma lf_sim_quiet pat G s A t q q' x x' :
  sim pat G s A → pcs s !! t = Some q → apc A !! t = Some x → answers x x' → thread_ok G (mm s) t q' x' →
  (∀ z, tmpof q' = Some z → tmpof q = Some z) → (∀ a, pend q' = Some a → pend q = Some a) → in_op q' = in_op q →
  simulated pat (Sys (mm s) (<[t := q']> (pcs s))) A [].
Proof.
  intros HS Hq Hx Hans Hok Htmp Hpend Hin. exists (set_apc t x' A), G. split; [by eapply answers_runs|].
  eapply lf_sim_moves; [exact HS|exact Hq|]. constructor; simpl.
  - apply HS.
  - intros u q2 _ _. split; [apply keeps_refl|apply spares_refl].
  - intros u q2 _ Hu Hp. split; [done|]. by eapply sm_old.
  - intros u Hne. by rewrite list_lookup_insert_ne.
  - exists x'. split; [|done]. apply list_lookup_insert_eq. by eapply lookup_lt_Some.
  - intros o n Ht. by apply (sm_private _ _ _ _ HS t q Hq), Htmp.
  - rewrite Hin. intros. by eapply sm_old.
  - intros u q2 Hne Hu. destruct (sm_apart _ _ _ _ HS t u q q2 (not_eq_sym Hne) Hq Hu) as [H1 H2]. split; [naive_solver|].
    intros a a' ??. apply H2; [by apply Hpend|done].
  - intros u q2 a _ Hu. by eapply sm_pend.
  - intros a Ha. eapply sm_pend; [exact HS|exact Hq|by apply Hpend].
  - intros a W HW. destruct (sm_retired _ _ _ _ HS a W HW) as [? Hr]. split; [done|]. split; [by intros; eapply Hr|].
    rewrite Hin. intros. by eapply Hr.
  - apply HS.
  - apply HS.
Qed.

Lemma thread_ok_note G m u q o seen v : thread_ok G m u q (SRun o seen) → thread_ok G m u q (SRun o (v :: seen)).
Proof.
  assert (∀ o', run_ok o' (SRun o seen) → run_ok o' (SRun o (v :: seen))) as Hrun.
  { intros o' (seen' & [= <- _]). by eexists. }
  assert (∀ c, ctx_ok c (SRun o seen) → ctx_ok c (SRun o (v :: seen))) as Hctx.
  { intros c. unfold ctx_ok. destruct (cr c); [done|apply Hrun]. }
  assert (∀ c w, saw c (SRun o seen) w → saw c (SRun o (v :: seen)) w) as Hsaw.
  { intros c w Hs Hc. destruct (Hs Hc) as (seen' & [= -> <-] & ?). eexists. split; [done|by right]. }
  assert (∀ c p a z, hit G m u c p a z (SRun o seen) → hit G m u c p a z (SRun o (v :: seen))) as Hhit.
  { intros c p a z (? & ? & ? & nd & y & ? & ? & ? & ?). split_and!; [done..|]. exists nd, y. split_and!; auto. }
  destruct q as [| | | |c p a|c p a w ck|c p a z|c p a z|o' n p a z f|o' n p a z|o' n p a z ob|o' n p a z ob e|o' n p a b r| | |]; simpl; try done.
  - intros [??]; split; auto.
  - intros ?. by apply Hrun.
  - intros ?. by apply Hctx.
  - intros [? ?]. split; auto.
  - intros (? & ? & ? & nd & y & ? & ? & ? & Hw). split; [auto|]. split; [done|]. split; [done|]. exists nd, y. split_and!; [done..|].
    destruct (getMark w); [done|]. destruct Hw as (? & ? & ?). split; [done|]. split; auto.
  - intros [? ?]. split; auto.
  - intros (? & ? & ? & ?). split; [auto|]. split; [done|]. split; auto.
  - intros (? & ? & Hf). split; [done|]. split; [auto|]. destruct f; [|done]. destruct Hf. split; [done|]. by apply Hhit.
  - intros (? & ? & ?). split; [done|]. split; [by apply Hhit|done].
  - intros [? Ho]. split; [auto|]. destruct ob as [[b w]|]; [|done]. destruct Ho as (? & ? & ?). split; [done|]. split; [by apply Hhit|done].
  - intros [? Ho]. split; [auto|]. destruct ob as [[b w]|]; [|done]. destruct Ho as (? & ? & ?). split; [done|]. split; [by apply Hhit|done].
  - by intros [? _].
  - by intros [_ ?].
Qed.

(** A running operation may note the binding of its key at any time. *)
Lemma lf_sim_note pat G s A t o seen : sim pat G s A → apc A !! t = Some (SRun o seen) →
  ∃ A', aruns A [] A' ∧ sim pat G s A' ∧ apc A' !! t = Some (SRun o (am A !! okey o :: seen)) ∧ am A' = am A.
Proof.
  intros HS Hx. exists (set_apc t (SRun o (am A !! okey o :: seen)) A). split.
  { eapply aruns_lin; [by apply lin_note|constructor]. }
  assert (apc (set_apc t (SRun o (am A !! okey o :: seen)) A) !! t = Some (SRun o (am A !! okey o :: seen))) as Ht.
  { apply list_lookup_insert_eq. by eapply lookup_lt_Some. }
  split; [|by split]. constructor; try apply HS. intros u q Hu.
  destruct (sm_thread _ _ _ _ HS u q Hu) as (x & Hx' & Hok). destruct (decide (u = t)) as [->|Hne].
  - rewrite Hx in Hx'. injection Hx' as <-. eexists. split; [done|]. by apply thread_ok_note.
  - exists x. simpl. by rewrite list_lookup_insert_ne.
Qed.
End inv.
Arguments s_ok {K V lt hash_fn idxSize G m}.
Arguments s_len {K V lt hash_fn idxSize G m}.
Arguments s_chains {K V lt hash_fn idxSize G m}.
Arguments s_pub {K V lt hash_fn idxSize G m}.
Arguments s_dead {K V lt hash_fn idxSize G m}.
Arguments s_own {K V lt hash_fn idxSize G m}.
Arguments s_live {K V lt hash_fn idxSize G m}.
Arguments s_ep {K V lt hash_fn idxSize G m}.
Arguments sm_shared {K V EqDecision0 Countable0 lt hash_fn idxSize pat G s A}.
Arguments sm_thread {K V EqDecision0 Countable0 lt hash_fn idxSize pat G s A}.
Arguments sm_private {K V EqDecision0 Countable0 lt hash_fn idxSize pat G s A}.
Arguments sm_old {K V EqDecision0 Countable0 lt hash_fn idxSize pat G s A}.
Arguments sm_apart {K V EqDecision0 Countable0 lt hash_fn idxSize pat G s A}.
Arguments sm_pend {K V EqDecision0 Countable0 lt hash_fn idxSize pat G s A}.
Arguments sm_retired {K V EqDecision0 Countable0 lt hash_fn idxSize pat G s A}.
Arguments sm_gen {K V EqDecision0 Countable0 lt hash_fn idxSize pat G s A}.
Arguments sm_snap {K V EqDecision0 Countable0 lt hash_fn idxSize pat G s A}.
End LfTableInv.
