(* ===== verification/LfTableRead.v ===== *)
(** * Reading steps of the nonblocking hash table

    What the invariant says about a key at the moment of an access
    ([no_binding], [binding]), and the steps that leave the shared
    memory as it is. *)

From S2P Require Import Prelude HashTable LfHashTable LfChain LfTableInv.
Import LfHashTable LfChain LfTableInv.

Module LfTableRead.
Section read.
Context {K V : Type} `{!EqDecision K, !Countable K} (lt : K → K → Prop) `{!RelDecision lt, !StrictOrder lt, !Trichotomy lt}.
Context (hash_fn : K → Z) (idxSize : Z) (Hsize : 0 < idxSize).
Notation idx := (idx hash_fn idxSize).
Notation chain := (chain lt hash_fn idxSize).
Notation chains := (chains lt hash_fn idxSize).
Notation shared := (shared lt hash_fn idxSize).
Notation prev_ok := (prev_ok lt hash_fn idxSize).
Notation curr_ok := (curr_ok hash_fn idxSize).
Notation hit := (hit lt hash_fn idxSize).
Notation miss := (miss lt hash_fn idxSize).
Notation thread_ok := (thread_ok lt hash_fn idxSize).
Notation sim := (sim lt hash_fn idxSize).
Notation simulated := (simulated lt hash_fn idxSize).
Notation op_step := (op_step lt hash_fn idxSize).
Notation lo_of := (lo_of lt).
Notation mem := (mem K V).
Notation payload := (payload K V).
Notation pc := (pc K V).
Notation op := (op K V).
Notation ctx := (ctx K V).
Notation sys := (sys K V).
Notation ast := (ast K V).
Notation spc := (spc K V).
Implicit Types (m : mem) (p : loc) (q : pc) (o : op) (c : ctx) (s : sys) (A : ast) (x : spc) (y : payload) (nd : node K) (G : ghost).

(** ** What an access shows *)

Lemma survives_now G m b y kv : shared G m → payloads m !! b = Some y →
  survives (epoch m) y = Some kv ↔ is_Some (ep y) ∧ retire y = None ∧ kv = (pkey y, pval y).
Proof.
  intros Hsh Hy. destruct (s_ep Hsh b y Hy) as [H1 H2]. unfold survives. destruct (ep y) as [e|].
  - rewrite (proj2 (Z.leb_le e _)) by auto. simpl. destruct (retire y) as [r|].
    + rewrite (proj2 (Z.leb_le r _)) by auto. naive_solver.
    + naive_solver.
  - split; [done|]. by intros ([??] & _).
Qed.

(** An unmarked published node is the binding of its key. *)
Lemma binding pat G s A a nd y : sim pat G s A → pub G a → nodes (mm s) !! a = Some nd → getMark (next nd) = false →
  payloads (mm s) !! pl nd = Some y → am A !! key nd = Some (pval y).
Proof.
  intros HS Ha Hnd Hmk Hy. pose proof (sm_shared HS) as Hsh.
  destruct (s_pub Hsh a Ha) as (_ & _ & nd' & y' & ? & ? & Hk & Hep & Hret). simplify_eq.
  apply (proj2 (sm_gen HS)). exists (pl nd). unfold surv. rewrite lookup_omap, Hy. simpl.
  apply (survives_now _ _ _ _ _ Hsh Hy). rewrite Hk. split_and!; [done|by apply Hret|done].
Qed.
Lemma binding_inv pat G s A k v : sim pat G s A → am A !! k = Some v →
  ∃ a nd y, a ∈ ch G (idx k) ∧ nodes (mm s) !! a = Some nd ∧ key nd = k ∧ getMark (next nd) = false ∧
    payloads (mm s) !! pl nd = Some y ∧ pval y = v.
Proof.
  intros HS Hv. pose proof (sm_shared HS) as Hsh. apply (proj2 (sm_gen HS)) in Hv as [b Hb].
  unfold surv in Hb. rewrite lookup_omap in Hb. apply bind_Some in Hb as (y & Hy & Hs).
  apply (survives_now _ _ _ _ _ Hsh Hy) in Hs as (Hep & Hret & [= -> ->]).
  destruct (s_live Hsh b y Hy Hep Hret) as (i & a & nd & Ha & Hnd & <-).
  destruct (s_pub Hsh a) as (_ & _ & nd' & y' & ? & ? & Hk & _ & Hmk); [left; by exists i|]. simplify_eq.
  exists a, nd, y. rewrite Hk. split_and!; try done; [|by apply Hmk].
  destruct (chain_elem (s_chains Hsh i) Ha) as (nd' & ? & <-). by simplify_eq.
Qed.

Lemma lo_of_prev G m u k p w k' : prev_ok G m u k p → ¬ lt k' k → lo_of m p w k'.
Proof.
  destruct p as [i|a]; simpl; [done|]. intros [_ (nd & Hnd & Hlt & _)] Hk. exists nd. split; [done|]. unfold above. simpl.
  pose proof (lt_le_trans Hlt Hk). destruct (getMark w); [by apply lt_le|done].
Qed.

(** An unmarked [prev] is linked: [l2] is the chain behind it, and all keys before are smaller. *)
Lemma prev_pos G m u k p w : shared G m → prev_ok G m u k p → load m p = Some w → getMark w = false →
  ∃ l1 l2, at_pos (ch G) m p (idx k) l1 l2 ∧ chain (nodes m) (idx k) (lo_of m p w) w l2 ∧ (∀ a, p = Nxt a → a ∉ l2) ∧
    ∀ b nd, b ∈ l1 → nodes m !! b = Some nd → lt (key nd) k.
Proof.
  intros Hsh Hp Hw Hmk. pose proof (s_chains Hsh) as Hc. destruct p as [i|a].
  - simpl in Hp. subst i. exists [], (ch G (idx k)). split; [split; [done|split_and!; [done|done|by eapply lookup_lt_Some]]|]. split; [|split; [done|by intros b nd ?%elem_of_nil]].
    specialize (Hc (idx k)). simpl in Hw. rewrite Hw in Hc. by eapply chain_lo; [|exact Hc].
  - destruct Hp as [[[[i Ha]|Ha] _] (nd & Hnd & Hlt & Hidx)]; simpl in Hw; rewrite Hnd in Hw; injection Hw as <-.
    2: { destruct (s_dead Hsh a Ha) as (_ & nd' & ? & ?). simplify_eq. congruence. }
    destruct (chain_elem (Hc i) Ha) as (nd' & Hnd' & <-). rewrite Hnd in Hnd'. injection Hnd' as <-. rewrite Hidx in *.
    pose proof (Hc (idx k)) as Hl. apply list_elem_of_split in Ha as (l0 & l2 & Hch). rewrite Hch in Hl.
    pose proof (chain_NoDup Hl) as (_ & _ & (Hni & _)%NoDup_cons)%NoDup_app.
    destruct (chain_at Hl) as (nd' & Hnd' & _ & _ & Hl2 & _). rewrite Hnd in Hnd'. injection Hnd' as <-.
    exists (l0 ++ [a]), l2. split; [split; [by rewrite Hch, <- app_assoc|by exists l0]|]. rewrite (getPtr_plain _ Hmk) in Hl2. split_and!.
    + eapply chain_lo; [|exact Hl2]. intros k' Hk'. exists nd. by rewrite set_next_next.
    + by intros a' [= <-].
    + intros b ndb [Hb| ->%list_elem_of_singleton]%elem_of_app Hndb; [|by simplify_eq].
      apply list_elem_of_split in Hb as (l3 & l4 & ->). rewrite <- app_assoc in Hl. simpl in Hl.
      assert (above lt ndb (key nd)) as Hab%key_above_le.
      { eapply (chain_behind Hl Hndb); [|done]. apply elem_of_app. right. by left. }
      destruct (trichotomy lt (key ndb) (key nd)) as [?|[->|?]]; [by etrans|done|done].
Qed.

(** [prev] points behind the place of the key: it has no binding. *)
Lemma no_binding pat G s A u k p w : sim pat G s A → prev_ok G (mm s) u k p → load (mm s) p = Some w → getMark w = false →
  (w ≠ 0 → node_at (mm s) w (λ nd, lt k (key nd))) → am A !! k = None.
Proof.
  intros HS Hp Hw Hmk Hgt. pose proof (sm_shared HS) as Hsh.
  destruct (prev_pos _ _ _ _ _ _ Hsh Hp Hw Hmk) as (l1 & l2 & [Hch _] & Hl & _ & Hbef).
  destruct (am A !! k) as [v|] eqn:Hv; [|done]. exfalso.
  destruct (binding_inv _ _ _ _ _ _ HS Hv) as (a & nd & y & Ha & Hnd & Hk & _). rewrite Hch in Ha. apply elem_of_app in Ha as [Ha|Ha].
  - specialize (Hbef a nd Ha Hnd). rewrite Hk in Hbef. by eapply (irreflexivity lt).
  - destruct l2 as [|b l2]; [by apply elem_of_nil in Ha|]. destruct Hl as (<- & Hb0 & nb & Hnb & _ & _ & Hl).
    destruct (Hgt Hb0) as (nb' & Hnb' & Hlt). rewrite Hnb in Hnb'. injection Hnb' as <-. apply elem_of_cons in Ha as [->|Ha].
    + simplify_eq. by eapply (irreflexivity lt).
    + assert (above lt nb (key nd)) as Hab%key_above_le; [|by rewrite Hk in Hab].
      exact (chain_lb (up_closed_above lt nb) Hl a nd Ha Hnd).
Qed.

(** The word in an unmarked [prev] is a pointer to a held node of the bucket. *)
Lemma prev_succ G m u k p w : shared G m → old G u ⊆ dead G → prev_ok G m u k p → load m p = Some w → getMark w = false → w ≠ 0 →
  curr_ok G m u k w ∧ w ∈ ch G (idx k).
Proof.
  intros Hsh Hold Hp Hw Hmk Hw0. destruct (prev_pos _ _ _ _ _ _ Hsh Hp Hw Hmk) as (l1 & l2 & [Hch _] & Hl & _ & _).
  destruct l2 as [|b l2]; [done|]. destruct Hl as (<- & _ & nd & Hnd & Hidx & _).
  assert (w ∈ ch G (idx k)) as Hin by (rewrite Hch; apply elem_of_app; right; by left). split; [|done].
  split; [split; [left; by exists (idx k)|]|by exists nd]. intros Ho%Hold. destruct (s_dead Hsh w Ho) as [Hd _]. by apply (Hd (idx k)).
Qed.
Lemma bucket_load G m k : shared G m → ∃ w, load m (Bkt (idx k)) = Some w ∧ getMark w = false.
Proof using Hsize.
  intros Hsh. assert (idx k < length (buckets m))%nat as [w Hw]%lookup_lt_is_Some_2.
  { rewrite (s_len Hsh). unfold LfHashTable.idx. pose proof (Z.mod_pos_bound (hash_fn k) idxSize Hsize). lia. }
  exists w. split; [done|]. pose proof (s_chains Hsh (idx k)) as Hc. rewrite Hw in Hc. simpl in Hc.
  destruct (ch G (idx k)) as [|a l] eqn:Hl; simpl in Hc; [by subst|]. destruct Hc as (-> & _).
  apply (s_pub Hsh a). left. exists (idx k). rewrite Hl. by left.
Qed.
Lemma prev_load G m u k p : shared G m → prev_ok G m u k p → is_Some (load m p).
Proof using Hsize.
  intros Hsh Hp. destruct p as [i|b]; simpl in Hp; [subst i; destruct (bucket_load G m k Hsh) as (w & ? & _); by exists w|].
  destruct Hp as [_ (nb & Hnb & _)]. simpl. rewrite Hnb. by eexists.
Qed.
(** The same for the link of any held node *)
Lemma node_succ G m u a nd k : shared G m → old G u ⊆ dead G → held G u a → nodes m !! a = Some nd → getMark (next nd) = false →
  next nd ≠ 0 → idx (key nd) = idx k → curr_ok G m u k (next nd).
Proof.
  intros Hsh Hold [[[i Hi]|Hd] Ho] Hnd Hmk Hw0 Hidx.
  2: { destruct (s_dead Hsh a Hd) as (_ & nd' & Hnd' & ?). rewrite Hnd in Hnd'. congruence. }
  destruct (chain_elem (s_chains Hsh i) Hi) as (nd' & Hnd' & <-). rewrite Hnd in Hnd'. injection Hnd' as <-.
  pose proof (s_chains Hsh (idx (key nd))) as Hc. apply list_elem_of_split in Hi as (l1 & l2 & Hch). rewrite Hch in Hc.
  destruct (chain_at Hc) as (nd' & Hnd' & _ & _ & Hl & _). rewrite Hnd in Hnd'. injection Hnd' as <-. rewrite (getPtr_plain _ Hmk) in Hl.
  destruct l2 as [|b l2]; [done|]. destruct Hl as (Hb & _ & nb & Hnb & Hib & _). subst b.
  assert (next nd ∈ ch G (idx (key nd))) as Hin by (rewrite Hch; apply elem_of_app; right; right; by left).
  split; [split; [left; by eexists|]|by exists nb; rewrite Hib]. intros Hd%Hold. destruct (s_dead Hsh _ Hd) as [Hd' _]. by apply (Hd' (idx (key nd))).
Qed.

(** ** Where [findNode] returns to *)

Definition tmp_shape c : Prop := cr c = None → match oval (co c) with None => cn c = 0 | Some _ => cn c ≠ 0 end.

Lemma find_ret_ok G m u c p a z (b : bool) x : ctx_ok c x → tmp_shape c →
  (if b then hit G m u c p a z x else miss G m u (okey (co c)) p a ∧ saw c x None) →
  ∃ x', answers x x' ∧ thread_ok G m u (find_ret c p a z b) x'.
Proof.
  destruct c as [o n [r|]]; unfold ctx_ok, tmp_shape; simpl.
  - intros -> _ _. exists (SDone r). split; [by left|done].
  - intros Hrun Hn Hf. specialize (Hn eq_refl).
    assert (∀ v r, (∃ seen, x = SRun o seen ∧ v ∈ seen) → observes o v = Some r → answers x (SDone r)) as Hans.
    { intros v r (seen & -> & ?) ?. right. by exists o, seen, v, r. }
    unfold find_ret. simpl. destruct o as [k|k v|k v|k|k v], b; simpl in *.
    + exists x. split; [by left|]. split; [by rewrite bool_decide_true|]. split; [done|]. intros Hn0. done.
    + destruct Hf as [_ Hs]. specialize (Hs eq_refl). eexists. split; [by eapply Hans|done].
    + exists x. split; [by left|done].
    + exists x. split; [by left|]. split; [done|]. split; [done|]. split; [done|apply Hf].
    + destruct Hf as (_ & _ & _ & nd & y & _ & _ & _ & Hs). specialize (Hs eq_refl). eexists. split; [by eapply Hans|done].
    + exists x. split; [by left|]. split; [done|]. split; [done|]. split; [done|apply Hf].
    + exists x. split; [by left|]. split; [done|]. split; [done|]. intros Hn0. done.
    + destruct Hf as [_ Hs]. specialize (Hs eq_refl). eexists. split; [by eapply Hans|done].
    + exists x. split; [by left|done].
    + destruct Hf as [_ Hs]. specialize (Hs eq_refl). eexists. split; [by eapply Hans|done].
Qed.
Lemma find_at_ok G m u c p a x : ctx_ok c x → tmp_shape c → prev_ok G m u (okey (co c)) p →
  (a ≠ 0 → curr_ok G m u (okey (co c)) a) → (a = 0 → saw c x None) →
  ∃ x', answers x x' ∧ thread_ok G m u (find_at c p a) x'.
Proof.
  intros Hc Ht Hp Ha H0. unfold find_at. destruct (Z.eqb_spec a 0) as [->|Hne].
  - apply find_ret_ok; [done|done|]. split; [|by apply H0]. by split.
  - exists x. split; [by left|]. split; [done|]. split; [done|by apply Ha].
Qed.
Lemma find_ret_shape c p a z (b : bool) : (∀ t, tmpof (find_ret c p a z b) = Some t → ctx_tmp c = Some t) ∧
  pend (find_ret c p a z b) = None ∧ in_op (find_ret c p a z b) = true.
Proof. destruct c as [[k|k v|k v|k|k v] n [r|]], b; unfold ctx_tmp; simpl; by split_and!. Qed.
Lemma find_at_shape c p a : (∀ t, tmpof (find_at c p a) = Some t → ctx_tmp c = Some t) ∧
  pend (find_at c p a) = None ∧ in_op (find_at c p a) = true.
Proof. unfold find_at. destruct (a =? 0); [apply find_ret_shape|]. simpl. by split_and!. Qed.

Lemma sim_tmp_shape pat G s A t q c : sim pat G s A → pcs s !! t = Some q → tmpof q = ctx_tmp c → tmp_shape c.
Proof.
  intros HS Hq Ht Hcr. pose proof (sm_private HS t q Hq) as Hp. unfold private_ok in Hp. rewrite Ht in Hp. unfold ctx_tmp in Hp.
  rewrite Hcr in Hp. specialize (Hp _ _ eq_refl). destruct (oval (co c)); [apply Hp|done].
Qed.

(** ** Steps that read *)

(** A thread in [findNode] notes the binding of its key. *)
Lemma sim_note_ctx pat G s A t x c : sim pat G s A → apc A !! t = Some x → ctx_ok c x →
  ∃ A' x', aruns A [] A' ∧ sim pat G s A' ∧ apc A' !! t = Some x' ∧ ctx_ok c x' ∧ saw c x' (am A !! okey (co c)) ∧ am A' = am A ∧
    ∀ c' v, saw c' x v → saw c' x' v.
Proof.
  intros HS Hx Hc. unfold ctx_ok, saw in *. destruct (cr c) as [r|].
  - exists A, x. split_and!; try done. constructor.
  - destruct Hc as [seen ->]. destruct (lf_sim_note _ _ _ _ _ _ _ _ _ _ HS Hx) as (A' & Hr & HS' & Hx' & Hm).
    exists A', (SRun (co c) (am A !! okey (co c) :: seen)). split; [done|]. split; [done|]. split; [done|]. split; [by eexists|].
    split; [intros _; eexists; split; [done|by left]|]. split; [done|]. intros c' v Hs Hc. destruct (Hs Hc) as (seen' & [= -> <-] & ?). eexists. split; [done|by right].
Qed.

(** The step that [findNode] makes from [q], with what it has noted *)
Lemma sim_read pat G s A t q q' c x : sim pat G s A → pcs s !! t = Some q → apc A !! t = Some x → ctx_ok c x → tmpof q = ctx_tmp c →
  (∀ z, tmpof q' = Some z → ctx_tmp c = Some z) → pend q' = None → in_op q = true → in_op q' = true →
  (∀ x', ctx_ok c x' → saw c x' (am A !! okey (co c)) → (∀ c' v, saw c' x v → saw c' x' v) →
    ∃ x'', answers x' x'' ∧ thread_ok G (mm s) t q' x'') →
  simulated pat (Sys (mm s) (<[t := q']> (pcs s))) A [].
Proof.
  intros HS Hq Hx Hc Htmp Hsub Hpend Hin Hin' Hok.
  destruct (sim_note_ctx _ _ _ _ _ _ _ HS Hx Hc) as (A' & x' & Hr & HS' & Hx' & Hc' & Hsaw & _ & Hmono).
  destruct (Hok x' Hc' Hsaw Hmono) as (x'' & Hans & Hok'). eapply (simulated_lf _ _ _ _ _ _ _ [] []); [exact Hr|].
  eapply lf_sim_quiet; [exact HS'|exact Hq|exact Hx'|exact Hans|exact Hok'|by rewrite Htmp|by rewrite Hpend|by rewrite Hin, Hin'].
Qed.
Section steps.
Context (pat : bool) (G : ghost) (s : sys) (A : ast) (t : nat) (ops : gset nat).
Context (HS : sim pat G s A).
Let Hsh : shared G (mm s) := sm_shared HS.

(** The steps of thread [t] from [q] are simulated. *)
Definition step_sim q : Prop := ∀ m' q', pcs s !! t = Some q → op_step ops (mm s) q = Some (m', q') →
  simulated pat (Sys m' (<[t := q']> (pcs s))) A [].

Lemma step_FHead c : step_sim (FHead c).
Proof using All.
  intros m' q' Hq. destruct (sm_thread HS t _ Hq) as (x & Hx & Hc).
  destruct (bucket_load G (mm s) (okey (co c)) Hsh) as (w & Hw & Hmk). unfold LfHashTable.op_step, at_loc. rewrite Hw. intros [= <- <-].
  rewrite (getPtr_plain _ Hmk). destruct (find_at_shape c (Bkt (idx (okey (co c)))) w) as (Hs1 & Hs2 & Hs3).
  eapply (sim_read _ _ _ _ _ _ _ c x); [exact HS|exact Hq|done..|]. intros x' Hc' Hsaw _.
  apply find_at_ok; [done|by eapply sim_tmp_shape|done| |].
  - intros Hw0. apply (prev_succ _ _ t _ (Bkt (idx (okey (co c)))) w); [done|by eapply (sm_old HS)|done|done|done|done].
  - intros ->. by rewrite (no_binding _ _ _ _ t _ (Bkt (idx (okey (co c)))) 0 HS) in Hsaw.
Qed.

Lemma step_FNext c p a : step_sim (FNext c p a).
Proof using All.
  intros m' q' Hq. destruct (sm_thread HS t _ Hq) as (x & Hx & Hc & Hp & Ha).
  destruct (s_pub Hsh a (proj1 (proj1 Ha))) as (_ & _ & nd & y & Hnd & Hy & Hk & _). unfold LfHashTable.op_step, at_node. rewrite Hnd.
  intros [= <- <-]. eapply (sim_read _ _ _ _ _ _ _ c x); [exact HS|exact Hq|done..|]. intros x' Hc' Hsaw _. exists x'. split; [by left|].
  split; [done|]. split; [done|]. split; [done|]. exists nd, y. split_and!; [done..|].
  destruct (getMark (next nd)) eqn:Hmk; [done|]. destruct Ha as [Ha (nd' & Hnd' & Hidx)]. rewrite Hnd in Hnd'. injection Hnd' as <-.
  assert (load (mm s) (Nxt a) = Some (next nd)) as Hl by (simpl; by rewrite Hnd). split_and!.
  - intros Hw0. eapply node_succ; [done|by eapply (sm_old HS)|done|done|done|done|done].
  - intros Hw0 Hlt. rewrite (no_binding _ _ _ _ t (okey (co c)) (Nxt a) (next nd) HS) in Hsaw; try done.
    split; [done|]. by exists nd.
  - intros Heq. rewrite <- Heq in Hsaw. by rewrite (binding _ _ _ _ _ _ _ HS (proj1 Ha) Hnd Hmk Hy) in Hsaw.
Qed.

Lemma step_FCheck c p a w ck : step_sim (FCheck c p a w ck).
Proof using All.
  intros m' q' Hq. destruct (sm_thread HS t _ Hq) as (x & Hx & Hc & Hp & Ha & nd & y & Hnd & Hy & Hck & Hw).
  destruct (prev_load _ _ _ _ _ Hsh Hp) as [w' Hw'].
  unfold LfHashTable.op_step, at_loc. rewrite Hw'. intros [= <- <-].
  pose proof (sim_tmp_shape _ _ _ _ _ _ c HS Hq eq_refl) as Hshape.
  destruct (Z.eqb_spec w' a) as [->|Hne]; simpl.
  2: { eapply (sim_read _ _ _ _ _ _ _ c x); [exact HS|exact Hq|done..|]. intros x' Hc' _ _. exists x'. split; [by left|done]. }
  destruct (s_pub Hsh a (proj1 (proj1 Ha))) as (Ha0 & Hmka & _). subst ck.
  destruct (getMark w) eqn:Hmk.
  { eapply (sim_read _ _ _ _ _ _ _ c x); [exact HS|exact Hq|done..|]. intros x' Hc' _ _. exists x'. split; [by left|].
    split; [done|]. split; [done|]. split; [done|]. exists nd. split; [done|]. by rewrite Hw. }
  rewrite (getPtr_plain _ Hmk). destruct Hw as (Hw1 & Hw2 & Hw3). destruct (decide (lt (key nd) (okey (co c)))) as [Hlt|Hge].
  - destruct (find_at_shape c (Nxt a) w) as (Hs1 & Hs2 & Hs3).
    eapply (sim_read _ _ _ _ _ _ _ c x); [exact HS|exact Hq|done..|]. intros x' Hc' _ Hmono.
    apply find_at_ok; [done|done| |done|].
    + destruct Ha as [? (nd' & Hnd' & ?)]. rewrite Hnd in Hnd'. injection Hnd' as <-. split; [done|]. by exists nd.
    + intros ->. auto.
  - destruct (find_ret_shape c p a w (bool_decide (key nd = okey (co c)))) as (Hs1 & Hs2 & Hs3).
    eapply (sim_read _ _ _ _ _ _ _ c x); [exact HS|exact Hq|done..|]. intros x' Hc' Hsaw Hmono. apply find_ret_ok; [done|done|].
    case_bool_decide as Hk'.
    + split; [done|]. split; [apply Ha|]. split; [done|]. exists nd, y. split_and!; [done..|]. by apply Hmono, Hw3.
    + assert (lt (okey (co c)) (key nd)) as Hlt by (destruct (trichotomy lt (okey (co c)) (key nd)) as [?|[?|?]]; [done|congruence|done]).
      split; [split; [done|]; intros _; split; [done|by exists nd]|].
      rewrite <- (no_binding _ _ _ _ t _ p a HS Hp Hw' Hmka); [done|]. intros _. by exists nd.
Qed.
Lemma step_OVal o n p a z : step_sim (OVal o n p a z).
Proof using All.
  intros m' q' Hq. destruct (sm_thread HS t _ Hq) as (x & Hx & Ho & Hh & Hr). pose proof Hh as (Hp & Ha & Hmk & nd & y & Hnd & Hk & Hy & Hs).
  unfold LfHashTable.op_step, at_node, at_payload. rewrite Hnd, Hy. intros [= <- <-]. destruct (Hs eq_refl) as (seen & -> & Hseen).
  simpl in Hseen. pose proof (sm_private HS t _ Hq _ _ eq_refl) as Hpriv.
  destruct o as [k|k v|k v|k|k v]; simpl in Ho, Hpriv.
  1: { eapply lf_sim_quiet; [exact HS|exact Hq|exact Hx| |reflexivity|done..]. right. by exists (Get k), seen, (Some (pval y)), (RVal (Some (pval y))). }
  2: { case_bool_decide; [|done]. by destruct Hpriv. }
  all: eapply lf_sim_quiet; [exact HS|exact Hq|exact Hx|by left| |done..]; split; [by eexists|]; split; [done|]; split; [done|]; split; [done|];
    by exists nd, y.
Qed.

Lemma step_OBegin o n p a z old : step_sim (OBegin o n p a z old).
Proof using All.
  intros m' q' Hq. destruct (sm_thread HS t _ Hq) as (x & Hx & Hok). unfold LfHashTable.op_step. intros [= Hst].
  assert (m' = mm s ∧ q' = OCas o n p a z old (epoch (mm s))) as [-> ->]; [|by eapply lf_sim_quiet; [exact HS|exact Hq|exact Hx|by left|exact Hok|..]].
  destruct old as [[b v]|]; [|by injection Hst]. destruct Hok as (_ & _ & Hh & _ & nd & y & Hnd & <- & Hy & _).
  unfold at_payload in Hst. rewrite Hy in Hst.
  assert (default 0 (ep y) ≤ epoch (mm s)) as Hle%Z.leb_le; [|by rewrite Hle in Hst; injection Hst].
  destruct (s_pub Hsh a (proj1 (proj1 (proj2 Hh)))) as (_ & _ & nd' & y' & Hnd' & Hy' & _ & [e He] & _).
  rewrite Hnd in Hnd'. injection Hnd' as <-. rewrite Hy in Hy'. injection Hy' as <-. rewrite He. simpl. by apply (proj1 (s_ep Hsh _ _ Hy)).
Qed.

Lemma step_failed_cas q q' : pcs s !! t = Some q → failed_cas q = Some q' → simulated pat (Sys (mm s) (<[t := q']> (pcs s))) A [].
Proof using All.
  intros Hq Hg. destruct (sm_thread HS t _ Hq) as (x & Hx & Hok).
  destruct q; simpl in *; simplify_eq.
  - eapply lf_sim_quiet; [exact HS|exact Hq|exact Hx|by left|apply Hok|done..].
  - eapply lf_sim_quiet; [exact HS|exact Hq|exact Hx|by left|apply Hok|done..].
  - eapply lf_sim_quiet; [exact HS|exact Hq|exact Hx|by left|apply Hok|done..].
Qed.
End steps.
End read.
End LfTableRead.
