(* ===== verification/LfTableWrite.v ===== *)
(** * Writing steps of the nonblocking hash table

    Unlinking a marked node, linking a new one, and marking a node, with
    or without its replacement behind it: each is a store into the link of a node of
    a chain; only the last two change the abstract map. *)

From S2P Require Import Prelude HashTable LfHashTable LfChain LfTableInv LfTableRead.
Import LfHashTable LfChain LfTableInv LfTableRead.

Module LfTableWrite.
(** ** Effects on the ghost state *)

Definition unlink (i : nat) (l1 l2 : list Z) (a : Z) (G : ghost) : ghost := Gh (upd i (l1 ++ l2) (ch G)) ({[a]} ∪ dead G) (old G).

Lemma unlink_pub i l1 l2 a (G : ghost) b : ch G i = l1 ++ a :: l2 → pub (unlink i l1 l2 a G) b ↔ pub G b.
Proof.
  intros Hch. unfold pub, unlink. simpl. rewrite elem_of_union, elem_of_singleton. split.
  - intros [[j Hj]|[->|Hb]]; [| |by right].
    + left. destruct (decide (j = i)) as [->|Hne]; [rewrite upd_eq in Hj; exists i; rewrite Hch; set_solver|].
      rewrite upd_ne in Hj by done. by exists j.
    + left. exists i. rewrite Hch. set_solver.
  - intros [[j Hj]|Hb]; [|by right; right]. destruct (decide (j = i)) as [->|Hne]; [|left; exists j; by rewrite upd_ne].
    rewrite Hch in Hj. destruct (decide (b = a)) as [->|Hba]; [by right; left|]. left. exists i. rewrite upd_eq. set_solver.
Qed.

Definition link (i : nat) (l1 l2 : list Z) (n : Z) (G : ghost) : ghost := Gh (upd i (l1 ++ n :: l2) (ch G)) (dead G) (old G).

Lemma link_pub i l1 l2 n (G : ghost) b : ch G i = l1 ++ l2 → pub (link i l1 l2 n G) b ↔ b = n ∨ pub G b.
Proof.
  intros Hch. unfold pub, link. simpl. split.
  - intros [[j Hj]|Hb]; [|by right; right]. destruct (decide (j = i)) as [->|Hne]; [|rewrite upd_ne in Hj by done; right; left; by exists j].
    rewrite upd_eq in Hj. destruct (decide (b = n)) as [->|Hbn]; [by left|]. right. left. exists i. rewrite Hch. set_solver.
  - intros [->|[[j Hj]|Hb]]; [left; exists i; rewrite upd_eq; set_solver| |by right]. left. exists j.
    destruct (decide (j = i)) as [->|Hne]; [|by rewrite upd_ne]. rewrite upd_eq. rewrite Hch in Hj. set_solver.
Qed.

Section write.
Context {K V : Type} `{!EqDecision K, !Countable K} (lt : K → K → Prop) `{!RelDecision lt, !StrictOrder lt, !Trichotomy lt}.
Context (hash_fn : K → Z) (idxSize : Z) (Hsize : 0 < idxSize).
Notation idx := (idx hash_fn idxSize).
Notation chain := (chain lt hash_fn idxSize).
Notation chains := (chains lt hash_fn idxSize).
Notation shared := (shared lt hash_fn idxSize).
Notation prev_ok := (prev_ok lt hash_fn idxSize).
Notation curr_ok := (curr_ok hash_fn idxSize).
Notation hit := (hit lt hash_fn idxSize).
Notation miss := (miss lt hash_fn idxSize).
Notation thread_ok := (thread_ok lt hash_fn idxSize).
Notation sim := (sim lt hash_fn idxSize).
Notation moves := (moves lt hash_fn idxSize).
Notation simulated := (simulated lt hash_fn idxSize).
Notation op_step := (op_step lt hash_fn idxSize).
Notation lo_of := (lo_of lt).
Notation mem := (mem K V).
Notation payload := (payload K V).
Notation pc := (pc K V).
Notation op := (op K V).
Notation ctx := (ctx K V).
Notation sys := (sys K V).
Notation ast := (ast K V).
Notation spc := (spc K V).
Implicit Types (m : mem) (p : loc) (q : pc) (o : op) (c : ctx) (s : sys) (A : ast) (x : spc) (y : payload) (nd : node K) (G : ghost).

(** ** Stores *)

Lemma store_lookup m p w b :
  nodes (store m p w) !! b = (λ nd, if decide (p = Nxt b) then set_next w nd else nd) <$> nodes m !! b.
Proof.
  destruct p as [i|a]; simpl; [by destruct (nodes m !! b)|]. destruct (decide (a = b)) as [->|Hne].
  - rewrite lookup_alter_eq. destruct (nodes m !! b); simpl; [by rewrite decide_True|done].
  - rewrite lookup_alter_ne by done. destruct (nodes m !! b); simpl; [rewrite decide_False by congruence; done|done].
Qed.
Lemma store_inv m p w b nd' : nodes (store m p w) !! b = Some nd' → ∃ nd, nodes m !! b = Some nd ∧ key nd' = key nd ∧ pl nd' = pl nd.
Proof. rewrite store_lookup. intros (nd & ? & ->)%fmap_Some. exists nd. split; [done|]. by case_decide. Qed.
Lemma store_payloads m p w ps : store (with_payloads ps m) p w = with_payloads ps (store m p w).
Proof. by destruct p. Qed.
Lemma store_fields m p w : payloads (store m p w) = payloads m ∧ epoch (store m p w) = epoch m ∧
  retired (store m p w) = retired m ∧ fault (store m p w) = fault m ∧ length (buckets (store m p w)) = length (buckets m).
Proof. destruct p; simpl; by rewrite ?length_insert. Qed.

Lemma store_kept m p w b nd : nodes m !! b = Some nd →
  ∃ nd', nodes (store m p w) !! b = Some nd' ∧ key nd' = key nd ∧ pl nd' = pl nd ∧ (p ≠ Nxt b → nd' = nd) ∧ (p = Nxt b → nd' = set_next w nd).
Proof. intros Hnd. rewrite store_lookup, Hnd. simpl. eexists. split; [done|]. destruct (decide (p = Nxt b)) as [->|Hne]; by split_and!. Qed.
(** What a store keeps of a node: its key and payload, and all of it when it is marked *)
Lemma store_node m p w b nd : nodes m !! b = Some nd → (∀ w0, load m p = Some w0 → getMark w0 = false) →
  ∃ nd', nodes (store m p w) !! b = Some nd' ∧ key nd' = key nd ∧ pl nd' = pl nd ∧ (getMark (next nd) = true → nd' = nd) ∧
    (p ≠ Nxt b → nd' = nd) ∧ (p = Nxt b → nd' = set_next w nd).
Proof.
  intros Hnd Hmk. destruct (store_kept m p w b nd Hnd) as (nd' & ? & ? & ? & H1 & H2). exists nd'. split_and!; try done. intros Hm.
  apply H1. intros ->. simpl in Hmk. rewrite Hnd in Hmk. specialize (Hmk _ eq_refl). congruence.
Qed.

Lemma lo_of_mark m p w w' k : getMark w = getMark w' → lo_of m p w k → lo_of m p w' k.
Proof.
  intros Hmk. destruct p as [i|a]; simpl; [done|]. intros (nd & ? & Hab). exists nd. split; [done|].
  unfold above in *. simpl in *. by rewrite <- Hmk.
Qed.

(** [prev] is not private, and not dead. *)
Lemma prev_pub G m u k p a : prev_ok G m u k p → p = Nxt a → pub G a.
Proof. intros Hp ->. apply Hp. Qed.

Lemma keeps_store G m p w ps G' u : shared G m → (∀ w0, load m p = Some w0 → getMark w0 = false) →
  (∀ a, held G u a → held G' u a) →
  (∀ a nd y, pub G a → nodes m !! a = Some nd → payloads m !! pl nd = Some y → ∃ y', ps !! pl nd = Some y' ∧ pval y' = pval y) →
  keeps G m G' (with_payloads ps (store m p w)) u.
Proof.
  intros Hsh Hmk Hh Hps a Ha. split; [by apply Hh|]. intros nd y Hnd Hy.
  destruct (store_node m p w a nd Hnd Hmk) as (nd' & ? & ? & ? & Hm & _). destruct (Hps _ _ _ (proj1 Ha) Hnd Hy) as (y' & ? & ?).
  exists nd', y'. split_and!; try done. intros Hm'. by rewrite (Hm Hm').
Qed.
Lemma spares_store G m p w ps G' q : (∀ a, p = Nxt a → pub G a) →
  (∀ o n, tmpof q = Some (o, n) → n ≠ 0 → ¬ pub G n) →
  (∀ o n nd, tmpof q = Some (o, n) → n ≠ 0 → nodes m !! n = Some nd → ps !! pl nd = payloads m !! pl nd) →
  (∀ o n, tmpof q = Some (o, n) → n ≠ 0 → ¬ pub G n → ¬ pub G' n) →
  spares G m G' (with_payloads ps (store m p w)) q.
Proof.
  intros Hp Hn Hps Hpub o n Ht Hn0. split_and!; [|by eauto..]. simpl. rewrite store_lookup. destruct (nodes m !! n); simpl; [|done].
  rewrite decide_False; [done|]. intros ->. by apply (Hn _ _ Ht Hn0), Hp.
Qed.
Lemma sim_tmp_not_pub pat G s A u q o n : sim pat G s A → pcs s !! u = Some q → tmpof q = Some (o, n) → n ≠ 0 →
  ¬ pub G n ∧ getMark n = false ∧ ∃ v w b, oval o = Some v ∧ nodes (mm s) !! n = Some (Node w b (okey o)) ∧
    payloads (mm s) !! b = Some (Payload (okey o) v None None).
Proof.
  intros HS Hu Ht Hn. pose proof (sm_private HS u q Hu o n Ht) as Hp. destruct (oval o) as [v|]; [|done].
  destruct Hp as (_ & ? & ? & w & b & ? & ?). split; [done|]. split; [done|]. by exists v, w, b.
Qed.

Lemma apart_next m m' q q' q2 : apart m q q2 → (∀ z, tmpof q' = Some z → tmpof q = Some z) →
  (∀ n nd', nodes m' !! n = Some nd' → ∃ nd, nodes m !! n = Some nd ∧ pl nd = pl nd') →
  (∀ a a', pend q' = Some a → pend q2 = Some a' → a ≠ a') → apart m' q' q2.
Proof.
  intros [H1 H2] Ht Hn Hp. split; [|done]. intros o n o' n' Hq Hq2 Hn0 Hn0'. destruct (H1 _ _ _ _ (Ht _ Hq) Hq2 Hn0 Hn0') as [? H3].
  split; [done|]. intros nd nd' (nd1 & ? & <-)%Hn (nd2 & ? & <-)%Hn. by apply H3.
Qed.

(** A step inside an operation that neither retires nor destructs a node *)
Lemma moves_write pat G s A t q G' m' q' A' x' : sim pat G s A → pcs s !! t = Some q → in_op q = true → in_op q' = true →
  shared G' m' → old G' = old G → dead G ⊆ dead G' → retired m' = retired (mm s) →
  (∀ u q2, u ≠ t → pcs s !! u = Some q2 → keeps G (mm s) G' m' u ∧ spares G (mm s) G' m' q2) →
  (∀ u, u ≠ t → apc A' !! u = apc A !! u) → apc A' !! t = Some x' → thread_ok G' m' t q' x' → private_ok G' m' q' →
  (∀ u q2, u ≠ t → pcs s !! u = Some q2 → apart m' q' q2) →
  (∀ a, pend q' = Some a → a ∈ dead G' ∧ a ∉ old G t ∧ retired (mm s) !! a = None) →
  gen_rep (surv (epoch m') (payloads m')) (am A') →
  (pat = true → gen_rep (surv (epoch m' - 1) (payloads m')) (default ∅ (asnap A' !! 0%nat)) ∧
    gen_rep (surv (epoch m' - 2) (payloads m')) (default ∅ (asnap A' !! 1%nat))) →
  moves pat G s A t q G' m' q' A'.
Proof.
  intros HS Hq Hin Hin' Hsh Hold Hdead Hret Hk Hspec Hx Hok Hpriv Hap Hpend Hgen Hsnap. constructor; rewrite ?Hold, ?Hret; try done.
  - intros u q2 Hne Hu Hop. split; [done|]. etrans; [by eapply (sm_old HS)|done].
  - by exists x'.
  - intros _. etrans; [by eapply (sm_old HS)|done].
  - intros u q2 a Hne Hu Ha. destruct (sm_pend HS u q2 a Hu Ha) as (? & ? & ?). split_and!; auto.
  - intros a W HW. destruct (sm_retired HS a W HW) as [? Hr]. split; [auto|]. split; [by intros; eapply Hr|]. intros _ Ho. by eapply Hr.
Qed.
(** ** A marked node is unlinked *)

Lemma chains_unlink G m u k p a nda : shared G m → prev_ok G m u k p → load m p = Some a → getMark a = false → a ≠ 0 →
  nodes m !! a = Some nda → ∃ l1 l2, ch G (idx k) = l1 ++ a :: l2 ∧ a ∉ l1 ∧ a ∉ l2 ∧
    (∀ b nd, b ∈ l1 → nodes m !! b = Some nd → lt (key nd) k) ∧
    chain (nodes m) (idx k) (above lt nda) (getPtr (next nda)) l2 ∧
    chains (store m p (getPtr (next nda))) (upd (idx k) (l1 ++ l2) (ch G)).
Proof.
  intros Hsh Hp Hl Hmk Ha0 Hnda. destruct (prev_pos _ _ _ _ _ _ _ _ _ Hsh Hp Hl Hmk) as (l1 & l2 & Hpos & Hc & Hni & Hbef).
  pose proof Hpos as [Hch _]. destruct l2 as [|b l2]; [done|]. simpl in Hc. destruct Hc as (<- & _ & nd & Hnd & _ & Hlo & Hl2).
  rewrite Hnda in Hnd. injection Hnd as <-.
  pose proof (s_chains Hsh (idx k)) as Hnodup. rewrite Hch in Hnodup. apply chain_NoDup, NoDup_app in Hnodup as (_ & Hd & [??]%NoDup_cons).
  exists l1, l2. split_and!; [done|intros Ha; apply (Hd a Ha); by left|done|done|done|].
  eapply chain_splice; [done|done|apply (s_chains Hsh)|exact Hpos| |].
  - intros b Hb. specialize (Hni b Hb). set_solver.
  - replace (match p with Bkt _ => getPtr (next nda) | Nxt _ => getPtr (getPtr (next nda)) end) with (getPtr (next nda)).
    2: { destruct p; [done|]. by rewrite (getPtr_plain (getPtr _)) by apply getMark_getPtr. }
    eapply chain_lo; [|exact Hl2]. intros k' Hk'%key_above_le. eapply lo_of_mark; [|by eapply lo_of_up].
    by rewrite Hmk, getMark_getPtr.
Qed.

Lemma shared_unlink G m u k p a nda l1 l2 : shared G m → prev_ok G m u k p → load m p = Some a → getMark a = false →
  nodes m !! a = Some nda → getMark (next nda) = true → ch G (idx k) = l1 ++ a :: l2 → a ∉ l1 → a ∉ l2 →
  chains (store m p (getPtr (next nda))) (upd (idx k) (l1 ++ l2) (ch G)) →
  shared (unlink (idx k) l1 l2 a G) (store m p (getPtr (next nda))).
Proof.
  intros Hsh Hp Hl Hmk Hnda Hmka Hch Hl1 Hl2 Hc. set (z := getPtr (next nda)) in *.
  destruct (store_fields m p z) as (Ef1 & Ef2 & _ & Ef4 & Ef5). pose proof (λ b, unlink_pub _ _ _ _ _ b Hch) as Hpub.
  assert (∀ w0, load m p = Some w0 → getMark w0 = false) as Hun by congruence.
  constructor; rewrite ?Ef1, ?Ef2, ?Ef4, ?Ef5; try apply Hsh; [done|..].
  - intros b Hb%Hpub. destruct (s_pub Hsh b Hb) as (? & ? & nd & y & Hnd & ? & ? & ? & Hret). split; [done|]. split; [done|].
    destruct (store_node m p z b nd Hnd Hun) as (nd' & ? & Hk & Hpl & _ & Hs1 & Hs2). exists nd', y. rewrite Ef1, Hk, Hpl. split_and!; try done.
    rewrite Hret. destruct (decide (p = Nxt b)) as [->|Hne]; [|by rewrite Hs1].
    rewrite Hs2 by done. simpl in Hl. rewrite Hnd in Hl. simpl. injection Hl as Hl. unfold z. rewrite getMark_getPtr. by rewrite Hl.
  - intros b. simpl. rewrite elem_of_union, elem_of_singleton. intros Hb. assert (pub G b) as Hpb by (destruct Hb as [->|Hb]; [left; exists (idx k); rewrite Hch; set_solver|by right]).
    assert (∃ nd, nodes m !! b = Some nd ∧ getMark (next nd) = true) as (nd & Hnd & Hmb).
    { destruct Hb as [->|Hb]; [by exists nda|]. by apply (s_dead Hsh). }
    destruct (store_node m p z b nd Hnd Hun) as (nd' & ? & _ & _ & Heq & _). split; [|rewrite (Heq Hmb) in *; by exists nd].
    intros j Hj. destruct Hb as [->|Hb].
    + destruct (decide (j = idx k)) as [->|Hne]; [rewrite upd_eq in Hj; set_solver|]. rewrite upd_ne in Hj by done.
      apply Hne. eapply chains_disjoint; [apply (s_chains Hsh)|exact Hj|rewrite Hch; set_solver].
    + destruct (s_dead Hsh b Hb) as [Hd _]. destruct (decide (j = idx k)) as [->|Hne].
      * apply (Hd (idx k)). rewrite upd_eq in Hj. rewrite Hch. set_solver.
      * apply (Hd j). by rewrite upd_ne in Hj.
  - intros b b' nd nd' Hb%Hpub Hb'%Hpub (nd1 & ? & _ & ->)%store_inv (nd2 & ? & _ & ->)%store_inv. by eapply (s_own Hsh b b').
  - intros b y Hy Hep Hret. destruct (s_live Hsh b y Hy Hep Hret) as (i & a' & nd & Ha' & Hnd & Hpl).
    destruct (store_node m p z a' nd Hnd Hun) as (nd' & ? & _ & Hpl' & _). exists i, a', nd'. rewrite Hpl'. split_and!; [|done|done].
    simpl. destruct (decide (i = idx k)) as [->|Hne]; [|by rewrite upd_ne]. rewrite upd_eq. rewrite Hch in Ha'.
    assert (a' ≠ a); [|set_solver]. intros ->. rewrite Hnda in Hnd. injection Hnd as <-.
    destruct (s_pub Hsh a) as (_ & _ & nd2 & y2 & Hnd2 & Hy2 & _ & _ & Hret2); [left; exists (idx k); rewrite Hch; set_solver|].
    rewrite Hnda in Hnd2. injection Hnd2 as <-. rewrite Hpl, Hy in Hy2. injection Hy2 as <-. apply Hret2 in Hret. congruence.
Qed.
(** ** Survivors *)

Lemma surv_same (c : Z) (ps : gmap Z payload) b y' : survives c y' = (ps !! b ≫= survives c) → surv c (<[b := y']> ps) = surv c ps.
Proof.
  intros Heq. apply map_eq. intros b'. unfold surv. rewrite !lookup_omap. destruct (decide (b' = b)) as [->|Hne].
  - rewrite lookup_insert_eq. done.
  - by rewrite lookup_insert_ne.
Qed.
Lemma surv_insert (c : Z) (ps : gmap Z payload) b y' kv : survives c y' = Some kv → surv c (<[b := y']> ps) = <[b := kv]> (surv c ps).
Proof. intros Heq. unfold surv. by apply omap_insert_Some. Qed.
Lemma surv_remove (c : Z) (ps : gmap Z payload) b y' : survives c y' = None → surv c (<[b := y']> ps) = delete b (surv c ps).
Proof. intros Heq. unfold surv. by apply omap_insert_None. Qed.
Lemma surv_delete (c : Z) (ps : gmap Z payload) b : (ps !! b ≫= survives c) = None → surv c (delete b ps) = surv c ps.
Proof.
  intros Heq. apply map_eq. intros b'. unfold surv. rewrite !lookup_omap. destruct (decide (b' = b)) as [->|Hne].
  - by rewrite lookup_delete_eq, Heq.
  - by rewrite lookup_delete_ne.
Qed.
Lemma surv_fresh (c : Z) (ps : gmap Z payload) b k v : ps !! b = Some (Payload k v None None) → surv c ps !! b = None.
Proof. intros Hb. unfold surv. by rewrite lookup_omap, Hb. Qed.

(** Publishing or retiring a payload in the current epoch is invisible to the earlier ones. *)
Lemma surv_publish_old (c : Z) e (ps : gmap Z payload) b k v : ps !! b = Some (Payload k v None None) → c < e →
  surv c (<[b := Payload k v (Some e) None]> ps) = surv c ps.
Proof. intros Hb Hc. apply surv_same. rewrite Hb. unfold survives. simpl. by rewrite (proj2 (Z.leb_gt e c)). Qed.
Lemma surv_retire_old (c : Z) e (ps : gmap Z payload) b y : ps !! b = Some y → retire y = None → c < e →
  surv c (<[b := set_retire e y]> ps) = surv c ps.
Proof. intros Hb Hr Hc. apply surv_same. rewrite Hb. unfold survives. simpl. by rewrite Hr, (proj2 (Z.leb_gt e c)). Qed.

Lemma gen_rep_insert (L : gmap Z (K * V)) (M : gmap K V) b k v : gen_rep L M → L !! b = None → M !! k = None →
  gen_rep (<[b := (k, v)]> L) (<[k := v]> M).
Proof.
  intros [Hu Hg] Hb Hk. split.
  - intros b1 b2 k' v1 v2. rewrite !lookup_insert_Some. intros [[<- [= <- <-]]|[Hne1 H1]] [[<- [= <-]]|[Hne2 H2]]; try done.
    + exfalso. assert (M !! k = Some v2) by (apply Hg; by exists b2). congruence.
    + subst. exfalso. assert (M !! k = Some v1) by (apply Hg; by exists b1). congruence.
    + by eapply Hu.
  - intros k' v'. rewrite lookup_insert_Some. split.
    + intros [[<- <-]|[Hne (b' & Hb')%Hg]]; [exists b; by rewrite lookup_insert_eq|]. exists b'. rewrite lookup_insert_ne; congruence.
    + intros (b' & [[<- [= <- <-]]|[Hne Hb']]%lookup_insert_Some); [by left|]. right.
      assert (M !! k' = Some v') as Hk' by (apply Hg; by exists b'). split; [congruence|done].
Qed.
Lemma gen_rep_delete (L : gmap Z (K * V)) (M : gmap K V) b k v : gen_rep L M → L !! b = Some (k, v) → gen_rep (delete b L) (delete k M).
Proof.
  intros [Hu Hg] Hb. split.
  - intros b1 b2 k' v1 v2 [_ H1]%lookup_delete_Some [_ H2]%lookup_delete_Some. by eapply Hu.
  - intros k' v'. rewrite lookup_delete_Some. split.
    + intros [Hne (b' & Hb')%Hg]. exists b'. rewrite lookup_delete_ne; [done|]. congruence.
    + intros (b' & [Hne Hb']%lookup_delete_Some). split; [|apply Hg; by exists b']. intros ->. apply Hne. by eapply Hu.
Qed.

(** ** A new node is linked *)

(** Publishing the payload of a node of its own and adding the node to a chain keeps everything but the chains. *)
Lemma table_shared_link G m p w i l1 l2 n nx b k v : shared G m →
  (∀ a nd, p = Nxt a → nodes m !! a = Some nd → getMark w = getMark (next nd)) → (∀ a, p = Nxt a → a ∈ ch G i) → ch G i = l1 ++ l2 → n ≠ 0 → getMark n = false → getMark nx = false → ¬ pub G n →
  nodes m !! n = Some (Node nx b k) → payloads m !! b = Some (Payload k v None None) →
  chains (store m p w) (upd i (l1 ++ n :: l2) (ch G)) →
  shared (link i l1 l2 n G) (with_payloads (<[b := Payload k v (Some (epoch m)) None]> (payloads m)) (store m p w)).
Proof.
  intros Hsh Hmk Hp Hch Hn0 Hn Hnx Hnp Hnd Hb Hc. destruct (store_fields m p w) as (Ef1 & Ef2 & _ & Ef4 & Ef5).
  pose proof (λ b, link_pub _ _ _ n _ b Hch) as Hpub.
  assert (p ≠ Nxt n) as Hpn by (intros ->; apply Hnp; left; exists i; by apply Hp).
  assert (∀ a nd y, pub G a → nodes m !! a = Some nd → payloads m !! pl nd = Some y → pl nd ≠ b) as Hplb.
  { intros a nd y Ha Hnda Hy Heq. destruct (s_pub Hsh a Ha) as (_ & _ & nd' & y' & Hnd' & Hy' & _ & [e He] & _).
    rewrite Hnda in Hnd'. injection Hnd' as <-. rewrite Heq, Hb in Hy'. by injection Hy' as <-. }
  constructor; simpl; rewrite ?Ef2, ?Ef4, ?Ef5; try apply Hsh; [done|..].
  - intros a [->|Ha]%Hpub.
    + split; [done|]. split; [done|]. exists (Node nx b k), (Payload k v (Some (epoch m)) None). simpl.
      rewrite store_lookup, Hnd. simpl. rewrite decide_False, lookup_insert_eq by done. split_and!; by try eexists.
    + destruct (s_pub Hsh a Ha) as (? & ? & nd & y & Hnda & Hy & ? & ? & Hret). split; [done|]. split; [done|].
      destruct (store_kept m p w a nd Hnda) as (nd' & ? & Hk & Hpl & Hs1 & Hs2). exists nd', y. simpl. rewrite Hk, Hpl.
      rewrite lookup_insert_ne by (by apply not_eq_sym, (Hplb a nd y)). split_and!; try done.
      rewrite Hret. destruct (decide (p = Nxt a)) as [->|Hne]; [|by rewrite Hs1].
      rewrite Hs2 by done. simpl. by rewrite (Hmk a nd).
  - intros a Ha. destruct (s_dead Hsh a Ha) as [Hd (nd & Hnda & Hma)].
    destruct (store_kept m p w a nd Hnda) as (nd' & ? & _ & _ & Heq & _).
    split; [|rewrite Heq in *; [by exists nd|intros ->; by apply (Hd i), Hp]].
    intros j Hj. destruct (decide (j = i)) as [->|Hne]; [|apply (Hd j); by rewrite upd_ne in Hj]. rewrite upd_eq in Hj.
    assert (a ≠ n) as Han by (intros ->; apply Hnp; by right). apply (Hd i). rewrite Hch. set_solver.
  - intros a a' nd nd' Ha%Hpub Ha'%Hpub (nd1 & Hnd1 & _ & ->)%store_inv (nd2 & Hnd2 & _ & ->)%store_inv Heq.
    assert (∀ a nd, pub G a → nodes m !! a = Some nd → pl nd ≠ b) as Hplb'.
    { intros a1 nd3 Ha1 Hnd3. destruct (s_pub Hsh a1 Ha1) as (_ & _ & nd4 & y & Hnd4 & Hy & _). rewrite Hnd3 in Hnd4. injection Hnd4 as <-.
      by eapply Hplb. }
    destruct Ha as [->|Ha], Ha' as [->|Ha']; [done| | |by eapply (s_own Hsh a a')].
    + rewrite Hnd in Hnd1. injection Hnd1 as <-. by destruct (Hplb' a' nd2 Ha' Hnd2).
    + rewrite Hnd in Hnd2. injection Hnd2 as <-. by destruct (Hplb' a nd1 Ha Hnd1).
  - intros b' y [[<- <-]|[Hne Hy]]%lookup_insert_Some Hep Hret.
    + exists i, n, (Node nx b k). rewrite store_lookup, Hnd. simpl. rewrite decide_False, upd_eq by done. split_and!; [set_solver|done|done].
    + destruct (s_live Hsh b' y Hy Hep Hret) as (j & a & nd & Ha & Hnda & Hpl).
      destruct (store_kept m p w a nd Hnda) as (nd' & ? & _ & Hpl' & _). exists j, a, nd'. rewrite Hpl'. split_and!; [|done|done].
      destruct (decide (j = i)) as [->|?]; [|by rewrite upd_ne]. rewrite upd_eq. rewrite Hch in Ha. set_solver.
  - intros b' y [[<- <-]|[Hne Hy]]%lookup_insert_Some; [simpl; split; [by intros ? [= <-]|done]|by apply (s_ep Hsh b')].
Qed.

Section unlink.
Context (pat : bool) (G : ghost) (s : sys) (A : ast) (t : nat).

(** The unlinking thread goes on to retire the node. *)
Lemma sim_unlink k p a nda q : sim pat G s A → pcs s !! t = Some q → in_op q = true → prev_ok G (mm s) t k p →
  load (mm s) p = Some a → curr_ok G (mm s) t k a → nodes (mm s) !! a = Some nda → getMark (next nda) = true →
  let z := getPtr (next nda) in let m' := store (mm s) p z in
  ∃ G', shared G' m' ∧ keeps G (mm s) G' m' t ∧ spares G (mm s) G' m' q ∧
    (z ≠ 0 → curr_ok G' m' t k z) ∧ (z = 0 → am A !! k = None) ∧
    ∀ A' q' x', sim pat G s A' → am A' = am A → apc A' !! t = Some x' → thread_ok G' m' t q' x' → in_op q' = true → pend q' = Some a →
      (∀ w, tmpof q' = Some w → tmpof q = Some w) → sim pat G' (Sys m' (<[t := q']> (pcs s))) A'.
Proof using Hsize StrictOrder0 Trichotomy0.
  intros HS Hq Hin Hp Hl [Ha Hidx] Hnda Hmka z m'. pose proof (sm_shared HS) as Hsh.
  destruct (s_pub Hsh a (proj1 Ha)) as (Ha0 & Hmk & _).
  destruct (chains_unlink _ _ _ _ _ _ _ Hsh Hp Hl Hmk Ha0 Hnda) as (l1 & l2 & Hch & Hl1 & Hl2 & Hbef & Hbeh & Hc).
  pose proof (shared_unlink _ _ _ _ _ _ _ _ _ Hsh Hp Hl Hmk Hnda Hmka Hch Hl1 Hl2 Hc) as Hsh'.
  fold z in Hbeh, Hc, Hsh'. fold m' in Hc, Hsh'. pose proof (λ b, unlink_pub _ _ _ _ _ b Hch) as Hpub.
  assert (m' = with_payloads (payloads (mm s)) m') as Hm'.
  { unfold m'. rewrite <- store_payloads. by destruct (mm s). }
  assert (∀ w0, load (mm s) p = Some w0 → getMark w0 = false) as Hun by congruence.
  set (G' := unlink (idx k) l1 l2 a G) in *.
  assert (∀ u, keeps G (mm s) G' m' u) as Hkeep.
  { intros u. rewrite Hm'. unfold m'. eapply keeps_store; [done|done| |by eauto]. intros b [Hb Ho]. split; [by apply Hpub|done]. }
  assert (∀ u q2, pcs s !! u = Some q2 → spares G (mm s) G' m' q2) as Hspare.
  { intros u q2 Hu. rewrite Hm'. unfold m'. apply spares_store; [intros b Hb; by eapply prev_pub| |done|by intros; rewrite Hpub].
    intros o n Ht Hn. by apply (sim_tmp_not_pub _ _ _ _ _ _ _ _ HS Hu Ht Hn). }
  destruct (store_fields (mm s) p z) as (Ef1 & Ef2 & Ef3 & _). fold m' in Ef1, Ef2, Ef3.
  assert (a ∉ dead G) as Had.
  { intros Hd. destruct (s_dead Hsh a Hd) as [Hd' _]. apply (Hd' (idx k)). rewrite Hch. set_solver. }
  assert (retired (mm s) !! a = None) as Har.
  { destruct (retired (mm s) !! a) as [W|] eqn:HW; [|done]. by destruct (sm_retired HS a W HW). }
  assert (∀ b, b ∈ l2 → b ∈ ch G (idx k)) as Hl2in by (intros b Hb; rewrite Hch; set_solver).
  exists G'. split; [done|]. split; [by apply Hkeep|]. split; [by eapply Hspare|]. split; [|split].
  - intros Hz. destruct l2 as [|b l2]; [done|]. destruct Hbeh as (<- & _ & nb & Hnb & Hib & _). assert (held G t z) as Hz'.
    { split; [left; exists (idx k); apply Hl2in; by left|]. intros Ho%(sm_old HS t _ Hq Hin). destruct (s_dead Hsh z Ho) as [Hd _].
      apply (Hd (idx k)), Hl2in. by left. }
    eapply keeps_curr; [exact Hsh|apply Hkeep|]. split; [done|by exists nb].
  - intros Hz. destruct (am A !! k) as [v|] eqn:Hv; [|done]. exfalso.
    destruct (binding_inv _ _ _ _ _ _ _ _ _ HS Hv) as (b & nd & y & Hb & Hnd & Hk & Hub & _).
    assert (l2 = []) as -> by (destruct l2 as [|b' l2]; [done|]; destruct Hbeh as (? & ? & _); congruence).
    rewrite Hch in Hb. apply elem_of_app in Hb as [Hb| ->%list_elem_of_singleton].
    + specialize (Hbef b nd Hb Hnd). rewrite Hk in Hbef. by eapply (irreflexivity lt).
    + congruence.
  - intros A' q' x' HS' Ham Hx' Hok Hin' Hpend Htmp. eapply lf_sim_moves; [exact HS'|exact Hq|].
    eapply moves_write; try done; rewrite ?Ef1, ?Ef2; [set_solver|by intros; eauto|..].
    + intros o n Ho%Htmp. eapply private_ok_spares; [by eapply Hspare|by eapply (sm_private HS)|done].
    + intros u q2 Hne Hu. eapply apart_next; [by eapply (sm_apart HS t u)|done| |].
      * intros n nd' (nd & ? & _ & ->)%store_inv. by exists nd.
      * rewrite Hpend. intros a1 a2 [= <-] Ha2 <-. by destruct (sm_pend HS u q2 _ Hu Ha2).
    + rewrite Hpend. intros a1 [= <-]. split_and!; [set_solver|apply Ha|done].
    + rewrite Ham. apply HS.
    + apply HS'.
Qed.
Lemma step_FUnlink c p a z m' q' ops : sim pat G s A → pcs s !! t = Some (FUnlink c p a z) →
  op_step ops (mm s) (FUnlink c p a z) = Some (m', q') → simulated pat (Sys m' (<[t := q']> (pcs s))) A [].
Proof using Hsize StrictOrder0 Trichotomy0.
  intros HS Hq. destruct (sm_thread HS t _ Hq) as (x & Hx & Hc & Hp & Ha & nda & Hnda & Hmka & <-). pose proof (sm_shared HS) as Hsh.
  destruct (prev_load _ _ _ Hsize _ _ _ _ _ Hsh Hp) as [w Hw]. unfold LfHashTable.op_step, at_loc. rewrite Hw.
  destruct (Z.eqb_spec w a) as [->|Hne]; intros [= <- <-].
  2: { by eapply step_failed_cas. }
  destruct (sim_note_ctx _ _ _ _ _ _ _ _ _ _ HS Hx Hc) as (A' & x' & Hr & HS' & Hx' & Hc' & Hsaw & Ham & _).
  destruct (sim_unlink _ _ _ _ _ HS Hq eq_refl Hp Hw Ha Hnda Hmka) as (G' & Hsh' & Hk & Hs & Hz1 & Hz2 & Hgo).
  exists A', G'. split; [done|]. eapply Hgo; try done. split; [done|]. split; [eapply keeps_prev; [exact Hsh|exact Hk|exact Hp]|]. split; [done|].
  intros Hz. by rewrite Hz2 in Hsaw.
Qed.

Lemma step_OUnlink o n p a b r m' q' ops : sim pat G s A → pcs s !! t = Some (OUnlink o n p a b r) →
  op_step ops (mm s) (OUnlink o n p a b r) = Some (m', q') → simulated pat (Sys m' (<[t := q']> (pcs s))) A [].
Proof using Hsize StrictOrder0 Trichotomy0.
  intros HS Hq. destruct (sm_thread HS t _ Hq) as (x & Hx & Hc & Hp & Ha & nda & Hnda & Hmka & <-). pose proof (sm_shared HS) as Hsh.
  destruct (prev_load _ _ _ Hsize _ _ _ _ _ Hsh Hp) as [w Hw]. unfold LfHashTable.op_step, at_loc. rewrite Hw.
  destruct (Z.eqb_spec w a) as [->|Hne]; intros [= <- <-].
  2: { by eapply step_failed_cas. }
  destruct (sim_unlink _ _ _ _ _ HS Hq eq_refl Hp Hw Ha Hnda Hmka) as (G' & Hsh' & Hk & Hs & _ & _ & Hgo).
  exists A, G'. split; [constructor|]. by eapply Hgo.
Qed.
End unlink.
End write.
End LfTableWrite.
