(* ===== verification/LfTableUpdate.v ===== *)
(** * The steps of the nonblocking hash table that take effect

    Linking a new node, and marking a node with or without its replacement
    behind it. *)

From S2P Require Import Prelude HashTable LfHashTable LfChain LfTableInv LfTableRead LfTableWrite.
Import LfHashTable LfChain LfTableInv LfTableRead LfTableWrite.

Module LfTableUpdate.
Section write.
Context {K V : Type} `{!EqDecision K, !Countable K} (lt : K → K → Prop) `{!RelDecision lt, !StrictOrder lt, !Trichotomy lt}.
Context (hash_fn : K → Z) (idxSize : Z) (Hsize : 0 < idxSize).
Notation idx := (idx hash_fn idxSize).
Notation chain := (chain lt hash_fn idxSize).
Notation chains := (chains lt hash_fn idxSize).
Notation shared := (shared lt hash_fn idxSize).
Notation prev_ok := (prev_ok lt hash_fn idxSize).
Notation curr_ok := (curr_ok hash_fn idxSize).
Notation hit := (hit lt hash_fn idxSize).
Notation miss := (miss lt hash_fn idxSize).
Notation thread_ok := (thread_ok lt hash_fn idxSize).
Notation sim := (sim lt hash_fn idxSize).
Notation moves := (moves lt hash_fn idxSize).
Notation simulated := (simulated lt hash_fn idxSize).
Notation op_step := (op_step lt hash_fn idxSize).
Notation lo_of := (lo_of lt).
Notation mem := (mem K V).
Notation payload := (payload K V).
Notation pc := (pc K V).
Notation op := (op K V).
Notation ctx := (ctx K V).
Notation sys := (sys K V).
Notation ast := (ast K V).
Notation spc := (spc K V).
Implicit Types (m : mem) (p : loc) (q : pc) (o : op) (c : ctx) (s : sys) (A : ast) (x : spc) (y : payload) (nd : node K) (G : ghost).

(** ** A node is marked *)

Lemma store_store m p w w' : store (store m p w) p w' = store m p w'.
Proof.
  destruct p as [i|a]; simpl; unfold with_buckets, with_nodes; simpl; f_equal.
  - apply list_insert_insert_eq.
  - apply map_eq. intros b. destruct (decide (b = a)) as [->|Hne]; [|by rewrite !lookup_alter_ne].
    rewrite !lookup_alter_eq. by destruct (nodes m !! a).
Qed.

(** The marked node stays in the chain, its payload is retired. *)
Lemma shared_mark G m a nd y i : shared G m → a ∈ ch G i → nodes m !! a = Some nd → getMark (next nd) = false →
  payloads m !! pl nd = Some y →
  let m' := with_payloads (<[pl nd := set_retire (epoch m) y]> (payloads m)) (store m (Nxt a) (setMark (next nd))) in
  shared G m'.
Proof.
  intros Hsh Ha Hnd Hmk Hy m'. set (w := setMark (next nd)) in *. destruct (store_fields m (Nxt a) w) as (Ef1 & Ef2 & _ & Ef4 & Ef5).
  assert (∀ w0, load m (Nxt a) = Some w0 → getMark w0 = false) as Hun by (simpl; rewrite Hnd; by intros ? [= <-]).
  assert (pub G a) as Hpa by (left; by exists i). destruct (s_pub Hsh a Hpa) as (Ha0 & Hma & nd' & y' & Hnd' & Hy' & Hk & Hep & Hret).
  rewrite Hnd in Hnd'. injection Hnd' as <-. rewrite Hy in Hy'. injection Hy' as <-.
  assert (∀ b ndb, pub G b → nodes m !! b = Some ndb → b ≠ a → pl ndb ≠ pl nd) as Hpl.
  { intros b ndb Hb Hndb Hne Heq. apply Hne. by eapply (s_own Hsh b a). }
  constructor; simpl; rewrite ?Ef4, ?Ef5; try apply Hsh; try done.
  - destruct (chain_elem (s_chains Hsh i) Ha) as (nd' & Hnd' & Hi). rewrite Hnd in Hnd'. injection Hnd' as <-.
    pose proof (s_chains Hsh i) as Hc. apply list_elem_of_split in Ha as (l0 & l2 & Hch). rewrite Hch in Hc.
    pose proof (chain_NoDup Hc) as (_ & _ & (Hni & _)%NoDup_cons)%NoDup_app.
    destruct (chain_at Hc) as (nd' & Hnd' & _ & _ & Hl2 & _). rewrite Hnd in Hnd'. injection Hnd' as <-.
    assert (chains (store m (Nxt a) w) (upd i ((l0 ++ [a]) ++ l2) (ch G))) as Hc'.
    { eapply chain_splice; [done|done|apply (s_chains Hsh)|split; [by rewrite Hch, <- app_assoc|by exists l0]|by intros b [= <-]|].
      unfold w. rewrite getPtr_setMark. eapply chain_lo; [|exact Hl2]. intros k Hk'. exists nd. split; [done|].
      unfold above in *. simpl. rewrite getMark_setMark. rewrite Hmk in Hk'. by apply lt_le. }
    intros j. specialize (Hc' j). unfold upd in Hc'. rewrite <- app_assoc in Hc'. destruct (decide (j = i)) as [->|]; [|done].
    simpl in Hc'. by rewrite Hch.
  - intros b Hb. destruct (s_pub Hsh b Hb) as (? & ? & ndb & yb & Hndb & Hyb & Hkb & Hepb & Hretb). split; [done|]. split; [done|].
    destruct (store_kept m (Nxt a) w b ndb Hndb) as (nd' & ? & Hk' & Hpl' & Hs1 & Hs2). destruct (decide (b = a)) as [->|Hne].
    + rewrite Hnd in Hndb. injection Hndb as <-. exists nd', (set_retire (epoch m) y). simpl. rewrite Hk', Hpl', lookup_insert_eq.
      split_and!; try done. rewrite Hs2 by done. simpl. unfold w. by rewrite getMark_setMark.
    + assert (nd' = ndb) as -> by (apply Hs1; congruence). exists ndb, yb. simpl.
      rewrite lookup_insert_ne by (by apply not_eq_sym, (Hpl b)). by split_and!.
  - intros b Hb. destruct (s_dead Hsh b Hb) as [Hd (ndb & Hndb & Hmb)]. split; [done|].
    destruct (store_node m (Nxt a) w b ndb Hndb Hun) as (nd' & ? & _ & _ & Heq & _). rewrite (Heq Hmb) in *. by exists ndb.
  - intros b b' nd1 nd2 Hb Hb' (n1 & ? & _ & ->)%(store_inv m (Nxt a) w) (n2 & ? & _ & ->)%(store_inv m (Nxt a) w). by eapply (s_own Hsh b b').
  - intros b y' [[<- <-]|[Hne Hy']]%lookup_insert_Some Hep' Hret'; [done|].
    destruct (s_live Hsh b y' Hy' Hep' Hret') as (j & b' & ndb & Hb' & Hndb & Hplb).
    destruct (store_kept m (Nxt a) w b' ndb Hndb) as (nd' & ? & _ & Hpl' & _). exists j, b', nd'. by rewrite Hpl'.
  - intros b y' [[<- <-]|[Hne Hy']]%lookup_insert_Some; [simpl|by apply (s_ep Hsh b)]. split; [by apply (s_ep Hsh _ _ Hy)|by intros ? [= <-]].
Qed.
(** ** The compare-and-swap succeeds *)

Section update.
Context (pat : bool) (G : ghost) (s : sys) (A : ast) (t : nat) (HS : sim pat G s A).
Let Hsh : shared G (mm s) := sm_shared HS.

(** The payload of a node that is not linked yet belongs to no published node, and to no other thread. *)
Lemma fresh_payload b k v a nd : payloads (mm s) !! b = Some (Payload k v None None) → pub G a → nodes (mm s) !! a = Some nd → pl nd ≠ b.
Proof using HS.
  intros Hb Ha Hnd Heq. destruct (s_pub Hsh a Ha) as (_ & _ & nd' & y' & Hnd' & Hy' & _ & [e He] & _).
  rewrite Hnd in Hnd'. injection Hnd' as <-. rewrite Heq, Hb in Hy'. by injection Hy' as <-.
Qed.
Lemma others_payload q o n u q2 o' n' nd nd' : pcs s !! t = Some q → tmpof q = Some (o, n) → n ≠ 0 → nodes (mm s) !! n = Some nd →
  u ≠ t → pcs s !! u = Some q2 → tmpof q2 = Some (o', n') → n' ≠ 0 → nodes (mm s) !! n' = Some nd' → pl nd ≠ pl nd'.
Proof using HS.
  intros Hq Ht Hn0 Hnd Hne Hu Ht' Hn' Hnd'. destruct (sm_apart HS t u _ q2 (not_eq_sym Hne) Hq Hu) as [Hap _].
  destruct (Hap _ _ _ _ Ht Ht' Hn0 Hn') as [_ Hap']. by apply Hap'.
Qed.
(** A published payload belongs to no thread. *)
Lemma others_published u q2 o n nd b y : pcs s !! u = Some q2 → tmpof q2 = Some (o, n) → n ≠ 0 → nodes (mm s) !! n = Some nd →
  payloads (mm s) !! b = Some y → is_Some (ep y) → b ≠ pl nd.
Proof using HS.
  intros Hu Ht Hn Hnd Hb [e He] ->. destruct (sim_tmp_not_pub _ _ _ _ _ _ _ _ _ _ _ HS Hu Ht Hn) as (_ & _ & v & w & b & _ & Hnd' & Hb').
  rewrite Hnd in Hnd'. injection Hnd' as ->. simpl in Hb. rewrite Hb in Hb'. by injection Hb' as ->.
Qed.

(** What the others own is not touched by publishing the payload [b] of the node [n] of [t]. *)
Lemma others_link q o n G' p w ps : pcs s !! t = Some q → tmpof q = Some (o, n) →
  (∀ w0, load (mm s) p = Some w0 → getMark w0 = false) → (∀ a, p = Nxt a → pub G a) →
  (∀ b, pub G b → pub G' b) → (∀ b, pub G' b → pub G b ∨ b = n) → old G' = old G →
  (∀ a nd y, pub G a → nodes (mm s) !! a = Some nd → payloads (mm s) !! pl nd = Some y → ∃ y', ps !! pl nd = Some y' ∧ pval y' = pval y) →
  (∀ u q2 o' n' nd, u ≠ t → pcs s !! u = Some q2 → tmpof q2 = Some (o', n') → n' ≠ 0 → nodes (mm s) !! n' = Some nd →
    ps !! pl nd = payloads (mm s) !! pl nd) →
  (∀ u, keeps G (mm s) G' (with_payloads ps (store (mm s) p w)) u) ∧
  ∀ u q2, u ≠ t → pcs s !! u = Some q2 → spares G (mm s) G' (with_payloads ps (store (mm s) p w)) q2.
Proof using All.
  intros Hq Htmp Hun Hp Hpub1 Hpub2 Hold Hps Hps'. split.
  - intros u. eapply keeps_store; [exact Hsh|done| |done]. intros b [Hb Ho]. split; [by apply Hpub1|by rewrite Hold].
  - intros u q2 Hne Hu. apply spares_store; [done| |by eauto|].
    + intros o' n' Ht' Hn'. by apply (sim_tmp_not_pub _ _ _ _ _ _ _ _ _ _ _ HS Hu Ht' Hn').
    + intros o' n' Ht' Hn' Hnp' [?| ->]%Hpub2; [done|].
      destruct (sm_apart HS t u q q2 (not_eq_sym Hne) Hq Hu) as [Hap _]. by destruct (Hap _ _ _ _ Htmp Ht' Hn' Hn').
Qed.

(** The chain with the new node behind [prev] *)
Lemma chains_link k p a n b : prev_ok G (mm s) t k p → load (mm s) p = Some a → getMark a = false →
  (a ≠ 0 → node_at (mm s) a (λ nd, lt k (key nd))) → n ≠ 0 → getMark n = false → ¬ pub G n → nodes (mm s) !! n = Some (Node a b k) →
  ∃ l1 l2, ch G (idx k) = l1 ++ l2 ∧ (∀ a', p = Nxt a' → a' ∈ ch G (idx k)) ∧
    chains (store (mm s) p n) (upd (idx k) (l1 ++ n :: l2) (ch G)).
Proof using All.
  intros Hp Hl Hmk Hgt Hn0 Hmn Hnp Hn. destruct (prev_pos _ _ _ _ _ _ _ _ _ Hsh Hp Hl Hmk) as (l1 & l2 & Hpos & Hc & Hni & _).
  exists l1, l2. pose proof Hpos as [Hch Hpos']. split; [done|].
  assert (∀ a', p = Nxt a' → a' ∈ ch G (idx k)) as Hin.
  { intros a' ->. destruct Hpos' as [l0 ->]. rewrite Hch. set_solver. }
  split; [done|]. eapply chain_splice; [done|done|apply (s_chains Hsh)|exact Hpos| |].
  - intros a' Ha'. apply not_elem_of_cons. split; [|by apply Hni]. intros ->. apply Hnp. left. exists (idx k). by apply Hin.
  - replace (match p with Bkt _ => n | Nxt _ => getPtr n end) with n by (destruct p; [done|by rewrite getPtr_plain]).
    split; [done|]. split; [done|]. exists (Node a b k). split; [done|]. split; [done|]. split; [apply (lo_of_prev _ _ _ _ _ _ _ _ _ _ Hp), (irreflexivity lt)|].
    simpl. rewrite (getPtr_plain _ Hmk). destruct l2 as [|a2 l2]; [done|]. destruct Hc as (<- & Ha0 & nd & Hnd & Hi & _ & Hc).
    split; [done|]. split; [done|]. exists nd. split_and!; [done|done| |done]. destruct (Hgt Ha0) as (nd' & Hnd' & Hlt).
    rewrite Hnd in Hnd'. injection Hnd' as <-. unfold above. simpl. by rewrite Hmk.
Qed.

Lemma gen_link (ps : gmap Z payload) b k v : ps !! b = Some (Payload k v None None) → am A !! k = None →
  payloads (mm s) = ps → let ps' := <[b := Payload k v (Some (epoch (mm s))) None]> ps in
  gen_rep (surv (epoch (mm s)) ps') (<[k := v]> (am A)) ∧
  (pat = true → gen_rep (surv (epoch (mm s) - 1) ps') (default ∅ (asnap A !! 0%nat)) ∧
    gen_rep (surv (epoch (mm s) - 2) ps') (default ∅ (asnap A !! 1%nat))).
Proof using All.
  intros Hb Hk <- ps'. unfold ps'. split.
  - rewrite (surv_insert _ _ _ _ (k, v)); [|unfold survives; simpl; by rewrite Z.leb_refl].
    apply gen_rep_insert; [apply HS|by eapply surv_fresh|done].
  - intros Hpat. rewrite !surv_publish_old by (done || lia). by apply (sm_snap HS).
Qed.

Lemma step_link o n p a z x : pcs s !! t = Some (OCas o n p a z None (epoch (mm s))) → apc A !! t = Some x →
  run_ok o x → n ≠ 0 → misses o = true → miss G (mm s) t (okey o) p a → ready (mm s) n a → load (mm s) p = Some a →
  ∀ nd y, nodes (mm s) !! n = Some nd → payloads (mm s) !! pl nd = Some y →
  simulated pat (Sys (store (with_payloads (<[pl nd := set_ep (epoch (mm s)) y]> (payloads (mm s))) (mm s)) p n)
    (<[t := OEnd (done_ret o None)]> (pcs s))) A [].
Proof using All.
  intros Hq Hx [seen ->] Hn0 Ho [Hp Hgt] Hr Hl nd y Hnd Hy. set (k := okey o) in *.
  destruct (sim_tmp_not_pub _ _ _ _ _ _ _ _ _ _ _ HS Hq eq_refl Hn0) as (Hnp & Hmn & v & w & b & Hov & Hnd' & Hb). fold k in Hnd', Hb.
  rewrite Hnd in Hnd'. injection Hnd' as ->. simpl in *. rewrite Hb in Hy. injection Hy as <-.
  destruct (Hr Hn0) as (nd & Hnd' & Hw). rewrite Hnd in Hnd'. injection Hnd' as <-. simpl in Hw. subst w.
  assert (getMark a = false) as Hmk.
  { destruct (decide (a = 0)) as [->|Ha0]; [done|]. apply (s_pub Hsh a), (Hgt Ha0). }
  assert (a ≠ 0 → node_at (mm s) a (λ nd, lt k (key nd))) as Hgt' by (intros Ha0; by apply Hgt).
  assert (∀ w0, load (mm s) p = Some w0 → getMark w0 = false) as Hun by congruence.
  destruct (chains_link _ _ _ _ _ Hp Hl Hmk Hgt' Hn0 Hmn Hnp Hnd) as (l1 & l2 & Hch & Hin & Hc).
  pose proof (no_binding _ _ _ _ _ _ _ _ _ _ _ HS Hp Hl Hmk Hgt') as Hnone.
  rewrite store_payloads. change (set_ep (epoch (mm s)) (Payload k v None None)) with (Payload k v (Some (epoch (mm s))) None).
  set (ps' := <[b := _]> (payloads (mm s))).
  exists (set_apc t (SDone (done_ret o None)) (set_am (<[k := v]> (am A)) A)), (link (idx k) l1 l2 n G). split.
  { eapply aruns_lin; [|constructor]. eapply lin_update; [done|]. fold k. rewrite Hnone. by destruct o; simplify_eq/=. }
  assert (shared (link (idx k) l1 l2 n G) (with_payloads ps' (store (mm s) p n))) as Hsh'.
  { eapply table_shared_link; try done. intros a' nd -> Hnda. simpl in Hl. rewrite Hnda in Hl. injection Hl as ->. by rewrite Hmn, Hmk. }
  destruct (store_fields (mm s) p n) as (Ef1 & Ef2 & Ef3 & _).
  destruct (gen_link _ b k v Hb Hnone eq_refl) as [Hg1 Hg2].
  edestruct (others_link (OCas o n p a z None (epoch (mm s))) o n (link (idx k) l1 l2 n G) p n ps' Hq eq_refl Hun) as [Hok Hosp].
  { intros a' ->. apply Hp. }
  { intros b' ?. apply link_pub; [done|by right]. }
  { intros b' [->|?]%link_pub; [by right|by left|done]. }
  { done. }
  { intros a' nd y Ha' Hnda Hy. exists y. split; [|done]. unfold ps'. rewrite lookup_insert_ne; [done|]. by apply not_eq_sym, (fresh_payload b k v a'). }
  { intros u q2 o' n' nd Hne Hu Ht' Hn' Hnd'. unfold ps'. rewrite lookup_insert_ne; [done|].
    by apply (others_payload _ _ _ _ _ _ _ _ _ Hq eq_refl Hn0 Hnd Hne Hu Ht' Hn'). }
  eapply lf_sim_moves; [exact HS|exact Hq|]. eapply moves_write; try done.
  - intros u q2 Hne Hu. split; [apply Hok|by eapply Hosp].
  - intros u Hne. simpl. by rewrite list_lookup_insert_ne.
  - simpl. apply list_lookup_insert_eq. by eapply lookup_lt_Some.
  - simpl. by rewrite Ef2.
  - simpl. by rewrite Ef2.
Qed.
(** The thread goes on to unlink the node that it has marked. *)
Lemma sim_mark o n p a z old e nda zz ps' G' am' r : pcs s !! t = Some (OCas o n p a z old e) →
  prev_ok G (mm s) t (okey o) p → held G t a → nodes (mm s) !! a = Some nda → key nda = okey o → getMark (next nda) = false → getMark zz = false →
  let m' := with_payloads ps' (store (mm s) (Nxt a) (setMark zz)) in
  shared G' m' → (∀ b, pub G b → pub G' b) → (∀ b, pub G' b → pub G b ∨ b = n) → LfTableInv.old G' = LfTableInv.old G → dead G' = dead G →
  (∀ a nd y, pub G a → nodes (mm s) !! a = Some nd → payloads (mm s) !! pl nd = Some y → ∃ y', ps' !! pl nd = Some y' ∧ pval y' = pval y) →
  (∀ u q2 o' n' nd, u ≠ t → pcs s !! u = Some q2 → tmpof q2 = Some (o', n') → n' ≠ 0 → nodes (mm s) !! n' = Some nd →
    ps' !! pl nd = payloads (mm s) !! pl nd) →
  gen_rep (surv (epoch (mm s)) ps') am' →
  (pat = true → gen_rep (surv (epoch (mm s) - 1) ps') (default ∅ (asnap A !! 0%nat)) ∧
    gen_rep (surv (epoch (mm s) - 2) ps') (default ∅ (asnap A !! 1%nat))) →
  sim pat G' (Sys m' (<[t := OUnlink o n p a zz r]> (pcs s))) (set_apc t (SDone r) (set_am am' A)).
Proof using All.
  intros Hq Hp Ha Hnda Hk Hmk Hmz m' Hsh' Hpub1 Hpub2 Hold Hdead Hps1 Hps2 Hg1 Hg2.
  destruct (sm_thread HS t _ Hq) as (x & Hx & _).
  assert (∀ w0, load (mm s) (Nxt a) = Some w0 → getMark w0 = false) as Hun by (simpl; rewrite Hnda; by intros ? [= <-]).
  edestruct (others_link _ o n G' (Nxt a) (setMark zz) ps' Hq eq_refl Hun) as [Hok Hosp]; [intros a' [= <-]; apply Ha|done..|].
  fold m' in Hok, Hosp. destruct (store_fields (mm s) (Nxt a) (setMark zz)) as (_ & Ef2 & Ef3 & _).
  eapply lf_sim_moves; [exact HS|exact Hq|]. eapply moves_write with (x' := SDone r); try done.
  - by rewrite Hdead.
  - intros u q2 Hne Hu. split; [apply Hok|by eapply Hosp].
  - intros u Hne. simpl. by rewrite list_lookup_insert_ne.
  - simpl. apply list_lookup_insert_eq. by eapply lookup_lt_Some.
  - split; [done|]. split; [eapply keeps_prev; [exact Hsh|apply Hok|done]|]. split.
    + eapply keeps_curr; [exact Hsh|apply Hok|]. split; [done|]. exists nda. by rewrite Hk.
    + exists (set_next (setMark zz) nda). simpl. rewrite lookup_alter_eq, Hnda. split; [done|]. simpl.
      by rewrite getMark_setMark, getPtr_setMark, getPtr_plain.
Qed.

Lemma gen_mark (ps : gmap Z payload) b y : payloads (mm s) = ps → ps !! b = Some y → is_Some (ep y) → retire y = None →
  let ps' := <[b := set_retire (epoch (mm s)) y]> ps in
  gen_rep (surv (epoch (mm s)) ps') (delete (pkey y) (am A)) ∧
  (pat = true → gen_rep (surv (epoch (mm s) - 1) ps') (default ∅ (asnap A !! 0%nat)) ∧
    gen_rep (surv (epoch (mm s) - 2) ps') (default ∅ (asnap A !! 1%nat))).
Proof using All.
  intros <- Hb Hep Hret ps'. unfold ps'. split.
  - rewrite surv_remove; [|unfold survives; simpl; rewrite Z.leb_refl; destruct (ep y); [by rewrite andb_false_r|done]].
    eapply gen_rep_delete; [apply HS|]. unfold surv. rewrite lookup_omap, Hb. simpl. by apply (survives_now _ _ _ _ _ _ _ _ Hsh Hb).
  - intros Hpat. rewrite !(surv_retire_old _ _ _ _ _ Hb Hret) by lia. by apply (sm_snap HS).
Qed.
Lemma gen_replace (ps : gmap Z payload) b y bn v k : payloads (mm s) = ps → ps !! b = Some y → is_Some (ep y) → retire y = None →
  k = pkey y → ps !! bn = Some (Payload k v None None) →
  let ps' := <[b := set_retire (epoch (mm s)) y]> (<[bn := Payload k v (Some (epoch (mm s))) None]> ps) in
  gen_rep (surv (epoch (mm s)) ps') (<[k := v]> (am A)) ∧
  (pat = true → gen_rep (surv (epoch (mm s) - 1) ps') (default ∅ (asnap A !! 0%nat)) ∧
    gen_rep (surv (epoch (mm s) - 2) ps') (default ∅ (asnap A !! 1%nat))).
Proof using All.
  intros Hps Hb Hep Hret Hk Hbn ps'. destruct (gen_mark _ _ _ Hps Hb Hep Hret) as [Hg1 Hg2].
  assert (b ≠ bn) as Hne by (intros ->; rewrite Hb in Hbn; injection Hbn as ->; by destruct Hep).
  unfold ps'. rewrite insert_insert_ne by done. set (ps1 := <[b := _]> ps) in *.
  assert (ps1 !! bn = Some (Payload k v None None)) as Hbn1 by (unfold ps1; by rewrite lookup_insert_ne). split.
  - rewrite (surv_insert _ _ _ _ (k, v)); [|unfold survives; simpl; by rewrite Z.leb_refl].
    rewrite <- (insert_delete_eq (am A)). apply gen_rep_insert; [by rewrite Hk|by eapply surv_fresh|apply lookup_delete_eq].
  - intros Hpat. rewrite !(surv_publish_old _ _ _ _ _ _ Hbn1) by lia. by apply Hg2.
Qed.

(** What the thread knows when the link of the node that it has found is what it has read *)
Lemma hit_facts o n p a z x : hit G (mm s) t (Ctx o n None) p a z x → load (mm s) (Nxt a) = Some z →
  ∃ nd y, nodes (mm s) !! a = Some nd ∧ key nd = okey o ∧ next nd = z ∧ getMark (next nd) = false ∧ a ∈ ch G (idx (okey o)) ∧
    payloads (mm s) !! pl nd = Some y ∧ pkey y = okey o ∧ is_Some (ep y) ∧ retire y = None ∧ am A !! okey o = Some (pval y) ∧
    ∃ seen, x = SRun o seen.
Proof using All.
  intros (Hp & Ha & Hmk & nd & y & Hnd & Hk & Hy & Hsaw) Hl. simpl in Hl. rewrite Hnd in Hl. injection Hl as Hl.
  assert (getMark (next nd) = false) as Hmk' by (by rewrite Hl). simpl in Hk.
  destruct (s_pub Hsh a (proj1 Ha)) as (_ & _ & nd' & y' & Hnd' & Hy' & Hk' & Hep & Hret).
  rewrite Hnd in Hnd'. injection Hnd' as <-. rewrite Hy in Hy'. injection Hy' as <-.
  pose proof (binding _ _ _ _ _ _ _ _ _ _ HS (proj1 Ha) Hnd Hmk' Hy) as Hb.
  assert (a ∈ ch G (idx (okey o))) as Hin.
  { destruct (proj1 Ha) as [[i Hi]|Hd]; [|destruct (s_dead Hsh a Hd) as (_ & nd' & Hnd' & ?); rewrite Hnd in Hnd'; congruence].
    destruct (chain_elem (s_chains Hsh i) Hi) as (nd' & Hnd' & Hi'). rewrite Hnd in Hnd'. injection Hnd' as <-. by rewrite <- Hk, Hi'. }
  destruct (Hsaw eq_refl) as (seen & -> & _). exists nd, y. rewrite Hk in *. split_and!; try done; [by apply Hret|by exists seen].
Qed.

Lemma step_mark_remove o p a z b v x y : pcs s !! t = Some (OCas o 0 p a z (Some (b, v)) (epoch (mm s))) → apc A !! t = Some x →
  hits o = true → hit G (mm s) t (Ctx o 0 None) p a z x → load (mm s) (Nxt a) = Some z →
  (∃ nd y, nodes (mm s) !! a = Some nd ∧ pl nd = b ∧ payloads (mm s) !! b = Some y ∧ pval y = v) → payloads (mm s) !! b = Some y →
  simulated pat (Sys (store (with_payloads (<[b := set_retire (epoch (mm s)) y]> (payloads (mm s))) (mm s)) (Nxt a) (setMark z))
    (<[t := OUnlink o 0 p a z (done_ret o (Some v))]> (pcs s))) A [].
Proof using All.
  intros Hq Hx Ho Hh Hl (nda & y0 & Hnda & Hpl & Hy0 & Hv) Hy.
  destruct (hit_facts _ _ _ _ _ _ Hh Hl) as (nd & y' & Hnd & Hk & Hz & Hmk & Hin & Hy' & Hpk & Hep & Hret & Ham & seen & ->).
  rewrite Hnda in Hnd. injection Hnd as <-. rewrite Hpl, Hy in Hy'. injection Hy' as <-. rewrite Hy in Hy0. injection Hy0 as <-.
  pose proof (sm_private HS t _ Hq _ _ eq_refl) as Hpr. rewrite store_payloads.
  assert (oval o = None) as Hov by (destruct (oval o); [by destruct Hpr|done]).
  exists (set_apc t (SDone (done_ret o (Some v))) (set_am (delete (okey o) (am A)) A)), G. split.
  { eapply aruns_lin; [|constructor]. eapply (lin_update _ _ _ _ None); [exact Hx|]. rewrite Ham, Hv. by destruct o. }
  destruct (gen_mark _ b y eq_refl Hy Hep Hret) as [Hg1 Hg2]. rewrite Hpk in Hg1.
  destruct Hh as (Hp & Ha & Hmz & _). eapply sim_mark; try done.
  - subst b z. by eapply shared_mark.
  - by left.
  - intros a' nd y' _ _ Hy'. destruct (decide (pl nd = b)) as [Heq|Hne]; [|rewrite lookup_insert_ne by done; by exists y'].
    rewrite Heq in *. rewrite lookup_insert_eq. rewrite Hy in Hy'. injection Hy' as <-. by eexists.
  - intros u q2 o' n' nd Hne Hu Ht' Hn' Hnd'. rewrite lookup_insert_ne; [done|]. by eapply others_published.
Qed.

(** The old node of a chain is marked, and its replacement linked behind it. *)
Lemma shared_replace i a nd y n b w k v : a ∈ ch G i → nodes (mm s) !! a = Some nd → key nd = k → idx k = i → getMark (next nd) = false →
  payloads (mm s) !! pl nd = Some y → n ≠ 0 → getMark n = false → ¬ pub G n → next nd = w →
  nodes (mm s) !! n = Some (Node w b k) → payloads (mm s) !! b = Some (Payload k v None None) →
  ∃ l1 l2, ch G i = l1 ++ l2 ∧
    shared (link i l1 l2 n G) (with_payloads (<[pl nd := set_retire (epoch (mm s)) y]> (<[b := Payload k v (Some (epoch (mm s))) None]> (payloads (mm s))))
      (store (mm s) (Nxt a) (setMark n))).
Proof using All.
  intros Ha Hnd Hk Hi Hmk Hy Hn0 Hmn Hnp Hw Hn Hb. pose proof (shared_mark _ _ _ _ _ _ Hsh Ha Hnd Hmk Hy) as Hsh1. simpl in Hsh1.
  assert (pub G a) as Hpa by (left; by exists i). pose proof (fresh_payload _ _ _ _ _ Hb Hpa Hnd) as Hne.
  assert (a ≠ n) as Han by (intros ->; done).
  destruct (list_elem_of_split _ _ Ha) as (l0 & l2 & Hch). exists (l0 ++ [a]), l2. split; [by rewrite Hch, <- app_assoc|].
  set (m1 := with_payloads (<[pl nd := set_retire (epoch (mm s)) y]> (payloads (mm s))) (store (mm s) (Nxt a) (setMark (next nd)))) in Hsh1.
  assert (nodes m1 !! a = Some (set_next (setMark (next nd)) nd)) as Hnd1 by (simpl; by rewrite lookup_alter_eq, Hnd).
  assert (nodes m1 !! n = Some (Node w b k)) as Hn1 by (simpl; by rewrite lookup_alter_ne).
  assert (payloads m1 !! b = Some (Payload k v None None)) as Hb1 by (simpl; by rewrite lookup_insert_ne).
  replace (with_payloads _ (store (mm s) (Nxt a) (setMark n)))
    with (with_payloads (<[b := Payload k v (Some (epoch m1)) None]> (payloads m1)) (store m1 (Nxt a) (setMark n))).
  2: { unfold m1. rewrite store_payloads, store_store. simpl. unfold with_payloads. simpl. f_equal. by apply insert_insert_ne. }
  eapply table_shared_link with (nx := w); try done.
  - intros a' nd' [= <-] Hnd'. rewrite Hnd1 in Hnd'. injection Hnd' as <-. simpl. by rewrite !getMark_setMark.
  - by intros a' [= <-].
  - by rewrite Hch, <- app_assoc.
  - by rewrite <- Hw.
  - pose proof (s_chains Hsh i) as Hc. rewrite Hch in Hc. destruct (chain_at Hc) as (nd' & Hnd' & _ & _ & Hl2 & _).
    rewrite Hnd in Hnd'. injection Hnd' as <-. rewrite (getPtr_plain _ Hmk), Hw in Hl2.
    pose proof (chain_NoDup Hc) as (_ & _ & (Hni & _)%NoDup_cons)%NoDup_app.
    eapply chain_splice; [done|done|apply (s_chains Hsh1)|split; [by rewrite Hch, <- app_assoc|by exists l0]| |].
    { intros a' [= <-]. apply not_elem_of_cons. split; [done|done]. }
    rewrite getPtr_setMark, (getPtr_plain _ Hmn). split; [done|]. split; [done|]. exists (Node w b k). split; [done|]. split; [done|]. split.
    + exists (set_next (setMark (next nd)) nd). split; [done|]. unfold above. simpl. rewrite getMark_setMark, Hk. apply (irreflexivity lt).
    + simpl. rewrite <- Hw, (getPtr_plain _ Hmk), Hw. eapply chain_frame; [|eapply chain_lo; [|exact Hl2]].
      * intros b' Hb'. simpl. rewrite lookup_alter_ne; [done|]. by intros ->.
      * intros k'. unfold above. simpl. rewrite Hmk, Hk. rewrite <- Hw, Hmk. done.
Qed.
Lemma step_mark_replace o n p a z b v x y yn ndn : pcs s !! t = Some (OCas o n p a z (Some (b, v)) (epoch (mm s))) → apc A !! t = Some x →
  n ≠ 0 → hits o = true → hit G (mm s) t (Ctx o n None) p a z x → ready (mm s) n z → load (mm s) (Nxt a) = Some z →
  (∃ nd y, nodes (mm s) !! a = Some nd ∧ pl nd = b ∧ payloads (mm s) !! b = Some y ∧ pval y = v) →
  nodes (mm s) !! n = Some ndn → payloads (mm s) !! pl ndn = Some yn →
  let ps1 := <[pl ndn := set_ep (epoch (mm s)) yn]> (payloads (mm s)) in
  ps1 !! b = Some y → retire y = None ∧
  simulated pat (Sys (with_payloads (<[b := set_retire (epoch (mm s)) y]> ps1) (store (mm s) (Nxt a) (setMark n)))
    (<[t := OUnlink o n p a n (done_ret o (Some v))]> (pcs s))) A [].
Proof using All.
  intros Hq Hx Hn0 Ho Hh Hr Hl (nda & y0 & Hnda & Hpl & Hy0 & Hv) Hndn Hyn ps1 Hy.
  destruct (hit_facts _ _ _ _ _ _ Hh Hl) as (nd & y' & Hnd & Hk & Hz & Hmk & Hin & Hy' & Hpk & Hep & Hret & Ham & seen & ->).
  rewrite Hnda in Hnd. injection Hnd as <-. rewrite Hpl, Hy0 in Hy'. injection Hy' as <-.
  destruct (sim_tmp_not_pub _ _ _ _ _ _ _ _ _ _ _ HS Hq eq_refl Hn0) as (Hnp & Hmn & v' & w & bn & Hov & Hndn' & Hbn).
  rewrite Hndn in Hndn'. injection Hndn' as ->. simpl in *. rewrite Hbn in Hyn. injection Hyn as <-.
  destruct (Hr Hn0) as (ndn & Hndn' & Hw). rewrite Hndn in Hndn'. injection Hndn' as <-. simpl in Hw. subst w.
  destruct Hh as (Hp & Ha & Hmz & _). pose proof (fresh_payload _ _ _ _ _ Hbn (proj1 Ha) Hnda) as Hne. rewrite Hpl in Hne.
  unfold ps1 in *. clear ps1. rewrite lookup_insert_ne in Hy by done. rewrite Hy0 in Hy. injection Hy as <-. split; [done|].
  pose proof Hy0 as Hy1. rewrite <- Hpl in Hy1.
  destruct (shared_replace _ _ _ _ _ bn _ _ v' Hin Hnda Hk eq_refl Hmk Hy1 Hn0 Hmn Hnp Hz Hndn Hbn) as (l1 & l2 & Hch & Hsh').
  rewrite Hpl in Hsh'. destruct (gen_replace _ b y0 bn v' _ eq_refl Hy0 Hep Hret (eq_sym Hpk) Hbn) as [Hg1 Hg2].
  exists (set_apc t (SDone (done_ret o (Some v))) (set_am (<[okey o := v']> (am A)) A)), (link (idx (okey o)) l1 l2 n G). split.
  { eapply aruns_lin; [|constructor]. eapply (lin_update _ _ _ _ (Some v')); [exact Hx|]. rewrite Ham, Hv. by destruct o; simplify_eq/=. }
  eapply sim_mark; try done.
  - intros b' ?. apply link_pub; [done|by right].
  - intros b' [->|?]%link_pub; [by right|by left|done].
  - intros a' nd y' Ha' Hnd' Hy'. pose proof (fresh_payload _ _ _ _ _ Hbn Ha' Hnd') as Hne'.
    destruct (decide (pl nd = b)) as [Heq|Hneq]; [|rewrite !lookup_insert_ne by done; by exists y'].
    rewrite Heq in *. rewrite lookup_insert_eq. rewrite Hy0 in Hy'. injection Hy' as <-. by eexists.
  - intros u q2 o' n' nd Hneu Hu Ht' Hn' Hnd'. rewrite !lookup_insert_ne; [done| |].
    + by apply (others_payload _ _ _ _ _ _ _ _ _ Hq eq_refl Hn0 Hndn Hneu Hu Ht' Hn').
    + by eapply others_published.
Qed.
End update.
End write.
End LfTableUpdate.
