(* ===== verification/LfTableSteps.v ===== *)
(** * The steps of the nonblocking hash table

    Every step of a thread, of the epoch and of the tracker is simulated by the atomic map. *)

From S2P Require Import Prelude HashTable LfHashTable LfChain LfTableInv LfTableRead LfTableWrite LfTableUpdate.
Import LfHashTable LfChain LfTableInv LfTableRead LfTableWrite LfTableUpdate.

Module LfTableSteps.
Section steps.
Context {K V : Type} `{!EqDecision K, !Countable K} (lt : K → K → Prop) `{!RelDecision lt, !StrictOrder lt, !Trichotomy lt}.
Context (hash_fn : K → Z) (idxSize : Z) (Hsize : 0 < idxSize).
Notation idx := (idx hash_fn idxSize).
Notation chain := (chain lt hash_fn idxSize).
Notation chains := (chains lt hash_fn idxSize).
Notation shared := (shared lt hash_fn idxSize).
Notation prev_ok := (prev_ok lt hash_fn idxSize).
Notation curr_ok := (curr_ok hash_fn idxSize).
Notation hit := (hit lt hash_fn idxSize).
Notation miss := (miss lt hash_fn idxSize).
Notation thread_ok := (thread_ok lt hash_fn idxSize).
Notation sim := (sim lt hash_fn idxSize).
Notation moves := (moves lt hash_fn idxSize).
Notation simulated := (simulated lt hash_fn idxSize).
Notation thread_step := (thread_step lt hash_fn idxSize).
Notation step := (step lt hash_fn idxSize).
Notation op_step := (op_step lt hash_fn idxSize).
Notation lo_of := (lo_of lt).
Notation mem := (mem K V).
Notation payload := (payload K V).
Notation pc := (pc K V).
Notation op := (op K V).
Notation ctx := (ctx K V).
Notation sys := (sys K V).
Notation ast := (ast K V).
Notation spc := (spc K V).
Implicit Types (m : mem) (p : loc) (q : pc) (o : op) (c : ctx) (s : sys) (A : ast) (x : spc) (y : payload) (nd : node K) (G : ghost).

(** Changes that touch no published node *)
Lemma shared_frame G m G' m' : shared G m → fault m' = false → buckets m' = buckets m → epoch m ≤ epoch m' → ch G' = ch G →
  dead G' ⊆ dead G → (∀ a, pub G' a → nodes m' !! a = nodes m !! a) →
  (∀ a nd, pub G' a → nodes m !! a = Some nd → payloads m' !! pl nd = payloads m !! pl nd) →
  (∀ b y, payloads m' !! b = Some y → payloads m !! b = Some y ∨ (ep y = None ∧ retire y = None)) → shared G' m'.
Proof.
  intros Hsh Hf Hb He Hch Hd Hn Hps Hps'.
  assert (∀ a, pub G' a → pub G a) as Hpub by (intros a [[i Hi]|Ha]; [left; exists i; by rewrite <- Hch|right; by apply Hd]).
  constructor; [done|by rewrite Hb; apply Hsh|..].
  - intros i. rewrite Hch, Hb. eapply chain_frame; [|apply (s_chains Hsh i)]. intros a Ha. apply Hn. left. exists i. by rewrite Hch.
  - intros a Ha. destruct (s_pub Hsh a (Hpub a Ha)) as (? & ? & nd & y & Hnd & Hy & ?). split; [done|]. split; [done|].
    exists nd, y. by rewrite (Hn a Ha), (Hps a nd Ha Hnd).
  - intros a Ha. destruct (s_dead Hsh a (Hd a Ha)) as [? (nd & ? & ?)]. rewrite Hch. split; [done|]. exists nd. by rewrite Hn by (by right).
  - intros a b nd nd' Ha Hb' Hnd Hnd'. rewrite Hn in Hnd, Hnd' by done. apply (s_own Hsh a b nd nd'); auto.
  - intros b y Hy Hep Hret. destruct (Hps' b y Hy) as [Hy0|[Hep0 _]]; [|rewrite Hep0 in Hep; by destruct Hep].
    destruct (s_live Hsh b y Hy0 Hep Hret) as (i & a & nd & Ha & Hnd & ?). exists i, a, nd. rewrite Hch. split; [done|].
    rewrite Hn by (left; exists i; by rewrite Hch). done.
  - intros b y Hy. destruct (Hps' b y Hy) as [Hy0|[-> ->]]; [|done]. destruct (s_ep Hsh b y Hy0) as [H1 H2].
    split; intros e' Hz; [specialize (H1 e' Hz)|specialize (H2 e' Hz)]; lia.
Qed.
Lemma keeps_frame G m G' m' u : shared G m → (∀ a, held G u a → held G' u a) → (∀ a, held G u a → nodes m' !! a = nodes m !! a) →
  (∀ a nd, held G u a → nodes m !! a = Some nd → payloads m' !! pl nd = payloads m !! pl nd) → keeps G m G' m' u.
Proof.
  intros Hsh Hh Hn Hps a Ha. split; [by apply Hh|]. intros nd y Hnd Hy. exists nd, y. rewrite (Hn a Ha), (Hps a nd Ha Hnd). by split_and!.
Qed.

Lemma elem_of_operating (ps : list pc) u q : ps !! u = Some q → in_op q = true → u ∈ operating ps.
Proof.
  intros Hu Hq. unfold operating. apply elem_of_list_to_set, list_elem_of_filter. rewrite Hu. split; [done|].
  apply elem_of_seq. apply lookup_lt_Some in Hu. lia.
Qed.

(** ** Inside an operation *)

Section op.
Context (pat : bool) (G : ghost) (s : sys) (A : ast) (t : nat) (HS : sim pat G s A).
Let Hsh : shared G (mm s) := sm_shared HS.

Lemma step_OCas ops o n p a z old e m' q' : pcs s !! t = Some (OCas o n p a z old e) →
  op_step ops (mm s) (OCas o n p a z old e) = Some (m', q') → simulated pat (Sys m' (<[t := q']> (pcs s))) A [].
Proof using All.
  intros Hq. destruct (sm_thread HS t _ Hq) as (x & Hx & Hrun & Hok).
  assert (simulated pat (Sys (mm s) (<[t := FHead (Ctx o n None)]> (pcs s))) A []) as Hretry by (by eapply step_failed_cas).
  unfold LfHashTable.op_step. intros [= Hst]. unfold cas in Hst.
  assert (n ≠ 0 → ∃ nd y, nodes (mm s) !! n = Some nd ∧ payloads (mm s) !! pl nd = Some y) as Hn.
  { intros Hn0. destruct (sim_tmp_not_pub _ _ _ _ _ _ _ _ _ _ _ HS Hq eq_refl Hn0) as (_ & _ & v & w & b & _ & Hnd & Hb). by eexists _, _. }
  destruct old as [[b v]|].
  - destruct Hok as (Ho & Hh & Hr & Hb). pose proof Hb as (nd & y & Hnd & Hpl & Hy & _).
    unfold at_loc in Hst. simpl load in Hst. rewrite Hnd in Hst. simpl in Hst.
    destruct (Z.eqb_spec (next nd) z) as [Hz|]; simpl in Hst; [|by injection Hst as <- <-].
    destruct (Z.eqb_spec e (epoch (mm s))) as [->|]; [|by injection Hst as <- <-].
    assert (load (mm s) (Nxt a) = Some z) as Hl by (simpl; rewrite Hnd; simpl; by rewrite Hz). unfold publish in Hst.
    destruct (Z.eqb_spec n 0) as [->|Hn0].
    + unfold at_payload in Hst. rewrite Hy in Hst.
      destruct (hit_facts _ _ _ Hsize _ _ _ _ _ HS _ _ _ _ _ _ Hh Hl) as (nd' & y' & Hnd' & _ & _ & _ & _ & Hy' & _ & _ & Hret & _).
      rewrite Hnd in Hnd'. injection Hnd' as <-. rewrite Hpl, Hy in Hy'. injection Hy' as <-. rewrite Hret in Hst. injection Hst as <- <-.
      by eapply step_mark_remove.
    + destruct (Hn Hn0) as (ndn & yn & Hndn & Hyn). unfold at_node, at_payload in Hst. rewrite Hndn, Hyn in Hst. simpl payloads in Hst.
      destruct (_ !! b) as [yb|] eqn:Hyb in Hst.
      * destruct (step_mark_replace _ _ _ Hsize _ _ _ _ _ HS _ _ _ _ _ _ _ _ _ _ _ Hq Hx Hn0 Ho Hh Hr Hl Hb Hndn Hyn Hyb) as [Hret Hsim].
        rewrite Hret in Hst. injection Hst as <- <-. exact Hsim.
      * exfalso. apply lookup_insert_None in Hyb as [? _]. congruence.
  - destruct Hok as (Hn0 & Ho & Hm & Hr). destruct (prev_load _ _ _ Hsize _ _ _ _ _ Hsh (proj1 Hm)) as [w Hw].
    unfold at_loc in Hst. rewrite Hw in Hst. destruct (Z.eqb_spec w a) as [Hwa|]; simpl in Hst; [subst w|by injection Hst as <- <-].
    destruct (Z.eqb_spec e (epoch (mm s))) as [->|]; [|by injection Hst as <- <-]. unfold publish in Hst.
    rewrite (proj2 (Z.eqb_neq n 0) Hn0) in Hst. destruct (Hn Hn0) as (nd & y & Hnd & Hy). unfold at_node, at_payload in Hst.
    rewrite Hnd, Hy in Hst. injection Hst as <- <-. by eapply step_link.
Qed.
(** [tmpNode] is prepared. *)
Lemma step_OStore ops o n p a z f m' q' : pcs s !! t = Some (OStore o n p a z f) →
  op_step ops (mm s) (OStore o n p a z f) = Some (m', q') → simulated pat (Sys m' (<[t := q']> (pcs s))) A [].
Proof using All.
  intros Hq. destruct (sm_thread HS t _ Hq) as (x & Hx & Hn0 & Hrun & Hok).
  destruct (sim_tmp_not_pub _ _ _ _ _ _ _ _ _ _ _ HS Hq eq_refl Hn0) as (Hnp & Hmn & v & w & b & Hov & Hnd & Hb).
  unfold LfHashTable.op_step, at_node. rewrite Hnd. set (w' := if f then z else a). intros [= <- <-].
  assert (∀ a', pub G a' → nodes (store (mm s) (Nxt n) w') !! a' = nodes (mm s) !! a') as Hsame.
  { intros a' Ha'. simpl. rewrite lookup_alter_ne; [done|]. by intros ->. }
  assert (∀ u, keeps G (mm s) G (store (mm s) (Nxt n) w') u) as Hkeep.
  { intros u. apply keeps_frame; try done. intros a' [Ha' _]. by apply Hsame. }
  exists A, G. split; [constructor|]. eapply lf_sim_moves; [exact HS|exact Hq|].
  eapply moves_write with (x' := x); try done.
  - by destruct f.
  - eapply shared_frame; [exact Hsh|try done..]; [apply Hsh|].
    intros; by left.
  - intros u q2 Hne Hu. split; [apply Hkeep|]. intros o' n' Ht' Hn'. simpl. split_and!; [|done|done].
    rewrite lookup_alter_ne; [done|]. intros <-. destruct (sm_apart HS t u _ q2 (not_eq_sym Hne) Hq Hu) as [Hap _].
    by destruct (Hap _ _ _ _ eq_refl Ht' Hn0 Hn').
  - assert (ready (store (mm s) (Nxt n) w') n w') as Hready.
    { intros _. exists (Node w' b (okey o)). simpl. by rewrite lookup_alter_eq, Hnd. }
    unfold w' in *. destruct f; destruct Hok as [Ho Hh].
    + split; [by rewrite Ho|]. split; [|done]. eapply keeps_hit; [exact Hsh|apply Hkeep|done].
    + split; [done|]. split; [done|]. split; [done|]. split; [|done]. eapply keeps_miss; [exact Hsh|apply Hkeep|done].
  - intros o' n'. intros Ht. assert (o' = o ∧ n' = n) as [-> ->] by (destruct f; by injection Ht). rewrite Hov. split_and!; try done.
    exists w', b. simpl. by rewrite lookup_alter_eq, Hnd.
  - intros u q2 Hne Hu. eapply apart_next; [by eapply (sm_apart HS t u)|by destruct f| |by destruct f].
    intros n' nd' (nd & ? & _ & ->)%(store_inv (mm s) (Nxt n) w'). by exists nd.
  - by destruct f.
  - apply HS.
  - apply HS.
Qed.

(** A node is retired. *)
Lemma sim_retire q a q' x x' : pcs s !! t = Some q → pend q = Some a → in_op q = true → in_op q' = true → pend q' = None →
  (∀ w, tmpof q' = Some w → tmpof q = Some w) → apc A !! t = Some x → answers x x' → thread_ok G (mm s) t q' x' →
  ∀ m1 q1, retire_node (operating (pcs s)) (mm s) q a q' = (m1, q1) → simulated pat (Sys m1 (<[t := q1]> (pcs s))) A [].
Proof using All.
  intros Hq Hpend Hin Hin' Hpend' Htmp Hx Hans Hok m1 q1. destruct (sm_pend HS t q a Hq Hpend) as (Had & Hao & Har).
  unfold retire_node. rewrite Har. intros [= <- <-]. exists (set_apc t x' A), G. split; [by eapply answers_runs|].
  eapply lf_sim_moves; [exact HS|exact Hq|]. constructor; simpl.
  - eapply shared_frame; [exact Hsh|try done..]; [apply Hsh|]. intros; by left.
  - intros u q2 _ _. split; [by apply keeps_frame|]. by intros o' n' ??.
  - intros u q2 _ Hu Hp. split; [done|]. by eapply (sm_old HS).
  - intros u Hne. by rewrite list_lookup_insert_ne.
  - exists x'. split; [apply list_lookup_insert_eq; by eapply lookup_lt_Some|done].
  - intros o n Ht. by apply (sm_private HS t q Hq), Htmp.
  - intros _. by eapply (sm_old HS).
  - intros u q2 Hne Hu. eapply apart_next; [by eapply (sm_apart HS t u)|done|by intros ? nd ?; exists nd|by rewrite Hpend'].
  - intros u q2 a' Hne Hu Ha'. destruct (sm_pend HS u q2 a' Hu Ha') as (? & ? & ?). split_and!; [done..|].
    rewrite lookup_insert_ne; [done|]. destruct (sm_apart HS t u q q2 (not_eq_sym Hne) Hq Hu) as [_ Hap]. by apply Hap.
  - by rewrite Hpend'.
  - intros a' W [[<- <-]|[Hne HW]]%lookup_insert_Some.
    + split; [done|]. split; [intros u q2 _ Hu Hop _; by eapply elem_of_operating|]. intros _ _. by eapply elem_of_operating.
    + destruct (sm_retired HS a' W HW) as [? Hr]. split; [done|]. split; [by intros; eapply Hr|]. intros _ Ho. by eapply Hr.
  - apply HS.
  - apply HS.
Qed.

Lemma step_FRetire c p a z m' q' : pcs s !! t = Some (FRetire c p a z) →
  op_step (operating (pcs s)) (mm s) (FRetire c p a z) = Some (m', q') → simulated pat (Sys m' (<[t := q']> (pcs s))) A [].
Proof using All.
  intros Hq. destruct (sm_thread HS t _ Hq) as (x & Hx & Hc & Hp & Hz1 & Hz2). unfold LfHashTable.op_step. intros [= Hst].
  destruct (find_at_ok _ _ _ _ _ _ _ _ _ _ Hc (sim_tmp_shape _ _ _ _ _ _ _ _ _ c HS Hq eq_refl) Hp Hz1 Hz2) as (x' & Hans & Hok).
  destruct (find_at_shape c p z) as (Hs1 & Hs2 & Hs3). by eapply sim_retire.
Qed.
Lemma step_ORetire a r m' q' : pcs s !! t = Some (ORetire a r) →
  op_step (operating (pcs s)) (mm s) (ORetire a r) = Some (m', q') → simulated pat (Sys m' (<[t := q']> (pcs s))) A [].
Proof using All.
  intros Hq. destruct (sm_thread HS t _ Hq) as (x & Hx & ->). unfold LfHashTable.op_step. intros [= Hst].
  eapply (sim_retire _ a (OEnd r) (SDone r) (SDone r)); [exact Hq|done|done|done|done|done|exact Hx|by left|done|exact Hst].
Qed.
(** The node that is not needed is deleted with its payload. *)
Lemma step_ODelete ops o n r m' q' : pcs s !! t = Some (ODelete o n r) →
  op_step ops (mm s) (ODelete o n r) = Some (m', q') → simulated pat (Sys m' (<[t := q']> (pcs s))) A [].
Proof using All.
  intros Hq. destruct (sm_thread HS t _ Hq) as (x & Hx & Hn0 & ->).
  destruct (sim_tmp_not_pub _ _ _ _ _ _ _ _ _ _ _ HS Hq eq_refl Hn0) as (Hnp & Hmn & v & w & b & Hov & Hnd & Hb).
  unfold LfHashTable.op_step, at_node, at_payload. rewrite Hnd. simpl. rewrite Hb. simpl. intros [= <- <-].
  assert (∀ a', pub G a' → delete n (nodes (mm s)) !! a' = nodes (mm s) !! a') as Hsame.
  { intros a' Ha'. rewrite lookup_delete_ne; [done|]. by intros ->. }
  assert (∀ a' nd, pub G a' → nodes (mm s) !! a' = Some nd → delete b (payloads (mm s)) !! pl nd = payloads (mm s) !! pl nd) as Hpay.
  { intros a' nd Ha' Hnd'. rewrite lookup_delete_ne; [done|]. apply not_eq_sym. by eapply fresh_payload. }
  exists A, G. split; [constructor|]. eapply lf_sim_moves; [exact HS|exact Hq|].
  eapply moves_write with (x' := SDone r); try done.
  - eapply shared_frame; [exact Hsh|try done..]; [apply Hsh|]. simpl. intros b' y [_ ?]%lookup_delete_Some. by left.
  - intros u q2 Hne Hu. split.
    + apply keeps_frame; [done|done|by intros a' [? _]; apply Hsame|intros a' nd [? _]; by apply Hpay].
    + intros o' n' Ht' Hn'. simpl. destruct (sm_apart HS t u _ q2 (not_eq_sym Hne) Hq Hu) as [Hap _].
      destruct (Hap _ _ _ _ eq_refl Ht' Hn0 Hn') as [Hnn Hpp]. split_and!; [by rewrite lookup_delete_ne| |done].
      intros nd Hnd'. rewrite lookup_delete_ne; [done|]. by apply (Hpp _ _ Hnd).
  - simpl. rewrite surv_delete; [apply HS|]. by rewrite Hb.
  - simpl. rewrite !surv_delete by (by rewrite Hb). apply HS.
Qed.

Lemma step_op q m' q' : pcs s !! t = Some q → op_step (operating (pcs s)) (mm s) q = Some (m', q') →
  simulated pat (Sys m' (<[t := q']> (pcs s))) A [].
Proof using All.
  intros Hq Hst. destruct q; try done.
  - by eapply step_FHead.
  - by eapply step_FNext.
  - by eapply step_FCheck.
  - by eapply step_FUnlink.
  - by eapply step_FRetire.
  - by eapply step_OStore.
  - by eapply step_OVal.
  - by eapply step_OBegin.
  - by eapply step_OCas.
  - by eapply step_OUnlink.
  - by eapply step_ORetire.
  - by eapply step_ODelete.
Qed.

(** ** Between operations *)

Lemma step_new o n b v : pcs s !! t = Some (ONew o) → oval o = Some v → 0 < n < U64 → n mod 64 = 0 → nodes (mm s) !! n = None →
  b ≠ 0 → payloads (mm s) !! b = None →
  simulated pat (Sys (with_payloads (<[b := Payload (okey o) v None None]> (payloads (mm s)))
    (with_nodes (<[n := Node 0 b (okey o)]> (nodes (mm s))) (mm s))) (<[t := OStart o n]> (pcs s))) A [].
Proof using All.
  intros Hq Hv Hn Hal Hnone Hb0 Hbnone. destruct (sm_thread HS t _ Hq) as (x & Hx & Hrun & _).
  set (m' := with_payloads _ _). assert (¬ pub G n) as Hnp.
  { intros Hp. destruct (s_pub Hsh n Hp) as (_ & _ & nd & y & ? & _). congruence. }
  assert (∀ a', nodes (mm s) !! a' ≠ None → nodes m' !! a' = nodes (mm s) !! a') as Hsame.
  { intros a' Ha'. simpl. rewrite lookup_insert_ne; [done|]. congruence. }
  assert (∀ b', payloads (mm s) !! b' ≠ None → payloads m' !! b' = payloads (mm s) !! b') as Hpay.
  { intros b' Hb'. simpl. rewrite lookup_insert_ne; [done|]. congruence. }
  assert (∀ a', pub G a' → nodes m' !! a' = nodes (mm s) !! a' ∧ ∀ nd, nodes (mm s) !! a' = Some nd → payloads m' !! pl nd = payloads (mm s) !! pl nd) as Hpub.
  { intros a' Ha'. destruct (s_pub Hsh a' Ha') as (_ & _ & nd & y & Hnd & Hy & _). split; [apply Hsame; congruence|].
    intros nd' Hnd'. apply Hpay. congruence. }
  exists A, G. split; [constructor|]. eapply lf_sim_moves; [exact HS|exact Hq|]. constructor.
  - eapply shared_frame; [exact Hsh|try done..]; [apply Hsh|intros a' Ha'; apply (proj1 (Hpub a' Ha'))|intros a' nd Ha'; apply (proj2 (Hpub a' Ha'))|].
    simpl. intros b' y [[<- <-]|[_ ?]]%lookup_insert_Some; [by right|by left].
  - intros u q2 Hne Hu. split; [apply keeps_frame; [done|done|intros a' [Ha' _]; apply (proj1 (Hpub a' Ha'))|intros a' nd [Ha' _]; apply (proj2 (Hpub a' Ha'))]|].
    intros o' n' Ht' Hn'. destruct (sim_tmp_not_pub _ _ _ _ _ _ _ _ _ _ _ HS Hu Ht' Hn') as (_ & _ & v' & w & b' & _ & Hnd & Hy).
    split_and!; [apply Hsame; congruence|intros nd Hnd'; apply Hpay; rewrite Hnd in Hnd'; injection Hnd' as <-; simpl; congruence|done].
  - intros u q2 Hne Hu Hin. split; [done|]. by eapply (sm_old HS).
  - done.
  - by exists x.
  - intros o' n' [= <- <-]. rewrite Hv. split; [lia|]. split; [by apply getMark_aligned|]. split; [done|]. exists 0, b. simpl.
    by rewrite !lookup_insert_eq.
  - done.
  - intros u q2 Hne Hu. split; [|done]. intros o1 n1 o' n' [= <- <-] Ht' _ Hn'.
    destruct (sim_tmp_not_pub _ _ _ _ _ _ _ _ _ _ _ HS Hu Ht' Hn') as (_ & _ & v' & w & b' & _ & Hnd & Hy). split; [congruence|].
    intros nd nd'. simpl. rewrite lookup_insert_eq. intros [= <-]. rewrite lookup_insert_ne by congruence. rewrite Hnd.
    intros [= <-]. simpl. congruence.
  - intros u q2 a Hne Hu. by eapply (sm_pend HS).
  - done.
  - intros a W HW. destruct (sm_retired HS a W HW) as [? Hr]. split; [done|]. split; [by intros; eapply Hr|done].
  - simpl. rewrite surv_same; [apply HS|]. by rewrite Hbnone.
  - simpl. rewrite !surv_same by (by rewrite Hbnone). apply HS.
Qed.
(** A thread that starts an operation can reach no node that is already unlinked. *)
Lemma step_start o n : pcs s !! t = Some (OStart o n) →
  simulated pat (Sys (mm s) (<[t := FHead (Ctx o n None)]> (pcs s))) A [].
Proof using All.
  intros Hq. destruct (sm_thread HS t _ Hq) as (x & Hx & Hrun).
  set (G' := Gh (ch G) (dead G) (λ u, if decide (u = t) then dead G else LfTableInv.old G u)).
  assert (∀ u, u ≠ t → LfTableInv.old G' u = LfTableInv.old G u) as Hold by (intros u Hne; simpl; by rewrite decide_False).
  assert (LfTableInv.old G' t = dead G) as Hold' by (simpl; by rewrite decide_True).
  exists A, G'. split; [constructor|]. eapply lf_sim_moves; [exact HS|exact Hq|]. constructor.
  - eapply shared_frame; [exact Hsh|try done..]; [apply Hsh|intros; by left].
  - intros u q2 Hne Hu. split; [|by intros o' n' ??]. apply keeps_frame; try done. intros a [Ha Ho]. split; [done|]. by rewrite Hold.
  - intros u q2 Hne Hu Hin. rewrite Hold by done. split; [done|]. by eapply (sm_old HS).
  - done.
  - by exists x.
  - apply (sm_private HS t _ Hq).
  - intros _. by rewrite Hold'.
  - intros u q2 Hne Hu. by apply (sm_apart HS t u _ _ (not_eq_sym Hne) Hq Hu).
  - intros u q2 a Hne Hu Ha. rewrite Hold by done. by eapply (sm_pend HS).
  - done.
  - intros a W HW. destruct (sm_retired HS a W HW) as [? Hr]. split; [done|]. rewrite Hold'. split; [|done].
    intros u q2 Hne Hu Hin. rewrite Hold by done. by eapply Hr.
  - apply HS.
  - apply HS.
Qed.

(** A step that leaves the memory as it is but for the waiting sets, between operations *)
Lemma sim_outside q q' x' r' : pcs s !! t = Some q → in_op q' = false → (∀ w, tmpof q' = Some w → oval w.1 = None ∧ w.2 = 0) → pend q' = None →
  thread_ok G (mm s) t q' x' → (∀ a W, r' !! a = Some W → ∃ W', retired (mm s) !! a = Some W' ∧ ∀ u, u ≠ t → u ∈ W' → u ∈ W) →
  sim pat G (Sys (with_retired r' (mm s)) (<[t := q']> (pcs s))) (set_apc t x' A).
Proof using All.
  intros Hq Hin' Htmp Hpend Hok Hr'. destruct (sm_thread HS t _ Hq) as (x & Hx & _).
  assert (∀ a, retired (mm s) !! a = None → r' !! a = None) as Hrnone.
  { intros a Ha. destruct (r' !! a) as [W|] eqn:HW; [|done]. destruct (Hr' a W HW) as (W' & ? & _). congruence. }
  eapply lf_sim_moves; [exact HS|exact Hq|]. constructor; simpl.
  - eapply shared_frame; [exact Hsh|try done..]; [apply Hsh|intros; by left].
  - intros u q2 _ _. split; [by apply keeps_frame|by intros o' n' ??].
  - intros u q2 _ Hu Hin. split; [done|]. by eapply (sm_old HS).
  - intros u Hne. by rewrite list_lookup_insert_ne.
  - exists x'. split; [apply list_lookup_insert_eq; by eapply lookup_lt_Some|]. by destruct q'.
  - intros o n Ht. destruct (Htmp _ Ht) as [H1 H2]. simpl in *. by rewrite H1.
  - by rewrite Hin'.
  - intros u q2 Hne Hu. split; [|by rewrite Hpend]. intros o n o' n' Ht _ Hn. by destruct (Htmp _ Ht).
  - intros u q2 a Hne Hu Ha. destruct (sm_pend HS u q2 a Hu Ha) as (? & ? & ?). split_and!; auto.
  - by rewrite Hpend.
  - intros a W (W' & HW & Hsub)%Hr'. destruct (sm_retired HS a W' HW) as [? Hr]. split; [done|]. split; [|by rewrite Hin'].
    intros u q2 Hne Hu Hop Ho. apply Hsub; [done|]. by eapply Hr.
  - apply HS.
  - apply HS.
Qed.

Lemma with_retired_same m : with_retired (retired m) m = m.
Proof. by destruct m. Qed.

Lemma step_call o : pcs s !! t = Some Idle →
  simulated pat (Sys (mm s) (<[t := if oval o is Some _ then ONew o else OStart o 0]> (pcs s))) A [ECall t o].
Proof using All.
  intros Hq. destruct (sm_thread HS t _ Hq) as (x & Hx & ->). exists (set_apc t (SRun o []) A), G.
  split; [by apply aruns_call; [|constructor]|]. rewrite <- (with_retired_same (mm s)) at 1.
  eapply sim_outside; [exact Hq|..].
  - by destruct (oval o).
  - destruct (oval o) eqn:Ho; [done|]. intros w [= <-]. done.
  - by destruct (oval o).
  - destruct (oval o) eqn:Ho; simpl; [|by eexists]. split; [by eexists|by eexists].
  - intros a W HW. by exists W.
Qed.

Lemma step_end r : pcs s !! t = Some (OEnd r) → simulated pat (Sys (leave t (mm s)) (<[t := Idle]> (pcs s))) A [ERet t r].
Proof using All.
  intros Hq. destruct (sm_thread HS t _ Hq) as (x & Hx & ->). exists (set_apc t SIdle A), G.
  split; [by apply aruns_ret; [|constructor]|]. eapply sim_outside; [exact Hq|done..|].
  intros a W. rewrite lookup_fmap. intros (W' & HW & ->)%fmap_Some. exists W'. split; [done|]. intros u Hne Hu. set_solver.
Qed.

Lemma lf_step_thread m' q q' a evs : pcs s !! t = Some q → thread_step (operating (pcs s)) (mm s) t q a = Some (m', q', evs) →
  simulated pat (Sys m' (<[t := q']> (pcs s))) A evs.
Proof using All.
  intros Hq Hst.
  destruct q, a; try discriminate Hst; unfold LfHashTable.thread_step in Hst;
    try (apply bind_Some in Hst as ([m1 q1] & Hs & Hst); injection Hst as <- <- <-; by eapply step_op);
    try (apply bind_Some in Hst as (q1 & Hs & Hst); injection Hst as <- <- <-; by eapply step_failed_cas with (ops := ∅)).
  - injection Hst as <- <- <-. by apply step_call.
  - destruct (oval o) as [v|] eqn:Hv; [|done]. case_bool_decide as Hc; [|done]. injection Hst as <- <- <-.
    destruct Hc as (? & ? & ? & ? & ?). by apply step_new.
  - injection Hst as <- <- <-. by apply step_start.
  - injection Hst as <- <- <-. by apply step_end.
Qed.
End op.
End steps.
End LfTableSteps.
