(* ===== verification/LfTableLin.v ===== *)
(** * Linearizability and durability of the nonblocking hash table

    Runs of [LfHashTable] against the atomic map, and what the payloads
    in memory say about the map two epochs ago. *)

From S2P Require Import Prelude HashTable LfHashTable LfChain LfTableInv LfTableRead LfTableWrite LfTableUpdate LfTableSteps.
Import LfHashTable LfChain LfTableInv LfTableRead LfTableWrite LfTableUpdate LfTableSteps.

Module LfTableLin.
Section lin.
Context {K V : Type} `{!EqDecision K, !Countable K} (lt : K → K → Prop) `{!RelDecision lt, !StrictOrder lt, !Trichotomy lt}.
Context (hash_fn : K → Z) (idxSize : Z) (Hsize : 0 < idxSize).
Notation idx := (idx hash_fn idxSize).
Notation chain := (chain lt hash_fn idxSize).
Notation chains := (chains lt hash_fn idxSize).
Notation shared := (shared lt hash_fn idxSize).
Notation prev_ok := (prev_ok lt hash_fn idxSize).
Notation curr_ok := (curr_ok hash_fn idxSize).
Notation hit := (hit lt hash_fn idxSize).
Notation miss := (miss lt hash_fn idxSize).
Notation thread_ok := (thread_ok lt hash_fn idxSize).
Notation sim := (sim lt hash_fn idxSize).
Notation moves := (moves lt hash_fn idxSize).
Notation simulated := (simulated lt hash_fn idxSize).
Notation thread_step := (thread_step lt hash_fn idxSize).
Notation run := (run lt hash_fn idxSize).
Notation step := (step lt hash_fn idxSize).
Notation op_step := (op_step lt hash_fn idxSize).
Notation lo_of := (lo_of lt).
Notation mem := (mem K V).
Notation payload := (payload K V).
Notation pc := (pc K V).
Notation op := (op K V).
Notation ctx := (ctx K V).
Notation sys := (sys K V).
Notation ast := (ast K V).
Notation spc := (spc K V).
Implicit Types (m : mem) (p : loc) (q : pc) (o : op) (c : ctx) (s : sys) (A : ast) (x : spc) (y : payload) (nd : node K) (G : ghost).

(** ** The epoch advances *)

Lemma surv_later G m (c : Z) : shared G m → epoch m ≤ c → surv c (payloads m) = surv (epoch m) (payloads m).
Proof.
  intros Hsh Hc. apply map_eq. intros b. unfold surv. rewrite !lookup_omap. destruct (payloads m !! b) as [y|] eqn:Hy; [|done]. simpl.
  destruct (s_ep Hsh b y Hy) as [H1 H2]. unfold survives. destruct (ep y) as [e|]; [|done]. specialize (H1 e eq_refl).
  rewrite !(proj2 (Z.leb_le e _)) by lia. destruct (retire y) as [r|]; [|done]. specialize (H2 r eq_refl).
  by rewrite !(proj2 (Z.leb_le r _)) by lia.
Qed.

Lemma lf_sim_advance pat G s A : sim pat G s A →
  sim pat G (Sys (with_epoch (epoch (mm s) + 1) (mm s)) (pcs s)) (Ast (am A) (am A :: asnap A) (apc A)).
Proof.
  intros HS. pose proof (sm_shared HS) as Hsh. set (m' := with_epoch _ _). constructor.
  - eapply shared_frame; [exact Hsh|try done..]; [apply Hsh|simpl; lia|intros; by left].
  - intros u q Hu. destruct (sm_thread HS u q Hu) as (x & Hx & Hok). exists x. split; [done|].
    eapply thread_ok_keeps; [exact Hsh| | |exact Hok]; [eapply keeps_frame; [exact Hsh|done..]|by intros o n ??].
  - apply (sm_private HS).
  - apply (sm_old HS).
  - apply (sm_apart HS).
  - apply (sm_pend HS).
  - apply (sm_retired HS).
  - simpl. rewrite (surv_later _ _ _ Hsh) by lia. apply HS.
  - intros Hpat. destruct (sm_snap HS Hpat) as [H1 H2]. simpl. split.
    + replace (epoch (mm s) + 1 - 1) with (epoch (mm s)) by lia. apply HS.
    + by replace (epoch (mm s) + 1 - 2) with (epoch (mm s) - 1) by lia.
Qed.

(** Without the patience of the tracker there are no snapshots to keep. *)
Lemma sim_weaken G s A : sim true G s A → sim false G s A.
Proof. intros []. by constructor. Qed.

(** ** A retired node is destructed *)

Definition free (a : Z) G : ghost := Gh (ch G) (dead G ∖ {[a]}) (λ u, LfTableInv.old G u ∖ {[a]}).

(** [~Node] takes the node and at most its own payload, which no cutoff after its retirement counts. *)
Lemma destruct_effect pat G s A a : sim pat G s A → retired (mm s) !! a = Some ∅ →
  ∃ nd y r ps', nodes (mm s) !! a = Some nd ∧ payloads (mm s) !! pl nd = Some y ∧ retire y = Some r ∧
    destruct_node a (mm s) = with_retired (delete a (retired (mm s))) (with_nodes (delete a (nodes (mm s))) (with_payloads ps' (mm s))) ∧
    (∀ b, b ≠ pl nd → ps' !! b = payloads (mm s) !! b) ∧ (∀ b y', ps' !! b = Some y' → payloads (mm s) !! b = Some y') ∧
    ∀ c : Z, r ≤ c → surv c ps' = surv c (payloads (mm s)).
Proof.
  intros HS Ha. pose proof (sm_shared HS) as Hsh. destruct (sm_retired HS a ∅ Ha) as [Had _].
  destruct (s_dead Hsh a Had) as [_ (nd & Hnd & Hmk)].
  destruct (s_pub Hsh a (or_intror Had)) as (_ & _ & nd' & y & Hnd' & Hy & _ & [e He] & Hret).
  rewrite Hnd in Hnd'. injection Hnd' as <-.
  assert (∃ r, retire y = Some r) as [r Hr].
  { destruct (retire y) as [r|]; [by exists r|]. destruct Hret as [Hret _]. rewrite Hret in Hmk; done. }
  exists nd, y, r, (if e <? epoch (mm s) - 1 then delete (pl nd) (payloads (mm s)) else payloads (mm s)).
  split_and!; [done..| | | |].
  - unfold destruct_node. rewrite Hnd, Hy. destruct y as [k v z1 z2]. simpl in He, Hr. by subst z1 z2.
  - intros b Hne. destruct (e <? epoch (mm s) - 1); [by rewrite lookup_delete_ne|done].
  - intros b y'. destruct (e <? epoch (mm s) - 1); [by intros [_ ?]%lookup_delete_Some|done].
  - intros c Hc. destruct (e <? epoch (mm s) - 1); [|done]. apply surv_delete. rewrite Hy. unfold survives. simpl.
    rewrite He, Hr, (proj2 (Z.leb_le r c)) by done. by rewrite andb_false_r.
Qed.

Lemma lf_sim_destruct pat G s A a : sim pat G s A → retired (mm s) !! a = Some ∅ →
  (pat = true → ∀ nd y r, nodes (mm s) !! a = Some nd → payloads (mm s) !! pl nd = Some y → retire y = Some r → r ≤ epoch (mm s) - 2) →
  sim pat (free a G) (Sys (destruct_node a (mm s)) (pcs s)) A.
Proof.
  intros HS Ha Hpat. pose proof (sm_shared HS) as Hsh. destruct (sm_retired HS a ∅ Ha) as [Had Hold].
  destruct (s_dead Hsh a Had) as [Hch _].
  destruct (destruct_effect _ _ _ _ _ HS Ha) as (nd & y & r & ps' & Hnd & Hy & Hr & -> & Hps & Hps' & Hsurv).
  set (m' := with_retired _ _). assert (∀ b, pub (free a G) b ↔ pub G b ∧ b ≠ a) as Hpub.
  { intros b. unfold pub. simpl. rewrite elem_of_difference, elem_of_singleton. split.
    - intros [[i Hi]|[? ?]]; [|by split; [right|]]. split; [left; by exists i|]. intros ->. by apply (Hch i).
    - intros [[[i Hi]|?] ?]; [left; by exists i|by right]. }
  assert (∀ b, b ≠ a → nodes m' !! b = nodes (mm s) !! b) as Hn by (intros b Hne; simpl; by rewrite lookup_delete_ne).
  assert (∀ b ndb, pub G b → b ≠ a → nodes (mm s) !! b = Some ndb → pl ndb ≠ pl nd) as Hpl.
  { intros b ndb Hb Hne Hndb Heq. apply Hne. eapply (s_own Hsh b a); [done|by right|done..]. }
  assert (∀ u q, pcs s !! u = Some q → in_op q = true → ∀ b, held G u b → b ≠ a) as Hheld.
  { intros u q Hu Hin b [_ Ho] ->. destruct (decide (a ∈ LfTableInv.old G u)); [done|]. by apply (Hold u q Hu Hin) in n. }
  assert (∀ u q, pcs s !! u = Some q → spares G (mm s) (free a G) m' q) as Hspare.
  { intros u q Hu o n Ht Hn0. destruct (sim_tmp_not_pub _ _ _ _ _ _ _ _ _ _ _ HS Hu Ht Hn0) as (Hnp & _ & v' & w & b & _ & Hndn & Hb).
    assert (n ≠ a) as Hna by (intros ->; apply Hnp; by right). split_and!; [by apply Hn| |by intros _ [? _]%Hpub].
    intros ndn Hndn'. apply Hps. intros Heq. rewrite Hndn in Hndn'. injection Hndn' as <-. simpl in Heq. subst b. rewrite Hy in Hb. by simplify_eq. }
  constructor.
  - eapply shared_frame; [exact Hsh|simpl; try done..]; [apply Hsh|set_solver| | |].
    + intros b [_ Hb]%Hpub. by apply Hn.
    + intros b ndb [Hb Hne]%Hpub Hndb. by apply Hps, (Hpl b).
    + intros b y' Hy'. left. by apply Hps'.
  - intros u q Hu. destruct (sm_thread HS u q Hu) as (x & Hx & Hok). exists x. split; [done|].
    destruct (in_op q) eqn:Hin; [|by destruct q]. eapply thread_ok_keeps; [exact Hsh| |by eapply Hspare|exact Hok].
    pose proof (Hheld u q Hu Hin) as Hne. eapply keeps_frame; [exact Hsh|..].
    + intros b Hb. split; [apply Hpub; split; [apply Hb|by apply Hne]|]. simpl. intros [? _]%elem_of_difference. by apply Hb.
    + intros b Hb. by apply Hn, Hne.
    + intros b ndb Hb Hndb. by apply Hps, (Hpl b); [apply Hb|apply Hne|].
  - intros u q Hu. eapply private_ok_spares; [by eapply Hspare|by eapply (sm_private HS)].
  - intros u q Hu Hin. simpl. pose proof (sm_old HS u q Hu Hin). set_solver.
  - intros u w q q' Hne Hu Hw. eapply apart_spares; [by eapply Hspare|by eapply Hspare|]. by eapply (sm_apart HS).
  - intros u q b Hu Hb. destruct (sm_pend HS u q b Hu Hb) as (Hb1 & Hb2 & Hb3). assert (b ≠ a) as Hne by congruence.
    simpl. rewrite lookup_delete_ne by done. set_solver.
  - intros b W HW. simpl in HW. apply lookup_delete_Some in HW as [Hne HW]. destruct (sm_retired HS b W HW) as [? HrW]. simpl. split; [set_solver|].
    intros u q Hu Hin Hb. eapply HrW; [done|done|set_solver].
  - simpl. rewrite Hsurv; [apply HS|]. by apply (s_ep Hsh _ _ Hy).
  - intros Hp. specialize (Hpat Hp nd y r Hnd Hy Hr). simpl. rewrite !Hsurv by lia. by apply (sm_snap HS).
Qed.

(** ** Runs *)

(** The payload of a destructed node was retired two epochs ago. *)
Definition patient_step s (x : sact K V) : bool :=
  match x with
  | Destruct a =>
      match nodes (mm s) !! a with
      | Some nd => match payloads (mm s) !! pl nd with
                   | Some (Payload _ _ _ (Some r)) => r <=? epoch (mm s) - 2
                   | _ => true
                   end
      | None => true
      end
  | _ => true
  end.
Fixpoint patient s (tr : list (sact K V)) : bool :=
  match tr with
  | [] => true
  | x :: tr' => patient_step s x && match step s x with Some (s1, _) => patient s1 tr' | None => true end
  end.

Lemma lf_sim_step pat G s A a s' evs : sim pat G s A → (pat = true → patient_step s a = true) → step s a = Some (s', evs) →
  simulated pat s' A evs.
Proof using Hsize StrictOrder0 Trichotomy0.
  intros HS Hpat Hst. destruct a as [t a| |a]; simpl in Hst.
  - apply bind_Some in Hst as (q & Hq & Hst). apply bind_Some in Hst as ([[m' q'] evs'] & Hts & Hst). simplify_eq.
    by eapply lf_step_thread.
  - simplify_eq. eexists _, G. split; [eapply aruns_lin; [apply lin_advance|constructor]|]. by apply lf_sim_advance.
  - destruct (retired (mm s) !! a) as [W|] eqn:HW; [|done]. case_bool_decide as HWe; [|done]. simplify_eq.
    exists A, (free a G). split; [constructor|]. apply lf_sim_destruct; [done|done|].
    intros Hp nd y r Hnd Hy Hr. specialize (Hpat Hp). simpl in Hpat. rewrite Hnd, Hy in Hpat.
    destruct y as [k v z r']. simpl in Hr. subst r'. by apply Z.leb_le.
Qed.

Lemma lf_sim_run pat tr : ∀ G s A s' evs, sim pat G s A → (pat = true → patient s tr = true) → run s tr = Some (s', evs) →
  simulated pat s' A evs.
Proof using Hsize StrictOrder0 Trichotomy0.
  induction tr as [|x tr IH]; intros G s A s' evs HS Hpat Hr; simpl in Hr.
  - simplify_eq. exists A, G. split; [constructor|done].
  - apply bind_Some in Hr as ([s1 evs1] & Hst & Hr). apply bind_Some in Hr as ([s2 evs2] & Hr2 & Hr). simplify_eq.
    simpl in Hpat. rewrite Hst in Hpat.
    destruct (lf_sim_step _ _ _ _ _ _ _ HS (λ H, proj1 (andb_prop _ _ (Hpat H))) Hst) as (A1 & G1 & Hr1 & HS1).
    eapply simulated_lf; [exact Hr1|]. eapply IH; [exact HS1| |done]. intros H. exact (proj2 (andb_prop _ _ (Hpat H))).
Qed.

Lemma lf_sim_new pat e n : sim pat (Gh (λ _, []) ∅ (λ _, ∅)) (new_table (K := K) (V := V) idxSize e n) (new_spec n).
Proof.
  assert (∀ u q, pcs (new_table (K := K) (V := V) idxSize e n) !! u = Some q → q = Idle ∧ (u < n)%nat) as Hidle.
  { intros u q Hq. by apply lookup_replicate in Hq. }
  assert (∀ a, ¬ pub (Gh (λ _, []) ∅ (λ _, ∅)) a) as Hpub.
  { intros a [[i Hi]|Ha]; [by apply elem_of_nil in Hi|set_solver]. }
  assert (gen_rep (∅ : gmap Z (K * V)) ∅) as Hgen by (split; [done|]; intros k v; split; [done|by intros (b & ?)]).
  constructor.
  - constructor; try done.
    + simpl. by rewrite length_replicate.
    + intros i. simpl. destruct (replicate _ 0 !! i) as [w|] eqn:Hw; [|done]. by apply lookup_replicate in Hw as [-> _].
    + by intros a ?%Hpub.
  - intros u q [-> Hu]%Hidle. exists SIdle. split; [by apply lookup_replicate|done].
  - intros u q [-> _]%Hidle. done.
  - intros u q [-> _]%Hidle. done.
  - intros u w q q' _ [-> _]%Hidle [-> _]%Hidle. by split.
  - intros u q a [-> _]%Hidle. done.
  - done.
  - exact Hgen.
  - done.
Qed.

(** The bindings in a chain, as a reader of the memory finds them *)
Inductive linked (m : mem) : Z → list (K * V) → Prop :=
  | linked_end : linked m 0 []
  | linked_marked a nd l : a ≠ 0 → nodes m !! a = Some nd → getMark (next nd) = true → linked m (getPtr (next nd)) l → linked m a l
  | linked_next a nd y l : a ≠ 0 → nodes m !! a = Some nd → getMark (next nd) = false → payloads m !! pl nd = Some y →
      linked m (getPtr (next nd)) l → linked m a ((key nd, pval y) :: l).

Lemma chain_linked G m i (l : list Z) : ∀ lo w, shared G m → (∀ a, a ∈ l → pub G a) → chain (nodes m) i lo w l →
  ∃ kvs, linked m w kvs ∧ ∀ k v, (k, v) ∈ kvs ↔ ∃ a nd y, a ∈ l ∧ nodes m !! a = Some nd ∧ getMark (next nd) = false ∧
    payloads m !! pl nd = Some y ∧ key nd = k ∧ pval y = v.
Proof.
  induction l as [|a l IH]; intros lo w Hsh Hpub Hc.
  - simpl in Hc. subst w. exists []. split; [constructor|]. intros k v. split; [by intros ?%elem_of_nil|]. by intros (a & ? & ? & ?%elem_of_nil & _).
  - destruct Hc as (-> & Ha0 & nd & Hnd & _ & _ & Hc). destruct (IH _ _ Hsh (λ b Hb, Hpub b ltac:(by right)) Hc) as (kvs & Hl & Hin).
    destruct (s_pub Hsh a (Hpub a ltac:(by left))) as (_ & _ & nd' & y & Hnd' & Hy & _). rewrite Hnd in Hnd'. injection Hnd' as <-.
    destruct (getMark (next nd)) eqn:Hmk.
    + exists kvs. split; [by eapply linked_marked|]. intros k v. rewrite Hin. split.
      * intros (b & ndb & yb & ? & ?). exists b, ndb, yb. split; [by right|done].
      * intros (b & ndb & yb & [->|?]%elem_of_cons & ? & Hrest); [|by exists b, ndb, yb]. destruct Hrest as [? _]. congruence.
    + exists ((key nd, pval y) :: kvs). split; [by eapply linked_next|]. intros k v. rewrite elem_of_cons, Hin. split.
      * intros [[= -> ->]|(b & ndb & yb & ? & ?)]; [exists a, nd, y; split; [by left|done]|exists b, ndb, yb; split; [by right|done]].
      * intros (b & ndb & yb & [->|?]%elem_of_cons & Hndb & Hm & Hyb & <- & <-); [left; congruence|]. right. by exists b, ndb, yb.
Qed.

Lemma sim_contents pat G s A k : sim pat G s A → ∃ w kvs, buckets (mm s) !! idx k = Some w ∧ linked (mm s) w kvs ∧
  ∀ v, am A !! k = Some v ↔ (k, v) ∈ kvs.
Proof using Hsize StrictOrder0 Trichotomy0.
  intros HS. pose proof (sm_shared HS) as Hsh. destruct (bucket_load _ _ _ Hsize G (mm s) k Hsh) as (w & Hw & _). simpl in Hw.
  pose proof (s_chains Hsh (idx k)) as Hc. rewrite Hw in Hc. simpl in Hc.
  destruct (chain_linked _ _ _ _ _ _ Hsh (λ a Ha, or_introl (ex_intro (λ i, a ∈ ch G i) (idx k) Ha)) Hc) as (kvs & Hl & Hin). exists w, kvs.
  split; [done|]. split; [done|]. intros v. rewrite Hin. split.
  - intros (a & nd & y & Ha & Hnd & Hk & Hmk & Hy & Hv)%(binding_inv _ _ _ _ _ _ _ _ _ HS). by exists a, nd, y.
  - intros (a & nd & y & Ha & Hnd & Hmk & Hy & <- & <-). eapply binding; [exact HS|left; by exists (idx (key nd))|done..].
Qed.
End lin.
End LfTableLin.



(** ** Runs *)

Module Example.
Notation go t k := (replicate k (Th t Go)).
Notation table := (new_table (K := Z) (V := Z) 4 5 2).
Notation run4 := (run (V := Z) Z.lt id 4).
#[export] Instance z_lt_strict : StrictOrder Z.lt := Z.lt_strorder.
#[export] Instance z_lt_total : Trichotomy Z.lt.
Proof. intros x y. lia. Qed.

(** Two threads in one bucket.  A [get] meets the node that a [put] has just marked,
    unlinks it and reads the replacement; the [put] then fails to unlink it and looks
    again.  An epoch advance makes a [replace] fail and retry.  The first node
    is destructed and its address used again. *)
Definition busy : list (sact Z Z) :=
  [Th 0 (Call (Insert 5 50)); Th 0 (New 64 1)] ++ go 0 6 ++ [Th 0 (Call (Insert 9 90)); Th 0 (New 128 2)] ++ go 0 8 ++
  [Th 0 (Call (Put 5 51)); Th 0 (New 192 3)] ++ go 0 8 ++ [Th 1 (Call (Get 5))] ++ go 1 10 ++ go 0 5 ++
  [Advance; Th 1 (Call (Remove 9))] ++ go 1 12 ++
  [Th 0 (Call (Replace 5 52)); Th 0 (New 256 4)] ++ go 0 7 ++ [Advance] ++ go 0 11 ++
  [Destruct 64; Th 1 (Call (Insert 13 130)); Th 1 (New 64 5)] ++ go 1 8 ++ [Th 1 (Call (Insert 13 131)); Th 1 (New 320 6)] ++ go 1 8.
Definition busy_events : list (ev Z Z) :=
  [ECall 0 (Insert 5 50); ERet 0 (RBool true); ECall 0 (Insert 9 90); ERet 0 (RBool true); ECall 0 (Put 5 51); ECall 1 (Get 5);
   ERet 1 (RVal (Some 51)); ERet 0 (RVal (Some 50)); ECall 1 (Remove 9); ERet 1 (RVal (Some 90)); ECall 0 (Replace 5 52);
   ERet 0 (RVal (Some 51)); ECall 1 (Insert 13 130); ERet 1 (RBool true); ECall 1 (Insert 13 131); ERet 1 (RBool false)].


(** A binding replaced and another one removed two epochs before the end, and the nodes destructed *)
Definition calm : list (sact Z Z) :=
  [Th 0 (Call (Insert 5 50)); Th 0 (New 64 1)] ++ go 0 6 ++ [Th 1 (Call (Insert 9 90)); Th 1 (New 128 2)] ++ go 1 8 ++
  [Advance; Th 0 (Call (Put 9 91)); Th 0 (New 192 3)] ++ go 0 13 ++ [Th 1 (Call (Remove 5))] ++ go 1 10 ++
  [Advance; Advance; Destruct 64; Destruct 128; Th 0 (Call (Remove 9))] ++ go 0 10.


(** Why nodes have to wait: a binding that was there at the ends of the epochs 6 and 7 is removed in epoch 8, and
    destructing the node deallocates the payload that a crash in epoch 8 needs. *)
Lemma lf_reclaim_loses_binding :
  let tr := [Th 0 (Call (Insert 5 50)); Th 0 (New 64 1)] ++ go 0 6 ++ [Advance; Advance; Advance; Th 1 (Call (Remove 5))] ++ go 1 10 in
  ∃ s1 s2 evs, run4 table tr = Some (s1, evs) ∧ step Z.lt id 4 s1 (Destruct 64) = Some (s2, []) ∧
    epoch (mm s1) = 8 ∧ surv 6 (payloads (mm s1)) = {[1 := (5, 50)]} ∧ surv 6 (payloads (mm s2)) = ∅.
Proof. vm_compute. do 3 eexists. split_and!; reflexivity. Qed.
End Example.
