(* ===== verification/LfRecover.v ===== *)
(** * Recovery of the nonblocking hash table

    [MontageLfHashTable::recover]: several threads insert the recovered payloads into an
    empty table, each its share, with [findNode] and a compare-and-swap
    that no epoch guards.  A run of it is followed by a run of the table of [LfHashTable] in which each
    thread inserts the bindings of its share, so the invariant of the table
    carries over. *)

From S2P Require Import Prelude HashTable LfHashTable LfChain LfTableInv LfTableRead LfTableWrite LfTableUpdate LfTableSteps LfTableLin.
Import LfHashTable LfChain LfTableInv LfTableRead LfTableWrite LfTableUpdate LfTableSteps LfTableLin.

Module LfRecover.
Section recover.
Context {K V : Type} `{!EqDecision K} (lt : K → K → Prop) `{!RelDecision lt}.
Context (hash_fn : K → Z) (idxSize : Z).
Notation mem := (mem K V).
Notation payload := (payload K V).
Notation pc := (pc K V).
Notation act := (act K V).
Notation op_step := (op_step lt hash_fn idxSize).

(** ** The code

    A thread takes the next payload of its share, or is in [findNode] or
    at the store and the compare-and-swap after it ([OStore], [OBegin]). *)
Inductive rpc : Type :=
  | RNext (rest : list Z)
  | RIn (rest : list Z) (q : pc).

Definition rec_thread (m : mem) (x : rpc) (a : act) : option (mem * rpc) :=
  match x, a with
  | RNext (b :: rest), New n _ =>
      if bool_decide (0 < n < U64 ∧ n mod 64 = 0 ∧ nodes m !! n = None) then
        Some (match payloads m !! b with
              | Some y => (with_nodes (<[n := Node 0 b (pkey y)]> (nodes m)) m, RIn rest (FHead (Ctx (Insert (pkey y) (pval y)) n None)))
              | None => (failed m, x)
              end)
      else None
  | RIn rest (OBegin o n p a _ None), Go =>
      Some (match load m p with
            | Some w => if w =? a then (store m p n, RNext rest) else (m, RIn rest (FHead (Ctx o n None)))
            | None => (failed m, x)
            end)
  | RIn rest (OBegin o n _ _ _ None), Give_up => Some (m, RIn rest (FHead (Ctx o n None)))
  | RIn rest (ODelete _ _ _), Go => Some (failed m, x)  (** [errexit] *)
  | RIn rest q, Go => '(m', q') ← op_step ∅ m q; Some (m', RIn rest q')
  | RIn rest q, Give_up => q' ← failed_cas q; Some (m, RIn rest q')
  | _, _ => None
  end.

Record rsys : Type := Rsys { rm : mem; rpcs : list rpc }.

Definition rec_step (s : rsys) (x : nat * act) : option rsys :=
  q ← rpcs s !! x.1;
  '(m', q') ← rec_thread (rm s) q x.2;
  Some (Rsys m' (<[x.1 := q']> (rpcs s))).
Fixpoint rec_run (s : rsys) (tr : list (nat * act)) : option rsys :=
  match tr with
  | [] => Some s
  | x :: tr' => s1 ← rec_step s x; rec_run s1 tr'
  end.

(** [payloadVector] in the heap [ps], in the epoch [e] of the restart, and [rec_thd] threads *)
Definition recover (e : Z) (ps : gmap Z payload) (payloadVector : list Z) (rec_thd : nat) : rsys :=
  Rsys (Mem ∅ ps (replicate (Z.to_nat idxSize) 0) e ∅ false) ((λ t, RNext (strided rec_thd t payloadVector)) <$> seq 0 rec_thd).
Definition rec_done (s : rsys) : bool := forallb (λ x, match x with RNext [] => true | _ => false end) (rpcs s).

(** What a crash leaves of the payloads of committed operations *)
Definition crashed (c : Z) (ps : gmap Z payload) : gmap Z payload :=
  omap (λ y, match survives c y with Some _ => Some (Payload (pkey y) (pval y) (ep y) None) | None => None end) ps.
End recover.
Arguments rpc K V : clear implicits.
Arguments rsys K V : clear implicits.

Section view.
Context {K V : Type} `{!EqDecision K, !Countable K} (lt : K → K → Prop) `{!RelDecision lt, !StrictOrder lt, !Trichotomy lt}.
Context (hash_fn : K → Z) (idxSize : Z) (Hsize : 0 < idxSize).
Notation mem := (mem K V).
Notation payload := (payload K V).
Notation pc := (pc K V).
Notation op := (op K V).
Notation act := (act K V).
Notation ctx := (ctx K V).
Notation sys := (sys K V).
Notation ast := (ast K V).
Notation rpc := (rpc K V).
Notation rsys := (rsys K V).
Notation sim := (sim lt hash_fn idxSize).
Notation op_step := (op_step lt hash_fn idxSize).
Notation run := (run lt hash_fn idxSize).
Notation rec_thread := (rec_thread lt hash_fn idxSize).
Notation rec_step := (rec_step lt hash_fn idxSize).
Notation rec_run := (rec_run lt hash_fn idxSize).
Implicit Types (m : mem) (q : pc) (x : rpc) (s : rsys) (T : sys) (A : ast) (G : ghost) (y : payload) (nd : node K) (o : op) (c : ctx).

(** ** Recovery as a run of the table *)

Definition view x : pc := match x with RNext _ => Idle | RIn _ q => q end.
Definition rest_of x : list Z := match x with RNext r | RIn r _ => r end.

(** No node is marked, and no key found. *)
Definition inserting c : Prop := cr c = None ∧ ∃ k v, co c = Insert k v.
Definition find_pc m q : Prop :=
  match q with
  | FHead c | FNext c _ _ => inserting c
  | FCheck c _ _ w ck => inserting c ∧ getMark w = false ∧ (w ≠ 0 → node_at m w (λ nd, lt ck (key nd)))
  | OStore o n p a z found => inserting (Ctx o n None) ∧ found = false
  | OBegin o n p a z old => inserting (Ctx o n None) ∧ old = None
  | _ => False
  end.
Definition rec_ok m x : Prop := match x with RNext _ => True | RIn _ q => find_pc m q end.

(** The payload [b] of the new node of a thread, and the payloads that are linked *)
Definition flight m x (b : Z) : Prop := ∃ o n nd, tmpof (view x) = Some (o, n) ∧ nodes m !! n = Some nd ∧ pl nd = b.
Definition placed m (b : Z) : Prop := ∃ y, payloads m !! b = Some y ∧ is_Some (ep y).

(** [m] and the table's memory [m'] *)
Record alike m m' : Prop := {
  al_nodes : nodes m = nodes m';
  al_buckets : buckets m = buckets m';
  al_epoch : epoch m = epoch m';
  al_retired : retired m = ∅;
  al_fault : fault m = fault m';
}.

Record rinv (ps : gmap Z payload) s G T A : Prop := {
  ri_sim : sim false G T A;
  ri_alike : alike (rm s) (mm T);
  ri_ps : payloads (rm s) = ps;
  ri_pcs : pcs T = view <$> rpcs s;
  ri_ok t x : rpcs s !! t = Some x → rec_ok (rm s) x;
  ri_marks a nd : nodes (rm s) !! a = Some nd → getMark (next nd) = false;
  ri_pay b y : payloads (mm T) !! b = Some y → retire y = None ∧ ∃ y0, ps !! b = Some y0 ∧ pkey y = pkey y0 ∧ pval y = pval y0;
  ri_rest t x b : rpcs s !! t = Some x → b ∈ rest_of x → is_Some (ps !! b) ∧ payloads (mm T) !! b = None;
  ri_nodup t x : rpcs s !! t = Some x → NoDup (rest_of x);
  ri_disj t u x x' b : t ≠ u → rpcs s !! t = Some x → rpcs s !! u = Some x' → b ∈ rest_of x → b ∉ rest_of x';
  ri_all b : is_Some (ps !! b) → (∃ t x, rpcs s !! t = Some x ∧ (b ∈ rest_of x ∨ flight (mm T) x b)) ∨ placed (mm T) b;
}.

(** What a step of [t] from [x] to [x'] has to show *)
Lemma rinv_thread ps s G T A t x m' x' G' m1 A' : rinv ps s G T A → rpcs s !! t = Some x →
  sim false G' (Sys m1 (<[t := view x']> (pcs T))) A' → alike m' m1 → payloads m' = ps → rec_ok m' x' →
  (∀ a nd, nodes m' !! a = Some nd → getMark (next nd) = false) →
  (∀ a nd, nodes (mm T) !! a = Some nd → ∃ nd', nodes m1 !! a = Some nd' ∧ key nd' = key nd ∧ pl nd' = pl nd) →
  (∀ b y, payloads m1 !! b = Some y → payloads (mm T) !! b = Some y ∨ retire y = None ∧ ∃ y0, ps !! b = Some y0 ∧ pkey y = pkey y0 ∧ pval y = pval y0) →
  (∀ b, is_Some (payloads m1 !! b) → is_Some (payloads (mm T) !! b) ∨ b ∈ rest_of x ∧ b ∉ rest_of x') →
  (∀ b, b ∈ rest_of x' → b ∈ rest_of x) → NoDup (rest_of x') →
  (∀ b, b ∈ rest_of x → b ∈ rest_of x' ∨ flight m1 x' b) →
  (∀ b, flight (mm T) x b → flight m1 x' b ∨ placed m1 b) → (∀ b, placed (mm T) b → placed m1 b) →
  rinv ps (Rsys m' (<[t := x']> (rpcs s))) G' (Sys m1 (<[t := view x']> (pcs T))) A'.
Proof.
  intros HI Hx HS Hal Hps Hok Hmk Hn Hp1 Hp2 Hr1 Hr2 Hr3 Hf Hpl.
  assert (∀ u x2, <[t := x']> (rpcs s) !! u = Some x2 → u = t ∧ x2 = x' ∨ u ≠ t ∧ rpcs s !! u = Some x2) as Hpc.
  { intros u x2 [(<- & <- & _)|[? ?]]%list_lookup_insert_Some; [by left|by right]. }
  assert (∀ u x2, u ≠ t → rpcs s !! u = Some x2 → rec_ok m' x2) as Hok'.
  { intros u x2 Hne Hu. pose proof (ri_ok _ _ _ _ _ HI u x2 Hu) as Hy. destruct x2 as [|r q]; [done|]. destruct q; try done.
    destruct Hy as (? & ? & Hw). split; [done|]. split; [done|]. intros Hw0. destruct (Hw Hw0) as (nd & Hnd & ?).
    rewrite (al_nodes _ _ (ri_alike _ _ _ _ _ HI)) in Hnd. destruct (Hn _ _ Hnd) as (nd' & Hnd' & Hk & _). exists nd'.
    by rewrite (al_nodes _ _ Hal), Hk. }
  constructor; simpl; try done.
  - by rewrite list_fmap_insert, (ri_pcs _ _ _ _ _ HI).
  - intros u x2 [[-> ->]|[Hne Hu]]%Hpc; [done|by eapply Hok'].
  - intros b y [Hy|Hy]%Hp1; [by eapply ri_pay|done].
  - assert (∀ u x2 b, rpcs s !! u = Some x2 → b ∈ rest_of x2 → (u = t → b ∈ rest_of x') → is_Some (ps !! b) ∧ payloads m1 !! b = None) as Hrest.
    { intros u x2 b Hu Hb Hut. destruct (ri_rest _ _ _ _ _ HI u x2 b Hu Hb) as [? Hnone]. split; [done|].
      destruct (payloads m1 !! b) as [yb|] eqn:Hyb; [|done].
      destruct (Hp2 b (mk_is_Some _ _ Hyb)) as [[y' Hy']|[Hb1 Hb2]]; [congruence|].
      destruct (decide (u = t)) as [->|Hne]; [by destruct Hb2; apply Hut|by destruct (ri_disj _ _ _ _ _ HI t u x x2 b (not_eq_sym Hne) Hx Hu Hb1)]. }
    intros u x2 b [[-> ->]|[Hne Hu]]%Hpc Hb; [by eapply Hrest; [exact Hx|apply Hr1|]|by eapply Hrest].
  - intros u x2 [[-> ->]|[Hne Hu]]%Hpc; [done|by eapply ri_nodup].
  - intros u w x2 x3 b Hne [[-> ->]|[Hne1 Hu]]%Hpc [[-> ->]|[Hne2 Hw]]%Hpc Hb; [done|..].
    + by apply (ri_disj _ _ _ _ _ HI t w x x3 b), Hr1.
    + intros Hb'%Hr1. by apply (ri_disj _ _ _ _ _ HI u t x2 x b).
    + by apply (ri_disj _ _ _ _ _ HI u w x2 x3 b).
  - assert (<[t := x']> (rpcs s) !! t = Some x') as Ht by (apply list_lookup_insert_eq; by eapply lookup_lt_Some).
    intros b [(u & x2 & Hu & Hb)|Hb]%(ri_all _ _ _ _ _ HI); [|by right; apply Hpl]. destruct (decide (u = t)) as [->|Hne].
    + rewrite Hx in Hu. injection Hu as <-. destruct Hb as [Hb%Hr3|[Hb|Hb]%Hf]; [left; by exists t, x'|left; exists t, x'; auto|by right].
    + left. exists u, x2. rewrite list_lookup_insert_ne by done. split; [done|]. destruct Hb as [Hb|(o & n & nd & Ho & Hnd & Hb)]; [by left|].
      right. destruct (Hn _ _ Hnd) as (nd' & ? & _ & Hpl'). exists o, n, nd'. by rewrite Hpl'.
Qed.

Lemma alike_load m m' p : alike m m' → load m p = load m' p.
Proof. intros []. destruct p; simpl; congruence. Qed.
Lemma alike_failed m m' : alike m m' → alike (failed m) (failed m').
Proof. by intros []. Qed.
Lemma alike_store m m' p w : alike m m' → alike (store m p w) (store m' p w).
Proof. intros []. destruct p; constructor; simpl; congruence. Qed.

(** [findNode] and the store do not read payloads: the table makes the same step. *)
Definition kept m m' : Prop :=
  payloads m' = payloads m ∧ ∀ a nd, nodes m !! a = Some nd → ∃ nd', nodes m' !! a = Some nd' ∧ key nd' = key nd ∧ pl nd' = pl nd.
Lemma kept_refl m : kept m m.
Proof. split; [done|]. intros a nd ?. by exists nd. Qed.
Lemma kept_failed m : kept m (failed m).
Proof. split; [done|]. intros a nd ?. by exists nd. Qed.
Lemma kept_store m p w : kept m (store m p w).
Proof.
  split; [by destruct p|]. intros a nd Hnd. destruct (store_kept m p w a nd Hnd) as (nd' & ? & ? & ? & _). by exists nd'.
Qed.
Lemma op_step_alike m m1 ops q m' q' : alike m m1 → find_pc m q → op_step ∅ m q = Some (m', q') →
  (if q is OBegin _ _ _ _ _ _ then False else True) →
  ∃ m1', op_step ops m1 q = Some (m1', q') ∧ alike m' m1' ∧ payloads m' = payloads m ∧ kept m1 m1'.
Proof.
  intros HA Hf Hst Hq. pose proof (λ p, alike_load _ _ p HA) as Hl. pose proof (al_nodes _ _ HA) as Hn.
  destruct q as [| | |c|c p a|c p a w ck| | |o n p a z f| | | | | | |]; try done; unfold LfHashTable.op_step, at_loc, at_node in *.
  - rewrite Hl in Hst. destruct (load m1 _); simplify_eq; eexists; split_and!; try done; try by apply alike_failed.
    all: first [apply kept_refl|apply kept_failed|idtac].
  - rewrite Hn in Hst. destruct (nodes m1 !! a); simplify_eq; eexists; split_and!; try done; try by apply alike_failed.
    all: first [apply kept_refl|apply kept_failed|idtac].
  - rewrite Hl in Hst. destruct (load m1 p); simplify_eq; eexists; split_and!; try done; try by apply alike_failed.
    all: first [apply kept_refl|apply kept_failed|idtac].
  - rewrite Hn in Hst. destruct Hf as [_ ->]. destruct (nodes m1 !! n); simplify_eq; eexists; split_and!; try done; try by apply alike_failed.
    all: first [apply kept_refl|apply kept_failed|idtac].
    + by apply alike_store.
    + apply (kept_store m1 (Nxt n)).
Qed.

Lemma table_sim G T A tr T' evs : sim false G T A → run T tr = Some (T', evs) → ∃ G' A', sim false G' T' A'.
Proof using Hsize StrictOrder0 Trichotomy0.
  intros HS Hr. destruct (lf_sim_run _ _ _ Hsize false tr _ _ _ _ _ HS ltac:(done) Hr) as (A' & G' & _ & HS'). by exists G', A'.
Qed.

Section steps.
Context (ps : gmap Z payload) (Hnull : ∀ b, is_Some (ps !! b) → b ≠ 0).
Context (Huniq : ∀ b b' y y', ps !! b = Some y → ps !! b' = Some y' → pkey y = pkey y' → b = b').
Context (s : rsys) (G : ghost) (T : sys) (A : ast) (t : nat) (HI : rinv ps s G T A).

Definition advances m' x' : Prop := ∃ G' T' A', rinv ps (Rsys m' (<[t := x']> (rpcs s))) G' T' A'.

Lemma view_lookup x : rpcs s !! t = Some x → pcs T !! t = Some (view x).
Proof using HI. intros Hx. by rewrite (ri_pcs _ _ _ _ _ HI), list_lookup_fmap, Hx. Qed.

(** [new Node(this, payloadVector[i])] *)
Lemma advances_new b rest y n : rpcs s !! t = Some (RNext (b :: rest)) → payloads (rm s) !! b = Some y →
  0 < n < U64 → n mod 64 = 0 → nodes (rm s) !! n = None →
  advances (with_nodes (<[n := Node 0 b (pkey y)]> (nodes (rm s))) (rm s)) (RIn rest (FHead (Ctx (Insert (pkey y) (pval y)) n None))).
Proof using All.
  intros Hx Hy Hn Hal Hnone. pose proof (view_lookup _ Hx) as Hq. simpl in Hq. pose proof (lookup_lt_Some _ _ _ Hq) as Hlt.
  pose proof (ri_alike _ _ _ _ _ HI) as HA. rewrite (al_nodes _ _ HA) in Hnone. rewrite (ri_ps _ _ _ _ _ HI) in Hy.
  destruct (ri_rest _ _ _ _ _ HI t _ b Hx) as [_ Hb]; [by left|]. pose proof (Hnull b (mk_is_Some _ _ Hy)) as Hb0.
  pose proof (ri_nodup _ _ _ _ _ HI t _ Hx) as [Hbr Hnd]%NoDup_cons.
  set (o := Insert (pkey y) (pval y)). set (m1 := with_payloads (<[b := Payload (pkey y) (pval y) None None]> (payloads (mm T)))
    (with_nodes (<[n := Node 0 b (pkey y)]> (nodes (mm T))) (mm T))).
  assert (run T [Th t (Call o); Th t (New n b); Th t Go] = Some (Sys m1 (<[t := FHead (Ctx o n None)]> (pcs T)), [ECall t o])) as Hr.
  { simpl. rewrite Hq. simpl. rewrite list_lookup_insert_eq by done. simpl. rewrite bool_decide_true by (split_and!; done || lia). simpl.
    rewrite list_lookup_insert_eq by (by rewrite length_insert). simpl. by rewrite !list_insert_insert_eq. }
  destruct (table_sim _ _ _ _ _ _ (ri_sim _ _ _ _ _ HI) Hr) as (G' & A' & HS').
  exists G', (Sys m1 (<[t := FHead (Ctx o n None)]> (pcs T))), A'. destruct HA.
  eapply (rinv_thread _ _ _ _ _ _ _ _ (RIn rest (FHead (Ctx o n None))) _ m1 _ HI Hx HS').
  - constructor; simpl; congruence.
  - apply HI.
  - split; [done|]. by eexists _, _.
  - intros a nd. simpl. intros [[<- <-]|[_ ?]]%lookup_insert_Some; [done|by eapply ri_marks].
  - intros a nd Hnda. exists nd. simpl. rewrite lookup_insert_ne by congruence. done.
  - intros b' y'. simpl. intros [[<- <-]|[_ ?]]%lookup_insert_Some; [right|by left]. split; [done|]. by exists y.
  - intros b'. simpl. rewrite lookup_insert_is_Some. intros [<-|[_ ?]]; [right; split; [by left|done]|by left].
  - intros b' Hb'. by right.
  - done.
  - intros b' [->|Hb']%elem_of_cons; [right|by left]. exists o, n, (Node 0 b (pkey y)). simpl. rewrite lookup_insert_eq. done.
  - by intros b' (? & ? & ? & ? & _).
  - intros b' (y' & Hy' & He). exists y'. simpl. rewrite lookup_insert_ne by congruence. done.
Qed.

(** A step that neither takes nor publishes a payload *)
Lemma advances_in r q q' T' evs m' tr : rpcs s !! t = Some (RIn r q) → run T tr = Some (T', evs) →
  pcs T' = <[t := q']> (pcs T) → alike m' (mm T') → payloads m' = payloads (rm s) → kept (mm T) (mm T') → find_pc m' q' →
  (∀ a nd, nodes m' !! a = Some nd → getMark (next nd) = false) → tmpof q' = tmpof q → advances m' (RIn r q').
Proof using All.
  intros Hx Hr Hpcs HA Hpay [Hpay1 Hkept] Hf Hmk Htmp. destruct (table_sim _ _ _ _ _ _ (ri_sim _ _ _ _ _ HI) Hr) as (G' & A' & HS').
  destruct T' as [m1 ps1]. simpl in *. subst ps1. exists G', (Sys m1 (<[t := q']> (pcs T))), A'.
  eapply (rinv_thread _ _ _ _ _ _ _ _ (RIn r q') _ m1 _ HI Hx HS'); try done.
  - rewrite Hpay. apply HI.
  - intros b y Hy. left. by rewrite <- Hpay1.
  - intros b Hb. left. by rewrite <- Hpay1.
  - by eapply (ri_nodup _ _ _ _ _ HI t _ Hx).
  - intros b Hb. by left.
  - intros b (o & n & nd & Ho & Hnd & Hb). left. destruct (Hkept _ _ Hnd) as (nd' & ? & _ & Hpl). exists o, n, nd'. simpl in *. by rewrite Htmp, Hpl.
  - intros b (y & Hy & He). exists y. by rewrite Hpay1.
Qed.

Lemma find_at_pc m c p a : inserting c → find_pc m (find_at c p a) ∧ tmpof (find_at c p a) = ctx_tmp c.
Proof.
  destruct c as [o n r]. intros [Hr (k & v & Ho)]. simpl in *. subst r o.
  assert (inserting (Ctx (Insert k v) n None)) as Hc by (split; [done|by eexists _, _]). unfold find_at. by destruct (a =? 0).
Qed.

(** Keys grow along a chain without marks. *)
Lemma next_above a nd : pub G a → nodes (rm s) !! a = Some nd → next nd ≠ 0 → node_at (rm s) (next nd) (λ nw, lt (key nd) (key nw)).
Proof using HI.
  intros Ha Hnd Hn0. pose proof (ri_marks _ _ _ _ _ HI a nd Hnd) as Hmk. rewrite (al_nodes _ _ (ri_alike _ _ _ _ _ HI)) in Hnd.
  pose proof (sm_shared (ri_sim _ _ _ _ _ HI)) as Hsh. destruct Ha as [[i Hi]|Hd].
  2: { destruct (s_dead Hsh a Hd) as (_ & nd' & Hnd' & ?). congruence. }
  pose proof (s_chains Hsh i) as Hc. apply list_elem_of_split in Hi as (l1 & l2 & Hch). rewrite Hch in Hc.
  destruct (chain_at Hc) as (nd' & Hnd' & _ & _ & Hl & _). rewrite Hnd in Hnd'. injection Hnd' as <-. rewrite (getPtr_plain _ Hmk) in Hl.
  destruct l2 as [|b l2]; [done|]. destruct Hl as (Hb & _ & nb & Hnb & _ & Hab & _). exists nb.
  rewrite (al_nodes _ _ (ri_alike _ _ _ _ _ HI)), Hb. split; [done|]. unfold above in Hab. by rewrite Hmk in Hab.
Qed.

(** No key is met twice. *)
Lemma no_conflict r c p a w ck k v n : rpcs s !! t = Some (RIn r (FCheck c p a w ck)) → c = Ctx (Insert k v) n None → ck ≠ k.
Proof using All.
  intros Hx -> ->. pose proof (view_lookup _ Hx) as Hq. simpl in Hq. pose proof (ri_sim _ _ _ _ _ HI) as HS. pose proof (sm_shared HS) as Hsh.
  destruct (sm_thread HS t _ Hq) as (x & _ & _ & _ & [[Ha _] _] & nd & y & Hnd & Hy & Hk & _).
  destruct (sm_private HS t _ Hq _ _ eq_refl) as (_ & _ & _ & w' & b & Hn & Hb). simpl in Hb.
  destruct (s_pub Hsh a Ha) as (_ & _ & nd' & y' & Hnd' & Hy' & Hk' & [e He] & _). rewrite Hnd in Hnd'. injection Hnd' as <-.
  rewrite Hy in Hy'. injection Hy' as <-.
  destruct (ri_pay _ _ _ _ _ HI _ _ Hy) as (_ & y1 & H1 & Hk1 & _), (ri_pay _ _ _ _ _ HI _ _ Hb) as (_ & y2 & H2 & Hk2 & _). simpl in Hk2.
  assert (pl nd = b) as Heq by (eapply Huniq; [exact H1|exact H2|congruence]). rewrite Heq, Hb in Hy. injection Hy as <-. done.
Qed.

(** ** Steps of a thread *)

Lemma run_go q m1 q' : pcs T !! t = Some q → find_pc (rm s) q →
  op_step (operating (pcs T)) (mm T) q = Some (m1, q') → run T [Th t Go] = Some (Sys m1 (<[t := q']> (pcs T)), []).
Proof using Type. intros Hq Hk Hst. simpl. rewrite Hq. simpl. destruct q; try done; unfold thread_step; by rewrite Hst. Qed.

Lemma find_step r q m' q' : rpcs s !! t = Some (RIn r q) → op_step ∅ (rm s) q = Some (m', q') →
  (if q is OBegin _ _ _ _ _ _ then False else True) → find_pc (rm s) q →
  find_pc m' q' ∧ tmpof q' = tmpof q ∧ ∀ a nd, nodes m' !! a = Some nd → getMark (next nd) = false.
Proof using All.
  intros Hx Hst Hq Hf. pose proof (view_lookup _ Hx) as HT. simpl in HT. pose proof (ri_marks _ _ _ _ _ HI) as Hmk.
  destruct (sm_thread (ri_sim _ _ _ _ _ HI) t _ HT) as (x & _ & Hok). pose proof (sm_shared (ri_sim _ _ _ _ _ HI)) as Hsh.
  destruct q as [| | |c|c p a|c p a w ck| | |o n p a z f| | | | | | |]; try done; unfold LfHashTable.op_step, at_loc, at_node in Hst.
  - destruct (load _ _); simplify_eq; [|done]. destruct (find_at_pc (rm s) c (Bkt (idx hash_fn idxSize (okey (co c)))) (getPtr z) Hf). by split_and!.
  - destruct (nodes (rm s) !! a) as [nd|] eqn:Hnd; simplify_eq; [|done]. split_and!; [|done|done]. split; [done|]. split; [by eapply Hmk|].
    intros Hw. eapply next_above; [apply Hok|done|done].
  - destruct (load _ _) as [w'|]; simplify_eq; [|done]. destruct Hf as (Hc & Hmw & _). rewrite Hmw.
    destruct (negb (w' =? a)); [by split_and!|]. destruct (decide _) as [|Hge].
    + destruct (find_at_pc (rm s) c (Nxt a) (getPtr w) Hc). by split_and!.
    + destruct c as [o n rr]. destruct Hc as [Hcr (k & v & Hco)]. simpl in *. subst rr o.
      rewrite bool_decide_false by (simpl; by eapply no_conflict). split_and!; [|done|done]. split; [|done]. split; [done|by eexists _, _].
  - destruct (nodes (rm s) !! n) as [nd|] eqn:Hnd; simplify_eq; [|done]. destruct Hf as [Hc ->]. split_and!; [by split|done|].
    simpl. intros a' nd' [[<- (nd0 & ? & ->)]|[_ ?]]%lookup_alter_Some; [simpl|by eapply Hmk].
    destruct Hok as (_ & _ & _ & _ & Hm). destruct (decide (a = 0)) as [->|Ha]; [done|]. by apply (s_pub Hsh a), (Hm Ha).
Qed.

(** The compare-and-swap of recovery: in the table it publishes the payload, and the operation returns. *)
Lemma advances_cas_ok r o n p a z : rpcs s !! t = Some (RIn r (OBegin o n p a z None)) → inserting (Ctx o n None) →
  load (rm s) p = Some a → advances (store (rm s) p n) (RNext r).
Proof using All.
  intros Hx [_ (k & v & Ho)] Hl. simpl in Ho. subst o. pose proof (view_lookup _ Hx) as HT. simpl in HT. pose proof (lookup_lt_Some _ _ _ HT) as Hlt.
  pose proof (ri_sim _ _ _ _ _ HI) as HS. pose proof (ri_alike _ _ _ _ _ HI) as HA. rewrite (alike_load _ _ p HA) in Hl.
  destruct (sm_private HS t _ HT _ _ eq_refl) as (Hn0 & Hmn & Hnp & w & b & Hn & Hb). simpl in Hn, Hb.
  set (m2 := with_payloads (<[b := Payload k v (Some (epoch (mm T))) None]> (payloads (mm T))) (mm T)).
  set (T' := Sys (leave t (store m2 p n)) (<[t := Idle]> (pcs T))).
  assert (run T [Th t Go; Th t Go; Th t Go] = Some (T', [ERet t (RBool true)])) as Hr.
  { simpl. rewrite HT. simpl. rewrite list_lookup_insert_eq by done. simpl. unfold cas, at_loc. rewrite Hl, !Z.eqb_refl. simpl.
    unfold publish. rewrite (proj2 (Z.eqb_neq n 0) Hn0). unfold at_node, at_payload. rewrite Hn. simpl. rewrite Hb. simpl.
    rewrite list_lookup_insert_eq by (by rewrite length_insert). simpl. by rewrite !list_insert_insert_eq. }
  destruct (table_sim _ _ _ _ _ _ HS Hr) as (G' & A' & HS'). exists G', T', A'.
  destruct (store_fields m2 p n) as (Ef1 & _).
  assert (payloads (leave t (store m2 p n)) = <[b := Payload k v (Some (epoch (mm T))) None]> (payloads (mm T))) as Hpay by exact Ef1.
  destruct (ri_pay _ _ _ _ _ HI _ _ Hb) as (_ & y0 & Hy0 & Hk0 & Hv0). simpl in Hk0, Hv0.
  eapply (rinv_thread _ _ _ _ _ _ _ _ (RNext r) _ (leave t (store m2 p n)) _ HI Hx HS'); rewrite ?Hpay.
  - destruct HA. destruct p; constructor; simpl; congruence.
  - transitivity (payloads (rm s)); [by destruct p|apply HI].
  - done.
  - intros a' nd'. rewrite store_lookup. intros (nd & Hnd & ->)%fmap_Some. case_decide; [done|by eapply ri_marks].
  - intros a' nd Hnd. destruct (store_kept m2 p n a' nd Hnd) as (nd' & ? & ? & ? & _). by exists nd'.
  - intros b' y [[<- <-]|[_ ?]]%lookup_insert_Some; [right|by left]. split; [done|]. by exists y0.
  - intros b' [<-|[_ ?]]%lookup_insert_is_Some; [left; by eexists|by left].
  - done.
  - by eapply (ri_nodup _ _ _ _ _ HI t _ Hx).
  - intros b' Hb'. by left.
  - intros b' (o' & n' & nd & [= <- <-] & Hnd & <-). right. rewrite Hn in Hnd. injection Hnd as <-. eexists. rewrite Hpay. simpl.
    by rewrite lookup_insert_eq.
  - intros b' (y & Hy & He). destruct (decide (b' = b)) as [->|Hne].
    + eexists. rewrite Hpay, lookup_insert_eq. done.
    + exists y. rewrite Hpay, lookup_insert_ne by done. done.
Qed.

Lemma advances_cas r o n p a z m' x' : rpcs s !! t = Some (RIn r (OBegin o n p a z None)) → inserting (Ctx o n None) →
  rec_thread (rm s) (RIn r (OBegin o n p a z None)) Go = Some (m', x') → advances m' x'.
Proof using All.
  intros Hx Hc. pose proof (view_lookup _ Hx) as HT. simpl in HT. pose proof (lookup_lt_Some _ _ _ HT) as Hlt.
  pose proof (ri_alike _ _ _ _ _ HI) as HA. destruct (sm_thread (ri_sim _ _ _ _ _ HI) t _ HT) as (x & _ & _ & _ & _ & [Hp _] & _).
  destruct (prev_load _ _ _ Hsize _ _ _ _ _ (sm_shared (ri_sim _ _ _ _ _ HI)) Hp) as [w Hw]. simpl. rewrite (alike_load _ _ p HA), Hw.
  intros [= Hst]. destruct (Z.eqb_spec w a) as [->|Hne]; injection Hst as <- <-.
  - eapply advances_cas_ok; [exact Hx|done|by rewrite (alike_load _ _ p HA)].
  - eapply (advances_in _ _ _ (Sys (mm T) (<[t := FHead (Ctx o n None)]> (pcs T))) [] _ [Th t Go; Th t Go]); try done; [|apply kept_refl|apply HI].
    simpl. rewrite HT. simpl. rewrite list_lookup_insert_eq by done. simpl. unfold cas, at_loc. rewrite Hw.
    rewrite (proj2 (Z.eqb_neq w a) Hne). simpl. by rewrite !list_insert_insert_eq.
Qed.

Lemma rec_thread_find m r q a m' x' : find_pc m q → (if q is OBegin _ _ _ _ _ _ then False else True) →
  rec_thread m (RIn r q) a = Some (m', x') → a = Go ∧ ∃ q', op_step ∅ m q = Some (m', q') ∧ x' = RIn r q'.
Proof using Type.
  intros Hf Hq Hst. destruct q; try done; destruct a; try done; split; try done; unfold LfRecover.rec_thread in Hst;
    apply bind_Some in Hst as ([m1 q1] & ? & [= <- <-]); by exists q1.
Qed.
Lemma advances_find r q a m' x' : rpcs s !! t = Some (RIn r q) → (if q is OBegin _ _ _ _ _ _ then False else True) →
  rec_thread (rm s) (RIn r q) a = Some (m', x') → advances m' x'.
Proof using All.
  intros Hx Hq Hst. pose proof (ri_ok _ _ _ _ _ HI t _ Hx) as Hok. destruct (rec_thread_find _ _ _ _ _ _ Hok Hq Hst) as (-> & q' & Hop & ->).
  destruct (op_step_alike _ _ (operating (pcs T)) _ _ _ (ri_alike _ _ _ _ _ HI) Hok Hop Hq) as (mT & HopT & HA & Hpay & Hkept).
  destruct (find_step _ _ _ _ Hx Hop Hq Hok) as (Hf & Htmp & Hmk). pose proof (run_go _ _ _ (view_lookup _ Hx) Hok HopT) as Hrun.
  by eapply (advances_in _ _ _ _ _ _ _ Hx Hrun).
Qed.

Lemma advances_thread x a m' x' : rpcs s !! t = Some x → rec_thread (rm s) x a = Some (m', x') → advances m' x'.
Proof using All.
  intros Hx Hst. pose proof (ri_ok _ _ _ _ _ HI t x Hx) as Hok. destruct x as [[|b r]|r q].
  - by destruct a.
  - destruct a as [|n b'| |]; try done. simpl in Hst. case_bool_decide as Hn; [|done]. destruct Hn as (? & ? & ?).
    destruct (ri_rest _ _ _ _ _ HI t _ b Hx) as [[y Hy] _]; [by left|]. rewrite (ri_ps _ _ _ _ _ HI), Hy in Hst. injection Hst as <- <-.
    rewrite <- (ri_ps _ _ _ _ _ HI) in Hy. by eapply advances_new.
  - destruct q as [| | |c|c p a'|c p a' w ck| | |o n p a' z f| |o n p a' z old| | | | |]; try done.
    all: try (by eapply advances_find).
    destruct Hok as [Hc ->]. destruct a; try done; [by eapply advances_cas|]. simpl in Hst. injection Hst as <- <-.
    pose proof (view_lookup _ Hx) as HT. simpl in HT. pose proof (lookup_lt_Some _ _ _ HT) as Hlt.
    eapply (advances_in _ _ _ (Sys (mm T) (<[t := FHead (Ctx o n None)]> (pcs T))) [] _ [Th t Go; Th t Give_up]); try done; [|apply HI|apply kept_refl|apply HI].
    simpl. rewrite HT. simpl. rewrite list_lookup_insert_eq by done. simpl. by rewrite !list_insert_insert_eq.
Qed.
End steps.
End view.
End LfRecover.
