(* ===== verification/LfRestart.v ===== *)
(** * Crash and restart of the nonblocking hash table

    A run of the table, a crash at any moment, the recovery by several threads, and a
    run of the recovered table. *)

From S2P Require Import Prelude HashTable LfHashTable LfChain LfTableInv LfTableRead LfTableWrite LfTableSteps LfTableLin LfRecover.
Import LfHashTable LfChain LfTableInv LfTableRead LfTableWrite LfTableSteps LfTableLin LfRecover.

Module LfRestart.

(** ** Lists of lists *)

Lemma concat_NoDup {A} (ls : list (list A)) : NoDup (concat ls) → ∀ t l, ls !! t = Some l → NoDup l ∧
  ∀ u l' x, t ≠ u → ls !! u = Some l' → x ∈ l → x ∉ l'.
Proof.
  induction ls as [|l0 ls IH]; intros Hnd; [done|]. simpl in Hnd. apply NoDup_app in Hnd as (H0 & Hd & Hnd).
  assert (∀ t l x, ls !! t = Some l → x ∈ l → x ∈ concat ls) as Hin by (intros t l x ??; apply elem_of_concat; exists l; split; [by eapply list_elem_of_lookup_2|done]).
  specialize (IH Hnd). intros [|t] l Ht; simpl in Ht.
  - injection Ht as ->. split; [done|]. intros [|u] l' x Hne Hu Hx Hx'; [done|]. apply (Hd x Hx). by eapply Hin.
  - split; [by eapply IH|]. intros [|u] l' x Hne Hu Hx Hx'; simpl in Hu.
    + injection Hu as ->. apply (Hd x Hx'). by eapply Hin.
    + eapply (proj2 (IH t l Ht) u l' x); [congruence|done..].
Qed.

Section restart.
Context {K V : Type} `{!EqDecision K, !Countable K} (lt : K → K → Prop) `{!RelDecision lt, !StrictOrder lt, !Trichotomy lt}.
Context (hash_fn : K → Z) (idxSize : Z) (Hsize : 0 < idxSize).
Notation mem := (mem K V).
Notation payload := (payload K V).
Notation pc := (pc K V).
Notation act := (act K V).
Notation sys := (sys K V).
Notation ast := (ast K V).
Notation rpc := (rpc K V).
Notation rsys := (rsys K V).
Notation sim := (sim lt hash_fn idxSize).
Notation shared := (shared lt hash_fn idxSize).
Notation op_step := (op_step lt hash_fn idxSize).
Notation run := (run lt hash_fn idxSize).
Notation rec_run := (rec_run lt hash_fn idxSize).
Notation rec_thread := (rec_thread lt hash_fn idxSize).
Notation recover := (recover idxSize).
Notation rinv := (rinv lt hash_fn idxSize).
Implicit Types (m : mem) (q : pc) (x : rpc) (s : rsys) (T : sys) (A : ast) (G : ghost) (y : payload) (nd : node K).

(** ** The recovered payloads *)

Record heap_ok (e : Z) (ps : gmap Z payload) (M : gmap K V) : Prop := {
  hp_null b : is_Some (ps !! b) → b ≠ 0;
  hp_old b y : ps !! b = Some y → retire y = None ∧ ∃ e0, ep y = Some e0 ∧ e0 ≤ e - 2;
  hp_gen : gen_rep (surv (e - 2) ps) M;
}.

Lemma heap_surv e ps M c b y : heap_ok e ps M → e - 2 ≤ c → ps !! b = Some y → surv c ps !! b = Some (pkey y, pval y).
Proof.
  intros HP Hc Hy. destruct (hp_old _ _ _ HP b y Hy) as (Hr & e0 & He & Hle). unfold surv, survives. rewrite lookup_omap, Hy. simpl.
  by rewrite He, Hr, (proj2 (Z.leb_le e0 c)) by lia.
Qed.
Lemma heap_surv_all e ps M c : heap_ok e ps M → e - 2 ≤ c → surv c ps = surv (e - 2) ps.
Proof.
  intros HP Hc. apply map_eq. intros b. destruct (ps !! b) as [y|] eqn:Hy.
  - rewrite (heap_surv _ _ _ c _ _ HP Hc Hy). symmetry. by apply (heap_surv _ _ _ (e - 2) _ _ HP).
  - unfold surv. by rewrite !lookup_omap, Hy.
Qed.
Lemma heap_unique e ps M b b' y y' : heap_ok e ps M → ps !! b = Some y → ps !! b' = Some y' → pkey y = pkey y' → b = b'.
Proof.
  intros HP Hy Hy' Hk. apply (heap_surv _ _ _ (e - 2) _ _ HP) in Hy, Hy'; [|lia..]. rewrite <- Hk in Hy'.
  by eapply (proj1 (hp_gen _ _ _ HP)).
Qed.

(** ** Runs of the recovery *)

Lemma rinv_start e ps M vec n : heap_ok e ps M → (0 < n)%nat → NoDup vec → (∀ b, b ∈ vec ↔ is_Some (ps !! b)) →
  rinv ps (recover e ps vec n) (Gh (λ _, []) ∅ (λ _, ∅)) (new_table idxSize e n) (new_spec n).
Proof using Hsize StrictOrder0 Trichotomy0.
  intros HP Hn Hnd Hvec. assert (∀ t x, rpcs (recover e ps vec n) !! t = Some x → (t < n)%nat ∧ x = RNext (strided n t vec)) as Hpc.
  { intros t x. simpl. rewrite list_lookup_fmap. intros (u & [-> ?]%lookup_seq & ->)%fmap_Some. done. }
  assert (NoDup (concat ((λ t, strided n t vec) <$> seq 0 n))) as Hcc by (by rewrite strided_split).
  assert (∀ t, (t < n)%nat → ((λ t, strided n t vec) <$> seq 0 n) !! t = Some (strided n t vec)) as Hl.
  { intros t Ht. rewrite list_lookup_fmap, lookup_seq_lt by done. done. }
  constructor; try done.
  - by apply lf_sim_new.
  - simpl. apply list_eq. intros t. rewrite !list_lookup_fmap. destruct (decide (t < n)%nat) as [Ht|Ht].
    + rewrite lookup_seq_lt, lookup_replicate_2 by done. done.
    + rewrite (proj2 (lookup_ge_None _ _)), (proj2 (lookup_ge_None (seq 0 n) _)); [done|rewrite length_seq; lia|rewrite length_replicate; lia].
  - intros t x [_ ->]%Hpc. done.
  - intros t x b [_ ->]%Hpc Hb. split; [|done]. apply Hvec. by eapply strided_elem.
  - intros t x [Ht ->]%Hpc. eapply concat_NoDup; [exact Hcc|by apply Hl].
  - intros t u x x' b Hne [Ht ->]%Hpc [Hu ->]%Hpc. simpl. eapply (proj2 (concat_NoDup _ Hcc t _ (Hl t Ht))); [exact Hne|by apply Hl].
  - intros b Hb. left. apply Hvec in Hb. rewrite <- (strided_split n vec (seq 0 n)) in Hb by done.
    apply elem_of_concat in Hb as (l & [t Ht]%list_elem_of_lookup & Hb). exists t, (RNext l). split; [|by left]. simpl.
    apply list_lookup_fmap_Some in Ht as (u & -> & Hu). apply list_lookup_fmap_Some. by exists u.
Qed.

Lemma rinv_run e ps M tr : heap_ok e ps M → ∀ s s' G T A, rinv ps s G T A → rec_run s tr = Some s' → ∃ G' T' A', rinv ps s' G' T' A'.
Proof using Hsize StrictOrder0 Trichotomy0.
  intros HP. induction tr as [|[t a] tr IH]; intros s s' G T A HI Hr; simpl in Hr; [simplify_eq; by eexists _, _, _|].
  apply bind_Some in Hr as (s1 & Hst & Hr). unfold rec_step in Hst. apply bind_Some in Hst as (x & Hx & Hst).
  apply bind_Some in Hst as ([m' x'] & Hth & [= <-]). simpl in Hx, Hth.
  destruct (advances_thread _ _ _ Hsize ps (hp_null _ _ _ HP) (λ b b' y y', heap_unique _ _ _ b b' y y' HP) _ _ _ _ _ HI _ _ _ _ Hx Hth)
    as (G1 & T1 & A1 & HI1). by eapply IH.
Qed.

Lemma op_step_epoch ops m q m' q' : op_step ops m q = Some (m', q') → epoch m' = epoch m.
Proof.
  intros Hst. destruct q; simpl in Hst; unfold at_loc, at_node, at_payload, retire_node, cas, publish, at_loc, at_node, at_payload in Hst;
    repeat (case_match; simplify_eq/=; try done). all: try by rewrite ?(proj1 (proj2 (store_fields _ _ _))).
Qed.
Lemma rec_thread_epoch m x a m' x' : rec_thread m x a = Some (m', x') → epoch m' = epoch m.
Proof.
  assert (∀ r q, op_step ∅ m q ≫= (λ '(m1, q1), Some (m1, RIn r q1)) = Some (m', x') → epoch m' = epoch m) as Hop.
  { intros r q ([m1 q1] & H & [= <- _])%bind_Some. by eapply op_step_epoch. }
  intros Hst. destruct x as [[|b r]|r q]; [by destruct a|..].
  - destruct a; try done. simpl in Hst. repeat (case_match; simplify_eq/=; try done).
  - destruct a, q; try match goal with old : option (Z * V) |- _ => destruct old end; try done; try (by eapply Hop); simpl in Hst; simplify_eq; try done.
    all: repeat (case_match; simplify_eq/=; try done). all: try by rewrite ?(proj1 (proj2 (store_fields _ _ _))).
Qed.
Lemma rec_run_epoch tr : ∀ s s', rec_run s tr = Some s' → epoch (rm s') = epoch (rm s).
Proof.
  induction tr as [|[t a] tr IH]; intros s s' Hr; simpl in Hr; [by simplify_eq|]. apply bind_Some in Hr as (s1 & Hst & Hr).
  unfold rec_step in Hst. apply bind_Some in Hst as (x & Hx & Hst). apply bind_Some in Hst as ([m' x'] & Hth & [= <-]).
  rewrite (IH _ _ Hr). by eapply rec_thread_epoch.
Qed.
(** ** The recovered table *)

Lemma done_next s t x : rec_done s = true → rpcs s !! t = Some x → x = RNext [].
Proof.
  unfold rec_done. rewrite forallb_forall. intros Hd Hx%list_elem_of_lookup_2%list_elem_of_In%Hd. by destruct x as [[|??]|].
Qed.
Lemma done_placed e ps M s G T A b : heap_ok e ps M → rinv ps s G T A → rec_done s = true → is_Some (ps !! b) → placed (mm T) b.
Proof.
  intros HP HI Hd [(t & x & Hx & Hb)|?]%(ri_all _ _ _ _ _ _ _ _ HI); [|done]. apply (done_next _ _ _ Hd) in Hx as ->.
  destruct Hb as [?%elem_of_nil|(? & ? & ? & ? & _)]; done.
Qed.

Lemma shared_recovered e ps M s G T A : heap_ok e ps M → rinv ps s G T A → rec_done s = true → epoch (rm s) = e → shared G (rm s).
Proof.
  intros HP HI Hd He. destruct (ri_alike _ _ _ _ _ _ _ _ HI) as [Hn Hb _ _ Hf]. pose proof (sm_shared (ri_sim _ _ _ _ _ _ _ _ HI)) as Hsh.
  pose proof (ri_ps _ _ _ _ _ _ _ _ HI) as Hps. constructor; rewrite ?Hps.
  - rewrite Hf. apply Hsh.
  - rewrite Hb. apply Hsh.
  - intros i. rewrite Hn, Hb. apply (s_chains Hsh).
  - intros a Ha. destruct (s_pub Hsh a Ha) as (? & ? & nd & y & Hnd & Hy & Hk & _ & Hret). split; [done|]. split; [done|].
    destruct (ri_pay _ _ _ _ _ _ _ _ HI _ _ Hy) as (Hr & y0 & Hy0 & Hk0 & _). destruct (hp_old _ _ _ HP _ _ Hy0) as (Hr0 & e0 & He0 & _).
    exists nd, y0. rewrite Hn, Hps, <- Hk0. split_and!; [done..|by eexists|]. by rewrite Hr0, <- Hret, Hr.
  - intros a Ha. rewrite Hn. by apply (s_dead Hsh).
  - intros a b nd nd'. rewrite Hn. apply (s_own Hsh).
  - intros b y Hy _ _. destruct (done_placed _ _ _ _ _ _ _ b HP HI Hd) as (y1 & Hy1 & He1); [by eexists|]. rewrite Hn.
    eapply (s_live Hsh); [exact Hy1|done|]. by apply (ri_pay _ _ _ _ _ _ _ _ HI _ _ Hy1).
  - intros b y Hy. destruct (hp_old _ _ _ HP _ _ Hy) as (Hr0 & e0 & He0 & Hle). rewrite He0, Hr0. split; [|done]. intros e1 [= <-]. lia.
Qed.

Lemma sim_recovered e ps M s G T A n : heap_ok e ps M → rinv ps s G T A → rec_done s = true → epoch (rm s) = e →
  sim true G (Sys (rm s) (replicate n Idle)) (Ast M [M; M] (replicate n SIdle)).
Proof.
  intros HP HI Hd He. pose proof (ri_ps _ _ _ _ _ _ _ _ HI) as Hps.
  assert (∀ u q, replicate n (Idle (K := K) (V := V)) !! u = Some q → q = Idle ∧ (u < n)%nat) as Hidle by (intros u q Hq; by apply lookup_replicate in Hq).
  constructor; simpl.
  - by eapply shared_recovered.
  - intros u q [-> Hu]%Hidle. exists SIdle. split; [by apply lookup_replicate|done].
  - intros u q [-> _]%Hidle. done.
  - intros u q [-> _]%Hidle. done.
  - intros u w q q' _ [-> _]%Hidle [-> _]%Hidle. by split.
  - intros u q a [-> _]%Hidle. done.
  - intros a W. by rewrite (al_retired _ _ (ri_alike _ _ _ _ _ _ _ _ HI)).
  - rewrite Hps, He, (heap_surv_all _ _ _ e HP) by lia. apply HP.
  - intros _. rewrite Hps, He, (heap_surv_all _ _ _ (e - 1) HP) by lia. split; apply HP.
Qed.

(** ** The crash *)

Lemma crashed_lookup c (ps : gmap Z payload) b y : crashed c ps !! b = Some y →
  ∃ y0 kv, ps !! b = Some y0 ∧ survives c y0 = Some kv ∧ y = Payload (pkey y0) (pval y0) (ep y0) None.
Proof.
  unfold crashed. rewrite lookup_omap. intros (y0 & Hy0 & Hs)%bind_Some. destruct (survives c y0) as [kv|] eqn:Hkv; [|done].
  injection Hs as <-. by exists y0, kv.
Qed.
Lemma survives_ep c y kv : survives c y = Some kv → ∃ e, ep y = Some e ∧ e ≤ c.
Proof. unfold survives. intros Hs. destruct (ep y) as [e|]; [|done]. exists e. destruct (Z.leb_spec e c); [done|by rewrite andb_false_l in Hs]. Qed.
Lemma surv_crashed c c' (ps : gmap Z payload) : c ≤ c' → surv c' (crashed c ps) = surv c ps.
Proof.
  intros Hc. apply map_eq. intros b. unfold surv, crashed. rewrite !lookup_omap. destruct (ps !! b) as [y|]; [|done]. simpl.
  destruct (survives c y) as [kv|] eqn:Hkv; [|done]. destruct (survives_ep _ _ _ Hkv) as (e & He & Hle). unfold survives in *. simpl.
  rewrite He in *. rewrite !(proj2 (Z.leb_le e _)) in * by lia. simpl in *. by destruct (negb _).
Qed.

(** No payload is at the null address. *)
Lemma op_step_null ops m q m' q' : op_step ops m q = Some (m', q') → payloads m !! 0 = None → payloads m' !! 0 = None.
Proof.
  assert (∀ (ps : gmap Z payload) b y y', ps !! b = Some y → ps !! 0 = None → <[b := y']> ps !! 0 = None) as Hins.
  { intros ps b y y' Hb Hz. rewrite lookup_insert_ne; [done|]. intros ->. congruence. }
  intros Hst Hz. destruct q; simpl in Hst; unfold at_loc, at_node, at_payload, retire_node, cas, publish, at_loc, at_node, at_payload in Hst;
    repeat (case_match; simplify_eq/=; try done).
  all: rewrite ?store_payloads, ?(proj1 (store_fields _ _ _)); simpl; rewrite ?(proj1 (store_fields _ _ _)); simpl; try done.
  all: repeat (eapply Hins; [eassumption|]); try done. apply lookup_delete_None. by right.
Qed.
Lemma step_null T (a : sact K V) T' evs : step lt hash_fn idxSize T a = Some (T', evs) → payloads (mm T) !! 0 = None → payloads (mm T') !! 0 = None.
Proof.
  intros Hst Hz. destruct a as [t a| |a]; simpl in Hst.
  - apply bind_Some in Hst as (q & Hq & Hst). apply bind_Some in Hst as ([[m' q'] evs'] & Hth & [= <- _]). simpl.
    assert (∀ q, op_step (operating (pcs T)) (mm T) q ≫= (λ '(m1, q1), Some (m1, q1, [])) = Some (m', q', evs') → payloads m' !! 0 = None) as Hop.
    { intros q0 ([m1 q1] & H & [= <- _])%bind_Some. by eapply op_step_null. }
    destruct q, a; try discriminate Hth; try (by eapply Hop); unfold thread_step in Hth;
      try (apply bind_Some in Hth as (q1 & ? & [= <- _]); done); simplify_eq; try done.
    destruct (oval o); [|done]. case_bool_decide as Hc; [|done]. simplify_eq. simpl. rewrite lookup_insert_ne; [done|]. naive_solver.
  - by simplify_eq.
  - repeat (case_match; simplify_eq/=; try done). unfold destruct_node. repeat (case_match; simplify_eq/=; try done).
    apply lookup_delete_None. by right.
Qed.
Lemma run_null tr : ∀ T T' evs, run T tr = Some (T', evs) → payloads (mm T) !! 0 = None → payloads (mm T') !! 0 = None.
Proof.
  induction tr as [|x tr IH]; intros T T' evs Hr Hz; simpl in Hr; [by simplify_eq|]. apply bind_Some in Hr as ([T1 e1] & Hst & Hr).
  apply bind_Some in Hr as ([T2 e2] & Hr & [= <- _]). eapply IH; [exact Hr|]. by eapply step_null.
Qed.

(** After a crash the payloads of the last epoch but one are a heap to recover. *)
Lemma crashed_heap pat G T A e : sim pat G T A → pat = true → payloads (mm T) !! 0 = None → epoch (mm T) ≤ e →
  heap_ok e (crashed (epoch (mm T) - 2) (payloads (mm T))) (default ∅ (asnap A !! 1%nat)).
Proof.
  intros HS Hpat Hz He. constructor.
  - intros b [y (y0 & kv & Hy0 & _)%crashed_lookup] ->. congruence.
  - intros b y (y0 & kv & _ & Hs & ->)%crashed_lookup. split; [done|]. destruct (survives_ep _ _ _ Hs) as (e0 & ? & ?). exists e0. split; [done|lia].
  - rewrite surv_crashed by lia. by apply (sm_snap HS).
Qed.

(** What a recovery in the epoch [e] has to do, and what it leaves *)
Lemma recovered_sim e ps M vec n tr s : heap_ok e ps M → (0 < n)%nat → NoDup vec → (∀ b, b ∈ vec ↔ is_Some (ps !! b)) →
  rec_run (recover e ps vec n) tr = Some s →
  fault (rm s) = false ∧ (rec_done s = true → ∀ k, ∃ G, sim true G (Sys (rm s) (replicate k Idle)) (Ast M [M; M] (replicate k SIdle))).
Proof using Hsize StrictOrder0 Trichotomy0.
  intros HP Hn Hnd Hvec Hr. pose proof (rinv_start e ps M vec n HP Hn Hnd Hvec) as HI0.
  destruct (rinv_run _ _ _ tr HP _ _ _ _ _ HI0 Hr) as (G & T & A & HI). split.
  - rewrite (al_fault _ _ (ri_alike _ _ _ _ _ _ _ _ HI)). apply (sm_shared (ri_sim _ _ _ _ _ _ _ _ HI)).
  - intros Hd k. exists G. eapply sim_recovered; [exact HP|exact HI|done|]. by rewrite (rec_run_epoch _ _ _ Hr).
Qed.
End restart.
End LfRestart.


(** ** A crash in the middle of a removal *)

Module Example.
Import Example.
Notation go t k := (replicate k (Th t Go)).
Notation step_by t k := (replicate k (t%nat, Go)).

(** Three bindings in one bucket, one of them replaced an epoch later; two epochs after that a removal
    has taken effect when the crash comes. *)
Definition before : list (sact Z Z) :=
  [Th 0 (Call (Insert 5 50)); Th 0 (New 64 1)] ++ go 0 6 ++ [Th 0 (Call (Insert 9 90)); Th 0 (New 128 2)] ++ go 0 8 ++
  [Th 0 (Call (Insert 13 130)); Th 0 (New 192 3)] ++ go 0 10 ++
  [Advance; Th 1 (Call (Put 9 91)); Th 1 (New 256 4)] ++ go 1 13 ++ [Advance; Advance; Th 0 (Call (Remove 5))] ++ go 0 7.
Definition before_events : list (ev Z Z) :=
  [ECall 0 (Insert 5 50); ERet 0 (RBool true); ECall 0 (Insert 9 90); ERet 0 (RBool true);
   ECall 0 (Insert 13 130); ERet 0 (RBool true); ECall 1 (Put 9 91); ERet 1 (RVal (Some 90)); ECall 0 (Remove 5)].
Definition heap : gmap Z (payload Z Z) := {[1 := Payload 5 50 (Some 5) None; 3 := Payload 13 130 (Some 5) None; 4 := Payload 9 91 (Some 6) None]}.

(** Both threads find the bucket empty; the second one to link has to look again, and so has the
    first one after a compare-and-swap that fails without a reason. *)
Definition recovery : list (nat * act Z Z) :=
  [(0%nat, New 64 0); (1%nat, New 128 0)] ++ step_by 0 2 ++ step_by 1 2 ++ step_by 0 1 ++ step_by 1 1 ++ [(0%nat, New 192 0)] ++ step_by 0 4 ++
  [(0%nat, Give_up)] ++ step_by 1 5 ++ step_by 0 7.
Definition after : list (sact Z Z) :=
  [Th 0 (Call (Get 9)); Th 1 (Call (Remove 5)); Th 1 Go] ++ go 0 4 ++ go 1 9 ++ go 0 7 ++ [Advance; Advance].
Notation rec4 := (rec_run (V := Z) Z.lt id 4).
Notation recover4 := (recover 4 8 heap [1; 3; 4] 2).

Lemma heap_payloads b : b ∈ [1; 3; 4] ↔ is_Some (heap !! b).
Proof.
  unfold heap. rewrite !lookup_insert_is_Some, lookup_singleton_is_Some, !elem_of_cons, elem_of_nil. split; [lia|].
  intros [?|[_ [?|[_ ?]]]]; lia.
Qed.

End Example.
