(* ===== verification/LfRecoverEnd.v ===== *)
(** * Recovery of the nonblocking hash table ends

    The work that is left ([left_of]): a thread in [findNode] has as many nodes
    before it as there are keys greater than the last one it has seen, starting again when the link
    it holds has changed ([current]); a payload that is linked may make
    every other thread start again once. *)

From S2P Require Import Prelude HashTable LfHashTable LfChain LfTableInv LfTableRead LfTableWrite LfTableSteps LfTableLin LfRecover LfRestart.
Import LfHashTable LfChain LfTableInv LfTableRead LfTableWrite LfTableSteps LfTableLin LfRecover LfRestart.

Module LfRecoverEnd.

Lemma sum_insert {A} (f g : A → nat) d (l : list A) : ∀ t x x', l !! t = Some x → (∀ u y, u ≠ t → l !! u = Some y → (g y ≤ f y + d)%nat) →
  (sum_list_with g (<[t := x']> l) + f x ≤ sum_list_with f l + g x' + length l * d)%nat.
Proof.
  induction l as [|y l IH]; intros [|t] x x' Hx Hle; simpl in *; [done|done| |].
  - injection Hx as ->. assert (sum_list_with g l ≤ sum_list_with f l + length l * d)%nat; [|lia]. clear IH.
    assert (∀ u y, l !! u = Some y → (g y ≤ f y + d)%nat) as Hle' by (intros u y Hu; by apply (Hle (S u))). clear Hle.
    induction l as [|y l IH]; simpl; [lia|]. specialize (Hle' 0%nat y eq_refl) as H0.
    specialize (IH (λ u z Hu, Hle' (S u) z Hu)). lia.
  - specialize (IH t x x' Hx (λ u z Hne Hu, Hle (S u) z (λ H, Hne (eq_add_S _ _ H)) Hu)). specialize (Hle 0%nat y ltac:(done) eq_refl). lia.
Qed.

Section ends.
Context {K V : Type} `{!EqDecision K, !Countable K} (lt : K → K → Prop) `{!RelDecision lt, !StrictOrder lt, !Trichotomy lt}.
Context (hash_fn : K → Z) (idxSize : Z) (Hsize : 0 < idxSize).
Notation mem := (mem K V).
Notation payload := (payload K V).
Notation pc := (pc K V).
Notation act := (act K V).
Notation sys := (sys K V).
Notation ast := (ast K V).
Notation rpc := (rpc K V).
Notation rsys := (rsys K V).
Notation sim := (sim lt hash_fn idxSize).
Notation shared := (shared lt hash_fn idxSize).
Notation op_step := (op_step lt hash_fn idxSize).
Notation run := (run lt hash_fn idxSize).
Notation rec_run := (rec_run lt hash_fn idxSize).
Notation rec_step := (rec_step lt hash_fn idxSize).
Notation rec_thread := (rec_thread lt hash_fn idxSize).
Notation recover := (recover idxSize).
Notation rinv := (rinv lt hash_fn idxSize).
Notation find_pc := (find_pc lt).
Implicit Types (m : mem) (q : pc) (x : rpc) (s : rsys) (T : sys) (A : ast) (G : ghost) (y : payload) (nd : node K).

Context (ps : gmap Z payload) (Hnull : ∀ b, is_Some (ps !! b) → b ≠ 0).
Context (Huniq : ∀ b b' y y', ps !! b = Some y → ps !! b' = Some y' → pkey y = pkey y' → b = b').

(** ** The work that is left *)

Definition rank (k : K) : nat := size (filter (λ kv : Z * payload, lt k (pkey kv.2)) ps).
Definition walk : nat := 2 * size ps + 5.

Lemma rank_le k : (rank k ≤ size ps)%nat.
Proof. apply map_subseteq_size, map_filter_subseteq. Qed.
Lemma rank_lt k b y : ps !! b = Some y → lt k (pkey y) → (rank (pkey y) < rank k)%nat.
Proof using StrictOrder0.
  intros Hy Hlt. apply map_subset_size. apply map_subset_alt. split.
  - apply map_subseteq_spec. intros b' y' [? ?]%map_lookup_filter_Some. apply map_lookup_filter_Some. split; [done|]. simpl in *. by etrans.
  - exists b. split.
    + apply map_lookup_filter_None. right. intros y' ?. simplify_eq. simpl. apply irreflexivity. apply _.
    + exists y. by apply map_lookup_filter_Some.
Qed.

(** What the thread has read is still there. *)
Definition current m q : bool :=
  match q with
  | FNext _ p a | OStore _ _ p a _ _ | OBegin _ _ p a _ _ => bool_decide (load m p = Some a)
  | FCheck _ p a w _ => bool_decide (load m p = Some a ∧ load m (Nxt a) = Some w)
  | _ => true
  end.
Definition ahead m q : nat :=
  match q with
  | FHead _ => walk
  | FNext _ _ a => match nodes m !! a with Some nd => 2 * rank (key nd) + 4 | None => walk end
  | FCheck _ _ _ _ ck => 2 * rank ck + 3
  | OStore _ _ _ _ _ _ => 2
  | _ => 1
  end.
Definition left_in m q : nat := ahead m q + if current m q then 0 else walk.
(** [c] is what linking a payload may cost the other threads. *)
Definition left_of (c : nat) m x : nat :=
  match x with
  | RNext r => (c + walk + 1) * length r
  | RIn r q => (c + walk + 1) * length r + c + left_in m q
  end.
Definition left (c : nat) s : nat := sum_list_with (left_of c (rm s)) (rpcs s).

Lemma left_in_pos m q : (0 < left_in m q)%nat.
Proof. unfold left_in, walk. destruct q; simpl; unfold walk; try lia. destruct (nodes m !! a); lia. Qed.
Lemma ahead_kept m m' q : (∀ a nd, nodes m !! a = Some nd → ∃ nd', nodes m' !! a = Some nd' ∧ key nd' = key nd) → (ahead m' q ≤ ahead m q)%nat.
Proof.
  intros Hk. destruct q; simpl; try lia. destruct (nodes m !! a) as [nd|] eqn:Hnd.
  - destruct (Hk _ _ Hnd) as (nd' & -> & ->). lia.
  - destruct (nodes m' !! a); [|done]. unfold walk. pose proof (rank_le (key n)). lia.
Qed.

Section steps.
Context (s : rsys) (G : ghost) (T : sys) (A : ast) (t : nat) (HI : rinv ps s G T A).
Let HS := ri_sim _ _ _ _ _ _ _ _ HI.
Let Hsh := sm_shared HS.
Let HA := ri_alike _ _ _ _ _ _ _ _ HI.

Lemma in_thread u r q : rpcs s !! u = Some (RIn r q) → find_pc (rm s) q ∧ pcs T !! u = Some q ∧ ∃ sx, thread_ok lt hash_fn idxSize G (mm T) u q sx.
Proof using All.
  intros Hx. pose proof (view_lookup _ _ _ _ _ _ _ _ _ HI _ Hx) as Hq. split; [by apply (ri_ok _ _ _ _ _ _ _ _ HI _ _ Hx)|]. split; [done|].
  destruct (sm_thread HS u _ Hq) as (x & _ & ?). by exists x.
Qed.

(** What the threads have read are links of published nodes. *)
Lemma current_kept u r q m' : rpcs s !! u = Some (RIn r q) →
  (∀ p w, load (rm s) p = Some w → (∀ a, p = Nxt a → pub G a) → load m' p = Some w) → current (rm s) q = true → current m' q = true.
Proof using All.
  intros Hx Hl. destruct (in_thread _ _ _ Hx) as (Hf & _ & x & Hok).
  assert (∀ k p, prev_ok lt hash_fn idxSize G (mm T) u k p → ∀ a, p = Nxt a → pub G a) as Hp by (intros k p Hp a ->; apply Hp).
  destruct q as [| | |c|c p a|c p a w ck| | |o n p a z f| |o n p a z old| | | | |]; try done; unfold current; rewrite !bool_decide_eq_true.
  - intros ?. apply Hl; [done|]. eapply Hp, Hok.
  - intros [??]. split; apply Hl; try done; [eapply Hp, Hok|]. intros ? [= <-]. apply Hok.
  - intros ?. apply Hl; [done|]. destruct Hf as [_ ->]. eapply Hp, Hok.
  - intros ?. apply Hl; [done|]. destruct Hf as [_ ->]. eapply Hp, Hok.
Qed.

Lemma find_at_left m c p a k : inserting c → (2 < k)%nat → (a ≠ 0 → (match nodes m !! a with Some nd => 2 * rank (key nd) + 4 | None => walk end < k)%nat) →
  (left_in m (find_at c p a) < k + if bool_decide (load m p = Some a) then 0 else walk)%nat.
Proof.
  destruct c as [o n r]. intros [Hr (k0 & v & Ho)] Hk Ha. simpl in *. subst r o. unfold find_at, left_in.
  destruct (Z.eqb_spec a 0) as [->|Ha0]; simpl; [lia|]. specialize (Ha Ha0). lia.
Qed.

Lemma left_check r c p a w ck m' q' : rpcs s !! t = Some (RIn r (FCheck c p a w ck)) →
  op_step ∅ (rm s) (FCheck c p a w ck) = Some (m', q') → (left_in m' q' < left_in (rm s) (FCheck c p a w ck))%nat.
Proof using All.
  intros Hx Hst. destruct (in_thread _ _ _ Hx) as (Hf & HT & x & Hok). pose proof (al_nodes _ _ HA) as Hn.
  assert (∃ w, load (rm s) p = Some w) as Hload.
  { rewrite (alike_load _ _ p HA). by apply (prev_load lt hash_fn idxSize Hsize G (mm T) t (okey (co c)) p Hsh), Hok. }
  unfold LfHashTable.op_step, at_loc in Hst.
  destruct Hok as (_ & Hp & Ha & nd & y & Hnd & Hy & Hck & Hw). destruct Hf as (Hc & Hmw & Hkey). rewrite Hmw in Hw. destruct Hw as (Hw & _).
  destruct Hload as [w' Hw']. rewrite Hw', Hmw, (getPtr_plain _ Hmw) in Hst. injection Hst as <- <-.
  destruct (Z.eqb_spec w' a) as [->|Hne]; simpl.
  2: { unfold left_in. simpl. rewrite bool_decide_false by (intros [? _]; congruence). lia. }
  assert (∀ p', (p' = p ∨ p' = Nxt a) → ∀ b, (p' = p ∧ b = a) ∨ (p' = Nxt a ∧ b = w) →
    ((if bool_decide (load (rm s) p' = Some b) then 0 else walk) ≤ if current (rm s) (FCheck c p a w ck) then 0 else walk)%nat) as Hcur.
  { intros p' _ b Hb. simpl. case_bool_decide as H1; [lia|]. case_bool_decide as H2; [|lia]. destruct H1, H2, Hb as [[-> ->]|[-> ->]]; done. }
  destruct (decide (lt ck (okey (co c)))) as [Hlt|Hge].
  - eapply Nat.lt_le_trans; [apply (find_at_left _ c (Nxt a) w (2 * rank ck + 3)); [done|lia|]|].
    + intros Hw0. destruct (Hkey Hw0) as (nw & Hnw & Hlk). rewrite Hnw. destruct (Hw Hw0) as [[Hpw _] _].
      destruct (s_pub Hsh w Hpw) as (_ & _ & nw' & yw & Hnw' & Hyw & Hkw & _). rewrite <- Hn, Hnw in Hnw'. injection Hnw' as <-.
      destruct (ri_pay _ _ _ _ _ _ _ _ HI _ _ Hyw) as (_ & y0 & Hy0 & Hk0 & _).
      pose proof (rank_lt ck _ _ Hy0) as Hr. rewrite <- Hk0, Hkw in Hr. specialize (Hr Hlk). lia.
    + unfold left_in. simpl ahead. apply Nat.add_le_mono_l. apply (Hcur (Nxt a)); auto.
  - destruct c as [o n rr]. destruct Hc as [Hcr (k & v & Hco)]. simpl in Hcr, Hco. subst rr o.
    rewrite bool_decide_false by (simpl; by eapply no_conflict). change (find_ret _ p a w false) with (OStore (Insert k v) n p a w false).
    unfold left_in. simpl ahead.
    assert (current (rm s) (OStore (Insert k v) n p a w false) = bool_decide (load (rm s) p = Some a)) as -> by done.
    specialize (Hcur p (or_introl eq_refl) a (or_introl (conj eq_refl eq_refl))). lia.
Qed.

(** A step of [findNode] leaves less to do. *)
Lemma left_find r q m' q' : rpcs s !! t = Some (RIn r q) → (if q is OBegin _ _ _ _ _ _ then False else True) →
  op_step ∅ (rm s) q = Some (m', q') → (left_in m' q' < left_in (rm s) q)%nat.
Proof using All.
  intros Hx Hq Hst. destruct (in_thread _ _ _ Hx) as (Hf & HT & x & Hok). pose proof (al_nodes _ _ HA) as Hn.
  destruct q as [| | |c|c p a|c p a w ck| | |o n p a z f| | | | | | |]; try done; [| |by eapply left_check|]; unfold LfHashTable.op_step, at_loc, at_node in Hst.
  - destruct (bucket_load lt hash_fn idxSize Hsize G (mm T) (okey (co c)) Hsh) as (w & Hw & Hmk). rewrite <- (alike_load _ _ _ HA) in Hw.
    rewrite Hw, (getPtr_plain _ Hmk) in Hst. injection Hst as <- <-. eapply Nat.lt_le_trans; [apply (find_at_left _ c _ w walk); [done|unfold walk; lia|]|].
    + intros Hw0. destruct (prev_succ lt hash_fn idxSize G (mm T) t (okey (co c)) (Bkt (idx hash_fn idxSize (okey (co c)))) w) as [[_ (nd & Hnd & _)] _];
        [done|by eapply (sm_old HS)|done|by rewrite <- (alike_load _ _ _ HA)|done|done|].
      rewrite Hn, Hnd. unfold walk. pose proof (rank_le (key nd)). lia.
    + rewrite bool_decide_true by done. unfold left_in. simpl. lia.
  - destruct (s_pub Hsh a) as (_ & _ & nd & y & Hnd & _); [apply Hok|]. rewrite <- Hn in Hnd. rewrite Hnd in Hst. injection Hst as <- <-.
    unfold left_in. assert (current (rm s) (FCheck c p a (next nd) (key nd)) = current (rm s) (FNext c p a)) as ->.
    { apply bool_decide_ext. simpl. rewrite Hnd. simpl. tauto. }
    destruct (current _ _); simpl; rewrite Hnd; lia.
  - destruct Hf as [[_ (k & v & Ho)] ->]. simpl in Ho. subst o.
    destruct (sm_private HS t _ HT _ _ eq_refl) as (_ & _ & Hnp & w & b & Hnd & _). rewrite Hn, Hnd in Hst. injection Hst as <- <-.
    change (left_in (store (rm s) (Nxt n) a) (OBegin (Insert k v) n p a z None) < left_in (rm s) (OStore (Insert k v) n p a z false))%nat.
    unfold left_in. simpl ahead.
    assert (current (rm s) (OStore (Insert k v) n p a z false) = true → current (store (rm s) (Nxt n) a) (OBegin (Insert k v) n p a z None) = true) as Hcur.
    { intros Hc. apply (current_kept _ _ _ (store (rm s) (Nxt n) a) Hx) in Hc; [exact Hc|]. intros p' w' Hl Hp'. destruct p' as [i|a']; simpl in *; [done|].
      rewrite lookup_alter_ne; [done|]. intros <-. by apply Hnp, Hp'. }
    destruct (current (rm s) _); [rewrite Hcur by done; lia|]. destruct (current (store _ _ _) _); lia.
Qed.

(** What a step does to the work of the others *)
Definition quiet m' : Prop :=
  (∀ p w, load (rm s) p = Some w → (∀ a, p = Nxt a → pub G a) → load m' p = Some w) ∧
  ∀ a nd, nodes (rm s) !! a = Some nd → ∃ nd', nodes m' !! a = Some nd' ∧ key nd' = key nd.
Lemma quiet_same : quiet (rm s).
Proof using Type. split; [done|]. intros a nd ?. by exists nd. Qed.

Lemma left_quiet c m' x' x : rpcs s !! t = Some x → quiet m' → (left_of c m' x' < left_of c (rm s) x)%nat →
  (left c (Rsys m' (<[t := x']> (rpcs s))) < left c s)%nat.
Proof using All.
  intros Hx [Hl Hk] Hlt. unfold left. simpl. pose proof (sum_insert (left_of c (rm s)) (left_of c m') 0 (rpcs s) t x x' Hx) as Hsum.
  assert (∀ u x2, u ≠ t → rpcs s !! u = Some x2 → (left_of c m' x2 ≤ left_of c (rm s) x2 + 0)%nat) as Hle; [|specialize (Hsum Hle); lia].
  intros u x2 _ Hu. destruct x2 as [r|r q]; simpl; [lia|]. pose proof (ahead_kept (rm s) m' q Hk). pose proof (current_kept u r q m' Hu Hl).
  unfold left_in. destruct (current (rm s) q); [rewrite H0 by done; lia|]. destruct (current m' q); lia.
Qed.
Lemma left_linked m' r q : rpcs s !! t = Some (RIn r q) → (∀ a nd, nodes (rm s) !! a = Some nd → ∃ nd', nodes m' !! a = Some nd' ∧ key nd' = key nd) →
  let c := (length (rpcs s) * walk)%nat in (left c (Rsys m' (<[t := RNext r]> (rpcs s))) < left c s)%nat.
Proof using Type.
  intros Hx Hk c. unfold left. simpl. pose proof (sum_insert (left_of c (rm s)) (left_of c m') walk (rpcs s) t _ (RNext r) Hx) as Hsum.
  assert (∀ u x2, u ≠ t → rpcs s !! u = Some x2 → (left_of c m' x2 ≤ left_of c (rm s) x2 + walk)%nat) as Hle.
  { intros u x2 _ Hu. destruct x2 as [r2|r2 q2]; simpl; [lia|]. pose proof (ahead_kept (rm s) m' q2 Hk).
    unfold left_in. destruct (current (rm s) q2), (current m' q2); lia. }
  specialize (Hsum Hle). simpl in Hsum. pose proof (left_in_pos (rm s) q). unfold c in *. lia.
Qed.

Lemma quiet_new n nd : nodes (rm s) !! n = None → quiet (with_nodes (<[n := nd]> (nodes (rm s))) (rm s)).
Proof using Type.
  intros Hn. split.
  - intros p w Hl _. destruct p as [i|a]; simpl in *; [done|]. rewrite lookup_insert_ne; [done|]. intros <-. by rewrite Hn in Hl.
  - intros a nda Ha. exists nda. simpl. rewrite lookup_insert_ne; [done|]. congruence.
Qed.
Lemma quiet_find r q m' q' : rpcs s !! t = Some (RIn r q) → (if q is OBegin _ _ _ _ _ _ then False else True) →
  op_step ∅ (rm s) q = Some (m', q') → quiet m'.
Proof using All.
  intros Hx Hq Hst. destruct (in_thread _ _ _ Hx) as (Hf & HT & x & Hok).
  assert (m' = rm s ∨ m' = failed (rm s) → quiet m') as Hsame by (intros [->| ->]; apply quiet_same).
  destruct q as [| | |c|c p a|c p a w ck| | |o n p a z f| | | | | | |]; try done; unfold LfHashTable.op_step, at_loc, at_node in Hst;
    try (apply Hsame; case_match; simplify_eq; by auto).
  destruct (nodes (rm s) !! n) as [ndn|]; simplify_eq; [|by auto]. destruct Hf as [[_ (k & v & Ho)] ->]. simpl in Ho. subst o.
  destruct (sm_private HS t _ HT _ _ eq_refl) as (_ & _ & Hnp & _). split.
  - intros p' w' Hl Hp'. destruct p' as [i|a']; simpl in *; [done|]. rewrite lookup_alter_ne; [done|]. intros <-. by apply Hnp, Hp'.
  - intros a' nd Hnd. destruct (store_kept (rm s) (Nxt n) a a' nd Hnd) as (nd' & ? & ? & _). by exists nd'.
Qed.

Lemma left_step a s' : rec_step s (t, a) = Some s' → let c := (length (rpcs s) * walk)%nat in
  (left c s' + 1 ≤ left c s + if a is Give_up then walk else 0)%nat.
Proof using All.
  intros Hst c. unfold LfRecover.rec_step in Hst. simpl in Hst. apply bind_Some in Hst as (x & Hx & Hst).
  apply bind_Some in Hst as ([m' x'] & Hth & [= <-]). destruct x as [[|b r]|r q]; [by destruct a|..].
  - destruct a as [|n b'| |]; try done. simpl in Hth. case_bool_decide as Hn; [|done]. destruct Hn as (_ & _ & Hn).
    destruct (ri_rest _ _ _ _ _ _ _ _ HI t _ b Hx) as [[y Hy] _]; [by left|]. rewrite (ri_ps _ _ _ _ _ _ _ _ HI), Hy in Hth. injection Hth as <- <-.
    pose proof (left_quiet c (with_nodes (<[n := Node 0 b (pkey y)]> (nodes (rm s))) (rm s)) (RIn r (FHead (Ctx (Insert (pkey y) (pval y)) n None))) _ Hx (quiet_new _ _ Hn)).
    simpl in H. unfold left_in in H. simpl in H. lia.
  - pose proof (ri_ok _ _ _ _ _ _ _ _ HI t _ Hx) as Hf. simpl in Hf.
    assert ((if q is OBegin _ _ _ _ _ _ then False else True) → (left c (Rsys m' (<[t:=x']> (rpcs s))) < left c s)%nat) as Hfind.
    { intros Hq. destruct (rec_thread_find _ _ _ _ _ _ _ _ _ Hf Hq Hth) as (-> & q' & Hop & ->).
      apply (left_quiet _ _ _ _ Hx (quiet_find _ _ _ _ Hx Hq Hop)). simpl. pose proof (left_find _ _ _ _ Hx Hq Hop). lia. }
    destruct q as [| | |c0|c0 p a'|c0 p a' w ck| | |o n p a' z f| |o n p a' z old| | | | |]; try done; try (specialize (Hfind I); lia).
    destruct Hf as [Hc ->]. pose proof (left_in_pos (rm s) (OBegin o n p a' z None)) as Hpos. destruct a; try done; simpl in Hth.
    + destruct (in_thread _ _ _ Hx) as (_ & _ & x & _ & _ & _ & [Hp _] & _).
      destruct (prev_load _ _ _ Hsize _ _ _ _ _ Hsh Hp) as [w Hw]. rewrite <- (alike_load _ _ _ HA) in Hw. rewrite Hw in Hth.
      destruct (w =? a') eqn:Hwa; injection Hth as <- <-.
      * eapply Nat.le_trans; [|apply Nat.le_add_r]. rewrite Nat.add_1_r. eapply left_linked; [exact Hx|].
        intros b nd Hnd. destruct (store_kept (rm s) p n b nd Hnd) as (nd' & ? & ? & _). by exists nd'.
      * pose proof (left_quiet c (rm s) (RIn r (FHead (Ctx o n None))) _ Hx quiet_same) as Hl. simpl in Hl. unfold left_in in Hl. simpl in Hl.
        apply Z.eqb_neq in Hwa. rewrite bool_decide_false in Hl by congruence. lia.
    + injection Hth as <- <-. pose proof (sum_insert (left_of c (rm s)) (left_of c (rm s)) 0 (rpcs s) t _ (RIn r (FHead (Ctx o n None))) Hx) as Hsum.
      specialize (Hsum (λ _ x2 _ _, Nat.eq_le_incl _ _ (eq_sym (Nat.add_0_r _)))). unfold left. simpl in *. unfold left_in in *. simpl in *. lia.
Qed.

(** A thread that has not finished can go on. *)
Lemma can_step x : rpcs s !! t = Some x →
  match x with
  | RNext [] => True
  | RNext _ => ∀ n p, 0 < n < U64 → n mod 64 = 0 → nodes (rm s) !! n = None → is_Some (rec_step s (t, New n p))
  | RIn _ _ => is_Some (rec_step s (t, Go))
  end.
Proof using HI.
  intros Hx. destruct x as [[|b r]|r q]; [done|..].
  - intros n p H1 H2 H3. unfold LfRecover.rec_step. simpl. rewrite Hx. simpl. rewrite bool_decide_true by done. simpl. by destruct (payloads (rm s) !! b).
  - pose proof (ri_ok _ _ _ _ _ _ _ _ HI t _ Hx) as Hf. unfold LfRecover.rec_step. simpl. rewrite Hx. simpl.
    destruct q as [| | |c0|c0 p a'|c0 p a' w ck| | |o n p a' z f| |o n p a' z old| | | | |]; try done; simpl; unfold at_loc, at_node.
    1-4: case_match; by eexists.
    destruct Hf as [_ ->]. repeat case_match; by eexists.
Qed.
End steps.

(** ** Runs *)

Definition failures (tr : list (nat * act)) : nat := length (List.filter (λ xa, match xa.2 with Give_up => true | _ => false end) tr).

Lemma left_run tr : ∀ s s' G T A, rinv ps s G T A → rec_run s tr = Some s' →
  let c := (length (rpcs s) * walk)%nat in
  (left c s' + length tr ≤ left c s + walk * failures tr)%nat.
Proof using All.
  induction tr as [|[t a] tr IH]; intros s s' G T A HI Hr c; simpl in Hr; [simplify_eq; simpl; lia|].
  apply bind_Some in Hr as (s1 & Hst & Hr). pose proof (left_step _ _ _ _ t HI a s1 Hst) as H1. unfold LfRecover.rec_step in Hst.
  apply bind_Some in Hst as (x & Hx & Hst). apply bind_Some in Hst as ([m' x'] & Hth & [= <-]). simpl in Hx, Hth.
  destruct (advances_thread _ _ _ Hsize ps Hnull Huniq _ _ _ _ _ HI _ _ _ _ Hx Hth) as (G1 & T1 & A1 & HI1).
  specialize (IH _ _ _ _ _ HI1 Hr). simpl in H1, IH. rewrite length_insert in IH. unfold failures in *. fold c in H1, IH.
  destruct a; simpl; simpl in H1; lia.
Qed.

Lemma left_start e vec n : NoDup vec → (∀ b, b ∈ vec ↔ is_Some (ps !! b)) → (0 < n)%nat →
  let c := (length (rpcs (recover e ps vec n)) * walk)%nat in left c (recover e ps vec n) = (((n + 1) * walk + 1) * size ps)%nat.
Proof using Type.
  intros Hnd Hvec Hn c. unfold c, left, LfRecover.recover. cbn [rpcs rm]. rewrite length_fmap, length_seq.
  assert (∀ (w : nat) m ts, sum_list_with (left_of w m) ((λ t, RNext (strided n t vec)) <$> ts) =
    ((w + walk + 1) * length (concat ((λ t, strided n t vec) <$> ts)))%nat) as ->.
  { intros w m ts. induction ts as [|t ts IH]; [simpl; lia|]. rewrite !fmap_cons. cbn [sum_list_with concat]. rewrite IH, length_app. cbn [left_of]. lia. }
  rewrite strided_split by done. assert (size ps = length vec) as ->; [|lia].
  rewrite <- size_dom, <- (size_list_to_set (C := gset Z) vec Hnd). f_equal. apply set_eq. intros b.
  by rewrite elem_of_list_to_set, elem_of_dom.
Qed.
End ends.
End LfRecoverEnd.

(** C6. The recovery of the nonblocking hash table ends.  After a crash of any run of the table as in the theorem before,
    however the recovery threads are interleaved, they make at most a number of steps that depends on the number of
    payloads [N] and of threads only, and at most [2 N + 5] more for each compare-and-swap that
    fails without a reason; a thread that has not finished can always go on, by its next
    access or by the allocation of a node at any free address. *)
Theorem lf_recover_terminates {K V} `{!EqDecision K, !Countable K} (lt : K → K → Prop) `{!RelDecision lt, !StrictOrder lt, !Trichotomy lt}
    (hash_fn : K → Z) (idxSize e e' : Z) (n rec_thd : nat) (tr : list (sact K V)) (s : sys K V) (evs : list (ev K V))
    (payloadVector : list Z) (rtr : list (nat * act K V)) (rs : rsys K V) :
  0 < idxSize → run lt hash_fn idxSize (new_table idxSize e n) tr = Some (s, evs) →
  LfTableLin.patient lt hash_fn idxSize (new_table idxSize e n) tr = true → epoch (mm s) ≤ e' → (0 < rec_thd)%nat →
  let ps := crashed (epoch (mm s) - 2) (payloads (mm s)) in let N := size ps in
  NoDup payloadVector → (∀ b, b ∈ payloadVector ↔ is_Some (ps !! b)) →
  rec_run lt hash_fn idxSize (recover idxSize e' ps payloadVector rec_thd) rtr = Some rs →
  (length rtr ≤ ((rec_thd + 1) * (2 * N + 5) + 1) * N + (2 * N + 5) * LfRecoverEnd.failures rtr)%nat ∧
  ∀ t x, rpcs rs !! t = Some x →
    match x with
    | RNext [] => True
    | RNext _ => ∀ n p, 0 < n < U64 → n mod 64 = 0 → nodes (rm rs) !! n = None → is_Some (rec_step lt hash_fn idxSize rs (t, New n p))
    | RIn _ _ => is_Some (rec_step lt hash_fn idxSize rs (t, Go))
    end.
Proof.
  intros Hsize Hr Hp He Hn ps N Hnd Hvec Hrec.
  destruct (LfTableLin.lf_sim_run lt hash_fn idxSize Hsize true tr _ _ _ s evs (LfTableLin.lf_sim_new lt hash_fn idxSize Hsize true e n))
    as (A & G & Ha & HS); [done|done|].
  pose proof (LfRestart.crashed_heap _ _ _ _ _ _ _ e' HS eq_refl (LfRestart.run_null _ _ _ _ _ _ _ Hr eq_refl) He) as HP. fold ps in HP.
  pose proof (LfRestart.rinv_start lt hash_fn idxSize Hsize _ _ _ _ _ HP Hn Hnd Hvec) as HI. split.
  - pose proof (LfRecoverEnd.left_run lt hash_fn idxSize Hsize ps (LfRestart.hp_null _ _ _ HP) (λ b b' y y', LfRestart.heap_unique _ _ _ b b' y y' HP)
      _ _ _ _ _ _ HI Hrec) as Hle. cbv zeta in Hle. rewrite LfRecoverEnd.left_start in Hle by done. unfold LfRecoverEnd.walk in Hle. fold N in Hle. lia.
  - destruct (LfRestart.rinv_run lt hash_fn idxSize Hsize _ _ _ _ HP _ _ _ _ _ HI Hrec) as (G' & T' & A' & HI'). intros t x.
    by apply (LfRecoverEnd.can_step lt hash_fn idxSize ps rs G' T' A' t HI').
Qed.

(** ** The recovery of [LfRestart.Example] *)

Module Example.
Import LfTableLin.Example LfRestart.Example.

Lemma lf_recover_terminates_witness :
  ∃ s evs rs, run Z.lt id 4 (new_table 4 5 2) before = Some (s, evs) ∧
    rec_run Z.lt id 4 (recover 4 8 heap [1; 3; 4] 2) recovery = Some rs ∧
    (length recovery ≤ ((2 + 1) * (2 * 3 + 5) + 1) * 3 + (2 * 3 + 5) * 1)%nat.
Proof.
  assert (∃ s, run Z.lt id 4 (new_table 4 5 2) before = Some (s, before_events) ∧ crashed (epoch (mm s) - 2) (payloads (mm s)) = heap ∧ epoch (mm s) = 8)
    as (s & Hs & Hheap & He) by (vm_compute; eexists; split_and!; reflexivity).
  assert (∃ rs, rec_run Z.lt id 4 (recover 4 8 heap [1; 3; 4] 2) recovery = Some rs) as (rs & Hrs) by (vm_compute; eexists; reflexivity).
  exists s, before_events, rs. split; [exact Hs|]. split; [exact Hrs|].
  pose proof (lf_recover_terminates Z.lt id 4 5 8 2 2 before s before_events [1; 3; 4] recovery rs) as Hth. rewrite Hheap, He in Hth.
  destruct Hth as [Hle _]; [done|exact Hs|vm_compute; reflexivity|done|lia| |apply heap_payloads|exact Hrs|].
  { apply (bool_decide_unpack _). vm_compute. exact I. }
  exact Hle.
Defined.
End Example.
