(* ===== verification/NatarajanTree.v ===== *)
(** * MontageNatarajanTree (src/rideables/MontageNatarajanTree.hpp)

    The nonblocking external search tree of Natarajan and Mittal over [atomic_lin_var] and
    [RCUTracker], with any number of threads: a program position per shared access.  Keys are in the
    leaves.  The two lowest bits of an edge are its flag (the leaf it leads to is being removed) and
    its tag (the node it leaves is being removed, and the edge is final).  What the
    code uses is taken at the level of the theorems about it, as in [LfHashTable]; a payload belongs
    to the operation that commits first after its allocation, which need not be the one
    that links its leaf.

    The level and key of a node that is linked are constant and are read together with
    the access before or after.  A dereference of memory that is not allocated or null, a failed
    assertion, a second retirement of a node and an exception set [fault]. *)

From S2P Require Import Prelude LfHashTable.
Import LfHashTable(payload, Payload, pkey, pval, ep, retire, op(..), ret(..), ev(..), okey, oval, set_ep, set_retire).

Module NatarajanTree.

(** ** Edges *)

Definition GET_POINTER_BITS : Z := Z.lnot 3.
Definition getPtr (d : Z) : Z := Z.land d GET_POINTER_BITS.
Definition getFlg (d : Z) : bool := Z.testbit d 0.
Definition getTg (d : Z) : bool := Z.testbit d 1.
Definition mixPtrFlgTg (p : Z) (flg tg : bool) : Z := Z.lor (Z.lor p (Z.b2z flg)) (Z.shiftl (Z.b2z tg) 1).

Inductive level : Type := finite | inf0 | inf1 | inf2.
#[global] Instance level_eq_dec : EqDecision level.
Proof. solve_decision. Defined.

Section tree.
Context {K V : Type} `{!EqDecision K} (lt : K → K → Prop) `{!RelDecision lt}.
(** The default key, and the addresses of the members [r] and [s] *)
Context (k0 : K) (r s : Z).
Notation payload := (payload K V).
Notation op := (op K V).
Notation ret := (ret V).
Notation ev := (ev K V).

Record node : Type := Node { nlevel : level; left : Z; right : Z; key : K; npayload : option Z }.
Record mem : Type := Mem {
  nodes : gmap Z node;
  payloads : gmap Z payload;
  epoch : Z;
  (** the retired nodes, each with the threads that have to leave their operation *)
  retired : gmap Z (gset nat);
  fault : bool;
}.

(** ** Comparisons: every key is less than the infinite levels. *)

Definition isInf (n : node) : bool := bool_decide (nlevel n ≠ finite).
Definition nodeLess (k : K) (n : node) : bool := isInf n || bool_decide (lt k (key n)).
Definition nodeEqual (k : K) (n : node) : bool := negb (isInf n) && bool_decide (k = key n).
Definition max_key (k k' : K) : K := if decide (lt k k') then k' else k.

(** ** Positions *)

Record SeekRecord : Type := Seek { ancestor : Z; successor : Z; parent : Z; leaf : Z }.
(** An [atomic_lin_var*]: the left or the right child of a node *)
Definition edge : Type := Z * bool.

(** An operation with its new nodes; when a removal has flagged its leaf ([injecting] is false), the
    leaf and its value *)
Record job : Type := Job { jop : op; newInternal : Z; newLeaf : Z; injected : option (Z * V) }.

Inductive act : Type :=
  | Call (o : op)
  | New (n p : Z)  (** the allocator's choice *)
  | Go
  | Give_up.  (** a compare-and-swap returns false *)

Inductive pc : Type :=
  | Idle
  | OInternal (o : op)  (** [new Node(this, inf2)] *)
  | OLeaf (o : op) (n : Z)  (** [new Node(this, key, val)] *)
  | OStart (j : job)  (** [tracker.start_op] *)
  | SRoot (j : job)  (** [seekRecord->leaf = getPtr(s.left.load(this))] *)
  | SParent (j : job) (l : Z)  (** [parentField = parent->left.load(this)] *)
  | SFirst (j : job) (l pf : Z)  (** [currentField = leaf->left.load(this)] *)
  | SStep (j : job) (q : SeekRecord) (pf cf : Z)  (** [currentField = current->...load(this)] *)
  | OFound (j : job) (q : SeekRecord)  (** [seek] returns *)
  | OSet (j : job) (q : SeekRecord) (e : edge)  (** [newInternal->set] *)
  | OBegin (j : job) (q : SeekRecord) (e : edge) (n : Z) (old : option (Z * V))  (** [begin_op] of [CAS_verify], with the anti-node *)
  | OCas (j : job) (q : SeekRecord) (e : edge) (n : Z) (old : option (Z * V)) (c : Z)  (** its compare-and-swap *)
  | OFlag (j : job) (q : SeekRecord) (e : edge) (v : V)  (** [childAddr->CAS] that flags the leaf *)
  | OHelp (j : job) (q : SeekRecord) (e : edge)  (** [tmpChild = childAddr->load(this)] *)
  | OFree (j : job) (q : SeekRecord) (n : ret) (both : bool)  (** [delete(newInternal)], and [delete(newLeaf)] *)
  | ORetire (a : Z) (n : ret)  (** [tracker.retire(leaf, tid)] *)
  | OEnd (n : ret)  (** [tracker.end_op] *)
  | CChild (j : job) (q : SeekRecord)  (** [tmpChild = childAddr->load(this)] *)
  | CSibling (j : job) (q : SeekRecord) (sc ch sb : edge)  (** [tmpChild = siblingAddr->load(this)] *)
  | CRead (j : job) (q : SeekRecord) (sc sb : edge) (tc : Z)  (** [untagged = siblingAddr->load(this)] *)
  | CTag (j : job) (q : SeekRecord) (sc sb : edge) (tc w : Z)  (** [siblingAddr->CAS(this, untagged, tagged)] *)
  | CLast (j : job) (q : SeekRecord) (sc sb : edge) (tc : Z)  (** [tmpSibling = siblingAddr->load(this)] *)
  | CPayload (j : job) (q : SeekRecord) (sc : edge) (tc w : Z)  (** [getPtr(tmpChild)->retire_payload()] *)
  | CBegin (j : job) (q : SeekRecord) (sc : edge) (tc w b : Z)  (** [begin_op] of [CAS_verify], with the anti-node *)
  | CCas (j : job) (q : SeekRecord) (sc : edge) (tc w b c : Z)  (** its compare-and-swap *)
  | CRetire (j : job) (q : SeekRecord) (tc : Z)  (** [tracker.retire(getPtr(tmpChild), tid)] *)
  | CPath (j : job) (q : SeekRecord) (a : Z)  (** [tracker.retire(curr, tid)] in [retire_path] *)
  | CNext (j : job) (q : SeekRecord) (a : Z).  (** [curr = getPtr(curr->...load(this))] *)

Definition in_op (q : pc) : bool := match q with Idle | OInternal _ | OLeaf _ _ | OStart _ => false | _ => true end.

(** ** Memory *)

Definition failed (m : mem) : mem := Mem (nodes m) (payloads m) (epoch m) (retired m) true.
Definition with_nodes (ns : gmap Z node) (m : mem) : mem := Mem ns (payloads m) (epoch m) (retired m) (fault m).
Definition with_payloads (ps : gmap Z payload) (m : mem) : mem := Mem (nodes m) ps (epoch m) (retired m) (fault m).
Definition with_epoch (e : Z) (m : mem) : mem := Mem (nodes m) (payloads m) e (retired m) (fault m).
Definition with_retired (w : gmap Z (gset nat)) (m : mem) : mem := Mem (nodes m) (payloads m) (epoch m) w (fault m).

Definition child (n : node) (d : bool) : Z := if d then left n else right n.
Definition set_child (d : bool) (w : Z) (n : node) : node :=
  if d then Node (nlevel n) w (right n) (key n) (npayload n) else Node (nlevel n) (left n) w (key n) (npayload n).
Definition store (m : mem) (e : edge) (w : Z) : mem := with_nodes (alter (set_child e.2 w) e.1 (nodes m)) m.

(** Dereferences; [q] is where the thread stays when it faults. *)
Definition at_node (m : mem) (q : pc) (a : Z) (f : node → mem * pc) : mem * pc :=
  match nodes m !! a with Some n => f n | None => (failed m, q) end.
Definition at_edge (m : mem) (q : pc) (e : edge) (f : Z → mem * pc) : mem * pc :=
  at_node m q e.1 (λ n, f (child n e.2)).
Definition at_payload (m : mem) (q : pc) (b : option Z) (f : Z → payload → mem * pc) : mem * pc :=
  match b with
  | Some a => match payloads m !! a with Some y => f a y | None => (failed m, q) end
  | None => (failed m, q)
  end.

Definition retire_node (ops : gset nat) (m : mem) (q : pc) (a : Z) (q' : pc) : mem * pc :=
  match retired m !! a with
  | Some _ => (failed m, q)
  | None => (with_retired (<[a := ops]> (retired m)) m, q')
  end.
Definition leave (t : nat) (m : mem) : mem := with_retired ((λ W, W ∖ {[t]}) <$> retired m) m.

(** [end_op] of a [CAS_verify]: the payloads that the thread has allocated and not committed yet belong to
    the epoch, and the payload [b] is retired. *)
Definition commit (j : job) (c : Z) (m : mem) : mem :=
  match nodes m !! newLeaf j with
  | Some (Node _ _ _ _ (Some b)) =>
      with_payloads (alter (λ y, match ep y with None => set_ep c y | Some _ => y end) b (payloads m)) m
  | _ => m
  end.
Definition anti_node (m : mem) (q : pc) (b c : Z) (q' : pc) : mem * pc :=
  at_payload m q (Some b) (λ b y,
    match retire y with
    | Some _ => (failed m, q)
    | None => (with_payloads (<[b := set_retire c y]> (payloads m)) m, q')
    end).

(** ** Steps *)

Definition sk_at (j : job) (q : SeekRecord) (pf cf : Z) : pc := if getPtr cf =? 0 then OFound j q else SStep j q pf cf.
(** [cleanup] returns [b]. *)
Definition cleaned (j : job) (b : bool) : pc :=
  match injected j with
  | Some (_, v) => if b then OEnd (RVal (Some v)) else SRoot j
  | None => SRoot j
  end.
(** The answer of an operation that has linked a new leaf *)
Definition linked_ret (o : op) : ret := match o with Insert _ _ => RBool true | _ => RVal None end.

(** The operation when [seek] has returned *)
Definition found (m : mem) (x : pc) (j : job) (q : SeekRecord) : mem * pc :=
  match injected j with
  | Some (l, v) => (m, if leaf q =? l then CChild j q else OEnd (RVal (Some v)))
  | None =>
      at_node m x (leaf q) (λ n, at_node m x (parent q) (λ p,
        let k := okey (jop j) in
        let e := (parent q, nodeLess k p) in
        match jop j with
        | Get _ => if nodeEqual k n then at_payload m x (npayload n) (λ _ y, (m, OEnd (RVal (Some (pval y))))) else (m, OEnd (RVal None))
        | Put _ _ => if nodeEqual k n then at_payload m x (npayload n) (λ b y, (m, OBegin j q e (newLeaf j) (Some (b, pval y)))) else (m, OSet j q e)
        | Insert _ _ => if nodeEqual k n then (m, OFree j q (RBool false) true) else (m, OSet j q e)
        | Remove _ => if nodeEqual k n then at_payload m x (npayload n) (λ _ y, (m, OFlag j q e (pval y))) else (m, OEnd (RVal None))
        | Replace _ _ => (failed m, x)
        end))
  end.

(** [newInternal->set] *)
Definition internal (j : job) (l : Z) (n i : node) : node :=
  let k := okey (jop j) in
  Node (nlevel n) (if nodeLess k n then newLeaf j else l) (if nodeLess k n then l else newLeaf j)
    (if isInf n then key i else max_key k (key n)) None.

(** [delete(newLeaf)]: a payload that is not committed is deallocated, another one is retired. *)
Definition delete_leaf (m : mem) (x : pc) (a : Z) (x' : pc) : mem * pc :=
  at_node m x a (λ n, at_payload m x (npayload n) (λ b y,
    (with_payloads (match ep y with None => delete b (payloads m) | Some _ => <[b := set_retire (epoch m) y]> (payloads m) end)
       (with_nodes (delete a (nodes m)) m), x'))).

(** One access of a thread inside an operation *)
Definition op_step (ops : gset nat) (m : mem) (x : pc) : option (mem * pc) :=
  match x with
  | SRoot j => Some (at_edge m x (s, true) (λ w, (m, SParent j (getPtr w))))
  | SParent j l => Some (at_edge m x (s, true) (λ w, (m, SFirst j l w)))
  | SFirst j l pf => Some (at_edge m x (l, true) (λ w, (m, sk_at j (Seek r s s l) pf w)))
  | SStep j q pf cf =>
      Some (at_node m x (getPtr cf) (λ n,
        (m, sk_at j (if getTg pf then Seek (ancestor q) (successor q) (leaf q) (getPtr cf) else Seek (parent q) (leaf q) (leaf q) (getPtr cf))
              cf (child n (nodeLess (okey (jop j)) n)))))
  | OFound j q => Some (found m x j q)
  | OSet j q e =>
      Some (at_node m x (leaf q) (λ n, at_node m x (newInternal j) (λ i,
        (with_nodes (<[newInternal j := internal j (leaf q) n i]> (nodes m)) m, OBegin j q e (newInternal j) None))))
  | OBegin j q e n old =>
      Some (match old with
            | None => (m, OCas j q e n old (epoch m))
            | Some (b, _) => at_payload m x (Some b) (λ _ y, if default 0 (ep y) <=? epoch m then (m, OCas j q e n old (epoch m)) else (failed m, x))
            end)
  | OCas j q e n old c =>
      Some (at_edge m x e (λ w,
        if (w =? leaf q) && (c =? epoch m) then
          match old with
          | None => (commit j c (store m e n), OEnd (linked_ret (jop j)))
          | Some (b, v) => anti_node (commit j c (store m e n)) x b c (OFree j q (RVal (Some v)) false)
          end
        else (m, match old with None => OHelp j q e | Some _ => SRoot j end)))
  | OFlag j q e v =>
      Some (at_edge m x e (λ w,
        if w =? leaf q then (store m e (mixPtrFlgTg (leaf q) true false), CChild (Job (jop j) (newInternal j) (newLeaf j) (Some (leaf q, v))) q)
        else (m, OHelp j q e)))
  | OHelp j q e => Some (at_edge m x e (λ w, (m, if (getPtr w =? leaf q) && (getFlg w || getTg w) then CChild j q else SRoot j)))
  | OFree j q n both =>
      Some (at_node m x (newInternal j) (λ _,
        let m' := with_nodes (delete (newInternal j) (nodes m)) m in
        if both then delete_leaf m' x (newLeaf j) (OEnd n) else (m', ORetire (leaf q) n)))
  | ORetire a n => Some (retire_node ops m x a (OEnd n))
  | CChild j q =>
      Some (at_node m x (ancestor q) (λ a, at_node m x (parent q) (λ p,
        let k := okey (jop j) in
        let sc := (ancestor q, nodeLess k a) in
        let ch := (parent q, nodeLess k p) in
        let sb := (parent q, negb (nodeLess k p)) in
        let tc := child p (nodeLess k p) in
        (m, if getFlg tc then CRead j q sc sb tc else CSibling j q sc ch sb))))
  | CSibling j q sc ch sb => Some (at_edge m x sb (λ w, (m, CRead j q sc ch w)))
  | CRead j q sc sb tc => Some (at_edge m x sb (λ w, (m, if getTg w then CLast j q sc sb tc else CTag j q sc sb tc w)))
  | CTag j q sc sb tc w =>
      Some (at_edge m x sb (λ w',
        if w' =? w then (store m sb (mixPtrFlgTg (getPtr w) (getFlg w) true), CLast j q sc sb tc) else (m, CRead j q sc sb tc)))
  | CLast j q sc sb tc => Some (at_edge m x sb (λ w, (m, CPayload j q sc tc w)))
  | CPayload j q sc tc w =>
      Some (at_node m x (getPtr tc) (λ n,
        match nlevel n, npayload n with finite, Some b => (m, CBegin j q sc tc w b) | _, _ => (failed m, x) end))
  | CBegin j q sc tc w b =>
      Some (at_payload m x (Some b) (λ _ y, if default 0 (ep y) <=? epoch m then (m, CCas j q sc tc w b (epoch m)) else (failed m, x)))
  | CCas j q sc tc w b c =>
      Some (at_edge m x sc (λ w',
        if (w' =? successor q) && (c =? epoch m) then
          anti_node (commit j c (store m sc (mixPtrFlgTg (getPtr w) (getFlg w) false))) x b c (CRetire j q tc)
        else (m, cleaned j false)))
  | CRetire j q tc => Some (retire_node ops m x (getPtr tc) (CPath j q (successor q)))
  | CPath j q a =>
      Some (if a =? 0 then (failed m, x) else retire_node ops m x a (if a =? parent q then cleaned j true else CNext j q a))
  | CNext j q a =>
      Some (at_node m x a (λ n, at_node m x (parent q) (λ p, (m, CPath j q (getPtr (child n (nodeLess (key p) n)))))))
  | _ => None
  end.

(** A compare-and-swap fails. *)
Definition failed_cas (x : pc) : option pc :=
  match x with
  | OCas j q e n None _ => Some (OHelp j q e)
  | OCas j _ _ _ (Some _) _ => Some (SRoot j)
  | OFlag j q e _ => Some (OHelp j q e)
  | CTag j q sc sb tc _ => Some (CRead j q sc sb tc)
  | CCas j _ _ _ _ _ _ => Some (cleaned j false)
  | _ => None
  end.

Definition fresh_node (m : mem) (n : Z) : bool := bool_decide (0 < n < U64 ∧ n mod 16 = 0 ∧ nodes m !! n = None).

Definition thread_step (ops : gset nat) (m : mem) (t : nat) (x : pc) (a : act) : option (mem * pc * list ev) :=
  match x, a with
  | Idle, Call o =>
      match o with
      | Get _ | Remove _ => Some (m, OStart (Job o 0 0 None), [ECall t o])
      | Put _ _ | Insert _ _ => Some (m, OInternal o, [ECall t o])
      | Replace _ _ => Some (failed m, Idle, [ECall t o])  (** [assert(0)] *)
      end
  | OInternal o, New n _ => if fresh_node m n then Some (with_nodes (<[n := Node inf2 0 0 k0 None]> (nodes m)) m, OLeaf o n, []) else None
  | OLeaf o i, New n b =>
      match oval o with
      | Some v =>
          if fresh_node m n && bool_decide (b ≠ 0 ∧ payloads m !! b = None)
          then Some (with_payloads (<[b := Payload (okey o) v None None]> (payloads m))
                       (with_nodes (<[n := Node finite 0 0 (okey o) (Some b)]> (nodes m)) m), OStart (Job o i n None), [])
          else None
      | None => None
      end
  | OStart j, Go => Some (m, SRoot j, [])
  | OEnd n, Go => Some (leave t m, Idle, [ERet t n])
  | _, Go => '(m', x') ← op_step ops m x; Some (m', x', [])
  | _, Give_up => x' ← failed_cas x; Some (m, x', [])
  | _, _ => None
  end.

Record sys : Type := Sys { mm : mem; pcs : list pc }.
Definition operating (ps : list pc) : gset nat :=
  list_to_set (filter (λ t, default false (in_op <$> ps !! t) = true) (seq 0 (length ps))).

(** [~Node] and, for a leaf, [preclaim] of its payload, as in [LfHashTable] *)
Definition destruct_node (a : Z) (m : mem) : mem :=
  match nodes m !! a with
  | None => failed m
  | Some n =>
      let m' := with_retired (delete a (retired m)) (with_nodes (delete a (nodes m)) m) in
      match npayload n with
      | None => m'
      | Some b =>
          match payloads m !! b with
          | Some (Payload _ _ (Some e) (Some _)) => with_payloads (if e <? epoch m - 1 then delete b (payloads m) else payloads m) m'
          | _ => failed m
          end
      end
  end.

Inductive sact : Type :=
  | Th (t : nat) (a : act)
  | Advance
  | Destruct (a : Z).

Definition step (S : sys) (x : sact) : option (sys * list ev) :=
  match x with
  | Th t a =>
      q ← pcs S !! t;
      '(m', q', evs) ← thread_step (operating (pcs S)) (mm S) t q a;
      Some (Sys m' (<[t := q']> (pcs S)), evs)
  | Advance => Some (Sys (with_epoch (epoch (mm S) + 1) (mm S)) (pcs S), [])
  | Destruct a =>
      match retired (mm S) !! a with
      | Some W => if bool_decide (W = ∅) then Some (Sys (destruct_node a (mm S)) (pcs S), []) else None
      | None => None
      end
  end.
Fixpoint run (S : sys) (tr : list sact) : option (sys * list ev) :=
  match tr with
  | [] => Some (S, [])
  | x :: tr' => '(S1, evs1) ← step S x; '(S2, evs2) ← run S1 tr'; Some (S2, evs1 ++ evs2)
  end.

(** The constructor, with the addresses of the three leaves, in the epoch [e], and [n] threads *)
Definition new_tree (a2 a1 a0 e : Z) (n : nat) : sys :=
  Sys (Mem (<[r := Node inf2 s a2 k0 None]> (<[s := Node inf1 a0 a1 k0 None]>
         {[a2 := Node inf2 0 0 k0 None; a1 := Node inf1 0 0 k0 None; a0 := Node inf0 0 0 k0 None]})) ∅ e ∅ false)
      (replicate n Idle).
End tree.
Arguments node K : clear implicits.
Arguments mem K V : clear implicits.
Arguments job K V : clear implicits.
Arguments pc K V : clear implicits.
Arguments act K V : clear implicits.
Arguments sact K V : clear implicits.
Arguments sys K V : clear implicits.
End NatarajanTree.
