(* ===== verification/NatarajanShape.v ===== *)
(** * The shape of the search tree

    The tree below the member [s] as a term ([ft]), with the key [None] for the level [inf0],
    a place in it as the path that leads there ([frame]), and what changing one edge of the
    memory does to the term. *)

From S2P Require Import Prelude LfHashTable NatarajanTree.
Import LfHashTable(payload, Payload, pkey, pval, ep, retire, op(..), ret(..), ev(..), okey, oval, set_ep, set_retire).
Import NatarajanTree.

Module NatarajanShape.

(** ** Edges without flag and tag *)

Definition plain (a : Z) : Prop := a ≠ 0 ∧ a mod 16 = 0.

Lemma plain_bit a i : a mod 16 = 0 → 0 ≤ i < 4 → Z.testbit a i = false.
Proof. intros Ha Hi. rewrite <- (Z.mod_pow2_bits_low a 4 i) by lia. change (2 ^ 4) with 16. by rewrite Ha, Z.bits_0. Qed.
Lemma plain_mix a f g : a mod 16 = 0 →
  getPtr (mixPtrFlgTg a f g) = a ∧ getFlg (mixPtrFlgTg a f g) = f ∧ getTg (mixPtrFlgTg a f g) = g.
Proof.
  intros Ha. pose proof (plain_bit a 0 Ha ltac:(lia)) as H0. pose proof (plain_bit a 1 Ha ltac:(lia)) as H1.
  unfold getPtr, getFlg, getTg, mixPtrFlgTg, GET_POINTER_BITS. split_and!.
  - apply Z.bits_inj'. intros i Hi. rewrite Z.land_spec, !Z.lor_spec, Z.lnot_spec by done.
    destruct (decide (i = 0)) as [->|]; [rewrite H0; by rewrite andb_false_r|].
    destruct (decide (i = 1)) as [->|]; [rewrite H1; by rewrite andb_false_r|].
    replace (Z.testbit 3 i) with false by (symmetry; apply (Z.bits_above_log2 3 i); [done|simpl; lia]).
    replace (Z.testbit (Z.b2z f) i) with false by (destruct f; symmetry; [apply (Z.bits_above_log2 1 i); [done|simpl; lia]|apply Z.bits_0]).
    replace (Z.testbit (Z.shiftl (Z.b2z g) 1) i) with false.
    { rewrite !orb_false_r. by rewrite andb_true_r. }
    symmetry. destruct g; simpl; [apply (Z.bits_above_log2 2 i); [done|simpl; lia]|apply Z.bits_0].
  - rewrite !Z.lor_spec, H0. by destruct f, g.
  - rewrite !Z.lor_spec, H1. by destruct f, g.
Qed.
Lemma plain_mix0 a : mixPtrFlgTg a false false = a.
Proof. unfold mixPtrFlgTg. simpl. by rewrite !Z.lor_0_r. Qed.
Lemma plain_ptr a : a mod 16 = 0 → getPtr a = a ∧ getFlg a = false ∧ getTg a = false.
Proof. intros Ha. pose proof (plain_mix a false false Ha) as Hp. by rewrite plain_mix0 in Hp. Qed.

Section shape.
Context {K : Type} (lt : K → K → Prop) `{!RelDecision lt}.
Context (k0 : K) (r s : Z).
Notation node := (node K).
Implicit Types (ns : gmap Z node) (n : node).

(** ** Trees *)

Inductive ft : Type :=
  | FLeaf (a : Z) (x : option (K * Z))
  | FNode (a : Z) (k : option K) (l r : ft).
Implicit Type t : ft.

Definition root t : Z := match t with FLeaf a _ | FNode a _ _ _ => a end.
Fixpoint addrs t : list Z := match t with FLeaf a _ => [a] | FNode a _ l r => a :: addrs l ++ addrs r end.
(** The keys with their payloads *)
Fixpoint leaves t : list (option (K * Z)) := match t with FLeaf _ x => [x] | FNode _ _ l r => leaves l ++ leaves r end.

Definition inner (k : option K) (l r : Z) : node :=
  match k with Some k => Node finite l r k None | None => Node inf0 l r k0 None end.
Definition outer (x : option (K * Z)) : node :=
  match x with Some (k, b) => Node finite 0 0 k (Some b) | None => Node inf0 0 0 k0 None end.
Definition root_node t : node := match t with FLeaf _ x => outer x | FNode _ k l r => inner k (root l) (root r) end.
Fixpoint ft_at ns t : Prop :=
  match t with
  | FLeaf a x => ns !! a = Some (outer x)
  | FNode a k l r => ns !! a = Some (inner k (root l) (root r)) ∧ ft_at ns l ∧ ft_at ns r
  end.

(** Keys on the left and on the right of a node *)
Definition below (x : option (K * Z)) (k : option K) : Prop :=
  match x, k with Some (x, _), Some k => lt x k | Some _, None => True | None, _ => False end.
Definition above (x : option (K * Z)) (k : option K) : Prop :=
  match x, k with Some (x, _), Some k => ¬ lt x k | None, None => True | _, _ => False end.
Fixpoint ordered t : Prop :=
  match t with
  | FLeaf _ _ => True
  | FNode _ k l r => (∀ x, x ∈ leaves l → below x k) ∧ (∀ x, x ∈ leaves r → above x k) ∧ ordered l ∧ ordered r
  end.
(** The way of a search *)
Definition goes_left (k : K) (k' : option K) : bool := match k' with Some k' => bool_decide (lt k k') | None => true end.

Lemma inner_less k k' l r' : nodeLess lt k (inner k' l r') = goes_left k k'.
Proof. by destruct k'. Qed.
Lemma root_addrs t : root t ∈ addrs t.
Proof. destruct t; simpl; by left. Qed.
Lemma root_at ns t : ft_at ns t → ns !! root t = Some (root_node t).
Proof. destruct t; simpl; tauto. Qed.
Lemma ft_frame ns ns' t : (∀ a, a ∈ addrs t → ns' !! a = ns !! a) → ft_at ns t → ft_at ns' t.
Proof.
  induction t as [a x|a k l IHl u IHr]; simpl; intros Hf Hat; [rewrite Hf; [done|by left]|].
  destruct Hat as (H1 & H2 & H3).
  split_and!; [rewrite Hf; [done|by left]|apply IHl; [|done]|apply IHr; [|done]]; intros a' Ha'; apply Hf; set_solver.
Qed.

(** ** A place in a tree: the frames from the place to the root *)

Record frame : Type := Fr { fd : bool; fa : Z; fk : option K; fs : ft }.
Implicit Types (f : frame) (c : list frame).
Definition plug f t : ft := if fd f then FNode (fa f) (fk f) t (fs f) else FNode (fa f) (fk f) (fs f) t.
Fixpoint fill c t : ft := match c with [] => t | f :: c' => fill c' (plug f t) end.
Definition caddrs c : list Z := concat ((λ f, fa f :: addrs (fs f)) <$> c).
Definition cleaves c : list (option (K * Z)) := concat ((λ f, leaves (fs f)) <$> c).
Definition frame_node f (w : Z) : node := inner (fk f) (if fd f then w else root (fs f)) (if fd f then root (fs f) else w).
Fixpoint ctx_at ns c (w : Z) : Prop :=
  match c with
  | [] => True
  | f :: c' => ns !! fa f = Some (frame_node f w) ∧ ft_at ns (fs f) ∧ ctx_at ns c' (fa f)
  end.
(** The search for [k] takes this path. *)
Definition onpath (k : K) c : Prop := Forall (λ f, fd f = goes_left k (fk f)) c.

Lemma fill_at ns c t : ft_at ns (fill c t) ↔ ft_at ns t ∧ ctx_at ns c (root t).
Proof.
  revert t. induction c as [|[d a k u] c IH]; intros t; simpl; [tauto|]. rewrite IH. unfold plug, frame_node. simpl. destruct d; simpl; tauto.
Qed.
Lemma fill_addrs c t : addrs (fill c t) ≡ₚ addrs t ++ caddrs c.
Proof.
  revert t. induction c as [|[d a k u] c IH]; intros t; simpl; [by rewrite app_nil_r|]. rewrite IH. unfold caddrs, plug. simpl.
  destruct d; simpl.
  - rewrite <- Permutation_middle, <- !app_assoc. done.
  - rewrite <- Permutation_middle. constructor. rewrite !app_assoc. by rewrite (Permutation_app_comm (addrs u)).
Qed.
Lemma fill_leaves c t : leaves (fill c t) ≡ₚ leaves t ++ cleaves c.
Proof.
  revert t. induction c as [|[d a k u] c IH]; intros t; simpl; [by rewrite app_nil_r|]. rewrite IH. unfold cleaves, plug. simpl.
  destruct d; simpl; [by rewrite <- app_assoc|]. rewrite !app_assoc. by rewrite (Permutation_app_comm (leaves u)).
Qed.
Lemma ctx_frame ns ns' c w : (∀ a, a ∈ caddrs c → ns' !! a = ns !! a) → ctx_at ns c w → ctx_at ns' c w.
Proof.
  revert w. induction c as [|[d a k u] c IH]; intros w Hf Hat; simpl in *; [done|]. unfold caddrs in Hf. simpl in Hf.
  destruct Hat as (H1 & H2 & H3). split_and!; [rewrite Hf; [done|by left]| |].
  - eapply ft_frame; [|done]. intros a' Ha'. apply Hf. set_solver.
  - apply IH; [|done]. intros a' Ha'. apply Hf. right. apply elem_of_app. by right.
Qed.
Lemma leaves_length c t : (length c < length (leaves (fill c t)))%nat.
Proof.
  assert (∀ t, (0 < length (leaves t))%nat) as Hpos by (clear; induction t; simpl; [lia|rewrite length_app; lia]).
  rewrite (Permutation_length (fill_leaves c t)), length_app. assert (length c ≤ length (cleaves c))%nat; [|pose proof (Hpos t); lia].
  induction c as [|f c IH]; [simpl; lia|]. change (cleaves (f :: c)) with (leaves (fs f) ++ cleaves c).
  rewrite length_app. pose proof (Hpos (fs f)). simpl. lia.
Qed.

(** ** Order *)

Lemma ordered_in c t : ordered (fill c t) → ordered t.
Proof.
  revert t. induction c as [|[d a k u] c IH]; intros t; simpl; [done|]. intros Ho%IH. unfold plug in Ho. simpl in Ho. destruct d; simpl in Ho; tauto.
Qed.
Lemma below_left k b k' : below (Some (k, b)) k' ↔ goes_left k k' = true.
Proof. destruct k'; simpl; [by rewrite bool_decide_eq_true|done]. Qed.
Lemma above_right k b k' : above (Some (k, b)) k' → goes_left k k' = false.
Proof. destruct k'; simpl; [by rewrite bool_decide_eq_false|done]. Qed.
Lemma right_above k b k' : goes_left k k' = false → above (Some (k, b)) k'.
Proof. destruct k'; simpl; [by rewrite bool_decide_eq_false|done]. Qed.

(** The subtree at the end of the path of [k] may get leaves with the key [k] and lose leaves. *)
Lemma ordered_fill k c t t' : onpath k c → ordered (fill c t) → ordered t' →
  (∀ x, x ∈ leaves t' → x ∈ leaves t ∨ ∃ b, x = Some (k, b)) → ordered (fill c t').
Proof.
  revert t t'. induction c as [|[d a k1 u] c IH]; intros t t' Hp Ho Ht' Hl; simpl in *; [done|].
  apply Forall_cons in Hp as [Hd Hp]. simpl in Hd. pose proof (ordered_in _ _ Ho) as Hpl. eapply IH; [done|exact Ho|..]; unfold plug in *; simpl in *.
  - destruct d; simpl in *; destruct Hpl as (H1 & H2 & H3 & H4); split_and!; try done.
    + intros x [Hx|[b ->]]%Hl; [by apply H1|by apply below_left].
    + intros x [Hx|[b ->]]%Hl; [by apply H2|by apply right_above].
  - intros x. destruct d; simpl; rewrite !elem_of_app; intros [Hx|Hx]; try (apply Hl in Hx as [Hx|Hx]); tauto.
Qed.

(** The path of [k] leads to the leaf with the key [k]. *)
Lemma onpath_leaf k b c t : onpath k c → ordered (fill c t) → Some (k, b) ∈ leaves (fill c t) → Some (k, b) ∈ leaves t.
Proof.
  revert t. induction c as [|[d a k1 u] c IH]; intros t Hp Ho Hin; simpl in *; [done|].
  apply Forall_cons in Hp as [Hd Hp]. simpl in Hd. pose proof (ordered_in _ _ Ho) as Hpl. apply (IH _ Hp Ho) in Hin.
  unfold plug in *. simpl in *. destruct d; simpl in *; destruct Hpl as (H1 & H2 & _); apply elem_of_app in Hin as [Hin|Hin]; try done.
  - apply H2, above_right in Hin. congruence.
  - apply H1, below_left in Hin. congruence.
Qed.
Lemma ordered_unique t : ordered t → NoDup (omap (fmap fst) (leaves t)).
Proof.
  induction t as [a x|a k l IHl u IHr]; simpl; intros Ho.
  - destruct x; simpl; [apply NoDup_singleton|constructor].
  - destruct Ho as (H1 & H2 & H3 & H4). rewrite omap_app. apply NoDup_app. split_and!; [by apply IHl| |by apply IHr].
    intros k' (x & Hx & Hk')%list_elem_of_omap (x' & Hx' & Hk)%list_elem_of_omap. destruct x as [[? b]|]; [|done].
    destruct x' as [[? b']|]; [|done]. simplify_eq/=. apply H1, below_left in Hx. apply H2, above_right in Hx'. congruence.
Qed.

(** ** The whole tree *)

(** The edge that leads to a place *)
Definition edge_of c : edge := match c with [] => (s, true) | f :: _ => (fa f, fd f) end.

Record tree_at ns t : Prop := {
  ta_r : ∃ a2, ns !! r = Some (Node inf2 s a2 k0 None);
  ta_s : ∃ a1, ns !! s = Some (Node inf1 (root t) a1 k0 None);
  ta_ft : ft_at ns t;
  ta_nodup : NoDup (r :: s :: addrs t);
  ta_plain : Forall plain (addrs t);
  ta_ordered : ordered t;
  ta_inf : None ∈ leaves t;
}.

(** A search finds the right edge in the node that the edge leaves. *)
Lemma edge_node ns c t k : tree_at ns (fill c t) → onpath k c →
  ∃ n, ns !! (edge_of c).1 = Some n ∧ child n (edge_of c).2 = root t ∧ nodeLess lt k n = (edge_of c).2.
Proof.
  intros Ht Hp. destruct c as [|f c]; simpl.
  - destruct (ta_s _ _ Ht) as [a1 Ha1]. eexists. split; [exact Ha1|]. done.
  - apply Forall_cons in Hp as [Hd _]. pose proof (proj1 (fill_at _ (f :: c) _) (ta_ft _ _ Ht)) as (_ & Hf & _).
    eexists. split; [exact Hf|]. unfold frame_node. split; [destruct f as [[] ? [] ?]; done|]. by rewrite inner_less.
Qed.
Lemma edge_addr c t : (edge_of c).1 ∈ s :: addrs (fill c t).
Proof.
  destruct c as [|f c]; simpl; [by left|]. right. rewrite fill_addrs. apply elem_of_app. left. unfold plug. destruct (fd f); simpl; by left.
Qed.
Lemma ft_top t : ordered t → None ∈ leaves t → ∃ x l u, t = FLeaf x None ∨ t = FNode x None l u.
Proof.
  destruct t as [a x|a [k|] l u]; simpl; intros Ho Hin.
  - apply list_elem_of_singleton in Hin as <-. exists a, (FLeaf a None), (FLeaf a None). by left.
  - destruct Ho as (H1 & H2 & _). apply elem_of_app in Hin as [Hin|Hin]; [by apply H1 in Hin|by apply H2 in Hin].
  - eauto.
Qed.
Lemma set_frame f w w' : set_child (fd f) w' (frame_node f w) = frame_node f w'.
Proof. by destruct f as [[] a [k|] u]. Qed.
Lemma root_fill c t t' : root t = root t' → root (fill c t) = root (fill c t').
Proof. revert t t'. induction c as [|[[] a k u] c IH]; intros t t' Heq; simpl; [done|by apply IH..]. Qed.
Lemma tree_disjoint ns c t : tree_at ns (fill c t) →
  r ≠ s ∧ NoDup (addrs t) ∧ NoDup (caddrs c) ∧ (∀ a, a ∈ addrs t → a ∉ r :: s :: caddrs c) ∧ (∀ a, a ∈ caddrs c → a ≠ r ∧ a ≠ s) ∧
  Forall plain (addrs t) ∧ Forall plain (caddrs c).
Proof.
  intros Ht. pose proof (ta_nodup _ _ Ht) as Hnd. rewrite fill_addrs in Hnd. apply NoDup_cons in Hnd as [Hr [Hs Hnd]%NoDup_cons].
  apply NoDup_app in Hnd as (H1 & H2 & H3). pose proof (ta_plain _ _ Ht) as Hpl. rewrite fill_addrs in Hpl. apply Forall_app in Hpl as [? ?].
  split_and!; try done; set_solver.
Qed.
Lemma tree_some ns t a : tree_at ns t → a ∈ r :: s :: addrs t → is_Some (ns !! a).
Proof.
  intros [[a2 H1] [a1 H2] H3 _ _ _ _] [->|[->|Ha]%elem_of_cons]%elem_of_cons; [by rewrite H1|by rewrite H2|]. clear -Ha H3.
  induction t as [a' x|a' k l IHl t2 IHr]; simpl in *; [apply list_elem_of_singleton in Ha as ->; by rewrite H3|].
  destruct H3 as (H1 & H2 & H3). apply elem_of_cons in Ha as [->|[Ha|Ha]%elem_of_app]; [by rewrite H1|auto..].
Qed.
Lemma tree_frame ns ns' t : (∀ a, a ∈ r :: s :: addrs t → ns' !! a = ns !! a) → tree_at ns t → tree_at ns' t.
Proof.
  intros Hf [[a2 H1] [a1 H2] H3 ? ? ? ?]. constructor; [| | |done..].
  - exists a2. rewrite Hf; [done|by left].
  - exists a1. rewrite Hf; [done|right; by left].
  - eapply ft_frame; [|exact H3]. intros a Ha. apply Hf. by do 2 right.
Qed.

(** Another subtree is linked at a place. *)
Lemma tree_store ns ns1 c t t' : tree_at ns (fill c t) → (∀ a, a ∈ r :: s :: caddrs c → ns1 !! a = ns !! a) →
  ft_at ns1 t' → NoDup (addrs t') → (∀ a, a ∈ addrs t' → a ∉ r :: s :: caddrs c) → Forall plain (addrs t') →
  ordered (fill c t') → None ∈ leaves (fill c t') →
  tree_at (alter (set_child (edge_of c).2 (root t')) (edge_of c).1 ns1) (fill c t').
Proof.
  intros Ht Hf Hat Hnd Hdis Hpl Ho Hinf. set (ns' := alter _ _ _).
  destruct (tree_disjoint _ _ _ Ht) as (Hrs & _ & Hndc & _ & Hc & _ & Hplc).
  assert (∀ a, a ≠ (edge_of c).1 → ns' !! a = ns1 !! a) as Hne by (intros a Ha; unfold ns'; by rewrite lookup_alter_ne).
  assert ((edge_of c).1 ∈ s :: caddrs c) as Hedge by (destruct c as [|f c]; [by left|right; by left]).
  assert (ft_at ns' t') as Hat'.
  { eapply ft_frame; [|exact Hat]. intros a Ha. apply Hne. intros ->. eapply Hdis; [exact Ha|]. by right. }
  assert (r ≠ (edge_of c).1) as Hre by (apply elem_of_cons in Hedge as [->|He%Hc]; [done|]; by destruct He).
  constructor; [| | | |by rewrite fill_addrs; apply Forall_app|done..].
  - destruct (ta_r _ _ Ht) as [a2 Ha2]. exists a2. rewrite Hne, Hf by (done || by left). done.
  - destruct (ta_s _ _ Ht) as [a1 Ha1]. exists a1. destruct c as [|f c].
    + unfold ns'. simpl. rewrite lookup_alter_eq, Hf, Ha1 by (right; by left). done.
    + assert (fa f ≠ s) as Hfs by (apply (Hc (fa f)); by left). rewrite Hne by (simpl; congruence). rewrite Hf, Ha1 by (right; by left). do 2 f_equal.
      by apply (root_fill c (plug f t)); destruct f as [[] ? ? ?].
  - apply fill_at. split; [done|]. destruct c as [|f c]; [done|]. pose proof (proj1 (fill_at _ (f :: c) _) (ta_ft _ _ Ht)) as (_ & H1 & H2 & H3).
    change (caddrs (f :: c)) with ((fa f :: addrs (fs f)) ++ caddrs c) in *. apply NoDup_cons in Hndc as [Hfa _]. rewrite elem_of_app in Hfa.
    split_and!.
    + unfold ns'. simpl. rewrite lookup_alter_eq, Hf, H1 by (right; right; by left). simpl. by rewrite set_frame.
    + eapply ft_frame; [|exact H2]. intros a Ha. rewrite Hne by (simpl; intros ->; tauto). apply Hf. set_solver.
    + eapply ctx_frame; [|exact H3]. intros a Ha. rewrite Hne by (simpl; intros ->; tauto). apply Hf. set_solver.
  - rewrite fill_addrs. apply NoDup_cons. rewrite elem_of_cons, elem_of_app. split.
    { intros [?|[Ha|Ha]]; [done|eapply Hdis; [exact Ha|by left]|by destruct (Hc _ Ha)]. }
    apply NoDup_cons. rewrite elem_of_app. split; [intros [Ha|Ha]; [eapply Hdis; [exact Ha|right; by left]|by destruct (Hc _ Ha)]|].
    apply NoDup_app. split_and!; [done| |done]. intros a Ha Hca. eapply Hdis; [exact Ha|]. by do 2 right.
Qed.

(** ** Payloads of nodes *)

Definition owned ns : gmap Z Z := omap npayload ns.
Lemma owned_alter ns a d w : owned (alter (set_child d w) a ns) = owned ns.
Proof.
  apply map_eq. intros a'. unfold owned. rewrite !lookup_omap. destruct (decide (a' = a)) as [->|]; [rewrite lookup_alter_eq|by rewrite lookup_alter_ne].
  destruct (ns !! a) as [n|]; [|done]. simpl. by destruct d.
Qed.
Lemma owned_insert ns a n : npayload n = None → owned ns !! a = None → owned (<[a := n]> ns) = owned ns.
Proof.
  intros Hn Ha. apply map_eq. intros a'. unfold owned in *. rewrite lookup_omap. destruct (decide (a' = a)) as [->|].
  - by rewrite lookup_insert_eq, Ha.
  - rewrite lookup_insert_ne by done. by rewrite <- lookup_omap.
Qed.
Lemma owned_delete ns a : owned (delete a ns) = delete a (owned ns).
Proof. apply omap_delete. Qed.
Lemma owned_leaf ns a n b : npayload n = Some b → owned (<[a := n]> ns) = <[a := b]> (owned ns).
Proof. intros Hn. unfold owned. by apply omap_insert_Some. Qed.
End shape.
Arguments ft K : clear implicits.
Arguments frame K : clear implicits.
End NatarajanShape.
