(* ===== verification/NatarajanSeek.v ===== *)
(** * One thread at work in the search tree

    The accesses of a thread that runs alone, its search, and the contents of the tree with
    the payloads that a crash leaves: the invariant between operations. *)

From S2P Require Import Prelude HashTable LfHashTable LfTableInv LfTableWrite NatarajanTree NatarajanShape.
Import LfHashTable(payload, Payload, pkey, pval, ep, retire, op(..), ret(..), ev(..), okey, oval, set_ep, set_retire).
Import LfTableInv(surv, survives). Import LfTableWrite(surv_same, surv_insert, surv_remove, surv_delete, gen_rep_insert, gen_rep_delete).
Import NatarajanTree NatarajanShape.

Module NatarajanSeek.

Section seek.
Context {K V : Type} `{!EqDecision K, !Countable K} (lt : K → K → Prop) `{!RelDecision lt, !StrictOrder lt, !Trichotomy lt}.
Context (k0 : K) (r s : Z) (u : nat).
Notation node := (node K).
Notation mem := (mem K V).
Notation pc := (pc K V).
Notation job := (job K V).
Notation payload := (payload K V).
Notation tree_at := (tree_at lt k0 r s).
Notation op_step := (op_step lt r s {[u]}).
Implicit Types (m : mem) (x : pc) (j : job) (t : ft K) (c : list (frame K)) (k : K) (b : Z) (ps : gmap Z payload) (M : gmap K V) (sn : list (gmap K V)).

(** ** The accesses of the thread [u], alone in its operation *)

Fixpoint goes (n : nat) m x : option (mem * pc) :=
  match n with
  | O => Some (m, x)
  | S n => '(m', x') ← op_step m x; goes n m' x'
  end.
(** In at most [N] accesses *)
Definition reach m x m' x' (N : nat) : Prop := ∃ n, (n ≤ N)%nat ∧ goes n m x = Some (m', x').

Lemma reach_refl m x : reach m x m x 0.
Proof. by exists 0%nat. Qed.
Lemma reach_step m x m1 x1 m' x' N : op_step m x = Some (m1, x1) → reach m1 x1 m' x' N → reach m x m' x' (S N).
Proof. intros Hs (n & Hn & Hg). exists (S n). split; [lia|]. simpl. by rewrite Hs. Qed.
Lemma reach_trans m x m1 x1 m' x' N1 N2 : reach m x m1 x1 N1 → reach m1 x1 m' x' N2 → reach m x m' x' (N1 + N2).
Proof.
  intros (n & Hn & Hg) (n2 & Hn2 & Hg2). exists (n + n2)%nat. split; [lia|]. clear Hn. revert m x Hg. induction n as [|n IH]; intros m x Hg; simpl in *.
  - by injection Hg as -> ->.
  - destruct (op_step m x) as [[m2 x2]|]; [|done]. simpl in *. by apply IH.
Qed.
Lemma reach_weak m x m' x' N N' : reach m x m' x' N → (N ≤ N')%nat → reach m x m' x' N'.
Proof. intros (n & Hn & Hg) HN. exists n. split; [lia|done]. Qed.

(** ** The search *)

Definition seek_at c (a : Z) : SeekRecord :=
  match c with
  | [] => Seek r s s a
  | [f] => Seek s (fa f) (fa f) a
  | f :: g :: _ => Seek (fa g) (fa f) (fa f) a
  end.

Lemma seek_parent c a : parent (seek_at c a) = (edge_of s c).1.
Proof. by destruct c as [|f [|g c]]. Qed.
Lemma seek_leaf c a : leaf (seek_at c a) = a.
Proof. by destruct c as [|f [|g c]]. Qed.

Lemma seek_loop m j k t : okey (jop j) = k → ∀ c pf, ft_at k0 (nodes m) t → Forall plain (addrs t) → onpath lt k c → getTg pf = false →
  ∃ c' a (x : option (K * Z)), fill c' (FLeaf a x) = fill c t ∧ onpath lt k c' ∧ (length c ≤ length c')%nat ∧
    reach m (sk_at j (seek_at c (root t)) pf (child (root_node k0 t) (nodeLess lt k (root_node k0 t)))) m (OFound j (seek_at c' a)) (length c' - length c).
Proof.
  intros Hj. induction t as [a x|a k1 l IHl t2 IHr]; intros c pf Hat Hpl Hp Hpf.
  - exists c, a, x. split_and!; [done..|]. rewrite Nat.sub_diag. unfold sk_at, root_node.
    assert (child (outer k0 x) (nodeLess lt k (outer k0 x)) = 0) as -> by (generalize (nodeLess lt k (outer k0 x)); by destruct x as [[? ?]|]; intros []). apply reach_refl.
  - destruct Hat as (H1 & H2 & H3). apply Forall_cons in Hpl as [Ha [Hl Hr]%Forall_app]. cbn [root_node root]. rewrite inner_less.
    assert (∀ t', Forall plain (addrs t') → plain (root t')) as Hroot by (intros t' Ht'; by eapply Forall_forall in Ht'; [|apply root_addrs]).
    set (d := goes_left lt k k1). set (t' := if d then l else t2).
    assert (child (inner k0 k1 (root l) (root t2)) d = root t') as -> by (unfold t'; by destruct k1, d).
    assert (ft_at k0 (nodes m) t' ∧ Forall plain (addrs t')) as [Hat' Hpl'] by (unfold t'; by destruct d).
    destruct (Hroot _ Hpl') as [Hn0 Hmod]. destruct (plain_ptr _ Hmod) as (Hptr & _ & Htg).
    assert (∃ f, fd f = d ∧ fa f = a ∧ fk f = k1 ∧ plug f t' = FNode a k1 l t2) as (f & Hfd & Hfa & Hfk & Hplug).
    { unfold t'. destruct d; [by exists (Fr true a k1 t2)|by exists (Fr false a k1 l)]. }
    assert (onpath lt k (f :: c)) as Hp' by (apply Forall_cons; split; [by rewrite Hfd, Hfk|done]).
    assert (∃ c' a' (x : option (K * Z)), fill c' (FLeaf a' x) = fill (f :: c) t' ∧ onpath lt k c' ∧ (length (f :: c) ≤ length c')%nat ∧
      reach m (sk_at j (seek_at (f :: c) (root t')) (root t') (child (root_node k0 t') (nodeLess lt k (root_node k0 t')))) m
        (OFound j (seek_at c' a')) (length c' - length (f :: c))) as (c' & a' & x' & Hf & Hpc & Hlen & Hreach).
    { clearbody d. subst t'. destruct d; [apply IHl|apply IHr]; done. }
    simpl in Hlen. exists c', a', x'. split_and!; [rewrite Hf; simpl; by rewrite Hplug|done|lia|].
    replace (length c' - length c)%nat with (S (length c' - length (f :: c))) by (simpl; lia).
    unfold sk_at at 1. rewrite Hptr, (proj2 (Z.eqb_neq _ _) Hn0). eapply reach_step; [|exact Hreach]. simpl. unfold at_node.
    rewrite Hptr, (root_at _ _ _ Hat'), Hpf, Hj. do 3 f_equal. rewrite <- Hfa, seek_leaf, seek_parent. by destruct c as [|g [|? c]].
Qed.

Lemma seek_reach m j t : tree_at (nodes m) t →
  ∃ c a (x : option (K * Z)), t = fill c (FLeaf a x) ∧ onpath lt (okey (jop j)) c ∧ reach m (SRoot j) m (OFound j (seek_at c a)) (3 + length c).
Proof.
  intros Ht. destruct (ta_s _ _ _ _ _ _ Ht) as [a1 Ha1]. pose proof (ta_plain _ _ _ _ _ _ Ht) as Hpl.
  assert (plain (root t)) as [_ Hmod] by (eapply Forall_forall in Hpl; [exact Hpl|apply root_addrs]).
  destruct (plain_ptr _ Hmod) as (Hptr & _ & Htg). pose proof (ta_ft _ _ _ _ _ _ Ht) as Hat.
  destruct (seek_loop m j _ t eq_refl [] (root t) Hat Hpl (Forall_nil_2 _) Htg) as (c & a & x & Hf & Hp & _ & Hr).
  exists c, a, x. split_and!; [by rewrite Hf|done|].
  eapply reach_step; [simpl; unfold at_edge, at_node; simpl; rewrite Ha1; simpl; by rewrite Hptr|].
  eapply reach_step; [simpl; unfold at_edge, at_node; simpl; by rewrite Ha1|].
  eapply reach_step; [simpl; unfold at_edge, at_node; simpl; by rewrite (root_at _ _ _ Hat)|].
  replace (left (root_node k0 t)) with (child (root_node k0 t) (nodeLess lt (okey (jop j)) (root_node k0 t))).
  { by replace (length c - length [])%nat with (length c) in Hr by (simpl; lia). }
  destruct (ft_top lt t (ta_ordered _ _ _ _ _ _ Ht) (ta_inf _ _ _ _ _ _ Ht)) as (a' & l & t2 & [->| ->]); done.
Qed.
End seek.
End NatarajanSeek.
