(* ===== verification/NatarajanInv.v ===== *)
(** * The search tree between operations

    What a crash leaves of the payloads in the current epoch and the two before, and the invariant that
    ties the nodes to them; epoch advances and destructions keep it. *)

From S2P Require Import Prelude HashTable LfHashTable LfTableInv LfTableWrite NatarajanTree NatarajanShape NatarajanSeek.
Import LfHashTable(payload, Payload, pkey, pval, ep, retire, op(..), ret(..), ev(..), okey, oval, set_ep, set_retire).
Import LfTableInv(surv, survives). Import LfTableWrite(surv_same, surv_insert, surv_remove, surv_delete, gen_rep_insert, gen_rep_delete).
Import NatarajanTree NatarajanShape NatarajanSeek.

Module NatarajanInv.

Section inv.
Context {K V : Type} `{!EqDecision K, !Countable K} (lt : K → K → Prop) `{!RelDecision lt, !StrictOrder lt, !Trichotomy lt}.
Context (k0 : K) (r s : Z) (u : nat) (pat : bool).
Notation node := (node K).
Notation mem := (mem K V).
Notation payload := (payload K V).
Notation tree_at := (tree_at lt k0 r s).
Implicit Types (m : mem) (t : ft K) (c : list (frame K)) (k : K) (v : V) (b : Z) (y : payload) (ps : gmap Z payload) (M : gmap K V) (sn : list (gmap K V)).

(** ** Payloads

    In the epoch [e] a crash leaves the map [M] at the end of this epoch; [sn] are the maps at the
    ends of the earlier ones.  Those can be recovered if nodes are not destructed early ([pat]). *)

Definition gens (e : Z) ps M sn : Prop :=
  gen_rep (surv e ps) M ∧
  (pat = true → gen_rep (surv (e - 1) ps) (default ∅ (sn !! 0%nat)) ∧ gen_rep (surv (e - 2) ps) (default ∅ (sn !! 1%nat))).

Lemma gens_publish e ps M sn b k v : gens e ps M sn → ps !! b = None → M !! k = None →
  gens e (<[b := Payload k v (Some e) None]> ps) (<[k := v]> M) sn.
Proof.
  intros [Hg Hsn] Hb Hk. split.
  - rewrite (surv_insert _ _ _ _ (k, v)); [|unfold survives; simpl; by rewrite Z.leb_refl]. apply gen_rep_insert; [done| |done].
    unfold surv. by rewrite lookup_omap, Hb.
  - intros Hp. rewrite !surv_same; [by apply Hsn|..]; rewrite Hb; unfold survives; simpl; by rewrite (proj2 (Z.leb_gt _ _)) by lia.
Qed.
Lemma gens_retire e ps M sn b k v e' : gens e ps M sn → ps !! b = Some (Payload k v (Some e') None) → e' ≤ e →
  gens e (<[b := Payload k v (Some e') (Some e)]> ps) (delete k M) sn.
Proof.
  intros [Hg Hsn] Hb He. split.
  - rewrite surv_remove; [|unfold survives; simpl; by rewrite Z.leb_refl, andb_false_r]. eapply gen_rep_delete; [done|].
    unfold surv. rewrite lookup_omap, Hb. simpl. unfold survives. simpl. by rewrite (proj2 (Z.leb_le _ _)).
  - intros Hp. rewrite !surv_same; [by apply Hsn|..]; rewrite Hb; unfold survives; simpl; by rewrite (proj2 (Z.leb_gt e _)) by lia.
Qed.
(** A payload that is not needed any more *)
Lemma gens_delete e ps M sn b k v e' e2 : gens e ps M sn → ps !! b = Some (Payload k v (Some e') (Some e2)) → e2 ≤ e →
  (pat = true → e2 ≤ e - 2) → gens e (delete b ps) M sn.
Proof.
  intros [Hg Hsn] Hb He Hpat. split.
  - rewrite surv_delete; [done|]. rewrite Hb. unfold survives. simpl. by rewrite (proj2 (Z.leb_le e2 _)), andb_false_r.
  - intros Hp. specialize (Hpat Hp).
    rewrite !surv_delete; [by apply Hsn|..]; rewrite Hb; unfold survives; simpl; by rewrite (proj2 (Z.leb_le e2 _)), andb_false_r by lia.
Qed.
Lemma gens_advance e ps M sn : gens e ps M sn →
  (∀ b y, ps !! b = Some y → (∀ e', ep y = Some e' → e' ≤ e) ∧ (∀ e', retire y = Some e' → e' ≤ e)) → gens (e + 1) ps M (M :: sn).
Proof.
  intros [Hg Hsn] Hle. assert (surv (e + 1) ps = surv e ps) as Hs.
  { apply map_eq. intros b. unfold surv. rewrite !lookup_omap. destruct (ps !! b) as [[k v oe oe']|] eqn:Hb; [|done].
    destruct (Hle _ _ Hb) as [H1 H2]. simpl in *. unfold survives. simpl. destruct oe as [e1|]; [|done]. specialize (H1 _ eq_refl).
    rewrite !(proj2 (Z.leb_le e1 _)) by lia. destruct oe' as [e2|]; [|done]. specialize (H2 _ eq_refl). by rewrite !(proj2 (Z.leb_le e2 _)) by lia. }
  split; [by rewrite Hs|]. intros Hp. replace (e + 1 - 1) with e by lia. replace (e + 1 - 2) with (e - 1) by lia. split; [done|]. by apply Hsn.
Qed.

(** The payloads of the leaves [L] and, in [own], of the nodes that are allocated *)
Record pinv (e : Z) (L : list (option (K * Z))) (own : gmap Z Z) ps M sn : Prop := {
  p_pay b y : ps !! b = Some y →
    ∃ e1, ep y = Some e1 ∧ e1 ≤ e ∧ match retire y with None => Some (pkey y, b) ∈ L | Some e2 => e2 ≤ e end;
  p_leaf k b : Some (k, b) ∈ L → ∃ v e1, ps !! b = Some (Payload k v (Some e1) None) ∧ e1 ≤ e;
  p_owner a b : own !! a = Some b → is_Some (ps !! b) ∧ ∀ a', own !! a' = Some b → a' = a;
  p_gens : gens e ps M sn;
}.

Lemma pinv_perm e L L' own ps M sn : L ≡ₚ L' → pinv e L own ps M sn → pinv e L' own ps M sn.
Proof.
  intros HL [H1 H2 H3 H4]. constructor; [|intros k b; rewrite <- HL; apply H2|done..]. intros b y Hb. destruct (H1 _ _ Hb) as (e1 & ? & ? & ?).
  exists e1. split_and!; [done..|]. destruct (retire y); [done|by rewrite <- HL].
Qed.
Lemma pinv_lookup e L own ps M sn k v : pinv e L own ps M sn → M !! k = Some v ↔ ∃ b y, Some (k, b) ∈ L ∧ ps !! b = Some y ∧ pval y = v.
Proof.
  intros [Hpay Hleaf _ [[_ Hg] _]]. rewrite Hg. unfold surv. split.
  - intros (b & Hb). rewrite lookup_omap in Hb. apply bind_Some in Hb as (y & Hy & Hs). exists b, y.
    destruct (Hpay _ _ Hy) as (e1 & He & _ & Hr). unfold survives in Hs. rewrite He in Hs. destruct y as [k1 v1 e1' [e2|]]; simpl in *.
    + rewrite (proj2 (Z.leb_le e2 _) Hr), andb_false_r in Hs. done.
    + destruct (_ <=? _); by simplify_eq/=.
  - intros (b & y & Hin & Hy & <-). exists b. destruct (Hleaf _ _ Hin) as (v' & e1 & Hy' & He).
    rewrite lookup_omap, Hy'. rewrite Hy in Hy'. injection Hy' as ->. simpl. unfold survives. simpl. by rewrite (proj2 (Z.leb_le _ _) He).
Qed.

(** A leaf is linked, cut out, and destructed. *)
Lemma pinv_add e L own ps M sn k v l b : pinv e L own ps M sn → own !! l = None → ps !! b = None → M !! k = None →
  pinv e (Some (k, b) :: L) (<[l := b]> own) (<[b := Payload k v (Some e) None]> ps) (<[k := v]> M) sn.
Proof.
  intros [Hpay Hleaf Hown Hg] Hl Hb Hk. constructor.
  - intros b' y [[<- <-]|[Hne Hy]]%lookup_insert_Some; [exists e; simpl; split_and!; [done|lia|by left]|].
    destruct (Hpay _ _ Hy) as (e1 & ? & ? & ?). exists e1. split_and!; [done..|]. destruct (retire y); [done|by right].
  - intros k' b' [[= -> ->]|Hin]%elem_of_cons; [exists v, e; by rewrite lookup_insert_eq|].
    destruct (Hleaf _ _ Hin) as (v' & e1 & Hb' & ?). exists v', e1. split; [|done]. rewrite lookup_insert_ne; [done|congruence].
  - intros a b' [[<- <-]|[Hne Ha]]%lookup_insert_Some.
    + rewrite lookup_insert_eq. split; [done|]. intros a' [[? _]|[_ Ha']]%lookup_insert_Some; [done|]. destruct (Hown _ _ Ha') as [[y Hy] _]. congruence.
    + destruct (Hown _ _ Ha) as [[y Hy] Hu]. assert (b ≠ b') as Hbb by congruence. rewrite lookup_insert_ne by done. split; [done|].
      intros a' [[_ ?]|[_ Ha']]%lookup_insert_Some; [done|by apply Hu].
  - by apply gens_publish.
Qed.
Lemma pinv_del e L own ps M sn k v e1 b : pinv e (Some (k, b) :: L) own ps M sn → ps !! b = Some (Payload k v (Some e1) None) →
  Some (k, b) ∉ L → pinv e L own (<[b := Payload k v (Some e1) (Some e)]> ps) (delete k M) sn.
Proof.
  intros [Hpay Hleaf Hown Hg] Hb Hnot. destruct (Hleaf k b ltac:(by left)) as (v' & e1' & Hb' & Hle). assert (e1' = e1) as -> by congruence. constructor.
  - intros b' y [[<- <-]|[Hne Hy]]%lookup_insert_Some; [exists e1; simpl; split_and!; [done|done|lia]|].
    destruct (Hpay _ _ Hy) as (e2 & ? & ? & Hr). exists e2. split_and!; [done..|]. destruct (retire y); [done|].
    apply elem_of_cons in Hr as [[= _ ?]|Hr]; [by subst|done].
  - intros k' b' Hin. destruct (Hleaf k' b' ltac:(by right)) as (v2 & e2 & Hb2 & ?). exists v2, e2. split; [|done].
    rewrite lookup_insert_ne; [done|]. intros <-. rewrite Hb in Hb2. by injection Hb2 as <- _ _.
  - intros a b' Ha. destruct (Hown _ _ Ha) as [Hs Hu]. split; [|done]. destruct (decide (b = b')) as [->|]; [by rewrite lookup_insert_eq|by rewrite lookup_insert_ne].
  - by eapply gens_retire.
Qed.
Lemma pinv_drop e L own ps M sn a : pinv e L own ps M sn → pinv e L (delete a own) ps M sn.
Proof.
  intros [? ? Hown ?]. constructor; [done|done| |done]. intros a' b [_ Ha']%lookup_delete_Some. destruct (Hown _ _ Ha') as [? Hu].
  split; [done|]. intros a2 [_ H2]%lookup_delete_Some. by apply Hu.
Qed.
Lemma pinv_free e L own ps M sn a b k v e1 e2 : pinv e L own ps M sn → own !! a = Some b → ps !! b = Some (Payload k v (Some e1) (Some e2)) →
  (pat = true → e2 ≤ e - 2) → pinv e L (delete a own) (delete b ps) M sn.
Proof.
  intros [Hpay Hleaf Hown Hg] Ha Hb Hpat. destruct (Hpay _ _ Hb) as (_ & _ & _ & Hle). simpl in Hle. constructor.
  - intros b' y [_ Hy]%lookup_delete_Some. by apply Hpay.
  - intros k' b' Hin. destruct (Hleaf _ _ Hin) as (v' & e' & Hb' & ?). exists v', e'. split; [|done]. rewrite lookup_delete_ne; [done|congruence].
  - intros a' b' [Hne Ha']%lookup_delete_Some. destruct (Hown _ _ Ha') as [Hs Hu]. split.
    + rewrite lookup_delete_ne; [done|]. intros <-. by apply Hne, Hu.
    + intros a2 [_ H2]%lookup_delete_Some. by apply Hu.
  - by eapply gens_delete.
Qed.

(** ** The invariant *)

Definition released (t : ft K) (ns : gmap Z node) ps (a : Z) : Prop :=
  a ∉ r :: s :: addrs t ∧ is_Some (ns !! a) ∧ ∀ b, owned ns !! a = Some b → ∃ y e, ps !! b = Some y ∧ retire y = Some e.

Record inv m t M sn : Prop := {
  i_ok : fault m = false;
  i_null : nodes m !! 0 = None;
  i_tree : tree_at (nodes m) t;
  i_pinv : pinv (epoch m) (leaves t) (owned (nodes m)) (payloads m) M sn;
  i_retired a W : retired m !! a = Some W → W = ∅ ∧ released t (nodes m) (payloads m) a;
}.

(** All leaves but one have a key. *)
Lemma leaves_keys t : ordered lt t → (length (leaves t) ≤ S (length (omap (fmap (M := option) fst) (leaves t))))%nat.
Proof.
  induction t as [a x|a k l IHl t2 IHr]; intros Ho; simpl; [lia|]. destruct Ho as (H1 & _ & _ & H4). specialize (IHr H4).
  assert (length (leaves l) = length (omap (fmap (M := option) fst) (leaves l))) as Hl.
  { clear -H1. induction (leaves l) as [|x xs IH]; [done|]. pose proof (H1 x ltac:(by left)) as Hx. destruct x as [[k' b]|]; [|done]. simpl.
    f_equal. apply IH. intros x' Hx'. apply H1. by right. }
  rewrite omap_app, !length_app. lia.
Qed.
(** The tree is not deeper than the map is large. *)
Lemma inv_depth m c t M sn : inv m (fill c t) M sn → (length c ≤ size M)%nat.
Proof.
  intros HI. pose proof (leaves_length c t) as Hl. pose proof (ta_ordered _ _ _ _ _ _ (i_tree _ _ _ _ HI)) as Ho.
  pose proof (ordered_unique lt _ Ho) as Hnd. pose proof (leaves_keys _ Ho) as Hone. set (t0 := fill c t) in *. set (ks := omap (fmap fst) (leaves t0)) in *.
  assert (length ks ≤ size M)%nat as Hks; [|fold ks in Hone; lia].
  rewrite <- size_dom. rewrite <- (size_list_to_set (C := gset K) ks Hnd). apply subseteq_size. intros k Hk%elem_of_list_to_set.
  apply list_elem_of_omap in Hk as ([[k' b]|] & Hin & Hk); simplify_eq/=. destruct (p_leaf _ _ _ _ _ _ (i_pinv _ _ _ _ HI) _ _ Hin) as (v & e & Hb & _).
  apply elem_of_dom. exists v. apply (pinv_lookup _ _ _ _ _ _ _ _ (i_pinv _ _ _ _ HI)). eauto.
Qed.

(** ** Between operations *)

Lemma inv_leave m t M sn : inv m t M sn → inv (leave u m) t M sn.
Proof.
  intros []. constructor; try done. simpl. intros a W. rewrite lookup_fmap. intros (W' & HW & ->)%fmap_Some.
  destruct (i_retired0 _ _ HW) as [-> ?]. split; [set_solver|done].
Qed.
Lemma inv_advance m t M sn : inv m t M sn → inv (with_epoch (epoch m + 1) m) t M (M :: sn).
Proof.
  intros [? ? ? [Hpay Hleaf Hown Hg] ?]. constructor; simpl; try done. constructor; [..|done|].
  - intros b y Hb. destruct (Hpay _ _ Hb) as (e & ? & ? & ?). exists e. split_and!; [done|lia|]. destruct (retire y); [lia|done].
  - intros k b Hin. destruct (Hleaf _ _ Hin) as (v & e & ? & ?). exists v, e. split; [done|lia].
  - apply gens_advance; [done|]. intros b y Hb. destruct (Hpay _ _ Hb) as (e & He & ? & Hr). rewrite He. split; [by intros ? [= <-]|].
    intros e' He'. by rewrite He' in Hr.
Qed.

Lemma inv_destruct m t M sn a W : inv m t M sn → retired m !! a = Some W →
  (pat = true → ∀ b y e, owned (nodes m) !! a = Some b → payloads m !! b = Some y → retire y = Some e → e ≤ epoch m - 2) →
  inv (destruct_node a m) t M sn.
Proof.
  intros HI HW Hpat. pose proof HI as [Hok Hnull Htree HP Hret]. destruct (Hret _ _ HW) as (-> & Hat & [n Hn] & Hpay). unfold destruct_node. rewrite Hn.
  assert (owned (nodes m) !! a = npayload n) as Hown by (unfold owned; by rewrite lookup_omap, Hn). rewrite Hown in Hpay, Hpat.
  assert (tree_at (delete a (nodes m)) t) as Htree'.
  { eapply tree_frame; [|done]. intros a' Ha'. rewrite lookup_delete_ne; [done|]. congruence. }
  assert (delete a (nodes m) !! 0 = None) as Hnull' by (apply lookup_delete_None; by right).
  assert (∀ ps', (∀ a' b', a' ≠ a → owned (nodes m) !! a' = Some b' → ps' !! b' = payloads m !! b') →
    ∀ a' W, delete a (retired m) !! a' = Some W → W = ∅ ∧ released t (delete a (nodes m)) ps' a') as Hret'.
  { intros ps' Hps a' W [Hna HW']%lookup_delete_Some. destruct (Hret _ _ HW') as (-> & H1 & H2 & H3). split_and!; [done|].
    split; [done|]. rewrite lookup_delete_ne, owned_delete, lookup_delete_ne by done. split; [done|]. intros b' Hb'.
    rewrite (Hps a') by done. by apply H3. }
  destruct (npayload n) as [b|] eqn:Hnp; [|constructor; simpl; try done; [rewrite owned_delete; by apply pinv_drop|by apply Hret']].
  destruct (Hpay b eq_refl) as (y & e2 & Hb & He2). rewrite Hb. destruct (p_pay _ _ _ _ _ _ HP _ _ Hb) as (e & He & _).
  destruct y as [k v oe oe2]. simpl in He, He2, Hpat. subst oe oe2. constructor; simpl; try done.
  - rewrite owned_delete. case_match; [|by apply pinv_drop]. eapply pinv_free; [done..|]. intros Hp. by eapply (Hpat Hp b).
  - apply Hret'. intros a' b' Hna Hb'. case_match; [|done]. rewrite lookup_delete_ne; [done|]. intros <-.
    destruct (p_owner _ _ _ _ _ _ HP _ _ Hb') as [_ Hu]. by apply Hna, eq_sym, Hu.
Qed.
End inv.
End NatarajanInv.
