(* ===== verification/NatarajanOps.v ===== *)
(** * Operations on the search tree, one at a time

    A thread that runs alone from a state between operations finishes each
    operation in a bounded number of accesses and leaves the tree of the map that it has
    updated. *)

From S2P Require Import Prelude HashTable LfHashTable LfTableInv LfTableWrite NatarajanTree NatarajanShape NatarajanSeek NatarajanInv.
Import LfHashTable(payload, Payload, pkey, pval, ep, retire, op(..), ret(..), ev(..), okey, oval, set_ep, set_retire).
Import NatarajanTree NatarajanShape NatarajanSeek NatarajanInv.

Module NatarajanOps.

(** ** The abstract operations; [replace] is not implemented. *)

Definition answer {K V} `{!EqDecision K, !Countable K} (o : op K V) (M : gmap K V) : gmap K V * ret V :=
  match o with
  | Get k | Replace k _ => (M, RVal (M !! k))
  | Put k v => (<[k := v]> M, RVal (M !! k))
  | Insert k v => match M !! k with Some _ => (M, RBool false) | None => (<[k := v]> M, RBool true) end
  | Remove k => (delete k M, RVal (M !! k))
  end.
Definition implemented {K V} (o : op K V) : bool := match o with Replace _ _ => false | _ => true end.

(** The fields of an updated memory *)
Tactic Notation "mem_fields" :=
  cbn [fault nodes payloads retired epoch with_payloads with_nodes with_retired with_epoch failed leave store fst snd].
Tactic Notation "mem_fields" "in" hyp(H) :=
  cbn [fault nodes payloads retired epoch with_payloads with_nodes with_retired with_epoch failed leave store fst snd] in H.

Section ops.
Context {K V : Type} `{!EqDecision K, !Countable K} (lt : K → K → Prop) `{!RelDecision lt, !StrictOrder lt, !Trichotomy lt}.
Context (k0 : K) (r s : Z) (u : nat) (pat : bool).
Notation node := (node K).
Notation mem := (mem K V).
Notation pc := (pc K V).
Notation job := (job K V).
Notation payload := (payload K V).
Notation op := (op K V).
Notation tree_at := (tree_at lt k0 r s).
Notation op_step := (op_step lt r s {[u]}).
Notation reach := (reach lt r s u).
Notation inv := (inv lt k0 r s pat).
Notation edge_of := (edge_of s).
Notation seek_at := (seek_at r s).
Implicit Types (m : mem) (j : job) (t : ft K) (c : list (frame K)) (k : K) (v : V) (b : Z) (y : payload) (M : gmap K V) (sn : list (gmap K V)).

(** ** The end of a search *)

Lemma leaf_at m c a x : tree_at (nodes m) (fill c (FLeaf a x)) → nodes m !! a = Some (outer k0 x).
Proof. intros Ht. by apply (proj1 (fill_at _ _ c _) (ta_ft _ _ _ _ _ _ Ht)). Qed.
Lemma leaf_equal k (x : option (K * Z)) : nodeEqual k (outer k0 x) = match x with Some (k', _) => bool_decide (k = k') | None => false end.
Proof. by destruct x as [[k' b]|]. Qed.
Lemma leaf_hit m c a k b M sn : inv m (fill c (FLeaf a (Some (k, b)))) M sn →
  ∃ v e, payloads m !! b = Some (Payload k v (Some e) None) ∧ e ≤ epoch m ∧ M !! k = Some v.
Proof.
  intros HI. assert (Some (k, b) ∈ leaves (fill c (FLeaf a (Some (k, b))))) as Hin by (rewrite fill_leaves; by left).
  destruct (p_leaf _ _ _ _ _ _ _ (i_pinv _ _ _ _ _ _ _ _ _ HI) _ _ Hin) as (v & e & Hb & He). exists v, e. split_and!; [done..|].
  eapply pinv_lookup; [apply HI|]. eauto.
Qed.
Lemma leaf_miss m c a k x M sn : inv m (fill c (FLeaf a x)) M sn → onpath lt k c → (∀ b, x ≠ Some (k, b)) → M !! k = None.
Proof.
  intros HI Hp Hx. apply eq_None_not_Some. intros [v (b & y & Hin & _)%(pinv_lookup _ _ _ _ _ _ _ _ _ (i_pinv _ _ _ _ _ _ _ _ _ HI))].
  apply (onpath_leaf lt), list_elem_of_singleton in Hin; [by destruct (Hx b)|done|apply (ta_ordered _ _ _ _ _ _ (i_tree _ _ _ _ _ _ _ _ _ HI))].
Qed.
Lemma leaf_cases k (x : option (K * Z)) : (∃ b, x = Some (k, b)) ∨ (∀ b, x ≠ Some (k, b)).
Proof. destruct x as [[k' b]|]; [|by right]. destruct (decide (k' = k)) as [->|]; [left; eauto|right; congruence]. Qed.

(** Where the operation goes when [seek] has found its key, with the payload [y] at [b], or not *)
Definition hit_pc j c a b y : pc :=
  let q := seek_at c a in
  match jop j with
  | Get _ | Replace _ _ => OEnd (RVal (Some (pval y)))
  | Put _ _ => OBegin j q (edge_of c) (newLeaf j) (Some (b, pval y))
  | Insert _ _ => OFree j q (RBool false) true
  | Remove _ => OFlag j q (edge_of c) (pval y)
  end.
Definition miss_pc j c a : pc :=
  match jop j with Put _ _ | Insert _ _ => OSet j (seek_at c a) (edge_of c) | _ => OEnd (RVal None) end.

Lemma found_step m j c a x : tree_at (nodes m) (fill c (FLeaf a x)) → onpath lt (okey (jop j)) c → injected j = None → implemented (jop j) = true →
  (∀ b y, x = Some (okey (jop j), b) → payloads m !! b = Some y → op_step m (OFound j (seek_at c a)) = Some (m, hit_pc j c a b y)) ∧
  ((∀ b, x ≠ Some (okey (jop j), b)) → op_step m (OFound j (seek_at c a)) = Some (m, miss_pc j c a)).
Proof.
  intros Ht Hp Hj Ho. destruct (edge_node _ _ _ _ _ _ _ _ Ht Hp) as (p & Hn & _ & Hl). simpl. unfold found, at_node.
  rewrite Hj, seek_leaf, (leaf_at _ _ _ _ Ht), seek_parent, Hn, Hl, leaf_equal. unfold hit_pc, miss_pc. replace ((edge_of c).1, (edge_of c).2) with (edge_of c) by (by destruct (edge_of c)).
  split.
  - intros b y -> Hb. rewrite bool_decide_true by done. unfold at_payload. simpl. rewrite Hb. by destruct (jop j).
  - intros Hx. replace (match x with Some (k', _) => bool_decide (okey (jop j) = k') | None => false end) with false; [by destruct (jop j)|].
    destruct x as [[k' b]|]; [|done]. rewrite bool_decide_false; [done|]. intros Heq. destruct (Hx b). by rewrite Heq.
Qed.

(** ** New nodes *)

Record new_nodes m (i l pb : Z) : Prop := {
  nn_i : nodes m !! i = None; nn_l : nodes m !! l = None; nn_ne : i ≠ l; nn_pi : plain i; nn_pl : plain l; nn_pb : payloads m !! pb = None }.
Definition alloc m (i l : Z) k v pb : mem :=
  with_payloads (<[pb := Payload k v None None]> (payloads m)) (with_nodes (<[l := outer k0 (Some (k, pb))]> (<[i := Node inf2 0 0 k0 None]> (nodes m))) m).
(** The new internal node, over the old and the new leaf *)
Definition link_tree k (i l pb a : Z) (x : option (K * Z)) : ft K :=
  match x with
  | Some (k', _) => if decide (lt k k') then FNode i (Some k') (FLeaf l (Some (k, pb))) (FLeaf a x) else FNode i (Some k) (FLeaf a x) (FLeaf l (Some (k, pb)))
  | None => FNode i None (FLeaf l (Some (k, pb))) (FLeaf a x)
  end.

Lemma link_addrs k i l pb a x : addrs (link_tree k i l pb a x) ≡ₚ [i; l; a].
Proof. unfold link_tree. destruct x as [[k' b]|]; [case_decide|]; simpl; [done| |done]. constructor. by constructor. Qed.
Lemma link_leaves k i l pb a x : leaves (link_tree k i l pb a x) ≡ₚ [Some (k, pb); x].
Proof. unfold link_tree. destruct x as [[k' b]|]; [case_decide|]; simpl; [done| |done]. by constructor. Qed.
Lemma link_root k i l pb a x : root (link_tree k i l pb a x) = i.
Proof. unfold link_tree. destruct x as [[k' b]|]; [by case_decide|done]. Qed.
Lemma link_npayload k i l pb a x : npayload (root_node k0 (link_tree k i l pb a x)) = None.
Proof. unfold link_tree. by destruct x as [[? ?]|]; [case_decide|]. Qed.
Lemma link_ordered k i l pb a x : (∀ b, x ≠ Some (k, b)) → ordered lt (link_tree k i l pb a x).
Proof.
  intros Hx. unfold link_tree. destruct x as [[k' b]|]; [case_decide as Hlt|]; simpl; split_and!; try done; intros x ->%list_elem_of_singleton; simpl; try done.
  - apply irreflexivity, _.
  - destruct (trichotomy lt k k') as [?|[<-|?]]; [done|by destruct (Hx b)|done].
  - apply irreflexivity, _.
Qed.
Lemma released_keep t t' (ns ns' : gmap Z node) (ps ps' : gmap Z payload) a : released r s t ns ps a →
  (∀ a', a' ∈ addrs t' → a' ∈ addrs t ∨ ns !! a' = None) → is_Some (ns' !! a) → owned ns' !! a = owned ns !! a →
  (∀ b y e, ps !! b = Some y → retire y = Some e → ps' !! b = Some y) → released r s t' ns' ps' a.
Proof.
  intros (H1 & [n Hn] & H3) Haddr Hs Hown Hps. split_and!; [|done|].
  - rewrite !not_elem_of_cons in *. destruct H1 as (? & ? & ?). split_and!; [done..|]. intros [Ha|Ha]%Haddr; [done|congruence].
  - intros b. rewrite Hown. intros (y & e & Hy & He)%H3. exists y, e. split; [by eapply Hps|done].
Qed.

(** ** What an operation leaves *)

Notation live k v e := (Payload k v (Some e) None).

Section link.
Context (m : mem) (c : list (frame K)) (a : Z) (x : option (K * Z)) (k : K) (i l pb : Z).
Context (Htree : tree_at (nodes m) (fill c (FLeaf a x))) (Hp : onpath lt k c) (Hx : ∀ b, x ≠ Some (k, b)) (Hnew : new_nodes m i l pb).
Notation T := (link_tree k i l pb a x).
Let ns1 : gmap Z node := <[l := outer k0 (Some (k, pb))]> (<[i := root_node k0 T]> (nodes m)).

Lemma link_old a' : a' ∈ r :: s :: addrs (fill c (FLeaf a x)) → a' ≠ i ∧ a' ≠ l ∧ ns1 !! a' = nodes m !! a'.
Proof using All.
  intros [n Hn]%(tree_some _ _ _ _ _ _ _ Htree). destruct Hnew. assert (a' ≠ i ∧ a' ≠ l) as [? ?] by (split; congruence).
  unfold ns1. by rewrite !lookup_insert_ne.
Qed.
Lemma link_ctx a' : a' ∈ r :: s :: caddrs c → a' ≠ i ∧ a' ≠ l ∧ ns1 !! a' = nodes m !! a'.
Proof using All. intros Ha'. apply link_old. rewrite !elem_of_cons, fill_addrs, elem_of_app. rewrite !elem_of_cons in Ha'. tauto. Qed.
Lemma link_owned : owned ns1 = <[l := pb]> (owned (nodes m)).
Proof using Hnew.
  destruct Hnew. unfold ns1. rewrite (owned_leaf _ _ _ pb), owned_insert; [done|apply link_npayload| |done].
  unfold owned. by rewrite lookup_omap, nn_i0.
Qed.
Lemma tree_link : tree_at (alter (set_child (edge_of c).2 i) (edge_of c).1 ns1) (fill c T).
Proof using All.
  destruct Hnew as [Hi Hl Hne Hpi Hpl Hpb]. destruct (tree_disjoint _ _ _ _ _ _ _ Htree) as (_ & _ & _ & Hdis & _ & Hpla & _).
  assert (a ≠ i ∧ a ≠ l ∧ ns1 !! a = nodes m !! a) as (Hai & Hal & Ha) by (apply link_old; do 2 right; rewrite fill_addrs; by left).
  rewrite <- (link_root k i l pb a x) at 1. eapply tree_store; [done|..].
  - by intros a' (_ & _ & ->)%link_ctx.
  - rewrite (leaf_at _ _ _ _ Htree) in Ha. assert (ns1 !! i = Some (root_node k0 T)) as Hi1 by (unfold ns1; by rewrite lookup_insert_ne, lookup_insert_eq).
    assert (ns1 !! l = Some (outer k0 (Some (k, pb)))) as Hl1 by (unfold ns1; by rewrite lookup_insert_eq). clearbody ns1.
    unfold link_tree in *. destruct x as [[k' b]|]; [case_decide|]; done.
  - rewrite link_addrs, !NoDup_cons, !not_elem_of_cons. split_and!; try done; auto using not_elem_of_nil. by apply NoDup_nil.
  - intros a' Ha'. rewrite link_addrs, !elem_of_cons in Ha'. destruct Ha' as [->|[->|[->|[]%elem_of_nil]]]; [by intros (? & ? & _)%link_ctx..|].
    apply Hdis. by left.
  - rewrite link_addrs. apply Forall_cons in Hpla as [? _]. by repeat (constructor; [done|]).
  - eapply ordered_fill; [done|apply Htree|by apply link_ordered|]. intros x'. rewrite link_leaves, !elem_of_cons.
    intros [->|[->|[]%elem_of_nil]]; [right; eauto|left; by left].
  - pose proof (ta_inf _ _ _ _ _ _ Htree) as Hinf. rewrite fill_leaves, ?link_leaves in *. set_solver.
Qed.
End link.

Lemma edge_null m c t w (ns : gmap Z node) : nodes m !! 0 = None → tree_at (nodes m) (fill c t) → ns !! 0 = None →
  alter (set_child (edge_of c).2 w) (edge_of c).1 ns !! 0 = None.
Proof.
  intros H0 Ht Hns. rewrite lookup_alter_ne; [done|]. intros He. assert (is_Some (nodes m !! 0)) as [n Hn]; [|congruence].
  rewrite <- He. eapply tree_some; [done|]. right. apply edge_addr.
Qed.
Lemma alter_some (ns : gmap Z node) a a' d w : is_Some (ns !! a) → is_Some (alter (set_child d w) a' ns !! a).
Proof. intros [n Hn]. destruct (decide (a' = a)) as [->|]; [rewrite lookup_alter_eq|rewrite lookup_alter_ne by done]; by rewrite Hn. Qed.

Lemma inv_link m c a x k v M sn i l pb : inv m (fill c (FLeaf a x)) M sn → onpath lt k c → (∀ b, x ≠ Some (k, b)) → new_nodes m i l pb →
  let T := link_tree k i l pb a x in
  inv (with_payloads (<[pb := live k v (epoch m)]> (payloads m))
    (with_nodes (alter (set_child (edge_of c).2 i) (edge_of c).1 (<[l := outer k0 (Some (k, pb))]> (<[i := root_node k0 T]> (nodes m)))) m))
    (fill c T) (<[k := v]> M) sn.
Proof.
  intros HI Hp Hx Hnew T. pose proof HI as [Hok Hnull Htree HP Hret]. pose proof (link_owned m a x k i l pb Hnew) as Hown. fold T in Hown.
  pose proof Hnew as [Hi Hl Hne [] [] Hpb]. assert (owned (nodes m) !! l = None) as Hol by (unfold owned; by rewrite lookup_omap, Hl).
  constructor; mem_fields; rewrite ?owned_alter; [done| |by apply tree_link| |].
  - apply (edge_null m c (FLeaf a x)); [done..|]. by rewrite !lookup_insert_ne.
  - rewrite Hown. eapply pinv_perm; [|eapply pinv_add; [exact HP|done|done|by eapply leaf_miss]]. unfold T. by rewrite !fill_leaves, link_leaves.
  - intros a' W (-> & Hr)%Hret. split; [done|]. pose proof Hr as (_ & [n Hn] & _). assert (a' ≠ i ∧ a' ≠ l) as [? ?] by (split; congruence).
    eapply released_keep; [exact Hr|..].
    + intros a2. unfold T. rewrite fill_addrs, link_addrs, fill_addrs, !elem_of_app, !elem_of_cons. simpl.
      intros [[->|[->|[->|[]%elem_of_nil]]]|]; [by right|by right|left; left; by left|left; by right].
    + apply alter_some. by rewrite !lookup_insert_ne.
    + by rewrite owned_alter, Hown, lookup_insert_ne.
    + intros b y e Hb He. rewrite lookup_insert_ne; [done|congruence].
Qed.

Lemma leaf_once c a k b b' : ordered lt (fill c (FLeaf a (Some (k, b)))) → Some (k, b') ∉ cleaves c.
Proof.
  intros Ho Hin. pose proof (ordered_unique lt _ Ho) as Hnd. rewrite fill_leaves in Hnd. apply NoDup_cons in Hnd as [Hk _]. apply Hk.
  apply list_elem_of_omap. by exists (Some (k, b')).
Qed.

(** The retired nodes when the thread has left its operation: those of before and [l] *)
Lemma leave_retired m (l : list Z) (R : gmap Z (gset nat)) a W :
  R = foldr (λ a, <[a := {[u]}]>) (retired m) l → (∀ a W, retired m !! a = Some W → W = ∅) →
  (λ X, X ∖ {[u]}) <$> R !! a = Some W → W = ∅ ∧ (a ∈ l ∨ retired m !! a = Some ∅).
Proof.
  intros -> Hm. induction l as [|a' l IH]; simpl.
  - intros (X & HX & ->)%fmap_Some. pose proof (Hm _ _ HX) as ->. split; [set_solver|by right].
  - destruct (decide (a = a')) as [->|Hne]; [rewrite lookup_insert_eq; simpl; intros [= <-]; split; [set_solver|left; by left]|].
    rewrite lookup_insert_ne by done. intros [-> [?|?]]%IH; (split; [done|]); [left; by right|by right].
Qed.

Lemma leaf_owned m c a k b : tree_at (nodes m) (fill c (FLeaf a (Some (k, b)))) → owned (nodes m) !! a = Some b.
Proof. intros Ht. unfold owned. by rewrite lookup_omap, (leaf_at _ _ _ _ Ht). Qed.
Lemma leaf_in c a x : a ∈ r :: s :: addrs (fill c (FLeaf a x)).
Proof. do 2 right. rewrite fill_addrs. by left. Qed.

(** Another leaf, or the subtree beside the leaf, takes the place of the leaf. *)
Lemma tree_replace m c a k x l pb : tree_at (nodes m) (fill c (FLeaf a (Some x))) → onpath lt k c → nodes m !! l = None → plain l →
  tree_at (alter (set_child (edge_of c).2 l) (edge_of c).1 (<[l := outer k0 (Some (k, pb))]> (nodes m))) (fill c (FLeaf l (Some (k, pb)))).
Proof.
  intros Htree Hp Hl Hpl. assert (∀ a', a' ∈ r :: s :: caddrs c → a' ≠ l) as Hctx.
  { intros a' Ha' ->. assert (is_Some (nodes m !! l)) as [n Hn]; [|congruence]. eapply tree_some; [done|].
    rewrite !elem_of_cons, fill_addrs, elem_of_app. rewrite !elem_of_cons in Ha'. tauto. }
  apply (tree_store lt k0 r s (nodes m) _ c (FLeaf a (Some x)) (FLeaf l (Some (k, pb)))); simpl.
  - done.
  - intros a' Ha'%Hctx. by rewrite lookup_insert_ne.
  - by rewrite lookup_insert_eq.
  - apply NoDup_singleton.
  - intros a' ->%list_elem_of_singleton Ha'. by apply (Hctx l).
  - by constructor.
  - eapply ordered_fill; [done|apply Htree|done|]. intros x' ->%list_elem_of_singleton. right. eauto.
  - pose proof (ta_inf _ _ _ _ _ _ Htree) as Hinf. rewrite fill_leaves in *. simpl in *. set_solver.
Qed.
Lemma tree_unlink m f c a x d1 w1 d2 w2 : tree_at (nodes m) (fill (f :: c) (FLeaf a (Some x))) → onpath lt (fst x) (f :: c) →
  tree_at (alter (set_child (edge_of c).2 (root (fs f))) (edge_of c).1 (alter (set_child d1 w1) (fa f) (alter (set_child d2 w2) (fa f) (nodes m))))
    (fill c (fs f)).
Proof.
  intros Htree [_ Hp]%Forall_cons. change (fill (f :: c) (FLeaf a (Some x))) with (fill c (plug f (FLeaf a (Some x)))) in Htree.
  destruct (tree_disjoint _ _ _ _ _ _ _ Htree) as (Hrs & Hnd & _ & Hdis & _ & Hpl & _).
  assert (addrs (plug f (FLeaf a (Some x))) ≡ₚ fa f :: a :: addrs (fs f)) as Haddr.
  { unfold plug. destruct (fd f); simpl; [done|]. constructor. by rewrite (Permutation_app_comm _ [a]). }
  rewrite Haddr in Hnd, Hpl. apply NoDup_cons in Hnd as [Hfa [Ha Hnd]%NoDup_cons].
  assert (∀ a', a' ≠ fa f → alter (set_child d1 w1) (fa f) (alter (set_child d2 w2) (fa f) (nodes m)) !! a' = nodes m !! a') as Hne.
  { intros a' Ha'. by rewrite !lookup_alter_ne. }
  pose proof (proj1 (fill_at _ _ c _) (ta_ft _ _ _ _ _ _ Htree)) as [Hat _].
  eapply tree_store; [exact Htree|..].
  - intros a' Ha'. apply Hne. intros ->. apply (Hdis (fa f)); [|done]. rewrite Haddr. by left.
  - eapply ft_frame; [|unfold plug in Hat; destruct (fd f); apply Hat]. intros a' Ha'. apply Hne. intros ->. apply Hfa. by right.
  - done.
  - intros a' Ha'. apply Hdis. rewrite Haddr. by do 2 right.
  - by apply Forall_cons in Hpl as [_ [_ ?]%Forall_cons].
  - pose proof (ta_ordered _ _ _ _ _ _ Htree) as Ho. eapply ordered_fill; [exact Hp|exact Ho| |].
    + apply ordered_in in Ho. unfold plug in Ho. by destruct (fd f); apply Ho.
    + intros x' Hx'. left. unfold plug. destruct (fd f); simpl; [by right|apply elem_of_app; by left].
  - pose proof (ta_inf _ _ _ _ _ _ Htree) as Hinf. rewrite fill_leaves in *. unfold plug in Hinf. destruct (fd f); simpl in Hinf; set_solver.
Qed.

Lemma inv_replace m c a k b v0 e0 v M sn i l pb : inv m (fill c (FLeaf a (Some (k, b)))) M sn → onpath lt k c → new_nodes m i l pb →
  payloads m !! b = Some (live k v0 e0) →
  inv (leave u (with_retired (<[a := {[u]}]> (retired m))
    (with_payloads (<[b := Payload k v0 (Some e0) (Some (epoch m))]> (<[pb := live k v (epoch m)]> (payloads m)))
    (with_nodes (alter (set_child (edge_of c).2 l) (edge_of c).1 (<[l := outer k0 (Some (k, pb))]> (nodes m))) m))))
    (fill c (FLeaf l (Some (k, pb)))) (<[k := v]> M) sn.
Proof.
  intros HI Hp Hnew Hb. pose proof HI as [Hok Hnull Htree HP Hret]. pose proof Hnew as [Hi Hl Hne _ Hpl Hpb].
  assert (owned (nodes m) !! l = None) as Hol by (unfold owned; by rewrite lookup_omap, Hl).
  assert (owned (<[l := outer k0 (Some (k, pb))]> (nodes m)) = <[l := pb]> (owned (nodes m))) as Hown by (by apply owned_leaf).
  destruct (tree_disjoint _ _ _ _ _ _ _ Htree) as (_ & _ & _ & Hdis & _).
  assert (a ≠ l) as Hal by (intros ->; pose proof (leaf_at _ _ _ _ Htree); congruence).
  assert (b ≠ pb) as Hbp by congruence. constructor; mem_fields; rewrite ?owned_alter; [done| |by eapply tree_replace| |].
  - apply (edge_null m c (FLeaf a (Some (k, b)))); [done..|]. rewrite lookup_insert_ne; [done|]. by destruct Hpl.
  - rewrite Hown, insert_insert_ne, <- (insert_delete_eq M) by done. eapply pinv_perm; [symmetry; apply fill_leaves|]. simpl.
    apply pinv_add; [|done|by rewrite lookup_insert_ne|apply lookup_delete_eq]. eapply pinv_del; [|done|].
    + eapply pinv_perm; [|exact HP]. by rewrite fill_leaves.
    + eapply leaf_once. apply Htree.
  - intros a' W. rewrite lookup_fmap. intros [-> Ha']%(leave_retired m [a]); [|done|by intros ? ? [? _]%Hret]. split; [done|].
    destruct Ha' as [->%list_elem_of_singleton|[_ Hr]%Hret].
    + split_and!.
      * intros Hin. rewrite !elem_of_cons, fill_addrs in Hin. apply (Hdis a); [by left|]. set_solver.
      * apply alter_some. rewrite lookup_insert_ne, (leaf_at _ _ _ _ Htree) by done. eauto.
      * intros b'. rewrite owned_alter, Hown, lookup_insert_ne, (leaf_owned _ _ _ _ _ Htree) by done. intros [= <-].
        rewrite lookup_insert_eq. eauto.
    + pose proof Hr as (_ & [n Hn] & _). assert (a' ≠ l) by congruence. eapply released_keep; [exact Hr|..].
      * intros a2. rewrite !fill_addrs, !elem_of_app. intros [->%list_elem_of_singleton|?]; [by right|left; by right].
      * apply alter_some. by rewrite lookup_insert_ne.
      * by rewrite owned_alter, Hown, lookup_insert_ne.
      * intros b' y e Hy He. rewrite !lookup_insert_ne; [done|congruence|]. intros ->. rewrite Hb in Hy. by injection Hy as <-.
Qed.

Lemma inv_unlink m f c a k b v e0 M sn d1 w1 d2 w2 : inv m (fill (f :: c) (FLeaf a (Some (k, b)))) M sn → onpath lt k (f :: c) →
  payloads m !! b = Some (live k v e0) →
  inv (leave u (with_retired (<[fa f := {[u]}]> (<[a := {[u]}]> (retired m)))
    (with_payloads (<[b := Payload k v (Some e0) (Some (epoch m))]> (payloads m))
    (with_nodes (alter (set_child (edge_of c).2 (root (fs f))) (edge_of c).1
      (alter (set_child d1 w1) (fa f) (alter (set_child d2 w2) (fa f) (nodes m)))) m))))
    (fill c (fs f)) (delete k M) sn.
Proof.
  intros HI Hp Hb. pose proof HI as [Hok Hnull Htree HP Hret].
  pose proof (tree_unlink m f c a (k, b) d1 w1 d2 w2 Htree Hp) as Htree'.
  assert (leaves (fill (f :: c) (FLeaf a (Some (k, b)))) ≡ₚ Some (k, b) :: leaves (fill c (fs f))) as Hlv.
  { rewrite !fill_leaves. done. }
  assert (addrs (fill (f :: c) (FLeaf a (Some (k, b)))) ≡ₚ fa f :: a :: addrs (fill c (fs f))) as Haddr.
  { rewrite !fill_addrs. change (caddrs (f :: c)) with (fa f :: addrs (fs f) ++ caddrs c). simpl. constructor. }
  pose proof (ta_nodup _ _ _ _ _ _ Htree) as Hnd. rewrite Haddr in Hnd.
  assert (∀ a', a' ∈ [fa f; a] → is_Some (nodes m !! a') ∧ a' ∉ r :: s :: addrs (fill c (fs f))) as Hcut.
  { intros a' Ha'. split.
    - eapply tree_some; [exact Htree|]. rewrite !elem_of_cons, Haddr, !elem_of_cons. rewrite !elem_of_cons, elem_of_nil in Ha'. tauto.
    - rewrite !NoDup_cons, !not_elem_of_cons in Hnd. rewrite !elem_of_cons, elem_of_nil in Ha'. rewrite !not_elem_of_cons. naive_solver. }
  assert (owned (nodes m) !! fa f = None) as Hof.
  { unfold owned. rewrite lookup_omap. destruct (proj1 (fill_at _ _ (f :: c) _) (ta_ft _ _ _ _ _ _ Htree)) as (_ & Hf & _).
    rewrite Hf. simpl. unfold frame_node. by destruct (fk f). }
  constructor; mem_fields; rewrite ?owned_alter; [done| |done| |].
  - apply (edge_null m c (plug f (FLeaf a (Some (k, b))))); [done|done|].
    assert (fa f ≠ 0) by (intros H0; destruct (Hcut (fa f) ltac:(by left)) as [[n Hn] _]; rewrite H0 in Hn; congruence).
    by rewrite !lookup_alter_ne.
  - eapply pinv_del; [|done|].
    + by eapply pinv_perm.
    + intros Hin. eapply (leaf_once (f :: c) a k b b); [apply Htree|]. by rewrite fill_leaves in Hin.
  - intros a' W. rewrite lookup_fmap. intros [-> Ha']%(leave_retired m [fa f; a]); [|done|by intros ? ? [? _]%Hret]. split; [done|].
    destruct Ha' as [Ha'|[_ Hr]%Hret].
    + destruct (Hcut _ Ha') as [Hs Hni]. split_and!; [done|by do 3 apply alter_some|]. intros b'. rewrite !owned_alter.
      apply elem_of_cons in Ha' as [->| ->%list_elem_of_singleton]; [by rewrite Hof|]. rewrite (leaf_owned _ _ _ _ _ Htree). intros [= <-].
      rewrite lookup_insert_eq. eauto.
    + pose proof Hr as (_ & Hs & _). eapply released_keep; [exact Hr|..].
      * intros a2 Ha2. left. rewrite Haddr. by do 2 right.
      * by do 3 apply alter_some.
      * by rewrite !owned_alter.
      * intros b' y e Hy He. rewrite lookup_insert_ne; [done|]. intros ->. rewrite Hb in Hy. by injection Hy as <-.
Qed.

(** ** The accesses of the operations, after the search *)

Lemma internal_link j a x pb : internal lt j a (outer k0 x) (Node inf2 0 0 k0 None) = root_node k0 (link_tree (okey (jop j)) (newInternal j) (newLeaf j) pb a x).
Proof.
  unfold internal, link_tree, root_node. destruct x as [[k' b]|]; [|done]. simpl. unfold nodeLess, max_key. simpl.
  case_decide as Hlt; [by rewrite bool_decide_true|by rewrite bool_decide_false].
Qed.

Lemma mem_same m m' : nodes m = nodes m' → payloads m = payloads m' → epoch m = epoch m' → retired m = retired m' → fault m = fault m' → m = m'.
Proof. destruct m, m'. by intros ; simplify_eq/=. Qed.

Lemma delete_fresh (ns : gmap Z node) i l e d w n n' : ns !! i = None → i ≠ l → i ≠ e →
  delete i (alter (set_child d w) e (<[l := n]> (<[i := n']> ns))) = alter (set_child d w) e (<[l := n]> ns).
Proof.
  intros Hi Hl He. apply map_eq. intros a'. destruct (decide (i = a')) as [<-|Hne].
  - by rewrite lookup_delete_eq, lookup_alter_ne, lookup_insert_ne by done.
  - rewrite lookup_delete_ne by done. destruct (decide (e = a')) as [->|]; [rewrite !lookup_alter_eq|rewrite !lookup_alter_ne by done];
      (destruct (decide (l = a')) as [->|]; [by rewrite !lookup_insert_eq|by rewrite !lookup_insert_ne]).
Qed.

Section steps.
Context (m : mem) (c : list (frame K)) (a : Z) (x : option (K * Z)) (i l pb : Z) (v : V).
Context (j : job) (Hi : newInternal j = i) (Hl : newLeaf j = l).
Notation k := (okey (jop j)).
Context (Htree : tree_at (nodes m) (fill c (FLeaf a x))) (Hp : onpath lt k c) (Hnew : new_nodes m i l pb).
Notation m1 := (alloc m i l k v pb).

Lemma alloc_old a' : is_Some (nodes m !! a') → nodes m1 !! a' = nodes m !! a'.
Proof using Hnew. intros [n Hn]. destruct Hnew. unfold alloc. mem_fields. by rewrite !lookup_insert_ne by congruence. Qed.
Lemma alloc_tree : tree_at (nodes m1) (fill c (FLeaf a x)).
Proof using All. eapply tree_frame; [|exact Htree]. intros a' Ha'. apply alloc_old. by eapply tree_some. Qed.
Lemma alloc_new : nodes m1 !! i = Some (Node inf2 0 0 k0 None) ∧ nodes m1 !! l = Some (outer k0 (Some (k, pb))).
Proof using Hnew. destruct Hnew. unfold alloc. mem_fields. by rewrite lookup_insert_ne, !lookup_insert_eq by congruence. Qed.

Lemma free_step q n : op_step m1 (OFree j q n true) = Some (m, OEnd n).
Proof using Hi Hl Hnew.
  destruct alloc_new as [H1 H2]. destruct Hnew. simpl. unfold at_node. rewrite Hi, H1. unfold delete_leaf, at_node, alloc. mem_fields.
  rewrite Hl, lookup_delete_ne, lookup_insert_eq by congruence. simpl. rewrite lookup_insert_eq. simpl.
  do 2 f_equal. apply mem_same; mem_fields; [| |done..].
  - by rewrite delete_insert_ne, !delete_insert_eq, (delete_id (nodes m) i), (delete_id (nodes m) l) by congruence.
  - by rewrite delete_insert_eq, delete_id.
Qed.

(** The leaf is still at its edge, and the edge is changed. *)
Lemma cas_edge (ns : gmap Z node) : ns !! (edge_of c).1 = nodes m !! (edge_of c).1 → ∃ n, ns !! (edge_of c).1 = Some n ∧ child n (edge_of c).2 = a.
Proof using Htree Hp. intros ->. destruct (edge_node _ _ _ _ _ _ _ _ Htree Hp) as (n & ? & ? & _). eauto. Qed.
Lemma edge_some : is_Some (nodes m !! (edge_of c).1) ∧ is_Some (nodes m !! a).
Proof using Htree Hp. destruct (edge_node _ _ _ _ _ _ _ _ Htree Hp) as (n & -> & _). by rewrite (leaf_at _ _ _ _ Htree). Qed.
Lemma commit_new (m2 : mem) e : nodes m2 !! l = Some (outer k0 (Some (k, pb))) → payloads m2 = <[pb := Payload k v None None]> (payloads m) →
  commit j e m2 = with_payloads (<[pb := live k v e]> (payloads m)) m2.
Proof using Hl. intros H1 H2. unfold commit. rewrite Hl, H1, H2. simpl. by rewrite alter_insert_eq. Qed.

Lemma link_steps :
  reach m1 (OSet j (seek_at c a) (edge_of c))
    (with_payloads (<[pb := live k v (epoch m)]> (payloads m))
      (with_nodes (alter (set_child (edge_of c).2 i) (edge_of c).1
        (<[l := outer k0 (Some (k, pb))]> (<[i := root_node k0 (link_tree k i l pb a x)]> (nodes m)))) m))
    (OEnd (linked_ret (jop j))) 3.
Proof using All.
  destruct alloc_new as [H1 H2]. destruct edge_some as [He Ha]. pose proof He as [ne Hne]. pose proof Ha as [na Hna]. pose proof Hnew as [Hin Hln Hil _ _ _].
  assert (∀ a', is_Some (nodes m !! a') → i ≠ a' ∧ l ≠ a') as Hold by (intros a' [n Hn]; split; congruence).
  set (T := link_tree k i l pb a x).
  assert (nodes (with_nodes (<[i := root_node k0 T]> (nodes m1)) m1) = <[l := outer k0 (Some (k, pb))]> (<[i := root_node k0 T]> (nodes m))) as Hns.
  { unfold alloc. mem_fields. by rewrite insert_insert_ne, insert_insert_eq by done. }
  eapply (reach_step _ _ _ _ _ _ (with_nodes (<[i := root_node k0 T]> (nodes m1)) m1) (OBegin j (seek_at c a) (edge_of c) i None)).
  { cbn [NatarajanTree.op_step]. unfold at_node. rewrite Hi, seek_leaf, alloc_old, Hna, H1 by done. rewrite (leaf_at _ _ _ _ Htree) in Hna. injection Hna as <-.
    rewrite (internal_link _ _ _ pb), Hi, Hl. reflexivity. }
  eapply reach_step; [reflexivity|]. eapply reach_step; [|apply reach_refl].
  destruct (cas_edge (nodes (with_nodes (<[i := root_node k0 T]> (nodes m1)) m1))) as (n & Hn & Hch).
  { rewrite Hns. destruct (Hold _ He). by rewrite !lookup_insert_ne. }
  cbn [NatarajanTree.op_step]. unfold at_edge, at_node. mem_fields in Hn. mem_fields in Hns. mem_fields. rewrite Hn, Hch, seek_leaf, !Z.eqb_refl. cbn [andb]. do 2 f_equal.
  rewrite commit_new; [apply mem_same; mem_fields; try done; by rewrite Hns| |done].
  mem_fields. destruct (Hold _ He). rewrite lookup_alter_ne, Hns, lookup_insert_eq by done. done.
Qed.

Lemma replace_steps b v0 e0 : payloads m !! b = Some (live k v0 e0) → e0 ≤ epoch m → retired m !! a = None →
  reach m1 (OBegin j (seek_at c a) (edge_of c) l (Some (b, v0)))
    (with_retired (<[a := {[u]}]> (retired m))
      (with_payloads (<[b := Payload k v0 (Some e0) (Some (epoch m))]> (<[pb := live k v (epoch m)]> (payloads m)))
      (with_nodes (alter (set_child (edge_of c).2 l) (edge_of c).1 (<[l := outer k0 (Some (k, pb))]> (nodes m))) m)))
    (OEnd (RVal (Some v0))) 4.
Proof using All.
  intros Hb Hle Hret. destruct alloc_new as [H1 H2]. destruct edge_some as [He Ha]. pose proof Hnew as [Hin Hln Hil _ _ Hpb].
  assert (∀ a', is_Some (nodes m !! a') → i ≠ a' ∧ l ≠ a') as Hold by (intros a' [n Hn]; split; congruence).
  assert (pb ≠ b) as Hbp by congruence. destruct (Hold _ He) as [Hie Hle']. destruct (cas_edge (nodes m1)) as (n & Hn & Hch); [by apply alloc_old|].
  eapply (reach_step _ _ _ _ _ _ m1 (OCas j (seek_at c a) (edge_of c) l (Some (b, v0)) (epoch m))).
  { cbn [NatarajanTree.op_step]. unfold at_payload. cbn [alloc payloads epoch with_payloads with_nodes]. rewrite lookup_insert_ne, Hb by done. simpl. by rewrite (proj2 (Z.leb_le _ _) Hle). }
  set (m2 := store m1 (edge_of c) l). set (m3 := with_payloads (<[pb := live k v (epoch m)]> (payloads m)) m2).
  assert (nodes m2 !! i = Some (Node inf2 0 0 k0 None)) as H1'.
  { unfold m2. mem_fields. by rewrite lookup_alter_ne. }
  eapply (reach_step _ _ _ _ _ _ (with_payloads (<[b := Payload k v0 (Some e0) (Some (epoch m))]> (payloads m3)) m3) (OFree j (seek_at c a) (RVal (Some v0)) false)).
  { cbn [NatarajanTree.op_step]. unfold at_edge, at_node. rewrite Hn, Hch, seek_leaf, !Z.eqb_refl. cbn [andb]. fold m2.
    rewrite commit_new; [|unfold m2; mem_fields; by rewrite lookup_alter_ne|done]. fold m3.
    unfold anti_node, at_payload. unfold m3 at 1. mem_fields. by rewrite lookup_insert_ne, Hb. }
  eapply reach_step.
  { cbn [NatarajanTree.op_step]. unfold at_node. rewrite Hi. unfold m3. mem_fields. rewrite H1'. by rewrite seek_leaf. }
  eapply reach_step; [|apply reach_refl]. cbn [NatarajanTree.op_step]. unfold retire_node, m3, m2, alloc. mem_fields. rewrite Hret. do 2 f_equal.
  apply mem_same; mem_fields; try done. by apply delete_fresh.
Qed.
End steps.

Section unlink.
Context (m : mem) (f : frame K) (c : list (frame K)) (a : Z) (b : Z) (v : V) (e0 : Z) (j : job).
Notation k := (okey (jop j)).
Context (Htree : tree_at (nodes m) (fill (f :: c) (FLeaf a (Some (k, b))))) (Hp : onpath lt k (f :: c)) (Hb : payloads m !! b = Some (live k v e0)).
Context (Hle : e0 ≤ epoch m) (Hnull : nodes m !! 0 = None) (Hj : newLeaf j = 0) (Hret : retired m !! a = None ∧ retired m !! fa f = None).

Notation q := (seek_at (f :: c) a).
Notation sibling := (fa f, negb (fd f)).
Notation j' := (Job (jop j) (newInternal j) (newLeaf j) (Some (a, v))).
(** After the flag, and after the tag *)
Let w1 : Z := mixPtrFlgTg a true false.
Let w2 : Z := mixPtrFlgTg (root (fs f)) false true.
Let m1 : mem := store m (fa f, fd f) w1.
Let m2 : mem := store m1 sibling w2.

Lemma child_set (n : node) d w : child (set_child d w n) d = w ∧ child (set_child d w n) (negb d) = child n (negb d).
Proof. by destruct d. Qed.
Lemma less_set (n : node) k' d w : nodeLess lt k' (set_child d w n) = nodeLess lt k' n.
Proof. by destruct d. Qed.

Lemma unlink_facts : plain a ∧ plain (root (fs f)) ∧ plain (fa f) ∧ a ≠ fa f ∧ (edge_of c).1 ≠ fa f ∧
  nodes m !! fa f = Some (frame_node k0 f a) ∧ nodeLess lt k (frame_node k0 f a) = fd f ∧
  ∃ n, nodes m !! (edge_of c).1 = Some n ∧ child n (edge_of c).2 = fa f ∧ nodeLess lt k n = (edge_of c).2.
Proof using Htree Hp Hret.
  pose proof Hp as [Hd Hp']%Forall_cons. destruct (edge_node _ _ _ _ _ _ _ _ Htree Hp) as (n & Hn & _ & Hl).
  pose proof (proj1 (fill_at _ _ (f :: c) _) (ta_ft _ _ _ _ _ _ Htree)) as (_ & Hf & _). simpl in Hn, Hl, Hf. rewrite Hf in Hn. injection Hn as <-.
  pose proof (ta_plain _ _ _ _ _ _ Htree) as Hpl. pose proof (ta_nodup _ _ _ _ _ _ Htree) as Hnd. rewrite Forall_forall in Hpl.
  assert (∀ a', a' = a ∨ a' = fa f ∨ a' = root (fs f) → plain a') as Hin.
  { intros a' Ha'. apply Hpl. rewrite fill_addrs. change (caddrs (f :: c)) with (fa f :: addrs (fs f) ++ caddrs c). simpl.
    rewrite !elem_of_cons, elem_of_app. destruct Ha' as [->|[->| ->]]; auto using root_addrs. }
  assert (fill (f :: c) (FLeaf a (Some (k, b))) = fill c (plug f (FLeaf a (Some (k, b))))) as Hfill by done.
  rewrite Hfill in Htree. destruct (edge_node _ _ _ _ _ _ _ _ Htree Hp') as (n & Hn & Hch & Hl').
  rewrite fill_addrs in Hnd. change (caddrs (f :: c)) with (fa f :: addrs (fs f) ++ caddrs c) in Hnd. simpl in Hnd.
  split_and!; [by apply Hin; auto..| | |done|done|].
  - intros ->. rewrite !NoDup_cons, !not_elem_of_cons in Hnd. tauto.
  - rewrite !NoDup_cons, !not_elem_of_cons in Hnd. destruct c as [|g c']; simpl; [tauto|].
    change (caddrs (g :: c')) with (fa g :: addrs (fs g) ++ caddrs c') in Hnd.
    rewrite !not_elem_of_app, !not_elem_of_cons in Hnd. apply not_eq_sym. tauto.
  - exists n. rewrite Hn, Hch. split; [done|]. split; [|done]. unfold plug. by destruct (fd f).
Qed.

Definition unlinked : mem :=
  with_retired (<[fa f := {[u]}]> (<[a := {[u]}]> (retired m)))
    (with_payloads (<[b := Payload k v (Some e0) (Some (epoch m))]> (payloads m))
      (with_nodes (alter (set_child (edge_of c).2 (root (fs f))) (edge_of c).1
        (alter (set_child (negb (fd f)) w2) (fa f) (alter (set_child (fd f) w1) (fa f) (nodes m)))) m)).

(** The flag, and [cleanup] up to its last compare-and-swap *)
Lemma unlink_flag : reach m (OFlag j q (fa f, fd f) v) m2 (CPayload j' q (edge_of c) w1 w2) 5.
Proof using All.
  destruct unlink_facts as ([Ha0 Ham] & [Hs0 Hsm] & _ & Haf & Hef & Hf & Hlf & n & Hn & Hch & Hln).
  assert (child (frame_node k0 f a) (fd f) = a ∧ child (frame_node k0 f a) (negb (fd f)) = root (fs f)) as [Hca Hcs].
  { unfold frame_node. by destruct f as [[] ? [] ?]. }
  destruct (child_set (frame_node k0 f a) (fd f) w1) as [Hc1 Hc2]. rewrite Hcs in Hc2.
  set (n1 := set_child (fd f) w1 (frame_node k0 f a)) in *.
  destruct (child_set n1 (negb (fd f)) w2) as [Hc3 Hc4]. rewrite negb_involutive in Hc4. set (n2 := set_child (negb (fd f)) w2 n1) in *.
  destruct (plain_mix a true false Ham) as (Hp1 & Hf1 & Ht1). fold w1 in Hp1, Hf1, Ht1. destruct (plain_ptr _ Hsm) as (Hp2 & Hf2 & Ht2).
  destruct (plain_mix (root (fs f)) false true Hsm) as (Hp3 & Hf3 & Ht3). fold w2 in Hp3, Hf3, Ht3.
  assert (nodes m1 !! fa f = Some n1) as H1 by (unfold m1; mem_fields; by rewrite lookup_alter_eq, Hf).
  assert (nodes m2 !! fa f = Some n2) as H2 by (unfold m2; mem_fields; by rewrite lookup_alter_eq, H1).
  assert (nodes m1 !! (edge_of c).1 = Some n) as H1e by (unfold m1; mem_fields; by rewrite lookup_alter_ne).
  assert (parent q = fa f ∧ ancestor q = (edge_of c).1) as [Hqp Hqa] by (by destruct c).
  eapply (reach_step _ _ _ _ _ _ m1 (CChild j' q)).
  { cbn [NatarajanTree.op_step]. unfold at_edge, at_node. cbn [fst snd]. by rewrite Hf, Hca, seek_leaf, Z.eqb_refl. }
  eapply (reach_step _ _ _ _ _ _ m1 (CRead j' q (edge_of c) sibling w1)).
  { cbn [NatarajanTree.op_step]. unfold at_node. rewrite Hqp, Hqa, H1e, H1. cbn [jop].
    assert (nodeLess lt k n1 = fd f) as -> by (unfold n1; by rewrite less_set). rewrite Hln, Hc1, Hf1. by destruct (edge_of c). }
  eapply (reach_step _ _ _ _ _ _ m1 (CTag j' q (edge_of c) sibling w1 (root (fs f)))).
  { cbn [NatarajanTree.op_step]. unfold at_edge, at_node. cbn [fst snd]. by rewrite H1, Hc2, Ht2. }
  eapply (reach_step _ _ _ _ _ _ m2 (CLast j' q (edge_of c) sibling w1)).
  { cbn [NatarajanTree.op_step]. unfold at_edge, at_node. cbn [fst snd]. by rewrite H1, Hc2, Z.eqb_refl, Hp2, Hf2. }
  eapply (reach_step _ _ _ _ _ _ m2); [|apply reach_refl].
  cbn [NatarajanTree.op_step]. unfold at_edge, at_node. cbn [fst snd]. by rewrite H2, Hc3.
Qed.

Lemma unlink_cut : reach m2 (CPayload j' q (edge_of c) w1 w2) unlinked (OEnd (RVal (Some v))) 5.
Proof using All.
  destruct unlink_facts as ([Ha0 Ham] & [Hs0 Hsm] & [Hf0 _] & Haf & Hef & Hf & Hlf & n & Hn & Hch & Hln).
  destruct (plain_mix a true false Ham) as (Hp1 & Hf1 & Ht1). fold w1 in Hp1, Hf1, Ht1. destruct (plain_mix (root (fs f)) false true Hsm) as (Hp3 & Hf3 & Ht3). fold w2 in Hp3, Hf3, Ht3.
  assert (∀ a', a' ≠ fa f → nodes m2 !! a' = nodes m !! a') as Hne by (intros; unfold m2, m1; mem_fields; by rewrite !lookup_alter_ne).
  assert (parent q = fa f ∧ successor q = fa f) as [Hqp Hqs] by (by destruct c).
  pose proof (leaf_at m (f :: c) a (Some (k, b)) Htree) as Hla.
  eapply (reach_step _ _ _ _ _ _ m2 (CBegin j' q (edge_of c) w1 w2 b)).
  { cbn [NatarajanTree.op_step]. unfold at_node. by rewrite Hp1, Hne, Hla. }
  eapply (reach_step _ _ _ _ _ _ m2 (CCas j' q (edge_of c) w1 w2 b (epoch m))).
  { cbn [NatarajanTree.op_step]. unfold at_payload. change (payloads m2) with (payloads m). rewrite Hb. simpl. by rewrite (proj2 (Z.leb_le _ _) Hle). }
  set (m3 := store m2 (edge_of c) (root (fs f))).
  eapply (reach_step _ _ _ _ _ _ (with_payloads (<[b := Payload k v (Some e0) (Some (epoch m))]> (payloads m)) m3) (CRetire j' q w1)).
  { cbn [NatarajanTree.op_step]. unfold at_edge, at_node. rewrite Hne, Hn, Hch, Hqs, Z.eqb_refl by done. change (epoch m2) with (epoch m).
    rewrite Z.eqb_refl. cbn [andb]. rewrite Hp3, Hf3, plain_mix0. fold m3.
    assert (commit j' (epoch m) m3 = m3) as ->.
    { unfold commit. cbn [newLeaf]. rewrite Hj. assert (nodes m3 !! 0 = None) as ->; [|done].
      unfold m3. mem_fields. rewrite lookup_alter_ne; [by rewrite Hne|]. intros H0. rewrite H0 in Hn. congruence. }
    unfold anti_node, at_payload. change (payloads m3) with (payloads m). by rewrite Hb. }
  eapply reach_step.
  { cbn [NatarajanTree.op_step]. unfold retire_node. rewrite Hp1. change (retired (with_payloads _ m3)) with (retired m). by rewrite (proj1 Hret). }
  eapply reach_step; [|apply reach_refl].
  cbn [NatarajanTree.op_step]. rewrite Hqs, Hqp, (proj2 (Z.eqb_neq _ _) Hf0), Z.eqb_refl. unfold retire_node. mem_fields.
  change (retired m3) with (retired m). by rewrite lookup_insert_ne, (proj2 Hret).
Qed.
End unlink.

(** ** Operations *)

(** From the root of the tree, with its new nodes, the operation reaches its end, answers by the map [M]
    and leaves the tree of the map that it makes of [M]. *)
Definition completes m j M sn : Prop :=
  ∃ m' t', reach m (SRoot j) m' (OEnd (answer (jop j) M).2) (14 + size M) ∧ inv (leave u m') t' (answer (jop j) M).1 sn.

Lemma tree_retired m t M sn a : inv m t M sn → a ∈ r :: s :: addrs t → retired m !! a = None.
Proof. intros HI Ha. apply eq_None_not_Some. intros [W HW]. by destruct (i_retired _ _ _ _ _ _ _ _ _ HI _ _ HW) as [_ [? _]]. Qed.

Lemma op_get m t M sn k : inv m t M sn → completes m (Job (Get k) 0 0 None) M sn.
Proof.
  intros HI. destruct (seek_reach lt k0 r s u m (Job (Get k) 0 0 None) t) as (c & a & x & -> & Hp & Hr); [apply HI|]. simpl in Hp.
  pose proof (inv_depth _ _ _ _ _ _ _ _ _ _ HI) as Hd. exists m, (fill c (FLeaf a x)). split; [|by apply inv_leave].
  eapply reach_weak; [eapply reach_trans; [exact Hr|]; eapply reach_step; [|apply reach_refl]|lia].
  destruct (found_step m (Job (Get k) 0 0 None) c a x) as [Hh Hm]; [apply HI|done..|]. simpl in *.
  destruct (leaf_cases k x) as [[b ->]|Hx].
  - destruct (leaf_hit _ _ _ _ _ _ _ HI) as (v & e & Hb & _ & ->). by rewrite (Hh _ _ eq_refl Hb).
  - by rewrite (Hm Hx), (leaf_miss _ _ _ _ _ _ _ HI Hp Hx).
Qed.

Lemma op_remove m t M sn k : inv m t M sn → completes m (Job (Remove k) 0 0 None) M sn.
Proof.
  intros HI. destruct (seek_reach lt k0 r s u m (Job (Remove k) 0 0 None) t) as (c & a & x & -> & Hp & Hr); [apply HI|]. simpl in Hp.
  pose proof (inv_depth _ _ _ _ _ _ _ _ _ _ HI) as Hd. pose proof (i_tree _ _ _ _ _ _ _ _ _ HI) as Htree.
  destruct (found_step m (Job (Remove k) 0 0 None) c a x) as [Hh Hm]; [done..|]. simpl in Hh, Hm.
  destruct (leaf_cases k x) as [[b ->]|Hx].
  - destruct (leaf_hit _ _ _ _ _ _ _ HI) as (v & e & Hb & He & Hk).
    destruct c as [|f c]; [by pose proof (ta_inf _ _ _ _ _ _ Htree) as [=]%list_elem_of_singleton|].
    assert (retired m !! a = None ∧ retired m !! fa f = None) as Hret.
    { split; (eapply tree_retired; [exact HI|]); [apply leaf_in|]. right. apply (edge_addr s (f :: c)). }
    exists (unlinked m f c a b v e (Job (Remove k) 0 0 None)), (fill c (fs f)). simpl. rewrite Hk. split; [|exact (inv_unlink _ _ _ _ _ _ _ _ _ _ _ _ _ _ HI Hp Hb)].
    eapply reach_weak; [eapply reach_trans; [exact Hr|]; eapply reach_step; [by apply Hh|]|].
    + eapply reach_trans; [apply (unlink_flag m f c a b v e (Job (Remove k) 0 0 None))|apply (unlink_cut m f c a b v e (Job (Remove k) 0 0 None))]; try done; apply HI.
    + simpl in *. lia.
  - pose proof (leaf_miss _ _ _ _ _ _ _ HI Hp Hx) as Hk. exists m, (fill c (FLeaf a x)). simpl. rewrite Hk, delete_id by done. split; [|by apply inv_leave].
    eapply reach_weak; [eapply reach_trans; [exact Hr|]; eapply reach_step; [by apply Hm|apply reach_refl]|lia].
Qed.

(** An operation that brings new nodes, and has found its key or not *)
Section write.
Context (m : mem) (t : ft K) (M : gmap K V) (sn : list (gmap K V)) (o : op) (i l pb : Z) (v : V).
Context (HI : inv m t M sn) (Hnew : new_nodes m i l pb) (Ho : oval o = Some v).
Notation k := (okey o).
Notation j := (Job o i l None).
Notation m1 := (alloc m i l k v pb).

Lemma write_found : ∃ c a (x : option (K * Z)), t = fill c (FLeaf a x) ∧ onpath lt k c ∧ (length c ≤ size M)%nat ∧
  reach m1 (SRoot j) m1 (OFound j (seek_at c a)) (3 + length c) ∧ tree_at (nodes m1) (fill c (FLeaf a x)).
Proof using All.
  pose proof (i_tree _ _ _ _ _ _ _ _ _ HI) as Htree.
  assert (tree_at (nodes m1) t) as Htree1.
  { eapply tree_frame; [|exact Htree]. intros a Ha. apply (alloc_old m i l pb v j Hnew). by eapply tree_some. }
  destruct (seek_reach lt k0 r s u m1 j t Htree1) as (c & a & x & -> & Hp & Hr). exists c, a, x. split_and!; try done. by eapply inv_depth.
Qed.

Lemma alloc_payload b y : payloads m !! b = Some y → payloads m1 !! b = Some y.
Proof using Hnew. intros Hb. destruct Hnew. unfold alloc. mem_fields. rewrite lookup_insert_ne; [done|congruence]. Qed.

(** The key is not there: [put] and [insert] link the new nodes. *)
Lemma write_miss c a x : t = fill c (FLeaf a x) → onpath lt k c → (∀ b, x ≠ Some (k, b)) →
  ∃ m' t', reach m1 (OSet j (seek_at c a) (edge_of c)) m' (OEnd (linked_ret o)) 3 ∧ inv (leave u m') t' (<[k := v]> M) sn.
Proof using HI Hnew StrictOrder0 Trichotomy0.
  intros -> Hp Hx. eexists _, _. split.
  - apply (link_steps m c a x i l pb v j); try done. apply HI.
  - apply inv_leave; [exact _..|]. eapply inv_link; [exact HI|done..].
Qed.
End write.

Lemma op_insert m t M sn k v i l pb : inv m t M sn → new_nodes m i l pb →
  completes (alloc m i l k v pb) (Job (Insert k v) i l None) M sn.
Proof.
  intros HI Hnew. destruct (write_found m t M sn (Insert k v) i l pb v HI Hnew eq_refl) as (c & a & x & -> & Hp & Hd & Hr & Htree).
  destruct (found_step _ (Job (Insert k v) i l None) c a x Htree) as [Hh Hm]; [done..|]. unfold completes. simpl in *.
  destruct (leaf_cases k x) as [[b ->]|Hx].
  - destruct (leaf_hit _ _ _ _ _ _ _ HI) as (v0 & e & Hb & _ & ->). exists m, (fill c (FLeaf a (Some (k, b)))). split; [|by apply inv_leave].
    eapply reach_weak; [eapply reach_trans; [exact Hr|]; eapply reach_step; [eapply Hh; [done|by apply (alloc_payload m (Insert k v) i l pb v)]|]|].
    + eapply reach_step; [|apply reach_refl]. by apply (free_step m i l pb v (Job (Insert k v) i l None)).
    + lia.
  - rewrite (leaf_miss _ _ _ _ _ _ _ HI Hp Hx).
    destruct (write_miss _ _ _ _ (Insert k v) i l pb v HI Hnew c a x eq_refl Hp Hx) as (m' & t' & Hr' & HI').
    exists m', t'. split; [|done]. eapply reach_weak; [eapply reach_trans; [exact Hr|]; eapply reach_step; [by apply Hm|exact Hr']|lia].
Qed.
Lemma op_put m t M sn k v i l pb : inv m t M sn → new_nodes m i l pb →
  completes (alloc m i l k v pb) (Job (Put k v) i l None) M sn.
Proof.
  intros HI Hnew. destruct (write_found m t M sn (Put k v) i l pb v HI Hnew eq_refl) as (c & a & x & -> & Hp & Hd & Hr & Htree).
  destruct (found_step _ (Job (Put k v) i l None) c a x Htree) as [Hh Hm]; [done..|]. unfold completes. simpl in *.
  destruct (leaf_cases k x) as [[b ->]|Hx].
  - destruct (leaf_hit _ _ _ _ _ _ _ HI) as (v0 & e & Hb & He & ->).
    eexists _, _. split; [|by eapply inv_replace].
    eapply reach_weak; [eapply reach_trans; [exact Hr|]; eapply reach_step; [eapply Hh; [done|by apply (alloc_payload m (Put k v) i l pb v)]|]|].
    + apply (replace_steps m c a (Some (k, b)) i l pb v (Job (Put k v) i l None)); try done; [apply HI|]. eapply tree_retired; [exact HI|]. apply leaf_in.
    + lia.
  - rewrite (leaf_miss _ _ _ _ _ _ _ HI Hp Hx).
    destruct (write_miss _ _ _ _ (Put k v) i l pb v HI Hnew c a x eq_refl Hp Hx) as (m' & t' & Hr' & HI').
    exists m', t'. split; [|done]. eapply reach_weak; [eapply reach_trans; [exact Hr|]; eapply reach_step; [by apply Hm|exact Hr']|lia].
Qed.
End ops.
End NatarajanOps.
