(* ===== verification/NatarajanSeq.v ===== *)
(** * The search tree used by one thread at a time

    Histories of whole operations, epoch advances and destructions, by any threads but
    one after the other, refine a finite map, and what a crash leaves is the map of two
    epochs ago.  Two runs with two threads show what goes wrong when operations overlap. *)

From S2P Require Import Prelude HashTable LfHashTable LfTableInv NatarajanTree NatarajanShape NatarajanSeek NatarajanInv NatarajanOps.
Import LfHashTable(payload, Payload, pkey, pval, ep, retire, op(..), ret(..), ev(..), okey, oval).
Import LfTableInv(surv). Import NatarajanTree NatarajanShape NatarajanSeek NatarajanInv NatarajanOps.

Module NatarajanSeq.

(** ** Histories *)

Inductive task {K V : Type} : Type :=
  | Do (t : nat) (o : op K V) (i l b : Z)  (** an operation of the thread [t], with the addresses that the allocators give it *)
  | Pass  (** the epoch advances *)
  | Free (a : Z).  (** the tracker destructs a retired node *)
Arguments task K V : clear implicits.

Section seq.
Context {K V : Type} `{!EqDecision K, !Countable K} (lt : K → K → Prop) `{!RelDecision lt, !StrictOrder lt, !Trichotomy lt}.
Context (k0 : K) (r s : Z).
Notation mem := (mem K V).
Notation pc := (pc K V).
Notation op := (op K V).
Notation ev := (ev K V).
Notation sys := (sys K V).
Notation task := (task K V).
Notation step := (step lt k0 r s).
Notation run := (run lt k0 r s).
Notation op_step := (op_step lt r s).
Implicit Types (m : mem) (x : pc) (o : op) (S : sys) (w : task) (ws : list task) (M : gmap K V) (sn : list (gmap K V)).

(** The thread [t] goes on, with at most [N] accesses, until its operation returns. *)
Fixpoint finish (N t : nat) S : option (sys * list ev) :=
  match pcs S !! t, N with
  | Some Idle, _ => Some (S, [])
  | _, O => None
  | _, Datatypes.S N => '(S1, e1) ← step S (Th t Go); '(S2, e2) ← finish N t S1; Some (S2, e1 ++ e2)
  end.
Definition begin_op (t : nat) o (i l b : Z) : list (sact K V) :=
  Th t (Call o) :: match oval o with Some _ => [Th t (New i 0); Th t (New l b)] | None => [] end.
Definition perform (N : nat) S w : option (sys * list ev) :=
  match w with
  | Do t o i l b => '(S1, e1) ← run S (begin_op t o i l b); '(S2, e2) ← finish N t S1; Some (S2, e1 ++ e2)
  | Pass => step S Advance
  | Free a => step S (Destruct a)
  end.
Fixpoint perform_all (N : nat) S ws : option (sys * list ev) :=
  match ws with
  | [] => Some (S, [])
  | w :: ws' => '(S1, e1) ← perform N S w; '(S2, e2) ← perform_all N S1 ws'; Some (S2, e1 ++ e2)
  end.

(** Nodes are destructed two epochs after their payload was retired. *)
Definition patient_task S w : bool :=
  match w with
  | Free a =>
      match nodes (mm S) !! a with
      | Some (Node _ _ _ _ (Some b)) =>
          match payloads (mm S) !! b with Some (Payload _ _ _ (Some e)) => e <=? epoch (mm S) - 2 | _ => true end
      | _ => true
      end
  | _ => true
  end.
Fixpoint patient (N : nat) S ws : bool :=
  match ws with
  | [] => true
  | w :: ws' => patient_task S w && match perform N S w with Some (S1, _) => patient N S1 ws' | None => true end
  end.

(** ** Specification: the final map, the maps at the ends of the earlier epochs, and the events *)

Fixpoint expected ws M sn : gmap K V * list (gmap K V) * list ev :=
  match ws with
  | [] => (M, sn, [])
  | Do t o _ _ _ :: ws' =>
      let '(M', sn', evs) := expected ws' (answer o M).1 sn in (M', sn', ECall t o :: ERet t (answer o M).2 :: evs)
  | Pass :: ws' => expected ws' M (M :: sn)
  | Free _ :: ws' => expected ws' M sn
  end.
Definition supported w : bool := match w with Do _ o _ _ _ => implemented o | _ => true end.

(** ** One operation *)

Notation others n := (replicate n (@Idle K V)).

Lemma operating_one n t x : (t < n)%nat → in_op x = true → operating (<[t := x]> (others n)) = {[t]}.
Proof.
  intros Ht Hx. unfold operating. rewrite length_insert, length_replicate. apply set_eq. intros u.
  rewrite elem_of_list_to_set, list_elem_of_filter, elem_of_seq, elem_of_singleton. split.
  - intros [Hu [_ Hl]]. destruct (decide (u = t)) as [->|Hne]; [done|]. rewrite list_lookup_insert_ne in Hu by done. by rewrite lookup_replicate_2 in Hu by lia.
  - intros ->. rewrite list_lookup_insert_eq by (by rewrite length_replicate). simpl. rewrite Hx. split; [done|lia].
Qed.
Lemma op_step_go ops m t x m' x' : op_step ops m x = Some (m', x') →
  in_op x = true ∧ thread_step lt k0 r s ops m t x Go = Some (m', x', []) ∧ x ≠ Idle.
Proof. intros Hs. destruct x; first [discriminate Hs|cbn [thread_step in_op]; by rewrite Hs]. Qed.

Lemma finish_idle n t N m : (t < n)%nat → finish N t (Sys m (<[t := Idle]> (others n))) = Some (Sys m (others n), []).
Proof. intros Ht. rewrite insert_replicate. destruct N; simpl; by rewrite lookup_replicate_2. Qed.
Lemma finish_succ N t S q : pcs S !! t = Some q → q ≠ Idle →
  finish (Datatypes.S N) t S = ('(S1, e1) ← step S (Th t Go); '(S2, e2) ← finish N t S1; Some (S2, e1 ++ e2)).
Proof. intros Hq Hni. cbn [finish]. rewrite Hq. by destruct q. Qed.
Lemma finish_goes n t N m x m' v : (t < n)%nat → goes lt r s t N m x = Some (m', OEnd v) →
  finish (Datatypes.S N) t (Sys m (<[t := x]> (others n))) = Some (Sys (leave t m') (others n), [ERet t v]).
Proof.
  intros Ht. assert (∀ x, <[t := x]> (others n) !! t = Some x) as Hl by (intros; apply list_lookup_insert_eq; by rewrite length_replicate).
  revert m x. induction N as [|N IH]; intros m x Hg.
  - injection Hg as -> ->. rewrite (finish_succ _ _ _ (OEnd v)) by first [apply Hl|done]. simpl. rewrite Hl. simpl.
    by rewrite list_insert_insert_eq, insert_replicate, lookup_replicate_2.
  - cbn [goes] in Hg. apply bind_Some in Hg as ([m1 x1] & Hs & Hg). destruct (op_step_go _ _ t _ _ _ Hs) as (Hx & Hst & Hni).
    specialize (IH _ _ Hg). assert (step (Sys m (<[t := x]> (others n))) (Th t Go) = Some (Sys m1 (<[t := x1]> (others n)), [])) as Hstep.
    { simpl. rewrite Hl. simpl. rewrite operating_one, Hst by done. simpl. by rewrite list_insert_insert_eq. }
    rewrite (finish_succ _ _ _ x) by first [apply Hl|done]. rewrite Hstep. cbn [mbind option_bind]. by rewrite IH.
Qed.
Lemma finish_mono N N' t S X : finish N t S = Some X → (N ≤ N')%nat → finish N' t S = Some X.
Proof.
  revert N' S X. induction N as [|N IH]; intros N' S X; cbn [finish].
  - destruct (pcs S !! t) as [q|] eqn:Hq; [|done]. destruct q; try done. intros [= <-] _. destruct N'; cbn [finish]; by rewrite Hq.
  - intros Hf HN. destruct N' as [|N']; [lia|]. cbn [finish].
    assert (∀ X, ('(S1, e1) ← step S (Th t Go); '(S2, e2) ← finish N t S1; Some (S2, e1 ++ e2)) = Some X →
      ('(S1, e1) ← step S (Th t Go); '(S2, e2) ← finish N' t S1; Some (S2, e1 ++ e2)) = Some X) as Hgo.
    { intros X' Hb. apply bind_Some in Hb as ([S1 e1] & -> & Hb). apply bind_Some in Hb as ([S2 e2] & Hb & <-). simpl.
      by rewrite (IH N' _ _ Hb) by lia. }
    destruct (pcs S !! t) as [[]|]; by first [exact Hf|apply Hgo].
Qed.
Lemma finish_det N N' t S X Y : finish N t S = Some X → finish N' t S = Some Y → X = Y.
Proof.
  intros HX HY. destruct (le_ge_dec N N') as [Hle|Hge].
  - apply (finish_mono _ _ _ _ _ HX) in Hle. congruence.
  - apply (finish_mono _ _ _ _ _ HY) in Hge. congruence.
Qed.

Definition allocatable m o (i l b : Z) : bool :=
  match oval o with
  | Some _ => fresh_node m i && fresh_node (with_nodes (<[i := Node inf2 0 0 k0 None]> (nodes m)) m) l && bool_decide (b ≠ 0 ∧ payloads m !! b = None)
  | None => true
  end.
(** The memory and the operation when the new nodes have been allocated *)
Definition started m o (i l b : Z) : mem * job K V :=
  match oval o with Some v => (alloc k0 m i l (okey o) v b, Job o i l None) | None => (m, Job o 0 0 None) end.

Lemma begin_run n m t o i l b : implemented o = true → (t < n)%nat → allocatable m o i l b = true →
  run (Sys m (others n)) (begin_op t o i l b) =
  Some (Sys (started m o i l b).1 (<[t := OStart (started m o i l b).2]> (others n)), [ECall t o]).
Proof.
  intros Ho Ht Ha. assert (∀ x, <[t := x]> (others n) !! t = Some x) as Hl by (intros; apply list_lookup_insert_eq; by rewrite length_replicate).
  unfold begin_op, started, allocatable in *. destruct o as [k|k v|k v|k|k v]; simpl in *; try done; rewrite lookup_replicate_2 by done; simpl.
  1,4: done.
  all: rewrite Hl; simpl; apply andb_prop in Ha as [[Hi Hll]%andb_prop Hb]; rewrite Hi; simpl; rewrite list_insert_insert_eq, Hl; simpl; rewrite Hll, Hb; simpl.
  all: by rewrite list_insert_insert_eq.
Qed.
Lemma begin_inv n m t o i l b X : implemented o = true → run (Sys m (others n)) (begin_op t o i l b) = Some X →
  (t < n)%nat ∧ allocatable m o i l b = true.
Proof.
  intros Ho Hr. unfold begin_op, allocatable in *. destruct (decide (t < n)%nat) as [Ht|Ht]; [split; [done|]|].
  - assert (∀ x, <[t := x]> (others n) !! t = Some x) as Hl by (intros; apply list_lookup_insert_eq; by rewrite length_replicate).
    destruct o as [k|k v|k v|k|k v]; simpl in *; try done; rewrite lookup_replicate_2 in Hr by done; simpl in Hr; rewrite Hl in Hr; simpl in Hr.
    all: destruct (fresh_node m i); [|done]; simpl in Hr; rewrite list_insert_insert_eq, Hl in Hr; simpl in Hr.
    all: by destruct (fresh_node _ l), (bool_decide _).
  - exfalso. assert (others n !! t = None) as Hn by (apply lookup_ge_None; rewrite length_replicate; lia).
    destruct o; simpl in Hr; by rewrite Hn in Hr.
Qed.

Notation inv := (inv lt k0 r s).

Lemma allocatable_new m o i l b v : oval o = Some v → allocatable m o i l b = true → new_nodes m i l b.
Proof.
  unfold allocatable. intros -> [[(Hi & Hi2 & Hi3)%bool_decide_eq_true (Hl & Hl2 & Hl3)%bool_decide_eq_true]%andb_prop [Hb Hb2]%bool_decide_eq_true]%andb_prop.
  simpl in Hl3. apply lookup_insert_None in Hl3 as [Hl3 Hne]. by constructor; [| | |split; [lia|]..|].
Qed.

(** Alone, an operation returns after at most as many accesses as there are keys, and sixteen more. *)
Lemma perform_op pat n m tr M sn t o i l b : inv pat m tr M sn → implemented o = true → (t < n)%nat → allocatable m o i l b = true →
  ∃ m' tr', perform (size M + 16) (Sys m (others n)) (Do t o i l b) = Some (Sys m' (others n), [ECall t o; ERet t (answer o M).2]) ∧
    inv pat m' tr' (answer o M).1 sn.
Proof.
  intros HI Ho Ht Ha. assert (completes lt k0 r s t pat (started m o i l b).1 (started m o i l b).2 M sn ∧ jop (started m o i l b).2 = o) as [Hc Hj].
  { pose proof (λ v Hv, allocatable_new m o i l b v Hv Ha) as Hnew. unfold started.
    destruct o as [k|k v|k v|k|k v]; simpl in *; [..|done]; (split; [|done]).
    - by eapply op_get.
    - eapply (op_put lt); [exact HI|by apply (Hnew v)].
    - eapply (op_insert lt); [exact HI|by apply (Hnew v)].
    - by eapply op_remove. }
  destruct Hc as (m' & tr' & (N & HN & Hg) & HI'). rewrite Hj in Hg, HI'. exists (leave t m'), tr'. split; [|done].
  cbn [perform]. rewrite begin_run by done. cbn [mbind option_bind]. destruct (started m o i l b) as [m1 j]. simpl in Hg |- *.
  assert (finish (size M + 16) t (Sys m1 (<[t := OStart j]> (others n))) = Some (Sys (leave t m') (others n), [ERet t (answer o M).2])) as ->; [|done].
  apply (finish_mono (Datatypes.S (Datatypes.S N))); [|lia].
  assert (∀ x, <[t := x]> (others n) !! t = Some x) as Hl by (intros; apply list_lookup_insert_eq; by rewrite length_replicate).
  rewrite (finish_succ _ _ _ (OStart j)) by first [apply Hl|done]. simpl step. rewrite Hl. cbn [thread_step mbind option_bind mm].
  by rewrite list_insert_insert_eq, (finish_goes _ _ _ _ _ _ _ Ht Hg).
Qed.

(** ** Histories *)

Lemma expected_cons w ws M sn : expected (w :: ws) M sn =
  let '(M1, sn1, e1) := expected [w] M sn in let '(M2, sn2, e2) := expected ws M1 sn1 in (M2, sn2, e1 ++ e2).
Proof. destruct w; simpl; by destruct (expected ws _ _) as [[? ?] ?]. Qed.

Lemma perform_sim pat N n m tr M sn w S evs : inv pat m tr M sn → supported w = true → (pat = true → patient_task (Sys m (others n)) w = true) →
  perform N (Sys m (others n)) w = Some (S, evs) →
  let '(M', sn', evs') := expected [w] M sn in ∃ m' tr', S = Sys m' (others n) ∧ evs = evs' ∧ inv pat m' tr' M' sn'.
Proof.
  intros HI Ho Hpat Hp. destruct w as [t o i l b| |a]; simpl in Ho; cbn [expected].
  - pose proof Hp as Hp'. cbn [perform] in Hp. apply bind_Some in Hp as ([S1 e1] & Hr & Hf).
    destruct (begin_inv _ _ _ _ _ _ _ _ Ho Hr) as [Ht Ha].
    destruct (perform_op pat n m tr M sn t o i l b HI Ho Ht Ha) as (m' & tr' & Hq & HI'). exists m', tr'.
    cbn [perform] in Hq. rewrite Hr in Hq. cbn [mbind option_bind] in Hq. apply bind_Some in Hf as ([S2 e2] & Hf & [= <- <-]).
    apply bind_Some in Hq as ([S3 e3] & Hq & [= -> <-]). by injection (finish_det _ _ _ _ _ _ Hf Hq) as -> ->.
  - simpl in Hp. simplify_eq. eexists _, _. split_and!; [done..|]. by apply inv_advance.
  - simpl in Hp. destruct (retired m !! a) as [W|] eqn:HW; [|done]. case_bool_decide; [|done]. simplify_eq. eexists _, _. split_and!; [done..|].
    eapply inv_destruct; [exact HI|exact HW|]. intros Hpt b y e Hown Hb He. specialize (Hpat Hpt). simpl in Hpat.
    unfold owned in Hown. rewrite lookup_omap in Hown. destruct (nodes m !! a) as [[lv ln rn kn [b'|]]|]; simplify_eq/=.
    rewrite Hb in Hpat. destruct y as [k v ey ry]. simpl in He. subst ry. by apply Z.leb_le.
Qed.
Lemma perform_all_sim pat N n ws : ∀ m tr M sn S evs, inv pat m tr M sn → forallb supported ws = true →
  (pat = true → patient N (Sys m (others n)) ws = true) → perform_all N (Sys m (others n)) ws = Some (S, evs) →
  let '(M', sn', evs') := expected ws M sn in ∃ m' tr', S = Sys m' (others n) ∧ evs = evs' ∧ inv pat m' tr' M' sn'.
Proof.
  induction ws as [|w ws IH]; intros m tr M sn S evs HI Ho Hpat Hp.
  - simpl in *. simplify_eq. by exists m, tr.
  - apply andb_prop in Ho as [Ho Hos]. cbn [perform_all] in Hp. apply bind_Some in Hp as ([S1 e1] & H1 & Hp). apply bind_Some in Hp as ([S2 e2] & H2 & [= <- <-]).
    cbn [patient] in Hpat. rewrite H1 in Hpat. rewrite expected_cons. assert (pat = true → patient_task (Sys m (others n)) w = true ∧ patient N S1 ws = true) as Hpat'.
    { intros Hpt. by apply andb_prop, Hpat. }
    pose proof (perform_sim pat N n m tr M sn w S1 e1 HI Ho (λ H, proj1 (Hpat' H)) H1) as Hs. destruct (expected [w] M sn) as [[M1 sn1] e1'].
    destruct Hs as (m1 & tr1 & -> & -> & HI1). pose proof (IH _ _ _ _ _ _ HI1 Hos (λ H, proj2 (Hpat' H)) H2) as Hs.
    destruct (expected ws M1 sn1) as [[M2 sn2] e2']. destruct Hs as (m2 & tr2 & -> & -> & HI2). by exists m2, tr2.
Qed.

Lemma inv_new pat a2 a1 a0 e n : NoDup [r; s; a2; a1; a0] → Forall plain [r; s; a2; a1; a0] →
  inv pat (mm (new_tree (V := V) k0 r s a2 a1 a0 e n)) (FLeaf a0 None) ∅ [].
Proof.
  intros Hnd Hpl. rewrite !NoDup_cons, !not_elem_of_cons in Hnd. rewrite !Forall_cons in Hpl. unfold new_tree. simpl.
  assert (∀ c, gen_rep (surv c (∅ : gmap Z (payload K V))) ∅) as Hg.
  { intros c. unfold surv. rewrite omap_empty. apply gen_rep_empty. }
  assert (∀ (ns : gmap Z (node K)) a b, owned ns !! a = Some b → ∃ nd, ns !! a = Some nd ∧ npayload nd = Some b) as Hown.
  { intros ns a b Hb. unfold owned in Hb. rewrite lookup_omap in Hb. by apply bind_Some in Hb. }
  constructor; simpl; [done| | | |done].
  - unfold plain in Hpl. rewrite !lookup_insert_ne, lookup_singleton_ne by tauto. done.
  - constructor; simpl.
    + exists a2. by rewrite lookup_insert_eq.
    + exists a1. by rewrite lookup_insert_ne, lookup_insert_eq by tauto.
    + by rewrite !lookup_insert_ne, lookup_singleton_eq by tauto.
    + rewrite !NoDup_cons, !not_elem_of_cons. tauto.
    + constructor; [tauto|constructor].
    + done.
    + by left.
  - constructor; [done| | |by split].
    + intros k b ?%list_elem_of_singleton. done.
    + intros a b (nd & Hnd' & Hb)%Hown. exfalso. repeat (apply lookup_insert_Some in Hnd' as [[<- <-]|[_ Hnd']]; [done|]).
      by apply lookup_singleton_Some in Hnd' as [<- <-].
Qed.
End seq.
End NatarajanSeq.
Import NatarajanSeq.


Module Example.
Notation tree := (new_tree (K := Z) (V := Z) 0 1024 1040 1056 1072 1088 5 2).
Notation runT := (run (V := Z) Z.lt 0 1024 1040).
Notation go t k := (replicate k (Th t Go)).
#[local] Instance z_lt_strict : StrictOrder Z.lt := Z.lt_strorder.
#[local] Instance z_lt_total : Trichotomy Z.lt.
Proof. intros x y. lia. Qed.

(** Two threads by turns: bindings are inserted, replaced, found and removed, the tree grows and shrinks to one leaf, nodes are destructed
    and their addresses used again, and the epoch advances. *)
Definition history : list (task Z Z) :=
  [Do 0 (Insert 20 200) 16 32 1; Do 1 (Insert 10 100) 48 64 2; Do 0 (Put 30 300) 80 96 3; Pass; Do 1 (Put 10 101) 112 128 4;
   Do 0 (Insert 20 201) 112 144 5; Do 1 (Remove 20) 0 0 0; Do 0 (Get 20) 0 0 0; Do 1 (Get 10) 0 0 0; Pass; Pass;
   Free 32; Free 64; Do 0 (Insert 5 50) 32 64 5; Do 1 (Remove 10) 0 0 0; Do 0 (Remove 30) 0 0 0; Do 0 (Remove 5) 0 0 0; Do 1 (Remove 5) 0 0 0].

(** The history is patient, and the map that a crash leaves at its end is not empty. *)
Lemma nt_history_durable : patient Z.lt 0 1024 1040 30 tree history = true ∧
  ∃ S evs, perform_all Z.lt 0 1024 1040 30 tree history = Some (S, evs) ∧
    surv (epoch (mm S) - 2) (payloads (mm S)) = {[3 := (30, 300); 4 := (10, 101)]}.
Proof. split; [vm_compute; reflexivity|]. vm_compute. do 2 eexists. split; reflexivity. Qed.

(** ** Overlapping operations *)

Definition three : list (sact Z Z) :=
  [Th 0 (Call (Insert 10 100)); Th 0 (New 16 0); Th 0 (New 32 1)] ++ go 0 9 ++ [Th 0 (Call (Insert 20 200)); Th 0 (New 48 0); Th 0 (New 64 2)] ++ go 0 10 ++
  [Th 0 (Call (Insert 30 300)); Th 0 (New 80 0); Th 0 (New 96 3)] ++ go 0 11.
Definition three_events : list (ev Z Z) :=
  [ECall 0 (Insert 10 100); ERet 0 (RBool true); ECall 0 (Insert 20 200); ERet 0 (RBool true); ECall 0 (Insert 30 300); ERet 0 (RBool true)].

(** C37. A removal that has flagged its leaf and tagged the edge beside it is overtaken by the removal of the
    neighbouring key, whose [cleanup] unlinks both leaves with one compare-and-swap but retires
    only its own leaf and its own payload.  Both removals return their values and the key 10 is not found any more, yet
    its payload is never retired, nor is its leaf: with both threads idle and two epochs later, a crash
    brings the removed binding back. *)
Theorem nt_overtaken_removal_undone :
  let tr := three ++ [Th 0 (Call (Remove 10))] ++ go 0 14 ++ [Th 1 (Call (Remove 20))] ++ go 1 21 ++ go 0 7 ++
    [Advance; Advance; Th 0 (Call (Get 10))] ++ go 0 7 in
  ∃ S, runT tree tr = Some (S, three_events ++ [ECall 0 (Remove 10); ECall 1 (Remove 20); ERet 1 (RVal (Some 200)); ERet 0 (RVal (Some 100));
      ECall 0 (Get 10); ERet 0 (RVal None)]) ∧
    fault (mm S) = false ∧ pcs S = [Idle; Idle] ∧ retired (mm S) !! 32 = None ∧
    surv (epoch (mm S) - 2) (payloads (mm S)) = {[1 := (10, 100); 3 := (30, 300)]}.
Proof. vm_compute. eexists. split_and!; reflexivity. Qed.

(** An insertion helps a removal before it has linked its leaf.  The compare-and-swap of [cleanup] commits all that the
    helper has allocated so far, so that the payload of the insertion belongs to an epoch: the key 7 is not in the tree,
    but a crash two epochs later brings its binding back. *)
Lemma nt_helper_commits_early :
  let tr := three ++ [Th 0 (Call (Remove 10))] ++ go 0 8 ++ [Th 1 (Call (Insert 7 70)); Th 1 (New 112 0); Th 1 (New 128 4)] ++ go 1 20 ++ go 0 13 ++
    [Advance; Advance; Th 0 (Call (Get 7))] ++ go 0 8 in
  ∃ S, runT tree tr = Some (S, three_events ++ [ECall 0 (Remove 10); ECall 1 (Insert 7 70); ERet 0 (RVal (Some 100)); ECall 0 (Get 7); ERet 0 (RVal None)]) ∧
    fault (mm S) = false ∧ surv (epoch (mm S) - 2) (payloads (mm S)) = {[2 := (20, 200); 3 := (30, 300); 4 := (7, 70)]}.
Proof. vm_compute. eexists. split_and!; reflexivity. Qed.
End Example.
