(* ===== verification/Graph.v ===== *)
(** * MontageGraph (src/rideables/MontageGraph.hpp)

    A directed graph with labelled vertices and weighted edges.  Vertices and
    edges are payloads; the transient part is an array with an entry per vertex
    id: a pointer to the vertex, with its outgoing and incoming edges in two hash
    maps, a lock and a sequence number.  Here a hash map is a finite map (its
    iteration order is the one of [map_to_list]), a reference to a map of a
    vertex is looked up when it is used, and a lock is a flag: locking a locked
    mutex is [Spin].

    The operations run one after another, except that [remove_vertex] gives up
    its lock between collecting the neighbours and locking all of them: what
    other threads do there is an argument.  [recover] runs with [rec_thd] threads
    whose phases are interleaved by a schedule.  Random numbers are arguments. *)

From S2P Require Import Prelude PayloadApi.

(** [class Vertex] and [class Relation]; their base class [BasePayload] has the tag. *)
Inductive gpayload : Type :=
  | Vertex (id lbl : Z)
  | Relation (src dest weight : Z).
Definition tag (p : gpayload) : Z := match p with Vertex _ _ => 0 | Relation _ _ _ => 1 end.

(** [Map]: from (source, destination) to [Relation*] *)
Notation emap := (gmap (Z * Z) Z).

Record tVertex : Type := TVertex {
  payload : Z;
  id : Z;
  adjacency_list : emap;
  dest_list : emap;
}.

Record VertexMeta : Type := Vm {
  idxToVertex : option tVertex;
  vertexLocks : bool;
  vertexSeqs : Z;
}.

Definition u32 (z : Z) : Z := z mod 2 ^ 32.

(** [std::sort] on integers, and [std::unique] *)
Fixpoint unique (l : list Z) : list Z :=
  match l with
  | a :: (b :: _) as l' => if a =? b then unique l' else a :: unique l'
  | _ => l
  end.
Definition sort_unique (l : list Z) : list Z := unique (merge_sort Z.le l).

(** [std::unordered_map::emplace] *)
Definition emplace (p : Z * Z) (r : Z) (m : emap) : bool * emap :=
  match m !! p with Some _ => (false, m) | None => (true, <[p := r]> m) end.

Section graph.
Context {S : Type} `{!PayloadApi S gpayload}.
Context (numVertices : nat).

Record graph : Type := Graph { ds : S; vMeta : list VertexMeta }.
Notation G := (M graph).

Definition on_ds {A} (m : M S A) : G A := λ t, let '(o, s) := m (ds t) in (o, Graph s (vMeta t)).

(** [MontageOpHolder _holder(this);] around code that also uses the graph *)
Definition op_holder {A} (tid : nat) (body : G A) : G A := λ t,
  match on_ds (p_begin_op tid) t with
  | (Throw e, t1) => (Throw e, t1)
  | (Ret _, t1) =>
      let '(o, t2) := body t1 in
      match on_ds (p_end_op tid) t2 with
      | (Ret _, t3) => (o, t3)
      | (Throw e, t3) => (Throw e, t3)
      end
  end.

(** ** The array [vMeta] *)

Definition get_meta (idx : Z) : G VertexMeta := λ t,
  match (if 0 <=? idx then vMeta t !! Z.to_nat idx else None) with
  | Some m => (Ret m, t)
  | None => (Throw (UB "vMeta[idx]"), t)
  end.
Definition set_meta (idx : Z) (m : VertexMeta) : G unit :=
  mmod (λ t, Graph (ds t) (<[Z.to_nat idx := m]> (vMeta t))).

Definition vertex (idx : Z) : G (option tVertex) := let* m := get_meta idx in mret_ (idxToVertex m).
Definition set_vertex (idx : Z) (v : option tVertex) : G unit :=
  let* m := get_meta idx in set_meta idx (Vm v (vertexLocks m) (vertexSeqs m)).
Definition is_null (idx : Z) : G bool := let* v := vertex idx in mret_ (bool_decide (v = None)).

Definition lock (idx : Z) : G unit :=
  let* m := get_meta idx in
  if vertexLocks m then mthrow (Spin "vertexLocks") else set_meta idx (Vm (idxToVertex m) true (vertexSeqs m)).
Definition unlock (idx : Z) : G unit :=
  let* m := get_meta idx in
  if vertexLocks m then set_meta idx (Vm (idxToVertex m) false (vertexSeqs m))
  else mthrow (UB "unlock of a mutex that is not locked").
Definition inc_seq (idx : Z) : G unit :=
  let* m := get_meta idx in set_meta idx (Vm (idxToVertex m) (vertexLocks m) (u32 (vertexSeqs m + 1))).
Definition get_seq (idx : Z) : G Z := let* m := get_meta idx in mret_ (vertexSeqs m).

Definition deref (idx : Z) : G tVertex :=
  let* v := vertex idx in
  match v with Some v => mret_ v | None => mthrow (UB "null tVertex") end.
Definition source (idx : Z) : G emap := let* v := deref idx in mret_ (adjacency_list v).
Definition destination (idx : Z) : G emap := let* v := deref idx in mret_ (dest_list v).
Definition set_source (idx : Z) (m : emap) : G unit :=
  let* v := deref idx in set_vertex idx (Some (TVertex (payload v) (id v) m (dest_list v))).
Definition set_destination (idx : Z) (m : emap) : G unit :=
  let* v := deref idx in set_vertex idx (Some (TVertex (payload v) (id v) (adjacency_list v) m)).

Definition source_emplace (idx : Z) (p : Z * Z) (r : Z) : G bool :=
  let* m := source idx in do* set_source idx (emplace p r m).2 in mret_ (emplace p r m).1.
Definition destination_emplace (idx : Z) (p : Z * Z) (r : Z) : G bool :=
  let* m := destination idx in do* set_destination idx (emplace p r m).2 in mret_ (emplace p r m).1.

Definition has_relation (m : emap) (p : Z * Z) : bool := bool_decide (is_Some (m !! p)).
(** [remove_relation] on a map of a vertex; [None]: the null pointer *)
Definition remove_source (idx : Z) (p : Z * Z) : G (option Z) :=
  let* m := source idx in do* set_source idx (delete p m) in mret_ (m !! p).
Definition remove_destination (idx : Z) (p : Z * Z) : G (option Z) :=
  let* m := destination idx in do* set_destination idx (delete p m) in mret_ (m !! p).

(** ** Vertices *)

(** [new tVertex(this, id, lbl)] *)
Definition new_tVertex (i lbl : Z) (tid : nat) : G tVertex :=
  let* b := on_ds (p_new (Vertex i lbl) tid) in mret_ (TVertex b i ∅ ∅).
(** [new tVertex(this, p)] in recovery *)
Definition recover_tVertex (b : Z) : G tVertex :=
  let* p := on_ds (p_get b) in
  match p with
  | Vertex i _ => mret_ (TVertex b i ∅ ∅)
  | Relation _ _ _ => mthrow (UB "not a vertex")
  end.
(** [~tVertex] *)
Definition delete_tVertex (v : tVertex) (tid : nat) : G unit :=
  if payload v =? 0 then mret_ tt else on_ds (p_delete (payload v) tid).
Definition destroy (idx : Z) (tid : nat) : G unit :=
  let* v := vertex idx in
  match v with
  | None => mthrow (AssertFail "vertex(idx)!=nullptr")
  | Some v => do* delete_tVertex v tid in set_vertex idx None
  end.
Definition set_lbl (idx : Z) (l : Z) (tid : nat) : G unit :=
  let* v := deref idx in
  let* b := on_ds (p_set (payload v) (λ p, match p with Vertex i _ => Vertex i l | _ => p end) tid) in
  set_vertex idx (Some (TVertex b (id v) (adjacency_list v) (dest_list v))).
(** [r->src()] and [r->dest()] *)
Definition rel_src (r : Z) : G Z :=
  let* p := on_ds (p_get r) in
  match p with Relation s _ _ => mret_ s | Vertex _ _ => mthrow (UB "not a relation") end.
Definition rel_dest (r : Z) : G Z :=
  let* p := on_ds (p_get r) in
  match p with Relation _ d _ => mret_ d | Vertex _ _ => mthrow (UB "not a relation") end.

(** ** Edges *)

Definition lock_both (src dest : Z) : G unit :=
  if dest <? src then do* lock dest in lock src else do* lock src in lock dest.
Definition unlock_both (src dest : Z) : G unit :=
  if dest <? src then do* unlock src in unlock dest else do* unlock dest in unlock src.

Definition add_edge (src dest weight : Z) (tid : nat) : G bool :=
  let* r := on_ds (p_new (Relation src dest weight) tid) in
  if src =? dest then mret_ false else
  do* lock_both src dest in
  let* n1 := is_null src in
  let* n2 := is_null dest in
  let* retval :=
    (if n1 || n2 then mret_ false else
     op_holder tid (
       let* ret1 := source_emplace src (src, dest) r in
       let* ret2 := destination_emplace dest (src, dest) r in
       do* massert (eqb ret1 ret2) "ret1.second == ret2.second" in
       do* (if ret1 : bool then do* inc_seq src in inc_seq dest else mret_ tt) in
       mret_ ret1)) in
  do* (if retval : bool then mret_ tt else on_ds (p_delete r tid)) in
  do* unlock_both src dest in
  mret_ retval.

Definition has_edge (src dest : Z) (tid : nat) : G bool :=
  do* lock src in
  let* n := is_null src in
  if n : bool then do* unlock src in mret_ false else
  let* retval := op_holder tid (let* m := source src in mret_ (has_relation m (src, dest))) in
  do* unlock src in
  mret_ retval.

Definition remove_edge (src dest : Z) (tid : nat) : G bool :=
  if src =? dest then mret_ false else
  do* lock_both src dest in
  let* n1 := is_null src in
  let* n2 := is_null dest in
  let* ret :=
    (if n1 || n2 then mret_ false else
     op_holder tid (
       let* ret1 := remove_source src (src, dest) in
       let* ret2 := remove_destination dest (src, dest) in
       do* massert (bool_decide (ret1 = ret2)) "ret1==ret2" in
       match ret1 with
       | Some r => do* on_ds (p_delete r tid) in do* inc_seq src in do* inc_seq dest in mret_ true
       | None => mret_ false
       end)) in
  do* unlock_both src dest in
  mret_ ret.

(** ** Vertices are added *)

(** The sampled vertices: [u] is skipped in round [i] if [u == i]. *)
Definition samples (us : list Z) : list Z :=
  omap (λ iu, if iu.2 =? Z.of_nat iu.1 then None else Some iu.2) (zip (seq 0 (length us)) us).

Definition add_vertex (vid : Z) (us : list Z) (tid : nat) : G bool :=
  let vec := sort_unique (samples us ++ [vid]) in
  let* new_v := new_tVertex vid vid tid in
  do* mfor vec lock in
  let* n := is_null vid in
  do* (if n : bool then
         op_holder tid (
           do* set_vertex vid (Some new_v) in
           mfor vec (λ u,
             let* nu := is_null u in
             if (nu : bool) || (u =? vid) then mret_ tt else
             let* r := on_ds (p_new (Relation vid u (-1)) tid) in
             let* _x := source_emplace vid (vid, u) r in
             let* _x := destination_emplace u (vid, u) r in
             mret_ tt))
       else mret_ tt) in
  do* mfor (reverse vec) (λ u,
        let* n1 := is_null vid in
        let* n2 := is_null u in
        do* (if n1 || n2 then mret_ tt else inc_seq u) in
        unlock u) in
  do* (if n : bool then mret_ tt else delete_tVertex new_v tid) in
  mret_ n.

(** ** Vertices are removed *)

Fixpoint mmap {D A B} (f : A → M D B) (l : list A) : M D (list B) :=
  match l with
  | [] => mret_ []
  | x :: l' => let* y := f x in let* ys := mmap f l' in mret_ (y :: ys)
  end.

(** The relations of a map, in the order of the iteration *)
Definition rels (m : emap) : list Z := (map_to_list m).*2.

(** From [startOver]: [gap] is what other threads do after the unlocking of
    [vid], [again] is [goto startOver]. *)
Definition remove_vertex_from (gap : G unit) (again : G bool) (vid : Z) (tid : nat) : G bool :=
  do* lock vid in
  let* n := is_null vid in
  if n : bool then do* unlock vid in mret_ false else
  let* seq := get_seq vid in
  let* out := source vid in
  let* ds := mmap rel_dest (rels out) in
  let* inc := destination vid in
  let* ss := mmap rel_src (rels inc) in
  do* unlock vid in
  let vertices := sort_unique (ds ++ ss ++ [vid]) in
  do* gap in
  do* mfor vertices (λ v,
        do* lock v in
        let* n := is_null v in
        let* seq' := get_seq vid in
        if (n : bool) && (seq' =? seq) then mthrow (AssertFail "abort()") else mret_ tt) in
  let* seq' := get_seq vid in
  if negb (seq' =? seq) then do* mfor (reverse vertices) unlock in again else
  do* op_holder tid (
    do* mfor vertices (λ other,
          if other =? vid then mret_ tt else
          let* so := source other in
          let* de := destination other in
          do* (if negb (has_relation so (other, vid)) && negb (has_relation de (vid, other))
               then mthrow (AssertFail "abort()") else mret_ tt) in
          let* ret1 := remove_source other (other, vid) in
          let* ret2 := remove_destination other (vid, other) in
          do* (match ret1 with Some r => on_ds (p_delete r tid) | None => mret_ tt end) in
          let* so := source other in
          let* de := destination other in
          massert (negb (has_relation so (other, vid)) && negb (has_relation de (vid, other))) "!has_relation") in
    let* out := source vid in
    do* mfor (rels out) (λ r, on_ds (p_delete r tid)) in
    do* set_source vid ∅ in
    do* set_destination vid ∅ in
    destroy vid tid) in
  do* mfor (reverse vertices) (λ v, do* inc_seq v in unlock v) in
  mret_ true.

(** [gaps]: what the others do in the first, second, ... round; after that they
    do nothing. *)
Fixpoint remove_vertex (gaps : list (G unit)) (vid : Z) (tid : nat) : G bool :=
  match gaps with
  | [] => remove_vertex_from (mret_ tt) (mthrow (Spin "startOver")) vid tid
  | gap :: gaps' => remove_vertex_from gap (remove_vertex gaps' vid tid) vid tid
  end.

(** ** Statistics *)

(** (|V|, |E|, degrees); the average is [numE / numV] in floating point. *)
Fixpoint stats (i : nat) (k : nat) : G (Z * Z * list Z) :=
  match k with
  | O => mret_ (0, 0, [])
  | Datatypes.S k' =>
      let* n := is_null (Z.of_nat i) in
      if n : bool then
        let* r := stats (Datatypes.S i) k' in mret_ (r.1.1, r.1.2, 0 :: r.2)
      else
        let* so := source (Z.of_nat i) in
        let* de := destination (Z.of_nat i) in
        let* r := stats (Datatypes.S i) k' in
        mret_ (r.1.1 + 1, r.1.2 + Z.of_nat (size so), Z.of_nat (size so) + Z.of_nat (size de) :: r.2)
  end.
Definition grab_stats : G (Z * Z * list Z) := stats 0 numVertices.

Definition clear : G unit := mthrow (AssertFail "0&&clear() not implemented!").

(** ** Construction *)

(** The array with every pointer null; the sequence numbers are 0. *)
Definition empty_meta : list VertexMeta := replicate numVertices (Vm None false 0).

Definition ctor_vertices (coins : list bool) (tid : nat) : G unit :=
  mfor (zip (seq 0 numVertices) coins) (λ ic,
    if ic.2 : bool then
      let* v := new_tVertex (Z.of_nat ic.1) (Z.of_nat ic.1) tid in set_vertex (Z.of_nat ic.1) (Some v)
    else mret_ tt).

Definition ctor_edge (i k : Z) (tid : nat) : G unit :=
  if k =? i then mret_ tt else
  let* nk := is_null k in
  if nk : bool then mret_ tt else
  let* r := on_ds (p_new (Relation i k (-1)) tid) in
  let* ret1 := source_emplace i (i, k) r in
  let* ret2 := destination_emplace k (i, k) r in
  do* massert (eqb ret1 ret2) "ret1.second==ret2.second" in
  if ret1 : bool then mret_ tt else on_ds (p_delete r tid).

Definition ctor_edges (rng : list (list Z)) (tid : nat) : G unit :=
  mfor (zip (seq 0 numVertices) rng) (λ ik,
    let* n := is_null (Z.of_nat ik.1) in
    if n : bool then mret_ tt else mfor ik.2 (λ k, ctor_edge (Z.of_nat ik.1) k tid)).

(** [coins]: for each vertex, whether it is created; [rng]: for each vertex the
    destinations drawn. *)
Definition MontageGraph (coins : list bool) (rng : list (list Z)) (tid : nat) : G unit :=
  do* mmod (λ t, Graph (ds t) empty_meta) in
  do* ctor_vertices coins tid in
  do* ctor_edges rng tid in
  op_holder tid (mret_ tt).

(** ** Recovery *)

Record RelationWrapper : Type := Rw { v1 : Z; v2 : Z; e : Z }.

(** The recovered blocks, sorted by their tag into vertices and relations *)
Fixpoint gather (blocks : list Z) : G (list Z * list Z) :=
  match blocks with
  | [] => mret_ ([], [])
  | b :: bs =>
      let* p := on_ds (p_get b) in
      let* r := gather bs in
      mret_ (match p with Vertex _ _ => (b :: r.1, r.2) | Relation _ _ _ => (r.1, b :: r.2) end)
  end.

Definition rec_vertex (b : Z) : G unit :=
  let* new_node := recover_tVertex b in
  let* n := is_null (id new_node) in
  if n : bool then set_vertex (id new_node) (Some new_node) else mret_ tt.
Definition rec_vertices (rec_thd : nat) (vertexVector : list Z) (rec_tid : nat) : G unit :=
  mfor (strided rec_thd rec_tid vertexVector) rec_vertex.

Notation buffers := (list (list RelationWrapper)).
Definition push (k : nat) (x : RelationWrapper) (bufs : buffers) : buffers := alter (λ l, l ++ [x]) k bufs.

(** The thread [rec_tid] sorts its share of the edges into the buffers of their
    endpoints' owners. *)
Fixpoint fill (rec_thd rec_tid : nat) (es : list Z) (bufs : buffers) : G buffers :=
  match es with
  | [] => mret_ bufs
  | b :: es' =>
      let* id1 := rel_src b in
      let* id2 := rel_dest b in
      if (id1 <? 0) || (Z.of_nat numVertices <=? id1) || (id2 <? 0) || (Z.of_nat numVertices <=? id2)
      then fill rec_thd rec_tid es' bufs else
      let* n1 := is_null id1 in
      let* n2 := is_null id2 in
      if (n1 : bool) || n2 then fill rec_thd rec_tid es' bufs else
      let item := Rw id1 id2 b in
      let k1 := Z.to_nat (id1 mod Z.of_nat rec_thd) in
      let k2 := Z.to_nat (id2 mod Z.of_nat rec_thd) in
      let bufs1 := push (rec_tid * rec_thd + k1) item bufs in
      fill rec_thd rec_tid es' (if (k2 =? k1)%nat then bufs1 else push (rec_tid * rec_thd + k2) item bufs1)
  end.

(** [tpls]: the buffers addressed to [rec_tid], one after another *)
Definition copy (rec_thd rec_tid : nat) (bufs : buffers) : list RelationWrapper :=
  concat ((λ t, default [] (bufs !! (t * rec_thd + rec_tid)%nat)) <$> seq 0 rec_thd).

Inductive rec_step : Type :=
  | Fill (rec_tid : nat)
  | Copy (rec_tid : nat).

(** The second phase: nothing makes a thread wait between its [Fill] and its
    [Copy].  [tpls] of each thread is collected. *)
Fixpoint rec_schedule (rec_thd : nat) (es : list Z) (sched : list rec_step)
    (bufs : buffers) (tpls : list (list RelationWrapper)) : G (list (list RelationWrapper)) :=
  match sched with
  | [] => mret_ tpls
  | Fill t :: sched' =>
      let* bufs' := fill rec_thd t (strided rec_thd t es) bufs in
      rec_schedule rec_thd es sched' bufs' tpls
  | Copy t :: sched' => rec_schedule rec_thd es sched' bufs (<[t := copy rec_thd t bufs]> tpls)
  end.

Definition by_v1 : relation RelationWrapper := λ r1 r2, v1 r1 ≤ v1 r2.
Definition by_v2 : relation RelationWrapper := λ r1 r2, v2 r1 ≤ v2 r2.
#[export] Instance by_v1_dec : RelDecision by_v1.
Proof. intros ??. unfold by_v1. apply _. Defined.
#[export] Instance by_v2_dec : RelDecision by_v2.
Proof. intros ??. unfold by_v2. apply _. Defined.

(** The third phase: both loops test [r.v1 % rec_thd == rec_tid]. *)
Definition rec_edges (rec_thd : nat) (tpls : list (list RelationWrapper)) (rec_tid : nat) : G unit :=
  let mine r := v1 r mod Z.of_nat rec_thd =? Z.of_nat rec_tid in
  let l := default [] (tpls !! rec_tid) in
  do* mfor (merge_sort by_v1 l) (λ r,
        if mine r then let* _x := source_emplace (v1 r) (v1 r, v2 r) (e r) in mret_ tt else mret_ tt) in
  mfor (merge_sort by_v2 (merge_sort by_v1 l)) (λ r,
    if mine r then let* _x := destination_emplace (v2 r) (v1 r, v2 r) (e r) in mret_ tt else mret_ tt).

(** The array of [recover]: the sequence numbers are left as they are in fresh
    memory. *)
Definition rec_meta (seqs : list Z) : list VertexMeta := Vm None false <$> seqs.

(** [recover]: [o1] and [o3] are the orders in which the threads run the first
    and the third phase, [sched] interleaves the second; the phases are separated
    by barriers. *)
Definition recover (seqs : list Z) (recovered : list Z) (rec_thd : nat) (o1 : list nat) (sched : list rec_step) (o3 : list nat)
    (tid : nat) : G Z :=
  do* mmod (λ t, Graph (ds t) (rec_meta seqs)) in
  let* vr := op_holder tid (gather recovered) in
  do* mfor o1 (rec_vertices rec_thd vr.1) in
  let* tpls := rec_schedule rec_thd vr.2 sched (replicate (rec_thd * rec_thd) []) (replicate rec_thd []) in
  do* mfor o3 (rec_edges rec_thd tpls) in
  mret_ (Z.of_nat (length recovered)).
End graph.
