(* ===== verification/GraphOps.v ===== *)
(** * Correctness of the graph operations

    The abstract graph is a map of labelled vertices and a map of weighted
    edges.  [rep] relates it to the live payloads and to the addresses of the
    payloads of each vertex ([VA]) and edge ([EA]); the array entry of a vertex
    is computed from these.  Every operation is proved to implement its
    specification, to leave every lock free, and to change the sequence number
    of each vertex whose presence or edges it changes. *)

From S2P Require Import Prelude PayloadApi Graph.

(** ** Sorting without duplicates *)

Lemma unique_elem l x : x ∈ unique l ↔ x ∈ l.
Proof.
  induction l as [|a [|b l] IH]; [done|done|]. change (unique (a :: b :: l)) with
    (if a =? b then unique (b :: l) else a :: unique (b :: l)).
  destruct (Z.eqb_spec a b) as [->|]; rewrite ?elem_of_cons, IH, ?elem_of_cons; naive_solver.
Qed.

Lemma unique_sorted l : StronglySorted Z.le l → StronglySorted Z.lt (unique l).
Proof.
  induction l as [|a [|b l] IH]; intros Hs; [simpl; constructor|simpl; by repeat constructor|].
  apply StronglySorted_inv in Hs as [Hs Hf]. specialize (IH Hs).
  change (unique (a :: b :: l)) with (if a =? b then unique (b :: l) else a :: unique (b :: l)).
  destruct (Z.eqb_spec a b) as [->|Hne]; [done|]. constructor; [done|].
  apply Forall_forall. intros x Hx. rewrite unique_elem in Hx. rewrite Forall_forall in Hf.
  assert (a ≤ b) by (apply Hf; by left). assert (b ≤ x); [|lia].
  apply StronglySorted_inv in Hs as [_ Hb]. rewrite Forall_forall in Hb.
  apply elem_of_cons in Hx as [->|Hx]; [lia|by apply Hb].
Qed.

Lemma sort_unique_elem l x : x ∈ sort_unique l ↔ x ∈ l.
Proof. unfold sort_unique. by rewrite unique_elem, (merge_sort_Permutation Z.le). Qed.
Lemma sort_unique_sorted l : StronglySorted Z.lt (sort_unique l).
Proof. apply unique_sorted, (StronglySorted_merge_sort Z.le). Qed.
Lemma sorted_lt_NoDup l : StronglySorted Z.lt l → NoDup l.
Proof.
  induction 1 as [|x l Hs IH Hf]; [constructor|]. constructor; [|done]. rewrite Forall_forall in Hf.
  intros Hx%Hf. lia.
Qed.
Lemma sort_unique_NoDup l : NoDup (sort_unique l).
Proof. apply sorted_lt_NoDup, sort_unique_sorted. Qed.

Lemma sort_unique_ext l l' : (∀ x, x ∈ l ↔ x ∈ l') → sort_unique l = sort_unique l'.
Proof.
  intros H. apply (StronglySorted_unique_strong Z.lt); [lia|apply sort_unique_sorted..|].
  apply NoDup_Permutation; [apply sort_unique_NoDup..|].
  intros x. by rewrite !sort_unique_elem.
Qed.

(** Few distinct indices *)
Lemma NoDup_range_length n l : NoDup l → (∀ x, x ∈ l → 0 ≤ x < Z.of_nat n) → (length l ≤ n)%nat.
Proof.
  intros Hnd Hr. rewrite <- (length_seq n 0), <- (length_map Z.to_nat l). apply submseteq_length, NoDup_submseteq.
  - apply NoDup_fmap_2_strong; [|done]. intros x y Hx%Hr Hy%Hr. lia.
  - intros x (y & -> & Hy%Hr)%list_elem_of_fmap. apply elem_of_seq. lia.
Qed.

(** ** The abstract graph *)

Record agraph : Type := AG { verts : gmap Z Z; edges : emap }.

(** The edges out of and into a vertex *)
Definition out (v : Z) (E : emap) : emap := filter (λ p, p.1.1 = v) E.
Definition inn (v : Z) (E : emap) : emap := filter (λ p, p.1.2 = v) E.

Lemma out_lookup v E i j : out v E !! (i, j) = if decide (i = v) then E !! (i, j) else None.
Proof.
  unfold out. apply option_eq. intros b. rewrite map_lookup_filter_Some. simpl. case_decide; naive_solver.
Qed.
Lemma inn_lookup v E i j : inn v E !! (i, j) = if decide (j = v) then E !! (i, j) else None.
Proof.
  unfold inn. apply option_eq. intros b. rewrite map_lookup_filter_Some. simpl. case_decide; naive_solver.
Qed.

(** Equality of maps of edges, by cases *)
Lemma emap_eq (E E' : emap) : (∀ i j, E !! (i, j) = E' !! (i, j)) → E = E'.
Proof. intros H. apply map_eq. intros [i j]. apply H. Qed.
Ltac emap :=
  apply emap_eq; intros ??;
  repeat rewrite ?out_lookup, ?inn_lookup, ?lookup_insert, ?lookup_delete, ?lookup_empty;
  repeat case_decide; simplify_eq; try done; try lia.

Definition incident (v : Z) (p : Z * Z) : Prop := p.1 = v ∨ p.2 = v.
#[export] Instance incident_dec v p : Decision (incident v p).
Proof. unfold incident. apply _. Defined.

Definition drop_vertex (v : Z) (E : emap) : emap := filter (λ p, ¬ incident v p.1) E.

Lemma drop_lookup v E i j : drop_vertex v E !! (i, j) = if decide (incident v (i, j)) then None else E !! (i, j).
Proof.
  unfold drop_vertex. apply option_eq. intros b. rewrite map_lookup_filter_Some. simpl. case_decide; naive_solver.
Qed.

(** The operations *)
Inductive gop : Type :=
  | AddEdge (src dest weight : Z)
  | HasEdge (src dest : Z)
  | RemoveEdge (src dest : Z)
  | AddVertex (vid : Z) (us : list Z)
  | RemoveVertex (vid : Z).

(** The edges of a new vertex: to every vertex of the sample. *)
Definition star (a : agraph) (vid : Z) (us : list Z) : emap :=
  list_to_map ((λ u, ((vid, u), -1)) <$> filter (λ u, u ≠ vid ∧ is_Some (verts a !! u)) (sort_unique (samples us ++ [vid]))).

Definition spec_gop (o : gop) (a : agraph) : bool * agraph :=
  match o with
  | AddEdge s d w =>
      if bool_decide (is_Some (verts a !! s) ∧ is_Some (verts a !! d) ∧ edges a !! (s, d) = None)
      then (true, AG (verts a) (<[(s, d) := w]> (edges a))) else (false, a)
  | HasEdge s d => (bool_decide (is_Some (edges a !! (s, d))), a)
  | RemoveEdge s d => (bool_decide (is_Some (edges a !! (s, d))), AG (verts a) (delete (s, d) (edges a)))
  | AddVertex v us =>
      if verts a !! v then (false, a) else (true, AG (<[v := v]> (verts a)) (star a v us ∪ edges a))
  | RemoveVertex v =>
      if verts a !! v then (true, AG (delete v (verts a)) (drop_vertex v (edges a))) else (false, a)
  end.

Arguments spec_gop : simpl never.

(** ** The representation *)

Definition tvtx (VA : gmap Z Z) (EA : emap) (v : Z) : option tVertex :=
  (λ b, TVertex b v (out v EA) (inn v EA)) <$> VA !! v.
Definition meta_of (VA : gmap Z Z) (EA : emap) (sq : Z → Z) (v : Z) : VertexMeta := Vm (tvtx VA EA v) false (sq v).

Section rep.
Context (n : nat).
Definition inrange (v : Z) : Prop := 0 ≤ v < Z.of_nat n.

Record rep (a : agraph) (VA : gmap Z Z) (EA : emap) (L : gmap Z gpayload) : Prop := {
  r_live : ∀ b p, L !! b = Some p ↔
    match p with
    | Vertex v l => VA !! v = Some b ∧ verts a !! v = Some l
    | Relation i j w => EA !! (i, j) = Some b ∧ edges a !! (i, j) = Some w
    end;
  r_verts : ∀ v, is_Some (VA !! v) ↔ is_Some (verts a !! v);
  r_edges : ∀ p, is_Some (EA !! p) ↔ is_Some (edges a !! p);
  r_range : ∀ v, is_Some (verts a !! v) → inrange v;
  r_ends : ∀ i j, is_Some (edges a !! (i, j)) → i ≠ j ∧ is_Some (verts a !! i) ∧ is_Some (verts a !! j);
}.

Lemma rep_edge a VA EA L i j b : rep a VA EA L → EA !! (i, j) = Some b → ∃ w, L !! b = Some (Relation i j w) ∧ edges a !! (i, j) = Some w.
Proof.
  intros Hr Hb. assert (is_Some (edges a !! (i, j))) as [w Hw] by (apply (r_edges _ _ _ _ Hr); by eexists).
  exists w. split; [|done]. by apply (r_live _ _ _ _ Hr).
Qed.
Lemma rep_vertex a VA EA L v b : rep a VA EA L → VA !! v = Some b → ∃ l, L !! b = Some (Vertex v l) ∧ verts a !! v = Some l.
Proof.
  intros Hr Hb. assert (is_Some (verts a !! v)) as [l Hl] by (apply (r_verts _ _ _ _ Hr); by eexists).
  exists l. split; [|done]. by apply (r_live _ _ _ _ Hr).
Qed.
Lemma rep_none a VA EA L v : rep a VA EA L → VA !! v = None ↔ verts a !! v = None.
Proof. intros Hr. rewrite !eq_None_not_Some. by rewrite (r_verts _ _ _ _ Hr). Qed.
Lemma rep_no_edge a VA EA L p : rep a VA EA L → EA !! p = None ↔ edges a !! p = None.
Proof. intros Hr. rewrite !eq_None_not_Some. by rewrite (r_edges _ _ _ _ Hr). Qed.

Lemma rep_empty : rep (AG ∅ ∅) ∅ ∅ ∅.
Proof.
  constructor; simpl; intros *; rewrite ?lookup_empty; try done; try by intros [].
  split; [done|]. destruct p; rewrite !lookup_empty; naive_solver.
Qed.

Lemma rep_insert_edge a VA EA L s d w b :
  rep a VA EA L → s ≠ d → is_Some (VA !! s) → is_Some (VA !! d) → EA !! (s, d) = None → L !! b = None →
  rep (AG (verts a) (<[(s, d) := w]> (edges a))) VA (<[(s, d) := b]> EA) (<[b := Relation s d w]> L).
Proof.
  intros Hr Hne Hs Hd HE HL. pose proof Hr as [H1 H2 H3 H4 H5]. apply H2 in Hs, Hd. constructor; simpl; try done.
  - intros b' p. rewrite lookup_insert. case_decide as Hb.
    + subst b'. split; [intros [= <-]; by rewrite !lookup_insert_eq|]. destruct p as [v l|i j w'].
      * intros [Hv Hl]. assert (L !! b = Some (Vertex v l)) by (by apply H1). congruence.
      * intros [HEb Hw]. destruct (decide ((s, d) = (i, j))) as [[= <- <-]|Hij].
        { rewrite lookup_insert_eq in Hw. congruence. }
        rewrite lookup_insert_ne in HEb, Hw by done.
        assert (L !! b = Some (Relation i j w')) by (by apply H1). congruence.
    + rewrite H1. destruct p as [v l|i j w']; [done|].
      destruct (decide ((s, d) = (i, j))) as [[= <- <-]|Hij]; [|by rewrite !lookup_insert_ne by done].
      rewrite !lookup_insert_eq, HE. naive_solver.
  - intros p. rewrite !lookup_insert. case_decide; [naive_solver|apply H3].
  - intros i j. rewrite lookup_insert. case_decide; [naive_solver|apply H5].
Qed.

Lemma rep_delete_edge a VA EA L s d b :
  rep a VA EA L → EA !! (s, d) = Some b →
  rep (AG (verts a) (delete (s, d) (edges a))) VA (delete (s, d) EA) (delete b L).
Proof.
  intros Hr HE. destruct (rep_edge _ _ _ _ _ _ _ Hr HE) as (w & HLb & Hw). pose proof Hr as [H1 H2 H3 H4 H5].
  constructor; simpl; try done.
  - intros b' p. rewrite lookup_delete. case_decide as Hb.
    + subst b'. split; [done|]. destruct p as [v l|i j w'].
      * intros Hv%(H1 b (Vertex v l)). congruence.
      * destruct (decide ((s, d) = (i, j))) as [[= <- <-]|Hij]; [by rewrite lookup_delete_eq; intros []|].
        rewrite !lookup_delete_ne by done. intros Hv%(H1 b (Relation i j w')). congruence.
    + rewrite H1. destruct p as [v l|i j w']; [done|].
      destruct (decide ((s, d) = (i, j))) as [[= <- <-]|Hij]; [|by rewrite !lookup_delete_ne by done].
      rewrite !lookup_delete_eq. split; [|by intros []]. naive_solver.
  - intros p. rewrite !lookup_delete. case_decide; [|apply H3]. split; by intros [].
  - intros i j. rewrite lookup_delete. case_decide; [by intros []|apply H5].
Qed.

Lemma rep_insert_vertex a VA EA L v l b :
  rep a VA EA L → inrange v → VA !! v = None → L !! b = None →
  rep (AG (<[v := l]> (verts a)) (edges a)) (<[v := b]> VA) EA (<[b := Vertex v l]> L).
Proof.
  intros Hr Hv HV HL. pose proof Hr as [H1 H2 H3 H4 H5]. constructor; simpl; try done.
  - intros b' p. rewrite lookup_insert. case_decide as Hb.
    + subst b'. split; [intros [= <-]; by rewrite !lookup_insert_eq|]. destruct p as [v' l'|i j w'].
      * destruct (decide (v = v')) as [<-|Hvv]; [rewrite !lookup_insert_eq; naive_solver|].
        rewrite !lookup_insert_ne by done. intros Hx%(H1 b (Vertex v' l')). congruence.
      * intros Hx%(H1 b (Relation i j w')). congruence.
    + rewrite H1. destruct p as [v' l'|i j w']; [|done].
      destruct (decide (v = v')) as [<-|Hvv]; [|by rewrite !lookup_insert_ne by done].
      rewrite !lookup_insert_eq, HV. naive_solver.
  - intros v'. rewrite !lookup_insert. case_decide; [naive_solver|apply H2].
  - intros v'. rewrite lookup_insert. case_decide; [naive_solver|apply H4].
  - intros i j Hij. destruct (H5 i j Hij) as (? & ? & ?). split; [done|].
    rewrite !lookup_insert. split; case_decide; naive_solver.
Qed.

Lemma rep_delete_vertex a VA EA L v b :
  rep a VA EA L → VA !! v = Some b → (∀ i j, is_Some (EA !! (i, j)) → ¬ incident v (i, j)) →
  rep (AG (delete v (verts a)) (edges a)) (delete v VA) EA (delete b L).
Proof.
  intros Hr HV Hno. destruct (rep_vertex _ _ _ _ _ _ Hr HV) as (l & HLb & Hl). pose proof Hr as [H1 H2 H3 H4 H5].
  constructor; simpl; try done.
  - intros b' p. rewrite lookup_delete. case_decide as Hb.
    + subst b'. split; [done|]. destruct p as [v' l'|i j w'].
      * destruct (decide (v = v')) as [<-|Hvv]; [by rewrite lookup_delete_eq; intros []|].
        rewrite !lookup_delete_ne by done. intros Hx%(H1 b (Vertex v' l')). congruence.
      * intros Hx%(H1 b (Relation i j w')). congruence.
    + rewrite H1. destruct p as [v' l'|i j w']; [|done].
      destruct (decide (v = v')) as [<-|Hvv]; [|by rewrite !lookup_delete_ne by done].
      rewrite !lookup_delete_eq. split; [|by intros []]. naive_solver.
  - intros v'. rewrite !lookup_delete. case_decide; [|apply H2]. split; by intros [].
  - intros v'. rewrite lookup_delete. case_decide; [by intros []|apply H4].
  - intros i j Hij. destruct (H5 i j Hij) as (? & ? & ?). split; [done|].
    assert (¬ incident v (i, j)) as Hni by (apply Hno; by apply H3). unfold incident in Hni. simpl in Hni.
    rewrite !lookup_delete_ne by naive_solver. done.
Qed.
End rep.

(** ** The array of vertices *)

Definition arr (n : nat) (m : Z → VertexMeta) (l : list VertexMeta) : Prop :=
  length l = n ∧ ∀ v, inrange n v → l !! Z.to_nat v = Some (m v).

Lemma arr_ext n m m' l : arr n m l → (∀ v, inrange n v → m v = m' v) → arr n m' l.
Proof. intros [Hl Hm] Heq. split; [done|]. intros v Hv. by rewrite <- Heq, Hm. Qed.

Lemma arr_set n m l v x : arr n m l → inrange n v → arr n (<[v := x]> m) (<[Z.to_nat v := x]> l).
Proof.
  intros [Hl Hm] Hv. split; [by rewrite length_insert|]. intros v' Hv'. unfold inrange in *.
  destruct (decide (v = v')) as [<-|Hne].
  - rewrite fn_lookup_insert. apply list_lookup_insert_eq. lia.
  - rewrite fn_lookup_insert_ne, list_lookup_insert_ne by (done || lia). by apply Hm.
Qed.

Section ops.
Context {S : Type} `{!PayloadApi S gpayload, !PayloadLaws S gpayload} (n : nat).
Notation graph := (@graph S).
Notation G := (M graph).
Notation inrange := (inrange n).
Notation arr := (arr n).
Implicit Types (t : graph) (m : Z → VertexMeta) (L : gmap Z gpayload) (a : agraph).

(** *** The primitives *)

Lemma wp_on_ds {A} (f : M S A) (Q : A → graph → Prop) t :
  wp f (λ r s, Q r (Graph s (vMeta t))) (ds t) → wp (on_ds f) Q t.
Proof. unfold wp, on_ds. by destruct (f (ds t)) as [[r|err] s]. Qed.

Lemma wp_get_meta (Q : VertexMeta → graph → Prop) t m v : arr m (vMeta t) → inrange v → Q (m v) t → wp (get_meta v) Q t.
Proof.
  intros [_ Hm] Hv HQ. unfold wp, get_meta. destruct (Z.leb_spec 0 v) as [|Hlt]; [|unfold GraphOps.inrange in *; lia]. by rewrite Hm.
Qed.
Lemma wp_set_meta (Q : unit → graph → Prop) t m v x : arr m (vMeta t) → inrange v →
  (∀ l, arr (<[v := x]> m) l → Q tt (Graph (ds t) l)) → wp (set_meta v x) Q t.
Proof. intros Ha Hv HQ. unfold wp, set_meta, mmod. by apply HQ, arr_set. Qed.

Lemma wp_vertex (Q : option tVertex → graph → Prop) t m v :
  arr m (vMeta t) → inrange v → Q (idxToVertex (m v)) t → wp (vertex v) Q t.
Proof. intros. unfold vertex. apply wp_bind. by eapply wp_get_meta. Qed.
Lemma wp_is_null (Q : bool → graph → Prop) t m v :
  arr m (vMeta t) → inrange v → Q (bool_decide (idxToVertex (m v) = None)) t → wp (is_null v) Q t.
Proof. intros. unfold is_null. apply wp_bind. by eapply wp_vertex. Qed.
Lemma wp_set_vertex (Q : unit → graph → Prop) t m v x : arr m (vMeta t) → inrange v →
  (∀ l, arr (<[v := Vm x (vertexLocks (m v)) (vertexSeqs (m v))]> m) l → Q tt (Graph (ds t) l)) →
  wp (set_vertex v x) Q t.
Proof. intros. unfold set_vertex. apply wp_bind. eapply wp_get_meta; [done..|]. by eapply wp_set_meta. Qed.

Lemma wp_lock (Q : unit → graph → Prop) t m v : arr m (vMeta t) → inrange v → vertexLocks (m v) = false →
  (∀ l, arr (<[v := Vm (idxToVertex (m v)) true (vertexSeqs (m v))]> m) l → Q tt (Graph (ds t) l)) → wp (lock v) Q t.
Proof.
  intros Ha Hv Hl HQ. unfold lock. apply wp_bind. eapply wp_get_meta; [done..|]. rewrite Hl. by eapply wp_set_meta.
Qed.
Lemma wp_unlock (Q : unit → graph → Prop) t m v : arr m (vMeta t) → inrange v → vertexLocks (m v) = true →
  (∀ l, arr (<[v := Vm (idxToVertex (m v)) false (vertexSeqs (m v))]> m) l → Q tt (Graph (ds t) l)) → wp (unlock v) Q t.
Proof.
  intros Ha Hv Hl HQ. unfold unlock. apply wp_bind. eapply wp_get_meta; [done..|]. rewrite Hl. by eapply wp_set_meta.
Qed.
Lemma wp_inc_seq (Q : unit → graph → Prop) t m v : arr m (vMeta t) → inrange v →
  (∀ l, arr (<[v := Vm (idxToVertex (m v)) (vertexLocks (m v)) (u32 (vertexSeqs (m v) + 1))]> m) l →
    Q tt (Graph (ds t) l)) → wp (inc_seq v) Q t.
Proof. intros. unfold inc_seq. apply wp_bind. eapply wp_get_meta; [done..|]. by eapply wp_set_meta. Qed.
Lemma wp_get_seq (Q : Z → graph → Prop) t m v :
  arr m (vMeta t) → inrange v → Q (vertexSeqs (m v)) t → wp (get_seq v) Q t.
Proof. intros. unfold get_seq. apply wp_bind. by eapply wp_get_meta. Qed.

Lemma wp_deref (Q : tVertex → graph → Prop) t m v x :
  arr m (vMeta t) → inrange v → idxToVertex (m v) = Some x → Q x t → wp (deref v) Q t.
Proof. intros ?? Hx ?. unfold deref. apply wp_bind. eapply wp_vertex; [done..|]. by rewrite Hx. Qed.
Lemma wp_source (Q : emap → graph → Prop) t m v x :
  arr m (vMeta t) → inrange v → idxToVertex (m v) = Some x → Q (adjacency_list x) t → wp (source v) Q t.
Proof. intros. unfold source. apply wp_bind. by eapply wp_deref. Qed.
Lemma wp_destination (Q : emap → graph → Prop) t m v x :
  arr m (vMeta t) → inrange v → idxToVertex (m v) = Some x → Q (dest_list x) t → wp (destination v) Q t.
Proof. intros. unfold destination. apply wp_bind. by eapply wp_deref. Qed.
Lemma wp_set_source (Q : unit → graph → Prop) t m v x M :
  arr m (vMeta t) → inrange v → idxToVertex (m v) = Some x →
  (∀ l, arr (<[v := Vm (Some (TVertex (payload x) (id x) M (dest_list x))) (vertexLocks (m v)) (vertexSeqs (m v))]> m) l →
    Q tt (Graph (ds t) l)) → wp (set_source v M) Q t.
Proof. intros. unfold set_source. apply wp_bind. eapply wp_deref; [done..|]. by eapply wp_set_vertex. Qed.
Lemma wp_set_destination (Q : unit → graph → Prop) t m v x M :
  arr m (vMeta t) → inrange v → idxToVertex (m v) = Some x →
  (∀ l, arr (<[v := Vm (Some (TVertex (payload x) (id x) (adjacency_list x) M)) (vertexLocks (m v)) (vertexSeqs (m v))]> m) l →
    Q tt (Graph (ds t) l)) → wp (set_destination v M) Q t.
Proof. intros. unfold set_destination. apply wp_bind. eapply wp_deref; [done..|]. by eapply wp_set_vertex. Qed.

(** Changing one of the two maps of a vertex, with a result computed from it *)
Lemma wp_update_source {A} (Q : A → graph → Prop) t m (v : Z) (x : tVertex) (f : emap → emap) (r : emap → A) :
  arr m (vMeta t) → inrange v → idxToVertex (m v) = Some x →
  (∀ l, arr (<[v := Vm (Some (TVertex (payload x) (id x) (f (adjacency_list x)) (dest_list x))) (vertexLocks (m v)) (vertexSeqs (m v))]> m) l →
    Q (r (adjacency_list x)) (Graph (ds t) l)) →
  wp (let* M := source v in do* set_source v (f M) in mret_ (r M)) Q t.
Proof. intros. apply wp_bind. eapply wp_source; [done..|]. apply wp_bind. by eapply wp_set_source. Qed.
Lemma wp_update_destination {A} (Q : A → graph → Prop) t m (v : Z) (x : tVertex) (f : emap → emap) (r : emap → A) :
  arr m (vMeta t) → inrange v → idxToVertex (m v) = Some x →
  (∀ l, arr (<[v := Vm (Some (TVertex (payload x) (id x) (adjacency_list x) (f (dest_list x)))) (vertexLocks (m v)) (vertexSeqs (m v))]> m) l →
    Q (r (dest_list x)) (Graph (ds t) l)) →
  wp (let* M := destination v in do* set_destination v (f M) in mret_ (r M)) Q t.
Proof. intros. apply wp_bind. eapply wp_destination; [done..|]. apply wp_bind. by eapply wp_set_destination. Qed.

(** The holder: the body runs in an operation; blocks that were pending before
    it are young in the body. *)
Lemma wp_op_holder {A} tid (body : G A) k t L N (Q : A → graph → Prop) :
  p_out tid k (ds t) L N → 0 < k →
  (∀ s, p_in tid (k - 1) s L → (∀ b, b ∈ N → p_young s b) →
    wp body (λ r t2, ∃ k' L', p_in tid k' (ds t2) L' ∧
      ∀ s3, p_idle k' s3 L' → (∀ b, p_young (ds t2) b → p_young s3 b) → Q r (Graph s3 (vMeta t2)))
    (Graph s (vMeta t))) →
  wp (op_holder tid body) Q t.
Proof.
  intros Ho Hk Hb. destruct (p_begin_law tid k (ds t) L N Ho Hk) as (s1 & H1 & Hin).
  unfold wp, op_holder. unfold on_ds at 1. rewrite H1.
  assert (∀ b, b ∈ N → p_young s1 b) as Hy by (intros b Hbn; eapply p_young_begin; [exact Ho|done|exact Hbn|exact H1]).
  specialize (Hb s1 Hin Hy). apply wp_run in Hb as (r & t2 & -> & k' & L' & Hin2 & HQ).
  destruct (p_end_law tid k' (ds t2) L' Hin2) as (s3 & H3 & Hid). unfold on_ds. rewrite H3.
  apply HQ; [done|]. intros b Hb'. eapply p_young_end; [exact Hin2|exact Hb'|exact H3].
Qed.

(** *** The array between two steps

    The vertices are those of [VA] and [EA]; [lk] says which are locked, [sq]
    gives the sequence numbers. *)
Definition gm (VA : gmap Z Z) (EA : emap) (lk : Z → bool) (sq : Z → Z) (v : Z) : VertexMeta :=
  Vm (tvtx VA EA v) (lk v) (sq v).
Definition free (v : Z) : bool := false.
Definition held (vs : list Z) (v : Z) : bool := bool_decide (v ∈ vs).
Definition bump (vs : list Z) (sq : Z → Z) (v : Z) : Z := if bool_decide (v ∈ vs) then u32 (sq v + 1) else sq v.

Lemma tvtx_none VA EA v : tvtx VA EA v = None ↔ VA !! v = None.
Proof. unfold tvtx. by destruct (VA !! v). Qed.
Lemma tvtx_some VA EA v b : VA !! v = Some b → tvtx VA EA v = Some (TVertex b v (out v EA) (inn v EA)).
Proof. intros H. unfold tvtx. by rewrite H. Qed.

(** Pointwise equality of arrays, by cases *)
Ltac arr_cases :=
  unfold gm, free, held, bump; intros; simpl; unfold insert, fn_insert; simpl;
  repeat first [case_bool_decide | case_decide]; subst; simpl in *; try done; try set_solver.
Ltac arr_same := eapply arr_ext; [eassumption|arr_cases].

Lemma wp_lock_both (Q : unit → graph → Prop) t VA EA sq s d :
  arr (gm VA EA free sq) (vMeta t) → inrange s → inrange d → s ≠ d →
  (∀ l, arr (gm VA EA (held [s; d]) sq) l → Q tt (Graph (ds t) l)) → wp (lock_both s d) Q t.
Proof.
  intros Ha Hs Hd Hne HQ. unfold lock_both.
  destruct (d <? s); apply wp_bind; (eapply wp_lock; [done|done|done|]); intros l1 Ha1;
    (eapply wp_lock; [exact Ha1|done|by rewrite fn_lookup_insert_ne by done|]); intros l2 Ha2; apply HQ; arr_same.
Qed.

Lemma wp_unlock_both (Q : unit → graph → Prop) t VA EA sq s d :
  arr (gm VA EA (held [s; d]) sq) (vMeta t) → inrange s → inrange d → s ≠ d →
  (∀ l, arr (gm VA EA free sq) l → Q tt (Graph (ds t) l)) → wp (unlock_both s d) Q t.
Proof.
  intros Ha Hs Hd Hne HQ. unfold unlock_both.
  assert (held [s; d] s = true ∧ held [s; d] d = true) as [H1 H2] by (split; apply bool_decide_eq_true_2; set_solver).
  destruct (d <? s); apply wp_bind; (eapply wp_unlock; [done|done|done|]); intros l1 Ha1;
    (eapply wp_unlock; [exact Ha1|done|by rewrite fn_lookup_insert_ne by done|]); intros l2 Ha2; apply HQ; arr_same.
Qed.

Lemma wp_inc_both (Q : unit → graph → Prop) t VA EA lk sq s d :
  arr (gm VA EA lk sq) (vMeta t) → inrange s → inrange d → s ≠ d →
  (∀ l, arr (gm VA EA lk (bump [s; d] sq)) l → Q tt (Graph (ds t) l)) →
  wp (do* inc_seq s in inc_seq d) Q t.
Proof.
  intros Ha Hs Hd Hne HQ. apply wp_bind. eapply wp_inc_seq; [done|done|]. intros l1 Ha1.
  eapply wp_inc_seq; [exact Ha1|done|]. intros l2 Ha2. apply HQ. arr_same.
Qed.

(** The null tests of two vertices *)
Lemma wp_null_both {A} (k : bool → bool → G A) Q t VA EA lk sq s d :
  arr (gm VA EA lk sq) (vMeta t) → inrange s → inrange d →
  wp (k (bool_decide (VA !! s = None)) (bool_decide (VA !! d = None))) Q t →
  wp (let* n1 := is_null s in let* n2 := is_null d in k n1 n2) Q t.
Proof.
  intros Ha Hs Hd Hk. apply wp_bind. eapply wp_is_null; [done|done|]. apply wp_bind. eapply wp_is_null; [done|done|].
  simpl. by rewrite !(bool_decide_ext _ _ (tvtx_none _ _ _)).
Qed.

(** [source(s).emplace(p, r)] and [destination(d).emplace(p, r)] *)
Lemma wp_emplace_both {A} (k : bool → bool → G A) Q t VA EA lk sq s d r bs bd :
  arr (gm VA EA lk sq) (vMeta t) → inrange s → inrange d → s ≠ d → VA !! s = Some bs → VA !! d = Some bd →
  (∀ l, arr (gm VA (emplace (s, d) r EA).2 lk sq) l →
    wp (k (emplace (s, d) r EA).1 (emplace (s, d) r EA).1) Q (Graph (ds t) l)) →
  wp (let* r1 := source_emplace s (s, d) r in let* r2 := destination_emplace d (s, d) r in k r1 r2) Q t.
Proof.
  intros Ha Hs Hd Hne HVs HVd Hk.
  apply wp_bind. eapply wp_update_source; [exact Ha|done|by apply tvtx_some|]. simpl. intros l1 Ha1.
  apply wp_bind. eapply wp_update_destination; [exact Ha1|done|rewrite fn_lookup_insert_ne by done; by apply tvtx_some|].
  simpl. intros l2 Ha2. unfold emplace in *. rewrite out_lookup, inn_lookup, !decide_True in * by done.
  destruct (EA !! (s, d)) as [r0|] eqn:HE; simpl in *; apply Hk; (eapply arr_ext; [exact Ha2|]); intros v Hv.
  - unfold insert, fn_insert, gm. simpl. repeat case_decide; subst; simpl; rewrite ?(tvtx_some _ _ _ _ HVs), ?(tvtx_some _ _ _ _ HVd); done.
  - unfold gm. destruct (decide (v = d)) as [->|Hvd]; [|destruct (decide (v = s)) as [->|Hvs]].
    + rewrite fn_lookup_insert, fn_lookup_insert_ne by done. simpl. rewrite (tvtx_some _ _ _ _ HVd). do 3 f_equal; emap.
    + rewrite fn_lookup_insert_ne, fn_lookup_insert by done. simpl. rewrite (tvtx_some _ _ _ _ HVs). do 3 f_equal; emap.
    + rewrite !fn_lookup_insert_ne by done. unfold gm. f_equal. unfold tvtx. destruct (VA !! v); [|done]. simpl.
      do 2 f_equal; emap.
Qed.

(** *** What the operations keep *)

Definition g_ok (k : Z) a (sq : Z → Z) t : Prop :=
  ∃ VA EA L, p_idle k (ds t) L ∧ arr (gm VA EA free sq) (vMeta t) ∧ rep n a VA EA L.

(** Nothing changed at [v]. *)
Definition same_at (v : Z) a a' : Prop :=
  verts a' !! v = verts a !! v ∧ ∀ p, incident v p → edges a' !! p = edges a !! p.

(** [c] operations: the sequence number of a vertex at which something changed
    was incremented, at most [c] times. *)
Definition seq_rel (c : Z) a a' (sq sq' : Z → Z) : Prop :=
  ∀ v, inrange v → (sq' v = sq v ∧ same_at v a a') ∨ ∃ j, 1 ≤ j ≤ c ∧ sq' v = u32 (sq v + j).

Lemma seq_rel_refl a sq : seq_rel 1 a a sq sq.
Proof. intros v Hv. left. by split. Qed.

Lemma seq_rel_trans c1 c2 a a1 a2 sq sq1 sq2 :
  0 ≤ c1 → 0 ≤ c2 → seq_rel c1 a a1 sq sq1 → seq_rel c2 a1 a2 sq1 sq2 → seq_rel (c1 + c2) a a2 sq sq2.
Proof.
  intros Hc1 Hc2 H1 H2 v Hv. destruct (H1 v Hv) as [[E1 [Hv1 He1]]|(j1 & Hj1 & E1)];
    destruct (H2 v Hv) as [[E2 [Hv2 He2]]|(j2 & Hj2 & E2)].
  - left. split; [congruence|]. split; [congruence|]. intros p Hp. by rewrite He2, He1.
  - right. exists j2. split; [lia|congruence].
  - right. exists j1. split; [lia|congruence].
  - right. exists (j1 + j2). split; [lia|]. rewrite E2, E1. unfold u32.
    rewrite Z.add_mod_idemp_l by done. f_equal. lia.
Qed.

(** Fewer than 2^32 operations are noticed. *)
Lemma seq_rel_noticed c a a' sq sq' v :
  seq_rel c a a' sq sq' → inrange v → c < 2 ^ 32 → sq' v = sq v → same_at v a a'.
Proof.
  intros Hs Hv Hc Heq. destruct (Hs v Hv) as [[_ ?]|(j & Hj & E)]; [done|exfalso].
  rewrite Heq in E. unfold u32 in E. change (2 ^ 32) with 4294967296 in *.
  Z.to_euclidean_division_equations. lia.
Qed.

(** *** [add_edge], [has_edge], [remove_edge] *)

(** The outcome of an operation that uses at most [c] of the budget *)
Definition implements (o : gop) (c k : Z) a sq (r : bool) t : Prop :=
  r = (spec_gop o a).1 ∧ ∃ k' sq', k - c ≤ k' ∧ g_ok k' (spec_gop o a).2 sq' t ∧
    seq_rel 1 a (spec_gop o a).2 sq sq'.

Lemma same_implements o c k k' a sq t VA EA L :
  (spec_gop o a).2 = a → k - c ≤ k' → p_idle k' (ds t) L → arr (gm VA EA free sq) (vMeta t) → rep n a VA EA L →
  implements o c k a sq (spec_gop o a).1 t.
Proof.
  intros Ho Hk Hid Ha Hr. split; [done|]. exists k', sq. rewrite Ho. split; [done|]. split; [by exists VA, EA, L|apply seq_rel_refl].
Qed.

(** The sequence numbers of the ends of an edge are incremented. *)
Lemma bump_edge a a' sq s d :
  verts a' = verts a → (∀ p, p ≠ (s, d) → edges a' !! p = edges a !! p) → seq_rel 1 a a' sq (bump [s; d] sq).
Proof.
  intros HV HE v Hv. unfold bump. case_bool_decide as Hin; [right; exists 1; split; [lia|done]|left; split; [done|]].
  split; [by rewrite HV|]. intros p Hp. apply HE. intros ->. apply Hin. unfold incident in Hp. simpl in Hp. set_solver.
Qed.

Lemma add_edge_spec a VA EA L s d w : rep n a VA EA L →
  spec_gop (AddEdge s d w) a =
    if negb (bool_decide (VA !! s = None) || bool_decide (VA !! d = None)) && bool_decide (EA !! (s, d) = None)
    then (true, AG (verts a) (<[(s, d) := w]> (edges a))) else (false, a).
Proof.
  intros Hr. unfold spec_gop. rewrite !(bool_decide_ext _ _ (rep_none _ _ _ _ _ _ Hr)), (bool_decide_ext _ _ (rep_no_edge _ _ _ _ _ _ Hr)).
  destruct (verts a !! s), (verts a !! d), (edges a !! (s, d)); simpl; repeat case_bool_decide; naive_solver.
Qed.

(** A payload that is not needed after all *)
Lemma wp_drop_new (Q : unit → graph → Prop) k t b p L tid :
  p_out tid k (ds t) (<[b := p]> L) [b] → L !! b = None →
  (∀ s, p_idle k s L → Q tt (Graph s (vMeta t))) → wp (on_ds (p_delete b tid)) Q t.
Proof.
  intros Ho HL HQ. apply wp_on_ds.
  destruct (p_drop_law tid k (ds t) _ _ b p Ho) as (N & s & Hrun & HN & Hout); [by left|apply lookup_insert_eq|].
  eapply wp_eq; [exact Hrun|]. apply HQ. symmetry in HN. apply Permutation_singleton_r in HN as [= ->].
  rewrite delete_insert_eq, delete_id in Hout by done. by eapply p_leave.
Qed.
Lemma wp_drop_young (Q : unit → graph → Prop) k t b p L tid :
  p_idle k (ds t) (<[b := p]> L) → p_young (ds t) b → L !! b = None → (tid < p_threads)%nat →
  (∀ s, p_idle k s L → Q tt (Graph s (vMeta t))) → wp (on_ds (p_delete b tid)) Q t.
Proof.
  intros Hid Hy HL Ht HQ. apply wp_on_ds.
  destruct (p_young_delete_law k (ds t) _ b p tid Hid Hy) as (s & Hrun & Hid'); [apply lookup_insert_eq|done|].
  eapply wp_eq; [exact Hrun|]. apply HQ. by rewrite delete_insert_eq, delete_id in Hid' by done.
Qed.

Lemma add_edge_ok k a sq t s d w tid :
  g_ok k a sq t → 2 ≤ k → (tid < p_threads)%nat → inrange s → inrange d → s ≠ d →
  wp (add_edge s d w tid) (implements (AddEdge s d w) 2 k a sq) t.
Proof.
  intros (VA & EA & L & Hid & Ha & Hr) Hk Ht Hs Hd Hne.
  destruct (p_new_law tid k (ds t) L [] (Relation s d w) (p_enter _ _ _ _ Hid Ht)) as (b & s1 & H1 & Hb & HLb & Ho); [lia|].
  unfold add_edge. apply wp_bind, wp_on_ds. eapply wp_eq; [exact H1|]. simpl in Ho.
  destruct (Z.eqb_spec s d) as [|_]; [done|]. apply wp_bind. eapply wp_lock_both; [exact Ha|done..|]. intros l1 Ha1.
  eapply wp_null_both; [exact Ha1|done|done|]. pose proof (add_edge_spec a VA EA L s d w Hr) as Hspec.
  destruct (VA !! s) as [bs|] eqn:HVs, (VA !! d) as [bd|] eqn:HVd; simpl in *; cycle 1.
  1-3: apply wp_bind, wp_ret, wp_bind; eapply wp_drop_new; [exact Ho|done|]; intros s2 Hid2; apply wp_bind;
    (eapply wp_unlock_both; [exact Ha1|done..|]); intros l2 Ha2; apply wp_ret;
    (replace false with (spec_gop (AddEdge s d w) a).1 by (by rewrite Hspec));
    (eapply (same_implements _ 2 k (k - 1)); [by rewrite Hspec|lia|exact Hid2|exact Ha2|exact Hr]).
  apply wp_bind. eapply wp_op_holder; [exact Ho|lia|]. intros s2 Hin Hy.
  eapply (wp_emplace_both (λ ret1 ret2, do* massert (eqb ret1 ret2) "ret1.second == ret2.second" in
    do* (if ret1 : bool then do* inc_seq s in inc_seq d else mret_ tt) in mret_ ret1)); [exact Ha1|done..|].
  intros l2 Ha2. apply wp_bind, wp_assert; [apply eqb_reflx|]. apply wp_bind. unfold emplace in *.
  destruct (EA !! (s, d)) as [r0|] eqn:HE; simpl in Hspec |- *.
  - apply wp_ret, wp_ret. eexists _, _. split; [exact Hin|]. intros s3 Hid3 Hy3. apply wp_bind.
    eapply wp_drop_young; [exact Hid3|apply Hy3, Hy; by left|done|done|]. intros s4 Hid4. apply wp_bind.
    eapply wp_unlock_both; [exact Ha2|done..|]. intros l3 Ha3. apply wp_ret.
    replace false with (spec_gop (AddEdge s d w) a).1 by (by rewrite Hspec).
    eapply (same_implements _ 2 k (k - 1 - 1)); [by rewrite Hspec|lia|exact Hid4|exact Ha3|exact Hr].
  - eapply wp_inc_both; [exact Ha2|done..|]. intros l3 Ha3. apply wp_ret. eexists _, _. split; [exact Hin|].
    intros s3 Hid3 Hy3. apply wp_bind, wp_ret, wp_bind. eapply wp_unlock_both; [exact Ha3|done..|].
    intros l4 Ha4. apply wp_ret. unfold implements. rewrite Hspec. split; [done|]. exists (k - 1 - 1), (bump [s; d] sq).
    split; [lia|]. split; [|apply bump_edge; [done|intros p Hp; by apply lookup_insert_ne]].
    eexists VA, _, _. split; [exact Hid3|]. split; [exact Ha4|]. apply rep_insert_edge; try done; by eexists.
Qed.

(** [pdelete] and [pnew] in an operation *)
Lemma wp_pdelete (Q : unit → graph → Prop) k t b p L tid :
  p_in tid k (ds t) L → 0 < k → L !! b = Some p →
  (∀ s, p_in tid (k - 1) s (delete b L) → Q tt (Graph s (vMeta t))) → wp (on_ds (p_delete b tid)) Q t.
Proof.
  intros Hin Hk HL HQ. apply wp_on_ds. destruct (p_delete_law tid k (ds t) L b p Hin Hk HL) as (s & Hrun & Hin').
  eapply wp_eq; [exact Hrun|]. by apply HQ.
Qed.
Lemma wp_pnew (Q : Z → graph → Prop) k t p L tid :
  p_in tid k (ds t) L → 0 < k →
  (∀ b s, L !! b = None → p_in tid (k - 1) s (<[b := p]> L) → Q b (Graph s (vMeta t))) → wp (on_ds (p_new p tid)) Q t.
Proof.
  intros Hin Hk HQ. apply wp_on_ds. destruct (p_new_in_law tid k (ds t) L p Hin Hk) as (b & s & Hrun & _ & HL & Hin').
  eapply wp_eq; [exact Hrun|]. by apply HQ.
Qed.

Lemma wp_remove_both {A} (k : option Z → option Z → G A) Q t VA EA lk sq s d bs bd :
  arr (gm VA EA lk sq) (vMeta t) → inrange s → inrange d → s ≠ d → VA !! s = Some bs → VA !! d = Some bd →
  (∀ l, arr (gm VA (delete (s, d) EA) lk sq) l → wp (k (EA !! (s, d)) (EA !! (s, d))) Q (Graph (ds t) l)) →
  wp (let* r1 := remove_source s (s, d) in let* r2 := remove_destination d (s, d) in k r1 r2) Q t.
Proof.
  intros Ha Hs Hd Hne HVs HVd Hk.
  apply wp_bind. eapply wp_update_source; [exact Ha|done|by apply tvtx_some|]. simpl. intros l1 Ha1.
  apply wp_bind. eapply wp_update_destination; [exact Ha1|done|rewrite fn_lookup_insert_ne by done; by apply tvtx_some|].
  simpl. intros l2 Ha2. rewrite out_lookup, inn_lookup, !decide_True by done.
  apply Hk. eapply arr_ext; [exact Ha2|]. intros v Hv.
  unfold gm. destruct (decide (v = d)) as [->|Hvd]; [|destruct (decide (v = s)) as [->|Hvs]].
  - rewrite fn_lookup_insert, fn_lookup_insert_ne by done. simpl. rewrite (tvtx_some _ _ _ _ HVd). do 3 f_equal; emap.
  - rewrite fn_lookup_insert_ne, fn_lookup_insert by done. simpl. rewrite (tvtx_some _ _ _ _ HVs). do 3 f_equal; emap.
  - rewrite !fn_lookup_insert_ne by done. unfold gm. f_equal. unfold tvtx. destruct (VA !! v); [|done]. simpl.
    do 2 f_equal; emap.
Qed.

Lemma has_edge_ok k a sq t s d tid :
  g_ok k a sq t → 2 ≤ k → (tid < p_threads)%nat → inrange s →
  wp (has_edge s d tid) (implements (HasEdge s d) 2 k a sq) t.
Proof.
  intros (VA & EA & L & Hid & Ha & Hr) Hk Ht Hs. unfold has_edge.
  apply wp_bind. eapply wp_lock; [exact Ha|done|done|]. intros l1 Ha1.
  apply wp_bind. eapply wp_is_null; [exact Ha1|done|]. rewrite fn_lookup_insert. simpl.
  assert (∀ k' t' l', k - 2 ≤ k' → p_idle k' (ds t') L → arr (<[s := Vm (tvtx VA EA s) true (sq s)]> (gm VA EA free sq)) l' →
    wp (do* unlock s in mret_ (spec_gop (HasEdge s d) a).1) (implements (HasEdge s d) 2 k a sq) (Graph (ds t') l')) as Hend.
  { intros k' t' l' Hk' Hid' Ha'. apply wp_bind. eapply wp_unlock; [exact Ha'|done|by rewrite fn_lookup_insert|].
    intros l2 Ha2. apply wp_ret. eapply (same_implements _ 2 k k'); [done|done|exact Hid'| |exact Hr].
    simpl. rewrite fn_lookup_insert in Ha2. arr_same. }
  rewrite (bool_decide_ext _ _ (tvtx_none _ _ _)). case_bool_decide as HV.
  - replace false with (spec_gop (HasEdge s d) a).1; [eapply (Hend k t); [lia|exact Hid|exact Ha1]|].
    apply bool_decide_eq_false_2. intros (Hne & Hvs & _)%(r_ends _ _ _ _ _ Hr).
    apply (rep_none _ _ _ _ _ _ Hr) in HV. rewrite HV in Hvs. by destruct Hvs.
  - destruct (VA !! s) as [b|] eqn:HVs; [|done]. apply wp_bind. eapply wp_op_holder; [by apply p_enter|lia|].
    intros s1 Hin _. apply wp_bind. eapply wp_source; [exact Ha1|done|rewrite fn_lookup_insert; by apply tvtx_some|].
    apply wp_ret. eexists _, _. split; [exact Hin|]. intros s3 Hid3 _. simpl.
    replace (has_relation (out s EA) (s, d)) with (spec_gop (HasEdge s d) a).1.
    + eapply (Hend (k - 1) (Graph s3 (vMeta t))); [lia|exact Hid3|exact Ha1].
    + unfold has_relation, spec_gop. rewrite out_lookup, decide_True by done. simpl. apply bool_decide_ext.
      symmetry. apply (r_edges _ _ _ _ _ Hr).
Qed.

Lemma remove_edge_ok k a sq t s d tid :
  g_ok k a sq t → 2 ≤ k → (tid < p_threads)%nat → inrange s → inrange d →
  wp (remove_edge s d tid) (implements (RemoveEdge s d) 2 k a sq) t.
Proof.
  intros (VA & EA & L & Hid & Ha & Hr) Hk Ht Hs Hd.
  assert (EA !! (s, d) = None → spec_gop (RemoveEdge s d) a = (false, a)) as Hnone.
  { intros HE. apply (rep_no_edge _ _ _ _ _ _ Hr) in HE. unfold spec_gop. rewrite HE, delete_id by done. by destruct a. }
  assert (∀ k' t' , EA !! (s, d) = None → k - 2 ≤ k' → p_idle k' (ds t') L → arr (gm VA EA free sq) (vMeta t') →
    implements (RemoveEdge s d) 2 k a sq false t') as Hsame.
  { intros k' t' HE Hk' Hid' Ha'. replace false with (spec_gop (RemoveEdge s d) a).1 by (by rewrite Hnone).
    eapply (same_implements _ 2 k k'); [by rewrite Hnone|done|exact Hid'|exact Ha'|exact Hr]. }
  unfold remove_edge. destruct (Z.eqb_spec s d) as [->|Hne].
  { apply wp_ret, (Hsame k); [|lia|done|done]. apply (rep_no_edge _ _ _ _ _ _ Hr), eq_None_not_Some.
    by intros [? _]%(r_ends _ _ _ _ _ Hr). }
  apply wp_bind. eapply wp_lock_both; [exact Ha|done..|]. intros l1 Ha1.
  eapply wp_null_both; [exact Ha1|done|done|].
  pose (F := λ ret1 ret2 : option Z, do* massert (bool_decide (ret1 = ret2)) "ret1==ret2" in
    match ret1 with Some r => do* on_ds (p_delete r tid) in do* inc_seq s in do* inc_seq d in mret_ true | None => mret_ false end).
  destruct (EA !! (s, d)) as [b|] eqn:HE.
  - destruct (rep_edge _ _ _ _ _ _ _ _ Hr HE) as (w & HLb & Hw).
    destruct (r_ends _ _ _ _ _ Hr s d) as (_ & Hvs & Hvd); [by eexists|].
    apply (r_verts _ _ _ _ _ Hr) in Hvs as [bs HVs]. apply (r_verts _ _ _ _ _ Hr) in Hvd as [bd HVd].
    rewrite HVs, HVd. simpl. apply wp_bind. eapply wp_op_holder; [by apply p_enter|lia|]. intros s1 Hin _.
    eapply (wp_remove_both F); [exact Ha1|done..|]. intros l2 Ha2. rewrite HE.
    apply wp_bind, wp_assert; [by apply bool_decide_eq_true_2|]. apply wp_bind.
    eapply wp_pdelete; [exact Hin|lia|exact HLb|]. intros s2 Hin2. apply wp_bind.
    eapply wp_inc_seq; [exact Ha2|done|]. intros l3 Ha3. apply wp_bind. eapply wp_inc_seq; [exact Ha3|done|].
    intros l4 Ha4. apply wp_ret. eexists _, _. split; [exact Hin2|]. intros s3 Hid3 _. apply wp_bind.
    eapply (wp_unlock_both _ _ VA (delete (s, d) EA) (bump [s; d] sq)); [simpl; arr_same|done..|].
    intros l5 Ha5. apply wp_ret. unfold implements, spec_gop. rewrite Hw. split; [done|].
    exists (k - 1 - 1), (bump [s; d] sq). split; [lia|]. split; [|apply bump_edge; [done|intros p Hp; by apply lookup_delete_ne]].
    eexists VA, _, _. split; [exact Hid3|]. split; [exact Ha5|]. by apply rep_delete_edge.
  - assert (∀ k' s', k - 2 ≤ k' → p_idle k' s' L → ∀ l, arr (gm VA EA (held [s; d]) sq) l →
      wp (do* unlock_both s d in mret_ false) (implements (RemoveEdge s d) 2 k a sq) (Graph s' l)) as Hend.
    { intros k' s' Hk' Hid' l Hl. apply wp_bind. eapply wp_unlock_both; [exact Hl|done..|]. intros l2 Ha2.
      apply wp_ret. by apply (Hsame k'). }
    destruct (VA !! s) as [bs|] eqn:HVs, (VA !! d) as [bd|] eqn:HVd; simpl; cycle 1.
    1-3: apply wp_bind, wp_ret; eapply (Hend k); [lia|done|done].
    apply wp_bind. eapply wp_op_holder; [by apply p_enter|lia|]. intros s1 Hin _.
    eapply (wp_remove_both F); [exact Ha1|done..|]. intros l2 Ha2. rewrite HE, delete_id in * by done.
    apply wp_bind, wp_assert; [by apply bool_decide_eq_true_2|]. apply wp_ret. eexists _, _. split; [exact Hin|].
    intros s3 Hid3 _. eapply (Hend (k - 1)); [lia|done|done].
Qed.

(** *** [add_vertex] *)

Lemma wp_lock_all (Q : unit → graph → Prop) t VA EA sq vs :
  arr (gm VA EA free sq) (vMeta t) → (∀ v, v ∈ vs → inrange v) → NoDup vs →
  (∀ l, arr (gm VA EA (held vs) sq) l → Q tt (Graph (ds t) l)) → wp (mfor vs lock) Q t.
Proof.
  intros Ha Hr Hnd HQ.
  apply (wp_mfor vs lock (λ l1 _ t', ds t' = ds t ∧ arr (gm VA EA (held l1) sq) (vMeta t'))).
  - split; [done|]. arr_same.
  - intros l1 v l2 t' -> [Hds Ha']. assert (inrange v) as Hv by (apply Hr; set_solver).
    apply NoDup_app in Hnd as (_ & Hd & _). assert (v ∉ l1) by (intros Hin; apply (Hd v Hin); by left).
    eapply wp_lock; [exact Ha'|done|by apply bool_decide_eq_false_2|].
    intros l Hl. split; [done|]. arr_same.
  - intros t' [Hds Ha']. destruct t' as [s l]. simpl in *. subst s. by apply HQ.
Qed.

(** The edges to the vertices of [l] *)
Definition star_of a (vid : Z) (l : list Z) : emap :=
  list_to_map ((λ u, ((vid, u), -1)) <$> filter (λ u, u ≠ vid ∧ is_Some (verts a !! u)) l).

Lemma star_of_lookup a vid l i j w :
  star_of a vid l !! (i, j) = Some w ↔ i = vid ∧ w = -1 ∧ j ∈ l ∧ j ≠ vid ∧ is_Some (verts a !! j).
Proof.
  unfold star_of. induction l as [|u l IH]; [simpl; rewrite lookup_empty; set_solver|].
  rewrite filter_cons. case_decide as Hu; simpl; rewrite ?lookup_insert, ?elem_of_cons.
  - case_decide as Hp; [|rewrite IH; naive_solver]. naive_solver.
  - rewrite IH. naive_solver.
Qed.

Lemma star_of_snoc a vid l u :
  u ≠ vid → is_Some (verts a !! u) → star_of a vid (l ++ [u]) = <[(vid, u) := -1]> (star_of a vid l).
Proof.
  intros Hu Hs. apply map_eq. intros [i j]. apply option_eq. intros w.
  rewrite lookup_insert, star_of_lookup, elem_of_app, list_elem_of_singleton.
  case_decide; [|rewrite star_of_lookup]; naive_solver.
Qed.
Lemma star_of_skip a vid l u :
  ¬ (u ≠ vid ∧ is_Some (verts a !! u)) → star_of a vid (l ++ [u]) = star_of a vid l.
Proof. intros Hu. unfold star_of. rewrite filter_app, filter_cons, decide_False by done. by rewrite filter_nil, app_nil_r. Qed.

(** A vertex that is not there has no edges. *)
Lemma rep_isolated a VA EA L v i j : rep n a VA EA L → VA !! v = None → incident v (i, j) → EA !! (i, j) = None.
Proof.
  intros Hr HV Hi. apply (rep_none _ _ _ _ _ _ Hr) in HV. apply eq_None_not_Some.
  intros (_ & [? ?] & [? ?])%(r_edges _ _ _ _ _ Hr)%(r_ends _ _ _ _ _ Hr). destruct Hi as [Hi|Hi]; simpl in Hi; congruence.
Qed.

(** The loop that connects the new vertex *)
Definition connect (vid : Z) (tid : nat) (u : Z) : G unit :=
  let* nu := is_null u in
  if (nu : bool) || (u =? vid) then mret_ tt else
  let* r := on_ds (p_new (Relation vid u (-1)) tid) in
  let* _x := source_emplace vid (vid, u) r in
  let* _x := destination_emplace u (vid, u) r in
  mret_ tt.

Lemma connect_ok (Q : unit → graph → Prop) t a VA EA L k vid vec lk sq tid :
  let a1 := AG (<[vid := vid]> (verts a)) (edges a) in
  p_in tid k (ds t) L → arr (gm VA EA lk sq) (vMeta t) → rep n a1 VA EA L → verts a !! vid = None →
  (∀ i j, incident vid (i, j) → edges a !! (i, j) = None) → Z.of_nat (length vec) ≤ k →
  (∀ u, u ∈ vec → inrange u) → inrange vid → NoDup vec →
  (∀ k' EA' L' t', k - Z.of_nat (length vec) ≤ k' → p_in tid k' (ds t') L' → arr (gm VA EA' lk sq) (vMeta t') →
    rep n (AG (verts a1) (star_of a vid vec ∪ edges a)) VA EA' L' → Q tt t') →
  wp (mfor vec (connect vid tid)) Q t.
Proof.
  intros a1 Hin Ha Hr Hvid Hiso Hk Hrange Hv Hnd HQ.
  apply (wp_mfor vec (connect vid tid) (λ l1 _ t', ∃ k' EA' L', k - Z.of_nat (length l1) ≤ k' ∧ p_in tid k' (ds t') L' ∧
    arr (gm VA EA' lk sq) (vMeta t') ∧ rep n (AG (verts a1) (star_of a vid l1 ∪ edges a)) VA EA' L')).
  - exists k, EA, L. split_and!; [simpl; lia|done|done|]. unfold star_of. simpl. by rewrite map_empty_union.
  - intros l1 u l2 t1 -> (k1 & EA1 & L1 & Hk1 & Hin1 & Ha1 & Hr1). rewrite length_app in *. simpl in Hk |- *.
    assert (inrange u) as Hu by (apply Hrange; set_solver).
    apply NoDup_app in Hnd as (_ & Hdisj & _). assert (u ∉ l1) as Hul by (intros Hx; apply (Hdisj u Hx); by left).
    unfold connect. apply wp_bind. eapply wp_is_null; [exact Ha1|done|]. simpl.
    rewrite (bool_decide_ext _ _ (tvtx_none _ _ _)), (bool_decide_ext _ _ (rep_none _ _ _ _ _ _ Hr1)). simpl.
    destruct (bool_decide _ || (u =? vid)) eqn:Hskip.
    + apply wp_ret. exists k1, EA1, L1. rewrite star_of_skip.
      * split_and!; [lia|done..].
      * apply orb_true_iff in Hskip as [Hs%bool_decide_eq_true|Hs%Z.eqb_eq]; [|naive_solver].
        rewrite lookup_insert in Hs. case_decide; [done|]. rewrite Hs. intros [_ []]. done.
    + apply orb_false_iff in Hskip as [Hs%bool_decide_eq_false Hne%Z.eqb_neq].
      rewrite lookup_insert_ne in Hs by done. assert (is_Some (verts a !! u)) as Hus by (by destruct (verts a !! u)).
      apply wp_bind. eapply wp_pnew; [exact Hin1|lia|]. intros b s2 HLb Hin2.
      assert (is_Some (VA !! vid)) as [bv Hbv] by (apply (r_verts _ _ _ _ _ Hr1); simpl; by rewrite lookup_insert_eq).
      assert (is_Some (VA !! u)) as [bu Hbu] by (apply (r_verts _ _ _ _ _ Hr1); simpl; by rewrite lookup_insert_ne).
      assert (EA1 !! (vid, u) = None) as HE.
      { apply (rep_no_edge _ _ _ _ _ _ Hr1). simpl. apply lookup_union_None. split; [|apply Hiso; by left].
        apply eq_None_not_Some. intros [w (_ & _ & ? & _)%star_of_lookup]. done. }
      eapply (wp_emplace_both (λ _ _, mret_ tt)); [exact Ha1|done..|]. intros l3 Ha3. apply wp_ret.
      unfold emplace in Ha3. rewrite HE in Ha3. simpl in Ha3. eexists (k1 - 1), _, _. split; [lia|]. split; [exact Hin2|]. split; [exact Ha3|].
      rewrite star_of_snoc, <- insert_union_l by done.
      pose proof (rep_insert_edge n _ VA EA1 L1 vid u (-1) b Hr1) as Hnew. simpl in Hnew. rewrite Hbv, Hbu in Hnew.
      apply Hnew; eauto.
  - intros t1 (k1 & EA1 & L1 & Hk1 & Hin1 & Ha1 & Hr1). by eapply HQ.
Qed.

(** A loop that gives the locks back, in reverse order, and increments the
    sequence numbers of the vertices in [P] *)
Lemma release_loop (f : Z → G unit) (P : Z → Prop) `{!∀ u, Decision (P u)} (Q : unit → graph → Prop) t VA EA vs sq :
  (∀ u lk sq' t', u ∈ vs → lk u = true → arr (gm VA EA lk sq') (vMeta t') →
    wp (f u) (λ _ t2, ds t2 = ds t' ∧
      arr (<[u := Vm (tvtx VA EA u) false (if decide (P u) then u32 (sq' u + 1) else sq' u)]> (gm VA EA lk sq')) (vMeta t2)) t') →
  NoDup vs → arr (gm VA EA (held vs) sq) (vMeta t) →
  (∀ l, arr (gm VA EA free (bump (filter P vs) sq)) l → Q tt (Graph (ds t) l)) →
  wp (mfor (reverse vs) f) Q t.
Proof.
  intros Hf Hnd Ha HQ.
  apply (wp_mfor (reverse vs) f (λ l1 l2 t', ds t' = ds t ∧ arr (gm VA EA (held l2) (bump (filter P l1) sq)) (vMeta t'))).
  - split; [done|]. eapply arr_ext; [exact Ha|]. intros v _. unfold gm, bump. simpl. f_equal.
    unfold held. apply bool_decide_ext. by rewrite elem_of_reverse.
  - intros l1 u l2 t1 Hl [Hds Ha1]. assert (u ∈ vs) as Hu by (rewrite <- elem_of_reverse, Hl; set_solver).
    assert (NoDup (l1 ++ u :: l2)) as Hnd' by (by rewrite <- Hl, reverse_Permutation).
    apply NoDup_app in Hnd' as (_ & Hdisj & [Hul2 _]%NoDup_cons).
    assert (u ∉ l1) as Hul by (intros Hx; apply (Hdisj u Hx); by left).
    eapply wp_mono; [apply (Hf u (held (u :: l2)) (bump (filter P l1) sq) t1); [done|by apply bool_decide_eq_true_2; left|exact Ha1]|].
    intros [] t2 [Hds2 Ha2]. split; [congruence|]. eapply arr_ext; [exact Ha2|]. intros v _.
    assert (∀ w, w ∈ filter P l1 → w ∈ l1) as Hsub by (intros w; rewrite list_elem_of_filter; tauto).
    unfold gm, held, bump. rewrite filter_app, filter_cons, filter_nil.
    destruct (decide (v = u)) as [->|Hvu]; [rewrite fn_lookup_insert|rewrite fn_lookup_insert_ne by done]; simpl.
    + rewrite (bool_decide_eq_false_2 (u ∈ l2)), (bool_decide_eq_false_2 (u ∈ filter P l1)) by auto.
      case_decide; [rewrite bool_decide_eq_true_2 by set_solver|rewrite bool_decide_eq_false_2 by (rewrite app_nil_r; auto)]; done.
    + f_equal; [apply bool_decide_ext; set_solver|].
      assert (v ∈ filter P l1 ↔ v ∈ filter P l1 ++ (if decide (P u) then [u] else [])) as Hiff by (case_decide; set_solver).
      by rewrite (bool_decide_ext _ _ Hiff).
  - intros t1 [Hds Ha1]. destruct t1 as [s1 l1]. simpl in *. subst s1. apply HQ.
    eapply arr_ext; [exact Ha1|]. intros v _. unfold gm, bump. simpl. f_equal.
    assert (v ∈ filter P (reverse vs) ↔ v ∈ filter P vs) as Hiff by (rewrite !list_elem_of_filter, elem_of_reverse; done).
    by rewrite (bool_decide_ext _ _ Hiff).
Qed.

Definition release (vid : Z) (u : Z) : G unit :=
  let* n1 := is_null vid in
  let* n2 := is_null u in
  do* (if n1 || n2 then mret_ tt else inc_seq u) in
  unlock u.

Lemma release_ok (Q : unit → graph → Prop) t VA EA vid vec sq :
  arr (gm VA EA (held vec) sq) (vMeta t) → (∀ u, u ∈ vec → inrange u) → inrange vid → is_Some (VA !! vid) → NoDup vec →
  (∀ l, arr (gm VA EA free (bump (filter (λ u, is_Some (VA !! u)) vec) sq)) l → Q tt (Graph (ds t) l)) →
  wp (mfor (reverse vec) (release vid)) Q t.
Proof.
  intros Ha Hrange Hv [bv Hbv] Hnd HQ. eapply (release_loop _ (λ u, is_Some (VA !! u))); [|done|exact Ha|exact HQ].
  intros u lk sq' t' Hu Hlk Ha'. specialize (Hrange u Hu).
  unfold release. eapply wp_null_both; [exact Ha'|done|done|]. rewrite Hbv. simpl. apply wp_bind. case_decide as HP.
  - rewrite bool_decide_eq_false_2 by (by apply not_eq_None_Some). eapply wp_inc_seq; [exact Ha'|done|]. intros l3 Ha3.
    eapply wp_unlock; [exact Ha3|done|by rewrite fn_lookup_insert|]. intros l4 Ha4. split; [done|]. arr_same.
  - rewrite bool_decide_eq_true_2 by (by apply eq_None_not_Some). apply wp_ret.
    eapply wp_unlock; [exact Ha'|done|done|]. intros l4 Ha4. by split.
Qed.

Lemma add_vertex_connected a VA EA L vid b us k sq t vec tid :
  vec = sort_unique (samples us ++ [vid]) →
  rep n a VA EA L → VA !! vid = None → L !! b = None → (∀ u, u ∈ vec → inrange u) →
  p_out tid k (ds t) (<[b := Vertex vid vid]> L) [b] → arr (gm VA EA (held vec) sq) (vMeta t) →
  1 + Z.of_nat n ≤ k →
  wp (op_holder tid (do* set_vertex vid (Some (TVertex b vid ∅ ∅)) in mfor vec (connect vid tid)))
    (λ _ t', ∃ k' EA' L', k - (1 + Z.of_nat n) ≤ k' ∧ p_idle k' (ds t') L' ∧
      arr (gm (<[vid := b]> VA) EA' (held vec) sq) (vMeta t') ∧
      rep n (spec_gop (AddVertex vid us) a).2 (<[vid := b]> VA) EA' L') t.
Proof.
  intros Hvec Hr HV HLb Hrange Ho Ha Hk. assert (vid ∈ vec) as Hin by (rewrite Hvec, sort_unique_elem; set_solver).
  pose proof (proj1 (rep_none _ _ _ _ _ _ Hr) HV) as HVn.
  assert (∀ i j, incident vid (i, j) → EA !! (i, j) = None) as Hiso by (intros i j; by eapply rep_isolated).
  assert (NoDup vec) as Hnd by (rewrite Hvec; apply sort_unique_NoDup).
  assert (length vec ≤ n)%nat as Hlen by (by apply NoDup_range_length).
  eapply wp_op_holder; [exact Ho|lia|]. intros s1 Hs1 _. apply wp_bind.
  eapply wp_set_vertex; [exact Ha|by apply Hrange|]. intros l1 Hl1.
  eapply (connect_ok _ _ a (<[vid := b]> VA) EA (<[b:=Vertex vid vid]> L) (k - 1) vid vec (held vec) sq);
    [exact Hs1| |by apply rep_insert_vertex; auto|done| |lia|done|by apply Hrange|done|].
  - eapply arr_ext; [exact Hl1|]. intros v Hv. unfold gm, tvtx. simpl. destruct (decide (v = vid)) as [->|Hne].
    + rewrite fn_lookup_insert, lookup_insert_eq. simpl. do 2 f_equal.
      f_equal; apply emap_eq; intros i j; rewrite ?out_lookup, ?inn_lookup, lookup_empty; case_decide; try done;
        symmetry; apply Hiso; unfold incident; simpl; auto.
    + by rewrite fn_lookup_insert_ne, lookup_insert_ne by done.
  - intros i j Hij. apply (rep_no_edge _ _ _ _ _ _ Hr). by apply Hiso.
  - intros k' EA' L' t' Hk' Hin' Ha' Hr'. exists k', L'. split; [exact Hin'|]. intros s3 Hid3 _.
    exists k', EA', L'. split; [lia|]. split; [exact Hid3|]. split; [exact Ha'|].
    unfold spec_gop. rewrite HVn. unfold star. by rewrite <- Hvec.
Qed.

Lemma add_vertex_ok k a sq t vid us tid :
  g_ok k a sq t → 2 + Z.of_nat n ≤ k → (tid < p_threads)%nat → inrange vid → (∀ u, u ∈ us → inrange u) →
  wp (add_vertex vid us tid) (implements (AddVertex vid us) (2 + Z.of_nat n) k a sq) t.
Proof.
  intros (VA & EA & L & Hid & Ha & Hr) Hk Ht Hv Hus.
  destruct (p_new_law tid k (ds t) L [] (Vertex vid vid) (p_enter _ _ _ _ Hid Ht)) as (b & s1 & H1 & Hb & HLb & Ho); [lia|].
  unfold add_vertex. set (vec := sort_unique (samples us ++ [vid])).
  assert (∀ u, u ∈ vec → inrange u) as Hrange.
  { intros u. unfold vec. rewrite sort_unique_elem, elem_of_app, list_elem_of_singleton. intros [Hu| ->]; [|done].
    apply Hus. unfold samples in Hu. apply list_elem_of_omap in Hu as ([i u'] & Hin & Heq).
    apply elem_of_zip_r in Hin. simpl in Heq. case_match; by simplify_eq. }
  assert (NoDup vec) as Hnd by apply sort_unique_NoDup.
  assert (vid ∈ vec) as Hvin by (unfold vec; rewrite sort_unique_elem; set_solver).
  unfold new_tVertex. apply wp_bind, wp_bind, wp_on_ds. eapply wp_eq; [exact H1|]. apply wp_ret. simpl in Ho |- *.
  apply wp_bind. eapply wp_lock_all; [exact Ha|done|done|]. intros l1 Ha1. apply wp_bind. eapply wp_is_null; [exact Ha1|done|].
  simpl. rewrite (bool_decide_ext _ _ (tvtx_none _ _ _)).
  assert (seq_rel 1 a (spec_gop (AddVertex vid us) a).2 sq (bump (filter (λ u, is_Some (VA !! u) ∨ u = vid) vec) sq)) as Hseq.
  { intros v Hvr. unfold bump. case_bool_decide as Hin; [right; exists 1; split; [lia|done]|left]. split; [done|].
    rewrite list_elem_of_filter in Hin. unfold spec_gop. destruct (verts a !! vid) eqn:Hvv; [by split|]. simpl. split; simpl.
    - rewrite lookup_insert_ne; [done|]. intros <-. tauto.
    - intros [i j] Hij. apply lookup_union_r. apply eq_None_not_Some. intros [w (-> & _ & Hj & Hjv & Hjs)%star_of_lookup].
      apply Hin. destruct Hij as [<-|<-]; simpl; [tauto|]. split; [|done]. left. by apply (r_verts _ _ _ _ _ Hr). }
  apply wp_bind. case_bool_decide as HV.
  - eapply wp_mono; [eapply (add_vertex_connected a VA EA L vid b us (k - 1)); try done; lia|].
    intros [] t2 (k' & EA' & L' & Hk' & Hid2 & Ha2 & Hr2). apply wp_bind.
    eapply (release_ok _ _ _ EA' vid vec sq); [exact Ha2|done|done|by rewrite lookup_insert_eq|done|]. intros l3 Ha3.
    apply wp_bind, wp_ret, wp_ret. unfold implements. split.
    { apply (rep_none _ _ _ _ _ _ Hr) in HV. unfold spec_gop. by rewrite HV. }
    eexists k', _. split; [lia|]. split; [|exact Hseq]. exists (<[vid := b]> VA), EA', L'. split; [done|]. split; [|done].
    eapply arr_ext; [exact Ha3|]. intros v _. unfold gm, bump. f_equal.
    rewrite (bool_decide_ext _ (v ∈ filter (λ u, is_Some (VA !! u) ∨ u = vid) vec)); [done|].
    rewrite !list_elem_of_filter, lookup_insert. case_decide; naive_solver.
  - destruct (VA !! vid) as [bv|] eqn:HVv; [|done]. destruct (rep_vertex _ _ _ _ _ _ _ Hr HVv) as (lbl & _ & Hlbl).
    apply wp_ret. apply wp_bind. eapply (release_ok _ _ VA EA vid vec sq); [exact Ha1|done|done|by rewrite HVv|done|].
    intros l3 Ha3. apply wp_bind. unfold delete_tVertex. simpl. destruct (Z.eqb_spec b 0); [done|].
    eapply wp_drop_new; [exact Ho|done|]. intros s4 Hid4. apply wp_ret. unfold implements. split.
    { unfold spec_gop. by rewrite Hlbl. }
    eexists (k - 1), _. split; [lia|]. split; [|exact Hseq]. unfold spec_gop. rewrite Hlbl.
    exists VA, EA, L. split; [done|]. split; [|done].
    eapply arr_ext; [exact Ha3|]. intros v _. unfold gm, bump. f_equal.
    rewrite (bool_decide_ext _ (v ∈ filter (λ u, is_Some (VA !! u) ∨ u = vid) vec)); [done|].
    rewrite !list_elem_of_filter. naive_solver.
Qed.

(** *** [remove_vertex] *)

(** The edges that satisfy [P] *)
Definition keep (P : Z * Z → bool) (E : emap) : emap := filter (λ p, P p.1 = true) E.
Lemma keep_lookup P E p : keep P E !! p = if P p then E !! p else None.
Proof.
  unfold keep. apply option_eq. intros b. rewrite map_lookup_filter_Some. simpl. destruct (P p); naive_solver.
Qed.
Lemma keep_ext P P' E : (∀ p, is_Some (E !! p) → P p = P' p) → keep P E = keep P' E.
Proof.
  intros H. apply map_eq. intros p. rewrite !keep_lookup. destruct (E !! p) eqn:HE; [|by destruct (P p), (P' p)].
  by rewrite (H p) by (by eexists).
Qed.
Lemma keep_all E : keep (λ _, true) E = E.
Proof. apply map_eq. intros p. by rewrite keep_lookup. Qed.
Lemma keep_drop v E : keep (λ p, negb (bool_decide (incident v p))) E = drop_vertex v E.
Proof. apply emap_eq. intros i j. rewrite keep_lookup, drop_lookup. repeat case_bool_decide; by case_decide. Qed.

(** The part [P] of the edges is still there. *)
Definition rep_part a VA EA (P : Z * Z → bool) L : Prop := rep n (AG (verts a) (keep P (edges a))) VA (keep P EA) L.

Lemma rep_part_all a VA EA L : rep n a VA EA L → rep_part a VA EA (λ _, true) L.
Proof. intros Hr. unfold rep_part. rewrite !keep_all. by destruct a. Qed.
Lemma rep_part_ext a VA EA P P' L :
  (∀ p, is_Some (EA !! p) ↔ is_Some (edges a !! p)) → (∀ p, is_Some (EA !! p) → P p = P' p) →
  rep_part a VA EA P L → rep_part a VA EA P' L.
Proof.
  intros He HP. unfold rep_part. rewrite (keep_ext P P' EA), (keep_ext P P' (edges a)); [done| |done].
  intros p Hp. apply HP. by apply He.
Qed.
Lemma rep_part_delete a VA EA P L p b :
  rep_part a VA EA P L → EA !! p = Some b → P p = true →
  (∃ pl, L !! b = Some pl) ∧ rep_part a VA EA (λ q, P q && negb (bool_decide (q = p))) (delete b L).
Proof.
  intros Hr HE HP. assert (keep P EA !! p = Some b) as Hk by (by rewrite keep_lookup, HP). destruct p as [s d]. split.
  - destruct (rep_edge _ _ _ _ _ _ _ _ Hr Hk) as (w & ? & _). by eexists.
  - pose proof (rep_delete_edge _ _ _ _ _ _ _ _ Hr Hk) as Hd. simpl in Hd. unfold rep_part.
    assert (∀ E : emap, delete (s, d) (keep P E) = keep (λ q, P q && negb (bool_decide (q = (s, d)))) E) as Hdel.
    { intros E. apply map_eq. intros q. rewrite lookup_delete, !keep_lookup. case_decide as Hq; case_bool_decide; subst; try done.
      - by rewrite andb_false_r.
      - by rewrite andb_true_r. }
    by rewrite !Hdel in Hd.
Qed.

(** The neighbours, read from the relations *)
Lemma mmap_rels (f : Z → G Z) (proj : Z * Z → Z) (Q : list Z → graph → Prop) t (m : list ((Z * Z) * Z)) :
  (∀ p b, (p, b) ∈ m → f b t = (Ret (proj p), t)) → Q (proj <$> m.*1) t → wp (mmap f m.*2) Q t.
Proof.
  revert Q. induction m as [|[p b] m IH]; intros Q Hf HQ; simpl; [by apply wp_ret|]. apply wp_bind.
  eapply wp_eq; [apply Hf; by left|]. apply wp_bind. apply IH; [|by apply wp_ret].
  intros p' b' Hin. apply Hf. by right.
Qed.

Lemma rel_dest_idle k t a VA EA L i j b :
  p_idle k (ds t) L → rep n a VA EA L → EA !! (i, j) = Some b → rel_dest b t = (Ret j, t) ∧ rel_src b t = (Ret i, t).
Proof.
  intros Hid Hr HE. destruct (rep_edge _ _ _ _ _ _ _ _ Hr HE) as (w & HLb & _).
  unfold rel_dest, rel_src, mbind_, on_ds. rewrite (p_get_idle_law k (ds t) L b _ Hid HLb). by destruct t.
Qed.

(** The vertices that step 2 locks *)
Definition vertices_of (EA : emap) (vid : Z) : list Z :=
  sort_unique (((λ p, p.1.2) <$> map_to_list (out vid EA)) ++ ((λ p, p.1.1) <$> map_to_list (inn vid EA)) ++ [vid]).

Lemma vertices_of_elem EA vid x :
  x ∈ vertices_of EA vid ↔ x = vid ∨ is_Some (EA !! (vid, x)) ∨ is_Some (EA !! (x, vid)).
Proof.
  unfold vertices_of. rewrite sort_unique_elem, !elem_of_app, list_elem_of_singleton. split.
  - intros [H|[H|H]]; [right; left|right; right|by left].
    + apply list_elem_of_fmap in H as ([[i j] b] & -> & H%elem_of_map_to_list). rewrite out_lookup in H.
      case_decide; simplify_eq. by eexists.
    + apply list_elem_of_fmap in H as ([[i j] b] & -> & H%elem_of_map_to_list). rewrite inn_lookup in H.
      case_decide; simplify_eq. by eexists.
  - intros [->|[[b Hb]|[b Hb]]]; [auto|left|right; left]; apply list_elem_of_fmap.
    + exists ((vid, x), b). split; [done|]. apply elem_of_map_to_list. by rewrite out_lookup, decide_True.
    + exists ((x, vid), b). split; [done|]. apply elem_of_map_to_list. by rewrite inn_lookup, decide_True.
Qed.

Lemma vertices_of_range a VA EA L vid x : rep n a VA EA L → inrange vid → x ∈ vertices_of EA vid → inrange x.
Proof.
  intros Hr Hv [->|[H|H]]%vertices_of_elem; [done|..];
    apply (r_edges _ _ _ _ _ Hr), (r_ends _ _ _ _ _ Hr) in H as (_ & ? & ?); by apply (r_range _ _ _ _ _ Hr).
Qed.
Lemma vertices_of_length a VA EA L vid : rep n a VA EA L → inrange vid → (length (vertices_of EA vid) ≤ n)%nat.
Proof.
  intros Hr Hv. apply NoDup_range_length; [apply sort_unique_NoDup|]. intros x. by eapply vertices_of_range.
Qed.
Lemma out_length a VA EA L vid : rep n a VA EA L → (length (map_to_list (out vid EA)) ≤ n)%nat.
Proof.
  intros Hr. rewrite <- (length_fmap (λ p, p.1.2)). apply NoDup_range_length.
  - apply NoDup_fmap_2_strong; [|apply NoDup_map_to_list]. intros [[i j] b] [[i' j'] b'] H%elem_of_map_to_list H'%elem_of_map_to_list.
    rewrite out_lookup in H, H'. repeat case_decide; simplify_eq. simpl. intros <-. congruence.
  - intros x ([[i j] b] & -> & H%elem_of_map_to_list)%list_elem_of_fmap. rewrite out_lookup in H. case_decide; [|done].
    assert (is_Some (EA !! (i, j))) as He by (by eexists).
    apply (r_edges _ _ _ _ _ Hr), (r_ends _ _ _ _ _ Hr) in He as (_ & _ & ?). by apply (r_range _ _ _ _ _ Hr).
Qed.

(** The loop that takes the edges to and from [vid] out of the maps of the
    neighbours, and deletes those to [vid] *)
Definition disconnect (vid : Z) (tid : nat) (other : Z) : G unit :=
  if other =? vid then mret_ tt else
  let* so := source other in
  let* de := destination other in
  do* (if negb (has_relation so (other, vid)) && negb (has_relation de (vid, other))
       then mthrow (AssertFail "abort()") else mret_ tt) in
  let* ret1 := remove_source other (other, vid) in
  let* ret2 := remove_destination other (vid, other) in
  do* (match ret1 with Some r => on_ds (p_delete r tid) | None => mret_ tt end) in
  let* so := source other in
  let* de := destination other in
  massert (negb (has_relation so (other, vid)) && negb (has_relation de (vid, other))) "!has_relation".

(** After the vertices [l]: the payloads, and the maps of the other vertices. *)
Definition paid (vid : Z) (l : list Z) (p : Z * Z) : bool := negb (bool_decide (p.2 = vid ∧ p.1 ∈ l)).
Definition unlinked (vid : Z) (l : list Z) (p : Z * Z) : bool :=
  negb (bool_decide ((p.1 = vid ∧ p.2 ∈ l) ∨ (p.2 = vid ∧ p.1 ∈ l))).
Definition dm VA EA vid (l : list Z) (lk : Z → bool) (sq : Z → Z) (v : Z) : VertexMeta :=
  Vm (if decide (v = vid) then tvtx VA EA v else tvtx VA (keep (unlinked vid l) EA) v) (lk v) (sq v).

Lemma unlinked_snoc vid l u i j :
  unlinked vid (l ++ [u]) (i, j) = unlinked vid l (i, j) && negb (bool_decide ((i, j) = (vid, u) ∨ (i, j) = (u, vid))).
Proof.
  unfold unlinked. simpl. rewrite <- negb_orb. f_equal.
  repeat case_bool_decide; simpl; try done; exfalso; set_solver.
Qed.

Lemma dm_skip VA EA vid l lk sq x : EA !! (vid, vid) = None → arr (dm VA EA vid l lk sq) x → arr (dm VA EA vid (l ++ [vid]) lk sq) x.
Proof.
  intros HE Ha. eapply arr_ext; [exact Ha|]. intros v _. unfold dm. f_equal. case_decide; [done|].
  rewrite (keep_ext (unlinked vid l) (unlinked vid (l ++ [vid]))); [done|]. intros [i j] Hp.
  rewrite unlinked_snoc. rewrite bool_decide_eq_false_2; [by rewrite andb_true_r|].
  intros Hq. assert ((i, j) = (vid, vid)) as E by tauto. rewrite E, HE in Hp. by destruct Hp.
Qed.

Lemma dm_step VA EA vid l lk sq u b x :
  u ≠ vid → VA !! u = Some b →
  let E := keep (unlinked vid l) EA in
  arr (<[u := Vm (Some (TVertex b u (delete (u, vid) (out u E)) (delete (vid, u) (inn u E)))) (lk u) (sq u)]>
    (dm VA EA vid l lk sq)) x →
  arr (dm VA EA vid (l ++ [u]) lk sq) x.
Proof.
  intros Hne HVu E Ha. eapply arr_ext; [exact Ha|]. intros v _.
  assert (∀ i j, keep (unlinked vid (l ++ [u])) EA !! (i, j) =
    if decide ((i, j) = (vid, u) ∨ (i, j) = (u, vid)) then None else E !! (i, j)) as Hk.
  { intros i j. unfold E. rewrite !keep_lookup, unlinked_snoc. case_decide as Hd.
    - by rewrite bool_decide_eq_true_2, andb_false_r.
    - by rewrite bool_decide_eq_false_2, andb_true_r. }
  destruct (decide (v = u)) as [->|Hvu].
  - rewrite fn_lookup_insert. unfold dm. rewrite decide_False, (tvtx_some _ _ _ _ HVu) by done. do 2 f_equal.
    f_equal; apply emap_eq; intros i j; rewrite lookup_delete, ?out_lookup, ?inn_lookup, Hk;
      repeat case_decide; simplify_eq; try done; naive_solver.
  - rewrite fn_lookup_insert_ne by done. unfold dm. f_equal. case_decide; [done|]. unfold tvtx.
    destruct (VA !! v); [|done]. simpl. do 2 f_equal; apply emap_eq; intros i j; rewrite ?out_lookup, ?inn_lookup, Hk;
      repeat case_decide; simplify_eq; try done; naive_solver.
Qed.

(** The loop over the neighbours has visited [l1]. *)
Definition visited tid k a VA EA vid lk sq (l1 : list Z) t : Prop := ∃ k' L',
  k - Z.of_nat (length l1) ≤ k' ∧ p_in tid k' (ds t) L' ∧ arr (dm VA EA vid l1 lk sq) (vMeta t) ∧
  rep_part a VA EA (paid vid l1) L'.

Lemma loop_free a VA EA L v : rep n a VA EA L → EA !! (v, v) = None.
Proof.
  intros Hr. apply (rep_no_edge _ _ _ _ _ _ Hr), eq_None_not_Some. by intros [? _]%(r_ends _ _ _ _ _ Hr).
Qed.
Lemma paid_snoc vid l1 u p : u ≠ vid → paid vid (l1 ++ [u]) p = paid vid l1 p && negb (bool_decide (p = (u, vid))).
Proof.
  destruct p as [i j]. intros Hne. unfold paid. simpl. rewrite <- negb_orb. f_equal.
  repeat case_bool_decide; simpl; try done; exfalso; set_solver.
Qed.
Lemma paid_snoc_self VA EA a L vid l1 p : rep n a VA EA L → is_Some (EA !! p) → paid vid (l1 ++ [vid]) p = paid vid l1 p.
Proof.
  destruct p as [i j]. intros Hr Hp. unfold paid. simpl. f_equal. apply bool_decide_ext.
  rewrite elem_of_app, list_elem_of_singleton. split; [|tauto]. intros [-> [?| ->]]; [done|].
  rewrite (loop_free _ _ _ _ _ Hr) in Hp. by destruct Hp.
Qed.
Lemma visited_start tid k a VA EA L vid lk sq t :
  p_in tid k (ds t) L → arr (gm VA EA lk sq) (vMeta t) → rep n a VA EA L → visited tid k a VA EA vid lk sq [] t.
Proof.
  intros Hin Ha Hr. exists k, L. split; [simpl; lia|]. split; [done|]. split.
  - eapply arr_ext; [exact Ha|]. intros v _. unfold dm, gm. f_equal. case_decide; [done|].
    rewrite (keep_ext (unlinked vid []) (λ _, true)), keep_all; [done|]. intros [i j] _. unfold unlinked.
    rewrite bool_decide_eq_false_2; [done|]. set_solver.
  - eapply rep_part_ext; [apply (r_edges _ _ _ _ _ Hr)| |by apply rep_part_all]. intros [i j] _. unfold paid.
    rewrite bool_decide_eq_false_2; [done|]. set_solver.
Qed.

(** One neighbour *)
Lemma disconnect_one t a VA EA L k vid lk sq tid l1 u :
  rep n a VA EA L → inrange u → u ≠ vid → u ∉ l1 → Z.of_nat (length l1) < k →
  is_Some (EA !! (u, vid)) ∨ is_Some (EA !! (vid, u)) → visited tid k a VA EA vid lk sq l1 t →
  wp (disconnect vid tid u) (λ _, visited tid k a VA EA vid lk sq (l1 ++ [u])) t.
Proof.
  intros Hr Hur Hne Hul Hk Hnb (k1 & L1 & Hk1 & Hin1 & Ha1 & Hr1). unfold disconnect.
  rewrite (proj2 (Z.eqb_neq u vid) Hne).
  assert (is_Some (VA !! u)) as [bu HVu].
  { apply (r_verts _ _ _ _ _ Hr). destruct Hnb as [H|H]; by apply (r_edges _ _ _ _ _ Hr), (r_ends _ _ _ _ _ Hr) in H as (_ & ? & ?). }
  set (E := keep (unlinked vid l1) EA).
  assert (idxToVertex (dm VA EA vid l1 lk sq u) = Some (TVertex bu u (out u E) (inn u E))) as Hidx.
  { unfold dm. simpl. rewrite decide_False by done. by apply tvtx_some. }
  assert (out u E !! (u, vid) = EA !! (u, vid) ∧ inn u E !! (vid, u) = EA !! (vid, u)) as [Ho Hi].
  { rewrite out_lookup, inn_lookup, !decide_True by done. unfold E. rewrite !keep_lookup. unfold unlinked. simpl.
    rewrite !bool_decide_eq_false_2 by naive_solver. done. }
  apply wp_bind. eapply wp_source; [exact Ha1|done|exact Hidx|]. apply wp_bind. eapply wp_destination; [exact Ha1|done|exact Hidx|].
  simpl. unfold has_relation at 1 2. rewrite Ho, Hi. apply wp_bind.
  rewrite <- negb_orb. replace (negb _) with false by (symmetry; apply negb_false_iff, orb_true_iff; destruct Hnb; [left|right]; by apply bool_decide_eq_true_2).
  apply wp_ret. apply wp_bind. eapply wp_update_source; [exact Ha1|done|exact Hidx|]. intros x2 Ha2. simpl in Ha2 |- *. rewrite Ho.
  apply wp_bind. eapply wp_update_destination; [exact Ha2|done|by rewrite fn_lookup_insert|]. intros x3 Ha3.
  rewrite fn_lookup_insert in Ha3. simpl in Ha3 |- *. apply wp_bind.
  assert (∀ k2 s2 L2, k1 - 1 ≤ k2 → p_in tid k2 s2 L2 → rep_part a VA EA (paid vid (l1 ++ [u])) L2 →
    wp (let* so := source u in let* de := destination u in
        massert (negb (has_relation so (u, vid)) && negb (has_relation de (vid, u))) "!has_relation")
      (λ _, visited tid k a VA EA vid lk sq (l1 ++ [u])) (Graph s2 x3)) as Hend.
  { intros k2 s2 L2 Hk2 Hin2 Hr2. apply wp_bind. eapply wp_source; [exact Ha3|done|by rewrite fn_lookup_insert|].
    apply wp_bind. eapply wp_destination; [exact Ha3|done|by rewrite fn_lookup_insert|]. simpl.
    apply wp_assert; [by unfold has_relation; rewrite !lookup_delete_eq|]. exists k2, L2. rewrite length_app. split; [simpl; lia|].
    split; [done|]. split; [|done]. eapply dm_step; [done|exact HVu|]. eapply arr_ext; [exact Ha3|]. intros v _.
    unfold insert, fn_insert. by case_decide. }
  destruct (EA !! (u, vid)) as [b|] eqn:HE.
  - destruct (rep_part_delete _ _ _ _ _ _ _ Hr1 HE) as [[pl HLb] Hr2].
    { unfold paid. simpl. rewrite bool_decide_eq_false_2; naive_solver. }
    eapply wp_pdelete; [exact Hin1|lia|exact HLb|]. intros s4 Hin4. apply (Hend (k1 - 1) s4 (delete b L1)); [lia|done|].
    eapply rep_part_ext; [apply (r_edges _ _ _ _ _ Hr)| |exact Hr2]. intros p _. by rewrite paid_snoc.
  - apply wp_ret. apply (Hend k1 (ds t) L1); [lia|done|].
    eapply rep_part_ext; [apply (r_edges _ _ _ _ _ Hr)| |exact Hr1]. intros p Hp. rewrite paid_snoc by done.
    rewrite bool_decide_eq_false_2, andb_true_r; [done|]. intros ->. rewrite HE in Hp. by destruct Hp.
Qed.

Lemma disconnect_ok (Q : unit → graph → Prop) t a VA EA L k vid lk sq tid :
  p_in tid k (ds t) L → arr (gm VA EA lk sq) (vMeta t) → rep n a VA EA L → inrange vid → is_Some (VA !! vid) →
  Z.of_nat n ≤ k →
  (∀ k' L' t', k - Z.of_nat n ≤ k' → p_in tid k' (ds t') L' →
    arr (dm VA EA vid (vertices_of EA vid) lk sq) (vMeta t') →
    rep_part a VA EA (paid vid (vertices_of EA vid)) L' → Q tt t') →
  wp (mfor (vertices_of EA vid) (disconnect vid tid)) Q t.
Proof.
  intros Hin Ha Hr Hv HVv Hk HQ. pose proof (vertices_of_length _ _ _ _ _ Hr Hv) as Hlen.
  set (vs := vertices_of EA vid) in *.
  apply (wp_mfor vs (disconnect vid tid) (λ l1 _, visited tid k a VA EA vid lk sq l1)); [by eapply visited_start| |].
  - intros l1 u l2 t1 Hvs Hvis.
    assert (u ∈ vs) as Hu by (rewrite Hvs; set_solver). assert (length l1 < n)%nat as Hl1 by (rewrite Hvs, length_app in Hlen; simpl in Hlen; lia).
    assert (NoDup (l1 ++ u :: l2)) as Hnd by (rewrite <- Hvs; apply sort_unique_NoDup).
    apply NoDup_app in Hnd as (_ & Hdisj & _). assert (u ∉ l1) as Hul by (intros Hx; apply (Hdisj u Hx); by left).
    pose proof (vertices_of_range _ _ _ _ _ _ Hr Hv Hu) as Hur. destruct (decide (u = vid)) as [->|Hne].
    + unfold disconnect. rewrite Z.eqb_refl. apply wp_ret. destruct Hvis as (k1 & L1 & Hk1 & Hin1 & Ha1 & Hr1).
      exists k1, L1. rewrite length_app. split; [simpl; lia|]. split; [done|]. split; [apply dm_skip; [by eapply loop_free|done]|].
      eapply rep_part_ext; [apply (r_edges _ _ _ _ _ Hr)| |exact Hr1]. intros p Hp. symmetry. exact (paid_snoc_self _ _ _ _ _ _ _ Hr Hp).
    + eapply disconnect_one; [exact Hr|done|done|done|lia| |done].
      apply vertices_of_elem in Hu as [?|[?|?]]; [done|by right|by left].
  - intros t1 (k1 & L1 & Hk1 & Hin1 & Ha1 & Hr1). eapply (HQ k1 L1); [lia|done..].
Qed.

(** The loop that deletes the relations of [vid]: those in the list [m] *)
Lemma delete_rels_ok (Q : unit → graph → Prop) a VA EA tid (m : list ((Z * Z) * Z)) : ∀ t k P L,
  p_in tid k (ds t) L → rep_part a VA EA P L → Z.of_nat (length m) ≤ k → NoDup m.*1 →
  (∀ p b, (p, b) ∈ m → EA !! p = Some b ∧ P p = true) →
  (∀ s L', p_in tid (k - Z.of_nat (length m)) s L' →
    rep_part a VA EA (λ p, P p && negb (bool_decide (p ∈ m.*1))) L' → Q tt (Graph s (vMeta t))) →
  wp (mfor m.*2 (λ r, on_ds (p_delete r tid))) Q t.
Proof.
  induction m as [|[p b] m IH]; intros t k P L Hin Hr Hk Hnd Hm HQ.
  - apply wp_ret. destruct t as [s x]. apply (HQ s L); [by rewrite Z.sub_0_r|]. simpl in *.
    unfold rep_part in *. rewrite !(keep_ext (λ p, P p && true) P); [done|..]; intros p _; apply andb_true_r.
  - change (((p, b) :: m).*1) with (p :: m.*1) in *. change (((p, b) :: m).*2) with (b :: m.*2) in *. cbn [length] in *.
    destruct (Hm p b) as [HE HP]; [by left|]. apply NoDup_cons in Hnd as [Hp Hnd].
    destruct (rep_part_delete _ _ _ _ _ _ _ Hr HE HP) as [[pl HLb] Hr'].
    apply wp_bind. eapply wp_pdelete; [exact Hin|lia|exact HLb|]. intros s1 Hin1.
    apply (IH (Graph s1 (vMeta t)) (k - 1) (λ q, P q && negb (bool_decide (q = p))) (delete b L)); [done|exact Hr'|lia|done|..].
    + intros q c Hq. destruct (Hm q c) as [? ->]; [by right|]. split; [done|].
      rewrite bool_decide_eq_false_2; [done|]. intros ->. apply Hp. apply list_elem_of_fmap. by exists (p, c).
    + intros s L' Hin' Hr2. apply (HQ s L').
      * by replace (k - Z.of_nat (Datatypes.S (length m))) with (k - 1 - Z.of_nat (length m)) by lia.
      * unfold rep_part in *. rewrite !(keep_ext (λ q, P q && negb (bool_decide (q ∈ p :: m.*1)))
          (λ q, P q && negb (bool_decide (q = p)) && negb (bool_decide (q ∈ m.*1)))); [done|..];
          intros q _; rewrite <- andb_assoc, <- negb_orb; do 2 f_equal; repeat case_bool_decide; set_solver.
Qed.

(** Deleting the vertex itself *)
Lemma destroy_vertex_ok (Q : unit → graph → Prop) t a VA EA L k vid b lk sq m tid :
  p_in tid k (ds t) L → 0 < k → arr m (vMeta t) → inrange vid → VA !! vid = Some b →
  idxToVertex (m vid) = Some (TVertex b vid ∅ ∅) → vertexLocks (m vid) = lk vid → vertexSeqs (m vid) = sq vid →
  (∀ v, inrange v → v ≠ vid → m v = gm VA (drop_vertex vid EA) lk sq v) →
  rep_part a VA EA (λ p, negb (bool_decide (incident vid p))) L →
  (∀ s L' x, p_in tid (k - 1) s L' → arr (gm (delete vid VA) (drop_vertex vid EA) lk sq) x →
    rep n (AG (delete vid (verts a)) (drop_vertex vid (edges a))) (delete vid VA) (drop_vertex vid EA) L' →
    Q tt (Graph s x)) →
  wp (destroy vid tid) Q t.
Proof.
  intros Hin Hk Ha Hv HV Hidx Hlk Hsq Hoth Hr HQ. unfold rep_part in Hr. rewrite !keep_drop in Hr.
  destruct (rep_vertex _ _ _ _ _ _ _ Hr HV) as (lbl & HLb & _).
  unfold destroy. apply wp_bind. eapply wp_vertex; [exact Ha|done|]. rewrite Hidx. unfold delete_tVertex. simpl.
  pose proof (p_nonnull_law _ _ _ _ _ _ Hin HLb).
  destruct (Z.eqb_spec b 0); [done|]. apply wp_bind. eapply wp_pdelete; [exact Hin|done|exact HLb|].
  intros s1 Hin1. eapply wp_set_vertex; [exact Ha|done|]. intros x Hx. eapply HQ; [exact Hin1| |].
  - eapply arr_ext; [exact Hx|]. intros v Hvr. unfold gm. destruct (decide (v = vid)) as [->|Hne].
    + rewrite fn_lookup_insert, Hlk, Hsq. unfold tvtx. by rewrite lookup_delete_eq.
    + rewrite fn_lookup_insert_ne, Hoth by done. unfold gm, tvtx. by rewrite lookup_delete_ne.
  - apply (rep_delete_vertex _ _ _ _ _ _ _ Hr HV). intros i j [c Hc]. rewrite drop_lookup in Hc. by case_decide.
Qed.

(** The whole of step 3 *)
Lemma remove_body_ok t a VA EA L k vid lk sq tid :
  p_idle k (ds t) L → arr (gm VA EA lk sq) (vMeta t) → rep n a VA EA L → inrange vid → is_Some (VA !! vid) →
  2 * Z.of_nat n + 2 ≤ k → (tid < p_threads)%nat →
  wp (op_holder tid (
      do* mfor (vertices_of EA vid) (disconnect vid tid) in
      let* out := source vid in
      do* mfor (rels out) (λ r, on_ds (p_delete r tid)) in
      do* set_source vid ∅ in
      do* set_destination vid ∅ in
      destroy vid tid))
    (λ _ t', ∃ k' L', k - (2 * Z.of_nat n + 2) ≤ k' ∧ p_idle k' (ds t') L' ∧
      arr (gm (delete vid VA) (drop_vertex vid EA) lk sq) (vMeta t') ∧
      rep n (AG (delete vid (verts a)) (drop_vertex vid (edges a))) (delete vid VA) (drop_vertex vid EA) L') t.
Proof.
  intros Hid Ha Hr Hv HVv Hk Ht. pose proof HVv as [b HVb].
  eapply wp_op_holder; [by apply p_enter|lia|]. intros s1 Hin _. apply wp_bind.
  eapply disconnect_ok; [exact Hin|exact Ha|exact Hr|done|done|lia|]. intros k1 L1 t1 Hk1 Hin1 Ha1 Hr1.
  set (vs := vertices_of EA vid) in *.
  assert (idxToVertex (dm VA EA vid vs lk sq vid) = Some (TVertex b vid (out vid EA) (inn vid EA))) as Hidx.
  { unfold dm. simpl. rewrite decide_True by done. by apply tvtx_some. }
  apply wp_bind. eapply wp_source; [exact Ha1|done|exact Hidx|]. simpl. unfold rels. apply wp_bind.
  assert (∀ i j, is_Some (EA !! (i, j)) → incident vid (i, j) → i ∈ vs ∧ j ∈ vs ∧ i ≠ j) as Hinc.
  { intros i j He Hi. unfold vs. rewrite !vertices_of_elem.
    assert (i ≠ j) by (apply (r_edges _ _ _ _ _ Hr), (r_ends _ _ _ _ _ Hr) in He; tauto). destruct Hi as [<-|<-]; simpl; auto. }
  pose proof (out_length _ _ _ _ vid Hr) as Hol.
  apply (delete_rels_ok _ a VA EA tid (map_to_list (out vid EA)) t1 k1 (paid vid vs) L1);
    [exact Hin1|exact Hr1|lia|apply NoDup_fst_map_to_list|..].
  { intros [i j] c Hc%elem_of_map_to_list. rewrite out_lookup in Hc. case_decide as Hi; [|done]. subst i. split; [done|].
    unfold paid. simpl. rewrite bool_decide_eq_false_2; [done|]. intros [-> _].
    destruct (Hinc vid vid) as (_ & _ & ?); [by eexists|by left|done]. }
  intros s2 L2 Hin2 Hr2. apply wp_bind. eapply wp_set_source; [exact Ha1|done|exact Hidx|]. intros x2 Ha2.
  apply wp_bind. eapply wp_set_destination; [exact Ha2|done|by rewrite fn_lookup_insert|]. intros x3 Ha3. simpl in Ha3.
  eapply (destroy_vertex_ok _ _ a VA EA L2 _ vid b lk sq); [exact Hin2|lia|exact Ha3|done|done|by repeat (simpl; rewrite fn_lookup_insert)..| | |].
  - intros v _ Hne. rewrite !fn_lookup_insert_ne by done. unfold dm, gm. rewrite decide_False by done. f_equal.
    rewrite <- keep_drop. rewrite (keep_ext _ (λ p, negb (bool_decide (incident vid p)))); [done|]. intros [i j] He.
    unfold unlinked. f_equal. apply bool_decide_ext. split.
    + unfold incident. simpl. tauto.
    + intros Hi. destruct (Hinc i j He Hi) as (? & ? & ?). destruct Hi; simpl in *; tauto.
  - eapply rep_part_ext; [apply (r_edges _ _ _ _ _ Hr)| |exact Hr2]. intros [i j] He. unfold paid. simpl.
    rewrite <- negb_orb. f_equal. pose proof He as [c Hc].
    assert ((i, j) ∈ (map_to_list (out vid EA)).*1 ↔ i = vid) as Hmem.
    { split.
      - intros ([[i' j'] c'] & [= -> ->] & Hx%elem_of_map_to_list)%list_elem_of_fmap. rewrite out_lookup in Hx. by case_decide.
      - intros ->. apply list_elem_of_fmap. exists ((vid, j), c). split; [done|]. apply elem_of_map_to_list. by rewrite out_lookup, decide_True. }
    specialize (Hinc i j He). unfold incident in *. simpl in *. repeat case_bool_decide; simpl; naive_solver.
  - intros s4 L4 x4 Hin4 Ha4 Hr4. eexists _, _. split; [exact Hin4|]. intros s5 Hid5 _. eexists _, _.
    split; [|split; [exact Hid5|split; [exact Ha4|exact Hr4]]]. lia.
Qed.

Lemma unlock_all_ok (Q : unit → graph → Prop) t VA EA vs sq :
  arr (gm VA EA (held vs) sq) (vMeta t) → (∀ u, u ∈ vs → inrange u) → NoDup vs →
  (∀ l, arr (gm VA EA free sq) l → Q tt (Graph (ds t) l)) → wp (mfor (reverse vs) unlock) Q t.
Proof.
  intros Ha Hr Hnd HQ. eapply (release_loop _ (λ _, False)); [|done|exact Ha|].
  - intros u lk sq' t' Hu Hlk Ha'. eapply wp_unlock; [exact Ha'|by apply Hr|done|]. intros l Hl. by split.
  - intros l Hl. apply HQ. eapply arr_ext; [exact Hl|]. intros v _. unfold gm, bump. f_equal.
    rewrite bool_decide_eq_false_2; [done|]. rewrite list_elem_of_filter. tauto.
Qed.

Lemma inc_unlock_all_ok (Q : unit → graph → Prop) t VA EA vs sq :
  arr (gm VA EA (held vs) sq) (vMeta t) → (∀ u, u ∈ vs → inrange u) → NoDup vs →
  (∀ l, arr (gm VA EA free (bump vs sq)) l → Q tt (Graph (ds t) l)) →
  wp (mfor (reverse vs) (λ v, do* inc_seq v in unlock v)) Q t.
Proof.
  intros Ha Hr Hnd HQ. eapply (release_loop _ (λ _, True)); [|done|exact Ha|].
  - intros u lk sq' t' Hu Hlk Ha'. apply wp_bind. eapply wp_inc_seq; [exact Ha'|by apply Hr|]. intros l Hl.
    eapply wp_unlock; [exact Hl|by apply Hr|by rewrite fn_lookup_insert|]. intros l2 Hl2. split; [done|]. arr_same.
  - intros l Hl. apply HQ. eapply arr_ext; [exact Hl|]. intros v _. unfold gm, bump. f_equal.
    rewrite (bool_decide_ext (v ∈ filter _ vs) (v ∈ vs)); [done|]. rewrite list_elem_of_filter. tauto.
Qed.

(** Step 2: every vertex is locked; it is there if the sequence number of [vid]
    is still [s0]. *)
Lemma lock_checked_ok (Q : unit → graph → Prop) t VA EA sq vs vid s0 :
  arr (gm VA EA free sq) (vMeta t) → (∀ v, v ∈ vs → inrange v) → inrange vid → NoDup vs →
  (sq vid = s0 → ∀ v, v ∈ vs → is_Some (VA !! v)) →
  (∀ l, arr (gm VA EA (held vs) sq) l → Q tt (Graph (ds t) l)) →
  wp (mfor vs (λ v,
    do* lock v in
    let* n := is_null v in
    let* seq' := get_seq vid in
    if (n : bool) && (seq' =? s0) then mthrow (AssertFail "abort()") else mret_ tt)) Q t.
Proof.
  intros Ha Hr Hv Hnd Hseq HQ.
  apply (wp_mfor vs _ (λ l1 _ t', ds t' = ds t ∧ arr (gm VA EA (held l1) sq) (vMeta t'))).
  - split; [done|]. arr_same.
  - intros l1 v l2 t' -> [Hds Ha']. assert (inrange v) as Hvr by (apply Hr; set_solver).
    apply NoDup_app in Hnd as (_ & Hd & _). assert (v ∉ l1) by (intros Hin; apply (Hd v Hin); by left).
    apply wp_bind. eapply wp_lock; [exact Ha'|done|by apply bool_decide_eq_false_2|]. intros l Hl.
    assert (arr (gm VA EA (held (l1 ++ [v])) sq) l) as Hl2 by arr_same.
    apply wp_bind. eapply wp_is_null; [exact Hl2|done|]. apply wp_bind. eapply wp_get_seq; [exact Hl2|done|]. simpl.
    destruct (Z.eqb_spec (sq vid) s0) as [Hs|Hs]; [|rewrite andb_false_r; by apply wp_ret].
    rewrite (bool_decide_ext _ _ (tvtx_none _ _ _)), bool_decide_eq_false_2; [by apply wp_ret|].
    apply not_eq_None_Some, Hseq; [done|set_solver].
  - intros t' [Hds Ha']. destruct t' as [s l]. simpl in *. subst s. by apply HQ.
Qed.

(** Step 1 reads the neighbours. *)
Lemma neighbours_ok {A} (f : list Z → list Z → G A) Q k t a VA EA L lk sq vid :
  p_idle k (ds t) L → arr (gm VA EA lk sq) (vMeta t) → rep n a VA EA L → inrange vid → is_Some (VA !! vid) →
  (∀ dests srcs, sort_unique (dests ++ srcs ++ [vid]) = vertices_of EA vid → wp (f dests srcs) Q t) →
  wp (let* o := source vid in let* dests := mmap rel_dest (rels o) in
      let* i := destination vid in let* srcs := mmap rel_src (rels i) in f dests srcs) Q t.
Proof.
  intros Hid Ha Hr Hv [b HVb] Hf.
  apply wp_bind. eapply wp_source; [exact Ha|done|by apply tvtx_some|]. simpl.
  apply wp_bind, (mmap_rels _ snd).
  { intros [i j] c Hc%elem_of_map_to_list. rewrite out_lookup in Hc. case_decide; [|done].
    by eapply rel_dest_idle. }
  apply wp_bind. eapply wp_destination; [exact Ha|done|by apply tvtx_some|]. simpl.
  apply wp_bind, (mmap_rels _ fst).
  { intros [i j] c Hc%elem_of_map_to_list. rewrite inn_lookup in Hc. case_decide; [|done].
    by eapply rel_dest_idle. }
  apply Hf. unfold vertices_of. by rewrite <- !list_fmap_compose.
Qed.

(** Its edges and those of its neighbours change. *)
Lemma bump_vertex a VA EA L vid sq :
  rep n a VA EA L →
  seq_rel 1 a (AG (delete vid (verts a)) (drop_vertex vid (edges a))) sq (bump (vertices_of EA vid) sq).
Proof.
  intros Hr v _. unfold bump. case_bool_decide as Hin; [right; exists 1; split; [lia|done]|left]. split; [done|].
  rewrite vertices_of_elem, !(r_edges _ _ _ _ _ Hr) in Hin. split; simpl.
  - apply lookup_delete_ne. naive_solver.
  - intros [i j] Hi. rewrite drop_lookup. case_decide as Hd; [|done]. symmetry. apply eq_None_not_Some. intros He.
    unfold incident in *. simpl in *. apply Hin. destruct Hi as [<-|<-], Hd as [<-|<-]; auto.
Qed.

(** What one round of [remove_vertex] needs of the other threads, for the
    outcome [Q]: in the gap they get from the abstract state [a] to some [a2];
    if they changed [vid] the next round reaches [Q], otherwise the removal
    from [a2] does. *)
Definition gap_ok (gap : G unit) (again : G bool) (Q : bool → graph → Prop) k a sq vid : Prop :=
  ∀ t, g_ok k a sq t →
  wp gap (λ _ t2, ∃ c k2 a2 sq2, g_ok k2 a2 sq2 t2 ∧ seq_rel c a a2 sq sq2 ∧ c < 2 ^ 32 ∧ 2 * Z.of_nat n + 2 ≤ k2 ∧
    (sq2 vid ≠ sq vid → ∀ t3, g_ok k2 a2 sq2 t3 → wp again Q t3) ∧
    (sq2 vid = sq vid → ∀ r t3, implements (RemoveVertex vid) (2 * Z.of_nat n + 2) k2 a2 sq2 r t3 → Q r t3)) t.

(** The neighbours of an unchanged vertex *)
Lemma noticed_neighbours a VA EA L c a2 VA2 EA2 L2 sq sq2 vid :
  rep n a VA EA L → rep n a2 VA2 EA2 L2 → inrange vid → is_Some (VA !! vid) →
  seq_rel c a a2 sq sq2 → c < 2 ^ 32 → sq2 vid = sq vid →
  vertices_of EA vid = vertices_of EA2 vid ∧ is_Some (VA2 !! vid).
Proof.
  intros Hr Hr2 Hv HV Hseq Hc Hs. destruct (seq_rel_noticed _ _ _ _ _ _ Hseq Hv Hc Hs) as [Hvv Hee]. split.
  - apply sort_unique_ext. intros x. fold (vertices_of EA vid) (vertices_of EA2 vid).
    rewrite <- !(sort_unique_elem (_ ++ _)). fold (vertices_of EA vid) (vertices_of EA2 vid).
    rewrite !vertices_of_elem, !(r_edges _ _ _ _ _ Hr), !(r_edges _ _ _ _ _ Hr2).
    by rewrite !Hee by (unfold incident; simpl; auto).
  - by rewrite (r_verts _ _ _ _ _ Hr2), Hvv, <- (r_verts _ _ _ _ _ Hr).
Qed.
Lemma vertices_of_there a VA EA L vid v : rep n a VA EA L → is_Some (VA !! vid) → v ∈ vertices_of EA vid → is_Some (VA !! v).
Proof.
  intros Hr Hv [->|[H|H]]%vertices_of_elem; [done|..]; apply (r_verts _ _ _ _ _ Hr);
    by apply (r_edges _ _ _ _ _ Hr), (r_ends _ _ _ _ _ Hr) in H as (_ & ? & ?).
Qed.

Lemma remove_vertex_from_ok Q k a sq t vid tid gap again :
  g_ok k a sq t → inrange vid → (tid < p_threads)%nat →
  (verts a !! vid = None → ∀ t', g_ok k a sq t' → Q false t') →
  (is_Some (verts a !! vid) → gap_ok gap again Q k a sq vid) →
  wp (remove_vertex_from gap again vid tid) Q t.
Proof.
  intros (VA & EA & L & Hid & Ha & Hr) Hv Ht Hnone Hsome.
  assert (∀ l, arr (<[vid := Vm (tvtx VA EA vid) false (sq vid)]> (<[vid := Vm (tvtx VA EA vid) true (sq vid)]> (gm VA EA free sq))) l →
    g_ok k a sq (Graph (ds t) l)) as Hback.
  { intros l Hl. exists VA, EA, L. split; [done|]. split; [|done]. simpl. arr_same. }
  unfold remove_vertex_from. apply wp_bind. eapply wp_lock; [exact Ha|done|done|]. simpl. intros l1 Ha1.
  apply wp_bind. eapply wp_is_null; [exact Ha1|done|]. rewrite fn_lookup_insert. simpl.
  rewrite (bool_decide_ext _ _ (tvtx_none _ _ _)). case_bool_decide as HV.
  { apply wp_bind. eapply wp_unlock; [exact Ha1|done|by rewrite fn_lookup_insert|]. intros l2 Ha2. apply wp_ret.
    rewrite fn_lookup_insert in Ha2. apply Hnone; [by apply (rep_none _ _ _ _ _ _ Hr)|by apply Hback]. }
  assert (is_Some (VA !! vid)) as HVs by (by destruct (VA !! vid)).
  apply wp_bind. eapply wp_get_seq; [exact Ha1|done|]. rewrite fn_lookup_insert. simpl.
  assert (arr (gm VA EA (held [vid]) sq) l1) as Ha1' by arr_same.
  eapply (neighbours_ok (A := bool)); [exact Hid|exact Ha1'|exact Hr|done|done|]. intros dests srcs Hvs. rewrite Hvs.
  apply wp_bind. eapply wp_unlock; [exact Ha1|done|by rewrite fn_lookup_insert|]. intros l2 Ha2. rewrite fn_lookup_insert in Ha2.
  apply wp_bind. eapply wp_mono; [apply Hsome; [by apply (r_verts _ _ _ _ _ Hr)|by apply Hback]|].
  clear Hback Ha1 Ha1' Ha2. intros [] t2 (c & k2 & a2 & sq2 & (VA2 & EA2 & L2 & Hid2 & Ha2 & Hr2) & Hseq & Hc & Hk2 & Hag & Hrm).
  set (vs := vertices_of EA vid) in *.
  assert (∀ v, v ∈ vs → inrange v) as Hrange by (intros v; by eapply vertices_of_range).
  assert (NoDup vs) as Hnd by apply sort_unique_NoDup.
  assert (sq2 vid = sq vid → vs = vertices_of EA2 vid ∧ is_Some (VA2 !! vid)) as Hsame.
  { intros Hs. by eapply (noticed_neighbours a VA EA L). }
  apply wp_bind. eapply (lock_checked_ok _ _ VA2 EA2 sq2 vs vid (sq vid)); [exact Ha2|done|done|done|..].
  { intros Hs v Hvv. destruct (Hsame Hs) as [Heq ?]. rewrite Heq in Hvv. by eapply vertices_of_there. }
  intros l3 Ha3. apply wp_bind. eapply wp_get_seq; [exact Ha3|done|]. simpl.
  destruct (Z.eqb_spec (sq2 vid) (sq vid)) as [Hs|Hs]; simpl; cycle 1.
  { apply wp_bind. eapply unlock_all_ok; [exact Ha3|done|done|]. intros l4 Ha4. apply (Hag Hs).
    exists VA2, EA2, L2. by split_and!. }
  destruct (Hsame Hs) as [Heq [b2 HV2]]. rewrite Heq in *. clear Hseq Hsame Hag.
  apply wp_bind. eapply wp_mono; [eapply (remove_body_ok _ a2 VA2 EA2 L2 k2 vid); [exact Hid2|exact Ha3|done|done|by eexists|done|done]|].
  intros [] t4 (k' & L' & Hk' & Hid4 & Ha4 & Hr4). apply wp_bind.
  eapply inc_unlock_all_ok; [exact Ha4|done|done|]. intros l5 Ha5. apply wp_ret, (Hrm Hs).
  destruct (rep_vertex _ _ _ _ _ _ _ Hr2 HV2) as (lbl & _ & Hlbl).
  unfold implements, spec_gop. rewrite Hlbl. split; [done|]. exists k', (bump (vertices_of EA2 vid) sq2).
  split; [lia|]. split; [|by eapply bump_vertex]. eexists _, _, L'. by split_and!.
Qed.

(** *** Histories *)

Definition run_gop (o : gop) (tid : nat) : G bool :=
  match o with
  | AddEdge s d w => add_edge s d w tid
  | HasEdge s d => has_edge s d tid
  | RemoveEdge s d => remove_edge s d tid
  | AddVertex v us => add_vertex v us tid
  | RemoveVertex v => remove_vertex [] v tid
  end.

(** Vertex ids are in range, and no edge is added from a vertex to itself. *)
Definition valid_op (o : gop) : Prop :=
  match o with
  | AddEdge s d _ => inrange s ∧ inrange d ∧ s ≠ d
  | HasEdge s _ => inrange s
  | RemoveEdge s d => inrange s ∧ inrange d
  | AddVertex v us => inrange v ∧ ∀ u, u ∈ us → inrange u
  | RemoveVertex v => inrange v
  end.

(** The budget of an operation *)
Definition cost : Z := 2 * Z.of_nat n + 2.

Lemma implements_cost o c c' k a sq r t : c ≤ c' → implements o c k a sq r t → implements o c' k a sq r t.
Proof. intros Hc (Hr & k' & sq' & Hk & H). split; [done|]. exists k', sq'. split; [lia|done]. Qed.

Lemma remove_vertex_alone k a sq t vid tid :
  g_ok k a sq t → cost ≤ k → (tid < p_threads)%nat → inrange vid →
  wp (remove_vertex [] vid tid) (implements (RemoveVertex vid) cost k a sq) t.
Proof.
  intros Hok Hk Ht Hv. unfold cost in *. eapply remove_vertex_from_ok; [exact Hok|done|done|..].
  - intros Hn t' Hok'. unfold implements, spec_gop. rewrite Hn. split; [done|]. exists k, sq.
    split; [lia|]. split; [done|apply seq_rel_refl].
  - intros _ t' Hok'. apply wp_ret. exists 0, k, a, sq. split; [done|]. split; [|split; [lia|split; [lia|split; [done|auto]]]].
    intros v _. left. by split.
Qed.

Lemma run_gop_ok k a sq t o tid :
  g_ok k a sq t → cost ≤ k → (tid < p_threads)%nat → valid_op o →
  wp (run_gop o tid) (implements o cost k a sq) t.
Proof.
  intros Hok Hk Ht Hval. unfold cost in *. destruct o; simpl in *.
  - destruct Hval as (? & ? & ?). eapply wp_mono; [apply add_edge_ok; (done || lia)|]. intros ??. apply implements_cost. lia.
  - eapply wp_mono; [apply has_edge_ok; (done || lia)|]. intros ??. apply implements_cost. lia.
  - destruct Hval. eapply wp_mono; [apply remove_edge_ok; (done || lia)|]. intros ??. apply implements_cost. lia.
  - destruct Hval. eapply wp_mono; [apply add_vertex_ok; (done || lia)|]. intros ??. apply implements_cost. lia.
  - by apply remove_vertex_alone.
Qed.

(** Operations by several threads, one after another *)
Fixpoint run_gops (os : list (nat * gop)) : G unit :=
  match os with [] => mret_ tt | (tid, o) :: os' => let* _r := run_gop o tid in run_gops os' end.
Fixpoint spec_gops (os : list (nat * gop)) a : agraph :=
  match os with [] => a | (_, o) :: os' => spec_gops os' (spec_gop o a).2 end.

Definition valid_ops (os : list (nat * gop)) : Prop := ∀ tid o, (tid, o) ∈ os → (tid < p_threads)%nat ∧ valid_op o.

Lemma run_gops_ok os : ∀ k a sq t,
  g_ok k a sq t → cost * Z.of_nat (length os) ≤ k → valid_ops os →
  wp (run_gops os) (λ _ t', ∃ k' sq', k - cost * Z.of_nat (length os) ≤ k' ∧ g_ok k' (spec_gops os a) sq' t' ∧
    seq_rel (Z.of_nat (length os)) a (spec_gops os a) sq sq') t.
Proof.
  unfold cost. induction os as [|[tid o] os IH]; intros k a sq t Hok Hk Hval.
  - apply wp_ret. exists k, sq. split; [simpl; lia|]. split; [done|]. intros v _. left. by split.
  - destruct (Hval tid o) as [Ht Ho]; [by left|]. simpl in *. apply wp_bind.
    eapply wp_mono; [apply run_gop_ok; (done || unfold cost; lia)|]. intros r t1 (_ & k1 & sq1 & Hk1 & Hok1 & Hs1). unfold cost in Hk1.
    eapply wp_mono; [apply IH; [exact Hok1|lia|]|].
    { intros tid' o' Hin. apply Hval. by right. }
    intros [] t2 (k2 & sq2 & Hk2 & Hok2 & Hs2). exists k2, sq2. split; [lia|]. split; [done|].
    replace (Z.of_nat (Datatypes.S (length os))) with (1 + Z.of_nat (length os)) by lia.
    eapply seq_rel_trans; [lia|lia|exact Hs1|exact Hs2].
Qed.

(** [remove_vertex] with the operations [gs] of other threads in its gaps:
    it takes effect after those of the first rounds, as many as it needs. *)
Lemma remove_vertex_gaps gs : ∀ k a sq t vid tid,
  g_ok k a sq t → (tid < p_threads)%nat → inrange vid →
  (∀ g, g ∈ gs → valid_ops g ∧ Z.of_nat (length g) < 2 ^ 32) →
  cost * (Z.of_nat (length (concat gs)) + 1) ≤ k →
  wp (remove_vertex (run_gops <$> gs) vid tid) (λ r t', ∃ j k' sq', 
    let a' := spec_gops (concat (take j gs)) a in
    r = (spec_gop (RemoveVertex vid) a').1 ∧ 0 ≤ k' ∧ g_ok k' (spec_gop (RemoveVertex vid) a').2 sq' t') t.
Proof.
  induction gs as [|g gs IH]; intros k a sq t vid tid Hok Ht Hv Hgs Hk.
  - simpl in Hk. eapply wp_mono; [apply remove_vertex_alone; (done || unfold cost in *; lia)|].
    intros r t' (Hr & k' & sq' & Hk' & Hok' & _). exists 0%nat, k', sq'. simpl. split; [done|]. split; [unfold cost in *; lia|done].
  - destruct (Hgs g) as [Hval Hlen]; [by left|]. simpl in Hk. rewrite length_app in Hk. unfold cost in *.
    cbn [fmap list_fmap remove_vertex]. eapply remove_vertex_from_ok; [exact Hok|done|done|..].
    { intros Hn t' Hok'. exists 0%nat, k, sq. simpl. unfold spec_gop. rewrite Hn. split; [done|]. split; [lia|done]. }
    intros _ t' Hok'. eapply wp_mono; [apply run_gops_ok; [exact Hok'|unfold cost; lia|done]|].
    intros [] t2 (k2 & sq2 & Hk2 & Hok2 & Hs2). unfold cost in Hk2.
    exists (Z.of_nat (length g)), k2, (spec_gops g a), sq2. split; [done|]. split; [done|]. split; [done|]. split; [lia|]. split.
    + intros _ t3 Hok3. eapply wp_mono; [apply (IH k2 (spec_gops g a) sq2); [done|done|done| |unfold cost; lia]|].
      { intros g' Hg'. apply Hgs. by right. }
      intros r t4 (j & k' & sq' & Hr & Hk' & Hok4). exists (Datatypes.S j), k', sq'. simpl.
      assert (∀ os1 os2 a0, spec_gops (os1 ++ os2) a0 = spec_gops os2 (spec_gops os1 a0)) as Happ.
      { clear. induction os1 as [|[tid o] os1 IH]; intros os2 a0; [done|]. simpl. apply IH. }
      by rewrite Happ.
    + intros _ r t3 (Hr & k' & sq' & Hk' & Hok3 & _). exists 1%nat, k', sq'. simpl. rewrite app_nil_r.
      split; [done|]. split; [lia|done].
Qed.
End ops.
