(* ===== verification/GraphRecover.v ===== *)
(** * Construction and recovery of the graph

    [recover] rebuilds the array from the payloads with [rec_thd] threads.  If
    every thread fills its buffers before any thread copies, the result is the
    graph that the payloads represent, whatever the order of the blocks and of
    the threads in each phase.  The code does not make the threads wait, and
    with another schedule edges are lost. *)

From S2P Require Import Prelude PayloadApi History Graph GraphOps.

(** ** Loops over the shares of the threads *)

Lemma mfor_app {S A} (l1 l2 : list A) (f : A → M S unit) s :
  mfor (l1 ++ l2) f s = mbind_ (mfor l1 f) (λ _, mfor l2 f) s.
Proof.
  revert s. induction l1 as [|x l1 IH]; intros s; simpl; [done|]. unfold mbind_ in *.
  destruct (f x s) as [[u|e] s']; [apply IH|done].
Qed.
Lemma mfor_concat {S A B} (ts : list B) (g : B → list A) (f : A → M S unit) s :
  mfor ts (λ t, mfor (g t) f) s = mfor (concat (g <$> ts)) f s.
Proof.
  revert s. induction ts as [|t ts IH]; intros s; simpl; [done|]. rewrite mfor_app. unfold mbind_.
  destruct (mfor (g t) f s) as [[u|e] s']; [apply IH|done].
Qed.

Lemma zip_seq_NoDup {A} (l : list A) : ∀ k m, NoDup (zip (seq k m) l).*1.
Proof.
  assert (∀ k m (l : list A), NoDup (zip (seq k m) l).*1 ∧ ∀ x, x ∈ (zip (seq k m) l).*1 → (k ≤ x)%nat) as Hz; [|intros k m; apply Hz].
  clear. intros k m. revert k. induction m as [|m IH]; intros k l; [split; [constructor|set_solver]|].
  destruct l as [|c l]; [split; [constructor|set_solver]|]. simpl. destruct (IH (Datatypes.S k) l) as [H1 H2]. split.
  - constructor; [|done]. intros Hx%H2. lia.
  - intros x [->|Hx%H2]%elem_of_cons; lia.
Qed.

Section recover.
Context {S : Type} `{!PayloadApi S gpayload, !PayloadLaws S gpayload} (n : nat).
Notation graph := (@graph S).
Notation G := (M graph).
Notation inrange := (inrange n).
Notation arr := (arr n).
Implicit Types (t : graph) (L : gmap Z gpayload) (a : agraph).

(** ** Sorting the blocks *)

Definition isV L (b : Z) : bool := match L !! b with Some (Vertex _ _) => true | _ => false end.

Lemma gather_ok tid k L blocks t :
  p_in tid k (ds t) L → (∀ b, b ∈ blocks → is_Some (L !! b)) →
  gather blocks t = (Ret (filter (λ b, isV L b = true) blocks, filter (λ b, isV L b = false) blocks), t).
Proof.
  intros Hin. induction blocks as [|b bs IH]; intros Hb; [done|]. destruct (Hb b) as [p Hp]; [by left|].
  simpl. unfold mbind_, on_ds, mret_. rewrite (p_get_law tid k (ds t) L b p Hin Hp).
  assert (Graph (ds t) (vMeta t) = t) as -> by (by destruct t). rewrite IH by (intros c Hc; apply Hb; by right). simpl.
  assert (isV L b = match p with Vertex _ _ => true | Relation _ _ _ => false end) as HV by (unfold isV; by rewrite Hp).
  rewrite !filter_cons, HV. by destruct p.
Qed.

Lemma isV_true a VA EA L b : rep n a VA EA L → is_Some (L !! b) → isV L b = true ↔ ∃ i, VA !! i = Some b.
Proof.
  intros Hr [p Hp]. unfold isV. rewrite Hp. pose proof Hp as Hl. apply (r_live _ _ _ _ _ Hr) in Hl. destruct p as [v l|i j w].
  - split; [|done]. intros _. exists v. apply Hl.
  - split; [done|]. intros [v (l & HL & _)%(rep_vertex _ _ _ _ _ _ _ Hr)]. congruence.
Qed.
Lemma isV_false a VA EA L b : rep n a VA EA L → is_Some (L !! b) → isV L b = false ↔ ∃ p, EA !! p = Some b.
Proof.
  intros Hr [p Hp]. unfold isV. rewrite Hp. pose proof Hp as Hl. apply (r_live _ _ _ _ _ Hr) in Hl. destruct p as [v l|i j w].
  - split; [done|]. intros [[i j] (w & HL & _)%(rep_edge _ _ _ _ _ _ _ _ Hr)]. congruence.
  - split; [|done]. intros _. exists (i, j). apply Hl.
Qed.

(** ** The vertices *)

Lemma VA_inj a VA EA L i j b : rep n a VA EA L → VA !! i = Some b → VA !! j = Some b → i = j.
Proof.
  intros Hr (l & Hl & _)%(rep_vertex _ _ _ _ _ _ _ Hr) (l' & Hl' & _)%(rep_vertex _ _ _ _ _ _ _ Hr). congruence.
Qed.
Lemma EA_inj a VA EA L p q b : rep n a VA EA L → EA !! p = Some b → EA !! q = Some b → p = q.
Proof.
  intros Hr. destruct p as [i j], q as [i' j'].
  intros (l & Hl & _)%(rep_edge _ _ _ _ _ _ _ _ Hr) (l' & Hl' & _)%(rep_edge _ _ _ _ _ _ _ _ Hr). congruence.
Qed.

(** The vertices recovered from the blocks [l] *)
Definition found (VA : gmap Z Z) (l : list Z) : gmap Z Z := filter (λ p, p.2 ∈ l) VA.
Lemma found_Some VA l i b : found VA l !! i = Some b ↔ VA !! i = Some b ∧ b ∈ l.
Proof. unfold found. by rewrite map_lookup_filter_Some. Qed.
Lemma found_None VA l i : (∀ b, VA !! i = Some b → b ∉ l) → found VA l !! i = None.
Proof. intros H. apply eq_None_not_Some. intros [b [Hb Hl]%found_Some]. by apply (H b). Qed.
Lemma found_same VA l l' i : (∀ b, VA !! i = Some b → b ∈ l ↔ b ∈ l') → found VA l !! i = found VA l' !! i.
Proof. intros H. apply option_eq. intros b. rewrite !found_Some. naive_solver. Qed.

Lemma rec_vertices_ok (Q : unit → graph → Prop) k t a VA EA L sq bs :
  p_idle k (ds t) L → rep n a VA EA L → arr (gm ∅ ∅ free sq) (vMeta t) → NoDup bs →
  (∀ b, b ∈ bs ↔ ∃ i, VA !! i = Some b) →
  (∀ l, arr (gm VA ∅ free sq) l → Q tt (Graph (ds t) l)) → wp (mfor bs rec_vertex) Q t.
Proof.
  intros Hid Hr Ha Hnd Hbs HQ.
  apply (wp_mfor bs rec_vertex (λ l1 _ t', ds t' = ds t ∧ arr (gm (found VA l1) ∅ free sq) (vMeta t'))).
  - split; [done|]. eapply arr_ext; [exact Ha|]. intros v _. unfold gm, tvtx.
    rewrite found_None; [done|]. intros b _. apply not_elem_of_nil.
  - intros l1 b l2 t1 -> [Hds Ha1]. destruct (proj1 (Hbs b)) as [i Hi]; [set_solver|].
    apply NoDup_app in Hnd as (_ & Hdisj & _). assert (b ∉ l1) as Hb1 by (intros Hx; apply (Hdisj b Hx); by left).
    destruct (rep_vertex _ _ _ _ _ _ _ Hr Hi) as (lbl & HLb & Hlbl).
    assert (inrange i) as Hir by (apply (r_range _ _ _ _ _ Hr); by eexists).
    assert (found VA l1 !! i = None) as Hnone by (apply found_None; intros c Hc; congruence).
    unfold rec_vertex, recover_tVertex. apply wp_bind, wp_bind, wp_on_ds. rewrite Hds.
    eapply wp_eq; [by apply (p_get_idle_law k (ds t) L b _ Hid HLb)|]. rewrite <- Hds.
    assert (Graph (ds t1) (vMeta t1) = t1) as -> by (by destruct t1). apply wp_ret. simpl.
    apply wp_bind. eapply wp_is_null; [exact Ha1|done|]. rewrite bool_decide_eq_true_2 by (apply tvtx_none; exact Hnone).
    eapply wp_set_vertex; [exact Ha1|done|]. intros l Hl. split; [done|]. eapply arr_ext; [exact Hl|]. intros v _.
    unfold gm, tvtx. destruct (decide (v = i)) as [->|Hne].
    + rewrite fn_lookup_insert. replace (found VA (l1 ++ [b]) !! i) with (Some b); [done|].
      symmetry. apply found_Some. split; [done|set_solver].
    + rewrite fn_lookup_insert_ne by done. rewrite (found_same VA l1 (l1 ++ [b])); [done|]. intros c Hc.
      assert (c ≠ b) by (intros ->; by eapply Hne, (VA_inj a VA EA L)). set_solver.
  - intros t1 [Hds Ha1]. destruct t1 as [s1 l1]. simpl in *. subst s1. apply HQ. eapply arr_ext; [exact Ha1|].
    intros v _. unfold gm, tvtx. replace (found VA bs !! v) with (VA !! v); [done|].
    apply option_eq. intros b. rewrite found_Some, Hbs. naive_solver.
Qed.

(** ** The buffers *)

(** The wrapper of the relation at [b] *)
Definition item_of L (b : Z) : RelationWrapper :=
  match L !! b with Some (Relation i j _) => Rw i j b | _ => Rw 0 0 b end.
(** The thread that owns a vertex *)
Definition owner (T : nat) (v : Z) : nat := Z.to_nat (v mod Z.of_nat T).
Definition goes (T u : nat) (r : RelationWrapper) : Prop := owner T (v1 r) = u ∨ owner T (v2 r) = u.
#[local] Instance goes_dec T u r : Decision (goes T u r).
Proof. unfold goes. apply _. Defined.

Lemma owner_lt T v : (0 < T)%nat → (owner T v < T)%nat.
Proof. intros HT. unfold owner. pose proof (Z.mod_pos_bound v (Z.of_nat T)). lia. Qed.

Definition fill1 (T t0 : nat) (bufs : list (list RelationWrapper)) (r : RelationWrapper) : list (list RelationWrapper) :=
  let b1 := push (t0 * T + owner T (v1 r)) r bufs in
  if (owner T (v2 r) =? owner T (v1 r))%nat then b1 else push (t0 * T + owner T (v2 r)) r b1.

Lemma is_null_eq m v t : arr m (vMeta t) → inrange v → is_null v t = (Ret (bool_decide (idxToVertex (m v) = None)), t).
Proof.
  intros Ha Hv. pose proof (wp_is_null n (λ b t', b = bool_decide (idxToVertex (m v) = None) ∧ t' = t) t m v Ha Hv) as H.
  apply wp_run in H as (b & t' & -> & -> & ->); [done|by split].
Qed.

Lemma fill_ok k t a VA EA L sq (T t0 : nat) es : ∀ bufs,
  p_idle k (ds t) L → rep n a VA EA L → arr (gm VA ∅ free sq) (vMeta t) → (∀ b, b ∈ es → ∃ p, EA !! p = Some b) →
  fill n T t0 es bufs t = (Ret (foldl (fill1 T t0) bufs (item_of L <$> es)), t).
Proof.
  induction es as [|b es IH]; intros bufs Hid Hr Ha Hes; [done|]. destruct (Hes b) as [[i j] Hp]; [by left|].
  destruct (rep_edge _ _ _ _ _ _ _ _ Hr Hp) as (w & HLb & Hw).
  destruct (r_ends _ _ _ _ _ Hr i j) as (_ & Hi & Hj); [by eexists|].
  assert (inrange i ∧ inrange j) as [Hir Hjr] by (split; by apply (r_range _ _ _ _ _ Hr)).
  destruct (rel_dest_idle n k t a VA EA L i j b Hid Hr Hp) as [Hd Hs].
  apply (r_verts _ _ _ _ _ Hr) in Hi as [bi Hbi]. apply (r_verts _ _ _ _ _ Hr) in Hj as [bj Hbj].
  cbn [fill]. unfold mbind_ at 1. rewrite Hs. unfold mbind_ at 1. rewrite Hd.
  replace ((i <? 0) || _ || _ || _) with false by (unfold GraphOps.inrange in *; lia).
  unfold mbind_ at 1. rewrite (is_null_eq _ _ _ Ha Hir). unfold mbind_ at 1. rewrite (is_null_eq _ _ _ Ha Hjr).
  rewrite !bool_decide_eq_false_2 by (unfold gm; simpl; rewrite tvtx_none; congruence). cbv zeta. cbn [orb].
  rewrite IH; [|done|done|done|intros c Hc; apply Hes; by right]. rewrite fmap_cons. cbn [foldl]. do 3 f_equal.
  unfold fill1, item_of. by rewrite HLb.
Qed.

Lemma index_inj (T t u t' u' : nat) : (u < T)%nat → (u' < T)%nat → (t * T + u = t' * T + u')%nat → t = t' ∧ u = u'.
Proof. intros Hu Hu' H. assert (t = t') by nia. subst. lia. Qed.

Lemma push_lookup (T t0 k : nat) r bufs (t u : nat) (l : list RelationWrapper) : (k < T)%nat → (u < T)%nat →
  bufs !! (t * T + u)%nat = Some l →
  push (t0 * T + k) r bufs !! (t * T + u)%nat = Some (if decide (t = t0 ∧ u = k) then l ++ [r] else l).
Proof.
  intros Hk Hu Hl. unfold push. destruct (decide (t = t0 ∧ u = k)) as [[-> ->]|Hne].
  - by rewrite list_lookup_alter_eq, Hl.
  - rewrite list_lookup_alter_ne; [done|]. intros [-> ->]%index_inj; [|done..]. tauto.
Qed.

Lemma fill1_lookup (T t0 : nat) rs : (0 < T)%nat → ∀ bufs (t u : nat) (l : list RelationWrapper),
  (u < T)%nat → bufs !! (t * T + u)%nat = Some l →
  foldl (fill1 T t0) bufs rs !! (t * T + u)%nat = Some (if decide (t = t0) then l ++ filter (goes T u) rs else l).
Proof.
  intros HT. induction rs as [|r rs IH]; intros bufs t u l Hu Hl; simpl.
  { rewrite Hl. case_decide; [by rewrite app_nil_r|done]. }
  pose proof (push_lookup T t0 (owner T (v1 r)) r bufs t u l (owner_lt _ _ HT) Hu Hl) as H1.
  assert (fill1 T t0 bufs r !! (t * T + u)%nat = Some (if decide (t = t0 ∧ goes T u r) then l ++ [r] else l)) as H2.
  { unfold fill1. destruct (Nat.eqb_spec (owner T (v2 r)) (owner T (v1 r))) as [He|He].
    - rewrite H1. f_equal. rewrite (decide_ext _ (t = t0 ∧ goes T u r)); [done|]. unfold goes. rewrite He. naive_solver.
    - rewrite (push_lookup T t0 _ r _ t u _ (owner_lt _ _ HT) Hu H1). f_equal.
      rewrite (decide_ext (t = t0 ∧ goes T u r) ((t = t0 ∧ u = owner T (v2 r)) ∨ (t = t0 ∧ u = owner T (v1 r))))
        by (unfold goes; naive_solver). repeat case_decide; try tauto. exfalso. naive_solver congruence. }
  rewrite (IH _ t u _ Hu H2). apply (f_equal Some). rewrite filter_cons. destruct (decide (goes T u r)), (decide (t = t0)); rewrite ?decide_True, ?decide_False by tauto; try done.
  by rewrite <- app_assoc.
Qed.

Lemma fills_ok k t a VA EA L sq T es rest tpls ps : ∀ bufs,
  p_idle k (ds t) L → rep n a VA EA L → arr (gm VA ∅ free sq) (vMeta t) → (∀ b, b ∈ es → ∃ p, EA !! p = Some b) →
  rec_schedule n T es ((Fill <$> ps) ++ rest) bufs tpls t =
  rec_schedule n T es rest (foldl (λ bufs u, foldl (fill1 T u) bufs (item_of L <$> strided T u es)) bufs ps) tpls t.
Proof.
  induction ps as [|u ps IH]; intros bufs Hid Hr Ha Hes; [done|]. simpl. unfold mbind_.
  rewrite (fill_ok k t a VA EA L sq) by (done || intros b Hb; apply Hes; by eapply strided_elem). by apply IH.
Qed.

Lemma copies_ok T es bufs ps t : ∀ tpls,
  rec_schedule n T es (Copy <$> ps) bufs tpls t = (Ret (foldl (λ tp u, <[u := copy T u bufs]> tp) tpls ps), t).
Proof. induction ps as [|u ps IH]; intros tpls; [done|]. simpl. apply IH. Qed.

Lemma foldl_insert_lookup {A} (f : nat → A) ps : ∀ (l : list A) u,
  (∀ p, p ∈ ps → (p < length l)%nat) → u ∈ ps → foldl (λ l p, <[p := f p]> l) l ps !! u = Some (f u).
Proof.
  induction ps as [|p ps IH]; intros l u Hlt Hu; [by apply elem_of_nil in Hu|]. simpl.
  assert (∀ p', p' ∈ ps → (p' < length (<[p := f p]> l))%nat) as Hlt'.
  { intros p' Hp'. rewrite length_insert. apply Hlt. by right. }
  destruct (decide (u ∈ ps)) as [Hin|Hin]; [by apply IH|]. apply elem_of_cons in Hu as [->|]; [|done].
  clear IH. assert (<[p := f p]> l !! p = Some (f p)) as H by (apply list_lookup_insert_eq, Hlt; by left).
  clear Hlt. revert Hlt' H. generalize (<[p := f p]> l). clear l. induction ps as [|q ps IH]; intros l Hlt H; [done|]. simpl.
  apply not_elem_of_cons in Hin as [Hpq Hin]. apply IH; [done|..].
  - intros p' Hp'. rewrite length_insert. apply Hlt. by right.
  - by rewrite list_lookup_insert_ne.
Qed.

(** After all fills *)
Lemma filled T (share : nat → list RelationWrapper) ps : ∀ bufs (t u : nat) l,
  (0 < T)%nat → (u < T)%nat → NoDup ps → bufs !! (t * T + u)%nat = Some l →
  foldl (λ bufs p, foldl (fill1 T p) bufs (share p)) bufs ps !! (t * T + u)%nat =
    Some (if decide (t ∈ ps) then l ++ filter (goes T u) (share t) else l).
Proof.
  induction ps as [|p ps IH]; intros bufs t u l HT Hu Hnd Hl; [done|]. apply NoDup_cons in Hnd as [Hp Hnd]. simpl.
  pose proof (fill1_lookup T p (share p) HT bufs t u l Hu Hl) as H1.
  rewrite (IH _ t u _ HT Hu Hnd H1). apply (f_equal Some).
  destruct (decide (t = p)) as [->|Hne].
  - by rewrite decide_False, decide_True by (done || by left).
  - destruct (decide (t ∈ ps)); [by rewrite decide_True by (by right)|]. rewrite decide_False; [done|].
    rewrite elem_of_cons. tauto.
Qed.

Lemma concat_filter {A B} (P : B → Prop) `{!∀ x, Decision (P x)} (f : A → B) (g : nat → list A) (ts : list nat) :
  concat ((λ u, filter P (f <$> g u)) <$> ts) = filter P (f <$> concat (g <$> ts)).
Proof. induction ts as [|t ts IH]; [done|]. rewrite !fmap_cons. cbn [concat]. by rewrite IH, fmap_app, filter_app. Qed.

(** What every thread finds in its [tpls], when the fills come first *)
Lemma schedule_ok k t a VA EA L sq T es p1 p2 :
  p_idle k (ds t) L → rep n a VA EA L → arr (gm VA ∅ free sq) (vMeta t) → (∀ b, b ∈ es → ∃ p, EA !! p = Some b) →
  (0 < T)%nat → p1 ≡ₚ seq 0 T → p2 ≡ₚ seq 0 T →
  ∃ tpls, rec_schedule n T es ((Fill <$> p1) ++ (Copy <$> p2)) (replicate (T * T) []) (replicate T []) t = (Ret tpls, t) ∧
    ∀ u, (u < T)%nat → default [] (tpls !! u) ≡ₚ filter (goes T u) (item_of L <$> es).
Proof.
  intros Hid Hr Ha Hes HT Hp1 Hp2. rewrite (fills_ok k t a VA EA L sq) by done. rewrite copies_ok. eexists. split; [done|].
  intros u Hu. set (bufs := foldl _ _ p1). rewrite (foldl_insert_lookup (λ u, copy T u bufs)); cycle 1.
  { intros p Hp. rewrite Hp2, elem_of_seq in Hp. rewrite length_replicate. lia. }
  { rewrite Hp2, elem_of_seq. lia. }
  simpl. unfold copy.
  assert ((λ t0 : nat, default [] (bufs !! (t0 * T + u)%nat)) <$> seq 0 T = (λ t0 : nat, filter (goes T u) (item_of L <$> strided T t0 es)) <$> seq 0 T) as ->.
  { apply list_fmap_ext. intros i t0 Hi%list_elem_of_lookup_2. apply elem_of_seq in Hi. unfold bufs.
    rewrite (filled T (λ p, item_of L <$> strided T p es) p1 _ t0 u []); [|done|done|by rewrite Hp1; apply NoDup_seq|].
    - rewrite decide_True; [done|]. rewrite Hp1, elem_of_seq. lia.
    - apply lookup_replicate_2. nia. }
  rewrite concat_filter. by rewrite strided_split.
Qed.

(** ** The edges *)

(** The edges whose payloads are in [l] *)
Definition part (EA : emap) (l : list Z) : emap := filter (λ p, p.2 ∈ l) EA.
Lemma part_Some EA l p b : part EA l !! p = Some b ↔ EA !! p = Some b ∧ b ∈ l.
Proof. unfold part. by rewrite map_lookup_filter_Some. Qed.
Lemma part_ext EA l l' : (∀ b, b ∈ l ↔ b ∈ l') → part EA l = part EA l'.
Proof. intros H. apply map_eq. intros p. apply option_eq. intros b. by rewrite !part_Some, H. Qed.
Lemma part_snoc a VA EA L l p b : rep n a VA EA L → EA !! p = Some b → part EA (l ++ [b]) = <[p := b]> (part EA l).
Proof.
  intros Hr Hp. apply map_eq. intros q. apply option_eq. intros c.
  rewrite lookup_insert, part_Some, elem_of_app, list_elem_of_singleton. case_decide as Hq.
  - subst q. naive_solver.
  - rewrite part_Some. split; [|naive_solver]. intros [Hc [?| ->]]; [done|]. by destruct (EA_inj a VA EA L p q b).
Qed.

(** The sources have got the edges [ES], the destinations the edges [ED]. *)
Definition gm2 (VA : gmap Z Z) (ES ED : emap) (sq : Z → Z) (v : Z) : VertexMeta :=
  Vm ((λ b, TVertex b v (out v ES) (inn v ED)) <$> VA !! v) false (sq v).

Definition source_step (r : RelationWrapper) : G unit := let* _x := source_emplace (v1 r) (v1 r, v2 r) (e r) in mret_ tt.
Definition dest_step (r : RelationWrapper) : G unit := let* _x := destination_emplace (v2 r) (v1 r, v2 r) (e r) in mret_ tt.

Lemma source_step_ok (Q : unit → graph → Prop) t VA ES ED sq r b :
  arr (gm2 VA ES ED sq) (vMeta t) → inrange (v1 r) → VA !! v1 r = Some b → ES !! (v1 r, v2 r) = None →
  (∀ l, arr (gm2 VA (<[(v1 r, v2 r) := e r]> ES) ED sq) l → Q tt (Graph (ds t) l)) → wp (source_step r) Q t.
Proof.
  intros Ha Hv HV HE HQ. unfold source_step. apply wp_bind.
  eapply wp_update_source; [exact Ha|done|unfold gm2; simpl; by rewrite HV|]. intros l Hl. apply wp_ret, HQ.
  eapply arr_ext; [exact Hl|]. intros v _. unfold emplace. simpl. rewrite out_lookup, decide_True, HE by done. simpl.
  unfold gm2. destruct (decide (v = v1 r)) as [->|Hne].
  - rewrite fn_lookup_insert, HV. simpl. do 3 f_equal. emap.
  - rewrite fn_lookup_insert_ne by done. f_equal. destruct (VA !! v); [|done]. simpl. do 2 f_equal. emap.
Qed.
Lemma dest_step_ok (Q : unit → graph → Prop) t VA ES ED sq r b :
  arr (gm2 VA ES ED sq) (vMeta t) → inrange (v2 r) → VA !! v2 r = Some b → ED !! (v1 r, v2 r) = None →
  (∀ l, arr (gm2 VA ES (<[(v1 r, v2 r) := e r]> ED) sq) l → Q tt (Graph (ds t) l)) → wp (dest_step r) Q t.
Proof.
  intros Ha Hv HV HE HQ. unfold dest_step. apply wp_bind.
  eapply wp_update_destination; [exact Ha|done|unfold gm2; simpl; by rewrite HV|]. intros l Hl. apply wp_ret, HQ.
  eapply arr_ext; [exact Hl|]. intros v _. unfold emplace. simpl. rewrite inn_lookup, decide_True, HE by done. simpl.
  unfold gm2. destruct (decide (v = v2 r)) as [->|Hne].
  - rewrite fn_lookup_insert, HV. simpl. do 3 f_equal. emap.
  - rewrite fn_lookup_insert_ne by done. f_equal. destruct (VA !! v); [|done]. simpl. do 2 f_equal. emap.
Qed.

(** Either loop, over wrappers [rs] of edges that are not there yet; [A l] is
    the array when the edges with payloads [l] are there. *)
Lemma edge_loop_ok (Q : unit → graph → Prop) (f : RelationWrapper → G unit) (A : list Z → Z → VertexMeta) (EA : emap) rs done0 t :
  (∀ (Q : unit → graph → Prop) r l t', EA !! (v1 r, v2 r) = Some (e r) → e r ∉ l → arr (A l) (vMeta t') →
    (∀ x, arr (A (l ++ [e r])) x → Q tt (Graph (ds t') x)) → wp (f r) Q t') →
  arr (A done0) (vMeta t) → (∀ r, r ∈ rs → EA !! (v1 r, v2 r) = Some (e r)) → NoDup (done0 ++ (e <$> rs)) →
  (∀ x, arr (A (done0 ++ (e <$> rs))) x → Q tt (Graph (ds t) x)) → wp (mfor rs f) Q t.
Proof.
  intros Hf Ha Hrs Hnd HQ.
  apply (wp_mfor rs f (λ l1 _ t', ds t' = ds t ∧ arr (A (done0 ++ (e <$> l1))) (vMeta t'))).
  - split; [done|]. by rewrite app_nil_r.
  - intros l1 r l2 t1 -> [Hds Ha1]. eapply Hf; [apply Hrs; set_solver| |exact Ha1|].
    + rewrite fmap_app, fmap_cons, app_assoc in Hnd. apply NoDup_app in Hnd as (_ & Hd & _). intros Hin. apply (Hd _ Hin). by left.
    + intros x Hx. split; [done|]. simpl. by rewrite fmap_app, app_assoc.
  - intros t1 [Hds Ha1]. destruct t1 as [s1 x]. simpl in *. subst s1. by apply HQ.
Qed.

Lemma mfor_if {B} (b : B → bool) (l : list B) (f : B → G unit) t :
  mfor l (λ x, if b x then f x else mret_ tt) t = mfor (filter (λ x, b x = true) l) f t.
Proof.
  revert t. induction l as [|x l IH]; intros t; [done|]. rewrite filter_cons. simpl. unfold mbind_ at 1.
  destruct (b x) eqn:Hb; simpl; [|apply IH]. unfold mbind_. destruct (f x t) as [[u|err] t']; [apply IH|done].
Qed.

(** Third phase, one thread: its edges [rs], in some order, get into the
    sources and into the destinations. *)
Definition mine (T u : nat) (r : RelationWrapper) : bool := v1 r mod Z.of_nat T =? Z.of_nat u.

Lemma rec_edges_ok (Q : unit → graph → Prop) t a VA EA L sq T tpls u done0 :
  rep n a VA EA L → let rs := filter (λ r, mine T u r = true) (default [] (tpls !! u)) in
  arr (gm2 VA (part EA done0) (part EA done0) sq) (vMeta t) → (∀ r, r ∈ rs → EA !! (v1 r, v2 r) = Some (e r)) →
  NoDup (done0 ++ (e <$> rs)) →
  (∀ x, arr (gm2 VA (part EA (done0 ++ (e <$> rs))) (part EA (done0 ++ (e <$> rs))) sq) x → Q tt (Graph (ds t) x)) →
  wp (rec_edges T tpls u) Q t.
Proof.
  intros Hr rs Ha Hrs Hnd HQ. unfold rec_edges. fold (mine T u). set (l0 := default [] (tpls !! u)) in *.
  assert (∀ l, l ≡ₚ l0 → filter (λ r, mine T u r = true) l ≡ₚ rs) as Hperm by (intros l Hl; unfold rs; by rewrite Hl).
  assert (∀ r, EA !! (v1 r, v2 r) = Some (e r) → (inrange (v1 r) ∧ is_Some (VA !! v1 r)) ∧ inrange (v2 r) ∧ is_Some (VA !! v2 r)) as Hends.
  { intros r He. assert (is_Some (EA !! (v1 r, v2 r))) as Hs by (by eexists).
    apply (r_edges _ _ _ _ _ Hr), (r_ends _ _ _ _ _ Hr) in Hs as (_ & H1 & H2).
    split; split; by (apply (r_range _ _ _ _ _ Hr) || apply (r_verts _ _ _ _ _ Hr)). }
  assert (∀ r l, EA !! (v1 r, v2 r) = Some (e r) → e r ∉ l → part EA l !! (v1 r, v2 r) = None) as Hno.
  { intros r l He Hl. apply eq_None_not_Some. intros [b [Hb Hbl]%part_Some]. congruence. }
  set (R1 := filter (λ r, mine T u r = true) (merge_sort by_v1 l0)).
  set (R2 := filter (λ r, mine T u r = true) (merge_sort by_v2 (merge_sort by_v1 l0))).
  assert (R1 ≡ₚ rs) as HR1 by (apply Hperm; apply merge_sort_Permutation).
  assert (R2 ≡ₚ rs) as HR2 by (apply Hperm; by rewrite !merge_sort_Permutation).
  apply wp_bind. unfold wp. rewrite (mfor_if (mine T u) (merge_sort by_v1 l0) source_step). fold R1.
  apply (edge_loop_ok _ source_step (λ l, gm2 VA (part EA l) (part EA done0) sq) EA R1 done0); [|exact Ha|by setoid_rewrite HR1|by rewrite HR1|].
  { intros Q' r l t' He Hl Ha' HQ'. destruct (Hends r He) as [[Hv [b Hb]] _].
    eapply source_step_ok; [exact Ha'|done|exact Hb|by apply Hno|]. intros x Hx. apply HQ'. by rewrite (part_snoc a VA EA L _ _ _ Hr He). }
  intros x1 Ha1. unfold wp. rewrite (mfor_if (mine T u) _ dest_step). fold R2.
  apply (edge_loop_ok _ dest_step (λ l, gm2 VA (part EA (done0 ++ (e <$> R1))) (part EA l) sq) EA R2 done0);
    [|exact Ha1|by setoid_rewrite HR2|by rewrite HR2|].
  { intros Q' r l t' He Hl Ha' HQ'. destruct (Hends r He) as [_ [Hv [b Hb]]].
    eapply dest_step_ok; [exact Ha'|done|exact Hb|by apply Hno|]. intros x Hx. apply HQ'. by rewrite (part_snoc a VA EA L _ _ _ Hr He). }
  intros x2 Ha2. apply HQ. rewrite (part_ext EA _ (done0 ++ (e <$> rs))) in Ha2 by (intros b; by rewrite HR1).
  by rewrite (part_ext EA (done0 ++ (e <$> R2)) (done0 ++ (e <$> rs))) in Ha2 by (intros b; by rewrite HR2).
Qed.

Lemma item_of_edge a VA EA L b p : rep n a VA EA L → EA !! p = Some b → item_of L b = Rw p.1 p.2 b.
Proof.
  intros Hr Hp. destruct p as [i j]. destruct (rep_edge _ _ _ _ _ _ _ _ Hr Hp) as (w & HL & _). unfold item_of. by rewrite HL.
Qed.

(** Each relation belongs to the thread of its source. *)
Lemma mine_goes T u r : (0 < T)%nat → mine T u r = true ↔ owner T (v1 r) = u.
Proof.
  intros HT. unfold mine, owner. rewrite Z.eqb_eq. pose proof (Z.mod_pos_bound (v1 r) (Z.of_nat T)). lia.
Qed.

Lemma mine_filter T u (rs l : list RelationWrapper) :
  (0 < T)%nat → l ≡ₚ filter (goes T u) rs → filter (λ r, mine T u r = true) l ≡ₚ filter (λ r, owner T (v1 r) = u) rs.
Proof.
  intros HT ->. rewrite list_filter_filter. apply Permutation_refl'. apply list_filter_iff. intros r.
  rewrite mine_goes by done. unfold goes. tauto.
Qed.

(** The third phase of all threads *)
Lemma third_phase_ok (Q : unit → graph → Prop) t a VA EA L sq T tpls rs o3 :
  rep n a VA EA L → arr (gm VA ∅ free sq) (vMeta t) → (0 < T)%nat → o3 ≡ₚ seq 0 T →
  (∀ u, (u < T)%nat → default [] (tpls !! u) ≡ₚ filter (goes T u) rs) →
  (∀ r, r ∈ rs → EA !! (v1 r, v2 r) = Some (e r)) → NoDup (e <$> rs) → (∀ p b, EA !! p = Some b → b ∈ e <$> rs) →
  (∀ x, arr (gm VA EA free sq) x → Q tt (Graph (ds t) x)) → wp (mfor o3 (rec_edges T tpls)) Q t.
Proof.
  intros Hr Ha HT Ho3 Htp Hrs Hnd Hall HQ.
  set (share u := filter (λ r, mine T u r = true) (default [] (tpls !! u))).
  assert (∀ us, (∀ u, u ∈ us → (u < T)%nat) →
    concat (share <$> us) ≡ₚ concat ((λ u, filter (λ r, owner T (v1 r) = u) rs) <$> us)) as Hshare.
  { induction us as [|u us IH]; intros Hus; [done|]. rewrite !fmap_cons. cbn [concat].
    rewrite IH by (intros v Hv; apply Hus; by right). unfold share at 1.
    rewrite (mine_filter T u rs) by (done || (apply Htp, Hus; by left)). done. }
  assert (∀ u, u ∈ o3 → (u < T)%nat) as Hlt by (intros u Hu; rewrite Ho3, elem_of_seq in Hu; lia).
  assert (concat (share <$> o3) ≡ₚ rs) as Htot.
  { rewrite (Hshare o3 Hlt). apply (filter_split T (λ r, owner T (v1 r))); [intros; by apply owner_lt|done]. }
  apply (wp_mfor o3 _ (λ us _ t', ds t' = ds t ∧
    let d := e <$> concat (share <$> us) in arr (gm2 VA (part EA d) (part EA d) sq) (vMeta t'))).
  - split; [done|]. simpl. eapply arr_ext; [exact Ha|]. intros v _. unfold gm, gm2, tvtx. f_equal.
    destruct (VA !! v); [|done]. simpl. do 2 f_equal; apply emap_eq; intros i j; rewrite ?out_lookup, ?inn_lookup;
      (case_decide; [|done]); rewrite lookup_empty; symmetry; apply eq_None_not_Some; intros [b [_ []%elem_of_nil]%part_Some].
  - intros us u us' t1 -> [Hds Ha1]. simpl.
    assert (concat (share <$> us ++ u :: us') = concat (share <$> us) ++ share u ++ concat (share <$> us')) as Hsplit.
    { rewrite fmap_app, concat_app, fmap_cons. done. }
    rewrite Hsplit in Htot. eapply rec_edges_ok; [exact Hr|exact Ha1|..].
    + intros r Hin. apply Hrs. rewrite <- Htot. fold (share u) in Hin. set_solver.
    + fold (share u). rewrite <- fmap_app. rewrite <- Htot, app_assoc, fmap_app in Hnd. by apply NoDup_app in Hnd as [? _].
    + intros x Hx. split; [done|]. simpl. fold (share u) in Hx. rewrite fmap_app, concat_app, fmap_app. simpl. by rewrite app_nil_r.
  - intros t1 [Hds Ha1]. destruct t1 as [s1 x]. simpl in *. subst s1. apply HQ. eapply arr_ext; [exact Ha1|]. intros v _.
    assert (part EA (e <$> concat (share <$> o3)) = EA) as ->; [|done].
    apply map_eq. intros p. apply option_eq. intros b. rewrite part_Some. rewrite Htot. naive_solver.
Qed.

(** The abstract graph of the payloads *)
Definition graph_of L a : Prop := ∃ VA EA, rep n a VA EA L.

Lemma graph_recover_ok k t a L seqs recovered T o1 p1 p2 o3 tid :
  p_idle k (ds t) L → graph_of L a → 0 < k → (tid < p_threads)%nat → length seqs = n →
  NoDup recovered → (∀ b, b ∈ recovered ↔ is_Some (L !! b)) →
  (0 < T)%nat → o1 ≡ₚ seq 0 T → p1 ≡ₚ seq 0 T → p2 ≡ₚ seq 0 T → o3 ≡ₚ seq 0 T →
  wp (recover n seqs recovered T o1 ((Fill <$> p1) ++ (Copy <$> p2)) o3 tid)
    (λ r t', r = Z.of_nat (length recovered) ∧ ∃ sq, g_ok n (k - 1) a sq t') t.
Proof.
  intros Hid (VA & EA & Hr) Hk Ht Hlen Hnd Hrec HT Ho1 Hp1 Hp2 Ho3. unfold recover.
  set (sq := λ v, default 0 (seqs !! Z.to_nat v)). apply wp_bind. unfold wp at 1, mmod. cbv beta iota.
  assert (arr (gm ∅ ∅ free sq) (rec_meta seqs)) as Ha.
  { split; [unfold rec_meta; by rewrite length_fmap|]. intros v Hv. unfold rec_meta, GraphOps.inrange in *. rewrite list_lookup_fmap.
    destruct (lookup_lt_is_Some_2 seqs (Z.to_nat v)) as [x Hx]; [lia|]. rewrite Hx. simpl. unfold gm, sq. by rewrite Hx. }
  set (vs := filter (λ b, isV L b = true) recovered). set (es := filter (λ b, isV L b = false) recovered).
  assert (∀ b, b ∈ vs ↔ ∃ i, VA !! i = Some b) as Hvs.
  { intros b. unfold vs. rewrite list_elem_of_filter, Hrec. split.
    - intros [HV Hs]. by apply (isV_true a VA EA L b Hr Hs).
    - intros [i Hi]. destruct (rep_vertex _ _ _ _ _ _ _ Hr Hi) as (l & Hl & _). assert (is_Some (L !! b)) as Hs by (by eexists).
      split; [|done]. apply (isV_true a VA EA L b Hr Hs). by exists i. }
  assert (∀ b, b ∈ es ↔ ∃ p, EA !! p = Some b) as Hes.
  { intros b. unfold es. rewrite list_elem_of_filter, Hrec. split.
    - intros [HV Hs]. by apply (isV_false a VA EA L b Hr Hs).
    - intros [[i j] Hp]. destruct (rep_edge _ _ _ _ _ _ _ _ Hr Hp) as (w & Hl & _). assert (is_Some (L !! b)) as Hs by (by eexists).
      split; [|done]. apply (isV_false a VA EA L b Hr Hs). by exists (i, j). }
  apply wp_bind. eapply wp_op_holder; [by apply p_enter|done|]. intros s1 Hin _.
  eapply wp_eq; [apply (gather_ok tid (k - 1) L); [exact Hin|intros b; apply Hrec]|]. fold vs es.
  eexists _, _. split; [exact Hin|]. intros s2 Hid2 _. cbn [fst snd]. apply wp_bind. unfold wp, rec_vertices.
  rewrite (mfor_concat o1 (λ u, strided T u vs) rec_vertex).
  pose proof (strided_split T vs o1 HT Ho1) as Hperm.
  eapply rec_vertices_ok; [exact Hid2|exact Hr|exact Ha|rewrite Hperm; by apply NoDup_filter|intros b; by rewrite Hperm|].
  intros x Hx. apply wp_bind.
  destruct (schedule_ok (k - 1) (Graph s2 x) a VA EA L sq T es p1 p2) as (tpls & Hsch & Htp);
    [exact Hid2|exact Hr|exact Hx|intros b; apply Hes|done..|].
  eapply wp_eq; [exact Hsch|]. apply wp_bind.
  assert (e <$> (item_of L <$> es) = es) as Hee.
  { rewrite <- list_fmap_compose. rewrite <- (list_fmap_id es) at 2. apply list_fmap_ext. intros i b Hb%list_elem_of_lookup_2.
    apply Hes in Hb as [p Hp]. simpl. by rewrite (item_of_edge a VA EA L b p Hr Hp). }
  eapply (third_phase_ok _ (Graph s2 x) a VA EA L sq T tpls (item_of L <$> es)); [exact Hr|exact Hx|done|done|exact Htp|..].
  - intros r (b & -> & Hb)%list_elem_of_fmap. apply Hes in Hb as [[i j] Hp]. by rewrite (item_of_edge a VA EA L b _ Hr Hp).
  - rewrite Hee. by apply NoDup_filter.
  - intros p b Hp. rewrite Hee. apply Hes. by exists p.
  - intros x2 Hx2. apply wp_ret. split; [done|]. exists sq, VA, EA, L. by split_and!.
Qed.

(** ** Construction *)

(** The state during construction: the thread is outside an operation, and all
    its payloads are pending. *)
Definition under_construction (tid : nat) (k : Z) a (sq : Z → Z) t : Prop :=
  ∃ VA EA L N, p_out tid k (ds t) L N ∧ arr (gm VA EA free sq) (vMeta t) ∧ rep n a VA EA L.

(** The graph that the constructor makes *)
Definition ctor_vertex_spec a (ic : nat * bool) : agraph :=
  if ic.2 then AG (<[Z.of_nat ic.1 := Z.of_nat ic.1]> (verts a)) (edges a) else a.
Definition ctor_edge_spec (i : Z) a (k : Z) : agraph :=
  if bool_decide (k ≠ i ∧ is_Some (verts a !! k) ∧ edges a !! (i, k) = None)
  then AG (verts a) (<[(i, k) := -1]> (edges a)) else a.
Definition ctor_row_spec a (ik : nat * list Z) : agraph :=
  if verts a !! Z.of_nat ik.1 then foldl (ctor_edge_spec (Z.of_nat ik.1)) a ik.2 else a.
Definition ctor_spec (coins : list bool) (rng : list (list Z)) : agraph :=
  foldl ctor_row_spec (foldl ctor_vertex_spec (AG ∅ ∅) (zip (seq 0 n) coins)) (zip (seq 0 n) rng).

Lemma ctor_edge_ok tid k a sq t i j :
  under_construction tid k a sq t → 0 < k → inrange i → inrange j → is_Some (verts a !! i) →
  wp (ctor_edge i j tid) (λ _ t', ∃ k', k - 1 ≤ k' ∧ under_construction tid k' (ctor_edge_spec i a j) sq t') t.
Proof.
  intros (VA & EA & L & N & Ho & Ha & Hr) Hk Hi Hj Hvi.
  assert (∀ k' t', k - 1 ≤ k' → (∃ N', p_out tid k' (ds t') L N') → arr (gm VA EA free sq) (vMeta t') →
    ctor_edge_spec i a j = a → ∃ k'', k - 1 ≤ k'' ∧ under_construction tid k'' (ctor_edge_spec i a j) sq t') as Hsame.
  { intros k' t' Hk' [N' Ho'] Ha' ->. exists k'. split; [done|]. by exists VA, EA, L, N'. }
  unfold ctor_edge. destruct (Z.eqb_spec j i) as [->|Hne].
  { apply wp_ret, (Hsame k); [lia|by exists N|done|]. unfold ctor_edge_spec. rewrite bool_decide_eq_false_2; [done|]. tauto. }
  apply wp_bind. eapply wp_is_null; [exact Ha|done|]. simpl. rewrite (bool_decide_ext _ _ (tvtx_none _ _ _)).
  case_bool_decide as HVj.
  { apply wp_ret, (Hsame k); [lia|by exists N|done|]. unfold ctor_edge_spec. rewrite bool_decide_eq_false_2; [done|].
    apply (rep_none _ _ _ _ _ _ Hr) in HVj. rewrite HVj. intros (_ & [? ?] & _). done. }
  assert (is_Some (VA !! j)) as [bj HVb] by (by destruct (VA !! j)).
  apply (r_verts _ _ _ _ _ Hr) in Hvi as [bi HVi].
  destruct (p_new_law tid k (ds t) L N (Relation i j (-1)) Ho Hk) as (b & s1 & H1 & _ & HLb & Ho1).
  apply wp_bind, wp_on_ds. eapply wp_eq; [exact H1|].
  eapply (wp_emplace_both n (λ ret1 ret2, do* massert (eqb ret1 ret2) "ret1.second==ret2.second" in
    if ret1 : bool then mret_ tt else on_ds (p_delete b tid))); [exact Ha|done|done|congruence|done|done|].
  intros l Hl. apply wp_bind, wp_assert; [apply eqb_reflx|]. unfold emplace in *. destruct (EA !! (i, j)) as [b0|] eqn:HE; simpl in *.
  - apply wp_on_ds. destruct (p_drop_law tid _ _ _ _ b (Relation i j (-1)) Ho1) as (N' & s2 & H2 & _ & Ho2); [set_solver|apply lookup_insert_eq|].
    eapply wp_eq; [exact H2|]. rewrite delete_insert_eq, delete_id in Ho2 by done.
    apply (Hsame (k - 1)); [lia|by exists N'|done|]. unfold ctor_edge_spec. rewrite bool_decide_eq_false_2; [done|].
    intros (_ & _ & Hno). apply (rep_no_edge _ _ _ _ _ _ Hr) in Hno. congruence.
  - apply wp_ret. exists (k - 1). split; [lia|]. unfold ctor_edge_spec. rewrite bool_decide_eq_true_2.
    + eexists VA, _, _, _. split; [exact Ho1|]. split; [exact Hl|]. by apply rep_insert_edge; [..|by eexists|by eexists| |].
    + split; [done|]. split; [by apply (r_verts _ _ _ _ _ Hr); eexists|by apply (rep_no_edge _ _ _ _ _ _ Hr)].
Qed.

Lemma ctor_edge_verts i a j : verts (ctor_edge_spec i a j) = verts a.
Proof. unfold ctor_edge_spec. by case_bool_decide. Qed.
Lemma ctor_row_verts i ks : ∀ a, verts (foldl (ctor_edge_spec i) a ks) = verts a.
Proof. induction ks as [|k ks IH]; intros a; [done|]. simpl. by rewrite IH, ctor_edge_verts. Qed.

Lemma ctor_row_ok tid k a sq t i ks :
  under_construction tid k a sq t → Z.of_nat (length ks) ≤ k → inrange i → (∀ j, j ∈ ks → inrange j) → is_Some (verts a !! i) →
  wp (mfor ks (λ j, ctor_edge i j tid)) (λ _ t', ∃ k', k - Z.of_nat (length ks) ≤ k' ∧
    under_construction tid k' (foldl (ctor_edge_spec i) a ks) sq t') t.
Proof.
  intros Hc Hk Hi Hks Hv.
  apply (wp_mfor ks _ (λ l1 _ t', ∃ k', k - Z.of_nat (length l1) ≤ k' ∧ under_construction tid k' (foldl (ctor_edge_spec i) a l1) sq t')).
  - exists k. split; [simpl; lia|done].
  - intros l1 j l2 t1 -> (k1 & Hk1 & Hc1). rewrite length_app in Hk |- *. simpl in Hk |- *.
    eapply wp_mono; [eapply ctor_edge_ok; [exact Hc1|lia|done|apply Hks; set_solver|by rewrite ctor_row_verts]|].
    intros [] t2 (k2 & Hk2 & Hc2). exists k2. split; [lia|]. by rewrite foldl_app.
  - done.
Qed.

Lemma ctor_edges_ok tid k a sq t rng :
  under_construction tid k a sq t → Z.of_nat (length (concat rng)) ≤ k → (length rng ≤ n)%nat → (∀ ks, ks ∈ rng → ∀ j, j ∈ ks → inrange j) →
  wp (ctor_edges n rng tid) (λ _ t', ∃ k', k - Z.of_nat (length (concat rng)) ≤ k' ∧
    under_construction tid k' (foldl ctor_row_spec a (zip (seq 0 n) rng)) sq t') t.
Proof.
  intros Hc Hk Hlen Hr. unfold ctor_edges. set (rows := zip (seq 0 n) rng).
  assert (rows.*2 = rng) as Hrows by (unfold rows; apply snd_zip; by rewrite length_seq).
  assert (Z.of_nat (length (concat rows.*2)) ≤ k) as Hk' by (by rewrite Hrows). clear Hk.
  apply (wp_mfor rows _ (λ l1 _ t', ∃ k', k - Z.of_nat (length (concat l1.*2)) ≤ k' ∧ under_construction tid k' (foldl ctor_row_spec a l1) sq t')).
  - exists k. split; [simpl; lia|done].
  - intros l1 [i ks] l2 t1 Hl (k1 & Hk1 & Hc1). rewrite Hl, fmap_app, concat_app, length_app, fmap_cons in Hk'.
    cbn [concat] in Hk'. rewrite length_app in Hk'. simpl in Hk' |- *.
    assert ((i, ks) ∈ rows) as Hin by (rewrite Hl; set_solver). unfold rows in Hin.
    pose proof (elem_of_zip_l _ _ _ _ Hin) as Hi%elem_of_seq. pose proof (elem_of_zip_r _ _ _ _ Hin) as Hks.
    assert (inrange (Z.of_nat i)) as Hir by (unfold GraphOps.inrange; lia). pose proof Hc1 as (VA & EA & L & N & _ & Ha1 & Hr1).
    apply wp_bind. eapply wp_is_null; [exact Ha1|done|]. simpl. rewrite (bool_decide_ext _ _ (tvtx_none _ _ _)).
    rewrite foldl_app, fmap_app, concat_app, length_app. cbn. rewrite app_nil_r.
    unfold ctor_row_spec at 1. simpl. case_bool_decide as HV.
    + pose proof (proj1 (rep_none _ _ _ _ _ _ Hr1) HV) as ->. apply wp_ret. exists k1. split; [lia|done].
    + destruct (VA !! Z.of_nat i) as [b|] eqn:HVb; [|done]. destruct (rep_vertex _ _ _ _ _ _ _ Hr1 HVb) as (lbl & _ & Hlbl).
      rewrite Hlbl. eapply wp_mono; [eapply ctor_row_ok; [exact Hc1|lia|done|by apply (Hr ks)|by rewrite Hlbl]|].
      intros [] t2 (k2 & Hk2 & Hc2). exists k2. split; [lia|done].
  - intros t1 (k1 & Hk1 & Hc1). exists k1. by rewrite Hrows in Hk1.
Qed.

Lemma empty_meta_arr : arr (gm ∅ ∅ free (λ _, 0)) (empty_meta n).
Proof.
  split; [apply length_replicate|]. intros v Hv. unfold GraphOps.inrange in Hv. unfold empty_meta.
  rewrite lookup_replicate_2 by lia. unfold gm, tvtx. by rewrite lookup_empty.
Qed.

Lemma ctor_vertices_ok tid k t coins :
  p_out tid k (ds t) ∅ [] → vMeta t = empty_meta n → Z.of_nat n ≤ k →
  wp (ctor_vertices n coins tid) (λ _ t', ∃ k', k - Z.of_nat n ≤ k' ∧
    under_construction tid k' (foldl ctor_vertex_spec (AG ∅ ∅) (zip (seq 0 n) coins)) (λ _, 0) t') t.
Proof.
  intros Ho Hm Hk. unfold ctor_vertices. set (cs := zip (seq 0 n) coins).
  assert (length cs ≤ n)%nat as Hlen by (unfold cs; rewrite length_zip_with, length_seq; lia).
  assert (NoDup cs.*1) as Hnd by apply zip_seq_NoDup.
  apply (wp_mfor cs _ (λ l1 _ t', ∃ k', k - Z.of_nat (length l1) ≤ k' ∧ under_construction tid k' (foldl ctor_vertex_spec (AG ∅ ∅) l1) (λ _, 0) t' ∧
    ∀ v, is_Some (verts (foldl ctor_vertex_spec (AG ∅ ∅) l1) !! v) → ∃ i, i ∈ l1.*1 ∧ v = Z.of_nat i)).
  - exists k. split; [simpl; lia|]. split; [|intros v [? Hv]; simpl in Hv; by rewrite lookup_empty in Hv].
    exists ∅, ∅, ∅, []. split; [done|]. split; [|apply rep_empty]. rewrite Hm. apply empty_meta_arr.
  - intros l1 [i c] l2 t1 Hl (k1 & Hk1 & (VA & EA & L & N & Ho1 & Ha1 & Hr1) & Hdom). rewrite length_app, foldl_app, fmap_app. simpl.
    assert ((i, c) ∈ cs) as Hin by (rewrite Hl; set_solver). pose proof (elem_of_zip_l _ _ _ _ Hin) as Hi%elem_of_seq.
    assert (inrange (Z.of_nat i)) as Hir by (unfold GraphOps.inrange; lia).
    rewrite Hl, fmap_app, fmap_cons in Hnd. apply NoDup_app in Hnd as (_ & Hdisj & _).
    rewrite Hl, length_app in Hlen. simpl in Hlen.
    destruct c; unfold ctor_vertex_spec at 1 3; simpl.
    2:{ apply wp_ret. exists k1. split; [lia|]. split; [by exists VA, EA, L, N|]. intros v Hv. destruct (Hdom v Hv) as (i' & ? & ?).
        exists i'. split; [set_solver|done]. }
    unfold new_tVertex. apply wp_bind, wp_bind, wp_on_ds.
    destruct (p_new_law tid k1 (ds t1) L N (Vertex (Z.of_nat i) (Z.of_nat i)) Ho1) as (b & s2 & H2 & _ & HLb & Ho2); [lia|].
    eapply wp_eq; [exact H2|]. apply wp_ret. eapply wp_set_vertex; [exact Ha1|done|]. intros x Hx. exists (k1 - 1). split; [lia|].
    assert (VA !! Z.of_nat i = None) as HV.
    { apply (rep_none _ _ _ _ _ _ Hr1), eq_None_not_Some. intros (i' & Hi' & Heq)%Hdom. assert (i' = i) as -> by lia. apply (Hdisj i Hi'). by left. }
    split.
    + exists (<[Z.of_nat i := b]> VA), EA, (<[b := Vertex (Z.of_nat i) (Z.of_nat i)]> L), (N ++ [b]). split; [exact Ho2|]. split; [|by apply rep_insert_vertex].
      eapply arr_ext; [exact Hx|]. intros v _. unfold gm, tvtx. simpl. destruct (decide (v = Z.of_nat i)) as [->|Hne].
      * rewrite fn_lookup_insert, lookup_insert_eq. simpl. do 2 f_equal. f_equal; apply emap_eq; intros p q;
          rewrite ?out_lookup, ?inn_lookup, lookup_empty; case_decide; try done; symmetry;
          eapply rep_isolated; [exact Hr1|exact HV|unfold incident; simpl; auto|exact Hr1|exact HV|unfold incident; simpl; auto].
      * by rewrite fn_lookup_insert_ne, lookup_insert_ne by done.
    + intros v Hv. rewrite lookup_insert in Hv. case_decide as Hvi; [exists i; split; [set_solver|done]|].
      destruct (Hdom v Hv) as (i' & ? & ?). exists i'. split; [set_solver|done].
  - intros t1 (k1 & Hk1 & Hc1 & _). exists k1. split; [lia|done].
Qed.

Lemma MontageGraph_ok tid k t coins rng :
  p_idle k (ds t) ∅ → (tid < p_threads)%nat → Z.of_nat n + Z.of_nat (length (concat rng)) + 1 ≤ k →
  (length rng ≤ n)%nat → (∀ ks, ks ∈ rng → ∀ j, j ∈ ks → inrange j) →
  wp (MontageGraph n coins rng tid) (λ _ t', ∃ k' sq, k - (Z.of_nat n + Z.of_nat (length (concat rng)) + 1) ≤ k' ∧
    g_ok n k' (ctor_spec coins rng) sq t') t.
Proof.
  intros Hid Ht Hk Hlen Hrng. unfold MontageGraph. apply wp_bind. unfold wp at 1, mmod. cbv beta iota.
  apply wp_bind. eapply wp_mono; [apply (ctor_vertices_ok tid k); [by apply p_enter|done|lia]|].
  intros [] t1 (k1 & Hk1 & Hc1). apply wp_bind.
  eapply wp_mono; [eapply ctor_edges_ok; [exact Hc1|lia|done|exact Hrng]|].
  intros [] t2 (k2 & Hk2 & VA & EA & L & N & Ho & Ha & Hr).
  eapply wp_op_holder; [exact Ho|lia|]. intros s3 Hin _. apply wp_ret. eexists _, _. split; [exact Hin|]. intros s4 Hid4 _.
  exists (k2 - 1), (λ _, 0). split; [lia|]. exists VA, EA, L. by split_and!.
Qed.
End recover.

(** ** Histories and epochs *)

(** The live payloads are the vertices and edges of the graph, each once. *)
Record graph_payloads (L : gmap Z gpayload) (a : agraph) : Prop := {
  gp_vertex : ∀ v l, verts a !! v = Some l ↔ ∃ b, L !! b = Some (Vertex v l);
  gp_edge : ∀ i j w, edges a !! (i, j) = Some w ↔ ∃ b, L !! b = Some (Relation i j w);
  gp_once : ∀ b b' p, L !! b = Some p → L !! b' = Some p → b = b';
}.

Lemma graph_of_payloads n L a : graph_of n L a → graph_payloads L a.
Proof.
  intros (VA & EA & Hr). constructor.
  - intros v l. split.
    + intros Hl. assert (is_Some (VA !! v)) as [b Hb] by (apply (r_verts _ _ _ _ _ Hr); by eexists).
      exists b. by apply (r_live _ _ _ _ _ Hr).
    + by intros [b [_ Hb]%(r_live _ _ _ _ _ Hr)].
  - intros i j w. split.
    + intros Hw. assert (is_Some (EA !! (i, j))) as [b Hb] by (apply (r_edges _ _ _ _ _ Hr); by eexists).
      exists b. by apply (r_live _ _ _ _ _ Hr).
    + by intros [b [_ Hb]%(r_live _ _ _ _ _ Hr)].
  - intros b b' p Hb%(r_live _ _ _ _ _ Hr) Hb'%(r_live _ _ _ _ _ Hr). destruct p; destruct Hb, Hb'; congruence.
Qed.

Lemma graph_of_empty n : graph_of n ∅ (AG ∅ ∅).
Proof. exists ∅, ∅. apply rep_empty. Qed.

Section histories.
Context {S : Type} `{!PayloadApi S gpayload, !EpochLaws S gpayload} (n : nat).
Notation graph := (@graph S).
Implicit Types (H : list (gmap Z gpayload)) (t : graph) (h : hist gop).
Notation ok H := (g_ok (PayloadLaws0 := e_laws H) n).

Definition run_graph : hist gop → M graph (list bool) := run run_gop (on_ds p_advance).
Definition spec_graph : hist gop → agraph → list bool * agraph := spec spec_gop.
Definition valid_call (tid : nat) (o : gop) : Prop := (tid < e_threads)%nat ∧ valid_op n o.

(** The invariant, with room for [r] more operations *)
Definition graph_room H (r : nat) (a : agraph) t : Prop := ∃ k sq, cost n * Z.of_nat r ≤ k ∧ ok H k a sq t.

Lemma run_graph_ok h H r a t (past_as : list agraph) :
  graph_room H (length h + r) a t → all_calls valid_call h → Forall2 (graph_of n) H past_as →
  ∃ t' H', run_graph h t = (Ret (spec_graph h a).1, t') ∧ graph_room H' r (spec_graph h a).2 t' ∧
    Forall2 (graph_of n) H' (spec_past spec_gop h a past_as).
Proof using All.
  intros Hok Hth Hp. apply (run_ok _ _ _ valid_call graph_room (graph_of n)) with (H := H); [| |done..].
  - clear H r a t Hok Hp. intros H r a t o tid (k & sq & Hk & Hok) [Ht Ho]. unfold cost in Hk.
    assert (wp (run_gop o tid) (implements (PayloadLaws0 := e_laws H) n o (cost n) k a sq) t) as Hw.
    { apply run_gop_ok; [done|unfold cost; lia|by rewrite e_same|done]. }
    apply wp_run in Hw as (b & t1 & Hrun & -> & k1 & sq1 & Hk1 & Hok1 & _). exists t1. split; [done|].
    exists k1, sq1. unfold cost in *. split; [lia|done].
  - clear H r a t Hok Hp. intros H r a t (k & sq & Hk & VA & EA & L & Hid & Ha & Hr). unfold cost in Hk.
    destruct (e_advance k (ds t) L H Hid) as (s1 & H1 & Hid1); [lia|]. exists L, (Graph s1 (vMeta t)). unfold on_ds.
    rewrite H1. split; [done|]. split; [|by exists VA, EA]. exists (k - 1), sq. unfold cost. split; [lia|]. by exists VA, EA, L.
Qed.

(** An empty graph *)
Lemma empty_graph_room H k r s :
  p_idle (PayloadLaws := e_laws H) k s ∅ → cost n * Z.of_nat r ≤ k → graph_room H r (AG ∅ ∅) (Graph s (empty_meta n)).
Proof using Type.
  intros Hid Hk. exists k, (λ _, 0). split; [done|]. exists ∅, ∅, ∅. split; [done|]. split; [|apply rep_empty]. apply empty_meta_arr.
Qed.
End histories.



(** Recovery of the graph.  After any history, from the live
    payloads in any order, with any number of threads and any order of the
    threads in each phase, [recover] rebuilds the graph and counts the blocks,
    provided that every thread has filled its buffers before any thread copies:
    every further history is answered as by the graph before. *)
Theorem graph_recover_roundtrip {S} `{!PayloadApi S gpayload, !EpochLaws S gpayload} (n : nat) (k : Z) (s : S)
    (h h2 : hist gop) (tid rec_thd : nat) (seqs : list Z) (o1 p1 p2 o3 : list nat) :
  p_idle (PayloadLaws := e_laws []) k s ∅ → (tid < e_threads)%nat → all_calls (valid_call n) h → all_calls (valid_call n) h2 →
  cost n * (Z.of_nat (length h) + Z.of_nat (length h2) + 1) ≤ k → length seqs = n → (0 < rec_thd)%nat →
  o1 ≡ₚ seq 0 rec_thd → p1 ≡ₚ seq 0 rec_thd → p2 ≡ₚ seq 0 rec_thd → o3 ≡ₚ seq 0 rec_thd →
  ∃ t1 k' (L : gmap Z gpayload) H, run_graph h (Graph s (empty_meta n)) = (Ret (spec_graph h (AG ∅ ∅)).1, t1) ∧
    p_idle (PayloadLaws := e_laws H) k' (ds t1) L ∧
    ∀ recovered l0, NoDup recovered → (∀ b, b ∈ recovered ↔ is_Some (L !! b)) →
    ∃ t2 t3, recover n seqs recovered rec_thd o1 ((Fill <$> p1) ++ (Copy <$> p2)) o3 tid (Graph (ds t1) l0) =
        (Ret (Z.of_nat (length recovered)), t2) ∧
      run_graph h2 t2 = (Ret (spec_graph h2 (spec_graph h (AG ∅ ∅)).2).1, t3).
Proof.
  intros Hid Ht Hh Hh2 Hk Hseqs HT Ho1 Hp1 Hp2 Ho3. assert (2 ≤ cost n) as Hc by (unfold cost; lia).
  destruct (run_graph_ok n h [] (length h2 + 1) (AG ∅ ∅) (Graph s (empty_meta n)) [])
    as (t1 & H & Hrun1 & (k1 & sq1 & Hk1 & VA & EA & L & Hid1 & Ha1 & Hr1) & Hpast);
    [eapply empty_graph_room; [exact Hid|nia]|done|done|].
  exists t1, k1, L, H. split; [done|]. split; [done|]. intros recovered l0 Hnd Hrec.
  assert (wp (recover n seqs recovered rec_thd o1 ((Fill <$> p1) ++ (Copy <$> p2)) o3 tid)
    (λ r t', r = Z.of_nat (length recovered) ∧ ∃ sq, g_ok (PayloadLaws0 := e_laws H) n (k1 - 1) (spec_graph h (AG ∅ ∅)).2 sq t')
    (Graph (ds t1) l0)) as Hw.
  { eapply graph_recover_ok; [exact Hid1|by exists VA, EA|nia|by rewrite e_same|done..]. }
  apply wp_run in Hw as (r & t2 & Hrun2 & -> & sq2 & Hok2).
  destruct (run_graph_ok n h2 H 0 (spec_graph h (AG ∅ ∅)).2 t2 (spec_past spec_gop h (AG ∅ ∅) []))
    as (t3 & H3 & Hrun3 & _); [exists (k1 - 1), sq2; split; [nia|done]|done|done|].
  exists t2, t3. by split.
Qed.
