(* ===== verification/Clients.v ===== *)
(** * The whole stack

    The data structures of [HashTable] and [MQueue] over [Recoverable], over
    the blocking [EpochSys] with its default configuration: [BufferedWB] on
    fixed circular buffers, thread-local reclamation, the per-epoch transaction
    tracker and the IncreasingMindicator.  Ralloc stays a parameter. *)

From S2P Require Import Prelude PersistFunc UIDGen FixedBuffers Containers ToBePersisted TransTrackers ToBeFreed PersistTracker Dcss EpochSys Recovery Recoverable PayloadApi History EpochApi Versions Crash Restart HashTable MQueue.
Import FixedCircBufferContainer PerEpochTransactionTracker.

Section stack.
Context {P : Type} (ralloc : gmap Z (pblk P) → Z) (malloc_size : Z → Z) (n : nat).
Hypothesis ralloc_fresh : ∀ h, h !! ralloc h = None.
Hypothesis ralloc_pos : ∀ h, 0 < ralloc h.

Notation sys := (recoverable P (table (FixedBuffers.FixedCircBuffer.fcb Z)) (list Z)).

Definition montage_api : PayloadApi sys P := EpochSys_api ralloc malloc_size n.
Definition montage_epochs : @EpochLaws sys P montage_api :=
  EpochSys_epochs ralloc malloc_size n ralloc_fresh ralloc_pos.

(** [EpochSys::init] for [n] threads with buffers of [bufsize] entries, and the
    constructor of [Recoverable]. *)
Definition montage_init (desc_addr : nat → Z) (bufsize : Z) : outcome sys :=
  match EpochSys.init n desc_addr (fcc_new n bufsize) (pe_new n) with
  | Ret s => Ret (new_recoverable n s)
  | Throw e => Throw e
  end.

(** The same after a crash with the heap [h]: what [get_recovered] returns, and
    the object. *)
Definition montage_restart (desc_addr : nat → Z) (bufsize : Z) (h : gmap Z (pblk P)) (parts1 parts2 : list (list rblk)) :
    outcome (gmap Z Z * sys) :=
  match init_restart n desc_addr (fcc_new n bufsize) (pe_new n) h parts1 parts2 with
  | Ret (rec, s) => Ret (rec, new_recoverable n s)
  | Throw e => Throw e
  end.

Lemma pe_new_rep : tt_rep n (pe_new n) (λ _, None).
Proof.
  split_and!; [apply length_replicate|done|]. intros t e He. by apply lookup_replicate in He as [-> _].
Qed.

Lemma montage_init_idle desc_addr bufsize k :
  (0 < n)%nat → Z.of_nat n ≤ 65536 → 0 ≤ k < SN_MASK → 0 < bufsize → bufsize + 4 * k < U64 →
  ∃ r, montage_init desc_addr bufsize = Ret r ∧
    p_idle (PayloadLaws := e_laws (EpochLaws := montage_epochs) []) k r ∅.
Proof.
  intros Hn Hn2 Hk Hb Hbk. unfold montage_init.
  destruct (init_idle ralloc malloc_size n ralloc_fresh ralloc_pos (λ _ _ _ _, True) desc_addr (fcc_new n bufsize) (pe_new n) k) as (s & -> & Hid);
    [done|done|done|apply fcc_new_ok; lia|apply pe_new_rep|done|].
  eexists. split; [done|]. exact Hid.
Qed.
End stack.

(** One worker thread, with the past generations. *)
Section one_worker.
Context {P : Type} (ralloc : gmap Z (pblk P) → Z) (malloc_size : Z → Z).
Hypothesis ralloc_fresh : ∀ h, h !! ralloc h = None.
Hypothesis ralloc_pos : ∀ h, 0 < ralloc h.
Notation sys := (recoverable P (table (FixedBuffers.FixedCircBuffer.fcb Z)) (list Z)).

Definition montage_generations : @EpochLaws sys P (montage_api ralloc malloc_size 1) :=
  EpochSys_generations ralloc malloc_size ralloc_fresh ralloc_pos.

Lemma montage_generations_init desc_addr bufsize k :
  0 ≤ k < SN_MASK → 0 < bufsize → bufsize + 4 * k < U64 →
  ∃ r, montage_init 1 desc_addr bufsize = Ret r ∧
    p_idle (PayloadLaws := e_laws (EpochLaws := montage_generations) []) k r ∅.
Proof.
  intros Hk Hb Hbk. unfold montage_init.
  destruct (init_idle ralloc malloc_size 1 ralloc_fresh ralloc_pos (vinv [])
    (heap_inv0 := vinv_heap_inv ralloc ralloc_fresh ralloc_pos []) desc_addr (fcc_new 1 bufsize) (pe_new 1) k) as (s & -> & Hid);
    [lia|lia|done|apply fcc_new_ok; lia|apply pe_new_rep| |].
  { intros s H1 H2 H3 H4. apply vinv_init; try done; [lia|unfold INIT_EPOCH, SN_MASK, U64 in *; lia]. }
  eexists. split; [done|]. exact Hid.
Qed.

Lemma montage_restart_idle H k (r : sys) L n desc_addr bufsize k2 I parts1 parts2 :
  p_idle (PayloadLaws := e_laws (EpochLaws := montage_generations) H) k r L →
  (0 < n)%nat → Z.of_nat n ≤ 65536 → 0 ≤ k2 < SN_MASK → k2 + 4 ≤ k → 0 < bufsize → bufsize + 4 * k2 < U64 →
  crash_image (g (es r)) (heap (es r)) I → concat parts1 ≡ₚ I → concat parts2 ≡ₚ I →
  ∃ rec r', montage_restart n desc_addr bufsize (heap (es r)) parts1 parts2 = Ret (rec, r') ∧
    p_idle (PayloadLaws := e_laws (EpochLaws := montage_epochs ralloc malloc_size n ralloc_fresh ralloc_pos) []) k2 r' (past H 1) ∧
    NoDup (map_to_list rec).*2 ∧ ∀ b, b ∈ (map_to_list rec).*2 ↔ is_Some (past H 1 !! b).
Proof.
  intros Hid Hn Hn2 Hk2 Hk Hb Hbk HI H1 H2. unfold montage_restart.
  destruct (init_restart_idle ralloc malloc_size n ralloc_fresh ralloc_pos H k r L desc_addr (fcc_new n bufsize)
    (pe_new n) k2 I parts1 parts2) as (rec & s & -> & Hid2 & Hrec);
    [eapply rinv_vinv; exact Hid|done|done|done|lia|apply fcc_new_ok; lia|apply pe_new_rep|done|done|done|].
  exists rec, (new_recoverable n s). split; [done|]. split; [exact Hid2|exact Hrec].
Qed.
End one_worker.

(** C12. The map, end to end.  [n] threads, buffers of [bufsize] entries, any
    allocator that returns fresh addresses: the epoch system starts up, and
    every history of map operations by these threads, with the epoch advancing
    anywhere in between, runs without an exception, a failed assertion or an
    access to a freed block, and returns what a finite map returns, as long as
    it is short enough for the 48-bit sequence numbers and the 64-bit counters
    of the buffers. *)
Theorem montage_map_correct {K V} `{!EqDecision K, !Countable K} (lt : K → K → Prop) `{!RelDecision lt}
    `{!StrictOrder lt, !Trichotomy lt} (hash_fn : K → Z) (idxSize : Z)
    (ralloc : gmap Z (pblk (K * V)) → Z) (malloc_size : Z → Z) (n : nat) (desc_addr : nat → Z) (bufsize : Z)
    (h : hist hop) :
  (∀ h, h !! ralloc h = None) → (∀ h, 0 < ralloc h) → (0 < n)%nat → Z.of_nat n ≤ 65536 →
  0 < bufsize → bufsize + 16 * Z.of_nat (length h) < U64 → 4 * Z.of_nat (length h) < SN_MASK →
  0 < idxSize → (∀ tid o, Some (tid, o) ∈ h → (tid < n)%nat) →
  ∃ r t', montage_init n desc_addr bufsize = Ret r ∧
    run_history (PayloadApi0 := montage_api ralloc malloc_size n) lt hash_fn idxSize h (new_ht idxSize r) =
      (Ret (spec_history h ∅).1, t').
Proof.
  intros Hf Hp Hn Hn2 Hb Hbk Hk Hidx Hth.
  destruct (montage_init_idle ralloc malloc_size n Hf Hp desc_addr bufsize (4 * Z.of_nat (length h)))
    as (r & Hr & Hid); [done|done|lia|done|lia|].
  pose (LW := montage_epochs ralloc malloc_size n Hf Hp).
  destruct (run_history_ok (EpochLaws0 := LW) lt hash_fn idxSize Hidx h [] 0 ∅ (new_ht idxSize r) [])
    as (t' & H' & Hrun & _); [eapply new_ht_room; [exact Hid|lia]|exact Hth|done|].
  exists r, t'. by split.
Qed.




(** ** Concrete instances *)

Definition bump {A} (h : gmap Z A) : Z := foldr Z.max 0 (map_to_list h).*1 + 64.

Lemma top_pos {A} (h : gmap Z A) : 0 < bump h.
Proof.
  unfold bump. assert (∀ l, 0 ≤ foldr Z.max 0 l) as H; [|specialize (H (map_to_list h).*1); lia].
  induction l; simpl; lia.
Qed.
Lemma top_fresh {A} (h : gmap Z A) : h !! bump h = None.
Proof.
  destruct (h !! bump h) as [x|] eqn:Hx; [exfalso|done]. apply elem_of_map_to_list in Hx.
  assert (∀ l k, k ∈ l → k ≤ foldr Z.max 0 l) as H.
  { induction l as [|y l IH]; intros k; [set_solver|]. simpl. intros [->|Hk]%elem_of_cons; [lia|].
    specialize (IH k Hk). lia. }
  assert (bump h ∈ (map_to_list h).*1) as Hin by (apply list_elem_of_fmap; by eexists (_, _)).
  apply H in Hin. unfold bump in Hin. lia.
Qed.

#[local] Instance Zlt_trichotomy : Trichotomy Z.lt.
Proof. intros x y. lia. Qed.

(** Three threads; key 17 shares the bucket of key 1. *)
Definition map_history : hist (hop (K:=Z) (V:=Z)) :=
  [Some (0%nat, Put 17 170); Some (1%nat, Put 1 10); None; Some (2%nat, Put 1 11); Some (0%nat, Insert 17 0);
   None; Some (1%nat, Remove 17); None; Some (2%nat, Get 1); Some (0%nat, Get 17)].

Lemma montage_map_correct_witness :
  ∃ r t', montage_init (P := Z * Z) 3 (λ i, 8 * Z.of_nat i) 2 = Ret r ∧
    run_history (PayloadApi0 := montage_api bump (λ _, 256) 3) Z.lt (λ x, x) 16 map_history (new_ht 16 r) =
      (Ret [RVal None; RVal None; RVal (Some 10); RBool false; RVal (Some 170); RVal (Some 11); RVal None], t').
Proof.
  replace [RVal None; RVal None; RVal (Some 10); RBool false; RVal (Some 170); RVal (Some 11); RVal None]
    with (spec_history map_history ∅).1 by (vm_compute; reflexivity).
  apply (montage_map_correct Z.lt (λ x, x) 16 bump (λ _, 256) 3 (λ i, 8 * Z.of_nat i) 2 map_history);
    [apply top_fresh|apply top_pos|lia|lia|lia|simpl; unfold U64; lia|simpl; unfold SN_MASK; lia|lia|].
  intros tid o Hin. unfold map_history in Hin.
  repeat (apply elem_of_cons in Hin as [Hin|Hin]; [try discriminate; injection Hin as -> _; lia|]).
  by apply elem_of_nil in Hin.
Defined.

(** The same history, evaluated. *)
Example montage_map_run :
  match montage_init (P := Z * Z) 3 (λ i, 8 * Z.of_nat i) 2 with
  | Ret r => (run_history (PayloadApi0 := montage_api bump (λ _, 256) 3) Z.lt (λ x, x) 16 map_history (new_ht 16 r)).1
  | Throw e => Throw e
  end = Ret [RVal None; RVal None; RVal (Some 10); RBool false; RVal (Some 170); RVal (Some 11); RVal None].
Proof. vm_compute. reflexivity. Qed.

Lemma map_history_threads tid o : Some (tid, o) ∈ map_history → (tid < 3)%nat.
Proof.
  intros Hin. unfold map_history in Hin.
  repeat (apply elem_of_cons in Hin as [Hin|Hin]; [try discriminate; injection Hin as -> _; lia|]).
  by apply elem_of_nil in Hin.
Qed.

(** Start-up of the concrete system, with a budget of 100 calls. *)
Lemma bump_init_idle (P : Type) :
  ∃ r, montage_init (P := P) 3 (λ i, 8 * Z.of_nat i) 2 = Ret r ∧
    p_idle (PayloadLaws := e_laws (EpochLaws := montage_epochs bump (λ _, 256) 3 top_fresh top_pos) []) 100 r ∅.
Proof. apply montage_init_idle; unfold SN_MASK, U64; lia. Qed.

Lemma ht_refines_map_witness :
  ∃ r, montage_init (P := Z * Z) 3 (λ i, 8 * Z.of_nat i) 2 = Ret r ∧
  ∃ t' k' (L : gmap Z (Z * Z)) H,
    run_history (PayloadApi0 := montage_api bump (λ _, 256) 3) Z.lt (λ x, x) 16 map_history (new_ht 16 r) =
      (Ret (spec_history map_history ∅).1, t') ∧
    p_idle (PayloadLaws := e_laws (EpochLaws := montage_epochs bump (λ _, 256) 3 top_fresh top_pos) H) k' (HashTable.ds t') L ∧ unique_keys L ∧
    ∀ key v, (spec_history map_history ∅).2 !! key = Some v ↔ ∃ b, L !! b = Some (key, v).
Proof.
  destruct (bump_init_idle (Z * Z)) as (r & Hr & Hid). exists r. split; [done|].
  apply (ht_refines_map (EpochLaws0 := montage_epochs bump (λ _, 256) 3 top_fresh top_pos)
    Z.lt (λ x, x) 16 100 r map_history); [lia|exact Hid|simpl; lia|exact map_history_threads].
Defined.

Lemma ht_restart_roundtrip_witness :
  ∃ r, montage_init (P := Z * Z) 3 (λ i, 8 * Z.of_nat i) 2 = Ret r ∧
  ∃ t1 t2 k' (L : gmap Z (Z * Z)) H,
    run_history (PayloadApi0 := montage_api bump (λ _, 256) 3) Z.lt (λ x, x) 16 map_history (new_ht 16 r) =
      (Ret (spec_history map_history ∅).1, t1) ∧
    destroy (PayloadApi0 := montage_api bump (λ _, 256) 3) 0 t1 = (Ret tt, t2) ∧
    p_idle (PayloadLaws := e_laws (EpochLaws := montage_epochs bump (λ _, 256) 3 top_fresh top_pos) H) k' (HashTable.ds t2) L ∧
    ∀ payloads, NoDup payloads → (∀ b, b ∈ payloads ↔ is_Some (L !! b)) →
    ∃ t3 t4, HashTable.recover (PayloadApi0 := montage_api bump (λ _, 256) 3) Z.lt (λ x, x) 16 payloads
        (new_ht 16 (HashTable.ds t2)) = (Ret (Z.of_nat (length payloads)), t3) ∧
      run_history (PayloadApi0 := montage_api bump (λ _, 256) 3) Z.lt (λ x, x) 16 [Some (1%nat, Get 1)] t3 =
        (Ret (spec_history [Some (1%nat, Get 1)] (spec_history map_history ∅).2).1, t4).
Proof.
  destruct (bump_init_idle (Z * Z)) as (r & Hr & Hid). exists r. split; [done|].
  apply (ht_restart_roundtrip (EpochLaws0 := montage_epochs bump (λ _, 256) 3 top_fresh top_pos)
    Z.lt (λ x, x) 16 100 r map_history [Some (1%nat, Get 1)] 0);
    [lia|exact Hid|simpl; lia|exact map_history_threads|].
  intros tid o [[= -> _]|Hin%elem_of_nil]%elem_of_cons; [simpl; lia|done].
Defined.

Definition queue_history : hist (qop (T:=Z)) :=
  [Some (0%nat, Enq 5); Some (1%nat, Enq 6); None; Some (2%nat, Deq); None; Some (0%nat, Enq 7);
   Some (1%nat, Deq)].

Lemma mq_refines_fifo_witness :
  ∃ r, montage_init (P := Z * Z) 3 (λ i, 8 * Z.of_nat i) 2 = Ret r ∧
  ∃ t' k' H (L : gmap Z (Z * Z)),
    run_queue (PayloadApi0 := montage_api bump (λ _, 256) 3) bump queue_history (new_mq r) =
      (Ret (spec_queue queue_history []).1, t') ∧
    p_idle (PayloadLaws := e_laws (EpochLaws := montage_epochs bump (λ _, 256) 3 top_fresh top_pos) H) k' (MQueue.ds t') L ∧
    q_gen L [7].
Proof.
  destruct (bump_init_idle (Z * Z)) as (r & Hr & Hid). exists r. split; [done|].
  apply (mq_refines_fifo (EpochLaws0 := montage_epochs bump (λ _, 256) 3 top_fresh top_pos)
    bump 100 r queue_history); [apply top_fresh| |exact Hid|simpl; lia| |simpl; unfold U64; lia].
  - intros m. pose proof (top_pos m). lia.
  - intros tid o Hin. unfold queue_history in Hin.
    repeat (apply elem_of_cons in Hin as [Hin|Hin]; [try discriminate; injection Hin as -> _; simpl; lia|]).
    by apply elem_of_nil in Hin.
Defined.

Example montage_queue_run :
  match montage_init (P := Z * Z) 3 (λ i, 8 * Z.of_nat i) 2 with
  | Ret r => (run_queue (PayloadApi0 := montage_api bump (λ _, 256) 3) bump queue_history (new_mq r)).1
  | Throw e => Throw e
  end = Ret [None; None; Some (Some 5); None; Some (Some 6)].
Proof. vm_compute. reflexivity. Qed.

(** ** Crashes *)

(** One worker: key 1 is updated, key 17 removed, key 3 is too young. *)
Definition crash_history : hist (hop (K:=Z) (V:=Z)) :=
  [Some (0%nat, Put 17 170); Some (0%nat, Put 1 10); None; Some (0%nat, Put 1 11); Some (0%nat, Remove 17);
   None; Some (0%nat, Put 3 30); Some (0%nat, Put 1 12); None; Some (0%nat, Remove 1)].

Lemma crash_history_threads tid o : Some (tid, o) ∈ crash_history → tid = 0%nat.
Proof.
  intros Hin. unfold crash_history in Hin.
  repeat (apply elem_of_cons in Hin as [Hin|Hin]; [try discriminate; by injection Hin as -> _|]).
  by apply elem_of_nil in Hin.
Qed.


Definition queue_crash_history : hist (qop (T:=Z)) :=
  [Some (0%nat, Enq 5); Some (0%nat, Enq 6); None; Some (0%nat, Deq); None; Some (0%nat, Enq 7); None; Some (0%nat, Deq)].


(** The state after a run, and what recovery finds when everything in the heap
    has reached memory. *)
Definition run_state (n : nat) (h : hist (hop (K:=Z) (V:=Z))) :=
  match montage_init (P := Z * Z) n (λ i, 8 * Z.of_nat i) 2 with
  | Ret r => Some (run_history (PayloadApi0 := montage_api bump (λ _, 256) n) Z.lt (λ x, x) 16 h (new_ht 16 r)).2
  | Throw _ => None
  end.
Definition crash_full (r : recoverable (Z * Z) (table (FixedBuffers.FixedCircBuffer.fcb Z)) (list Z)) : list (Z * Z) :=
  let I := full_image (g (es r)) (heap (es r)) in
  match Recovery.recover false [I] [I] with
  | Ret rec => (map_to_list (recovered_payloads (heap (es r)) rec)).*2
  | Throw _ => []
  end.

Example crash_history_run :
  (λ t, crash_full (HashTable.ds t)) <$> run_state 1 crash_history = Some [(1, 11)].
Proof. vm_compute. reflexivity. Qed.

(** With two workers a deletion can be undone by a crash.  Thread 1 puts and
    updates key 5, thread 0 removes it; thread 1 starts no further operation,
    so its thread-local list still holds the replaced version when thread 0
    gives the deleted block and its anti-node back. *)
Definition undone_history : hist (hop (K:=Z) (V:=Z)) :=
  [Some (1%nat, Put 5 50); None; Some (1%nat, Put 5 51); None; Some (0%nat, Remove 5); None; None;
   Some (0%nat, Get 5); None; Some (0%nat, Get 5)].

(** [t] survives a crash that loses nothing with the payloads [l]. *)
Definition survives (l : list (Z * Z)) (t : ht (S := recoverable (Z * Z) (table (FixedBuffers.FixedCircBuffer.fcb Z)) (list Z))) : Prop :=
  map_Forall (λ _ x, blktype x ≠ EPOCH ∧ blktype x ≠ DESC) (heap (es (HashTable.ds t))) ∧
  crash_full (HashTable.ds t) = l.
#[local] Instance survives_dec l t : Decision (survives l t).
Proof. unfold survives. apply _. Defined.

Lemma crash_full_image r l : l ≠ [] → crash_full r = l →
  map_Forall (λ _ x, blktype x ≠ EPOCH ∧ blktype x ≠ DESC) (heap (es r)) →
  ∃ I rec, crash_image (g (es r)) (heap (es r)) I ∧ Recovery.recover false [I] [I] = Ret rec ∧
    (map_to_list (recovered_payloads (heap (es r)) rec)).*2 = l.
Proof.
  intros Hl Hr Hh. exists (full_image (g (es r)) (heap (es r))). unfold crash_full in Hr.
  destruct (Recovery.recover _ _ _) as [rec|e]; [|congruence]. exists rec. split_and!; [by apply full_image_crash|done..].
Qed.

(** C38. A durable deletion is undone by a crash.  After the
    history above the map is empty, and was empty before the last two epoch
    advances; in an image where everything has been written back recovery
    finds the binding of key 5 to 50, the version replaced by the second put. *)
Theorem deleted_key_resurrected :
  ∃ t, run_state 2 undone_history = Some t ∧ (spec_history (durable_part undone_history) ∅).2 = (∅ : gmap Z Z) ∧
    ∃ I rec, crash_image (g (es (HashTable.ds t))) (heap (es (HashTable.ds t))) I ∧
      Recovery.recover false [I] [I] = Ret rec ∧
      (map_to_list (recovered_payloads (heap (es (HashTable.ds t))) rec)).*2 = [(5, 50)].
Proof.
  assert (match run_state 2 undone_history with Some t => bool_decide (survives [(5, 50)] t) | None => false end = true)
    as H by (vm_compute; reflexivity).
  destruct (run_state 2 undone_history) as [t|]; [|done]. apply bool_decide_eq_true in H as [Hh Hl].
  exists t. split; [done|]. split; [vm_compute; reflexivity|]. by apply crash_full_image.
Qed.

(** ** Restarts *)

(** A crash that loses nothing, the restart with [n] threads and the recovery of
    the table. *)
Definition restart_full (n : nat) (r : recoverable (Z * Z) (table (FixedBuffers.FixedCircBuffer.fcb Z)) (list Z)) :=
  let I := full_image (g (es r)) (heap (es r)) in
  match montage_restart n (λ i, 8 * Z.of_nat i) 2 (heap (es r)) [I] [I] with
  | Ret (rec, r') =>
      Some (HashTable.recover (PayloadApi0 := montage_api bump (λ _, 256) n) Z.lt (λ x, x) 16 (map_to_list rec).*2 (new_ht 16 r')).2
  | Throw _ => None
  end.

(** [h1] by one thread, a crash, a restart, [h2]: the answers to [h2] and the state. *)
Definition run_twice (h1 h2 : hist (hop (K:=Z) (V:=Z))) :=
  match run_state 1 h1 with
  | None => None
  | Some t => match restart_full 1 (HashTable.ds t) with
              | None => None
              | Some t' => Some (run_history (PayloadApi0 := montage_api bump (λ _, 256) 1) Z.lt (λ x, x) 16 h2 t')
              end
  end.


Definition before_crash : hist (hop (K:=Z) (V:=Z)) :=
  [Some (0%nat, Put 1 10); None; None; Some (0%nat, Get 1)].
Definition after_crash : hist (hop (K:=Z) (V:=Z)) :=
  [Some (0%nat, Get 1); Some (0%nat, Put 2 20); None; None; Some (0%nat, Get 1); Some (0%nat, Get 2)].

(** C39. A second crash can lose a binding that survived the first one.  The
    restart initialises [uid_generator] as for an empty heap, so the first block
    allocated after it gets the identifier of the first block allocated before
    the crash.  Here key 1 is bound before the crash and found after the
    restart; key 2 is bound after the restart, and two epoch advances later both
    are there.  In an image of that state where everything has been written
    back, recovery takes the two blocks for versions of one and returns key 2
    only. *)
Theorem restart_reuses_ids :
  ∃ t, run_twice before_crash after_crash = Some (Ret [RVal (Some 10); RVal None; RVal (Some 10); RVal (Some 20)], t) ∧
    (spec_history (durable_part after_crash) (spec_history (durable_part before_crash) ∅).2).2 =
      (<[2 := 20]> (<[1 := 10]> ∅) : gmap Z Z) ∧
    ∃ I rec, crash_image (g (es (HashTable.ds t))) (heap (es (HashTable.ds t))) I ∧
      Recovery.recover false [I] [I] = Ret rec ∧
      (map_to_list (recovered_payloads (heap (es (HashTable.ds t))) rec)).*2 = [(2, 20)].
Proof.
  assert (match run_twice before_crash after_crash with
    | Some (Ret [RVal (Some 10); RVal None; RVal (Some 10); RVal (Some 20)], t) => bool_decide (survives [(2, 20)] t)
    | _ => false end = true) as H by (vm_compute; reflexivity).
  destruct (run_twice before_crash after_crash) as [[o t]|]; [|done].
  assert (bool_decide (survives [(2, 20)] t) = true ∧ o = Ret [RVal (Some 10); RVal None; RVal (Some 10); RVal (Some 20)])
    as [[Hh Hl]%bool_decide_eq_true ->] by (repeat case_match; simplify_eq; done).
  exists t. split; [done|]. split; [vm_compute; reflexivity|]. by apply crash_full_image.
Qed.
