(* ===== verification/GraphClients.v ===== *)
(** * The graph over the whole stack

    [MontageGraph] over [Recoverable] and the blocking [EpochSys], as in
    [Clients]: crash, restart and recovery of the graph, and runs that show where
    the code loses or invents edges. *)

From S2P Require Import Prelude PersistFunc UIDGen FixedBuffers Containers ToBePersisted TransTrackers ToBeFreed PersistTracker Dcss EpochSys Recovery Recoverable PayloadApi History EpochApi Versions Crash Restart Graph GraphOps GraphRecover Clients.

(** The graph that a crash after [h] leaves, when [a] was constructed before it *)
Definition durable_graph (h : hist gop) (a : agraph) : agraph :=
  if (2 <=? advances h)%nat then (spec_graph (durable_part h) a).2 else AG ∅ ∅.


(** ** Concrete instances *)

(** Four vertices; the coin leaves vertex 2 out, and the destination 1 is drawn
    twice for vertex 0. *)
Definition some_coins : list bool := [true; true; false; true].
Definition some_rng : list (list Z) := [[1; 3; 1]; [0; 2]].
Definition graph_history : hist gop :=
  [Some (0%nat, AddEdge 3 1 5); Some (0%nat, AddVertex 2 [2; 0; 3; 2]); None; Some (0%nat, HasEdge 2 3);
   Some (0%nat, AddEdge 0 1 9); None; Some (0%nat, RemoveVertex 1); Some (0%nat, HasEdge 3 1); None;
   Some (0%nat, RemoveEdge 0 3); Some (0%nat, RemoveVertex 1)].
Definition build_history : hist gop :=
  [Some (0%nat, AddVertex 1 []); Some (1%nat, AddVertex 3 [1; 2]); None; Some (2%nat, AddVertex 0 [3; 1; 0]);
   Some (1%nat, AddEdge 1 0 4); None; Some (2%nat, RemoveEdge 3 1); Some (0%nat, AddEdge 1 3 6)].
Definition more_history : hist gop :=
  [Some (0%nat, HasEdge 2 3); Some (1%nat, AddEdge 1 3 2); None; Some (2%nat, RemoveEdge 3 1); Some (1%nat, RemoveVertex 0)].

Ltac elems :=
  repeat match goal with
  | H : _ ∈ [] |- _ => by apply elem_of_nil in H
  | H : _ ∈ _ :: _ |- _ => apply elem_of_cons in H as [H|H]; simplify_eq/=
  end.
Ltac valid_history h :=
  intros tid o Hin; unfold h in Hin; elems; unfold valid_call, valid_op, inrange; simpl;
  split_and?; intros; elems; lia.

Lemma some_rng_range ks : ks ∈ some_rng → ∀ j, j ∈ ks → inrange 4 j.
Proof. unfold some_rng, inrange. intros Hks j Hj. elems; lia. Qed.
Lemma graph_history_valid : all_calls (λ tid o, tid = 0%nat ∧ valid_op 4 o) graph_history.
Proof. valid_history graph_history. Qed.
Lemma more_history_valid : all_calls (λ tid o, (tid < 3)%nat ∧ valid_op 4 o) more_history.
Proof. valid_history more_history. Qed.
Lemma build_history_valid : all_calls (λ tid o, (tid < 3)%nat ∧ valid_op 4 o) build_history.
Proof. valid_history build_history. Qed.
Lemma graph_history_valid3 : all_calls (λ tid o, (tid < 3)%nat ∧ valid_op 4 o) graph_history.
Proof. intros tid o Hin. destruct (graph_history_valid tid o Hin) as [-> ?]. split; [lia|done]. Qed.

Lemma graph_init_idle :
  ∃ r, montage_init (P := gpayload) 3 (λ i, 8 * Z.of_nat i) 2 = Ret r ∧
    p_idle (PayloadLaws := e_laws (EpochLaws := montage_epochs bump (λ _, 256) 3 top_fresh top_pos) []) 1000 r ∅.
Proof. apply montage_init_idle; unfold SN_MASK, U64; lia. Qed.

Notation api3 := (montage_api (P := gpayload) bump (λ _, 256) 3).
Notation epochs3 := (montage_epochs (P := gpayload) bump (λ _, 256) 3 top_fresh top_pos).
Notation api1 := (montage_api (P := gpayload) bump (λ _, 256) 1).


(** While thread 0 removes vertex 1, thread 1 gives it an edge, and thread 2
    removes it and adds it again. *)
Definition some_gaps : list (list (nat * gop)) :=
  [[(1%nat, AddEdge 3 1 8)]; [(2%nat, RemoveVertex 1); (2%nat, AddVertex 1 [0])]; []; [(1%nat, RemoveVertex 1)]].


Lemma graph_recover_roundtrip_witness :
  ∃ r, montage_init (P := gpayload) 3 (λ i, 8 * Z.of_nat i) 2 = Ret r ∧
  ∃ t1 k' (L : gmap Z gpayload) H, run_graph (PayloadApi0 := api3) build_history (Graph r (empty_meta 4)) =
      (Ret (spec_graph build_history (AG ∅ ∅)).1, t1) ∧
    p_idle (PayloadLaws := e_laws (EpochLaws := epochs3) H) k' (Graph.ds t1) L ∧
    ∀ recovered l0, NoDup recovered → (∀ b, b ∈ recovered ↔ is_Some (L !! b)) →
    ∃ t2 t3, recover (PayloadApi0 := api3) 4 [7; 0; 0; 3] recovered 2 [1; 0]%nat
        ((Fill <$> [1; 0]%nat) ++ (Copy <$> [0; 1]%nat)) [0; 1]%nat 2 (Graph (Graph.ds t1) l0) =
        (Ret (Z.of_nat (length recovered)), t2) ∧
      run_graph (PayloadApi0 := api3) more_history t2 = (Ret (spec_graph more_history (spec_graph build_history (AG ∅ ∅)).2).1, t3).
Proof.
  destruct graph_init_idle as (r & Hr & Hid). exists r. split; [done|].
  apply (graph_recover_roundtrip (EpochLaws0 := epochs3) 4 1000 r build_history more_history 2 2 [7; 0; 0; 3] [1; 0]%nat [1; 0]%nat [0; 1]%nat [0; 1]%nat);
    [exact Hid|simpl; lia|exact build_history_valid|exact more_history_valid|unfold cost; simpl; lia|done|lia|
     simpl; apply Permutation_swap|simpl; apply Permutation_swap|done|done].
Defined.


(** ** Lost and invented edges *)

(** The graph constructed with the vertices of [coins], then [h], by one thread *)
Definition graph_state (n : nat) (coins : list bool) (h : hist gop) :=
  match montage_init (P := gpayload) 1 (λ i, 8 * Z.of_nat i) 2 with
  | Ret r => match MontageGraph (PayloadApi0 := api1) n coins [] 0 (Graph r []) with
             | (Ret _, t) => Some (run_graph (PayloadApi0 := api1) h t)
             | _ => None
             end
  | Throw _ => None
  end.

(** After a crash that loses nothing: the restart and the recovery by two threads *)
Definition graph_restart (n : nat) (sched : list rec_step) (r : recoverable gpayload (table (FixedBuffers.FixedCircBuffer.fcb Z)) (list Z)) :=
  let I := full_image (g (es r)) (heap (es r)) in
  match montage_restart 1 (λ i, 8 * Z.of_nat i) 2 (heap (es r)) [I] [I] with
  | Ret (rec, r') =>
      Some (recover (PayloadApi0 := api1) n (replicate n 0) (map_to_list rec).*2 2 [0; 1]%nat sched [0; 1]%nat 0 (Graph r' []))
  | Throw _ => None
  end.
Definition graph_twice (n : nat) (coins : list bool) (h1 : hist gop) (sched : list rec_step) (h2 : hist gop) :=
  match graph_state n coins h1 with
  | Some (Ret l1, t) =>
      match graph_restart n sched (Graph.ds t) with
      | Some (Ret count, t') => Some (l1, count, (run_graph (PayloadApi0 := api1) h2 t').1)
      | _ => None
      end
  | _ => None
  end.

(** That image is one the crash can leave. *)
Definition full_is_image (n : nat) (coins : list bool) (h : hist gop) : Prop :=
  ∀ o t, graph_state n coins h = Some (o, t) →
    crash_image (g (es (Graph.ds t))) (heap (es (Graph.ds t))) (full_image (g (es (Graph.ds t))) (heap (es (Graph.ds t)))).
Lemma full_is_image_run n coins h :
  match graph_state n coins h with
  | Some (_, t) => bool_decide (map_Forall (λ _ x, blktype x ≠ EPOCH ∧ blktype x ≠ DESC) (heap (es (Graph.ds t))))
  | None => true
  end = true → full_is_image n coins h.
Proof. intros H o t Ht. rewrite Ht in H. apply bool_decide_eq_true in H. by apply full_image_crash. Qed.

Definition step_thread (x : rec_step) : nat := match x with Fill t => t | Copy t => t end.
(** Each of two threads fills, then copies. *)
Definition legal_schedule (sched : list rec_step) : Prop :=
  ∀ t, t = 0%nat ∨ t = 1%nat → filter (λ x, step_thread x = t) sched = [Fill t; Copy t].

(** Recovery of the graph can lose an edge.  Nothing makes a thread wait
    for the others between filling the buffers and copying the ones addressed to
    it.  An edge from vertex 1 to vertex 0 is durable and its block is
    recovered, all three blocks are counted; thread 1, which owns vertex 1, copies before thread 0 has
    found the edge, and the recovered graph does not have it.  When both
    threads have filled before any of them copies, it has it. *)
Theorem graph_recover_loses_edges :
  let h := [Some (0%nat, AddEdge 1 0 7); None; None] in
  let late := [Fill 1; Copy 1; Fill 0; Copy 0] in
  let good := [Fill 1; Fill 0; Copy 1; Copy 0] in
  legal_schedule late ∧ legal_schedule good ∧ full_is_image 2 [true; true] h ∧
  (spec_graph [Some (0%nat, HasEdge 1 0)] (durable_graph h (ctor_spec 2 [true; true] []))).1 = [true] ∧
  graph_twice 2 [true; true] h good [Some (0%nat, HasEdge 1 0)] = Some ([true], 3, Ret [true]) ∧
  graph_twice 2 [true; true] h late [Some (0%nat, HasEdge 1 0)] = Some ([true], 3, Ret [false]).
Proof.
  split; [by intros t [->| ->]|]. split; [by intros t [->| ->]|].
  split_and!; [apply full_is_image_run; vm_compute; reflexivity|vm_compute; reflexivity..].
Qed.

(** A rejected edge comes back.  [add_edge] allocates the payload before it tests for a loop and
    returns without giving it back; the next operation of the thread makes it
    part of its epoch.  The edge from vertex 0 to itself is rejected and
    is not in the graph; after two epoch advances, a crash and a restart it is,
    whether or not the threads wait for each other. *)
Theorem graph_self_loop_recovered :
  let h := [Some (0%nat, AddEdge 0 0 5); Some (0%nat, HasEdge 0 0); None; None] in
  (spec_graph [Some (0%nat, HasEdge 0 0)] (durable_graph [Some (0%nat, HasEdge 0 0); None; None] (ctor_spec 1 [true] []))).1 = [false] ∧
  full_is_image 1 [true] h ∧
  graph_twice 1 [true] h [Fill 0; Copy 0; Fill 1; Copy 1] [Some (0%nat, HasEdge 0 0)] = Some ([false; false], 2, Ret [true]) ∧
  graph_twice 1 [true] h [Fill 0; Fill 1; Copy 0; Copy 1] [Some (0%nat, HasEdge 0 0)] = Some ([false; false], 2, Ret [true]).
Proof. split_and!; [vm_compute; reflexivity|apply full_is_image_run; vm_compute; reflexivity|vm_compute; reflexivity..]. Qed.
